(* ===== verification/_CoqProject ===== *)
-Q . S2P
Prelude.v
GoBase.v
Job.v
Ident.v
Backoff.v
Queues.v
Interface.v
BrokerAPI.v
Memory.v
MemoryInv.v
MemorySpec.v
MemoryProps.v
MemoryExclusion.v
MemoryOps.v
MemoryInspect.v
MemoryBroker.v
Client.v
Calendar.v
Schedule.v
CronParse.v
CronProps.v
Server.v
Worker.v
Maintenance.v
Scheduler.v
Runtime.v
Demo.v
Lifecycle.v
Scheduled.v
WorkerDemo.v
WorkerRun.v
EndToEnd.v
RedisServer.v
RedisScripts.v
Redis.v
RedisKeys.v
RedisTypes.v
RedisInv.v
RedisRun.v
RedisScriptSpecs.v
RedisBroker.v
RedisOps.v
RedisProps.v
RedisNetwork.v
Cleanup.v
Chaos.v
Bench.v
Processes.v
TestUtil.v
