(* ===== verification/Prelude.v ===== *)
(** * taskq: a verification library for the go-dist-task-queue repository

    taskq is a distributed task queue in Go. Producers enqueue jobs through a client;
    workers claim them from a broker under a lease, run a handler and report the
    outcome; sweeps give the jobs of dead workers back and promote what has become due;
    one elected worker fires cron schedules. Two brokers implement the same interfaces,
    one in memory and one on Redis, where every state change is a Lua script.

    ** The parts and the files

    Shared. [Prelude] (notations, results, hint databases, lemmas on lists, maps and
    strings), [GoBase] (Go's int64, durations, times, errors and errors.Is), [Job] (job.go:
    the envelope and the lifecycle graph), [Ident] (job.go: NewID), [Backoff] (backoff.go),
    [Queues] (queues.go: the weighted order in which queues are tried).

    Interfaces. [Interface] (the types of broker.go and cron.go), [BrokerAPI] (the
    interfaces Broker, Maintenance and CronStore as classes of operations over the state
    of an implementation, and what their callers rely on as classes of laws). The
    client, the worker and the scheduler are written and proved against these classes;
    both brokers are instances.

    The in-memory broker (internal/memory). [Memory] (the record Broker and one function
    per method), [MemoryInv] (its invariant), [MemorySpec] (what each operation does,
    and the abstract machine of jobs it refines), [MemoryProps], [MemoryExclusion],
    [MemoryOps], [MemoryInspect] (theorems), [MemoryBroker] (the instances).

    The Redis broker (internal/rdb). [RedisServer] (the commands the repository uses and
    what Redis documents of them; Redis itself is a parameter, with that behaviour as
    its law), [RedisScripts] (the twelve Lua scripts as programs of commands), [Redis]
    (the Go methods: key layout, arguments, decoding), [RedisKeys] (names of keys, their
    types, the commands on them), [RedisTypes] (every script suits the types of its
    keys, and which keys it can reach), [RedisInv] (the invariant), [RedisRun] (rules to
    execute scripts and to move a job between places), [RedisScriptSpecs] (what each
    script does), [RedisBroker] (the instances), [RedisOps] (executions of calls),
    [RedisProps] (theorems), [RedisNetwork] (theorems about calls that are lost or repeated
    on the way).

    The program around the broker. [Client] (client.go, handler.go), [Calendar],
    [Schedule], [CronParse], [CronProps] (internal/cron: the civil calendar, the search
    for the next fire time, the parser and its properties), [Server] (server.go, cron.go:
    configuration), [Worker] (worker.go and the loops of server.go: a transition system
    over the atomic actions of the worker's goroutines), [Maintenance] (maintenance.go),
    [Scheduler] (scheduler.go), [Runtime] (Run of server.go: the whole process, with its
    contexts, background loops and return), [EndToEnd] (the components together).

    The programs under examples/. [Demo] (a monad for programs that call the library, fail
    and print, and the children of a coordinator), [Lifecycle], [Scheduled], [WorkerDemo]
    and [WorkerRun], [Chaos], [Bench] (the programs), [Cleanup] (how they open a broker and
    remove the keys of a run), [Processes] (how the programs with several processes start
    their workers). [TestUtil] is internal/testutil. [Scheduled] composes processes of
    [Runtime] on one broker and [WorkerRun] a process with its handlers and its canceller;
    [Chaos] is a fleet of workers on one Redis server that are killed at any moment.

    ** State and operations

    A method that changes state is a function from the state, the clock reading [now] and
    the generated identifier, where the code makes one, to the new state and the result; an
    error is a value that [Is] can be asked about. A mutex or a script makes each method
    atomic, so concurrent callers are sequences of calls ([exec] of MemoryInv and [run] of
    MemoryProps, [rexec] and [rrun] of RedisOps), and a theorem about all interleavings is a
    theorem about all sequences. Times are nanoseconds from the epoch as Z, with Go's zero
    time as the constant [zeroTime]; arithmetic that can overflow is wrapped to 64 bits
    where the code computes it ([wrap64]). The worker's goroutines interleave at the
    granularity of their calls on shared data ([wstep], and [pstep] for the whole process).
    The caller may cancel its context at any moment; a sleep ends when its timer does or, if
    its context is done, at once.

    ** What the theorems show

    Jobs are safe: each is in exactly one place, moves along the lifecycle graph, is lost
    only when it is acknowledged or purged, is delivered a bounded number of times; a
    running lease excludes others, and a worker that lost its lease can no longer report
    ([MemoryProps], [MemoryExclusion], [RedisProps]). Operations are exact: what claims,
    reports, sweeps, promotion, replay do, and that an error changes nothing in memory
    ([MemoryOps], [MemoryInspect], [RedisProps]). Redis implements the interfaces: on any
    server that keeps to the documentation, the scripts satisfy the laws the other
    components rely on ([RedisProps.redis_implements]). An unreliable network is harmless
    where the code protects against it: a call may be executed any number of times and its
    reply lost, and still a unique key that is kept for a millisecond or more admits one
    job, a report counts once and a claim that nobody knows of is undone ([RedisNetwork];
    [enqueue_repeated] there shows what is not protected, an Enqueue without a unique key).
    The client stores what its options say ([Client]); a worker keeps to its concurrency,
    renews the leases of its runs (where a job has one run at a time in it), reports
    outcomes, and drains ([Worker]); configuration is validated ([Server]); orphans are
    recovered and a tick becomes one job ([EndToEnd], [Scheduler]); the background loops
    live as long as they must, the whole process refines the worker, and Run can always
    return ([Runtime]). Schedules: parsing is the inverse of printing, and the search ends
    and finds the first match ([Schedule], [CronProps]). Backoff and the queue order are
    correct at machine width ([Backoff], [Queues]). The examples show what they claim: the
    lifecycle transcript, the handover of leadership, exact counts under any interleaving,
    no job lost across a hard kill, all keys removed if no scan or deletion fails,
    percentiles of the right rank; the children of a coordinator are workers of its run
    ([Processes]), and tests that share a server do not share keys ([TestUtil]).

    ** Bounds and fuel

    Loops are structural recursion over the data they range over. The search for the next
    fire time runs for at most [searchSteps] = 2,628,001 steps, one more than the minutes in
    the five years the code looks ahead, and [next_first] shows that it always ends within
    them: [Next_within] tells a search that did not end from one that found nothing. The
    doubling loop of the backoff has the attempt number as its measure. The failing loop of
    the lifecycle program gets fuel, of which 3 is enough, as [lifecycle_completes] shows;
    the polling loops of the examples run on sequences of what they read, with fuel for the
    number of rounds, and the loop that scans for keys ends within the bound that follows
    from what Redis documents, whichever of its deletions fail ([cleanup_complete]). The
    loop that sets the bits of a cron term runs at most once per value of its range, as its
    step is at least 1 ([bits_loop_spec]). Percentiles are checked for up to [most_samples]
    = 1000 samples, twice what the benchmark takes, by evaluation. The inner loop of
    dequeue.lua makes 20 tries, as in the script. Scripts compute with integers below 2^53,
    where Lua's numbers are exact; the laws ask for clocks between the epoch and the year
    2116 and attempt budgets up to 2^53 for that reason.

    ** What is not modelled

    Logging; the difference between the clocks of a client and of the server; connections as
    such: that a call or a reply is lost is represented by what the server executes; the
    lengths of sleeps are modelled, not their passing; locations other than UTC and daylight
    saving in schedules; time.ParseDuration, json.Marshal, fmt.Sscan, SCAN, the random
    source and the random bytes of identifiers, which are parameters; counters beyond 64
    bits. Of the examples, the results of connecting, of starting and of killing processes
    are parameters, and lines of output that show progress or the time of day are left out.
    The loops that remove the keys of a run are alone on the server.
    The container that internal/testutil starts for the tests is a parameter; the tests
    themselves are not modelled. *)

From stdpp Require Export base relations gmap strings list sorting pretty.
From Stdlib Require Export ZArith Lia.

(** ** Notations *)

Declare Scope taskq_scope.
Delimit Scope taskq_scope with taskq.
Open Scope Z_scope.
Open Scope taskq_scope.

(** ** Hint databases: [taskq] collects the rewriting and resolution lemmas of
    the library. *)
Create HintDb taskq.
Create Rewrite HintDb taskq.

(** Go's comma-ok map read with a zero value for the missing key. *)
Notation "m .[ k | d ]" := (default d (m !! k))
  (at level 1, left associativity, format "m .[ k | d ]") : taskq_scope.

(** ** Results: a value or an error, as the [(T, error)] pairs of Go *)

Inductive result (E A : Type) : Type :=
| Ok (a : A)
| Err (e : E).
Arguments Ok {E A} a.
Arguments Err {E A} e.

Definition is_ok {E A} (r : result E A) : bool :=
  match r with Ok _ => true | Err _ => false end.

#[export] Instance result_eq_dec {E A} `{EqDecision E} `{EqDecision A} : EqDecision (result E A).
Proof. solve_decision. Defined.

#[export] Instance result_ret {E} : MRet (result E) := λ A a, Ok a.

#[export] Instance result_bind {E} : MBind (result E) := λ A B f r,
  match r with Ok a => f a | Err e => Err e end.

(** ** Machine integers *)

(** Two's-complement reduction to Go's [int64] (and [int] on a 64-bit platform). *)
Definition wrap64 (z : Z) : Z := (z + 2 ^ 63) `mod` 2 ^ 64 - 2 ^ 63.

Definition int64_range (z : Z) : Prop := - 2 ^ 63 ≤ z < 2 ^ 63.

(** Reduction to [uint64] (and [uint]). *)
Definition wrapu64 (z : Z) : Z := z `mod` 2 ^ 64.

(** ** Bounded loops

    [loop p f s] runs [f] at most [p] times, stopping at the first [inr]. The
    bound is a binary number, so a bound of millions costs nothing unless the
    loop really runs that long. *)
Fixpoint loop {S R : Type} (p : positive) (f : S → S + R) (s : S) : S + R :=
  match p with
  | xH => f s
  | xO p => match loop p f s with inl s' => loop p f s' | inr r => inr r end
  | xI p =>
      match f s with
      | inl s' => match loop p f s' with inl s'' => loop p f s'' | inr r => inr r end
      | inr r => inr r
      end
  end.

(** The same loop with a unary bound, one unrolling at a time, for the proofs. *)
Fixpoint loop_nat {S R : Type} (n : nat) (f : S → S + R) (s : S) : S + R :=
  match n with
  | O => inl s
  | Datatypes.S n => match f s with inl s' => loop_nat n f s' | inr r => inr r end
  end.

(** ** Sorting pairs by (time, identifier)

    The in-memory broker sorts candidates with [sort.Slice] by time, ties
    broken by identifier. *)
Definition key_le (x y : Z * string) : Prop :=
  x.1 < y.1 ∨ (x.1 = y.1 ∧ String.le x.2 y.2).

#[export] Instance key_le_dec x y : Decision (key_le x y).
Proof. unfold key_le. apply _. Defined.

(** Sorting by a key: the order [key_le] pulled back along a projection. *)
Definition by_key {A} (k : A → Z * string) (x y : A) : Prop := key_le (k x) (k y).

#[export] Instance by_key_dec {A} (k : A → Z * string) x y : Decision (by_key k x y).
Proof. unfold by_key. apply _. Defined.

(** ** Lemmas on machine integers *)

Lemma wrap64_id z : int64_range z → wrap64 z = z.
Proof. unfold int64_range, wrap64. intros. rewrite Z.mod_small; lia. Qed.

Lemma wrap64_range z : int64_range (wrap64 z).
Proof.
  unfold int64_range, wrap64.
  pose proof (Z.mod_pos_bound (z + 2 ^ 63) (2 ^ 64)). lia.
Qed.

Lemma wrapu64_id z : 0 ≤ z < 2 ^ 64 → wrapu64 z = z.
Proof. intros. by apply Z.mod_small. Qed.

(** ** Lemmas on bounded loops *)

Section loop.
Context {S R : Type}.
Implicit Types (f : S → S + R).

Lemma loop_nat_add n m f s :
  loop_nat (n + m) f s =
    match loop_nat n f s with inl s' => loop_nat m f s' | inr r => inr r end.
Proof.
  revert s. induction n as [|n IH]; intros s; [done|].
  simpl. destruct (f s); [apply IH|done].
Qed.

Lemma loop_loop_nat p f s : loop p f s = loop_nat (Pos.to_nat p) f s.
Proof.
  revert s. induction p as [p IH|p IH|]; intros s.
  - rewrite Pos2Nat.inj_xI. simpl. destruct (f s) as [s'|]; [|done].
    rewrite Nat.add_0_r, loop_nat_add, IH.
    destruct (loop_nat _ f s'); [apply IH|done].
  - rewrite Pos2Nat.inj_xO. simpl.
    rewrite Nat.add_0_r, loop_nat_add, IH.
    destruct (loop_nat _ f s); [apply IH|done].
  - simpl. by destruct (f s).
Qed.

(** A larger bound does not change the result of a loop that has ended. *)
Lemma loop_more p q f s r : loop p f s = inr r → (p ≤ q)%positive → loop q f s = inr r.
Proof.
  rewrite !loop_loop_nat. intros Hr Hpq.
  replace (Pos.to_nat q) with (Pos.to_nat p + (Pos.to_nat q - Pos.to_nat p))%nat by lia. by rewrite loop_nat_add, Hr.
Qed.

(** A loop whose continuing iterations keep [P] and decrease the measure [m]
    ends within any bound above the initial measure, in a value satisfying [Q]. *)
Lemma loop_terminates (P : S → Prop) (Q : R → Prop) (m : S → Z) f :
  (∀ s, P s → match f s with
              | inl s' => P s' ∧ m s' < m s ∧ 0 ≤ m s'
              | inr r => Q r end) →
  ∀ p s, P s → m s < Z.pos p → ∃ r, loop p f s = inr r ∧ Q r.
Proof.
  intros Hstep p s HP Hm. rewrite loop_loop_nat.
  assert (m s < Z.of_nat (Pos.to_nat p)) as Hn by lia.
  assert (0 < Pos.to_nat p)%nat as Hpos by lia.
  clear Hm. revert Hn Hpos. generalize (Pos.to_nat p) as n. clear p.
  intros n. revert s HP.
  induction n as [|n IH]; intros s HP Hn Hpos; [lia|].
  simpl. specialize (Hstep s HP). destruct (f s) as [s'|r]; [|by eauto].
  destruct Hstep as (HP' & Hlt & H0). apply IH; [done|lia|lia].
Qed.
End loop.

(** ** Lemmas on sorting *)

#[export] Instance key_le_refl : Reflexive key_le.
Proof. intros [t i]. right. by split. Qed.

#[export] Instance key_le_trans : Transitive key_le.
Proof.
  intros [t1 i1] [t2 i2] [t3 i3]. unfold key_le. simpl.
  intros [?|[-> ?]] [?|[-> ?]]; auto with lia.
  right. split; [done|]. by etrans.
Qed.

#[export] Instance key_le_antisym : AntiSymm (=) key_le.
Proof.
  intros [t1 i1] [t2 i2]. unfold key_le. simpl.
  intros [?|[-> ?]] [?|[? ?]]; try lia.
  f_equal. by apply (anti_symm String.le).
Qed.

#[export] Instance key_le_total : Total key_le.
Proof.
  intros [t1 i1] [t2 i2]. unfold key_le. simpl.
  destruct (Z.lt_trichotomy t1 t2) as [?|[->|?]]; auto.
  destruct (total String.le i1 i2); auto.
Qed.

#[export] Instance by_key_trans {A} (k : A → Z * string) : Transitive (by_key k).
Proof. intros x y z. unfold by_key. apply key_le_trans. Qed.

#[export] Instance by_key_total {A} (k : A → Z * string) : Total (by_key k).
Proof. intros x y. unfold by_key. apply key_le_total. Qed.

(** Any two sorted arrangements of the same elements agree when keys are
    distinct: the outcome of [sort.Slice] does not depend on the algorithm, nor
    on the order in which Go ranges over a map. *)
Lemma by_key_sorted_unique {A} (k : A → Z * string) (l1 l2 : list A) :
  (∀ x y, x ∈ l1 → y ∈ l1 → k x = k y → x = y) →
  Sorted (by_key k) l1 → Sorted (by_key k) l2 → l1 ≡ₚ l2 → l1 = l2.
Proof.
  intros Hinj H1 H2 HP. apply (Sorted_unique_strong (by_key k)); try done.
  intros x y Hx Hy Hxy Hyx. apply Hinj; [done|by rewrite HP|].
  by apply (anti_symm key_le).
Qed.

Lemma merge_sort_perm_eq {A} (k : A → Z * string) (l1 l2 : list A) :
  (∀ x y, x ∈ l1 → y ∈ l1 → k x = k y → x = y) →
  l1 ≡ₚ l2 → merge_sort (by_key k) l1 = merge_sort (by_key k) l2.
Proof.
  intros Hinj HP. apply (by_key_sorted_unique k).
  - intros x y. rewrite !merge_sort_Permutation. apply Hinj.
  - apply Sorted_merge_sort, _.
  - apply Sorted_merge_sort, _.
  - by rewrite !merge_sort_Permutation.
Qed.

(** ** Entries of a map that satisfy a condition, in any order *)

Lemma NoDup_fst_filter {K V} (l : list (K * V)) (P : K * V → Prop) `{∀ e, Decision (P e)} :
  NoDup l.*1 → NoDup (filter P l).*1.
Proof.
  induction l as [|e l IH]; [done|]. rewrite fmap_cons, NoDup_cons. intros [He Hl].
  rewrite filter_cons. case_decide; [|by apply IH].
  rewrite fmap_cons. apply NoDup_cons. split; [|by apply IH].
  intros (e' & Heq & He')%list_elem_of_fmap. apply list_elem_of_filter in He' as [_ He'].
  apply He. rewrite Heq. by apply list_elem_of_fmap_2.
Qed.

Lemma NoDup_filter_entries {V} (m : gmap string V) (P : string * V → Prop) `{∀ e, Decision (P e)} :
  NoDup (filter P (map_to_list m)).*1.
Proof. apply NoDup_fst_filter, NoDup_fst_map_to_list. Qed.

Lemma elem_of_filter_entries {V} (m : gmap string V) (P : string * V → Prop)
    `{∀ e, Decision (P e)} e :
  e ∈ filter P (map_to_list m) ↔ P e ∧ m !! e.1 = Some e.2.
Proof. rewrite list_elem_of_filter. destruct e as [k v]. by rewrite elem_of_map_to_list. Qed.

(** ** Filters *)

Lemma filter_all {A} (P : A → Prop) `{∀ x, Decision (P x)} (l : list A) :
  (∀ x, x ∈ l → P x) → filter P l = l.
Proof.
  induction l as [|x l IH]; intros Hl; [done|].
  rewrite filter_cons, decide_True by (apply Hl; by left).
  f_equal. apply IH. intros y Hy. apply Hl. by right.
Qed.

Lemma filter_iff_elem {A} (P Q : A → Prop) `{∀ x, Decision (P x)} `{∀ x, Decision (Q x)} (l : list A) :
  (∀ x, x ∈ l → P x ↔ Q x) → filter P l = filter Q l.
Proof.
  induction l as [|x l IH]; intros Hl; [done|].
  rewrite !filter_cons, IH by (intros; apply Hl; by right).
  pose proof (Hl x (list_elem_of_here _ _)). repeat case_decide; tauto.
Qed.

Lemma filter_ext_elem {A} (f g : A → bool) (l : list A) :
  (∀ x, x ∈ l → f x = g x) → filter (λ x, f x = true) l = filter (λ x, g x = true) l.
Proof. intros H. apply filter_iff_elem. intros x Hx. by rewrite H. Qed.

(** Two duplicate-free lists with the same elements have the same length. *)
Lemma NoDup_same_length {A} (l1 l2 : list A) :
  NoDup l1 → NoDup l2 → (∀ x, x ∈ l1 ↔ x ∈ l2) → length l1 = length l2.
Proof. intros. by apply Permutation_length, NoDup_Permutation. Qed.

(** The size of a map without some of its keys. *)
Lemma map_size_without {V} (m : gmap string V) (l : list string) :
  NoDup l → (∀ i, i ∈ l → is_Some (m !! i)) →
  size (filter (λ e, e.1 ∉ l) m) = (size m - length l)%nat.
Proof.
  revert m. induction l as [|i l IH]; intros m Hnd Hin.
  { simpl. rewrite Nat.sub_0_r, map_filter_id; [done|]. intros. apply not_elem_of_nil. }
  apply NoDup_cons in Hnd as [Hi Hnd].
  assert (filter (λ e, e.1 ∉ i :: l) m = filter (λ e, e.1 ∉ l) (delete i m)) as ->.
  { apply map_eq. intros k. apply option_eq. intros x. rewrite !map_lookup_filter_Some, lookup_delete_Some. simpl.
    rewrite not_elem_of_cons. naive_solver. }
  rewrite IH; [|done|].
  - rewrite map_size_delete_Some by (apply Hin; by left). simpl. lia.
  - intros k Hk. rewrite lookup_delete_ne; [apply Hin; by right|]. by intros ->.
Qed.

(** ** Numbers written out between separators *)

Definition colon : Ascii.ascii := Ascii.ascii_of_nat 58.

Lemma no_colon_go x s :
  colon ∉ String.list_ascii_of_string s → colon ∉ String.list_ascii_of_string (pretty_N_go x s).
Proof.
  revert s. induction (N.lt_wf_0 x) as [x _ IH]; intros s Hs.
  assert (x = 0 ∨ 0 < x)%N as [->|Hx] by lia; [by rewrite pretty_N_go_0|].
  rewrite pretty_N_go_step by done. apply IH; [by apply N.div_lt|].
  cbn [String.list_ascii_of_string]. rewrite not_elem_of_cons. split; [|done].
  unfold pretty_N_char. by repeat case_match.
Qed.

(** A number in decimal has no colon. *)
Lemma no_colon_Z (z : Z) : colon ∉ String.list_ascii_of_string (pretty z).
Proof.
  assert (∀ p : positive, colon ∉ String.list_ascii_of_string (pretty p)) as Hp.
  { intros p. apply no_colon_go. apply not_elem_of_nil. }
  destruct z as [|p|p]; [|apply Hp|].
  - apply (bool_decide_unpack _). by vm_compute.
  - apply not_elem_of_cons. by split.
Qed.

Lemma ascii_app s1 s2 :
  String.list_ascii_of_string (s1 +:+ s2) = String.list_ascii_of_string s1 ++ String.list_ascii_of_string s2.
Proof. induction s1 as [|c s1 IH]; [done|]. cbn. by rewrite <- IH. Qed.

Lemma ascii_inj s1 s2 : String.list_ascii_of_string s1 = String.list_ascii_of_string s2 → s1 = s2.
Proof.
  intros H. rewrite <- (String.string_of_list_ascii_of_string s1), H.
  apply String.string_of_list_ascii_of_string.
Qed.

Lemma string_app_assoc (s1 s2 s3 : string) : (s1 +:+ s2) +:+ s3 = s1 +:+ s2 +:+ s3.
Proof. apply ascii_inj. rewrite !ascii_app. by rewrite app_assoc. Qed.

Lemma string_app_inj (s s1 s2 : string) : s +:+ s1 = s +:+ s2 → s1 = s2.
Proof. induction s as [|c s IH]; [done|]. intros H. apply IH. by injection H. Qed.

(** What follows the last separator determines both sides. *)
Lemma split_last {A} (c : A) (l1 l2 k1 k2 : list A) :
  c ∉ k1 → c ∉ k2 → l1 ++ c :: k1 = l2 ++ c :: k2 → l1 = l2 ∧ k1 = k2.
Proof.
  revert l2. induction l1 as [|a l1 IH]; intros [|b l2] H1 H2 Heq; simplify_eq/=.
  - done.
  - destruct H1. set_solver.
  - destruct H2. set_solver.
  - destruct (IH l2 H1 H2) as [-> ->]; done.
Qed.

(** What precedes the first separator, too. *)
Lemma split_first {A} (c : A) (l1 l2 k1 k2 : list A) :
  c ∉ l1 → c ∉ l2 → l1 ++ c :: k1 = l2 ++ c :: k2 → l1 = l2 ∧ k1 = k2.
Proof.
  revert l2. induction l1 as [|a l1 IH]; intros [|b l2] H1 H2 Heq; simplify_eq/=.
  - done.
  - destruct H2. set_solver.
  - destruct H1. set_solver.
  - destruct (IH l2) as [-> ->]; [set_solver|set_solver|done|done].
Qed.

(** ** Executions *)

(** What a step preserves holds of everything reachable. *)
Lemma rtc_invariant {A} (R : relation A) (P : A → Prop) x y :
  (∀ x y, P x → R x y → P y) → rtc R x y → P x → P y.
Proof. intros Hstep Hr. induction Hr; eauto. Qed.
