(* ===== verification/GoBase.v ===== *)
(** * The Go values the queue is written with: instants, durations, errors

    An instant ([time.Time]) is a number of nanoseconds since the Unix epoch,
    unbounded as in Go (whose range is hundreds of billions of years); a
    duration is an [int64] count of nanoseconds. Monotonic-clock readings and
    locations are not represented: every comparison of the repository is on the
    instant itself. *)
From S2P Require Import Prelude.

(** ** time.Duration *)

Definition Nanosecond : Z := 1.
Definition Millisecond : Z := 1000000.
Definition Second : Z := 1000 * Millisecond.
Definition Minute : Z := 60 * Second.
Definition Hour : Z := 60 * Minute.

(** ** time.Time *)

(** The zero [time.Time]: 1 January of year 1, 00:00:00 UTC. *)
Definition zeroTime : Z := -62135596800 * Second.

Definition IsZero (t : Z) : bool := bool_decide (t = zeroTime).

(** [t.After(u)], [t.Before(u)], [t.Equal(u)], [t.Add(d)]. *)
Definition After (t u : Z) : bool := bool_decide (u < t).
Definition Before (t u : Z) : bool := bool_decide (t < u).
Definition Equal (t u : Z) : bool := bool_decide (t = u).
Definition Add (t d : Z) : Z := t + d.

(** [t.UnixMilli()]: floor division, as the seconds/nanoseconds split of Go gives. *)
Definition UnixMilli (t : Z) : Z := t `div` Millisecond.

(** ** errors.go *)

(** The sentinel errors, compared by identity. *)
Inductive sentinel :=
| ErrNoJob
| ErrLeaseLost
| ErrDuplicate
| ErrJobNotFound
| ErrInvalidTask
| ErrClosed
| ErrNoHandler
| ErrSkipRetry.

(** An error value: a sentinel, a [*DuplicateError], or the result of
    [fmt.Errorf] / [errors.New], kept as its format, the string arguments of its
    verbs and the errors its [%w] verbs wrap. *)
Inductive error :=
| Sentinel (s : sentinel)
| DuplicateError (UniqueKey ExistingID : string)
| Errorf (format : string) (args : list string) (wrapped : list error).

Abbreviation res A := (result error A).

#[export] Instance sentinel_eq_dec : EqDecision sentinel.
Proof. solve_decision. Defined.

(** [(e *DuplicateError) Unwrap]. *)
Definition DuplicateError_Unwrap : sentinel := ErrDuplicate.

(** [errors.Is err target] for a sentinel target: the error itself or anything
    its chain of [Unwrap] reaches. *)
Fixpoint Is (err : error) (target : sentinel) : bool :=
  match err with
  | Sentinel s => bool_decide (s = target)
  | DuplicateError _ _ => bool_decide (DuplicateError_Unwrap = target)
  | Errorf _ _ ws =>
      (fix any (l : list error) : bool :=
         match l with [] => false | w :: l => Is w target || any l end) ws
  end.

(** [errors.New]. *)
Definition errors_New (msg : string) : error := Errorf msg [] [].

(** ** Panics *)

(** A computation that may panic. *)
Inductive may_panic (A : Type) :=
| Done (a : A)
| Panic (msg : string).
Arguments Done {A} a.
Arguments Panic {A} msg.

(** ** Lemmas *)

Lemma After_spec t u : After t u = true ↔ u < t.
Proof. apply bool_decide_eq_true. Qed.

Lemma After_false t u : After t u = false ↔ t ≤ u.
Proof. unfold After. rewrite bool_decide_eq_false. lia. Qed.

Lemma Before_spec t u : Before t u = true ↔ t < u.
Proof. apply bool_decide_eq_true. Qed.

Lemma Equal_spec t u : Equal t u = true ↔ t = u.
Proof. apply bool_decide_eq_true. Qed.

Lemma Is_Errorf f args ws target :
  Is (Errorf f args ws) target = existsb (λ w, Is w target) ws.
Proof. simpl. induction ws as [|w ws IH]; simpl; [done|]. by rewrite IH. Qed.

#[export] Hint Rewrite After_spec After_false Before_spec Equal_spec : taskq.

(** Durations as numbers. *)
Ltac unfold_durations := unfold Hour, Minute, Second, Millisecond, Nanosecond in *.
