(* ===== verification/Job.v ===== *)
(** * Jobs and their lifecycle (job.go)

    The job envelope, the lifecycle graph [validTransitions] and the pure
    methods on jobs. *)
From S2P Require Import Prelude GoBase.
From Stdlib Require Import Strings.Byte.

(** ** States. [State] is a Go string type; the constants are its values. *)

Abbreviation State := string (only parsing).

Definition StateScheduled : State := "scheduled".
Definition StateRetry : State := "retry".
Definition StatePending : State := "pending".
Definition StateActive : State := "active".
Definition StateCompleted : State := "completed".
Definition StateDead : State := "dead".

(** The lifecycle graph. The empty state is that of a job not yet enqueued. *)
Definition validTransitions : list (State * list State) :=
  [ ("", [StatePending; StateScheduled]);
    (StateScheduled, [StatePending]);
    (StateRetry, [StatePending]);
    (StatePending, [StateActive]);
    (StateActive, [StateCompleted; StateRetry; StateDead; StatePending]);
    (StateCompleted, []);
    (StateDead, [StatePending]) ].

(** Reading the map literal at a key. *)
Fixpoint lookup_transitions (l : list (State * list State)) (s : State) : option (list State) :=
  match l with
  | [] => None
  | (k, v) :: l => if String.eqb k s then Some v else lookup_transitions l s
  end.

Definition CanTransition (from to : State) : bool :=
  existsb (λ s, String.eqb s to) (default [] (lookup_transitions validTransitions from)).

Definition Valid (s : State) : bool :=
  match lookup_transitions validTransitions s with
  | Some _ => negb (String.eqb s "")
  | None => false
  end.

(** ** The job envelope *)

Record Job := mkJob {
  ID : string;
  Queue : string;
  Type_ : string;
  Payload : option (list byte);
  Attempt : Z;
  MaxAttempts : Z;
  Recoveries : Z;
  State_ : State;
  Owner : string;
  UniqueKey : string;
  UniqueTTL : Z;
  LastErr : string;
  EnqueuedAt : Z;
  RunAt : Z;
  StartedAt : Z;
  Deadline : Z
}.

(** Field assignments [j.F = v]. *)

Definition set_ID v (j : Job) : Job :=
  mkJob v (Queue j) (Type_ j) (Payload j) (Attempt j) (MaxAttempts j) (Recoveries j) (State_ j)
    (Owner j) (UniqueKey j) (UniqueTTL j) (LastErr j) (EnqueuedAt j) (RunAt j) (StartedAt j)
    (Deadline j).
Definition set_Queue v (j : Job) : Job :=
  mkJob (ID j) v (Type_ j) (Payload j) (Attempt j) (MaxAttempts j) (Recoveries j) (State_ j)
    (Owner j) (UniqueKey j) (UniqueTTL j) (LastErr j) (EnqueuedAt j) (RunAt j) (StartedAt j)
    (Deadline j).
Definition set_Attempt v (j : Job) : Job :=
  mkJob (ID j) (Queue j) (Type_ j) (Payload j) v (MaxAttempts j) (Recoveries j) (State_ j)
    (Owner j) (UniqueKey j) (UniqueTTL j) (LastErr j) (EnqueuedAt j) (RunAt j) (StartedAt j)
    (Deadline j).
Definition set_MaxAttempts v (j : Job) : Job :=
  mkJob (ID j) (Queue j) (Type_ j) (Payload j) (Attempt j) v (Recoveries j) (State_ j) (Owner j)
    (UniqueKey j) (UniqueTTL j) (LastErr j) (EnqueuedAt j) (RunAt j) (StartedAt j) (Deadline j).
Definition set_Recoveries v (j : Job) : Job :=
  mkJob (ID j) (Queue j) (Type_ j) (Payload j) (Attempt j) (MaxAttempts j) v (State_ j)
    (Owner j) (UniqueKey j) (UniqueTTL j) (LastErr j) (EnqueuedAt j) (RunAt j) (StartedAt j)
    (Deadline j).
Definition set_State v (j : Job) : Job :=
  mkJob (ID j) (Queue j) (Type_ j) (Payload j) (Attempt j) (MaxAttempts j) (Recoveries j) v
    (Owner j) (UniqueKey j) (UniqueTTL j) (LastErr j) (EnqueuedAt j) (RunAt j) (StartedAt j)
    (Deadline j).
Definition set_Owner v (j : Job) : Job :=
  mkJob (ID j) (Queue j) (Type_ j) (Payload j) (Attempt j) (MaxAttempts j) (Recoveries j)
    (State_ j) v (UniqueKey j) (UniqueTTL j) (LastErr j) (EnqueuedAt j) (RunAt j) (StartedAt j)
    (Deadline j).
Definition set_Unique k ttl (j : Job) : Job :=
  mkJob (ID j) (Queue j) (Type_ j) (Payload j) (Attempt j) (MaxAttempts j) (Recoveries j)
    (State_ j) (Owner j) k ttl (LastErr j) (EnqueuedAt j) (RunAt j) (StartedAt j) (Deadline j).
Definition set_LastErr v (j : Job) : Job :=
  mkJob (ID j) (Queue j) (Type_ j) (Payload j) (Attempt j) (MaxAttempts j) (Recoveries j)
    (State_ j) (Owner j) (UniqueKey j) (UniqueTTL j) v (EnqueuedAt j) (RunAt j) (StartedAt j)
    (Deadline j).
Definition set_EnqueuedAt v (j : Job) : Job :=
  mkJob (ID j) (Queue j) (Type_ j) (Payload j) (Attempt j) (MaxAttempts j) (Recoveries j)
    (State_ j) (Owner j) (UniqueKey j) (UniqueTTL j) (LastErr j) v (RunAt j) (StartedAt j)
    (Deadline j).
Definition set_RunAt v (j : Job) : Job :=
  mkJob (ID j) (Queue j) (Type_ j) (Payload j) (Attempt j) (MaxAttempts j) (Recoveries j)
    (State_ j) (Owner j) (UniqueKey j) (UniqueTTL j) (LastErr j) (EnqueuedAt j) v (StartedAt j)
    (Deadline j).
Definition set_StartedAt v (j : Job) : Job :=
  mkJob (ID j) (Queue j) (Type_ j) (Payload j) (Attempt j) (MaxAttempts j) (Recoveries j)
    (State_ j) (Owner j) (UniqueKey j) (UniqueTTL j) (LastErr j) (EnqueuedAt j) (RunAt j) v
    (Deadline j).
Definition set_Deadline v (j : Job) : Job :=
  mkJob (ID j) (Queue j) (Type_ j) (Payload j) (Attempt j) (MaxAttempts j) (Recoveries j)
    (State_ j) (Owner j) (UniqueKey j) (UniqueTTL j) (LastErr j) (EnqueuedAt j) (RunAt j)
    (StartedAt j) v.

(** The zero [Job]: every field at its Go zero value. *)
Definition zeroJob : Job :=
  mkJob "" "" "" None 0 0 0 "" "" "" 0 "" zeroTime zeroTime zeroTime zeroTime.

#[export] Instance byte_eq_dec : EqDecision byte := Byte.byte_eq_dec.

#[export] Instance Job_eq_dec : EqDecision Job.
Proof. solve_decision. Defined.

(** The copy [Clone] makes through a non-nil pointer: the envelope, and the
    payload bytes in a fresh slice of the same length, a nil payload staying nil. *)
Definition clone (j : Job) : Job :=
  let p := match Payload j with
           | Some bytes => Some (take (length bytes) bytes)
           | None => None
           end in
  mkJob (ID j) (Queue j) (Type_ j) p (Attempt j) (MaxAttempts j) (Recoveries j) (State_ j)
    (Owner j) (UniqueKey j) (UniqueTTL j) (LastErr j) (EnqueuedAt j) (RunAt j) (StartedAt j)
    (Deadline j).

Definition Clone (j : option Job) : option Job :=
  match j with None => None | Some j => Some (clone j) end.

Definition Exhausted (j : Job) : bool := bool_decide (MaxAttempts j ≤ Attempt j).

(** [(j *Job) String]. *)
Definition Job_String (j : option Job) : string :=
  match j with
  | None => "<nil job>"
  | Some j =>
      "job(" +:+ ID j +:+ " type=" +:+ Type_ j +:+ " queue=" +:+ Queue j +:+
      " state=" +:+ State_ j +:+ " attempt=" +:+ pretty (Attempt j) +:+ "/" +:+
      pretty (MaxAttempts j) +:+ ")"
  end.

(** ** Lemmas *)

Lemma clone_eq j : clone j = j.
Proof. destruct j as [? ? ? [p|]]; unfold clone; cbn -[take length]; [|done]. by rewrite firstn_all. Qed.

Lemma Exhausted_true j : Exhausted j = true ↔ MaxAttempts j ≤ Attempt j.
Proof. apply bool_decide_eq_true. Qed.

Lemma Exhausted_false j : Exhausted j = false ↔ Attempt j < MaxAttempts j.
Proof. unfold Exhausted. rewrite bool_decide_eq_false. lia. Qed.

#[export] Hint Rewrite clone_eq Exhausted_true Exhausted_false : taskq.

(** The states a stored job can be in are pairwise distinct strings. *)
Ltac state_discriminate :=
  repeat match goal with
  | H : ?x = ?y |- _ =>
      match type of x with string => first [discriminate H | rewrite H in * ] end
  end; try discriminate; try done.
