(* ===== verification/Ident.v ===== *)
(** * Job identifiers (job.go: NewID)

    Sixteen random bytes in hexadecimal. The random source is a parameter: what
    crypto/rand.Read filled the array with, or its error. *)
From Stdlib Require Import Ascii Strings.Byte.
From S2P Require Import Prelude GoBase Job.

(** [hex.EncodeToString]: two digits for each byte. *)
Definition hex_digit (n : N) : ascii :=
  if (n <? 10)%N then ascii_of_N (48 + n) else ascii_of_N (87 + n).
Fixpoint EncodeToString (bs : list byte) : string :=
  match bs with
  | [] => ""
  | b :: bs =>
      String (hex_digit (Byte.to_N b / 16)) (String (hex_digit (Byte.to_N b mod 16)) (EncodeToString bs))
  end.

Definition NewID (Error_ : error → string) (read : res (list byte)) : may_panic string :=
  match read with
  | Err err => Panic ("taskq: crypto/rand unavailable: " +:+ Error_ err)
  | Ok b => Done (EncodeToString b)
  end.

(** ** Lemmas *)

(** Reading a digit back. *)
Definition hex_value (c : ascii) : N :=
  let n := N_of_ascii c in if (n <? 58)%N then (n - 48)%N else (n - 87)%N.

Lemma hex_value_digit n : (n < 16)%N → hex_value (hex_digit n) = n.
Proof.
  intros Hn. unfold hex_value, hex_digit. destruct (N.ltb_spec n 10); rewrite N_ascii_embedding by lia.
  - destruct (N.ltb_spec (48 + n) 58); lia.
  - destruct (N.ltb_spec (87 + n) 58); lia.
Qed.

Lemma byte_digits b : (Byte.to_N b / 16 < 16)%N ∧ (Byte.to_N b mod 16 < 16)%N.
Proof.
  pose proof (Byte.to_N_bounded b). split; [|by apply N.mod_lt]. apply N.Div0.div_lt_upper_bound. lia.
Qed.

Lemma encode_inj bs bs' : EncodeToString bs = EncodeToString bs' → bs = bs'.
Proof.
  revert bs'. induction bs as [|b bs IH]; intros [|b' bs']; cbn [EncodeToString]; [done|done|done|].
  intros [= Hhi Hlo Hrest]. destruct (byte_digits b) as [B1 B2]. destruct (byte_digits b') as [B1' B2'].
  apply (f_equal hex_value) in Hhi, Hlo. rewrite !hex_value_digit in Hhi, Hlo by done.
  f_equal; [|by apply IH]. assert (Byte.to_N b = Byte.to_N b') as HN.
  { rewrite (N.div_mod (Byte.to_N b) 16), (N.div_mod (Byte.to_N b') 16) by done. by rewrite Hhi, Hlo. }
  apply (f_equal Byte.of_N) in HN. rewrite !Byte.of_to_N in HN. by injection HN.
Qed.

Lemma encode_length bs : String.length (EncodeToString bs) = (2 * length bs)%nat.
Proof. induction bs as [|b bs IH]; [done|]. cbn [EncodeToString String.length length]. rewrite IH. lia. Qed.

(** ** Property *)

(** Identifiers are as unique as the random source. Sixteen bytes make an identifier of
    thirty-two characters, never the empty one that stands for none, and different bytes make
    different identifiers. *)
Theorem new_id_unique Error_ bs bs' :
  length bs = 16%nat → length bs' = 16%nat →
  ∃ id id', NewID Error_ (Ok bs) = Done id ∧ NewID Error_ (Ok bs') = Done id' ∧
    String.length id = 32%nat ∧ id ≠ "" ∧ (id = id' ↔ bs = bs').
Proof.
  intros Hl Hl'. exists (EncodeToString bs), (EncodeToString bs'). split_and!; [done|done| | |].
  - by rewrite encode_length, Hl.
  - intros He. apply (f_equal String.length) in He. rewrite encode_length, Hl in He. done.
  - split; [apply encode_inj|by intros ->].
Qed.
