(* ===== verification/Backoff.v ===== *)
(** * Retry delays (backoff.go)

    The exponential backoff with saturation, and the three jitter policies. A
    random source is a function from the exclusive bound to the drawn value, as
    [randFunc] in the code. *)
From S2P Require Import Prelude GoBase.

Definition DefaultBackoffBase : Z := 1 * Second.
Definition DefaultBackoffCap : Z := 10 * Minute.
Definition DefaultMaxAttempts : Z := 25.

(** [type randFunc func(n int64) int64] and
    [type JitterFunc func(d time.Duration, rnd randFunc) time.Duration]. *)
Definition randFunc : Type := Z → Z.
Definition JitterFunc : Type := Z → randFunc → Z.

Definition JitterNone : JitterFunc := λ d _, d.

Definition JitterFull : JitterFunc := λ d rnd,
  if bool_decide (d ≤ 0) then 0 else rnd d.

Definition JitterEqual : JitterFunc := λ d rnd,
  if bool_decide (d ≤ 0) then 0
  else let half := Z.quot d 2 in wrap64 (half + rnd (wrap64 (d - half))).

(** The nil [Jitter] and [rnd] of the zero value are [None]. *)
Record Exponential := mkExponential {
  Base : Z;
  Cap : Z;
  Jitter : option JitterFunc;
  rnd : option randFunc
}.

(** The zero value [Exponential{}]. *)
Definition zeroExponential : Exponential := mkExponential 0 0 None None.

(** The doubling loop: [n] passes remaining, current delay [d]. The outcome of
    a pass that overflows is the ceiling, and the loop ends. *)
Fixpoint double_loop (n : nat) (ceiling d : Z) : Z :=
  match n with
  | O => d
  | S n =>
      if bool_decide (ceiling ≤ d) then d
      else
        let next := wrap64 (d * 2) in
        if bool_decide (next < d) then ceiling
        else double_loop n ceiling next
  end.

(** The effective base and ceiling. *)
Definition eff_ceiling (e : Exponential) : Z :=
  if bool_decide (Cap e ≤ 0) then DefaultBackoffCap else Cap e.

Definition eff_base (e : Exponential) : Z :=
  let base := if bool_decide (Base e ≤ 0) then DefaultBackoffBase else Base e in
  if bool_decide (eff_ceiling e < base) then eff_ceiling e else base.

(** The capped delay before jitter. *)
Definition delay (e : Exponential) (attempt : Z) : Z :=
  let attempt := if bool_decide (attempt < 1) then 1 else attempt in
  let d := double_loop (Z.to_nat (attempt - 1)) (eff_ceiling e) (eff_base e) in
  if bool_decide (eff_ceiling e < d) then eff_ceiling e else d.

(** [Next]; [global] stands for the process-wide source [rand.Int64N]. *)
Definition Next (global : randFunc) (e : Exponential) (attempt : Z) : Z :=
  let jitter := default JitterFull (Jitter e) in
  let rnd := default global (rnd e) in
  jitter (delay e attempt) rnd.

(** The mathematical specification of the pre-jitter delay. *)
Definition delay_spec (e : Exponential) (attempt : Z) : Z :=
  Z.min (eff_base e * 2 ^ (Z.max attempt 1 - 1)) (eff_ceiling e).

(** What the documentation promises of a random source. *)
Definition rand_ok (r : randFunc) : Prop := ∀ n, 0 < n → 0 ≤ r n < n.

(** The field invariant Go's types give: durations are [int64] values. *)
Definition exp_typed (e : Exponential) : Prop := int64_range (Base e) ∧ int64_range (Cap e).

(** ** Lemmas *)

Lemma eff_ceiling_bounds e : exp_typed e → 0 < eff_ceiling e < 2 ^ 63.
Proof.
  intros [_ [_ Hc]]. unfold eff_ceiling, DefaultBackoffCap, Minute, Second, Millisecond.
  case_bool_decide; lia.
Qed.

Lemma eff_base_bounds e : exp_typed e → 0 < eff_base e ≤ eff_ceiling e.
Proof.
  intros He. pose proof (eff_ceiling_bounds e He).
  unfold eff_base, DefaultBackoffBase, Second, Millisecond. repeat case_bool_decide; lia.
Qed.

(** A doubling that wraps around lands below its operand. *)
Lemma wrap64_double d :
  0 < d < 2 ^ 63 → (d * 2 < 2 ^ 63 ∧ wrap64 (d * 2) = d * 2) ∨
                   (2 ^ 63 ≤ d * 2 ∧ wrap64 (d * 2) < d).
Proof.
  intros Hd. destruct (Z.lt_ge_cases (d * 2) (2 ^ 63)) as [Hlt|Hge]; [left|right].
  - split; [done|]. apply wrap64_id. unfold int64_range. lia.
  - split; [done|]. unfold wrap64.
    replace (d * 2 + 2 ^ 63) with (d * 2 - 2 ^ 63 + 1 * 2 ^ 64) by lia.
    rewrite Z.mod_add, Z.mod_small by lia. lia.
Qed.

(** The loop, capped, is the capped exponential. *)
Lemma double_loop_spec n c d :
  0 < d → d ≤ c → c < 2 ^ 63 →
  Z.min (double_loop n c d) c = Z.min (d * 2 ^ Z.of_nat n) c.
Proof.
  revert d. induction n as [|n IH]; intros d Hd Hdc Hc.
  { simpl. f_equal. lia. }
  assert (1 ≤ 2 ^ Z.of_nat n) by (pose proof (Z.pow_pos_nonneg 2 (Z.of_nat n)); lia).
  rewrite Nat2Z.inj_succ, Z.pow_succ_r by lia.
  simpl. case_bool_decide as Hge; [nia|].
  destruct (wrap64_double d) as [[Hlt ->]|[Hov Hw]]; [lia| |].
  - rewrite bool_decide_false by lia.
    destruct (Z.le_gt_cases (d * 2) c) as [Hle|Hgt].
    + rewrite IH by lia. f_equal. ring.
    + assert (double_loop n c (d * 2) = d * 2) as ->.
      { destruct n; simpl; [done|]. by rewrite bool_decide_true by lia. }
      nia.
  - rewrite bool_decide_true by lia. nia.
Qed.

Lemma delay_eq e attempt : exp_typed e → delay e attempt = delay_spec e attempt.
Proof.
  intros He. unfold delay, delay_spec.
  pose proof (eff_ceiling_bounds e He). pose proof (eff_base_bounds e He).
  set (a := if bool_decide (attempt < 1) then 1 else attempt).
  assert (a = Z.max attempt 1) as Ha by (unfold a; case_bool_decide; lia).
  rewrite Ha.
  pose proof (double_loop_spec (Z.to_nat (Z.max attempt 1 - 1))
    (eff_ceiling e) (eff_base e)) as Hl.
  rewrite Z2Nat.id in Hl by lia. rewrite <- Hl by lia.
  case_bool_decide; lia.
Qed.

Lemma delay_bounds e attempt : exp_typed e → 0 < delay e attempt ≤ eff_ceiling e.
Proof.
  intros He. rewrite delay_eq by done. unfold delay_spec.
  pose proof (eff_ceiling_bounds e He). pose proof (eff_base_bounds e He).
  pose proof (Z.pow_pos_nonneg 2 (Z.max attempt 1 - 1)). nia.
Qed.

Lemma delay_spec_mono e a1 a2 :
  exp_typed e → a1 ≤ a2 → delay_spec e a1 ≤ delay_spec e a2.
Proof.
  intros He Ha. pose proof (eff_base_bounds e He). unfold delay_spec.
  apply Z.min_le_compat_r, Z.mul_le_mono_nonneg_l; [lia|].
  apply Z.pow_le_mono_r; lia.
Qed.

(** The three policies keep a positive delay within [0, d], for any source that
    honours its contract. *)
Lemma jitter_policies_bounds r d :
  rand_ok r → 0 < d < 2 ^ 63 →
  JitterNone d r = d ∧ 0 ≤ JitterFull d r < d ∧ d `div` 2 ≤ JitterEqual d r < d.
Proof.
  intros Hr Hd. unfold JitterNone, JitterFull, JitterEqual.
  rewrite bool_decide_false by lia.
  rewrite (Z.quot_div_nonneg d 2) by lia.
  assert (d `div` 2 ≤ d) by (apply Z.div_le_upper_bound; lia).
  assert (0 ≤ d `div` 2) by (apply Z.div_pos; lia).
  assert (d `div` 2 < d) by (apply Z.div_lt; lia).
  rewrite (wrap64_id (d - d `div` 2)) by (unfold int64_range; lia).
  pose proof (Hr d). pose proof (Hr (d - d `div` 2)).
  rewrite wrap64_id by (unfold int64_range; lia). lia.
Qed.

(** ** Properties *)

(** C39: for every typed configuration and every attempt number, the overflow-guarded
    doubling loop of [Next] computes exactly min(Base * 2^(attempt-1), Cap) with the
    documented defaults; the delay never decreases with the attempt number, and from
    the 64th attempt on it is the ceiling, so no attempt count makes it wrap. *)
Theorem backoff_delay_exact e attempt :
  exp_typed e →
  delay e attempt = Z.min (eff_base e * 2 ^ (Z.max attempt 1 - 1)) (eff_ceiling e) ∧
  (∀ a', attempt ≤ a' → delay e attempt ≤ delay e a') ∧
  (64 ≤ attempt → delay e attempt = eff_ceiling e).
Proof.
  intros He. split; [by apply delay_eq|]. split.
  - intros a' Ha. rewrite !delay_eq by done. by apply delay_spec_mono.
  - intros Ha. rewrite delay_eq by done. unfold delay_spec.
    pose proof (eff_ceiling_bounds e He). pose proof (eff_base_bounds e He).
    assert (2 ^ 63 ≤ 2 ^ (Z.max attempt 1 - 1)) by (apply Z.pow_le_mono_r; lia). nia.
Qed.

Lemma backoff_delay_exact_witness :
  delay (mkExponential Second Minute None None) 7 =
    Z.min (eff_base (mkExponential Second Minute None None) * 2 ^ (Z.max 7 1 - 1))
      (eff_ceiling (mkExponential Second Minute None None)).
Proof.
  refine (proj1 (backoff_delay_exact (mkExponential Second Minute None None) 7 _)).
  unfold exp_typed, int64_range; simpl; unfold_durations; lia.
Defined.

(** With any of the three jitter policies (or the nil default, which is
    JitterFull) and any random source that draws in [0, n), the retry delay of
    [Next] is never negative and never above the configured ceiling; JitterEqual
    waits at least half the delay and JitterNone exactly the delay. *)
Theorem backoff_next_bounds global e attempt :
  exp_typed e → rand_ok global → (∀ r, rnd e = Some r → rand_ok r) →
  (Jitter e = None ∨ Jitter e = Some JitterFull ∨ Jitter e = Some JitterEqual ∨
   Jitter e = Some JitterNone) →
  0 ≤ Next global e attempt ≤ eff_ceiling e ∧
  (Jitter e = Some JitterEqual → delay e attempt `div` 2 ≤ Next global e attempt) ∧
  (Jitter e = Some JitterNone → Next global e attempt = delay e attempt).
Proof.
  intros He Hg Hr HJ. unfold Next.
  set (r := default global (rnd e)).
  assert (rand_ok r) as Hrok by (unfold r; destruct (rnd e) eqn:E; [by apply Hr|done]).
  pose proof (delay_bounds e attempt He). pose proof (eff_ceiling_bounds e He).
  destruct (jitter_policies_bounds r (delay e attempt) Hrok) as (Hn & Hf & Hq); [lia|].
  assert (0 ≤ delay e attempt `div` 2) by (apply Z.div_pos; lia).
  destruct HJ as [->|[->|[->| ->]]]; simpl; rewrite ?Hn; split_and!;
    try lia; intros [= Heq]; try done; try (rewrite <- Heq; lia);
    rewrite ?Heq, ?Hn in *; lia.
Qed.

Lemma backoff_next_bounds_witness :
  0 ≤ Next (λ n, n - 1) zeroExponential 3 ≤ eff_ceiling zeroExponential.
Proof.
  refine (proj1 (backoff_next_bounds (λ n, n - 1) zeroExponential 3 _ _ _ _)).
  - unfold exp_typed, int64_range; simpl; lia.
  - intros n Hn. simpl. lia.
  - intros r H. discriminate H.
  - left. reflexivity.
Defined.

(** Under the default policy the 24 waits between 25 attempts add up to at most
    9423 seconds before jitter, well under three hours: the "roughly three and a half
    hours of retrying" of the comment on the defaults is not what the constants give. *)
Theorem default_retry_span :
  foldr Z.add 0 ((λ a, delay zeroExponential (Z.of_nat a)) <$> seq 1 24) = 9423 * Second ∧
  9423 * Second < 3 * Hour.
Proof. vm_compute. split; reflexivity. Qed.
