(* ===== verification/Queues.v ===== *)
(** * Choosing the order in which queues are polled (queues.go)

    The weighted random order of a worker's queues: sampling without replacement
    over positions, the draws of [rand.IntN] being a parameter. *)
From S2P Require Import Prelude GoBase.

(** ** Definitions *)

(** [order] and [pool] are the buffers the selector reuses; the slice [next]
    returns is [order]. *)
Record queueSelector := mkQueueSelector {
  names : list string;
  weights : list Z;
  total : Z;
  strict : bool;
  order : list string;
  pool : list nat
}.

(** The weight of a queue: 1 unless configured. *)
Definition weight_of (ws : option (gmap string Z)) (n : string) : Z :=
  match ws with
  | Some m => match m !! n with Some configured => configured | None => 1 end
  | None => 1
  end.

(** The body of the loop over the names: the weight of the queue at position [i]. *)
Definition set_weight (ws : option (gmap string Z)) (s : queueSelector) (e : nat * string)
  : queueSelector :=
  let w := weight_of ws e.2 in
  mkQueueSelector (names s) (<[e.1 := w]> (weights s)) (wrap64 (total s + w)) (strict s)
    (order s) (pool s).

Definition newQueueSelector (ns : list string) (ws : option (gmap string Z)) (str : bool)
  : queueSelector :=
  let s := mkQueueSelector ns (replicate (length ns) 0) 0 str [] [] in
  foldl (set_weight ws) s (imap pair ns).

(** The draws of [rand.IntN]: the [k]-th call with the bound [n]. A bound that is
    not positive panics, which is [None]. *)
Definition IntN (draws : nat → Z → Z) (k : nat) (n : Z) : option Z :=
  if bool_decide (n ≤ 0) then None else Some (draws k n).

(** The walk of the cumulative sum: the position in the pool of the queue the
    draw [r] falls on, 0 if it falls on none. *)
Fixpoint pick_loop (ws : list Z) (pool : list nat) (k : nat) (r acc : Z) : nat :=
  match pool with
  | [] => 0%nat
  | idx :: pool =>
      let acc := wrap64 (acc + nth idx ws 0) in
      if bool_decide (r < acc) then k else pick_loop ws pool (S k) r acc
  end.

(** The sampling loop: [k] is the number of draws made, [fuel] bounds the
    iterations, one per element of the pool. *)
Fixpoint next_loop (draws : nat → Z → Z) (s : queueSelector) (k : nat) (remaining : Z) (fuel : nat)
  : option queueSelector :=
  match fuel, pool s with
  | _, [] => Some s
  | O, _ => None
  | S fuel, _ =>
      match IntN draws k remaining with
      | None => None
      | Some r =>
          let pick := pick_loop (weights s) (pool s) 0 r 0 in
          let idx := nth pick (pool s) 0%nat in
          let s' := mkQueueSelector (names s) (weights s) (total s) (strict s)
                      (order s ++ [nth idx (names s) ""])
                      (take pick (pool s) ++ drop (S pick) (pool s)) in
          next_loop draws s' (S k) (wrap64 (remaining - nth idx (weights s) 0)) fuel
      end
  end.

(** [next]: the selector it leaves and the order it returns; [None] is a panic. *)
Definition next (draws : nat → Z → Z) (s : queueSelector) : option (queueSelector * list string) :=
  if (strict s) || bool_decide (length (names s) < 2)%nat then Some (s, names s)
  else
    let s0 := mkQueueSelector (names s) (weights s) (total s) (strict s) []
                (seq 0 (length (names s))) in
    match next_loop draws s0 0 (total s) (length (names s)) with
    | None => None
    | Some s' => Some (s', order s')
    end.

(** What [math/rand] documents of [IntN]. *)
Definition draws_ok (draws : nat → Z → Z) : Prop := ∀ k n, 0 < n → 0 ≤ draws k n < n.

(** The sum of weights, and of those at the given positions. *)
Definition sum (ws : list Z) : Z := foldr Z.add 0 ws.
Definition sum_at (ws : list Z) (pool : list nat) : Z := sum ((λ i, nth i ws 0) <$> pool).

(** The position of the queue tried first, when the first draw is [r]. *)
Definition first_pick (s : queueSelector) (r : Z) : nat :=
  pick_loop (weights s) (seq 0 (length (names s))) 0 r 0.

(** ** Lemmas *)

Lemma sum_cons x l : sum (x :: l) = x + sum l.
Proof. done. Qed.

Lemma sum_app l1 l2 : sum (l1 ++ l2) = sum l1 + sum l2.
Proof. induction l1 as [|x l1 IH]; simpl; [done|]. rewrite IH. lia. Qed.

Lemma sum_nonneg l : Forall (λ w, 0 < w) l → 0 ≤ sum l.
Proof. induction 1; simpl; lia. Qed.

Lemma sum_pos l : Forall (λ w, 0 < w) l → l ≠ [] → 0 < sum l.
Proof. intros H Hl. destruct H as [|w l Hw H]; [done|]. pose proof (sum_nonneg l H). simpl. lia. Qed.

(** The positive weights at the positions of a pool. *)
Definition pool_ok (ws : list Z) (pool : list nat) : Prop :=
  Forall (λ i, i < length ws)%nat pool ∧ Forall (λ w, 0 < w) ws.

Lemma pool_weights_pos ws pool :
  pool_ok ws pool → Forall (λ w, 0 < w) ((λ i, nth i ws 0) <$> pool).
Proof.
  intros [Hp Hw]. apply Forall_fmap, Forall_forall. intros i Hi. simpl.
  rewrite Forall_forall in Hp. pose proof (proj1 (Forall_forall _ _) Hw) as Hw'. apply Hw'.
  rewrite list_elem_of_In. apply nth_In. by apply Hp.
Qed.

(** The draw falls on the queue whose slice of the cumulative sum holds it. *)
Lemma pick_loop_spec ws pool k r acc :
  pool_ok ws pool → 0 ≤ acc → acc + sum_at ws pool < 2 ^ 63 → acc ≤ r < acc + sum_at ws pool →
  ∃ p, pick_loop ws pool k r acc = (k + p)%nat ∧ (p < length pool)%nat ∧
       acc + sum_at ws (take p pool) ≤ r < acc + sum_at ws (take (S p) pool).
Proof.
  revert k acc. induction pool as [|i pool IH]; intros k acc Hok Ha Hb Hr.
  { unfold sum_at in Hr. simpl in Hr. lia. }
  pose proof (pool_weights_pos _ _ Hok) as Hpos. rewrite fmap_cons in Hpos.
  apply Forall_cons in Hpos as [Hi Hpos]. pose proof (sum_nonneg _ Hpos) as Hnn.
  unfold sum_at in *. rewrite fmap_cons in *. cbn [pick_loop]. simpl in Hb, Hr.
  rewrite wrap64_id by (unfold int64_range; lia). case_bool_decide as Hlt.
  - exists 0%nat. rewrite take_0. simpl. split_and!; [lia|lia|lia|lia].
  - destruct (IH (S k) (acc + nth i ws 0)) as (p & -> & Hp & Hrp).
    + destruct Hok as [Hf ?]. apply Forall_cons in Hf as [_ Hf]. by split.
    + lia.
    + lia.
    + lia.
    + exists (S p). rewrite !firstn_cons, !fmap_cons. simpl in *. split_and!; lia.
Qed.

Lemma sum_perm l1 l2 : l1 ≡ₚ l2 → sum l1 = sum l2.
Proof. induction 1; simpl; lia. Qed.

(** Taking the element at a position out of the pool. *)
Lemma pool_pick (pool : list nat) (p : nat) :
  (p < length pool)%nat →
  pool ≡ₚ nth p pool 0%nat :: take p pool ++ drop (S p) pool ∧ pool !! p = Some (nth p pool 0%nat).
Proof.
  intros Hp. destruct (lookup_lt_is_Some_2 pool p Hp) as [i Hi].
  rewrite (nth_lookup_Some _ _ _ _ Hi). split; [|done].
  rewrite <- (take_drop_middle pool p i Hi) at 1. by rewrite Permutation_middle.
Qed.

(** One iteration of the sampling loop. *)
Lemma next_loop_S draws s k remaining fuel :
  pool s ≠ [] →
  next_loop draws s k remaining (S fuel) =
    match IntN draws k remaining with
    | None => None
    | Some r =>
        let pick := pick_loop (weights s) (pool s) 0 r 0 in
        let idx := nth pick (pool s) 0%nat in
        next_loop draws
          (mkQueueSelector (names s) (weights s) (total s) (strict s)
             (order s ++ [nth idx (names s) ""]) (take pick (pool s) ++ drop (S pick) (pool s)))
          (S k) (wrap64 (remaining - nth idx (weights s) 0)) fuel
    end.
Proof. intros H. cbn [next_loop]. by destruct (pool s). Qed.

(** Picking an order leaves the queues and their weights as they are, so that it can be
    done again. *)
Lemma next_loop_same draws s k r fuel s' :
  next_loop draws s k r fuel = Some s' →
  names s' = names s ∧ weights s' = weights s ∧ total s' = total s ∧ strict s' = strict s.
Proof.
  revert s k r. induction fuel as [|fuel IH]; intros s k r.
  - cbn [next_loop]. destruct (pool s); [|done]. by intros [= <-].
  - destruct (decide (pool s = [])) as [E|E]; [cbn [next_loop]; rewrite E; by intros [= <-]|].
    rewrite next_loop_S by done. destruct (IntN draws k r); [|done]. cbv zeta. intros Hs.
    by apply IH in Hs.
Qed.

Lemma next_again draws d s s' o :
  next draws s = Some (s', o) → is_Some (next d s') ↔ is_Some (next d s).
Proof.
  unfold next. destruct (strict s || _) eqn:E; [intros [= <- _]; by rewrite E|].
  destruct (next_loop draws _ _ _ _) as [s1|] eqn:Hl; [|done]. intros [= <- _].
  apply next_loop_same in Hl as (Hn & Hw & Ht & Hs). cbn in Hn, Hw, Ht, Hs. rewrite Hn, Hw, Ht, Hs, E.
  done.
Qed.

Lemma next_loop_spec draws s k :
  draws_ok draws → pool_ok (weights s) (pool s) → sum_at (weights s) (pool s) < 2 ^ 63 →
  ∃ s' perm,
    next_loop draws s k (sum_at (weights s) (pool s)) (length (pool s)) = Some s' ∧
    perm ≡ₚ pool s ∧ order s' = order s ++ ((λ i, nth i (names s) "") <$> perm) ∧
    (pool s ≠ [] → head perm =
       pool s !! pick_loop (weights s) (pool s) 0 (draws k (sum_at (weights s) (pool s))) 0) ∧
    names s' = names s ∧ weights s' = weights s ∧ total s' = total s ∧ strict s' = strict s.
Proof.
  intros Hd. remember (length (pool s)) as n eqn:Hn. revert s k Hn.
  induction n as [|n IH]; intros s k Hn Hok Hb.
  { symmetry in Hn. apply nil_length_inv in Hn. exists s, []. simpl. rewrite Hn, app_nil_r. done. }
  assert (pool s ≠ []) as Hne by (intros H; by rewrite H in Hn). rewrite next_loop_S by done.
  set (rem := sum_at (weights s) (pool s)) in *.
  assert (0 < rem) as Hrem.
  { apply sum_pos; [by apply pool_weights_pos|]. by intros ?%fmap_nil_inv. }
  unfold IntN. rewrite bool_decide_eq_false_2 by lia.
  destruct (pick_loop_spec (weights s) (pool s) 0 (draws k rem) 0 Hok) as (p & Hp & Hlt & _);
    [lia|done|by apply Hd|].
  rewrite Hp. simpl Nat.add. destruct (pool_pick (pool s) p Hlt) as [Hperm Hlk].
  set (idx := nth p (pool s) 0%nat) in *. set (s1 := mkQueueSelector _ _ _ _ _ _).
  assert (sum_at (weights s) (pool s1) = rem - nth idx (weights s) 0) as Hsum.
  { unfold rem, sum_at, s1. rewrite (sum_perm _ _ (fmap_Permutation _ _ _ Hperm)), fmap_cons, sum_cons.
    cbn [pool]. lia. }
  assert (pool_ok (weights s) (idx :: pool s1)) as Hok1.
  { destruct Hok as [Hf Hw]. split; [|done]. unfold s1. simpl. by rewrite <- Hperm. }
  pose proof (pool_weights_pos _ _ Hok1) as Hpos. rewrite fmap_cons in Hpos.
  apply Forall_cons in Hpos as [Hw1 Hpos]. apply sum_nonneg in Hpos.
  change (0 ≤ sum_at (weights s) (pool s1)) in Hpos. simpl in Hw1.
  rewrite wrap64_id, <- Hsum by (unfold int64_range; lia).
  destruct (IH s1 (S k)) as (s' & perm & Hrun & Hpm & Hord & _ & H1 & H2 & H3 & H4).
  - apply Permutation_length in Hperm. simpl in Hperm |- *. lia.
  - destruct Hok1 as [Hf ?]. by apply Forall_cons in Hf as [_ Hf].
  - simpl weights. lia.
  - exists s', (idx :: perm). split_and!; try done.
    + rewrite Hperm. by rewrite Hpm.
    + rewrite Hord. simpl. by rewrite <- app_assoc.
Qed.

(** The loop over the names, from the position [length l1] on. *)
Lemma set_weights ws ns l1 s :
  (∀ n, n ∈ ns → 0 < weight_of ws n) →
  weights s = l1 ++ replicate (length ns) 0 → 0 ≤ total s →
  total s + sum (weight_of ws <$> ns) < 2 ^ 63 →
  let s' := foldl (set_weight ws) s (imap (λ i n, (length l1 + i, n)%nat) ns) in
  names s' = names s ∧ weights s' = l1 ++ (weight_of ws <$> ns) ∧
  total s' = total s + sum (weight_of ws <$> ns) ∧ strict s' = strict s.
Proof.
  revert l1 s. induction ns as [|n ns IH]; intros l1 s Hpos Hw Ht Hb; cbv zeta.
  { simpl in *. by rewrite Z.add_0_r. }
  assert (0 ≤ sum (weight_of ws <$> ns)) as Hnn.
  { apply sum_nonneg, Forall_fmap, Forall_forall. intros x Hx. apply Hpos. by right. }
  assert (0 < weight_of ws n) as Hn by (apply Hpos; by left).
  rewrite fmap_cons, sum_cons in *. rewrite imap_cons. cbn [foldl].
  set (s1 := set_weight ws s _).
  assert (total s1 = total s + weight_of ws n) as Ht1
    by (apply wrap64_id; unfold int64_range; simpl; lia).
  assert (weights s1 = (l1 ++ [weight_of ws n]) ++ replicate (length ns) 0) as Hw1.
  { unfold s1, set_weight. simpl. rewrite Hw, Nat.add_0_r, <- app_assoc.
    rewrite <- (Nat.add_0_r (length l1)), insert_app_r. done. }
  specialize (IH (l1 ++ [weight_of ws n]) s1). rewrite Ht1 in IH.
  assert (imap ((λ i m, ((length l1 + i)%nat, m)) ∘ S) ns =
          imap (λ i m, ((length (l1 ++ [weight_of ws n]) + i)%nat, m)) ns) as ->.
  { apply imap_ext. intros i x _. simpl. rewrite length_app. simpl. f_equal. lia. }
  destruct IH as (-> & -> & -> & ->); [intros x Hx; apply Hpos; by right|done|lia|lia|].
  split_and!; [done| |lia|done]. by rewrite <- app_assoc.
Qed.

Lemma newQueueSelector_spec ns ws str :
  let s := newQueueSelector ns ws str in
  (∀ n, n ∈ ns → 0 < weight_of ws n) → sum (weight_of ws <$> ns) < 2 ^ 63 →
  names s = ns ∧ weights s = weight_of ws <$> ns ∧ total s = sum (weight_of ws <$> ns) ∧
  strict s = str.
Proof.
  intros s Hpos Hsum. unfold s, newQueueSelector. set (s0 := mkQueueSelector _ _ _ _ _ _).
  exact (set_weights ws ns [] s0 Hpos eq_refl (Z.le_refl 0) Hsum).
Qed.

(** The positions of a list of names, mapped back to the names. *)
Lemma nth_seq_names (ns : list string) : (λ i, nth i ns "") <$> seq 0 (length ns) = ns.
Proof.
  apply list_eq. intros i. rewrite list_lookup_fmap. destruct (decide (i < length ns)%nat) as [Hi|Hi].
  - rewrite lookup_seq_lt by done. simpl. destruct (lookup_lt_is_Some_2 ns i Hi) as [x Hx].
    by rewrite Hx, (nth_lookup_Some _ _ _ _ Hx).
  - rewrite lookup_seq_ge by lia. simpl. symmetry. apply lookup_ge_None_2. lia.
Qed.

Lemma seq_pool_ok ws ns :
  (∀ n, n ∈ ns → 0 < weight_of ws n) →
  pool_ok (weight_of ws <$> ns) (seq 0 (length ns)) ∧
  (λ i, nth i (weight_of ws <$> ns) 0) <$> seq 0 (length ns) = weight_of ws <$> ns.
Proof.
  intros Hpos. split.
  - split; [|apply Forall_fmap, Forall_forall; intros n Hn; by apply Hpos].
    apply Forall_forall. intros i Hi%elem_of_seq. rewrite length_fmap. lia.
  - apply list_eq. intros i. rewrite !list_lookup_fmap.
    destruct (decide (i < length ns)%nat) as [Hi|Hi].
    + rewrite lookup_seq_lt by done. destruct (lookup_lt_is_Some_2 ns i Hi) as [x Hx].
      rewrite Hx. simpl. f_equal. apply nth_lookup_Some. by rewrite list_lookup_fmap, Hx.
    + rewrite lookup_seq_ge, lookup_ge_None_2 by lia. done.
Qed.

Lemma head_fmap_list {A B} (f : A → B) (l : list A) : head (f <$> l) = f <$> head l.
Proof. by destruct l. Qed.

(** Prefix sums of positive weights grow. *)
Lemma sum_take_mono l a b : Forall (λ w, 0 < w) l → (a ≤ b)%nat → sum (take a l) ≤ sum (take b l).
Proof.
  intros Hl Hab. replace b with (a + (b - a))%nat by lia.
  rewrite <- take_take_drop, sum_app. pose proof (sum_nonneg (take (b - a) (drop a l))).
  assert (0 ≤ sum (take (b - a) (drop a l))); [|lia]. by apply H, Forall_take, Forall_drop.
Qed.

(** The draws that fall on a position are the slice of the cumulative sum it has. *)
Lemma first_pick_slice ns ws str r i :
  (∀ n, n ∈ ns → 0 < weight_of ws n) → sum (weight_of ws <$> ns) < 2 ^ 63 →
  0 ≤ r < sum (weight_of ws <$> ns) →
  first_pick (newQueueSelector ns ws str) r = i ↔
  sum (take i (weight_of ws <$> ns)) ≤ r < sum (take (S i) (weight_of ws <$> ns)).
Proof.
  intros Hpos Hsum Hr. destruct (newQueueSelector_spec ns ws str Hpos Hsum) as (Hn & Hw & _ & _).
  destruct (seq_pool_ok ws ns Hpos) as [Hok Hat]. unfold first_pick. rewrite Hn, Hw.
  assert (Forall (λ w, 0 < w) (weight_of ws <$> ns)) as Hall by apply Hok.
  assert (∀ k, sum_at (weight_of ws <$> ns) (take k (seq 0 (length ns))) =
            sum (take k (weight_of ws <$> ns))) as Htake.
  { intros k. unfold sum_at. by rewrite fmap_take, Hat. }
  assert (sum_at (weight_of ws <$> ns) (seq 0 (length ns)) = sum (weight_of ws <$> ns)) as Hall'
    by (unfold sum_at; by rewrite Hat).
  destruct (pick_loop_spec _ _ 0 r 0 Hok) as (p & -> & Hp & Hrp); [lia..|].
  rewrite !Htake, !Z.add_0_l in Hrp. simpl Nat.add. split; [by intros <-|]. intros Hri.
  destruct (Nat.lt_trichotomy p i) as [Hlt|[Heq|Hlt]]; [|done|].
  - pose proof (sum_take_mono _ (S p) i Hall Hlt). lia.
  - pose proof (sum_take_mono _ (S i) p Hall Hlt). lia.
Qed.

(** ** Properties *)

(** Polling never skips a queue and never panics: with positive weights whose sum fits
    an int, whatever the random draws are, [next] returns every configured queue exactly
    once, in the configured order under strict priority, and leaves a selector that can be
    called again; the queue tried first is the one the first draw falls on. *)
Theorem next_complete draws ns ws str :
  draws_ok draws → (∀ n, n ∈ ns → 0 < weight_of ws n) → sum (weight_of ws <$> ns) < 2 ^ 63 →
  let s := newQueueSelector ns ws str in
  ∃ s' ord, next draws s = Some (s', ord) ∧ ord ≡ₚ ns ∧
    (str = true → ord = ns) ∧
    (str = false → (2 ≤ length ns)%nat → head ord = ns !! first_pick s (draws 0%nat (total s))) ∧
    names s' = names s ∧ weights s' = weights s ∧ total s' = total s ∧ strict s' = strict s.
Proof.
  intros Hd Hpos Hsum s. destruct (newQueueSelector_spec ns ws str Hpos Hsum) as (Hn & Hw & Ht & Hs).
  fold s in Hn, Hw, Ht, Hs. unfold next, first_pick.
  destruct (strict s || bool_decide (length (names s) < 2)%nat) eqn:Hc.
  - exists s, (names s). split_and!; try done; [by rewrite Hn|].
    intros Hstr Hlen. rewrite Hs, Hstr, Hn, bool_decide_eq_false_2 in Hc by lia. done.
  - apply orb_false_iff in Hc as [Hc1 Hc2]. set (s0 := mkQueueSelector _ _ _ _ _ _).
    destruct (seq_pool_ok ws ns Hpos) as [Hok Hat'].
    assert (sum_at (weight_of ws <$> ns) (seq 0 (length ns)) = sum (weight_of ws <$> ns)) as Hat
      by (unfold sum_at; by rewrite Hat').
    destruct (next_loop_spec draws s0 0) as (s' & perm & Hrun & Hperm & Hord & Hhd & H1 & H2 & H3 & H4);
      [done|simpl; by rewrite Hw, Hn|simpl; by rewrite Hw, Hn, Hat|].
    simpl in *. rewrite length_seq, Hw, Hn, Hat, <- Ht in *. rewrite Hrun.
    exists s', (order s'). rewrite Hord. split_and!; try done.
    + rewrite Hperm. by rewrite nth_seq_names.
    + intros ->. congruence.
    + intros _ Hlen. rewrite head_fmap_list, Hhd by (by destruct ns).
      by rewrite <- list_lookup_fmap, nth_seq_names.
Qed.

(** Draws for the witnesses: always the lowest. *)
Definition low_draws (k : nat) (n : Z) : Z := 0.

Lemma next_complete_witness :
  let s := newQueueSelector ["hi"; "lo"] (Some {["hi" := 6; "lo" := 4]}) false in
  ∃ s' ord, next low_draws s = Some (s', ord) ∧ ord ≡ₚ ["hi"; "lo"].
Proof.
  destruct (next_complete low_draws ["hi"; "lo"] (Some {["hi" := 6; "lo" := 4]}) false)
    as (s' & ord & Hn & Hp & _).
  - intros k n Hn. unfold low_draws. lia.
  - apply Forall_forall. repeat constructor.
  - vm_compute. reflexivity.
  - exists s', ord. split; [exact Hn|exact Hp].
Defined.

(** The first position is weighted fairly: of the equally likely values of the first
    draw, exactly as many put a queue first as its weight says, so a queue of weight 6 out
    of 10 is tried first 60% of the time. *)
Theorem first_queue_proportional ns ws str i n :
  (∀ n, n ∈ ns → 0 < weight_of ws n) → sum (weight_of ws <$> ns) < 2 ^ 63 → ns !! i = Some n →
  let s := newQueueSelector ns ws str in
  total s = sum (weight_of ws <$> ns) ∧
  Z.of_nat (length (filter (λ r, first_pick s r = i) (seqZ 0 (total s)))) = weight_of ws n.
Proof.
  intros Hpos Hsum Hi s. destruct (newQueueSelector_spec ns ws str Hpos Hsum) as (_ & _ & Ht & _).
  fold s in Ht. split; [done|]. rewrite Ht.
  destruct (seq_pool_ok ws ns Hpos) as [[_ Hall] _].
  assert (sum (take (S i) (weight_of ws <$> ns)) =
          sum (take i (weight_of ws <$> ns)) + weight_of ws n) as HS.
  { erewrite take_S_r by (by rewrite list_lookup_fmap, Hi). rewrite sum_app, sum_cons. simpl. lia. }
  pose proof (Hpos n (list_elem_of_lookup_2 _ _ _ Hi)) as Hn.
  pose proof (sum_take_mono _ 0 i Hall ltac:(lia)) as H0.
  pose proof (sum_take_mono _ (S i) (S i + length ns) Hall ltac:(lia)) as H1.
  rewrite (take_ge _ (S i + length ns)) in H1 by (rewrite length_fmap; lia). simpl in H0.
  rewrite (NoDup_same_length _ (seqZ (sum (take i (weight_of ws <$> ns))) (weight_of ws n))).
  - rewrite length_seqZ. lia.
  - apply NoDup_filter, NoDup_seqZ.
  - apply NoDup_seqZ.
  - intros r. rewrite list_elem_of_filter, !elem_of_seqZ. split.
    + intros [Hf Hr]. apply first_pick_slice in Hf; [lia|done|done|lia].
    + intros Hr. split; [|lia]. apply first_pick_slice; [done|done|lia|lia].
Qed.

Lemma first_queue_proportional_witness :
  let s := newQueueSelector ["hi"; "lo"] (Some {["hi" := 6; "lo" := 4]}) false in
  Z.of_nat (length (filter (λ r, first_pick s r = 1%nat) (seqZ 0 (total s)))) = 4.
Proof.
  refine (proj2 (first_queue_proportional ["hi"; "lo"] (Some {["hi" := 6; "lo" := 4]}) false 1 "lo" _ _ _)).
  - apply Forall_forall. repeat constructor.
  - vm_compute. reflexivity.
  - reflexivity.
Defined.
