(* ===== verification/Interface.v ===== *)
(** * The types the components exchange (broker.go, cron.go)

    Claim options, worker and queue statistics, due cron entries, and the clock. *)
From S2P Require Import Prelude GoBase Job.

Record ClaimOpts := mkClaimOpts {
  WorkerID : string;
  Queues : list string;
  VisibilityTimeout : Z
}.

Record WorkerInfo := mkWorkerInfo {
  wi_ID : string;
  wi_Host : string;
  wi_PID : Z;
  wi_Queues : list string;
  wi_Concurrency : Z;
  wi_InFlight : Z;
  wi_StartedAt : Z;
  wi_LastBeat : Z
}.

Definition set_LastBeat v (w : WorkerInfo) : WorkerInfo :=
  mkWorkerInfo (wi_ID w) (wi_Host w) (wi_PID w) (wi_Queues w) (wi_Concurrency w)
    (wi_InFlight w) (wi_StartedAt w) v.

Record QueueStats := mkQueueStats {
  qs_Queue : string;
  qs_Pending : Z;
  qs_Active : Z;
  qs_Scheduled : Z;
  qs_Retry : Z
}.

(** The zero [QueueStats], read from a map at a missing key. *)
Definition zeroQueueStats : QueueStats := mkQueueStats "" 0 0 0 0.

Record Stats := mkStats {
  st_Queues : gmap string QueueStats;
  st_Dead : Z;
  st_Processed : Z;
  st_Failed : Z;
  st_Workers : Z
}.

Record DueCronEntry := mkDueCronEntry {
  due_ID : string;
  due_FireAt : Z
}.
