(* ===== verification/BrokerAPI.v ===== *)
(** * The interfaces between the components (broker.go, cron.go)

    The operations of the interfaces [Broker], [Maintenance] and [CronStore], as
    classes over the state of an implementation, and what the rest of the
    program relies on, as laws. The client, the worker and the scheduler are
    written and proved against these classes; an implementation is an instance.
    The clock reading an operation makes, by itself or on its server, is its last
    argument before the state, [now]. *)
From S2P Require Import Prelude GoBase Job Backoff Interface.

(** ** Operations *)

Class BrokerOps (S : Type) := {
  b_Enqueue : string → Z → option Job → S → S * option Job * option error;
  b_Dequeue : ClaimOpts → Z → S → S * res Job;
  b_Ack : string → string → Z → S → S * option error;
  b_Nack : string → string → Z → string → Z → S → S * option error;
  b_Kill : string → string → string → Z → S → S * option error;
  b_Extend : string → list string → Z → Z → S → S * res (list string)
}.

Class MaintenanceOps (S : Type) := {
  m_Reap : list string → Z → Z → S → S * res Z;
  m_Promote : Z → Z → S → S * res Z;
  m_Heartbeat : WorkerInfo → Z → Z → S → S * option error;
  m_AcquireLease : string → string → Z → Z → S → S * res bool;
  m_ReleaseLease : string → string → Z → S → S * option error
}.

Class CronOps (S : Type) := {
  c_ScheduleCronIfAbsent : string → Z → Z → S → S * res bool;
  c_DueCron : Z → Z → S → S * res (list DueCronEntry);
  c_ClaimCron : string → Z → Z → Z → S → S * res bool;
  c_RemoveCron : string → Z → S → S * option error
}.

(** ** Laws *)

(** A run time as the brokers compare it: in milliseconds, 0 when there is none. *)
Definition run_ms (j : Job) : Z := if IsZero (RunAt j) then 0 else UnixMilli (RunAt j).

(** Two envelopes carry the same work; an empty payload is no payload. *)
Definition same_task (j j' : Job) : Prop :=
  Queue j' = Queue j ∧ Type_ j' = Type_ j ∧ default [] (Payload j') = default [] (Payload j) ∧
  run_ms j' = run_ms j ∧ UniqueKey j' = UniqueKey j.

Lemma same_task_trans j1 j2 j3 : same_task j1 j2 → same_task j2 j3 → same_task j1 j3.
Proof. unfold same_task. naive_solver congruence. Qed.

(** The numbers of a job are within what a Go [int] and a 64-bit float can both hold,
    its run time, if any, is not before the epoch, and the clock is past the epoch and
    before the year 2116. *)
Definition go_job (j : Job) : Prop :=
  MaxAttempts j ≤ 2 ^ 53 ∧ (RunAt j = zeroTime ∨ 0 ≤ UnixMilli (RunAt j) ≤ 2 ^ 53).
Definition clock_ok (now : Z) : Prop := Millisecond ≤ now < 2 ^ 62.

(** The identifier an enqueued job ends up with, [NewID] being the one that would
    be generated. *)
Definition assigned_id (NewID : string) (j : Job) : string :=
  if String.eqb (ID j) "" then NewID else ID j.

(** The lease on the job [id] is held by [w]. *)
Definition holds {S} (job_at : S → string → option Job) (s : S) (w id : string) : Prop :=
  ∃ j, job_at s id = Some j ∧ State_ j = StateActive ∧ Owner j = w.

(** What a broker promises: [law_inv] holds of the states it can be in while it
    is open, and [job_at] is the record it stores under an identifier. *)
Class BrokerLaws (S : Type) {ops : BrokerOps S} := {
  law_inv : S → Prop;
  job_at : S → string → option Job;

  (** The deadline of a lease taken or renewed at an instant, which an implementation
      may round down, by less than two milliseconds. *)
  lease_deadline : Z → Z → Z;
  law_lease now vt : clock_ok now → 0 < vt → now + vt - 2 * Millisecond < lease_deadline now vt ≤ now + vt;

  (** Enqueue answers with an error and has no effect, or fills in the identifier and the attempt
      budget and stores the job, pending or scheduled. (That the answer of a broker behind
      a network may be lost is not a matter of this law; see RedisNetwork.v.) *)
  law_enqueue i now j s :
    law_inv s → job_at s (assigned_id i j) = None → assigned_id i j ≠ "" → go_job j → clock_ok now →
    let '(s', j', err) := b_Enqueue i now (Some j) s in
    match err with
    | Some _ => s' = s
    | None =>
        law_inv s' ∧
        ∃ jf js, j' = Some jf ∧ same_task j jf ∧ ID jf = assigned_id i j ∧
          MaxAttempts jf = (if bool_decide (MaxAttempts j ≤ 0) then DefaultMaxAttempts else MaxAttempts j) ∧
          job_at s' (ID jf) = Some js ∧ same_task jf js ∧ ID js = ID jf ∧
          MaxAttempts js = MaxAttempts jf ∧ Owner js = "" ∧
          (State_ js = StatePending ∨ (State_ js = StateScheduled ∧ now < RunAt j)) ∧
          (State_ js = StatePending → run_ms j ≤ UnixMilli now) ∧
          ∀ id, id ≠ ID jf → job_at s' id = job_at s id
    end;
  law_enqueue_valid i now j s :
    law_inv s → (b_Enqueue i now (Some j) s).2 = None → Queue j ≠ "" ∧ Type_ j ≠ "";

  (** A claimed job was pending, and is active and owned by the claimer. *)
  law_dequeue o now s :
    law_inv s → clock_ok now → VisibilityTimeout o < 2 ^ 63 →
    let '(s', r) := b_Dequeue o now s in
    match r with
    | Err _ => s' = s
    | Ok j => law_inv s' ∧ job_at s' (ID j) = Some j ∧ State_ j = StateActive ∧ Owner j = WorkerID o ∧
              (∃ j0, job_at s (ID j) = Some j0 ∧ State_ j0 = StatePending) ∧
              ∀ id, id ≠ ID j → job_at s' id = job_at s id
    end;

  (** Reports are fenced on the holder of the lease. *)
  law_ack w id now s :
    law_inv s →
    let '(s', err) := b_Ack w id now s in
    match err with
    | Some _ => ¬ holds job_at s w id ∧ s' = s
    | None => holds job_at s w id ∧ law_inv s' ∧
              (∀ j, job_at s' id = Some j → State_ j = StateCompleted) ∧
              ∀ id', id' ≠ id → job_at s' id' = job_at s id'
    end;
  law_nack w id t r now s :
    law_inv s →
    let '(s', err) := b_Nack w id t r now s in
    match err with
    | Some _ => ¬ holds job_at s w id ∧ s' = s
    | None => holds job_at s w id ∧ law_inv s' ∧
              (∃ j j', job_at s id = Some j ∧ job_at s' id = Some j' ∧ same_task j j' ∧
                 Attempt j' = Attempt j ∧ MaxAttempts j' = MaxAttempts j ∧ LastErr j' = r ∧ Owner j' = "" ∧
                 State_ j' = (if Exhausted j then StateDead else StateRetry)) ∧
              ∀ id', id' ≠ id → job_at s' id' = job_at s id'
    end;
  law_kill w id r now s :
    law_inv s →
    let '(s', err) := b_Kill w id r now s in
    match err with
    | Some _ => ¬ holds job_at s w id ∧ s' = s
    | None => holds job_at s w id ∧ law_inv s' ∧
              (∃ j j', job_at s id = Some j ∧ job_at s' id = Some j' ∧ same_task j j' ∧
                 Attempt j' = Attempt j ∧ MaxAttempts j' = MaxAttempts j ∧ LastErr j' = r ∧ Owner j' = "" ∧ State_ j' = StateDead) ∧
              ∀ id', id' ≠ id → job_at s' id' = job_at s id'
    end;

  (** Extend renews what is still held and reports the rest. *)
  law_extend w ids vt now s :
    law_inv s → 0 < vt < 2 ^ 63 → clock_ok now →
    let '(s', r) := b_Extend w ids vt now s in
    ∃ lost, r = Ok lost ∧ law_inv s' ∧ (∀ id, id ∈ lost ↔ id ∈ ids ∧ ¬ holds job_at s w id) ∧
      ∀ id, (holds job_at s w id → id ∈ ids → job_at s' id = set_Deadline (lease_deadline now vt) <$> job_at s id) ∧
            (¬ holds job_at s w id ∨ id ∉ ids → job_at s' id = job_at s id)
}.

(** What the scheduler relies on: a due entry is stored with that fire time, and a
    claim is a compare-and-set on it. An implementation may round the times it
    stores down, by less than a millisecond. Fire times are not before the epoch. *)
Class CronLaws (S : Type) {ops : CronOps S} := {
  cron_inv : S → Prop;
  fire_time : S → string → option Z;
  stored_time : Z → Z;
  law_stored t : t - Millisecond < stored_time t ≤ t;
  law_due limit now s :
    cron_inv s → 0 < limit → clock_ok now →
    let '(s', r) := c_DueCron limit now s in
    ∃ due, r = Ok due ∧ cron_inv s' ∧ (∀ id, fire_time s' id = fire_time s id) ∧
      ∀ d, d ∈ due → fire_time s (due_ID d) = Some (due_FireAt d) ∧ due_FireAt d ≤ now ∧
                     stored_time (due_FireAt d) = due_FireAt d;
  law_claim id fired next now s :
    cron_inv s → id ≠ "" → stored_time fired = fired → 0 ≤ next →
    let '(s', r) := c_ClaimCron id fired next now s in
    if decide (fire_time s id = Some fired)
    then r = Ok true ∧ fire_time s' id = Some (stored_time next) ∧
         (∀ id', id' ≠ id → fire_time s' id' = fire_time s id') ∧ cron_inv s'
    else r = Ok false ∧ s' = s;
  law_schedule id t now s :
    cron_inv s → id ≠ "" → 0 ≤ t →
    let '(s', r) := c_ScheduleCronIfAbsent id t now s in
    match fire_time s id with
    | Some _ => r = Ok false ∧ s' = s
    | None => r = Ok true ∧ fire_time s' id = Some (stored_time t) ∧
              (∀ id', id' ≠ id → fire_time s' id' = fire_time s id') ∧ cron_inv s'
    end
}.

(** Enqueuing a job does not touch the cron entries. *)
Class SchedulerLaws (S : Type) {bops : BrokerOps S} {cops : CronOps S} {claws : CronLaws S} := {
  law_enqueue_cron i now j s :
    cron_inv s →
    let s' := (b_Enqueue i now j s).1.1 in
    cron_inv s' ∧ ∀ id, fire_time s' id = fire_time s id
}.
