(* ===== verification/Memory.v ===== *)
(** * The in-memory broker: state and operations (internal/memory/)

    [Broker] is the struct of memory.go without its mutex: each method holds the
    lock from its first access to its return, so a method is one function from
    the broker to the broker it leaves and the value it returns, and an
    execution is a sequence of such functions. The clock reading each method
    makes is its argument [now]. A [*taskq.Job] of the jobs map is reachable only
    through that map (Enqueue stores a clone, Dequeue and ListDead hand clones
    out), so the map holds job values. *)
From S2P Require Import Prelude GoBase Job Backoff Interface.

Record uniqueEntry := mkUniqueEntry { u_jobID : string; u_expiresAt : Z }.
Record leaseEntry := mkLeaseEntry { l_owner : string; l_expiresAt : Z }.
Record workerEntry := mkWorkerEntry { w_info : WorkerInfo; w_expiresAt : Z }.

Record Broker := mkBroker {
  closed : bool;
  jobs : gmap string Job;
  pending : gmap string (list string);
  active : gmap string Z;
  scheduled : gmap string Z;
  retry : gmap string Z;
  dead : list string;
  queues : gset string;
  cron : gmap string Z;
  unique : gmap string uniqueEntry;
  leases : gmap string leaseEntry;
  workers : gmap string workerEntry;
  processed : Z;
  failed : Z
}.

(** Assignments to the fields of the broker. *)

Definition set_closed v (b : Broker) : Broker :=
  mkBroker v (jobs b) (pending b) (active b) (scheduled b) (retry b) (dead b) (queues b)
    (cron b) (unique b) (leases b) (workers b) (processed b) (failed b).
Definition set_jobs v (b : Broker) : Broker :=
  mkBroker (closed b) v (pending b) (active b) (scheduled b) (retry b) (dead b) (queues b)
    (cron b) (unique b) (leases b) (workers b) (processed b) (failed b).
Definition set_pending v (b : Broker) : Broker :=
  mkBroker (closed b) (jobs b) v (active b) (scheduled b) (retry b) (dead b) (queues b) (cron b)
    (unique b) (leases b) (workers b) (processed b) (failed b).
Definition set_active v (b : Broker) : Broker :=
  mkBroker (closed b) (jobs b) (pending b) v (scheduled b) (retry b) (dead b) (queues b)
    (cron b) (unique b) (leases b) (workers b) (processed b) (failed b).
Definition set_scheduled v (b : Broker) : Broker :=
  mkBroker (closed b) (jobs b) (pending b) (active b) v (retry b) (dead b) (queues b) (cron b)
    (unique b) (leases b) (workers b) (processed b) (failed b).
Definition set_retry v (b : Broker) : Broker :=
  mkBroker (closed b) (jobs b) (pending b) (active b) (scheduled b) v (dead b) (queues b)
    (cron b) (unique b) (leases b) (workers b) (processed b) (failed b).
Definition set_dead v (b : Broker) : Broker :=
  mkBroker (closed b) (jobs b) (pending b) (active b) (scheduled b) (retry b) v (queues b)
    (cron b) (unique b) (leases b) (workers b) (processed b) (failed b).
Definition set_queues v (b : Broker) : Broker :=
  mkBroker (closed b) (jobs b) (pending b) (active b) (scheduled b) (retry b) (dead b) v
    (cron b) (unique b) (leases b) (workers b) (processed b) (failed b).
Definition set_cron v (b : Broker) : Broker :=
  mkBroker (closed b) (jobs b) (pending b) (active b) (scheduled b) (retry b) (dead b)
    (queues b) v (unique b) (leases b) (workers b) (processed b) (failed b).
Definition set_unique v (b : Broker) : Broker :=
  mkBroker (closed b) (jobs b) (pending b) (active b) (scheduled b) (retry b) (dead b)
    (queues b) (cron b) v (leases b) (workers b) (processed b) (failed b).
Definition set_leases v (b : Broker) : Broker :=
  mkBroker (closed b) (jobs b) (pending b) (active b) (scheduled b) (retry b) (dead b)
    (queues b) (cron b) (unique b) v (workers b) (processed b) (failed b).
Definition set_workers v (b : Broker) : Broker :=
  mkBroker (closed b) (jobs b) (pending b) (active b) (scheduled b) (retry b) (dead b)
    (queues b) (cron b) (unique b) (leases b) v (processed b) (failed b).
Definition set_processed v (b : Broker) : Broker :=
  mkBroker (closed b) (jobs b) (pending b) (active b) (scheduled b) (retry b) (dead b)
    (queues b) (cron b) (unique b) (leases b) (workers b) v (failed b).
Definition set_failed v (b : Broker) : Broker :=
  mkBroker (closed b) (jobs b) (pending b) (active b) (scheduled b) (retry b) (dead b)
    (queues b) (cron b) (unique b) (leases b) (workers b) (processed b) v.

(** Writing through the pointer stored under a key of the jobs map. *)
Definition put_job (id : string) (j : Job) (b : Broker) : Broker :=
  set_jobs (<[id := j]> (jobs b)) b.

(** [b.pending[q]]: nil, the empty list, at a missing key. *)
Definition pend (b : Broker) (q : string) : list string := (pending b).[q | []].

Definition put_pending (q : string) (l : list string) (b : Broker) : Broker :=
  set_pending (<[q := l]> (pending b)) b.

(** [New], with no options (the clock is the [now] of each call). *)
Definition New : Broker :=
  mkBroker false ∅ ∅ ∅ ∅ ∅ [] ∅ ∅ ∅ ∅ ∅ 0 0.

Definition checkOpen (b : Broker) : option error :=
  if closed b then Some (Sentinel ErrClosed) else None.

(** [fmt.Errorf("%w: ...", taskq.ErrInvalidTask)]. *)
Definition invalid (format : string) : error := Errorf format [] [Sentinel ErrInvalidTask].

(** ** taskq.Broker *)

(** The fields Enqueue fills in on the caller's job. *)
Definition fill_defaults (NewID : string) (now : Z) (j : Job) : Job :=
  let j := if String.eqb (ID j) "" then set_ID NewID j else j in
  let j := if bool_decide (MaxAttempts j ≤ 0) then set_MaxAttempts DefaultMaxAttempts j else j in
  if IsZero (EnqueuedAt j) then set_EnqueuedAt now j else j.

(** [Enqueue] with the job pointer [j] (nil is [None]) and the identifier
    [NewID] that [taskq.NewID()] returns if it is called. The caller's job is
    returned as the call leaves it: the fields the method fills in are written
    to it before it is cloned into the store. *)
Definition Enqueue (NewID : string) (now : Z) (j : option Job) (b : Broker)
  : Broker * option Job * option error :=
  match j with
  | None => (b, None, Some (invalid "%w: nil job"))
  | Some j =>
    if String.eqb (Queue j) "" then (b, Some j, Some (invalid "%w: job has no queue"))
    else if String.eqb (Type_ j) "" then (b, Some j, Some (invalid "%w: job has no type"))
    else match checkOpen b with
    | Some err => (b, Some j, Some err)
    | None =>
      match (if String.eqb (UniqueKey j) "" then None
             else match unique b !! UniqueKey j with
                  | Some e => if After (u_expiresAt e) now then Some (u_jobID e) else None
                  | None => None
                  end) with
      | Some existing => (b, Some j, Some (DuplicateError (UniqueKey j) existing))
      | None =>
        let j := fill_defaults NewID now j in
        let stored := set_Owner "" (clone j) in
        let '(stored, b) :=
          if After (RunAt stored) now then
            let stored := set_State StateScheduled stored in
            (stored, set_scheduled (<[ID stored := RunAt stored]> (scheduled b)) b)
          else
            let stored := set_State StatePending stored in
            (stored, put_pending (Queue stored) (pend b (Queue stored) ++ [ID stored]) b) in
        let b := put_job (ID stored) stored b in
        let b := set_queues ({[Queue stored]} ∪ queues b) b in
        let b :=
          if String.eqb (UniqueKey stored) "" then b
          else
            let ttl := if bool_decide (UniqueTTL stored ≤ 0) then Hour else UniqueTTL stored in
            set_unique (<[UniqueKey stored := mkUniqueEntry (ID stored) (Add now ttl)]> (unique b)) b in
        (b, Some j, None)
      end
    end
  end.

(** The claim Dequeue makes on the job it found. *)
Definition claim (o : ClaimOpts) (now : Z) (j : Job) : Job :=
  let j := set_Attempt (wrap64 (Attempt j + 1)) j in
  let j := set_State StateActive j in
  let j := set_Owner (WorkerID o) j in
  let j := set_StartedAt now j in
  set_Deadline (Add now (VisibilityTimeout o)) j.

(** The walk over the queues in the caller's order. *)
Fixpoint dequeue_loop (o : ClaimOpts) (now : Z) (qs : list string) (b : Broker) : Broker * res Job :=
  match qs with
  | [] => (b, Err (Sentinel ErrNoJob))
  | q :: qs =>
      match pend b q with
      | [] => dequeue_loop o now qs b
      | id :: ids =>
          let b := put_pending q ids b in
          match jobs b !! id with
          | None => dequeue_loop o now qs b
          | Some j =>
              let j := claim o now j in
              let b := put_job id j b in
              let b := set_active (<[id := Deadline j]> (active b)) b in
              (b, Ok (clone j))
          end
      end
  end.

Definition Dequeue (o : ClaimOpts) (now : Z) (b : Broker) : Broker * res Job :=
  if String.eqb (WorkerID o) "" then (b, Err (invalid "%w: empty worker ID"))
  else if bool_decide (VisibilityTimeout o ≤ 0)
  then (b, Err (invalid "%w: visibility timeout must be positive"))
  else match checkOpen b with
  | Some err => (b, Err err)
  | None => dequeue_loop o now (Queues o) b
  end.

(** The fencing check: the job, if [workerID] still holds its lease. *)
Definition ownedActive (workerID jobID : string) (b : Broker) : res Job :=
  match jobs b !! jobID with
  | None => Err (Errorf "%w: %s" [jobID] [Sentinel ErrJobNotFound])
  | Some j =>
      if negb (String.eqb (State_ j) StateActive) || negb (String.eqb (Owner j) workerID)
      then Err (Errorf "%w: job %s is %s owned by %q, not %q"
                  [jobID; State_ j; Owner j; workerID] [Sentinel ErrLeaseLost])
      else Ok j
  end.

Definition Ack (workerID jobID : string) (b : Broker) : Broker * option error :=
  match checkOpen b with
  | Some err => (b, Some err)
  | None =>
    match ownedActive workerID jobID b with
    | Err err => (b, Some err)
    | Ok j =>
      if negb (CanTransition (State_ j) StateCompleted)
      then (b, Some (Errorf "taskq/memory: cannot complete job %s from state %s" [jobID; State_ j] []))
      else
        let b := set_active (delete jobID (active b)) b in
        let b := set_jobs (delete jobID (jobs b)) b in
        (set_processed (wrap64 (processed b + 1)) b, None)
    end
  end.

(** [moveToDeadLocked] on the job stored under [key]. *)
Definition moveToDeadLocked (key : string) (j : Job) (b : Broker) : Broker :=
  let j := set_Owner "" (set_State StateDead j) in
  let b := put_job key j b in
  let b := set_dead (dead b ++ [ID j]) b in
  set_failed (wrap64 (failed b + 1)) b.

Definition Nack (workerID jobID : string) (retryAt : Z) (reason : string) (b : Broker)
  : Broker * option error :=
  match checkOpen b with
  | Some err => (b, Some err)
  | None =>
    match ownedActive workerID jobID b with
    | Err err => (b, Some err)
    | Ok j =>
      let b := set_active (delete jobID (active b)) b in
      let j := set_LastErr reason (set_Owner "" j) in
      if Exhausted j then (moveToDeadLocked jobID j b, None)
      else
        let j := set_State StateRetry j in
        let b := put_job jobID j b in
        (set_retry (<[jobID := retryAt]> (retry b)) b, None)
    end
  end.

Definition Kill (workerID jobID reason : string) (b : Broker) : Broker * option error :=
  match checkOpen b with
  | Some err => (b, Some err)
  | None =>
    match ownedActive workerID jobID b with
    | Err err => (b, Some err)
    | Ok j =>
      let b := set_active (delete jobID (active b)) b in
      let j := set_LastErr reason (set_Owner "" j) in
      (moveToDeadLocked jobID j b, None)
    end
  end.

(** The renewal loop of Extend; lost leases accumulate in [lost]. *)
Fixpoint extend_loop (workerID : string) (deadline : Z) (ids lost : list string) (b : Broker)
  : Broker * list string :=
  match ids with
  | [] => (b, lost)
  | id :: ids =>
      match ownedActive workerID id b with
      | Err _ => extend_loop workerID deadline ids (lost ++ [id]) b
      | Ok j =>
          let j := set_Deadline deadline j in
          let b := put_job id j b in
          let b := set_active (<[id := Deadline j]> (active b)) b in
          extend_loop workerID deadline ids lost b
      end
  end.

Definition Extend (workerID : string) (jobIDs : list string) (vt now : Z) (b : Broker)
  : Broker * res (list string) :=
  if bool_decide (vt ≤ 0) then (b, Err (invalid "%w: visibility timeout must be positive"))
  else match checkOpen b with
  | Some err => (b, Err err)
  | None => let '(b, lost) := extend_loop workerID (Add now vt) jobIDs [] b in (b, Ok lost)
  end.

Definition Close (b : Broker) : Broker := set_closed true b.

(** ** taskq.Maintenance *)

(** The filter of Reap: expired, still stored, and of a wanted queue ([want]
    empty means every queue). *)
Definition reapable (now : Z) (want : gset string) (b : Broker) (e : string * Z) : bool :=
  if After e.2 now then false
  else match jobs b !! e.1 with
  | None => false
  | Some j =>
      if bool_decide (0 < size want)%nat then bool_decide (Queue j ∈ want) else true
  end.

(** The candidates, from the entries of the active map in the order Go ranges
    over them. *)
Definition reap_expired (now : Z) (want : gset string) (b : Broker) (entries : list (string * Z))
  : list (string * Z) :=
  filter (λ e, reapable now want b e = true) entries.

(** [sort.Slice]: oldest deadline first, ties by identifier. *)
Definition reap_order (cands : list (string * Z)) : list (string * Z) :=
  merge_sort (by_key (λ e, (e.2, e.1))) cands.

(** What Reap does with one expired job. *)
Definition reap_one (id : string) (j : Job) (b : Broker) : Broker :=
  let b := set_active (delete id (active b)) b in
  let j := set_Owner "" j in
  let j := set_Recoveries (wrap64 (Recoveries j + 1)) j in
  if Exhausted j then
    let j := set_LastErr ("orphaned: lease expired after " +:+ pretty (Attempt j) +:+ " attempts") j in
    moveToDeadLocked id j b
  else
    let j := set_State StatePending j in
    let b := put_job id j b in
    put_pending (Queue j) (id :: pend b (Queue j)) b.

(** The candidates were read under the same lock, so each is still stored. *)
Fixpoint reap_loop (limit n : Z) (cands : list (string * Z)) (b : Broker) : Broker * Z :=
  match cands with
  | [] => (b, n)
  | c :: cands =>
      if bool_decide (limit ≤ n) then (b, n)
      else match jobs b !! c.1 with
           | None => (b, n)
           | Some j => reap_loop limit (n + 1) cands (reap_one c.1 j b)
           end
  end.

Definition Reap (qs : list string) (limit now : Z) (b : Broker) : Broker * res Z :=
  if bool_decide (limit ≤ 0) then (b, Ok 0)
  else match checkOpen b with
  | Some err => (b, Err err)
  | None =>
      let want : gset string := list_to_set qs in
      let expired := reap_expired now want b (map_to_list (active b)) in
      let '(b, n) := reap_loop limit 0 (reap_order expired) b in
      (b, Ok n)
  end.

(** Which of the two sets a promotion candidate was found in. *)
Inductive dueSet := InScheduled | InRetry.

#[export] Instance dueSet_eq_dec : EqDecision dueSet.
Proof. solve_decision. Defined.

Record candidate := mkCandidate { c_id : string; c_due : Z; c_set : dueSet }.

Definition promote_due (now : Z) (set : dueSet) (entries : list (string * Z)) : list candidate :=
  (λ e, mkCandidate e.1 e.2 set) <$> filter (λ e, After e.2 now = false) entries.

Definition promote_order (cands : list candidate) : list candidate :=
  merge_sort (by_key (λ c, (c_due c, c_id c))) cands.

(** [delete(c.set, c.id)]. *)
Definition delete_due (c : candidate) (b : Broker) : Broker :=
  match c_set c with
  | InScheduled => set_scheduled (delete (c_id c) (scheduled b)) b
  | InRetry => set_retry (delete (c_id c) (retry b)) b
  end.

(** What Promote does with one due job that is still stored. *)
Definition promote_one (c : candidate) (j : Job) (b : Broker) : Broker :=
  let b := delete_due c b in
  let j := set_State StatePending j in
  let b := put_job (c_id c) j b in
  put_pending (Queue j) (pend b (Queue j) ++ [c_id c]) b.

Fixpoint promote_loop (limit n : Z) (cands : list candidate) (b : Broker) : Broker * Z :=
  match cands with
  | [] => (b, n)
  | c :: cands =>
      if bool_decide (limit ≤ n) then (b, n)
      else match jobs b !! c_id c with
           | None => promote_loop limit n cands (delete_due c b)
           | Some j => promote_loop limit (n + 1) cands (promote_one c j b)
           end
  end.

Definition Promote (limit now : Z) (b : Broker) : Broker * res Z :=
  if bool_decide (limit ≤ 0) then (b, Ok 0)
  else match checkOpen b with
  | Some err => (b, Err err)
  | None =>
      let due := promote_due now InScheduled (map_to_list (scheduled b)) ++
                 promote_due now InRetry (map_to_list (retry b)) in
      let '(b, n) := promote_loop limit 0 (promote_order due) b in
      (b, Ok n)
  end.

Definition Heartbeat (w : WorkerInfo) (ttl now : Z) (b : Broker) : Broker * option error :=
  if String.eqb (wi_ID w) "" then (b, Some (invalid "%w: empty worker ID"))
  else if bool_decide (ttl ≤ 0) then (b, Some (invalid "%w: heartbeat ttl must be positive"))
  else match checkOpen b with
  | Some err => (b, Some err)
  | None =>
      let w := set_LastBeat now w in
      (set_workers (<[wi_ID w := mkWorkerEntry w (Add now ttl)]> (workers b)) b, None)
  end.

Definition AcquireLease (name owner : string) (ttl now : Z) (b : Broker) : Broker * res bool :=
  if String.eqb name "" || String.eqb owner ""
  then (b, Err (invalid "%w: lease name and owner must be non-empty"))
  else if bool_decide (ttl ≤ 0) then (b, Err (invalid "%w: lease ttl must be positive"))
  else match checkOpen b with
  | Some err => (b, Err err)
  | None =>
      if match leases b !! name with
         | Some e => After (l_expiresAt e) now && negb (String.eqb (l_owner e) owner)
         | None => false
         end
      then (b, Ok false)
      else (set_leases (<[name := mkLeaseEntry owner (Add now ttl)]> (leases b)) b, Ok true)
  end.

Definition ReleaseLease (name owner : string) (b : Broker) : Broker * option error :=
  match checkOpen b with
  | Some err => (b, Some err)
  | None =>
      match leases b !! name with
      | Some e =>
          if String.eqb (l_owner e) owner
          then (set_leases (delete name (leases b)) b, None)
          else (b, None)
      | None => (b, None)
      end
  end.

(** ** taskq.Inspector *)

Definition bump (b : Broker) (f : QueueStats → QueueStats) (s : gmap string QueueStats)
  (id : string) : gmap string QueueStats :=
  match jobs b !! id with
  | None => s
  | Some j =>
      let qs := s.[Queue j | zeroQueueStats] in
      let '(mkQueueStats _ p a sc r) := qs in
      <[Queue j := f (mkQueueStats (Queue j) p a sc r)]> s
  end.

Definition incActive (q : QueueStats) : QueueStats :=
  let '(mkQueueStats n p a s r) := q in mkQueueStats n p (wrap64 (a + 1)) s r.
Definition incScheduled (q : QueueStats) : QueueStats :=
  let '(mkQueueStats n p a s r) := q in mkQueueStats n p a (wrap64 (s + 1)) r.
Definition incRetry (q : QueueStats) : QueueStats :=
  let '(mkQueueStats n p a s r) := q in mkQueueStats n p a s (wrap64 (r + 1)).

Definition Stats_ (now : Z) (b : Broker) : res Stats :=
  match checkOpen b with
  | Some err => Err err
  | None =>
      let s : gmap string QueueStats :=
        foldl (λ s q, <[q := mkQueueStats q (Z.of_nat (length (pend b q))) 0 0 0]> s)
          ∅ (elements (queues b)) in
      let s := foldl (bump b incActive) s (map_to_list (active b)).*1 in
      let s := foldl (bump b incScheduled) s (map_to_list (scheduled b)).*1 in
      let s := foldl (bump b incRetry) s (map_to_list (retry b)).*1 in
      let live := filter (λ e : string * workerEntry, After (w_expiresAt e.2) now = true)
        (map_to_list (workers b)) in
      Ok (mkStats s (Z.of_nat (length (dead b))) (processed b) (failed b) (Z.of_nat (length live)))
  end.

(** The backwards walk of ListDead over the identifiers still to visit. *)
Fixpoint list_dead_loop (b : Broker) (limit : Z) (ids : list string) (out : list Job) : list Job :=
  match ids with
  | [] => out
  | id :: ids =>
      if bool_decide (Z.of_nat (length out) < limit) then
        match jobs b !! id with
        | Some j => list_dead_loop b limit ids (out ++ [clone j])
        | None => list_dead_loop b limit ids out
        end
      else out
  end.

Definition ListDead (offset limit : Z) (b : Broker) : res (list Job) :=
  if bool_decide (offset < 0) || bool_decide (limit ≤ 0) then Ok []
  else match checkOpen b with
  | Some err => Err err
  | None =>
      (* i starts at len(dead)-1-offset and goes down to 0 *)
      let visited := reverse (take (Z.to_nat (Z.of_nat (length (dead b)) - offset)) (dead b)) in
      Ok (list_dead_loop b limit visited [])
  end.

Definition selectDeadLocked (ids : list string) (b : Broker) : list string :=
  match ids with
  | [] => dead b
  | _ =>
      let inDLQ : gset string := list_to_set (dead b) in
      filter (λ id, id ∈ inDLQ) ids
  end.

(** Dropping the first occurrence of an identifier. *)
Fixpoint remove_first (id : string) (l : list string) : list string :=
  match l with
  | [] => []
  | d :: l => if String.eqb d id then l else d :: remove_first id l
  end.

Definition removeDeadLocked (id : string) (b : Broker) : Broker :=
  set_dead (remove_first id (dead b)) b.

(** The body of RetryDead for one identifier of a stored job. *)
Definition retry_dead_one (id : string) (j : Job) (b : Broker) : Broker :=
  let j := set_State StatePending j in
  let j := set_Attempt 0 j in
  let j := set_Recoveries 0 j in
  let j := set_Owner "" j in
  let b := put_job id j b in
  let b := put_pending (Queue j) (pend b (Queue j) ++ [id]) b in
  removeDeadLocked id b.

Fixpoint retry_dead_loop (n : Z) (ids : list string) (b : Broker) : Broker * Z :=
  match ids with
  | [] => (b, n)
  | id :: ids =>
      match jobs b !! id with
      | None => retry_dead_loop n ids b
      | Some j => retry_dead_loop (n + 1) ids (retry_dead_one id j b)
      end
  end.

Definition RetryDead (ids : list string) (b : Broker) : Broker * res Z :=
  match checkOpen b with
  | Some err => (b, Err err)
  | None => let '(b, n) := retry_dead_loop 0 (selectDeadLocked ids b) b in (b, Ok n)
  end.

Fixpoint purge_dead_loop (n : Z) (ids : list string) (b : Broker) : Broker * Z :=
  match ids with
  | [] => (b, n)
  | id :: ids =>
      match jobs b !! id with
      | None => purge_dead_loop n ids b
      | Some _ =>
          let b := set_jobs (delete id (jobs b)) b in
          purge_dead_loop (n + 1) ids (removeDeadLocked id b)
      end
  end.

Definition PurgeDead (ids : list string) (b : Broker) : Broker * res Z :=
  match checkOpen b with
  | Some err => (b, Err err)
  | None => let '(b, n) := purge_dead_loop 0 (selectDeadLocked ids b) b in (b, Ok n)
  end.

Definition Workers (now : Z) (b : Broker) : res (list WorkerInfo) :=
  match checkOpen b with
  | Some err => Err err
  | None =>
      let live := filter (λ e : string * workerEntry, After (w_expiresAt e.2) now = true)
        (map_to_list (workers b)) in
      Ok (merge_sort (by_key (λ w, (0, wi_ID w))) ((λ e, w_info e.2) <$> live))
  end.

(** ** taskq.CronStore (internal/memory/cron.go) *)

Definition ScheduleCronIfAbsent (id : string) (at_ : Z) (b : Broker) : Broker * res bool :=
  if String.eqb id "" then (b, Err (invalid "%w: cron entry has no ID"))
  else match checkOpen b with
  | Some err => (b, Err err)
  | None =>
      match cron b !! id with
      | Some _ => (b, Ok false)
      | None => (set_cron (<[id := at_]> (cron b)) b, Ok true)
      end
  end.

Definition DueCron (limit now : Z) (b : Broker) : res (list DueCronEntry) :=
  if bool_decide (limit ≤ 0) then Ok []
  else match checkOpen b with
  | Some err => Err err
  | None =>
      let out := (λ e, mkDueCronEntry e.1 e.2) <$>
        filter (λ e : string * Z, After e.2 now = false) (map_to_list (cron b)) in
      let out := merge_sort (by_key (λ d, (due_FireAt d, due_ID d))) out in
      Ok (if bool_decide (limit < Z.of_nat (length out)) then take (Z.to_nat limit) out else out)
  end.

Definition ClaimCron (id : string) (firedAt nextAt : Z) (b : Broker) : Broker * res bool :=
  match checkOpen b with
  | Some err => (b, Err err)
  | None =>
      match cron b !! id with
      | None => (b, Ok false)
      | Some at_ =>
          if negb (Equal at_ firedAt) then (b, Ok false)
          else (set_cron (<[id := nextAt]> (cron b)) b, Ok true)
      end
  end.

Definition RemoveCron (id : string) (b : Broker) : Broker * option error :=
  match checkOpen b with
  | Some err => (b, Some err)
  | None => (set_cron (delete id (cron b)) b, None)
  end.
