(* ===== verification/MemoryInv.v ===== *)
(** * The in-memory broker: every job is in exactly one place

    The well-formedness invariant of the broker, its preservation by every
    operation, and the broker as a transition system whose reachable states all
    satisfy it. *)
From S2P Require Import Prelude GoBase Job Backoff Interface BrokerAPI Memory.

(** ** Where a job belongs

    Each structure of the broker has exactly the members the job map says it
    has: the state of a stored job names its place, and an identifier that is
    not stored is nowhere. *)

Definition pending_of (oj : option Job) (q : string) : bool :=
  match oj with
  | Some j => String.eqb (State_ j) StatePending && String.eqb (Queue j) q
  | None => false
  end.

Definition active_of (oj : option Job) : option Z :=
  match oj with
  | Some j => if String.eqb (State_ j) StateActive then Some (Deadline j) else None
  | None => None
  end.

Definition scheduled_of (oj : option Job) : option Z :=
  match oj with
  | Some j => if String.eqb (State_ j) StateScheduled then Some (RunAt j) else None
  | None => None
  end.

Definition retry_of (oj : option Job) : bool :=
  match oj with Some j => String.eqb (State_ j) StateRetry | None => false end.

Definition dead_of (oj : option Job) : bool :=
  match oj with Some j => String.eqb (State_ j) StateDead | None => false end.

(** [id] is exactly where the optional job [oj] says it is. *)
Record spot (b : Broker) (id : string) (oj : option Job) : Prop := mkSpot {
  sp_pending : ∀ q, id ∈ pend b q ↔ pending_of oj q = true;
  sp_active : active b !! id = active_of oj;
  sp_scheduled : scheduled b !! id = scheduled_of oj;
  sp_retry : is_Some (retry b !! id) ↔ retry_of oj = true;
  sp_dead : id ∈ dead b ↔ dead_of oj = true
}.

(** The states a stored job can have. *)
Definition stored_state (s : string) : Prop :=
  s ∈ [StateScheduled; StateRetry; StatePending; StateActive; StateDead].

Record job_ok (b : Broker) (id : string) (j : Job) : Prop := mkJobOk {
  jo_id : ID j = id;
  jo_queue : Queue j ≠ "";
  jo_type : Type_ j ≠ "";
  jo_max : 0 < MaxAttempts j;
  jo_state : stored_state (State_ j);
  jo_owner : State_ j = StateActive ↔ Owner j ≠ "";
  jo_known : Queue j ∈ queues b
}.

Definition ok_at (b : Broker) (id : string) : Prop :=
  spot b id (jobs b !! id) ∧ ∀ j, jobs b !! id = Some j → job_ok b id j.

Record WF (b : Broker) : Prop := mkWF {
  wf_at : ∀ id, ok_at b id;
  wf_pending_nodup : ∀ q, NoDup (pend b q);
  wf_dead_nodup : NoDup (dead b)
}.

(** ** The broker as a transition system *)

Inductive op :=
| OpEnqueue (NewID : string) (j : option Job)
| OpDequeue (o : ClaimOpts)
| OpAck (workerID jobID : string)
| OpNack (workerID jobID : string) (retryAt : Z) (reason : string)
| OpKill (workerID jobID reason : string)
| OpExtend (workerID : string) (jobIDs : list string) (vt : Z)
| OpReap (qs : list string) (limit : Z)
| OpPromote (limit : Z)
| OpHeartbeat (w : WorkerInfo) (ttl : Z)
| OpAcquireLease (name owner : string) (ttl : Z)
| OpReleaseLease (name owner : string)
| OpRetryDead (ids : list string)
| OpPurgeDead (ids : list string)
| OpScheduleCronIfAbsent (id : string) (at_ : Z)
| OpClaimCron (id : string) (firedAt nextAt : Z)
| OpRemoveCron (id : string)
| OpClose.

Definition exec (now : Z) (o : op) (b : Broker) : Broker :=
  match o with
  | OpEnqueue i j => (Enqueue i now j b).1.1
  | OpDequeue o => (Dequeue o now b).1
  | OpAck w i => (Ack w i b).1
  | OpNack w i t r => (Nack w i t r b).1
  | OpKill w i r => (Kill w i r b).1
  | OpExtend w ids vt => (Extend w ids vt now b).1
  | OpReap qs l => (Reap qs l now b).1
  | OpPromote l => (Promote l now b).1
  | OpHeartbeat w ttl => (Heartbeat w ttl now b).1
  | OpAcquireLease n o ttl => (AcquireLease n o ttl now b).1
  | OpReleaseLease n o => (ReleaseLease n o b).1
  | OpRetryDead ids => (RetryDead ids b).1
  | OpPurgeDead ids => (PurgeDead ids b).1
  | OpScheduleCronIfAbsent i t => (ScheduleCronIfAbsent i t b).1
  | OpClaimCron i f n => (ClaimCron i f n b).1
  | OpRemoveCron i => (RemoveCron i b).1
  | OpClose => Close b
  end.

(** What the callers are relied on for: identifiers are globally unique, and an
    operator does not name the same dead job twice in one replay. *)
Definition admissible (b : Broker) (o : op) : Prop :=
  match o with
  | OpEnqueue i (Some j) => jobs b !! assigned_id i j = None
  | OpRetryDead ids => NoDup ids
  | _ => True
  end.

Inductive reachable : Broker → Prop :=
| reach_new : reachable New
| reach_step now o b : reachable b → admissible b o → reachable (exec now o b).

(** Membership in the set a promotion candidate was found in. *)
Definition in_due (b : Broker) (c : candidate) : Prop :=
  match c_set c with
  | InScheduled => is_Some (scheduled b !! c_id c)
  | InRetry => is_Some (retry b !! c_id c)
  end.

(** Two brokers agree on everything that concerns one identifier. *)
Definition same_at (b b' : Broker) (id : string) : Prop :=
  jobs b' !! id = jobs b !! id ∧
  (∀ q, id ∈ pend b' q ↔ id ∈ pend b q) ∧
  active b' !! id = active b !! id ∧
  scheduled b' !! id = scheduled b !! id ∧
  (is_Some (retry b' !! id) ↔ is_Some (retry b !! id)) ∧
  (id ∈ dead b' ↔ id ∈ dead b) ∧
  queues b ⊆ queues b'.

(** ** Automation *)

(** Membership in a queue after one queue is rewritten. *)
Lemma pend_put q l b q' :
  pend (put_pending q l b) q' = if decide (q = q') then l else pend b q'.
Proof.
  unfold pend, put_pending. simpl. rewrite lookup_insert. by case_decide.
Qed.

Lemma eqb_true_iff (x y : string) : String.eqb x y = true ↔ x = y.
Proof. apply String.eqb_eq. Qed.

Lemma eqb_false_iff (x y : string) : String.eqb x y = false ↔ x ≠ y.
Proof. apply String.eqb_neq. Qed.

(** An operation that only touches one identifier preserves well-formedness if
    it leaves that identifier in order. *)
Lemma WF_change b b' id :
  WF b → (∀ id', id' ≠ id → same_at b b' id') → ok_at b' id →
  (∀ q, NoDup (pend b' q)) → NoDup (dead b') → WF b'.
Proof.
  intros Hwf Hsame Hid Hp Hd. split; [|done..].
  intros id'. destruct (decide (id' = id)) as [->|Hne]; [done|].
  destruct (Hsame id' Hne) as (Hj & Hpe & Ha & Hs & Hr & Hde & Hq).
  destruct (wf_at _ Hwf id') as [[S1 S2 S3 S4 S5] Hok].
  rewrite <- Hj in *. split.
  - split; intros; rewrite ?Hpe, ?Ha, ?Hs, ?Hr, ?Hde; auto.
  - intros j Hj'. destruct (Hok j Hj'). split; auto.
Qed.

(** Reducing the reads of a broker built by assignments. *)
Ltac broker_simpl :=
  unfold put_job, put_pending, removeDeadLocked in *;
  cbn [closed jobs pending active scheduled retry dead queues cron unique leases workers
       processed failed set_closed set_jobs set_pending set_active set_scheduled set_retry
       set_dead set_queues set_cron set_unique set_leases set_workers set_processed
       set_failed] in *.

(** Reducing the fields of a job built by assignments. *)
Ltac job_simpl :=
  cbn [ID Queue Type_ Payload Attempt MaxAttempts Recoveries State_ Owner UniqueKey UniqueTTL
       LastErr EnqueuedAt RunAt StartedAt Deadline set_ID set_Queue set_Attempt set_MaxAttempts
       set_Recoveries set_State set_Owner set_Unique set_LastErr set_EnqueuedAt set_RunAt
       set_StartedAt set_Deadline claim] in *.

(** Reads of [pend] over an updated pending map. *)
Ltac pend_simpl :=
  repeat match goal with
  | |- context [pend ?b ?q] =>
      lazymatch b with
      | _ _ => change (pend b q) with (default [] (pending b !! q))
      end
  end;
  broker_simpl; rewrite ?lookup_insert.

Lemma WF_New : WF New.
Proof.
  split; [|intros q; constructor|constructor].
  intros id. unfold ok_at, New. broker_simpl. rewrite lookup_empty.
  split; [|done]. split; broker_simpl; rewrite ?lookup_empty; try done.
  - intros q. split; [|done]. intros H. by apply elem_of_nil in H.
  - split; [|done]. intros H. by apply elem_of_nil in H.
Qed.

(** Comparisons between the state constants compute. *)
Ltac is_state x :=
  first [constr_eq x StateScheduled | constr_eq x StateRetry | constr_eq x StatePending
        | constr_eq x StateActive | constr_eq x StateDead | constr_eq x StateCompleted].

Ltac eval_states :=
  repeat match goal with
  | |- context [String.eqb ?x ?y] =>
      is_state x; is_state y;
      let v := eval vm_compute in (String.eqb x y) in change (String.eqb x y) with v
  | H : context [String.eqb ?x ?y] |- _ =>
      is_state x; is_state y;
      let v := eval vm_compute in (String.eqb x y) in change (String.eqb x y) with v in H
  end; cbn [andb negb] in *.

(** What [spot] says of a job whose state is known by [Hs : State_ j = _]. *)
Ltac spot_simpl Hs :=
  cbn [pending_of active_of scheduled_of retry_of dead_of] in *; job_simpl;
  rewrite ?Hs in *; eval_states.

Lemma not_true_iff (P : Prop) : (P ↔ false = true) ↔ ¬ P.
Proof. naive_solver. Qed.

Lemma is_true_iff (P : Prop) : (P ↔ true = true) ↔ P.
Proof. naive_solver. Qed.

Lemma stored_states :
  stored_state StateScheduled ∧ stored_state StateRetry ∧ stored_state StatePending ∧
  stored_state StateActive ∧ stored_state StateDead.
Proof. unfold stored_state. set_solver. Qed.

Lemma owner_cleared s : s ≠ StateActive → s = StateActive ↔ "" ≠ "".
Proof. naive_solver. Qed.

Lemma is_Some_None_iff {A} (o : option A) : ¬ is_Some o ↔ o = None.
Proof. symmetry. apply eq_None_not_Some. Qed.

(** An identifier that is in none of the structures. *)
Lemma spot_None b id :
  (∀ q, id ∉ pend b q) → active b !! id = None → scheduled b !! id = None →
  ¬ is_Some (retry b !! id) → id ∉ dead b → spot b id None.
Proof. intros. split; cbn [pending_of active_of scheduled_of retry_of dead_of]; naive_solver. Qed.

(** Well-formedness only reads the seven structures that hold identifiers. *)
Lemma WF_ext b b' :
  WF b → jobs b' = jobs b → pending b' = pending b → active b' = active b →
  scheduled b' = scheduled b → retry b' = retry b → dead b' = dead b →
  queues b ⊆ queues b' → WF b'.
Proof.
  intros Hwf Hj Hp Ha Hs Hr Hd Hq. split.
  - intros id. destruct (wf_at _ Hwf id) as [[S1 S2 S3 S4 S5] Hok].
    unfold ok_at. rewrite Hj. split.
    + split; unfold pend; rewrite ?Hp, ?Ha, ?Hs, ?Hr, ?Hd; auto.
    + intros j Hj'. destruct (Hok j Hj'). split; auto.
  - intros q. unfold pend. rewrite Hp. apply Hwf.
  - rewrite Hd. apply Hwf.
Qed.

(** Opening the invariant at a stored job: its place, and its fields. *)
Ltac wf_open Hwf id Hj :=
  let S1 := fresh "Hpend" in let S2 := fresh "Hact" in let S3 := fresh "Hsched" in
  let S4 := fresh "Hret" in let S5 := fresh "Hdead" in let Hok := fresh "Hok" in
  destruct (wf_at _ Hwf id) as [[S1 S2 S3 S4 S5] Hok];
  rewrite Hj in S1, S2, S3, S4, S5;
  try (specialize (Hok _ Hj); destruct Hok).

(** The changed identifier after [put_job]. *)
Ltac solve_ok Hs :=
  unfold ok_at; broker_simpl; rewrite ?lookup_insert_eq, ?lookup_delete_eq;
  split; [split | intros ? [= <-]; split]; broker_simpl; spot_simpl Hs;
  rewrite ?lookup_insert_eq, ?lookup_delete_eq;
  try (by rewrite not_true_iff in *); try setoid_rewrite not_true_iff;
  try setoid_rewrite is_true_iff;
  try done; try apply stored_states; try (by apply owner_cleared).

(** The identifiers the operation does not touch. *)
Ltac solve_same :=
  let id' := fresh "id'" in let Hne := fresh "Hne" in
  intros id' Hne; unfold same_at; broker_simpl;
  rewrite ?lookup_insert_ne, ?lookup_delete_ne by done; split_and!; try done.

(** A member of a queue is pending on it. *)
Lemma WF_pending_head q id ids b :
  WF b → pend b q = id :: ids →
  id ∉ ids ∧ NoDup ids ∧ (∃ j, jobs b !! id = Some j ∧ State_ j = StatePending ∧ Queue j = q).
Proof.
  intros Hwf Hq. pose proof (wf_pending_nodup _ Hwf q) as Hnd. rewrite Hq in Hnd.
  apply NoDup_cons in Hnd as [Hnin Hnd]. split_and!; [done..|].
  destruct (wf_at _ Hwf id) as [[Hp _ _ _ _] _].
  assert (pending_of (jobs b !! id) q = true) as Hst by (apply Hp; rewrite Hq; set_solver).
  destruct (jobs b !! id) as [j|]; [|done]. exists j.
  simpl in Hst. by apply andb_true_iff in Hst as [->%eqb_true_iff ->%eqb_true_iff].
Qed.

(** Appending a new element keeps a list duplicate-free. *)
Lemma NoDup_snoc {A} (l : list A) x : NoDup l → x ∉ l → NoDup (l ++ [x]).
Proof.
  intros Hl Hx. apply NoDup_app. split_and!; [done| |apply NoDup_singleton].
  intros y Hy ->%list_elem_of_singleton. done.
Qed.

Lemma elem_of_snoc {A} (l : list A) (x y : A) : x ∈ l ++ [y] ↔ x = y ∨ x ∈ l.
Proof. rewrite elem_of_app, list_elem_of_singleton. tauto. Qed.

(** Dequeue's claim of the head of a queue. *)
Lemma WF_claim o now q id ids j b :
  WF b → WorkerID o ≠ "" → pend b q = id :: ids → jobs b !! id = Some j →
  WF (set_active (<[id := Deadline (claim o now j)]> (active b))
       (put_job id (claim o now j) (put_pending q ids b))).
Proof.
  intros Hwf Hw Hq Hj.
  destruct (WF_pending_head _ _ _ _ Hwf Hq) as (Hnin & Hnd & j' & Hj' & Hs & Hqj).
  simplify_eq. wf_open Hwf id Hj.
  apply (WF_change b _ id Hwf).
  - solve_same. intros q'. pend_simpl. case_decide; subst; simpl; [|done].
    rewrite Hq. set_solver.
  - solve_ok Hs. intros q'. pend_simpl. case_decide; simpl; [done|].
    fold (pend b q'). rewrite Hpend. by rewrite eqb_true_iff.
  - intros q'. pend_simpl. case_decide; simpl; [by subst|]. apply Hwf.
  - apply Hwf.
Qed.

(** Ack: the job leaves the store. *)
Lemma WF_complete id j b :
  WF b → jobs b !! id = Some j → State_ j = StateActive →
  WF (set_jobs (delete id (jobs b)) (set_active (delete id (active b)) b)).
Proof.
  intros Hwf Hj Hs. wf_open Hwf id Hj.
  apply (WF_change b _ id Hwf); [solve_same | | apply Hwf..].
  solve_ok Hs.
Qed.

(** Nack with attempts left: the job waits in the retry set. *)
Lemma WF_retry id t j j' b :
  WF b → jobs b !! id = Some j → State_ j = StateActive →
  j' = set_State StateRetry (set_LastErr (LastErr j') (set_Owner "" j)) →
  WF (set_retry (<[id := t]> (retry b))
       (put_job id j' (set_active (delete id (active b)) b))).
Proof.
  intros Hwf Hj Hs ->. wf_open Hwf id Hj.
  apply (WF_change b _ id Hwf); [solve_same | | apply Hwf..].
  solve_ok Hs.
Qed.

(** Dead-lettering an active job. *)
Lemma WF_dead id j j' b :
  WF b → jobs b !! id = Some j → State_ j = StateActive →
  ID j' = ID j → Queue j' = Queue j → Type_ j' = Type_ j → MaxAttempts j' = MaxAttempts j →
  WF (moveToDeadLocked id j' (set_active (delete id (active b)) b)).
Proof.
  intros Hwf Hj Hs Hi Hq Ht Hm. wf_open Hwf id Hj. unfold moveToDeadLocked.
  spot_simpl Hs. rewrite not_true_iff in Hdead.
  apply (WF_change b _ id Hwf); [solve_same | | apply Hwf | ].
  - set_solver.
  - solve_ok Hs; try congruence. apply elem_of_app. right. apply list_elem_of_singleton. congruence.
  - broker_simpl. job_simpl. apply NoDup_snoc; [apply Hwf|congruence].
Qed.

(** Extend: the deadline moves, in the job and in the active set alike. *)
Lemma WF_extend id t j b :
  WF b → jobs b !! id = Some j → State_ j = StateActive →
  WF (set_active (<[id := t]> (active b)) (put_job id (set_Deadline t j) b)).
Proof.
  intros Hwf Hj Hs. wf_open Hwf id Hj.
  apply (WF_change b _ id Hwf); [solve_same | | apply Hwf..].
  solve_ok Hs.
Qed.

(** A queue that gains an identifier, at either end. *)
Lemma pend_insert_elem q id l b q' id' :
  (∀ x, x ∈ l ↔ x = id ∨ x ∈ pend b q) →
  id' ∈ pend (put_pending q l b) q' ↔ id' ∈ pend b q' ∨ (id' = id ∧ q' = q).
Proof.
  intros Hl. rewrite pend_put. case_decide; subst; [rewrite Hl|]; naive_solver.
Qed.

(** A job that becomes pending: what the four operations that requeue have in
    common. [b1] is the broker with the job removed from its previous place. *)
Lemma WF_to_pending id j' l b b1 :
  WF b →
  (∀ id', id' ≠ id → same_at b b1 id') →
  spot b1 id None → sublist (dead b1) (dead b) → (∀ q, pend b1 q = pend b q) →
  (∀ x, x ∈ l ↔ x = id ∨ x ∈ pend b1 (Queue j')) → NoDup l →
  State_ j' = StatePending →
  ID j' = id → Queue j' ≠ "" → Type_ j' ≠ "" → 0 < MaxAttempts j' → Owner j' = "" →
  queues b ⊆ queues b1 → Queue j' ∈ queues b1 →
  WF (put_pending (Queue j') l (put_job id j' b1)).
Proof.
  intros Hwf Hsame [Hp Ha Hs Hr Hd] Hdead Hpend Hl Hnd Hst Hi Hq Ht Hm Ho Hqs Hqb.
  spot_simpl Hst. apply (WF_change b _ id Hwf).
  - intros id' Hne. destruct (Hsame id' Hne) as (S1 & S2 & S3 & S4 & S5 & S6 & S7).
    unfold same_at. split_and!; try done.
    + broker_simpl. by rewrite lookup_insert_ne.
    + intros q'. rewrite pend_insert_elem by (intros x; apply Hl).
      unfold put_job. change (pend (set_jobs _ b1) q') with (pend b1 q').
      rewrite S2. naive_solver.
  - unfold ok_at. broker_simpl. rewrite lookup_insert_eq.
    split; [split|intros ? [= <-]; split]; broker_simpl; spot_simpl Hst;
      try done; try apply stored_states; try (rewrite Ho; by apply owner_cleared).
    + intros q'. change (set_pending _ _) with (put_pending (Queue j') l (put_job id j' b1)).
      rewrite pend_insert_elem by (intros x; apply Hl).
      change (pend (put_job id j' b1) q') with (pend b1 q').
      rewrite Hp, eqb_true_iff. naive_solver.
  - intros q'. rewrite pend_put. case_decide; [done|].
    change (pend (put_job id j' b1) q') with (pend b1 q'). rewrite Hpend. apply Hwf.
  - broker_simpl. apply (sublist_NoDup _ (dead b)); [apply Hwf|done].
Qed.

(** Reap with attempts left: back to the head of the queue. *)
Lemma WF_requeue id j j' b :
  WF b → jobs b !! id = Some j → State_ j = StateActive →
  ID j' = ID j → Queue j' = Queue j → Type_ j' = Type_ j → MaxAttempts j' = MaxAttempts j →
  Owner j' = "" → State_ j' = StatePending →
  WF (put_pending (Queue j') (id :: pend b (Queue j'))
       (put_job id j' (set_active (delete id (active b)) b))).
Proof.
  intros Hwf Hj Hs Hi Hq Ht Hm Ho Hst. wf_open Hwf id Hj. spot_simpl Hs.
  rewrite not_true_iff in Hret, Hdead. setoid_rewrite not_true_iff in Hpend.
  apply (WF_to_pending id j' _ b); try done; try congruence.
  - solve_same.
  - apply spot_None; broker_simpl; rewrite ?lookup_delete_eq; done.
  - intros x. apply elem_of_cons.
  - constructor; [apply Hpend|apply Hwf].
  - broker_simpl. congruence.
Qed.

(** RetryDead: back to the tail of the queue. *)
Lemma remove_first_elem id l x :
  NoDup l → x ∈ remove_first id l ↔ x ∈ l ∧ x ≠ id.
Proof.
  induction l as [|d l IH]; simpl; intros Hnd; [set_solver|].
  apply NoDup_cons in Hnd as [Hd Hnd]. destruct (String.eqb_spec d id) as [->|Hne].
  - set_solver.
  - rewrite !elem_of_cons, IH by done. naive_solver.
Qed.

Lemma remove_first_sublist id l : sublist (remove_first id l) l.
Proof.
  induction l as [|d l IH]; simpl; [done|]. case_match; [by apply sublist_cons|].
  by apply sublist_skip.
Qed.

Lemma WF_replay id j b :
  WF b → jobs b !! id = Some j → State_ j = StateDead → WF (retry_dead_one id j b).
Proof.
  intros Hwf Hj Hs. wf_open Hwf id Hj. spot_simpl Hs. unfold retry_dead_one. job_simpl.
  rewrite not_true_iff in Hret. setoid_rewrite not_true_iff in Hpend.
  set (j' := set_Owner _ _).
  pose proof (wf_dead_nodup _ Hwf) as Hdnd.
  apply (WF_ext (put_pending (Queue j') (pend b (Queue j') ++ [id])
    (put_job id j' (removeDeadLocked id b)))); try done.
  apply (WF_to_pending id j' _ b); try done.
  - solve_same. rewrite remove_first_elem by done. naive_solver.
  - apply spot_None; broker_simpl; try done.
    rewrite remove_first_elem by done. by intros [_ []].
  - broker_simpl. apply remove_first_sublist.
  - intros x. apply elem_of_snoc.
  - apply NoDup_snoc; [apply Hwf|apply Hpend].
Qed.

(** A job that is not active has no owner. *)
Lemma job_ok_no_owner b id j : job_ok b id j → State_ j ≠ StateActive → Owner j = "".
Proof.
  intros [_ _ _ _ _ Ho _] Hs. destruct (decide (Owner j = "")) as [|Hne]; [done|].
  by apply Ho in Hne.
Qed.

Lemma in_due_state b c :
  WF b → in_due b c →
  ∃ j, jobs b !! c_id c = Some j ∧
       State_ j = match c_set c with InScheduled => StateScheduled | InRetry => StateRetry end.
Proof.
  intros Hwf Hin. destruct (wf_at _ Hwf (c_id c)) as [[_ _ Hs Hr _] _].
  unfold in_due in Hin. destruct (c_set c).
  - rewrite Hs in Hin. destruct (jobs b !! c_id c) as [j|]; [|by destruct Hin].
    exists j. split; [done|]. simpl in Hin. destruct (String.eqb_spec (State_ j) StateScheduled);
      [done|by destruct Hin].
  - apply Hr in Hin. destruct (jobs b !! c_id c) as [j|]; [|done].
    exists j. split; [done|]. by apply eqb_true_iff.
Qed.

Lemma delete_due_same b c id' : id' ≠ c_id c → same_at b (delete_due c b) id'.
Proof.
  intros Hne. unfold delete_due, same_at. destruct (c_set c); broker_simpl;
    rewrite ?lookup_delete_ne by done; done.
Qed.

Lemma WF_promote c j b :
  WF b → jobs b !! c_id c = Some j →
  State_ j = match c_set c with InScheduled => StateScheduled | InRetry => StateRetry end →
  WF (promote_one c j b).
Proof.
  intros Hwf Hj Hs. unfold promote_one.
  set (j' := set_State StatePending j).
  destruct (wf_at _ Hwf (c_id c)) as [[Hp Ha Hsc Hr Hd] Hok]. rewrite Hj in *.
  specialize (Hok j eq_refl).
  assert (Owner j = "") as Ho.
  { eapply job_ok_no_owner; [done|]. rewrite Hs. by destruct (c_set c). }
  destruct Hok.
  assert (pend (put_job (c_id c) j' (delete_due c b)) (Queue j') = pend b (Queue j')) as ->
    by (unfold delete_due; by destruct (c_set c)).
  spot_simpl Hs.
  apply (WF_to_pending (c_id c) j' _ b).
  - done.
  - intros id' Hne. by apply delete_due_same.
  - unfold delete_due. apply spot_None; destruct (c_set c); broker_simpl; eval_states;
      rewrite ?lookup_delete_eq, ?not_true_iff in *; try done; try naive_solver.
    all: intros q; specialize (Hp q); by rewrite not_true_iff in Hp.
  - unfold delete_due. by destruct (c_set c).
  - intros q. unfold delete_due. by destruct (c_set c).
  - intros x. rewrite elem_of_snoc. unfold delete_due. by destruct (c_set c).
  - apply NoDup_snoc; [apply Hwf|]. rewrite Hp. by destruct (c_set c).
  - done.
  - done.
  - done.
  - done.
  - done.
  - done.
  - unfold delete_due. by destruct (c_set c).
  - unfold delete_due. by destruct (c_set c).
Qed.

(** Enqueue of a job due now. *)
Lemma WF_enqueue_pending id j b :
  WF b → jobs b !! id = None →
  State_ j = StatePending → ID j = id → Queue j ≠ "" → Type_ j ≠ "" → 0 < MaxAttempts j →
  Owner j = "" →
  WF (set_queues ({[Queue j]} ∪ queues b)
       (put_job id j (put_pending (Queue j) (pend b (Queue j) ++ [id]) b))).
Proof.
  intros Hwf Hj Hs Hi Hq Ht Hm Ho.
  destruct (wf_at _ Hwf id) as [Hsp _]. rewrite Hj in Hsp.
  pose proof Hsp as [Hp Ha Hsc Hr Hd]. cbn [pending_of] in Hp.
  apply (WF_ext (put_pending (Queue j) (pend b (Queue j) ++ [id])
    (put_job id j (set_queues ({[Queue j]} ∪ queues b) b)))); try done.
  apply (WF_to_pending id j _ b); try done.
  - intros id' Hne. unfold same_at. broker_simpl. split_and!; try done. apply union_subseteq_r.
  - intros x. apply elem_of_snoc.
  - apply NoDup_snoc; [apply Hwf|]. specialize (Hp (Queue j)). by rewrite not_true_iff in Hp.
  - broker_simpl. apply union_subseteq_r.
  - broker_simpl. apply elem_of_union_l. by apply elem_of_singleton.
Qed.

(** Enqueue of a job due later. *)
Lemma WF_enqueue_scheduled id j b :
  WF b → jobs b !! id = None →
  State_ j = StateScheduled → ID j = id → Queue j ≠ "" → Type_ j ≠ "" → 0 < MaxAttempts j →
  Owner j = "" →
  WF (set_queues ({[Queue j]} ∪ queues b)
       (put_job id j (set_scheduled (<[id := RunAt j]> (scheduled b)) b))).
Proof.
  intros Hwf Hj Hs Hi Hq Ht Hm Ho.
  destruct (wf_at _ Hwf id) as [[Hp Ha Hsc Hr Hd] _]. rewrite Hj in *.
  apply (WF_change b _ id Hwf); [solve_same | | apply Hwf..].
  - apply union_subseteq_r.
  - solve_ok Hs; try (rewrite Ho; by apply owner_cleared).
    + apply elem_of_union_l. by apply elem_of_singleton.
Qed.

(** PurgeDead: the job leaves the store and the dead-letter list. *)
Lemma WF_purge id j b :
  WF b → jobs b !! id = Some j → State_ j = StateDead →
  WF (removeDeadLocked id (set_jobs (delete id (jobs b)) b)).
Proof.
  intros Hwf Hj Hs. wf_open Hwf id Hj.
  pose proof (wf_dead_nodup _ Hwf) as Hnd. spot_simpl Hs.
  apply (WF_change b _ id Hwf); [solve_same | | apply Hwf | ].
  - rewrite remove_first_elem by done. naive_solver.
  - solve_ok Hs. rewrite remove_first_elem by done. by intros [_ []].
  - broker_simpl. eapply sublist_NoDup; [exact Hnd|apply remove_first_sublist].
Qed.

(** ** Every operation preserves the invariant *)

Lemma checkOpen_cases b : checkOpen b = None ∨ checkOpen b = Some (Sentinel ErrClosed).
Proof. unfold checkOpen. destruct (closed b); auto. Qed.

(** The fencing check succeeds exactly on the active jobs of the caller. *)
Lemma ownedActive_Ok w id b j :
  ownedActive w id b = Ok j ↔ jobs b !! id = Some j ∧ State_ j = StateActive ∧ Owner j = w.
Proof.
  unfold ownedActive. destruct (jobs b !! id) as [j0|]; [|naive_solver].
  destruct (String.eqb_spec (State_ j0) StateActive), (String.eqb_spec (Owner j0) w);
    simpl; naive_solver.
Qed.

(** Case analysis of an operation that starts with [checkOpen]. *)
Ltac open_cases b :=
  destruct (checkOpen_cases b) as [-> | ->]; simpl; [|try done].

Lemma fill_defaults_fields i now j :
  let j' := fill_defaults i now j in
  ID j' = assigned_id i j ∧ Queue j' = Queue j ∧ Type_ j' = Type_ j ∧ 0 < MaxAttempts j' ∧
  Attempt j' = Attempt j ∧ RunAt j' = RunAt j ∧ UniqueKey j' = UniqueKey j ∧
  UniqueTTL j' = UniqueTTL j ∧ Payload j' = Payload j ∧
  (0 < MaxAttempts j → MaxAttempts j' = MaxAttempts j).
Proof.
  unfold fill_defaults, assigned_id, DefaultMaxAttempts. simpl.
  destruct (String.eqb (ID j) ""); simpl; destruct (bool_decide_reflect (MaxAttempts j ≤ 0));
    simpl; destruct (IsZero (EnqueuedAt j)); simpl; split_and!; try done; lia.
Qed.

Lemma WF_Enqueue i now j b :
  WF b → admissible b (OpEnqueue i j) → WF (Enqueue i now j b).1.1.
Proof.
  intros Hwf Hadm. unfold Enqueue. destruct j as [j|]; [|done]. simpl in Hadm.
  destruct (String.eqb_spec (Queue j) "") as [|Hq]; [done|].
  destruct (String.eqb_spec (Type_ j) "") as [|Ht]; [done|].
  open_cases b. case_match; [done|]. rewrite clone_eq.
  destruct (fill_defaults_fields i now j) as (Hid & Hq3 & Ht3 & Hm3 & _).
  set (j3 := fill_defaults i now j) in *. clearbody j3.
  rewrite <- Hid in Hadm. rewrite <- Hq3 in Hq. rewrite <- Ht3 in Ht.
  job_simpl. destruct (After (RunAt j3) now); simpl.
  - pose proof (WF_enqueue_scheduled (ID j3) (set_State StateScheduled (set_Owner "" j3)) b
      Hwf Hadm eq_refl eq_refl Hq Ht Hm3 eq_refl) as HW.
    destruct (String.eqb (UniqueKey j3) ""); [exact HW|]. by apply (WF_ext _ _ HW).
  - pose proof (WF_enqueue_pending (ID j3) (set_State StatePending (set_Owner "" j3)) b
      Hwf Hadm eq_refl eq_refl Hq Ht Hm3 eq_refl) as HW.
    destruct (String.eqb (UniqueKey j3) ""); [exact HW|]. by apply (WF_ext _ _ HW).
Qed.

Lemma WF_dequeue_loop o now qs b :
  WF b → WorkerID o ≠ "" → WF (dequeue_loop o now qs b).1.
Proof.
  intros Hwf Hw. induction qs as [|q qs IH]; simpl; [done|].
  destruct (pend b q) as [|id ids] eqn:Hq; [done|].
  destruct (WF_pending_head _ _ _ _ Hwf Hq) as (_ & _ & j & Hj & _ & _).
  broker_simpl. rewrite Hj. simpl. by apply WF_claim.
Qed.

Lemma WF_extend_loop w t ids lost b : WF b → WF (extend_loop w t ids lost b).1.
Proof.
  revert lost b. induction ids as [|id ids IH]; intros lost b Hwf; simpl; [done|].
  destruct (ownedActive w id b) as [j|e] eqn:Ho; [|by apply IH].
  apply ownedActive_Ok in Ho as (Hj & Hs & _). apply IH. job_simpl. by apply WF_extend.
Qed.

Lemma WF_reap_one id j b :
  WF b → jobs b !! id = Some j → State_ j = StateActive → WF (reap_one id j b).
Proof.
  intros Hwf Hj Hs. unfold reap_one. case_match.
  - by apply (WF_dead id j).
  - set (j' := set_State StatePending _).
    change (pend (put_job id j' _) (Queue j')) with (pend b (Queue j')).
    by apply (WF_requeue id j j').
Qed.

Lemma WF_reap_loop limit n cands b :
  WF b → NoDup cands.*1 → (∀ c, c ∈ cands → is_Some (active b !! c.1)) →
  WF (reap_loop limit n cands b).1.
Proof.
  revert n b. induction cands as [|c cands IH]; intros n b Hwf Hnd Hin; simpl; [done|].
  case_bool_decide; [done|]. destruct (jobs b !! c.1) as [j|] eqn:Hj; [|done].
  apply NoDup_cons in Hnd as [Hc Hnd].
  apply IH; [|done|].
  - apply WF_reap_one; [done|done|].
    destruct (wf_at _ Hwf c.1) as [[_ Ha _ _ _] _]. rewrite Hj in Ha.
    destruct (Hin c) as [t Ht]; [by left|]. rewrite Ha in Ht. simpl in Ht.
    by destruct (String.eqb_spec (State_ j) StateActive).
  - intros c' Hc'. assert (c'.1 ≠ c.1) by (intros Heq; apply Hc; rewrite <- Heq; by apply list_elem_of_fmap_2).
    unfold reap_one. case_match; unfold moveToDeadLocked; broker_simpl;
      rewrite lookup_delete_ne by done; apply Hin; by right.
Qed.

(** The candidates of Reap are distinct identifiers of the active set. *)
Lemma reap_cands_ok now want b :
  let cands := reap_order (reap_expired now want b (map_to_list (active b))) in
  NoDup cands.*1 ∧
  (∀ c, c ∈ cands ↔ reapable now want b c = true ∧ active b !! c.1 = Some c.2).
Proof.
  simpl. unfold reap_order, reap_expired. split.
  - rewrite merge_sort_Permutation. apply NoDup_filter_entries.
  - intros c. rewrite merge_sort_Permutation. by rewrite elem_of_filter_entries.
Qed.

Lemma WF_Reap qs limit now b : WF b → WF (Reap qs limit now b).1.
Proof.
  intros Hwf. unfold Reap. case_bool_decide; [done|]. open_cases b.
  set (want := list_to_set qs : gset string).
  destruct (reap_cands_ok now want b) as [Hnd Hin].
  set (cands := reap_order _) in *.
  pose proof (WF_reap_loop limit 0 cands b Hwf Hnd) as HW.
  destruct (reap_loop limit 0 cands b) as [b' n]. apply HW.
  intros c [_ Hc]%Hin. by rewrite Hc.
Qed.

Lemma elem_of_promote_due now s (m : gmap string Z) c :
  c ∈ promote_due now s (map_to_list m) ↔
  c_set c = s ∧ c_due c ≤ now ∧ m !! c_id c = Some (c_due c).
Proof.
  destruct c as [i d s']. unfold promote_due. rewrite list_elem_of_fmap.
  setoid_rewrite elem_of_filter_entries. setoid_rewrite After_false. split.
  - intros ([i' d'] & [= -> -> ->] & Hle & Hl). done.
  - simpl. intros (-> & Hle & Hl). by exists (i, d).
Qed.

Lemma promote_due_nodup now s (m : gmap string Z) :
  NoDup (c_id <$> promote_due now s (map_to_list m)).
Proof. unfold promote_due. rewrite <- list_fmap_compose. apply NoDup_filter_entries. Qed.

(** The candidates of Promote are distinct, each in the set it names. *)
Lemma promote_cands_ok now b :
  WF b →
  let cands := promote_order (promote_due now InScheduled (map_to_list (scheduled b)) ++
                              promote_due now InRetry (map_to_list (retry b))) in
  NoDup (c_id <$> cands) ∧
  (∀ c, c ∈ cands ↔ c_due c ≤ now ∧
     match c_set c with
     | InScheduled => scheduled b !! c_id c = Some (c_due c)
     | InRetry => retry b !! c_id c = Some (c_due c)
     end).
Proof.
  intros Hwf. simpl. unfold promote_order.
  split.
  - rewrite merge_sort_Permutation, fmap_app. apply NoDup_app. split_and!.
    + apply promote_due_nodup.
    + intros x (c1 & -> & Hc1)%list_elem_of_fmap (c2 & Heq & Hc2)%list_elem_of_fmap.
      apply elem_of_promote_due in Hc1 as (_ & _ & Hc1). apply elem_of_promote_due in Hc2 as (_ & _ & Hc2).
      rewrite <- Heq in Hc2. destruct (wf_at _ Hwf (c_id c1)) as [[_ _ Hs Hr _] _].
      rewrite Hs in Hc1. assert (is_Some (retry b !! c_id c1)) as Hr' by eauto.
      apply Hr in Hr'. destruct (jobs b !! c_id c1) as [j|]; [|done].
      simpl in *. apply eqb_true_iff in Hr'. rewrite Hr' in Hc1. done.
    + apply promote_due_nodup.
  - intros c. rewrite merge_sort_Permutation, elem_of_app, !elem_of_promote_due.
    destruct (c_set c); naive_solver.
Qed.

Lemma WF_promote_loop limit n cands b :
  WF b → NoDup (c_id <$> cands) → (∀ c, c ∈ cands → in_due b c) →
  WF (promote_loop limit n cands b).1.
Proof.
  revert n b. induction cands as [|c cands IH]; intros n b Hwf Hnd Hin; simpl; [done|].
  case_bool_decide; [done|].
  rewrite fmap_cons in Hnd. apply NoDup_cons in Hnd as [Hc Hnd].
  destruct (in_due_state b c Hwf) as (j & Hj & Hs); [apply Hin; by left|].
  rewrite Hj. apply IH; [by apply WF_promote|done|].
  intros c' Hc'.
  assert (c_id c' ≠ c_id c) by (intros Heq; apply Hc; rewrite <- Heq; by apply list_elem_of_fmap_2).
  pose proof (Hin c' (list_elem_of_further _ _ _ Hc')) as Hd.
  unfold in_due, promote_one, delete_due in *.
  destruct (c_set c'), (c_set c); broker_simpl; rewrite ?lookup_delete_ne by done; done.
Qed.

Lemma WF_Promote limit now b : WF b → WF (Promote limit now b).1.
Proof.
  intros Hwf. unfold Promote. case_bool_decide; [done|]. open_cases b.
  destruct (promote_cands_ok now b Hwf) as [Hnd Hin].
  set (cands := promote_order _) in *.
  pose proof (WF_promote_loop limit 0 cands b Hwf Hnd) as HW.
  destruct (promote_loop limit 0 cands b) as [b' n]. apply HW.
  intros c [_ Hc]%Hin. unfold in_due. destruct (c_set c); by rewrite Hc.
Qed.

(** A member of the dead-letter list is a dead job. *)
Lemma WF_dead_elem id b :
  WF b → id ∈ dead b → ∃ j, jobs b !! id = Some j ∧ State_ j = StateDead.
Proof.
  intros Hwf Hin. destruct (wf_at _ Hwf id) as [[_ _ _ _ Hd] _]. apply Hd in Hin.
  destruct (jobs b !! id) as [j|]; [|done]. exists j. split; [done|]. by apply eqb_true_iff.
Qed.

(** The selection of dead jobs names members of the list, once each if the
    request does. *)
Lemma selectDead_ok ids b :
  WF b → NoDup ids →
  NoDup (selectDeadLocked ids b) ∧
  (∀ id, id ∈ selectDeadLocked ids b ↔ id ∈ dead b ∧ (ids = [] ∨ id ∈ ids)).
Proof.
  intros Hwf Hnd. unfold selectDeadLocked. destruct ids as [|i ids].
  - split; [apply Hwf|]. naive_solver.
  - split; [by apply NoDup_filter|]. intros id. rewrite list_elem_of_filter, elem_of_list_to_set.
    naive_solver.
Qed.

Lemma retry_dead_one_dead id j b : dead (retry_dead_one id j b) = remove_first id (dead b).
Proof. done. Qed.

Lemma WF_retry_dead_loop n ids b :
  WF b → NoDup ids → (∀ id, id ∈ ids → id ∈ dead b) → WF (retry_dead_loop n ids b).1.
Proof.
  revert n b. induction ids as [|id ids IH]; intros n b Hwf Hnd Hin; simpl; [done|].
  apply NoDup_cons in Hnd as [Hid Hnd].
  destruct (WF_dead_elem id b Hwf) as (j & Hj & Hs); [apply Hin; by left|].
  rewrite Hj. apply IH; [by apply WF_replay|done|].
  intros id' Hid'. rewrite retry_dead_one_dead, remove_first_elem by apply Hwf.
  split; [apply Hin; by right|]. by intros ->.
Qed.

Lemma WF_purge_dead_loop n ids b :
  WF b → (∀ id, id ∈ ids → id ∈ dead b ∨ jobs b !! id = None) →
  WF (purge_dead_loop n ids b).1.
Proof.
  revert n b. induction ids as [|id ids IH]; intros n b Hwf Hin; simpl; [done|].
  destruct (jobs b !! id) as [j0|] eqn:Hj0.
  - destruct (Hin id) as [Hd|]; [by left| |congruence].
    destruct (WF_dead_elem id b Hwf Hd) as (j & Hj & Hs).
    apply IH; [by apply (WF_purge id j)|].
    intros id' Hid'. broker_simpl. rewrite remove_first_elem by apply Hwf.
    destruct (decide (id' = id)) as [->|Hne]; [rewrite lookup_delete_eq; by right|].
    rewrite lookup_delete_ne by done. destruct (Hin id'); [by right|naive_solver..].
  - apply IH; [done|]. intros id' Hid'. apply Hin. by right.
Qed.

Lemma WF_RetryDead ids b : WF b → NoDup ids → WF (RetryDead ids b).1.
Proof.
  intros Hwf Hnd. unfold RetryDead. open_cases b.
  destruct (selectDead_ok ids b Hwf Hnd) as [Hnd' Hin].
  pose proof (WF_retry_dead_loop 0 (selectDeadLocked ids b) b Hwf Hnd') as HW.
  destruct (retry_dead_loop _ _ _). apply HW. intros id []%Hin. done.
Qed.

Lemma WF_PurgeDead ids b : WF b → WF (PurgeDead ids b).1.
Proof.
  intros Hwf. unfold PurgeDead. open_cases b.
  pose proof (WF_purge_dead_loop 0 (selectDeadLocked ids b) b Hwf) as HW.
  destruct (purge_dead_loop _ _ _). apply HW. intros id Hid. left.
  unfold selectDeadLocked in Hid. destruct ids; [done|].
  by apply list_elem_of_filter in Hid as [Hid%elem_of_list_to_set _].
Qed.

Lemma WF_Ack w i b : WF b → WF (Ack w i b).1.
Proof.
  intros Hwf. unfold Ack. open_cases b.
  destruct (ownedActive w i b) as [j|e] eqn:Ho; [|done].
  apply ownedActive_Ok in Ho as (Hj & Hs & _). case_match; [done|].
  eapply WF_ext; [by apply (WF_complete i j b)|done..].
Qed.

Lemma WF_Nack w i t r b : WF b → WF (Nack w i t r b).1.
Proof.
  intros Hwf. unfold Nack. open_cases b.
  destruct (ownedActive w i b) as [j|e] eqn:Ho; [|done].
  apply ownedActive_Ok in Ho as (Hj & Hs & _). case_match; simpl.
  - by apply (WF_dead i j).
  - by apply (WF_retry i t j).
Qed.

Lemma WF_Kill w i r b : WF b → WF (Kill w i r b).1.
Proof.
  intros Hwf. unfold Kill. open_cases b.
  destruct (ownedActive w i b) as [j|e] eqn:Ho; [|done].
  apply ownedActive_Ok in Ho as (Hj & Hs & _). by apply (WF_dead i j).
Qed.

Lemma WF_Extend w ids vt now b : WF b → WF (Extend w ids vt now b).1.
Proof.
  intros Hwf. unfold Extend. case_bool_decide; [done|]. open_cases b.
  pose proof (WF_extend_loop w (Add now vt) ids [] b Hwf). by destruct (extend_loop _ _ _ _ _).
Qed.

Lemma WF_Dequeue o now b : WF b → WF (Dequeue o now b).1.
Proof.
  intros Hwf. unfold Dequeue. destruct (String.eqb_spec (WorkerID o) ""); [done|].
  case_bool_decide; [done|]. open_cases b. by apply WF_dequeue_loop.
Qed.

(** The operations on leases, heartbeats and cron touch no job. *)
Lemma exec_no_jobs now o b :
  match o with
  | OpHeartbeat _ _ | OpAcquireLease _ _ _ | OpReleaseLease _ _ | OpScheduleCronIfAbsent _ _
  | OpClaimCron _ _ _ | OpRemoveCron _ | OpClose =>
      let b' := exec now o b in
      jobs b' = jobs b ∧ pending b' = pending b ∧ active b' = active b ∧
      scheduled b' = scheduled b ∧ retry b' = retry b ∧ dead b' = dead b ∧ queues b' = queues b
  | _ => True
  end.
Proof.
  destruct o; try done; unfold exec, Heartbeat, AcquireLease, ReleaseLease, ScheduleCronIfAbsent,
    ClaimCron, RemoveCron, checkOpen; repeat case_match; done.
Qed.

Lemma WF_exec now o b : WF b → admissible b o → WF (exec now o b).
Proof.
  intros Hwf Hadm. pose proof (exec_no_jobs now o b) as Hno.
  destruct o;
    try (cbn [exec]; by auto using WF_Enqueue, WF_Dequeue, WF_Ack, WF_Nack, WF_Kill, WF_Extend,
           WF_Reap, WF_Promote, WF_PurgeDead, WF_RetryDead);
    destruct Hno as (H1 & H2 & H3 & H4 & H5 & H6 & H7);
    apply (WF_ext b _ Hwf H1 H2 H3 H4 H5 H6); by rewrite H7.
Qed.

Lemma reachable_WF b : reachable b → WF b.
Proof. induction 1; auto using WF_New, WF_exec. Qed.
