(* ===== verification/MemorySpec.v ===== *)
(** * The in-memory broker against the job lifecycle

    [job_step] is the abstract specification of the broker: for each operation,
    the only ways it may change the record of one job. [exec_job_step] shows that
    every operation of the broker refines it, for every job at once; the
    delivery guarantees are read off the specification. *)
From S2P Require Import Prelude GoBase Job Backoff Interface BrokerAPI Memory MemoryInv.

(** ** The abstract specification *)

(** The record Enqueue stores. *)
Definition stored_job (i : string) (now : Z) (j : Job) : Job :=
  let j := set_Owner "" (clone (fill_defaults i now j)) in
  if After (RunAt j) now then set_State StateScheduled j else set_State StatePending j.

(** The record Reap leaves: requeued, or dead-lettered when out of attempts. *)
Definition reaped (j : Job) : Job :=
  let j := set_Recoveries (wrap64 (Recoveries j + 1)) (set_Owner "" j) in
  if Exhausted j then
    set_Owner "" (set_State StateDead
      (set_LastErr ("orphaned: lease expired after " +:+ pretty (Attempt j) +:+ " attempts") j))
  else set_State StatePending j.

(** The record a failure report leaves when the job is given up. *)
Definition buried (reason : string) (j : Job) : Job :=
  set_Owner "" (set_State StateDead (set_LastErr reason (set_Owner "" j))).

(** The record RetryDead leaves. *)
Definition replayed (j : Job) : Job :=
  set_Owner "" (set_Recoveries 0 (set_Attempt 0 (set_State StatePending j))).

Inductive job_step (now : Z) : op → string → option Job → option Job → Prop :=
| js_same o id oj : job_step now o id oj oj
| js_enqueue i j :
    Queue j ≠ "" → Type_ j ≠ "" →
    job_step now (OpEnqueue i (Some j)) (assigned_id i j) None (Some (stored_job i now j))
| js_claim o id j :
    State_ j = StatePending → Queue j ∈ Queues o → WorkerID o ≠ "" → 0 < VisibilityTimeout o →
    job_step now (OpDequeue o) id (Some j) (Some (claim o now j))
| js_ack id j :
    State_ j = StateActive → job_step now (OpAck (Owner j) id) id (Some j) None
| js_nack_retry id t r j :
    State_ j = StateActive → Exhausted j = false →
    job_step now (OpNack (Owner j) id t r) id (Some j)
      (Some (set_State StateRetry (set_LastErr r (set_Owner "" j))))
| js_nack_dead id t r j :
    State_ j = StateActive → Exhausted j = true →
    job_step now (OpNack (Owner j) id t r) id (Some j) (Some (buried r j))
| js_kill id r j :
    State_ j = StateActive →
    job_step now (OpKill (Owner j) id r) id (Some j) (Some (buried r j))
| js_extend id ids vt j :
    State_ j = StateActive → id ∈ ids → 0 < vt →
    job_step now (OpExtend (Owner j) ids vt) id (Some j) (Some (set_Deadline (Add now vt) j))
| js_reap id qs limit j :
    State_ j = StateActive → Deadline j ≤ now → (qs = [] ∨ Queue j ∈ qs) →
    job_step now (OpReap qs limit) id (Some j) (Some (reaped j))
| js_promote id limit j :
    (State_ j = StateScheduled ∧ RunAt j ≤ now) ∨ State_ j = StateRetry →
    job_step now (OpPromote limit) id (Some j) (Some (set_State StatePending j))
| js_replay id ids j :
    State_ j = StateDead → (ids = [] ∨ id ∈ ids) →
    job_step now (OpRetryDead ids) id (Some j) (Some (replayed j))
| js_purge id ids j :
    State_ j = StateDead → (ids = [] ∨ id ∈ ids) →
    job_step now (OpPurgeDead ids) id (Some j) None.

(** The lifecycle position of an optional record: the empty state for a job that
    is not stored. *)
Definition state_of (oj : option Job) : string :=
  match oj with Some j => State_ j | None => "" end.

(** ** Refinement, operation by operation *)

Lemma reap_one_jobs id j b : jobs (reap_one id j b) = <[id := reaped j]> (jobs b).
Proof. unfold reap_one, reaped, moveToDeadLocked. by destruct (Exhausted _). Qed.

Lemma promote_one_jobs c j b :
  jobs (promote_one c j b) = <[c_id c := set_State StatePending j]> (jobs b).
Proof. unfold promote_one, delete_due. by destruct (c_set c). Qed.

Lemma reap_loop_jobs limit n cands b id :
  NoDup cands.*1 →
  let b' := (reap_loop limit n cands b).1 in
  jobs b' !! id = jobs b !! id ∨
  (id ∈ cands.*1 ∧ ∃ j, jobs b !! id = Some j ∧ jobs b' !! id = Some (reaped j)).
Proof.
  simpl. revert n b. induction cands as [|c cands IH]; intros n b Hnd; simpl; [by left|].
  rewrite fmap_cons, NoDup_cons in Hnd. destruct Hnd as [Hc Hnd].
  case_bool_decide; [by left|]. destruct (jobs b !! c.1) as [j|] eqn:Hj; [|by left].
  specialize (IH (n + 1) (reap_one c.1 j b) Hnd). rewrite reap_one_jobs in IH.
  destruct (decide (id = c.1)) as [->|Hne].
  - rewrite lookup_insert_eq in IH. destruct IH as [->|[Hin _]]; [|done].
    right. split; [by left|]. by exists j.
  - rewrite lookup_insert_ne in IH by done. destruct IH as [->|[Hin IH]]; [by left|].
    right. split; [by right|done].
Qed.

Lemma promote_loop_jobs limit n cands b id :
  NoDup (c_id <$> cands) →
  let b' := (promote_loop limit n cands b).1 in
  jobs b' !! id = jobs b !! id ∨
  (id ∈ c_id <$> cands ∧
   ∃ j, jobs b !! id = Some j ∧ jobs b' !! id = Some (set_State StatePending j)).
Proof.
  simpl. revert n b. induction cands as [|c cands IH]; intros n b Hnd; simpl; [by left|].
  rewrite fmap_cons, NoDup_cons in Hnd. destruct Hnd as [Hc Hnd].
  case_bool_decide; [by left|]. destruct (jobs b !! c_id c) as [j|] eqn:Hj.
  - specialize (IH (n + 1) (promote_one c j b) Hnd). rewrite promote_one_jobs in IH.
    destruct (decide (id = c_id c)) as [->|Hne].
    + rewrite lookup_insert_eq in IH. destruct IH as [->|[Hin _]]; [|done].
      right. split; [by left|]. by exists j.
    + rewrite lookup_insert_ne in IH by done. destruct IH as [->|[Hin IH]]; [by left|].
      right. split; [by right|done].
  - specialize (IH n (delete_due c b) Hnd).
    replace (jobs (delete_due c b)) with (jobs b) in IH
      by (unfold delete_due; by destruct (c_set c)).
    destruct IH as [->|[Hin IH]]; [by left|]. right. split; [by right|done].
Qed.

Lemma extend_loop_jobs w t ids lost b id :
  let b' := (extend_loop w t ids lost b).1 in
  jobs b' !! id = jobs b !! id ∨
  (id ∈ ids ∧ ∃ j, jobs b !! id = Some j ∧ State_ j = StateActive ∧ Owner j = w ∧
                   jobs b' !! id = Some (set_Deadline t j)).
Proof.
  simpl. revert lost b. induction ids as [|i ids IH]; intros lost b; simpl; [by left|].
  destruct (ownedActive w i b) as [j|e] eqn:Ho.
  - apply ownedActive_Ok in Ho as (Hj & Hs & Hw).
    specialize (IH lost (set_active (<[i:=t]> (active b)) (put_job i (set_Deadline t j) b))).
    broker_simpl. job_simpl. destruct (decide (id = i)) as [->|Hne].
    + rewrite lookup_insert_eq in IH. right. split; [by left|]. exists j. split_and!; try done.
      destruct IH as [->|[_ (j' & [= <-] & _ & _ & ->)]]; done.
    + rewrite lookup_insert_ne in IH by done. destruct IH as [->|[Hin IH]]; [by left|].
      right. split; [by right|done].
  - destruct (IH (lost ++ [i]) b) as [->|[Hin IH']]; [by left|].
    right. split; [by right|done].
Qed.

Lemma retry_dead_loop_jobs n ids b id :
  NoDup ids →
  let b' := (retry_dead_loop n ids b).1 in
  jobs b' !! id = jobs b !! id ∨
  (id ∈ ids ∧ ∃ j, jobs b !! id = Some j ∧ jobs b' !! id = Some (replayed j)).
Proof.
  simpl. revert n b. induction ids as [|i ids IH]; intros n b Hnd; simpl; [by left|].
  apply NoDup_cons in Hnd as [Hi Hnd].
  destruct (jobs b !! i) as [j|] eqn:Hj.
  - specialize (IH (n + 1) (retry_dead_one i j b) Hnd).
    change (jobs (retry_dead_one i j b)) with (<[i := replayed j]> (jobs b)) in IH.
    destruct (decide (id = i)) as [->|Hne].
    + rewrite lookup_insert_eq in IH. destruct IH as [->|[Hin _]]; [|done].
      right. split; [by left|]. by exists j.
    + rewrite lookup_insert_ne in IH by done. destruct IH as [->|[Hin IH]]; [by left|].
      right. split; [by right|done].
  - destruct (IH n b Hnd) as [->|[Hin IH']]; [by left|]. right. split; [by right|done].
Qed.

Lemma purge_dead_loop_jobs n ids b id :
  let b' := (purge_dead_loop n ids b).1 in
  jobs b' !! id = jobs b !! id ∨ (id ∈ ids ∧ jobs b' !! id = None).
Proof.
  simpl. revert n b. induction ids as [|i ids IH]; intros n b; simpl; [by left|].
  destruct (jobs b !! i) as [j|] eqn:Hj.
  - specialize (IH (n + 1) (removeDeadLocked i (set_jobs (delete i (jobs b)) b))).
    broker_simpl. destruct (decide (id = i)) as [->|Hne].
    + rewrite lookup_delete_eq in IH. right. split; [by left|]. by destruct IH as [->|[_ ->]].
    + rewrite lookup_delete_ne in IH by done. destruct IH as [->|[Hin IH]]; [by left|].
      right. split; [by right|done].
  - destruct (IH n b) as [->|[Hin IH']]; [by left|]. right. split; [by right|done].
Qed.

(** What Dequeue finds in a well-formed broker: the head of the first non-empty
    queue of the caller's order. *)
Fixpoint first_ready (b : Broker) (qs : list string) : option (string * string) :=
  match qs with
  | [] => None
  | q :: qs => match pend b q with [] => first_ready b qs | id :: _ => Some (q, id) end
  end.

Lemma dequeue_loop_spec o now qs b :
  WF b →
  dequeue_loop o now qs b =
    match first_ready b qs with
    | None => (b, Err (Sentinel ErrNoJob))
    | Some (q, id) =>
        match jobs b !! id with
        | None => (b, Err (Sentinel ErrNoJob))
        | Some j =>
            (set_active (<[id := Deadline (claim o now j)]> (active b))
               (put_job id (claim o now j) (put_pending q (tail (pend b q)) b)),
             Ok (claim o now j))
        end
    end.
Proof.
  intros Hwf. induction qs as [|q qs IH]; simpl; [done|].
  destruct (pend b q) as [|id ids] eqn:Hq; [done|].
  destruct (WF_pending_head _ _ _ _ Hwf Hq) as (_ & _ & j & Hj & _ & _).
  broker_simpl. rewrite Hj, Hq, clone_eq. done.
Qed.

Lemma first_ready_Some b qs q id :
  first_ready b qs = Some (q, id) →
  ∃ qs1 qs2 ids, qs = qs1 ++ q :: qs2 ∧ (∀ q', q' ∈ qs1 → pend b q' = []) ∧ pend b q = id :: ids.
Proof.
  induction qs as [|q' qs IH]; simpl; [done|].
  destruct (pend b q') as [|i ids] eqn:Hq.
  - intros (qs1 & qs2 & ids & -> & Hqs & Hp)%IH. exists (q' :: qs1), qs2, ids.
    split_and!; [done| |done]. intros q'' [->|Hin]%elem_of_cons; [done|by apply Hqs].
  - intros [= -> ->]. exists [], qs, ids. split_and!; [done| |done].
    intros q'' Hin. by apply elem_of_nil in Hin.
Qed.

Lemma first_ready_None b qs : first_ready b qs = None ↔ ∀ q, q ∈ qs → pend b q = [].
Proof.
  induction qs as [|q qs IH]; simpl.
  - split; [|done]. intros _ q Hq. by apply elem_of_nil in Hq.
  - destruct (pend b q) as [|i ids] eqn:Hq.
    + rewrite IH. split; [intros H q' [->|Hin]%elem_of_cons; auto|].
      intros H q' Hin. apply H. by right.
    + split; [done|]. intros H. specialize (H q (list_elem_of_here _ _)). congruence.
Qed.

(** The unique entry that makes Enqueue refuse a job. *)
Definition duplicate_of (now : Z) (j : Job) (b : Broker) : option string :=
  if String.eqb (UniqueKey j) "" then None
  else match unique b !! UniqueKey j with
       | Some e => if After (u_expiresAt e) now then Some (u_jobID e) else None
       | None => None
       end.

(** The error of Enqueue, and what it stores when there is none. *)
Lemma Enqueue_spec i now j b :
  let '(b', _, err) := Enqueue i now j b in
  match j with
  | None => b' = b ∧ err = Some (invalid "%w: nil job")
  | Some j =>
      if String.eqb (Queue j) "" || String.eqb (Type_ j) "" then
        b' = b ∧ ∃ f, err = Some (invalid f)
      else if closed b then b' = b ∧ err = Some (Sentinel ErrClosed)
      else match duplicate_of now j b with
      | Some w => b' = b ∧ err = Some (DuplicateError (UniqueKey j) w)
      | None =>
          err = None ∧
          jobs b' = <[assigned_id i j := stored_job i now j]> (jobs b) ∧
          (String.eqb (UniqueKey j) "" = false →
           unique b' = <[UniqueKey j := mkUniqueEntry (assigned_id i j)
             (Add now (if bool_decide (UniqueTTL j ≤ 0) then Hour else UniqueTTL j))]> (unique b)) ∧
          (String.eqb (UniqueKey j) "" = true → unique b' = unique b)
      end
  end.
Proof.
  unfold Enqueue, checkOpen. destruct j as [j|]; [|done].
  destruct (String.eqb (Queue j) ""); simpl; [by eauto|].
  destruct (String.eqb (Type_ j) ""); simpl; [by eauto|].
  destruct (closed b); [done|]. fold (duplicate_of now j b).
  destruct (duplicate_of now j b); [done|].
  destruct (fill_defaults_fields i now j) as (Hid & Hq & _ & _ & _ & _ & Hu & Ht & _).
  unfold stored_job. rewrite clone_eq. simpl.
  destruct (After (RunAt (fill_defaults i now j)) now); simpl; rewrite Hid, Hu, Ht;
    destruct (String.eqb (UniqueKey j) "") eqn:Huk; split_and!; done.
Qed.

Lemma exec_enqueue_job_step now i j b id :
  admissible b (OpEnqueue i j) →
  job_step now (OpEnqueue i j) id (jobs b !! id) (jobs (exec now (OpEnqueue i j) b) !! id).
Proof.
  intros Hadm. pose proof (Enqueue_spec i now j b) as HE. cbn [exec].
  destruct (Enqueue i now j b) as [[b' j'] err]. simpl.
  destruct j as [j|]; [|destruct HE as [-> _]; apply js_same].
  destruct (String.eqb (Queue j) "" || String.eqb (Type_ j) "") eqn:Hqt;
    [destruct HE as [-> _]; apply js_same|].
  apply orb_false_iff in Hqt as [Hq%eqb_false_iff Ht%eqb_false_iff].
  destruct (closed b); [destruct HE as [-> _]; apply js_same|].
  destruct (duplicate_of now j b); [destruct HE as [-> _]; apply js_same|].
  destruct HE as (_ & -> & _). simpl in Hadm.
  destruct (decide (id = assigned_id i j)) as [->|Hne].
  - rewrite lookup_insert_eq, Hadm. by apply js_enqueue.
  - rewrite lookup_insert_ne by done. apply js_same.
Qed.

Lemma exec_dequeue_job_step now o b id :
  WF b → job_step now (OpDequeue o) id (jobs b !! id) (jobs (exec now (OpDequeue o) b) !! id).
Proof.
  intros Hwf. cbn [exec]. unfold Dequeue.
  destruct (String.eqb_spec (WorkerID o) "") as [|Hw]; [apply js_same|].
  case_bool_decide; [apply js_same|]. open_cases b; [|apply js_same].
  rewrite dequeue_loop_spec by done.
  destruct (first_ready b (Queues o)) as [[q id']|] eqn:Hf; [|apply js_same].
  destruct (first_ready_Some _ _ _ _ Hf) as (qs1 & qs2 & ids & Hqs & _ & Hp).
  destruct (WF_pending_head _ _ _ _ Hwf Hp) as (_ & _ & j & Hj & Hs & Hq).
  rewrite Hj. simpl. destruct (decide (id = id')) as [->|Hne].
  - rewrite lookup_insert_eq, Hj. apply js_claim; try done; [|lia].
    rewrite Hq, Hqs. apply elem_of_app. right. by left.
  - rewrite lookup_insert_ne by done. apply js_same.
Qed.

(** The three reports a worker makes about one job. *)
Lemma exec_report_job_step now o b id :
  match o with OpAck _ _ | OpNack _ _ _ _ | OpKill _ _ _ => True | _ => False end →
  job_step now o id (jobs b !! id) (jobs (exec now o b) !! id).
Proof.
  destruct o as [ | |w i|w i t r|w i r| | | | | | | | | | | |]; try done; intros _; cbn [exec];
    unfold Ack, Nack, Kill; (open_cases b; [|apply js_same]);
    (destruct (ownedActive w i b) as [j|e] eqn:Ho; [|apply js_same]);
    apply ownedActive_Ok in Ho as (Hj & Hs & <-).
  - rewrite Hs. simpl. destruct (decide (id = i)) as [->|Hne]; broker_simpl.
    + rewrite lookup_delete_eq, Hj. by apply js_ack.
    + rewrite lookup_delete_ne by done. apply js_same.
  - change (Exhausted (set_LastErr r (set_Owner "" j))) with (Exhausted j).
    destruct (Exhausted j) eqn:He; unfold moveToDeadLocked; simpl;
      (destruct (decide (id = i)) as [->|Hne];
       [rewrite lookup_insert_eq, Hj|rewrite lookup_insert_ne by done; apply js_same]).
    + by apply js_nack_dead.
    + by apply js_nack_retry.
  - unfold moveToDeadLocked. simpl. destruct (decide (id = i)) as [->|Hne].
    + rewrite lookup_insert_eq, Hj. by apply js_kill.
    + rewrite lookup_insert_ne by done. apply js_same.
Qed.

Lemma exec_extend_job_step now w ids vt b id :
  job_step now (OpExtend w ids vt) id (jobs b !! id) (jobs (exec now (OpExtend w ids vt) b) !! id).
Proof.
  cbn [exec]. unfold Extend. case_bool_decide; [apply js_same|]. open_cases b; [|apply js_same].
  pose proof (extend_loop_jobs w (Add now vt) ids [] b id) as He.
  destruct (extend_loop w (Add now vt) ids [] b) as [b' lost]. simpl in *.
  destruct He as [->|(Hin & j & Hj & Hs & <- & ->)]; [apply js_same|].
  rewrite Hj. apply js_extend; [done..|lia].
Qed.

(** The set built from the queues to reap is empty exactly when the list is. *)
Lemma reapable_true now qs b e :
  reapable now (list_to_set qs) b e = true ↔
  e.2 ≤ now ∧ ∃ j, jobs b !! e.1 = Some j ∧ (qs = [] ∨ Queue j ∈ qs).
Proof.
  unfold reapable. destruct (After e.2 now) eqn:Ha.
  - apply After_spec in Ha. split; [done|]. intros [? _]. lia.
  - apply After_false in Ha. destruct (jobs b !! e.1) as [j|]; [|naive_solver].
    assert ((0 < size (list_to_set qs : gset string))%nat ↔ qs ≠ []) as Hsz.
    { split.
      - intros H ->. vm_compute in H. lia.
      - intros H. destruct qs as [|q qs]; [done|].
        assert (size ({[q]} : gset string) ≤ size (list_to_set (q :: qs) : gset string))%nat
          by (apply subseteq_size; set_solver).
        rewrite size_singleton in *. lia. }
    case_bool_decide as Hq; rewrite Hsz in Hq.
    + rewrite bool_decide_eq_true, elem_of_list_to_set. naive_solver.
    + destruct (decide (qs = [])); naive_solver.
Qed.

Lemma exec_reap_job_step now qs limit b id :
  WF b →
  job_step now (OpReap qs limit) id (jobs b !! id) (jobs (exec now (OpReap qs limit) b) !! id).
Proof.
  intros Hwf. cbn [exec]. unfold Reap. case_bool_decide; [apply js_same|].
  open_cases b; [|apply js_same].
  destruct (reap_cands_ok now (list_to_set qs) b) as [Hnd Hin].
  set (cands := reap_order _) in *.
  pose proof (reap_loop_jobs limit 0 cands b id Hnd) as He.
  destruct (reap_loop limit 0 cands b) as [b' n]. simpl in *.
  destruct He as [->|(Hc & j & Hj & ->)]; [apply js_same|].
  apply list_elem_of_fmap in Hc as (c & -> & Hc).
  apply Hin in Hc as [(Hle & j' & Hj' & Hq)%reapable_true Ha].
  rewrite Hj in Hj'. injection Hj' as <-.
  destruct (wf_at _ Hwf c.1) as [[_ Hact _ _ _] _]. rewrite Hj, Ha in Hact. simpl in Hact.
  destruct (String.eqb_spec (State_ j) StateActive) as [Hs|]; [|done].
  injection Hact as Hd. rewrite Hj. apply js_reap; [done|lia|done].
Qed.

Lemma exec_promote_job_step now limit b id :
  WF b →
  job_step now (OpPromote limit) id (jobs b !! id) (jobs (exec now (OpPromote limit) b) !! id).
Proof.
  intros Hwf. cbn [exec]. unfold Promote. case_bool_decide; [apply js_same|].
  open_cases b; [|apply js_same].
  destruct (promote_cands_ok now b Hwf) as [Hnd Hin].
  set (cands := promote_order _) in *.
  pose proof (promote_loop_jobs limit 0 cands b id Hnd) as He.
  destruct (promote_loop limit 0 cands b) as [b' n]. simpl in *.
  destruct He as [->|(Hc & j & Hj & ->)]; [apply js_same|].
  apply list_elem_of_fmap in Hc as (c & -> & Hc). apply Hin in Hc as [Hle Hc].
  rewrite Hj. apply js_promote.
  destruct (wf_at _ Hwf (c_id c)) as [[_ _ Hsch Hret _] _]. rewrite Hj in *.
  destruct (c_set c).
  - left. rewrite Hc in Hsch. simpl in Hsch.
    destruct (String.eqb_spec (State_ j) StateScheduled); [|done].
    injection Hsch as <-. done.
  - right. apply eqb_true_iff, Hret. by rewrite Hc.
Qed.

Lemma exec_dead_job_step now o b id :
  WF b → admissible b o →
  match o with OpRetryDead _ | OpPurgeDead _ => True | _ => False end →
  job_step now o id (jobs b !! id) (jobs (exec now o b) !! id).
Proof.
  intros Hwf Hadm. destruct o as [ | | | | | | | | | | |ids|ids| | | |]; try done; intros _;
    cbn [exec]; unfold RetryDead, PurgeDead; (open_cases b; [|apply js_same]).
  - destruct (selectDead_ok ids b Hwf Hadm) as [Hnd Hin].
    pose proof (retry_dead_loop_jobs 0 (selectDeadLocked ids b) b id Hnd) as He.
    destruct (retry_dead_loop _ _ _) as [b' n]. simpl in *.
    destruct He as [->|([Hd Hi]%Hin & j & Hj & ->)]; [apply js_same|].
    destruct (WF_dead_elem id b Hwf Hd) as (j' & Hj' & Hs).
    rewrite Hj in *. injection Hj' as <-. by apply js_replay.
  - pose proof (purge_dead_loop_jobs 0 (selectDeadLocked ids b) b id) as He.
    destruct (purge_dead_loop _ _ _) as [b' n]. simpl in *.
    destruct He as [->|(Hin & ->)]; [apply js_same|].
    assert (id ∈ dead b ∧ (ids = [] ∨ id ∈ ids)) as [Hd Hi].
    { unfold selectDeadLocked in Hin. destruct ids; [by auto|].
      apply list_elem_of_filter in Hin as [Hin%elem_of_list_to_set ?]. by auto. }
    destruct (WF_dead_elem id b Hwf Hd) as (j' & Hj' & Hs). rewrite Hj'. by apply js_purge.
Qed.

(** Every operation changes every job as the specification allows. *)
Lemma exec_job_step now o b id :
  WF b → admissible b o → job_step now o id (jobs b !! id) (jobs (exec now o b) !! id).
Proof.
  intros Hwf Hadm. pose proof (exec_no_jobs now o b) as Hno.
  destruct o; auto using exec_enqueue_job_step, exec_dequeue_job_step, exec_report_job_step,
    exec_extend_job_step, exec_reap_job_step, exec_promote_job_step, exec_dead_job_step;
    destruct Hno as [-> _]; apply js_same.
Qed.
