(* ===== verification/MemoryProps.v ===== *)
(** * The in-memory broker: delivery guarantees

    What the specification of MemorySpec.v gives the users of the broker: a job
    is always in exactly one place, it is never lost, it moves only along the
    lifecycle graph, its claims are bounded by its attempt budget, and only the
    holder of its lease can report on it. *)
From S2P Require Import Prelude GoBase Job Backoff Interface BrokerAPI Memory MemoryInv MemorySpec.

(** ** Definitions *)

(** The identifiers waiting on any ready queue. *)
Definition all_pending (b : Broker) : list string := mjoin (map_to_list (pending b)).*2.

(** Every place an identifier occupies, with multiplicity, named by the state
    that place stands for. *)
Definition places (b : Broker) (id : string) : list string :=
  (if decide (is_Some (scheduled b !! id)) then [StateScheduled] else []) ++
  (if decide (is_Some (retry b !! id)) then [StateRetry] else []) ++
  (if decide (is_Some (active b !! id)) then [StateActive] else []) ++
  (const StatePending <$> filter (id =.) (all_pending b)) ++
  (const StateDead <$> filter (id =.) (dead b)).

(** Executions: a sequence of operations, each with its clock reading. *)
Fixpoint run (tr : list (Z * op)) (b : Broker) : Broker :=
  match tr with
  | [] => b
  | (now, o) :: tr => run tr (exec now o b)
  end.

Fixpoint ok_trace (tr : list (Z * op)) (b : Broker) : Prop :=
  match tr with
  | [] => True
  | (now, o) :: tr => admissible b o ∧ ok_trace tr (exec now o b)
  end.

(** Whether a step hands the job [id] to a worker. *)
Definition delivers (now : Z) (o : op) (b : Broker) (id : string) : bool :=
  match o with
  | OpDequeue opts => match (Dequeue opts now b).2 with Ok j => String.eqb (ID j) id | Err _ => false end
  | _ => false
  end.

(** How many times an execution hands the job [id] to a worker. *)
Fixpoint deliveries (id : string) (tr : list (Z * op)) (b : Broker) : Z :=
  match tr with
  | [] => 0
  | (now, o) :: tr =>
      (if delivers now o b id then 1 else 0) + deliveries id tr (exec now o b)
  end.

(** A job within its attempt budget: claimable only with attempts left. *)
Definition budget_ok (j : Job) : Prop :=
  0 ≤ Attempt j ≤ MaxAttempts j ∧ MaxAttempts j < 2 ^ 63 ∧
  (State_ j ≠ StateActive → State_ j ≠ StateDead → Attempt j < MaxAttempts j).

(** What is left of the budget of an optional job. *)
Definition budget_left (oj : option Job) : Z :=
  match oj with Some j => MaxAttempts j - Attempt j | None => 0 end.

Definition budget_inv (oj : option Job) : Prop :=
  match oj with Some j => budget_ok j | None => True end.

(** The operations that give a job a new life: an enqueue under the same
    identifier, or an operator's replay. *)
Definition revives (id : string) (o : op) : bool :=
  match o with
  | OpEnqueue i (Some j) => String.eqb (assigned_id i j) id
  | OpRetryDead _ => true
  | _ => false
  end.

(** A small execution used to instantiate the theorems: two jobs are enqueued,
    and worker "w" claims the first. *)
Definition demo_job : Job :=
  mkJob "" "mail" "email:send" None 0 2 0 "" "" "order-7" 0 "" zeroTime zeroTime zeroTime zeroTime.

Definition demo_claim : ClaimOpts := mkClaimOpts "w" ["bulk"; "mail"] 30.

Definition demo_trace : list (Z * op) :=
  [ (100, OpEnqueue "a" (Some demo_job));
    (101, OpEnqueue "b" (Some (set_Unique "" 0 demo_job)));
    (110, OpDequeue demo_claim) ].

Definition demo : Broker := run demo_trace New.

(** Two claims that both expire exhaust the two attempts of the demo job. *)
Definition demo_crashes : list (Z * op) :=
  [ (200, OpReap [] 10); (201, OpDequeue demo_claim); (300, OpReap [] 10);
    (301, OpDequeue demo_claim); (302, OpDequeue demo_claim) ].

(** ** Lemmas *)

Lemma reachable_run tr b : reachable b → ok_trace tr b → reachable (run tr b).
Proof.
  revert b. induction tr as [|[now o] tr IH]; intros b Hb; simpl; [done|].
  intros [Ho Htr]. apply IH; [|done]. by apply reach_step.
Qed.

Lemma demo_reachable : reachable demo.
Proof. apply reachable_run; [apply reach_new|]. vm_compute. split_and!; done. Qed.

Lemma filter_eq_NoDup (id : string) (l : list string) :
  NoDup l → filter (id =.) l = if decide (id ∈ l) then [id] else [].
Proof.
  induction l as [|x l IH]; intros Hnd; [done|].
  apply NoDup_cons in Hnd as [Hx Hnd]. rewrite filter_cons, IH by done.
  repeat case_decide; subst; set_solver.
Qed.

Lemma NoDup_concat_entries (l : list (string * list string)) :
  NoDup l.*1 → (∀ e, e ∈ l → NoDup e.2) →
  (∀ e1 e2 x, e1 ∈ l → e2 ∈ l → x ∈ e1.2 → x ∈ e2.2 → e1.1 = e2.1) →
  NoDup (mjoin l.*2).
Proof.
  induction l as [|e l IH]; intros Hk Hnd Hdis; simpl; [constructor|].
  rewrite fmap_cons, NoDup_cons in Hk. destruct Hk as [He Hk].
  apply NoDup_app. split_and!.
  - apply Hnd. by left.
  - intros x Hx Hin. apply list_elem_of_join in Hin as (xs & Hin & Hxs).
    apply list_elem_of_fmap in Hxs as (e' & -> & He').
    apply He. rewrite (Hdis e e' x); [by apply list_elem_of_fmap_2|by left|by right|done..].
  - apply IH; [done|intros; apply Hnd; by right|].
    intros e1 e2 x H1 H2. apply Hdis; by right.
Qed.

Lemma elem_of_all_pending b id : id ∈ all_pending b ↔ ∃ q, id ∈ pend b q.
Proof.
  unfold all_pending, pend. rewrite list_elem_of_join. split.
  - intros (l & Hid & Hl). apply list_elem_of_fmap in Hl as ([q l'] & -> & Hl).
    apply elem_of_map_to_list in Hl. exists q. by rewrite Hl.
  - intros (q & Hid). destruct (pending b !! q) as [l|] eqn:Hl; [|by apply elem_of_nil in Hid].
    exists l. split; [done|]. apply list_elem_of_fmap. exists (q, l).
    split; [done|]. by apply elem_of_map_to_list.
Qed.

Lemma NoDup_all_pending b : WF b → NoDup (all_pending b).
Proof.
  intros Hwf.
  assert (∀ e, e ∈ map_to_list (pending b) → pend b e.1 = e.2) as Hpend.
  { intros [q l] Hl%elem_of_map_to_list. unfold pend. simpl. by rewrite Hl. }
  apply NoDup_concat_entries.
  - apply NoDup_fst_map_to_list.
  - intros e He. rewrite <- (Hpend e He). apply Hwf.
  - intros e1 e2 x H1 H2. rewrite <- (Hpend e1 H1), <- (Hpend e2 H2).
    destruct (wf_at _ Hwf x) as [[Hp _ _ _ _] _]. rewrite !Hp.
    destruct (jobs b !! x) as [j|]; [|done]. simpl. rewrite !andb_true_iff, !eqb_true_iff.
    intros [_ <-] [_ <-]. done.
Qed.

(** Where a stored job is, as equivalences with its state. *)
Lemma spot_state b id j :
  WF b → jobs b !! id = Some j →
  (is_Some (scheduled b !! id) ↔ State_ j = StateScheduled) ∧
  (is_Some (retry b !! id) ↔ State_ j = StateRetry) ∧
  (is_Some (active b !! id) ↔ State_ j = StateActive) ∧
  (id ∈ all_pending b ↔ State_ j = StatePending) ∧
  (id ∈ dead b ↔ State_ j = StateDead).
Proof.
  intros Hwf Hj. destruct (wf_at _ Hwf id) as [[Hp Ha Hs Hr Hd] _].
  rewrite Hj in *. cbn [pending_of active_of scheduled_of retry_of dead_of] in *.
  rewrite Hr, Hd, Ha, Hs, elem_of_all_pending, !eqb_true_iff.
  setoid_rewrite Hp. setoid_rewrite andb_true_iff. setoid_rewrite eqb_true_iff.
  split_and!; try done.
  - destruct (String.eqb_spec (State_ j) StateScheduled); [by split|]. split; [by intros []|done].
  - destruct (String.eqb_spec (State_ j) StateActive); [by split|]. split; [by intros []|done].
  - split; [by intros (q & ? & _)|]. by exists (Queue j).
Qed.

Lemma spot_absent b id :
  WF b → jobs b !! id = None →
  scheduled b !! id = None ∧ retry b !! id = None ∧ active b !! id = None ∧
  id ∉ all_pending b ∧ id ∉ dead b.
Proof.
  intros Hwf Hj. destruct (wf_at _ Hwf id) as [[Hp Ha Hs Hr Hd] _].
  rewrite Hj in *. cbn [pending_of active_of scheduled_of retry_of dead_of] in *.
  rewrite not_true_iff in Hr, Hd. setoid_rewrite not_true_iff in Hp.
  rewrite elem_of_all_pending. split_and!; try done; [by apply is_Some_None_iff|].
  by intros (q & Hq%Hp).
Qed.

Lemma places_WF b id :
  WF b → places b id = match jobs b !! id with Some j => [State_ j] | None => [] end.
Proof.
  intros Hwf. unfold places.
  rewrite !filter_eq_NoDup by (apply Hwf || by apply NoDup_all_pending).
  destruct (jobs b !! id) as [j|] eqn:Hj.
  - destruct (spot_state b id j Hwf Hj) as (H1 & H2 & H3 & H4 & H5).
    rewrite (decide_ext _ _ _ _ H1), (decide_ext _ _ _ _ H2), (decide_ext _ _ _ _ H3),
      (decide_ext _ _ _ _ H4), (decide_ext _ _ _ _ H5).
    destruct (wf_at _ Hwf id) as [_ Hok]. destruct (Hok j Hj) as [_ _ _ _ Hst _ _].
    unfold stored_state in Hst. clear -Hst.
    repeat (apply elem_of_cons in Hst as [Hst|Hst]; [by rewrite Hst|]).
    by apply elem_of_nil in Hst.
  - destruct (spot_absent b id Hwf Hj) as (-> & -> & -> & H4 & H5).
    by rewrite !decide_False by (done || by intros []).
Qed.

(** ** Properties *)

(** C1: in every state the broker can reach, a stored job is in exactly one place,
    once, and that place is the one its state names (the ready queue of its own
    queue, the active set at its deadline, the scheduled set at its run time, the
    retry set or the dead-letter list); an identifier that is not stored is nowhere.
    Only an active job has an owner. *)
Theorem one_place b id :
  reachable b →
  match jobs b !! id with
  | Some j =>
      places b id = [State_ j] ∧ ID j = id ∧
      (∀ q, id ∈ pend b q → q = Queue j) ∧
      (State_ j = StateActive → active b !! id = Some (Deadline j)) ∧
      (State_ j = StateScheduled → scheduled b !! id = Some (RunAt j)) ∧
      (State_ j = StateActive ↔ Owner j ≠ "")
  | None => places b id = []
  end.
Proof.
  intros Hwf%reachable_WF. pose proof (places_WF b id Hwf) as Hpl.
  destruct (wf_at _ Hwf id) as [[Hp Ha Hs Hr Hd] Hok].
  destruct (jobs b !! id) as [j|]; [|done]. destruct (Hok j eq_refl).
  split_and!; try done.
  - intros q Hq. apply Hp in Hq. simpl in Hq.
    by apply andb_true_iff in Hq as [_ <-%eqb_true_iff].
  - intros Hst. rewrite Ha. simpl. by rewrite Hst.
  - intros Hst. rewrite Hs. simpl. by rewrite Hst.
Qed.

Lemma one_place_witness : places demo "a" = [StateActive].
Proof.
  pose proof (one_place demo "a" demo_reachable) as H. vm_compute in H. exact (proj1 H).
Defined.

(** C4: a job is never lost: the only steps after which a stored job is gone are the
    Ack of the worker that owns its lease, and a purge that selects it from the
    dead-letter list. *)
Theorem no_job_lost b now o id j :
  reachable b → admissible b o →
  jobs b !! id = Some j → jobs (exec now o b) !! id = None →
  (o = OpAck (Owner j) id ∧ State_ j = StateActive) ∨
  (∃ ids, o = OpPurgeDead ids ∧ State_ j = StateDead ∧ (ids = [] ∨ id ∈ ids)).
Proof.
  intros Hwf%reachable_WF Hadm Hj Hnone.
  pose proof (exec_job_step now o b id Hwf Hadm) as Hstep. rewrite Hj, Hnone in Hstep.
  inv Hstep; eauto.
Qed.

Lemma no_job_lost_witness :
  (OpAck "w" "a" = OpAck "w" "a" ∧ StateActive = StateActive) ∨
  (∃ ids, OpAck "w" "a" = OpPurgeDead ids ∧ StateActive = StateDead ∧ (ids = [] ∨ "a" ∈ ids)).
Proof.
  refine (no_job_lost demo 120 (OpAck "w" "a") "a"
    (claim demo_claim 110 (stored_job "a" 100 demo_job)) demo_reachable _ _ _);
    [exact I|vm_compute; reflexivity|vm_compute; reflexivity].
Defined.

(** C5: whatever operation runs, a job either keeps its state or moves along an edge of
    the lifecycle graph of job.go (a new job starts at one the empty state leads to),
    and its identifier, queue, type, payload, budget and unique key never change. *)
Theorem lifecycle_respected b now o id :
  reachable b → admissible b o →
  match jobs b !! id, jobs (exec now o b) !! id with
  | Some j, Some j' =>
      (State_ j' = State_ j ∨ CanTransition (State_ j) (State_ j') = true) ∧
      ID j' = ID j ∧ Queue j' = Queue j ∧ Type_ j' = Type_ j ∧ Payload j' = Payload j ∧
      MaxAttempts j' = MaxAttempts j ∧ UniqueKey j' = UniqueKey j
  | None, Some j' => CanTransition "" (State_ j') = true
  | _, None => True
  end.
Proof.
  intros Hwf%reachable_WF Hadm.
  pose proof (exec_job_step now o b id Hwf Hadm) as Hstep.
  destruct (jobs b !! id) as [j|], (jobs (exec now o b) !! id) as [j'|]; try done.
  - inv Hstep; job_simpl; unfold reaped, buried, replayed;
      try (destruct (Exhausted _)); job_simpl;
      repeat match goal with
      | H : State_ _ = _ |- _ => rewrite !H
      | H : _ ∨ State_ _ = _ |- _ => destruct H as [[-> _]| ->]
      end; split_and!; try done; try (by right); by left.
  - inv Hstep. unfold stored_job. by destruct (After _ _).
Qed.

Lemma lifecycle_respected_witness :
  StateRetry = StateActive ∨ CanTransition StateActive StateRetry = true.
Proof.
  pose proof (lifecycle_respected demo 120 (OpNack "w" "a" 500 "boom") "a" demo_reachable I) as H.
  vm_compute in H. exact (proj1 H).
Defined.

(** *** The attempt budget *)

Lemma job_step_budget now o id oj oj' :
  job_step now o id oj oj' → revives id o = false → budget_inv oj →
  budget_inv oj' ∧ 0 ≤ budget_left oj' ≤ budget_left oj.
Proof.
  intros Hstep Hrev Hb.
  destruct Hstep as [o id [j|]|i j|o id j Hs| | |id t r j Hs He| | | | | |]; simpl in *;
    unfold budget_ok in *; job_simpl; try done;
    try destruct Hb as (B1 & B2 & B3); try (split; [done|lia]).
  - by rewrite String.eqb_refl in Hrev.
  - assert (Attempt j < MaxAttempts j) by (apply B3; rewrite Hs; done).
    rewrite wrap64_id by (unfold int64_range; lia). split; [split_and!; [lia..|done]|lia].
  - rewrite Exhausted_false in *. split; [split_and!; [lia..|done]|lia].
  - unfold reaped. destruct (Exhausted _) eqn:Hx; job_simpl;
      [|apply Exhausted_false in Hx; job_simpl]; split; try lia; split_and!; try done; lia.
  - split; [|lia]. split_and!; [lia..|]. intros _ _.
    apply B3; match goal with H : _ ∨ _ |- _ => destruct H as [[-> _]| ->]; done end.
Qed.

(** A delivery is a claim that consumes one attempt. *)
Lemma delivers_claim now o b id :
  WF b → delivers now o b id = true →
  ∃ opts j, o = OpDequeue opts ∧ jobs b !! id = Some j ∧ State_ j = StatePending ∧
            jobs (exec now o b) !! id = Some (claim opts now j).
Proof.
  intros Hwf. destruct o as [ |opts| | | | | | | | | | | | | | |]; try done. simpl. unfold Dequeue.
  destruct (String.eqb (WorkerID opts) ""); [done|]. case_bool_decide; [done|].
  open_cases b. rewrite dequeue_loop_spec by done.
  destruct (first_ready b (Queues opts)) as [[q id']|] eqn:Hf; [|done].
  destruct (first_ready_Some _ _ _ _ Hf) as (qs1 & qs2 & ids & _ & _ & Hp).
  destruct (WF_pending_head _ _ _ _ Hwf Hp) as (_ & _ & j & Hj & Hs & _).
  rewrite Hj. simpl. intros Hid%eqb_true_iff.
  destruct (wf_at _ Hwf id') as [_ Hok]. destruct (Hok j Hj) as [Hi _ _ _ _ _ _].
  rewrite Hi in Hid. subst id'. exists opts, j. split_and!; try done. apply lookup_insert_eq.
Qed.

Lemma deliveries_bound id tr b :
  WF b → ok_trace tr b → Forall (λ e, revives id e.2 = false) tr →
  budget_inv (jobs b !! id) → 0 ≤ deliveries id tr b ≤ budget_left (jobs b !! id).
Proof.
  revert b. induction tr as [|[now o] tr IH]; intros b Hwf Htr Hall Hb; simpl in *.
  - destruct (jobs b !! id) as [j|]; simpl in *; [|lia]. destruct Hb as (? & _ & _). lia.
  - destruct Htr as [Hadm Htr]. apply Forall_cons in Hall as [Hrev Hall]. simpl in Hrev.
    pose proof (exec_job_step now o b id Hwf Hadm) as Hstep.
    destruct (job_step_budget _ _ _ _ _ Hstep Hrev Hb) as [Hb' Hle].
    specialize (IH (exec now o b) (WF_exec now o b Hwf Hadm) Htr Hall Hb').
    destruct (delivers now o b id) eqn:Hd; [|lia].
    destruct (delivers_claim now o b id Hwf Hd) as (opts & j & -> & Hj & Hs & Hj').
    rewrite Hj' in *. rewrite Hj in *. simpl in *. unfold budget_ok in *. job_simpl.
    destruct Hb as (H1 & H2 & H3).
    assert (Attempt j < MaxAttempts j) by (apply H3; rewrite Hs; done).
    rewrite wrap64_id in * by (unfold int64_range; lia). lia.
Qed.

(** C6: poison pills terminate: however the operations of any number of workers
    interleave, and even if no worker ever reports back, a job with its budget intact
    is handed out at most MaxAttempts - Attempt more times, unless an operator replays
    it from the dead-letter queue or its identifier is enqueued anew. *)
Theorem deliveries_bounded b id j tr :
  reachable b → jobs b !! id = Some j → budget_ok j → ok_trace tr b →
  Forall (λ e, revives id e.2 = false) tr →
  deliveries id tr b ≤ MaxAttempts j - Attempt j.
Proof.
  intros Hwf%reachable_WF Hj Hb Htr Hall.
  pose proof (deliveries_bound id tr b Hwf Htr Hall) as H. rewrite Hj in H. by apply H.
Qed.

Lemma deliveries_bounded_witness :
  deliveries "a" demo_crashes demo = 1 ∧ deliveries "a" demo_crashes demo ≤ 2 - 1.
Proof.
  split; [vm_compute; reflexivity|].
  refine (deliveries_bounded demo "a" (claim demo_claim 110 (stored_job "a" 100 demo_job))
    demo_crashes demo_reachable _ _ _ _).
  - vm_compute. reflexivity.
  - unfold budget_ok. simpl. split_and!; try lia; try (vm_compute; congruence).
  - vm_compute. split_and!; exact I.
  - repeat constructor.
Defined.
