(* ===== verification/MemoryExclusion.v ===== *)
(** * The in-memory broker: exclusion

    What keeps two workers, two leaders or two duplicates apart, whatever
    operations interleave: leases on jobs and their fencing, named leases, unique
    keys, and the compare-and-set on cron fire times. *)
From S2P Require Import Prelude GoBase Job Backoff Interface BrokerAPI Memory MemoryInv MemorySpec MemoryProps.

(** ** Definitions *)

(** [w] holds the lease on the job [id]. *)
Definition owned_by (b : Broker) (w id : string) : Prop :=
  ∃ j, jobs b !! id = Some j ∧ State_ j = StateActive ∧ Owner j = w.

(** A claim made in the name of [w]. *)
Definition claims_as (w : string) (o : op) : bool :=
  match o with OpDequeue c => String.eqb (WorkerID c) w | _ => false end.

(** A report or a renewal by [w] about the job [id]. *)
Definition reports_on (w id : string) (o : op) : bool :=
  match o with
  | OpAck w' i | OpNack w' i _ _ | OpKill w' i _ => String.eqb w' w && String.eqb i id
  | OpExtend w' ids _ => String.eqb w' w && bool_decide (id ∈ ids)
  | _ => false
  end.

(** The parts of the broker that hold no jobs. *)
Definition aux (b : Broker) := (closed b, cron b, leases b, workers b).

(** The current holder of a named lease: its entry, while it has not expired. *)
Definition holder (b : Broker) (name : string) (now : Z) : option string :=
  match leases b !! name with
  | Some e => if After (l_expiresAt e) now then Some (l_owner e) else None
  | None => None
  end.

(** An operation of [owner] on the lease [name]. *)
Definition leases_as (name owner : string) (o : op) : bool :=
  match o with
  | OpAcquireLease n o _ | OpReleaseLease n o => String.eqb n name && String.eqb o owner
  | _ => false
  end.

(** A claim of the occurrence [t] of the cron entry [id] that succeeds on [b]. *)
Definition wins_fire (id : string) (t : Z) (o : op) (b : Broker) : bool :=
  match o with
  | OpClaimCron i f n =>
      String.eqb i id && bool_decide (f = t) &&
      match (ClaimCron i f n b).2 with Ok won => won | Err _ => false end
  | _ => false
  end.

(** How many claims of that occurrence succeed along an execution. *)
Fixpoint fires (id : string) (t : Z) (tr : list (Z * op)) (b : Broker) : Z :=
  match tr with
  | [] => 0
  | (now, o) :: tr => (if wins_fire id t o b then 1 else 0) + fires id t tr (exec now o b)
  end.

(** Schedulers advance an entry to a later fire time, and do not remove it. *)
Definition advances (id : string) (o : op) : Prop :=
  match o with
  | OpClaimCron i f n => i = id → f < n
  | OpRemoveCron i => i ≠ id
  | _ => True
  end.

(** ** Lemmas: what each operation leaves alone *)

Lemma reap_loop_aux limit n cands b :
  aux (reap_loop limit n cands b).1 = aux b ∧ unique (reap_loop limit n cands b).1 = unique b.
Proof.
  revert n b. induction cands as [|c cands IH]; intros n b; simpl; [done|].
  case_bool_decide; [done|]. case_match; [|done].
  rewrite !(proj1 (IH _ _)), !(proj2 (IH _ _)). unfold reap_one, moveToDeadLocked.
  by case_match.
Qed.

Lemma promote_loop_aux limit n cands b :
  aux (promote_loop limit n cands b).1 = aux b ∧ unique (promote_loop limit n cands b).1 = unique b.
Proof.
  revert n b. induction cands as [|c cands IH]; intros n b; simpl; [done|].
  case_bool_decide; [done|].
  case_match; rewrite !(proj1 (IH _ _)), !(proj2 (IH _ _)); unfold promote_one, delete_due;
    by destruct (c_set c).
Qed.

Lemma extend_loop_aux w t ids lost b :
  aux (extend_loop w t ids lost b).1 = aux b ∧ unique (extend_loop w t ids lost b).1 = unique b.
Proof.
  revert lost b. induction ids as [|i ids IH]; intros lost b; simpl; [done|].
  case_match; by rewrite !(proj1 (IH _ _)), !(proj2 (IH _ _)).
Qed.

Lemma dead_loops_aux n ids b :
  (aux (retry_dead_loop n ids b).1 = aux b ∧ unique (retry_dead_loop n ids b).1 = unique b) ∧
  (aux (purge_dead_loop n ids b).1 = aux b ∧ unique (purge_dead_loop n ids b).1 = unique b).
Proof.
  split; revert n b; induction ids as [|i ids IH]; intros n b; simpl; try done;
    case_match; by rewrite !(proj1 (IH _ _)), !(proj2 (IH _ _)).
Qed.

Lemma dequeue_loop_aux o now qs b :
  aux (dequeue_loop o now qs b).1 = aux b ∧ unique (dequeue_loop o now qs b).1 = unique b.
Proof.
  revert b. induction qs as [|q qs IH]; intros b; simpl; [done|].
  case_match; [done|]. broker_simpl. case_match; [done|].
  by rewrite !(proj1 (IH _)), !(proj2 (IH _)).
Qed.

(** Operations on jobs leave the leases, the heartbeats, the cron entries and
    the closed flag alone; only Enqueue writes unique entries. *)
Lemma exec_jobs_aux now o b :
  match o with
  | OpHeartbeat _ _ | OpAcquireLease _ _ _ | OpReleaseLease _ _ | OpScheduleCronIfAbsent _ _
  | OpClaimCron _ _ _ | OpRemoveCron _ | OpClose => unique (exec now o b) = unique b
  | OpEnqueue _ _ => aux (exec now o b) = aux b
  | _ => aux (exec now o b) = aux b ∧ unique (exec now o b) = unique b
  end.
Proof.
  destruct o as [i [j|]|o|w i|w i t r|w i r|w ids vt|qs l|l| | | |ids|ids| | | |]; cbn [exec];
    try (unfold Heartbeat, AcquireLease, ReleaseLease, ScheduleCronIfAbsent, ClaimCron, RemoveCron,
           Ack, Nack, Kill, moveToDeadLocked, checkOpen; repeat case_match; done);
    unfold checkOpen.
  - unfold Enqueue, checkOpen. repeat (case_match; simplify_eq/=; try done).
  - unfold Dequeue, checkOpen. repeat (case_match; try done). apply dequeue_loop_aux.
  - unfold Extend, checkOpen. case_bool_decide; [done|]. destruct (closed b); [done|].
    pose proof (extend_loop_aux w (Add now vt) ids [] b). by destruct (extend_loop _ _ _ _ _).
  - unfold Reap, checkOpen. case_bool_decide; [done|]. destruct (closed b); [done|].
    pose proof (reap_loop_aux l 0 (reap_order (reap_expired now (list_to_set qs) b
      (map_to_list (active b)))) b). by destruct (reap_loop _ _ _ _).
  - unfold Promote, checkOpen. case_bool_decide; [done|]. destruct (closed b); [done|].
    pose proof (promote_loop_aux l 0 (promote_order (promote_due now InScheduled
      (map_to_list (scheduled b)) ++ promote_due now InRetry (map_to_list (retry b)))) b).
    by destruct (promote_loop _ _ _ _).
  - unfold RetryDead, checkOpen. destruct (closed b); [done|].
    pose proof (proj1 (dead_loops_aux 0 (selectDeadLocked ids b) b)). by destruct (retry_dead_loop _ _ _).
  - unfold PurgeDead, checkOpen. destruct (closed b); [done|].
    pose proof (proj2 (dead_loops_aux 0 (selectDeadLocked ids b) b)). by destruct (purge_dead_loop _ _ _).
Qed.

Lemma aux_fields b b' :
  aux b' = aux b → closed b' = closed b ∧ cron b' = cron b ∧ leases b' = leases b ∧ workers b' = workers b.
Proof. unfold aux. by intros [= -> -> -> ->]. Qed.

(** Only AcquireLease and ReleaseLease write the leases. *)
Lemma exec_leases now o b :
  match o with
  | OpAcquireLease _ _ _ | OpReleaseLease _ _ => True
  | _ => leases (exec now o b) = leases b
  end.
Proof.
  pose proof (exec_jobs_aux now o b) as H.
  destruct o; try done; try (apply aux_fields in H; apply H); try (apply proj1, aux_fields in H; apply H);
    cbn [exec]; unfold Heartbeat, ScheduleCronIfAbsent, ClaimCron, RemoveCron, checkOpen;
    repeat case_match; done.
Qed.

(** Only the cron operations write the fire times. *)
Lemma exec_cron now o b :
  match o with
  | OpScheduleCronIfAbsent _ _ | OpClaimCron _ _ _ | OpRemoveCron _ => True
  | _ => cron (exec now o b) = cron b
  end.
Proof.
  pose proof (exec_jobs_aux now o b) as H.
  destruct o; try done; try (apply aux_fields in H; apply H); try (apply proj1, aux_fields in H; apply H);
    cbn [exec]; unfold Heartbeat, AcquireLease, ReleaseLease, checkOpen; repeat case_match; done.
Qed.

(** Only Enqueue writes the unique entries. *)
Lemma exec_unique now o b :
  match o with OpEnqueue _ _ => True | _ => unique (exec now o b) = unique b end.
Proof. pose proof (exec_jobs_aux now o b) as H. by destruct o; try apply H. Qed.

(** ** Lemmas: leases on jobs *)

(** The lease on a job passes to [w] only by a claim of [w]. *)
Lemma job_step_owner now o id oj j' w :
  job_step now o id oj (Some j') → State_ j' = StateActive → Owner j' = w → claims_as w o = false →
  ∃ j, oj = Some j ∧ State_ j = StateActive ∧ Owner j = w.
Proof.
  intros Hstep Hs Ho Hc. inv Hstep; unfold stored_job, reaped, buried, replayed in *;
    try (by eauto); try (destruct (After _ _)); try (destruct (Exhausted _)); job_simpl; try done;
    simpl in Hc; by rewrite String.eqb_refl in Hc.
Qed.

Lemma not_owned_run w id tr b :
  WF b → ok_trace tr b → ¬ owned_by b w id → Forall (λ e, claims_as w e.2 = false) tr →
  ¬ owned_by (run tr b) w id.
Proof.
  revert b. induction tr as [|[now o] tr IH]; intros b Hwf Htr Hno Hall; simpl in *; [done|].
  destruct Htr as [Hadm Htr]. apply Forall_cons in Hall as [Hc Hall].
  apply IH; [by apply WF_exec|done| |done].
  intros (j' & Hj' & Hs & Ho). apply Hno.
  pose proof (exec_job_step now o b id Hwf Hadm) as Hstep. rewrite Hj' in Hstep.
  apply (job_step_owner _ _ _ _ _ _ Hstep Hs Ho Hc).
Qed.

(** The error of the fencing check. *)
Lemma ownedActive_Err w id b :
  ¬ owned_by b w id →
  ∃ err, ownedActive w id b = Err err ∧
         Is err (match jobs b !! id with Some _ => ErrLeaseLost | None => ErrJobNotFound end) = true.
Proof.
  intros Hno. destruct (ownedActive w id b) as [j|e] eqn:He.
  - apply ownedActive_Ok in He. destruct Hno. by exists j.
  - exists e. split; [done|]. unfold ownedActive in He.
    destruct (jobs b !! id); [case_match|]; by simplify_eq.
Qed.

(** While its lease runs, an active job is touched only by its owner. *)
Lemma job_step_leased now o id j oj' :
  job_step now o id (Some j) oj' → State_ j = StateActive → now < Deadline j →
  reports_on (Owner j) id o = false → oj' = Some j.
Proof.
  intros Hstep Hs Hnow Hr.
  inv Hstep; try done; rewrite ?Hs in *; try done; simpl in Hr; rewrite ?String.eqb_refl in Hr;
    try done; try lia.
  - rewrite (bool_decide_eq_true_2 (id ∈ ids)) in Hr; done.
  - match goal with H : _ ∨ _ |- _ => by destruct H as [[? _]|?] end.
Qed.

Lemma leased_run id j tr b :
  WF b → ok_trace tr b → jobs b !! id = Some j → State_ j = StateActive →
  Forall (λ e, e.1 < Deadline j ∧ reports_on (Owner j) id e.2 = false) tr →
  jobs (run tr b) !! id = Some j ∧ deliveries id tr b = 0.
Proof.
  revert b. induction tr as [|[now o] tr IH]; intros b Hwf Htr Hj Hs Hall; simpl in *; [done|].
  destruct Htr as [Hadm Htr]. apply Forall_cons in Hall as [[Hnow Hr] Hall]. simpl in *.
  pose proof (exec_job_step now o b id Hwf Hadm) as Hstep. rewrite Hj in Hstep.
  apply job_step_leased in Hstep; [|done..].
  destruct (IH (exec now o b) (WF_exec now o b Hwf Hadm) Htr Hstep Hs Hall) as [Hrun Hdel].
  split; [done|]. rewrite Hdel. destruct (delivers now o b id) eqn:Hd; [|done].
  destruct (delivers_claim now o b id Hwf Hd) as (opts & j0 & _ & Hj0 & Hs0 & _).
  rewrite Hj in Hj0. injection Hj0 as <-. by rewrite Hs in Hs0.
Qed.

(** ** Lemmas: named leases *)

(** Nobody but its holder changes a lease that has not expired. *)
Lemma exec_lease_held now o b name e :
  leases b !! name = Some e → now < l_expiresAt e → leases_as name (l_owner e) o = false →
  leases (exec now o b) !! name = Some e.
Proof.
  intros He Hnow Ho. pose proof (exec_leases now o b) as Hl.
  destruct o as [ | | | | | | | | |n w ttl|n w| | | | | |]; try (by rewrite Hl); cbn [exec].
  - unfold AcquireLease. destruct (_ || _); [done|]. case_bool_decide; [done|]. open_cases b.
    simpl in Ho. destruct (decide (n = name)) as [->|Hne].
    + rewrite He, (proj2 (After_spec _ _) Hnow). rewrite String.eqb_refl, String.eqb_sym in Ho.
      simpl in Ho. by rewrite Ho.
    + destruct (leases b !! n); [case_match|]; simpl; by rewrite ?lookup_insert_ne by done.
  - unfold ReleaseLease. open_cases b. simpl in Ho. destruct (decide (n = name)) as [->|Hne].
    + rewrite He. rewrite String.eqb_refl, String.eqb_sym in Ho.
      simpl in Ho. by rewrite Ho.
    + destruct (leases b !! n); [case_match|]; simpl; by rewrite ?lookup_delete_ne by done.
Qed.

Lemma lease_held_run tr b name e :
  leases b !! name = Some e →
  Forall (λ x, x.1 < l_expiresAt e ∧ leases_as name (l_owner e) x.2 = false) tr →
  leases (run tr b) !! name = Some e.
Proof.
  revert b. induction tr as [|[now o] tr IH]; intros b He Hall; simpl; [done|].
  apply Forall_cons in Hall as [[Hnow Ho] Hall]. apply IH; [|done]. by apply exec_lease_held.
Qed.

(** ** Lemmas: unique keys *)

Lemma exec_unique_held now o b k e :
  unique b !! k = Some e → now < u_expiresAt e → unique (exec now o b) !! k = Some e.
Proof.
  intros He Hnow. pose proof (exec_unique now o b) as Hu.
  destruct o as [i j| | | | | | | | | | | | | | | |]; try (by rewrite Hu).
  pose proof (Enqueue_spec i now j b) as HE. cbn [exec].
  destruct (Enqueue i now j b) as [[b' j'] err]. simpl.
  destruct j as [j|]; [|by destruct HE as [-> _]].
  destruct (_ || _); [by destruct HE as [-> _]|].
  destruct (closed b); [by destruct HE as [-> _]|].
  destruct (duplicate_of now j b) as [w|] eqn:Hdup; [by destruct HE as [-> _]|].
  destruct HE as (_ & _ & Hk & Hk0). destruct (String.eqb (UniqueKey j) "") eqn:Huk.
  { by rewrite Hk0. }
  rewrite Hk by done. destruct (decide (k = UniqueKey j)) as [->|Hne].
  - unfold duplicate_of in Hdup. rewrite Huk, He in Hdup.
    by rewrite (proj2 (After_spec _ _) Hnow) in Hdup.
  - by rewrite lookup_insert_ne.
Qed.

Lemma unique_held_run tr b k e :
  unique b !! k = Some e → Forall (λ x, x.1 < u_expiresAt e) tr → unique (run tr b) !! k = Some e.
Proof.
  revert b. induction tr as [|[now o] tr IH]; intros b He Hall; simpl; [done|].
  apply Forall_cons in Hall as [Hnow Hall]. apply IH; [|done]. by apply exec_unique_held.
Qed.

(** An accepted job takes its key until its time to live has passed. *)
Lemma Enqueue_takes_key i t j b :
  (Enqueue i t (Some j) b).2 = None → UniqueKey j ≠ "" →
  unique (Enqueue i t (Some j) b).1.1 !! UniqueKey j =
    Some (mkUniqueEntry (assigned_id i j) (t + (if bool_decide (UniqueTTL j ≤ 0) then Hour else UniqueTTL j))).
Proof.
  intros Hok Hk. pose proof (Enqueue_spec i t (Some j) b) as HE.
  destruct (Enqueue i t (Some j) b) as [[b1 j1] err]. simpl in *. subst err.
  destruct (_ || _); [by destruct HE as [_ [? ?]]|]. destruct (closed b); [by destruct HE|].
  destruct (duplicate_of t j b); [by destruct HE|]. destruct HE as (_ & _ & -> & _).
  - apply lookup_insert_eq.
  - by apply eqb_false_iff.
Qed.

(** While a key is held, a job under it is refused, in favour of the holder. *)
Lemma Enqueue_refused i now j b e :
  unique b !! UniqueKey j = Some e → now < u_expiresAt e → closed b = false →
  UniqueKey j ≠ "" → Queue j ≠ "" → Type_ j ≠ "" →
  Enqueue i now (Some j) b = (b, Some j, Some (DuplicateError (UniqueKey j) (u_jobID e))).
Proof.
  intros Hu Hnow Hop Hk Hq Ht. unfold Enqueue, checkOpen. apply eqb_false_iff in Hq, Ht, Hk.
  by rewrite Hq, Ht, Hop, Hk, Hu, (proj2 (After_spec _ _) Hnow).
Qed.

(** ** Lemmas: cron fire times *)

(** A fire time only moves forward. *)
Lemma exec_cron_forward now o b id u :
  cron b !! id = Some u → advances id o →
  ∃ u', cron (exec now o b) !! id = Some u' ∧ u ≤ u'.
Proof.
  intros Hu Ho. pose proof (exec_cron now o b) as Hc.
  destruct o as [ | | | | | | | | | | | | |i t|i f n|i|]; try (rewrite Hc; by exists u);
    clear Hc; cbn [exec]; simpl in Ho;
    unfold ScheduleCronIfAbsent, ClaimCron, RemoveCron, checkOpen;
    destruct (decide (i = id)) as [->|Hne]; repeat (case_match; simpl; try by exists u);
    simplify_eq; rewrite ?lookup_insert_ne, ?lookup_delete_ne by done; try by exists u.
  exists n. split; [apply lookup_insert_eq|].
  match goal with H : negb (Equal _ _) = false |- _ => apply negb_false_iff, Equal_spec in H end.
  specialize (Ho eq_refl). lia.
Qed.

Lemma wins_fire_now id t o b : wins_fire id t o b = true → cron b !! id = Some t.
Proof.
  destruct o as [ | | | | | | | | | | | | | |i f n| |]; try done. simpl.
  rewrite !andb_true_iff, eqb_true_iff, bool_decide_eq_true. intros [[-> ->] Hw].
  unfold ClaimCron in Hw. destruct (checkOpen b); [done|].
  destruct (cron b !! id) as [u|]; [|done].
  destruct (Equal u t) eqn:He; [|done]. apply Equal_spec in He. by subst.
Qed.

Lemma wins_fire_next now id t o b :
  wins_fire id t o b = true → advances id o →
  ∃ u, cron (exec now o b) !! id = Some u ∧ t < u.
Proof.
  intros Hw Ho. pose proof (wins_fire_now _ _ _ _ Hw) as Hu.
  destruct o as [ | | | | | | | | | | | | | |i f n| |]; try done. simpl in *.
  rewrite !andb_true_iff, eqb_true_iff, bool_decide_eq_true in Hw. destruct Hw as [[-> ->] Hw].
  unfold ClaimCron in *. destruct (checkOpen b); [done|]. rewrite Hu in *.
  unfold Equal in *. rewrite bool_decide_true in * by done. simpl.
  exists n. split; [apply lookup_insert_eq|]. by apply Ho.
Qed.

Lemma fires_past id t u tr b :
  cron b !! id = Some u → t < u → Forall (λ e, advances id e.2) tr → fires id t tr b = 0.
Proof.
  revert b u. induction tr as [|[now o] tr IH]; intros b u Hu Htu Hall; simpl; [done|].
  apply Forall_cons in Hall as [Ho Hall]. simpl in Ho.
  destruct (exec_cron_forward now o b id u Hu Ho) as (u' & Hu' & Hle).
  rewrite (IH _ u' Hu') by (done || lia).
  destruct (wins_fire id t o b) eqn:Hw; [|done].
  apply wins_fire_now in Hw. rewrite Hu in Hw. injection Hw as ->. lia.
Qed.

Lemma fires_once id t tr b : Forall (λ e, advances id e.2) tr → 0 ≤ fires id t tr b ≤ 1.
Proof.
  revert b. induction tr as [|[now o] tr IH]; intros b Hall; simpl; [lia|].
  apply Forall_cons in Hall as [Ho Hall]. simpl in Ho.
  destruct (wins_fire id t o b) eqn:Hw; [|by apply IH].
  destruct (wins_fire_next now _ _ _ _ Hw Ho) as (u & Hu & Htu).
  rewrite (fires_past id t u) by done. lia.
Qed.

(** ** Properties *)

(** C3: a claimed job is exclusively its worker's: as long as the clock of every
    operation stays before the deadline of the lease and the worker itself does not
    report or renew, no interleaving of operations of other workers, leaders and
    operators changes the record of the job or hands it out again. *)
Theorem lease_exclusive b id j tr :
  reachable b → ok_trace tr b → jobs b !! id = Some j → State_ j = StateActive →
  Forall (λ e, e.1 < Deadline j ∧ reports_on (Owner j) id e.2 = false) tr →
  jobs (run tr b) !! id = Some j ∧ deliveries id tr b = 0.
Proof. intros Hwf%reachable_WF. by apply leased_run. Qed.

Lemma lease_exclusive_witness :
  deliveries "a" [(120, OpReap [] 10); (125, OpDequeue demo_claim); (130, OpAck "v" "a")] demo = 0.
Proof.
  refine (proj2 (lease_exclusive demo "a" (claim demo_claim 110 (stored_job "a" 100 demo_job))
    [(120, OpReap [] 10); (125, OpDequeue demo_claim); (130, OpAck "v" "a")] demo_reachable _ _ _ _)).
  - vm_compute. split_and!; exact I.
  - vm_compute. reflexivity.
  - reflexivity.
  - repeat constructor.
Defined.

(** C2: fencing: a worker that does not hold the lease on a job (because it was
    reclaimed, completed, or never claimed) stays fenced off whatever happens, until it
    claims again: its Ack, Nack and Kill all fail, with ErrLeaseLost, ErrJobNotFound or
    ErrClosed, and change nothing at all, and Extend reports the job as lost. *)
Theorem stale_worker_fenced b w id tr :
  reachable b → ok_trace tr b → ¬ owned_by b w id → Forall (λ e, claims_as w e.2 = false) tr →
  let b' := run tr b in
  ∃ err,
    (Is err ErrLeaseLost || Is err ErrJobNotFound || Is err ErrClosed) = true ∧
    Ack w id b' = (b', Some err) ∧
    (∀ t r, Nack w id t r b' = (b', Some err)) ∧
    (∀ r, Kill w id r b' = (b', Some err)) ∧
    (∀ vt now, 0 < vt → closed b' = false → Extend w [id] vt now b' = (b', Ok [id])).
Proof.
  intros Hwf%reachable_WF Htr Hno Hall b'.
  destruct (ownedActive_Err w id b') as (err & Herr & His); [by apply not_owned_run|].
  unfold Ack, Nack, Kill, Extend, checkOpen. simpl. rewrite Herr. destruct (closed b').
  - exists (Sentinel ErrClosed). split_and!; done.
  - exists err. split_and!; try done.
    + destruct (jobs b' !! id); rewrite His, ?orb_true_r; done.
    + intros vt now Hvt _. by rewrite bool_decide_eq_false_2 by lia.
Qed.

Lemma stale_worker_fenced_witness :
  ∃ err, (Is err ErrLeaseLost || Is err ErrJobNotFound || Is err ErrClosed) = true ∧
         (Ack "v" "a" (run [(140, OpReap [] 10)] demo)).2 = Some err.
Proof.
  destruct (stale_worker_fenced demo "v" "a" [(140, OpReap [] 10)] demo_reachable)
    as (err & His & Hack & _).
  - vm_compute. split_and!; exact I.
  - intros (j & Hj & _ & Ho). vm_compute in Hj. injection Hj as <-. discriminate Ho.
  - repeat constructor.
  - exists err. rewrite Hack. split; [exact His|reflexivity].
Defined.

(** A named lease has one holder: while the lease taken by its holder has not
    expired, and the holder itself does not touch it, any other owner that tries to
    acquire it is refused and any release by another owner does nothing, however the
    operations interleave; the holder can renew it; once it has expired, anyone
    acquires it. *)
Theorem named_lease_exclusive b name e tr now w ttl :
  leases b !! name = Some e →
  Forall (λ x, x.1 < l_expiresAt e ∧ leases_as name (l_owner e) x.2 = false) tr →
  name ≠ "" → w ≠ "" → 0 < ttl → closed (run tr b) = false →
  let b' := run tr b in
  (now < l_expiresAt e → w ≠ l_owner e →
     AcquireLease name w ttl now b' = (b', Ok false) ∧ ReleaseLease name w b' = (b', None)) ∧
  (now < l_expiresAt e → holder b' name now = Some (l_owner e)) ∧
  (l_expiresAt e ≤ now ∨ w = l_owner e →
     (AcquireLease name w ttl now b').2 = Ok true ∧
     ∀ t, t < now + ttl → holder (AcquireLease name w ttl now b').1 name t = Some w).
Proof.
  intros He Hall Hn Hw Httl Hop b'. pose proof (lease_held_run tr b name e He Hall) as He'.
  fold b' in He', Hop. unfold AcquireLease, ReleaseLease, checkOpen, holder.
  rewrite Hop, He'. apply eqb_false_iff in Hn, Hw. rewrite Hn, Hw.
  rewrite (bool_decide_eq_false_2 (ttl ≤ 0)) by lia. simpl. apply eqb_false_iff in Hn, Hw.
  split_and!.
  - intros Hlt%After_spec Hne. rewrite Hlt.
    assert (String.eqb (l_owner e) w = false) as -> by (apply eqb_false_iff; congruence). done.
  - intros Hlt%After_spec. by rewrite Hlt.
  - intros Hor.
    assert (After (l_expiresAt e) now && negb (String.eqb (l_owner e) w) = false) as ->.
    { destruct Hor as [Hle%After_false| ->]; [by rewrite Hle|].
      by rewrite String.eqb_refl, andb_false_r. }
    simpl. split; [done|]. intros t Ht. rewrite lookup_insert_eq. simpl.
    by rewrite (proj2 (After_spec (Add now ttl) t)) by (unfold Add; lia).
Qed.

Lemma named_lease_exclusive_witness :
  (AcquireLease "scheduler" "w2" 50 130
     (run [(120, OpReleaseLease "scheduler" "w2")] (exec 100 (OpAcquireLease "scheduler" "w1" 50) New))).2
  = Ok false.
Proof.
  pose proof (named_lease_exclusive (exec 100 (OpAcquireLease "scheduler" "w1" 50) New) "scheduler"
    (mkLeaseEntry "w1" 150) [(120, OpReleaseLease "scheduler" "w2")] 130 "w2" 50) as H.
  destruct H as [H _]; [vm_compute; reflexivity|repeat constructor|discriminate|discriminate|lia
    |reflexivity|].
  destruct H as [H _]; [simpl; lia|discriminate|]. rewrite H. reflexivity.
Defined.

(** Unique keys: once a job with a unique key is accepted at time [t], every later
    Enqueue under that key before [t] plus its TTL (one hour if not positive) is refused
    with a DuplicateError that names the accepted job, whatever happened in between,
    including that job's completion; from that instant on the key is free again. *)
Theorem unique_key_enforced b i t j tr i' now j' :
  (Enqueue i t (Some j) b).2 = None → UniqueKey j ≠ "" →
  UniqueKey j' = UniqueKey j → Queue j' ≠ "" → Type_ j' ≠ "" →
  let expiry := t + (if bool_decide (UniqueTTL j ≤ 0) then Hour else UniqueTTL j) in
  Forall (λ e, e.1 < expiry) tr →
  let b' := run tr (Enqueue i t (Some j) b).1.1 in
  closed b' = false →
  if bool_decide (now < expiry)
  then ∃ err, Enqueue i' now (Some j') b' = (b', Some j', Some err) ∧
              err = DuplicateError (UniqueKey j) (assigned_id i j) ∧ Is err ErrDuplicate = true
  else (Enqueue i' now (Some j') b').2 = None.
Proof.
  intros Hok Hk Hk' Hq Ht expiry Hall b' Hop.
  assert (unique b' !! UniqueKey j = Some (mkUniqueEntry (assigned_id i j) expiry)) as Hu
    by (apply unique_held_run; [by apply Enqueue_takes_key|done]).
  destruct (bool_decide_reflect (now < expiry)) as [Hlt|Hge].
  - eexists. split; [|done]. rewrite <- Hk' in Hu. rewrite (Enqueue_refused _ _ _ _ _ Hu) by (done || congruence).
    by rewrite Hk'.
  - unfold Enqueue, checkOpen. apply eqb_false_iff in Hq, Ht, Hk.
    rewrite Hq, Ht, Hop, Hk', Hk, Hu. simpl. rewrite (proj2 (After_false expiry now)) by lia.
    by destruct (After (RunAt _) now).
Qed.

Lemma unique_key_enforced_witness :
  let b' := run [(110, OpDequeue demo_claim); (111, OpAck "w" "a")]
              (Enqueue "a" 100 (Some demo_job) New).1.1 in
  Enqueue "c" 200 (Some demo_job) b' = (b', Some demo_job, Some (DuplicateError "order-7" "a")).
Proof.
  intros b'.
  assert (H := unique_key_enforced New "a" 100 demo_job
    [(110, OpDequeue demo_claim); (111, OpAck "w" "a")] "c" 200 demo_job eq_refl).
  cbv zeta in H. fold b' in H. destruct H as (err & Heq & -> & _); try done.
  repeat constructor; vm_compute; reflexivity.
Defined.

(** C35: a cron occurrence is claimed once: along any execution in which schedulers only
    move the entry forward and nobody removes it, at most one ClaimCron of the occurrence
    [t] of the entry succeeds; if [t] is the stored fire time of an open broker, the
    first claim of it does, and advances the entry. *)
Theorem cron_fires_once id t tr b :
  Forall (λ e, advances id e.2) tr →
  fires id t tr b ≤ 1 ∧
  (∀ now n tr', tr = (now, OpClaimCron id t n) :: tr' → closed b = false →
     cron b !! id = Some t →
     fires id t tr b = 1 ∧ cron (exec now (OpClaimCron id t n) b) !! id = Some n).
Proof.
  intros Hall. pose proof (fires_once id t tr b Hall). split; [lia|].
  intros now n tr' -> Hop Ht.
  assert (ClaimCron id t n b = (set_cron (<[id:=n]> (cron b)) b, Ok true)) as Hcl.
  { unfold ClaimCron, checkOpen, Equal. rewrite Hop, Ht. by rewrite bool_decide_eq_true_2. }
  apply Forall_cons in Hall as [_ Hall].
  pose proof (fires_once id t tr' (exec now (OpClaimCron id t n) b) Hall).
  cbn [fires wins_fire exec] in *. rewrite Hcl in *. cbn [fst snd] in *.
  rewrite String.eqb_refl, bool_decide_eq_true_2 in * by done. simpl in *.
  split; [lia|]. apply lookup_insert_eq.
Qed.

Lemma cron_fires_once_witness :
  fires "daily" 500 [(510, OpClaimCron "daily" 500 900); (511, OpClaimCron "daily" 500 901)]
    (exec 1 (OpScheduleCronIfAbsent "daily" 500) New) = 1.
Proof.
  refine (proj1 (proj2 (cron_fires_once "daily" 500 _ _ _) 510 900
    [(511, OpClaimCron "daily" 500 901)] eq_refl _ _)).
  - repeat constructor; simpl; lia.
  - reflexivity.
  - vm_compute. reflexivity.
Defined.
