(* ===== verification/MemoryOps.v ===== *)
(** * The in-memory broker: what each operation does

    Functional specifications of the operations on every branch: claiming,
    reporting, renewing, reaping, promoting, the dead-letter queue and closing. *)
From S2P Require Import Prelude GoBase Job Backoff Interface BrokerAPI Memory MemoryInv MemorySpec MemoryProps MemoryExclusion.

(** ** Definitions *)

(** The job [id] goes back to the ready queue [q] when it is reaped. *)
Definition requeued_to (b : Broker) (q id : string) : bool :=
  match jobs b !! id with
  | Some j => negb (Exhausted j) && String.eqb (Queue j) q
  | None => false
  end.

(** The job [id] has no attempt left. *)
Definition spent (b : Broker) (id : string) : bool :=
  match jobs b !! id with Some j => Exhausted j | None => false end.

(** The job [id] belongs to the queue [q]. *)
Definition of_queue (b : Broker) (q id : string) : bool :=
  match jobs b !! id with Some j => String.eqb (Queue j) q | None => false end.

(** Reaping, or promoting, a list of jobs one after the other. *)
Definition reap_step (b : Broker) (id : string) : Broker :=
  match jobs b !! id with Some j => reap_one id j b | None => b end.

Definition promote_step (b : Broker) (c : candidate) : Broker :=
  match jobs b !! c_id c with Some j => promote_one c j b | None => delete_due c b end.

(** [n] claims in a row: what each of them returns. *)
Fixpoint drain (o : ClaimOpts) (now : Z) (n : nat) (b : Broker) : list (res Job) :=
  match n with
  | O => []
  | S n => let '(b', r) := Dequeue o now b in r :: drain o now n b'
  end.

(** ** Lemmas: reaping *)

Lemma reap_loop_foldl limit n cands b :
  NoDup cands.*1 → (∀ c, c ∈ cands → is_Some (jobs b !! c.1)) →
  let taken := (take (Z.to_nat (limit - n)) cands).*1 in
  reap_loop limit n cands b = (foldl reap_step b taken, n + Z.of_nat (length taken)).
Proof.
  simpl. revert n b. induction cands as [|c cands IH]; intros n b Hnd Hin; simpl.
  { rewrite take_nil. simpl. by rewrite Z.add_0_r. }
  rewrite fmap_cons, NoDup_cons in Hnd. destruct Hnd as [Hc Hnd]. case_bool_decide as Hl.
  { replace (Z.to_nat (limit - n)) with 0%nat by lia. simpl. by rewrite Z.add_0_r. }
  destruct (Hin c) as [j Hj]; [by left|]. rewrite Hj.
  replace (Z.to_nat (limit - n)) with (S (Z.to_nat (limit - (n + 1)))) by lia.
  rewrite firstn_cons, fmap_cons. cbn [foldl].
  unfold reap_step at 2. rewrite Hj, IH; [|done|].
  - f_equal. simpl length. lia.
  - intros c' Hc'. rewrite reap_one_jobs. destruct (decide (c.1 = c'.1)) as [<-|Hne].
    + by rewrite lookup_insert_eq.
    + rewrite lookup_insert_ne by done. apply Hin. by right.
Qed.

Lemma reap_step_jobs b id id' :
  jobs (reap_step b id) !! id' = if decide (id' = id) then reaped <$> jobs b !! id' else jobs b !! id'.
Proof.
  unfold reap_step. destruct (jobs b !! id) as [j|] eqn:Hj.
  - rewrite reap_one_jobs. case_decide; subst; [by rewrite lookup_insert_eq, Hj|].
    by rewrite lookup_insert_ne.
  - case_decide; subst; [by rewrite Hj|done].
Qed.

Lemma reap_step_places b id q :
  pend (reap_step b id) q = (if requeued_to b q id then [id] else []) ++ pend b q ∧
  (ID <$> jobs b !! id = Some id →
   dead (reap_step b id) = dead b ++ (if spent b id then [id] else [])) ∧
  (∀ id', active (reap_step b id) !! id' =
     if decide (id' = id ∧ is_Some (jobs b !! id)) then None else active b !! id').
Proof.
  unfold reap_step, requeued_to, spent. destruct (jobs b !! id) as [j|] eqn:Hj.
  2:{ simpl. split_and!; [done|done|]. intros id'. rewrite decide_False; [done|]. by intros [_ []]. }
  unfold reap_one. change (Exhausted (set_Recoveries _ _)) with (Exhausted j).
  destruct (Exhausted j); simpl; unfold moveToDeadLocked; simpl.
  - split_and!; [done|intros [= ->]; done|]. intros id'. rewrite lookup_delete.
    destruct (decide (id = id')) as [->|]; [by rewrite decide_True by eauto|].
    by rewrite decide_False by naive_solver.
  - split_and!.
    + pend_simpl. destruct (String.eqb_spec (Queue j) q) as [->|Hne];
        [by rewrite decide_True|by rewrite decide_False].
    + by rewrite app_nil_r.
    + intros id'. rewrite lookup_delete.
      destruct (decide (id = id')) as [->|]; [by rewrite decide_True by eauto|].
      by rewrite decide_False by naive_solver.
Qed.

(** The predicates about other jobs do not change when one is reaped. *)
Lemma reap_step_other b id id' :
  id' ≠ id →
  jobs (reap_step b id) !! id' = jobs b !! id' ∧
  (∀ q, requeued_to (reap_step b id) q id' = requeued_to b q id') ∧
  spent (reap_step b id) id' = spent b id'.
Proof.
  intros Hne. unfold requeued_to, spent. rewrite reap_step_jobs, decide_False by done. done.
Qed.

Lemma reap_foldl_spec taken b :
  NoDup taken → (∀ id, id ∈ taken → ∃ j, jobs b !! id = Some j ∧ ID j = id) →
  let b' := foldl reap_step b taken in
  (∀ id, jobs b' !! id = if decide (id ∈ taken) then reaped <$> jobs b !! id else jobs b !! id) ∧
  (∀ q, pend b' q = reverse (filter (λ id, requeued_to b q id = true) taken) ++ pend b q) ∧
  dead b' = dead b ++ filter (λ id, spent b id = true) taken ∧
  (∀ id, active b' !! id = if decide (id ∈ taken) then None else active b !! id).
Proof.
  simpl. revert b. induction taken as [|i taken IH]; intros b Hnd Hin; simpl.
  { split_and!; [done..|by rewrite app_nil_r|done]. }
  apply NoDup_cons in Hnd as [Hi Hnd].
  destruct (Hin i) as (j & Hj & Hid); [by left|].
  assert (∀ id, id ∈ taken → id ≠ i) as Hne by (intros id ? ->; done).
  destruct (IH (reap_step b i)) as (H1 & H2 & H3 & H4); [done| |].
  { intros id Hid'. destruct (reap_step_other b i id) as [-> _]; [by apply Hne|]. apply Hin. by right. }
  destruct (reap_step_places b i "") as (_ & Hd & Ha). rewrite Hj in *.
  specialize (Hd (f_equal Some Hid)).
  split_and!.
  - intros id. rewrite H1, reap_step_jobs. destruct (decide (id = i)) as [->|Hni].
    + rewrite decide_False by done. by rewrite decide_True by (by left).
    + destruct (decide (id ∈ taken)) as [Ht|Ht]; [by rewrite decide_True by (by right)|].
      rewrite decide_False; [done|]. by intros [?|?]%elem_of_cons.
  - intros q. rewrite H2, filter_cons. destruct (reap_step_places b i q) as (-> & _ & _).
    rewrite (filter_ext_elem _ (requeued_to b q)) by (intros; by apply reap_step_other, Hne).
    destruct (requeued_to b q i); case_decide; try done. by rewrite reverse_cons, <- app_assoc.
  - rewrite H3, Hd, filter_cons, <- app_assoc.
    rewrite (filter_ext_elem _ (spent b)) by (intros; by apply reap_step_other, Hne).
    by destruct (spent b i); case_decide.
  - intros id. rewrite H4, Ha. destruct (decide (id = i)) as [->|Hni].
    + rewrite (decide_True (P := i ∈ i :: taken)) by (by left).
      case_decide; [done|]. by rewrite decide_True by eauto.
    + rewrite (decide_False (P := id = i ∧ _)) by naive_solver.
      destruct (decide (id ∈ taken)) as [Ht|Ht]; [by rewrite decide_True by (by right)|].
      rewrite decide_False; [done|]. by intros [?|?]%elem_of_cons.
Qed.

(** ** Lemmas: promoting *)

Lemma promote_loop_foldl limit n cands b :
  NoDup (c_id <$> cands) → (∀ c, c ∈ cands → is_Some (jobs b !! c_id c)) →
  let taken := take (Z.to_nat (limit - n)) cands in
  promote_loop limit n cands b = (foldl promote_step b taken, n + Z.of_nat (length taken)).
Proof.
  simpl. revert n b. induction cands as [|c cands IH]; intros n b Hnd Hin; simpl.
  { rewrite take_nil. simpl. by rewrite Z.add_0_r. }
  rewrite fmap_cons, NoDup_cons in Hnd. destruct Hnd as [Hc Hnd]. case_bool_decide as Hl.
  { replace (Z.to_nat (limit - n)) with 0%nat by lia. simpl. by rewrite Z.add_0_r. }
  destruct (Hin c) as [j Hj]; [by left|]. rewrite Hj.
  replace (Z.to_nat (limit - n)) with (S (Z.to_nat (limit - (n + 1)))) by lia.
  rewrite firstn_cons. cbn [foldl]. unfold promote_step at 2. rewrite Hj, IH; [|done|].
  - f_equal. simpl length. lia.
  - intros c' Hc'. rewrite promote_one_jobs. destruct (decide (c_id c = c_id c')) as [<-|Hne].
    + by rewrite lookup_insert_eq.
    + rewrite lookup_insert_ne by done. apply Hin. by right.
Qed.

Lemma promote_step_spec b c j :
  jobs b !! c_id c = Some j →
  let b' := promote_step b c in
  (∀ id, jobs b' !! id = if decide (id = c_id c) then Some (set_State StatePending j) else jobs b !! id) ∧
  (∀ q, pend b' q = pend b q ++ (if of_queue b q (c_id c) then [c_id c] else [])) ∧
  (∀ id, scheduled b' !! id =
     if decide (id = c_id c ∧ c_set c = InScheduled) then None else scheduled b !! id) ∧
  (∀ id, retry b' !! id = if decide (id = c_id c ∧ c_set c = InRetry) then None else retry b !! id).
Proof.
  intros Hj. simpl. unfold promote_step, of_queue. rewrite Hj. split_and!.
  - intros id. rewrite promote_one_jobs, lookup_insert.
    destruct (decide (id = c_id c)) as [->|]; [by rewrite decide_True|]. by rewrite decide_False by congruence.
  - intros q. unfold promote_one, delete_due.
    destruct (c_set c); pend_simpl; fold (pend b (Queue j));
      (destruct (String.eqb_spec (Queue j) q) as [<-|Hne];
       [by rewrite decide_True|rewrite decide_False by done; by rewrite app_nil_r]).
  - intros id. unfold promote_one, delete_due. destruct (c_set c); simpl; rewrite ?lookup_delete.
    + repeat case_decide; naive_solver.
    + rewrite decide_False; [done|]. by intros [_ ?].
  - intros id. unfold promote_one, delete_due. destruct (c_set c); simpl; rewrite ?lookup_delete.
    + rewrite decide_False; [done|]. by intros [_ ?].
    + repeat case_decide; naive_solver.
Qed.

Lemma promote_foldl_spec taken b :
  NoDup (c_id <$> taken) → (∀ c, c ∈ taken → is_Some (jobs b !! c_id c)) →
  let b' := foldl promote_step b taken in
  (∀ id, jobs b' !! id =
     if decide (id ∈ c_id <$> taken) then set_State StatePending <$> jobs b !! id else jobs b !! id) ∧
  (∀ q, pend b' q = pend b q ++ filter (λ id, of_queue b q id = true) (c_id <$> taken)) ∧
  (∀ id, id ∉ c_id <$> taken → scheduled b' !! id = scheduled b !! id ∧ retry b' !! id = retry b !! id).
Proof.
  simpl. revert b. induction taken as [|c taken IH]; intros b Hnd Hin; cbn [foldl].
  { split_and!; try done. intros q. by rewrite app_nil_r. }
  rewrite fmap_cons, NoDup_cons in Hnd. destruct Hnd as [Hc Hnd].
  destruct (Hin c) as (j & Hj); [by left|].
  destruct (promote_step_spec b c j Hj) as (S1 & S2 & S3 & S4).
  assert (∀ id, id ∈ c_id <$> taken → id ≠ c_id c) as Hne by (intros id ? ->; done).
  destruct (IH (promote_step b c)) as (H1 & H2 & H3); [done| |].
  { intros c' Hc'. rewrite S1, decide_False; [apply Hin; by right|].
    apply Hne. by apply list_elem_of_fmap_2. }
  split_and!.
  - intros id. rewrite H1, S1. destruct (decide (id = c_id c)) as [->|Hni].
    + rewrite decide_False by done. rewrite decide_True by (by left). by rewrite Hj.
    + destruct (decide (id ∈ c_id <$> taken)) as [Ht|Ht]; [by rewrite decide_True by (by right)|].
      rewrite decide_False; [done|]. by intros [?|?]%elem_of_cons.
  - intros q. rewrite H2, S2, fmap_cons, filter_cons, <- app_assoc.
    rewrite (filter_ext_elem _ (of_queue b q)).
    2:{ intros x Hx. unfold of_queue. rewrite S1, decide_False by (by apply Hne). done. }
    by destruct (of_queue b q (c_id c)); case_decide.
  - intros id Hid. rewrite fmap_cons in Hid.
    destruct (H3 id) as [-> ->]; [intros ?; apply Hid; by right|].
    rewrite S3, S4, !decide_False; [done|..]; intros [-> _]; apply Hid; by left.
Qed.

(** What Reap does. *)
Lemma Reap_spec b qs limit now :
  WF b → closed b = false → 0 < limit →
  ∃ cands : list (string * Z),
    Sorted (by_key (λ e, (e.2, e.1))) cands ∧ NoDup cands.*1 ∧
    (∀ id d, (id, d) ∈ cands ↔
       ∃ j, jobs b !! id = Some j ∧ State_ j = StateActive ∧ Deadline j = d ∧ d ≤ now ∧
            (qs = [] ∨ Queue j ∈ qs)) ∧
    let taken := (take (Z.to_nat limit) cands).*1 in
    let '(b', r) := Reap qs limit now b in
    r = Ok (Z.of_nat (length taken)) ∧
    (∀ id, jobs b' !! id = if decide (id ∈ taken) then reaped <$> jobs b !! id else jobs b !! id) ∧
    (∀ q, pend b' q = reverse (filter (λ id, requeued_to b q id = true) taken) ++ pend b q) ∧
    dead b' = dead b ++ filter (λ id, spent b id = true) taken ∧
    (∀ id, active b' !! id = if decide (id ∈ taken) then None else active b !! id).
Proof.
  intros Hwf Hop Hl. unfold Reap, checkOpen. rewrite Hop, bool_decide_eq_false_2 by lia.
  destruct (reap_cands_ok now (list_to_set qs) b) as [Hnd Hin].
  set (cands := reap_order _) in *. exists cands.
  assert (∀ id d, (id, d) ∈ cands ↔
    ∃ j, jobs b !! id = Some j ∧ State_ j = StateActive ∧ Deadline j = d ∧ d ≤ now ∧
         (qs = [] ∨ Queue j ∈ qs)) as Hcands.
  { intros id d. rewrite Hin, reapable_true. simpl.
    destruct (wf_at _ Hwf id) as [[_ Ha _ _ _] _]. rewrite Ha.
    destruct (jobs b !! id) as [j|]; simpl; [|naive_solver].
    destruct (String.eqb_spec (State_ j) StateActive); naive_solver. }
  split_and!; [apply Sorted_merge_sort, _|done|done|].
  rewrite reap_loop_foldl; [|done|].
  2:{ intros [i d] (j & Hj & _)%Hcands. by exists j. }
  rewrite Z.sub_0_r, Z.add_0_l. split; [done|]. apply reap_foldl_spec.
  - rewrite fmap_take. eapply sublist_NoDup; [exact Hnd|apply sublist_take].
  - intros id ([i d] & -> & Hid)%list_elem_of_fmap.
    apply subseteq_take in Hid. apply Hcands in Hid as (j & Hj & _). exists j. split; [done|].
    destruct (wf_at _ Hwf i) as [_ Hok]. by destruct (Hok j Hj).
Qed.

(** ** Properties *)

(** C7: recovery of expired leases is exact. One call of Reap takes the jobs whose lease
    deadline has passed, of the wanted queues (all queues if none is named), oldest
    deadline first with ties by identifier, [limit] of them at most, and returns how many.
    Each of them loses its lease; if it has attempts left it goes back to the head of its
    queue, otherwise to the end of the dead-letter list; every other job is untouched. *)
Theorem reap_exact b qs limit now :
  reachable b → closed b = false → 0 < limit →
  ∃ cands : list (string * Z),
    Sorted (by_key (λ e, (e.2, e.1))) cands ∧ NoDup cands.*1 ∧
    (∀ id d, (id, d) ∈ cands ↔
       ∃ j, jobs b !! id = Some j ∧ State_ j = StateActive ∧ Deadline j = d ∧ d ≤ now ∧
            (qs = [] ∨ Queue j ∈ qs)) ∧
    let taken := (take (Z.to_nat limit) cands).*1 in
    let '(b', r) := Reap qs limit now b in
    r = Ok (Z.of_nat (length taken)) ∧
    (∀ id, jobs b' !! id = if decide (id ∈ taken) then reaped <$> jobs b !! id else jobs b !! id) ∧
    (∀ q, pend b' q = reverse (filter (λ id, requeued_to b q id = true) taken) ++ pend b q) ∧
    dead b' = dead b ++ filter (λ id, spent b id = true) taken ∧
    (∀ id, active b' !! id = if decide (id ∈ taken) then None else active b !! id).
Proof. intros Hr. by apply Reap_spec, reachable_WF. Qed.

Lemma reap_exact_witness :
  ∃ cands : list (string * Z),
    ("a", 140) ∈ cands ∧
    (Reap ["mail"] 10 140 demo).2 = Ok (Z.of_nat (length (take 10 cands).*1)).
Proof.
  destruct (reap_exact demo ["mail"] 10 140 demo_reachable) as (cands & _ & _ & Hc & H);
    [reflexivity|lia|].
  exists cands. split.
  - apply Hc. eexists. split; [vm_compute; reflexivity|].
    split_and!; [reflexivity|reflexivity|lia|right; apply list_elem_of_here].
  - destruct (Reap ["mail"] 10 140 demo) as [b' r]. exact (proj1 H).
Defined.

(** Promotion is exact. One call of Promote takes the scheduled jobs whose run time,
    and the retries whose retry time, has come, in order of that time with ties by
    identifier, [limit] of them at most, and returns how many. Each is appended, in that
    order, to the end of its own queue as pending and leaves the set it waited in; every
    other job is untouched. *)
Theorem promote_exact b limit now :
  reachable b → closed b = false → 0 < limit →
  ∃ cands : list candidate,
    Sorted (by_key (λ c, (c_due c, c_id c))) cands ∧ NoDup (c_id <$> cands) ∧
    (∀ id d, (mkCandidate id d InScheduled ∈ cands ↔ d ≤ now ∧ scheduled b !! id = Some d) ∧
             (mkCandidate id d InRetry ∈ cands ↔ d ≤ now ∧ retry b !! id = Some d)) ∧
    let taken := take (Z.to_nat limit) cands in
    let '(b', r) := Promote limit now b in
    r = Ok (Z.of_nat (length taken)) ∧
    (∀ id, jobs b' !! id = if decide (id ∈ c_id <$> taken)
                           then set_State StatePending <$> jobs b !! id else jobs b !! id) ∧
    (∀ q, pend b' q = pend b q ++ filter (λ id, of_queue b q id = true) (c_id <$> taken)) ∧
    (∀ id, if decide (id ∈ c_id <$> taken)
           then scheduled b' !! id = None ∧ retry b' !! id = None
           else scheduled b' !! id = scheduled b !! id ∧ retry b' !! id = retry b !! id).
Proof.
  intros Hwf%reachable_WF Hop Hl. unfold Promote, checkOpen.
  rewrite Hop, bool_decide_eq_false_2 by lia.
  destruct (promote_cands_ok now b Hwf) as [Hnd Hin].
  set (cands := promote_order _) in *. exists cands.
  assert (∀ c, c ∈ cands → in_due b c) as Hdue.
  { intros c [_ Hc]%Hin. unfold in_due. destruct (c_set c); by rewrite Hc. }
  split_and!; [apply Sorted_merge_sort, _|done|intros id d; split; apply Hin|].
  rewrite promote_loop_foldl; [|done|].
  2:{ intros c Hc%Hdue. destruct (in_due_state b c Hwf Hc) as (j & -> & _). by eexists. }
  rewrite Z.sub_0_r, Z.add_0_l. set (taken := take _ cands).
  assert (∀ c, c ∈ taken → in_due b c) as Htk by (intros c Hc%subseteq_take; by apply Hdue).
  destruct (promote_foldl_spec taken b) as (H1 & H2 & H3).
  { unfold taken. rewrite fmap_take. eapply sublist_NoDup; [exact Hnd|apply sublist_take]. }
  { intros c Hc%Htk. destruct (in_due_state b c Hwf Hc) as (j & -> & _). by eexists. }
  split_and!; [done..|]. intros id. case_decide as Hid; [|by apply H3].
  assert (WF (foldl promote_step b taken)) as Hwf'.
  { pose proof (WF_promote_loop limit 0 cands b Hwf Hnd Hdue) as HW.
    rewrite promote_loop_foldl, Z.sub_0_r in HW; [exact HW|done|]. intros c Hc%Hdue.
    destruct (in_due_state b c Hwf Hc) as (j & -> & _). by eexists. }
  destruct (wf_at _ Hwf' id) as [[_ _ Hs Hr _] _]. rewrite H1, decide_True in Hs, Hr by done.
  apply list_elem_of_fmap in Hid as (c & -> & Hc%Htk).
  destruct (in_due_state b c Hwf Hc) as (j & Hj & _). rewrite Hj in Hs, Hr.
  split; [by rewrite Hs|]. apply is_Some_None_iff. by rewrite Hr.
Qed.

Lemma promote_exact_witness :
  let b := exec 120 (OpNack "w" "a" 500 "boom") demo in
  ∃ cands, mkCandidate "a" 500 InRetry ∈ cands ∧
    (Promote 10 500 b).2 = Ok (Z.of_nat (length (take 10 cands))).
Proof.
  intros b. assert (reachable b) as Hb by (apply reach_step; [exact demo_reachable|exact I]).
  destruct (promote_exact b 10 500 Hb) as (cands & _ & _ & Hc & H); [reflexivity|lia|].
  exists cands. split.
  - apply Hc. split; [lia|vm_compute; reflexivity].
  - destruct (Promote 10 500 b) as [b' r]. exact (proj1 H).
Defined.

(** Dequeue is exact. On an open broker a valid claim either finds every queue it
    lists empty, returns ErrNoJob and changes nothing, or takes the head of the first
    non-empty queue in the caller's order: the job leaves that queue only, becomes active,
    owned by the worker, with one more attempt and a deadline one visibility timeout away,
    and no other job is touched. *)
Theorem dequeue_exact b o now :
  reachable b → closed b = false → WorkerID o ≠ "" → 0 < VisibilityTimeout o →
  let '(b', r) := Dequeue o now b in
  ((∀ q, q ∈ Queues o → pend b q = []) ∧ b' = b ∧ r = Err (Sentinel ErrNoJob)) ∨
  (∃ qs1 q qs2 id ids j,
     Queues o = qs1 ++ q :: qs2 ∧ (∀ q', q' ∈ qs1 → pend b q' = []) ∧ pend b q = id :: ids ∧
     jobs b !! id = Some j ∧ State_ j = StatePending ∧ Queue j = q ∧
     let j' := claim o now j in
     r = Ok j' ∧ ID j' = id ∧ State_ j' = StateActive ∧ Owner j' = WorkerID o ∧
     Attempt j' = wrap64 (Attempt j + 1) ∧ Deadline j' = now + VisibilityTimeout o ∧
     jobs b' = <[id := j']> (jobs b) ∧ active b' !! id = Some (Deadline j') ∧
     ∀ q', pend b' q' = if decide (q' = q) then ids else pend b q').
Proof.
  intros Hwf%reachable_WF Hop Hw Hvt. unfold Dequeue, checkOpen.
  apply eqb_false_iff in Hw. rewrite Hw, bool_decide_eq_false_2, Hop by lia.
  rewrite dequeue_loop_spec by done.
  destruct (first_ready b (Queues o)) as [[q id]|] eqn:Hf.
  2:{ left. split; [by apply first_ready_None|done]. }
  destruct (first_ready_Some _ _ _ _ Hf) as (qs1 & qs2 & ids & Hqs & Hemp & Hp).
  destruct (WF_pending_head _ _ _ _ Hwf Hp) as (_ & _ & j & Hj & Hs & Hq).
  rewrite Hj. right. exists qs1, q, qs2, id, ids, j. simpl.
  destruct (wf_at _ Hwf id) as [_ Hok]. destruct (Hok j Hj).
  split_and!; try done; [apply lookup_insert_eq|].
  intros q'. pend_simpl. rewrite Hp. simpl. repeat case_decide; by subst.
Qed.

Lemma dequeue_exact_witness :
  ∃ qs1 q, ["bulk"; "mail"] = qs1 ++ [q] ∧ pend demo q = ["b"] ∧
           (Dequeue demo_claim 120 demo).2 = Ok (claim demo_claim 120
             (stored_job "b" 101 (set_Unique "" 0 demo_job))).
Proof.
  pose proof (dequeue_exact demo demo_claim 120 demo_reachable eq_refl) as H.
  destruct (Dequeue demo_claim 120 demo) as [b' r] eqn:Hd.
  destruct H as [(H & _)|(qs1 & q & qs2 & id & ids & j & Hq & _ & Hp & Hj & _ & _ & Hr & _)];
    [discriminate|simpl; lia| |].
  - specialize (H "mail" (list_elem_of_further _ _ _ (list_elem_of_here _ _))). discriminate H.
  - exists ["bulk"], "mail". split_and!; [reflexivity..|]. rewrite <- Hd. vm_compute. reflexivity.
Defined.

(** One claim from a single non-empty queue. *)
Lemma dequeue_single b o now q id ids :
  WF b → closed b = false → WorkerID o ≠ "" → 0 < VisibilityTimeout o → Queues o = [q] →
  pend b q = id :: ids →
  ∃ b' j, Dequeue o now b = (b', Ok (claim o now j)) ∧ jobs b !! id = Some j ∧ WF b' ∧
          closed b' = false ∧ pend b' q = ids ∧
          ∀ id', id' ≠ id → jobs b' !! id' = jobs b !! id'.
Proof.
  intros Hwf Hop Hw Hvt Hq Hp.
  assert (WF (Dequeue o now b).1) as Hwf' by by apply WF_Dequeue.
  unfold Dequeue, checkOpen in *. apply eqb_false_iff in Hw.
  rewrite Hw, bool_decide_eq_false_2, Hop in * by lia.
  rewrite dequeue_loop_spec, Hq in * by done. simpl in *. rewrite Hp in *.
  destruct (WF_pending_head _ _ _ _ Hwf Hp) as (_ & _ & j & Hj & Hs & _).
  rewrite Hj in *. eexists _, j. split_and!; [done|done|done|done| |].
  - unfold pend at 1. simpl. rewrite lookup_insert_eq. simpl. by rewrite Hp.
  - intros id' Hne. simpl. by rewrite lookup_insert_ne.
Qed.

(** Queues are first in, first out: claiming from one queue as many times as it has
    jobs returns all of them, each exactly once, in the order of the queue. *)
Theorem drain_fifo b o now q :
  reachable b → closed b = false → WorkerID o ≠ "" → 0 < VisibilityTimeout o → Queues o = [q] →
  drain o now (length (pend b q)) b =
    (λ id, Ok (claim o now ((jobs b).[id | zeroJob]))) <$> pend b q.
Proof.
  intros Hwf%reachable_WF Hop Hw Hvt Hq. remember (pend b q) as l eqn:Hl. symmetry in Hl.
  revert b Hwf Hop Hl. induction l as [|id ids IH]; intros b Hwf Hop Hl; [done|].
  destruct (dequeue_single b o now q id ids Hwf Hop Hw Hvt Hq Hl)
    as (b' & j & Hd & Hj & Hwf' & Hop' & Hp' & Hsame).
  simpl. rewrite Hd, Hj, (IH b') by done. simpl. f_equal.
  apply list_fmap_ext. intros i x Hx. apply list_elem_of_lookup_2 in Hx.
  rewrite Hsame; [done|]. intros ->.
  destruct (WF_pending_head _ _ _ _ Hwf Hl) as (Hnin & _). done.
Qed.

Lemma drain_fifo_witness :
  drain (mkClaimOpts "w" ["mail"] 30) 150 1 demo =
    [Ok (claim (mkClaimOpts "w" ["mail"] 30) 150
           ((jobs demo).["b" | zeroJob]))].
Proof.
  exact (drain_fifo demo (mkClaimOpts "w" ["mail"] 30) 150 "mail" demo_reachable eq_refl
    ltac:(discriminate) ltac:(simpl; lia) eq_refl).
Defined.

(** The reports of the worker that holds the lease always succeed, and are exact. Ack
    removes the job for good and counts it; Nack parks it in the retry set until the given
    time, with the error recorded and the attempt count kept, or dead-letters it when its
    attempts are used up; Kill dead-letters it at once; no other job changes. *)
Theorem report_by_owner b w id j t r :
  reachable b → closed b = false → jobs b !! id = Some j → State_ j = StateActive → Owner j = w →
  (let '(b', err) := Ack w id b in
     err = None ∧ jobs b' = delete id (jobs b) ∧ places b' id = [] ∧
     processed b' = wrap64 (processed b + 1)) ∧
  (let '(b', err) := Nack w id t r b in
     err = None ∧
     if Exhausted j then
       jobs b' = <[id := buried r j]> (jobs b) ∧ places b' id = [StateDead] ∧
       dead b' = dead b ++ [id] ∧ failed b' = wrap64 (failed b + 1)
     else
       jobs b' = <[id := set_State StateRetry (set_LastErr r (set_Owner "" j))]> (jobs b) ∧
       places b' id = [StateRetry] ∧ retry b' !! id = Some t) ∧
  (let '(b', err) := Kill w id r b in
     err = None ∧ jobs b' = <[id := buried r j]> (jobs b) ∧ places b' id = [StateDead] ∧
     dead b' = dead b ++ [id] ∧ failed b' = wrap64 (failed b + 1)).
Proof.
  intros Hwf%reachable_WF Hop Hj Hs Ho.
  pose proof (WF_Ack w id b Hwf) as HA. pose proof (WF_Nack w id t r b Hwf) as HN.
  pose proof (WF_Kill w id r b Hwf) as HK.
  assert (ownedActive w id b = Ok j) as Hown by by apply ownedActive_Ok.
  destruct (wf_at _ Hwf id) as [_ Hok]. destruct (Hok j Hj) as [Hid _ _ _ _ _ _].
  unfold Ack, Nack, Kill, checkOpen in *. rewrite Hop, Hown in *. simpl in *.
  rewrite Hs in *. simpl in *.
  change (Exhausted (set_LastErr r (set_Owner "" j))) with (Exhausted j) in *.
  split_and!; [done|done| |done| |done|done| | |done].
  - rewrite places_WF by done. simpl. by rewrite lookup_delete_eq.
  - destruct (Exhausted j); simpl in *; split_and!; try done; try (by rewrite Hid);
      try (rewrite places_WF by done; simpl; by rewrite lookup_insert_eq); apply lookup_insert_eq.
  - rewrite places_WF by done. simpl. by rewrite lookup_insert_eq.
  - simpl. by rewrite Hid.
Qed.

Lemma report_by_owner_witness : places (Ack "w" "a" demo).1 "a" = [].
Proof.
  pose proof (report_by_owner demo "w" "a" (claim demo_claim 110 (stored_job "a" 100 demo_job))
    500 "boom" demo_reachable eq_refl) as H.
  destruct H as [H _]; [vm_compute; reflexivity|reflexivity|reflexivity|].
  destruct (Ack "w" "a" demo) as [b' err]. exact (proj1 (proj2 (proj2 H))).
Defined.

(** ** Lemmas: renewing *)

(** Whether [w] holds the lease on [id], as a test. *)
Lemma ownedActive_dec w id b : is_ok (ownedActive w id b) = true ↔ owned_by b w id.
Proof.
  destruct (ownedActive w id b) as [j|e] eqn:He; simpl.
  - split; [|done]. intros _. apply ownedActive_Ok in He. by exists j.
  - split; [done|]. intros (j & H). apply ownedActive_Ok in H. congruence.
Qed.

(** Renewing one lease leaves every ownership as it was. *)
Lemma ownedActive_renew w i t j b id :
  ownedActive w i b = Ok j →
  is_ok (ownedActive w id (set_active (<[i := t]> (active b)) (put_job i (set_Deadline t j) b))) =
  is_ok (ownedActive w id b).
Proof.
  intros Hi. pose proof Hi as (Hj & Hs & Ho)%ownedActive_Ok. apply eq_true_iff_eq.
  rewrite !ownedActive_dec. unfold owned_by. simpl.
  destruct (decide (i = id)) as [<-|Hne]; [rewrite lookup_insert_eq|by rewrite lookup_insert_ne].
  split; [intros _; by exists j|]. intros _. by exists (set_Deadline t j).
Qed.

Lemma extend_loop_spec w t ids lost b :
  let '(b', lost') := extend_loop w t ids lost b in
  lost' = lost ++ filter (λ id, is_ok (ownedActive w id b) = false) ids ∧
  ∀ id, jobs b' !! id =
          (if is_ok (ownedActive w id b) && bool_decide (id ∈ ids)
           then set_Deadline t <$> jobs b !! id else jobs b !! id) ∧
        active b' !! id =
          if is_ok (ownedActive w id b) && bool_decide (id ∈ ids) then Some t else active b !! id.
Proof.
  revert lost b. induction ids as [|i ids IH]; intros lost b; cbn [extend_loop].
  { split; [by rewrite app_nil_r|]. intros id.
    by rewrite (bool_decide_eq_false_2 (id ∈ [])), andb_false_r by set_solver. }
  destruct (ownedActive w i b) as [j|e] eqn:Ho.
  - set (b1 := set_active _ _). specialize (IH lost b1).
    destruct (extend_loop w t ids lost b1) as [b' lost']. destruct IH as [-> IH].
    assert (∀ id, is_ok (ownedActive w id b1) = is_ok (ownedActive w id b)) as Hr
      by (intros id; exact (ownedActive_renew w i t j b id Ho)).
    split.
    { rewrite filter_cons, Ho. simpl. f_equal. apply list_filter_iff. intros id. by rewrite Hr. }
    intros id. destruct (IH id) as [-> ->]. rewrite Hr. unfold b1. simpl.
    pose proof Ho as (Hj & _)%ownedActive_Ok.
    destruct (decide (id = i)) as [->|Hne].
    + rewrite !lookup_insert_eq, Ho, Hj, (bool_decide_eq_true_2 (i ∈ i :: ids)) by (by left). simpl.
      by destruct (bool_decide (i ∈ ids)).
    + rewrite !lookup_insert_ne by done.
      rewrite (bool_decide_ext (id ∈ i :: ids) (id ∈ ids)) by set_solver. done.
  - specialize (IH (lost ++ [i]) b). destruct (extend_loop w t ids (lost ++ [i]) b) as [b' lost'].
    destruct IH as [-> IH]. split.
    { rewrite filter_cons, Ho. simpl. by rewrite <- app_assoc. }
    intros id. destruct (IH id) as [-> ->]. destruct (decide (id = i)) as [->|Hne].
    + by rewrite Ho.
    + by rewrite (bool_decide_ext (id ∈ i :: ids) (id ∈ ids)) by set_solver.
Qed.

(** Lease renewal is exact: Extend moves the deadline of every listed job whose lease
    the worker still holds to one visibility timeout from now, and returns as lost exactly
    the other listed jobs, in the order they were listed; no other job changes. *)
Theorem extend_exact b w ids vt now :
  closed b = false → 0 < vt →
  let '(b', r) := Extend w ids vt now b in
  ∃ lost, r = Ok lost ∧
    lost = filter (λ id, is_ok (ownedActive w id b) = false) ids ∧
    (∀ id, id ∈ lost ↔ id ∈ ids ∧ ¬ owned_by b w id) ∧
    ∀ id, (owned_by b w id → id ∈ ids →
             jobs b' !! id = set_Deadline (now + vt) <$> jobs b !! id ∧
             active b' !! id = Some (now + vt)) ∧
          (¬ owned_by b w id ∨ id ∉ ids →
             jobs b' !! id = jobs b !! id ∧ active b' !! id = active b !! id).
Proof.
  intros Hop Hvt. unfold Extend, checkOpen. rewrite Hop, bool_decide_eq_false_2 by lia.
  pose proof (extend_loop_spec w (Add now vt) ids [] b) as H.
  destruct (extend_loop w (Add now vt) ids [] b) as [b' lost]. destruct H as [Hlost H].
  rewrite app_nil_l in Hlost. exists lost. split_and!; [done|done| |]; rewrite ?Hlost.
  - intros id. rewrite list_elem_of_filter, <- ownedActive_dec, not_true_iff_false. naive_solver.
  - intros id. destruct (H id) as [-> ->]. rewrite <- ownedActive_dec, not_true_iff_false. split.
    + intros -> Hid. by rewrite bool_decide_eq_true_2.
    + intros [-> |Hid]; [done|]. by rewrite bool_decide_eq_false_2, andb_false_r.
Qed.

Lemma extend_exact_witness :
  (Extend "w" ["b"; "a"; "z"] 30 130 demo).2 = Ok ["b"; "z"].
Proof.
  pose proof (extend_exact demo "w" ["b"; "a"; "z"] 30 130 eq_refl ltac:(lia)) as H.
  destruct (Extend "w" ["b"; "a"; "z"] 30 130 demo) as [b' r].
  destruct H as (lost & -> & -> & _). vm_compute. reflexivity.
Defined.
