(* ===== verification/MemoryInspect.v ===== *)
(** * The in-memory broker: inspection, the dead-letter queue, errors

    Functional specifications of the Inspector operations, the effect of errors
    on the state, and the replay of an identifier named twice. *)
From S2P Require Import Prelude GoBase Job Backoff Interface BrokerAPI Memory MemoryInv MemorySpec MemoryProps MemoryExclusion MemoryOps.

(** ** Definitions *)

(** The error an operation returns. *)
Definition op_error (now : Z) (o : op) (b : Broker) : option error :=
  let of_res {A} (r : res A) := match r with Ok _ => None | Err e => Some e end in
  match o with
  | OpEnqueue i j => (Enqueue i now j b).2
  | OpDequeue o => of_res (Dequeue o now b).2
  | OpAck w i => (Ack w i b).2
  | OpNack w i t r => (Nack w i t r b).2
  | OpKill w i r => (Kill w i r b).2
  | OpExtend w ids vt => of_res (Extend w ids vt now b).2
  | OpReap qs l => of_res (Reap qs l now b).2
  | OpPromote l => of_res (Promote l now b).2
  | OpHeartbeat w ttl => (Heartbeat w ttl now b).2
  | OpAcquireLease n o ttl => of_res (AcquireLease n o ttl now b).2
  | OpReleaseLease n o => (ReleaseLease n o b).2
  | OpRetryDead ids => of_res (RetryDead ids b).2
  | OpPurgeDead ids => of_res (PurgeDead ids b).2
  | OpScheduleCronIfAbsent i t => of_res (ScheduleCronIfAbsent i t b).2
  | OpClaimCron i f n => of_res (ClaimCron i f n b).2
  | OpRemoveCron i => (RemoveCron i b).2
  | OpClose => None
  end.

(** The arguments each operation accepts. *)
Definition valid_args (o : op) : bool :=
  match o with
  | OpEnqueue _ None => false
  | OpEnqueue _ (Some j) => negb (String.eqb (Queue j) "") && negb (String.eqb (Type_ j) "")
  | OpDequeue o => negb (String.eqb (WorkerID o) "") && bool_decide (0 < VisibilityTimeout o)
  | OpExtend _ _ vt => bool_decide (0 < vt)
  | OpHeartbeat w ttl => negb (String.eqb (wi_ID w) "") && bool_decide (0 < ttl)
  | OpAcquireLease n o ttl =>
      negb (String.eqb n "") && negb (String.eqb o "") && bool_decide (0 < ttl)
  | OpScheduleCronIfAbsent i _ => negb (String.eqb i "")
  | _ => true
  end.

(** A sweep of no jobs, which is answered without looking at the broker. *)
Definition asks_nothing (o : op) : bool :=
  match o with OpReap _ l | OpPromote l => bool_decide (l ≤ 0) | _ => false end.

(** The dead jobs, newest first. *)
Definition dead_jobs (b : Broker) : list Job :=
  (λ id, (jobs b).[id | zeroJob]) <$> reverse (dead b).

(** What [ListDead] returns for the pages [0 .. n-1] of [limit] jobs, in a row. *)
Fixpoint pages (limit : Z) (n : nat) (b : Broker) : list Job :=
  match n with
  | O => []
  | S n => pages limit n b ++
           match ListDead (Z.of_nat n * limit) limit b with Ok l => l | Err _ => [] end
  end.

(** How many stored jobs of the queue [q] are in the state [s]. *)
Definition count (b : Broker) (q s : string) : Z :=
  Z.of_nat (length (filter (λ e : string * Job, Queue e.2 = q ∧ State_ e.2 = s)
    (map_to_list (jobs b)))).

(** ** Lemmas and properties: errors *)

Lemma Dequeue_error_same o now b :
  WF b → match (Dequeue o now b).2 with Ok _ => True | Err _ => (Dequeue o now b).1 = b end.
Proof.
  intros Hwf. unfold Dequeue. destruct (String.eqb _ _); [done|]. case_bool_decide; [done|].
  open_cases b. rewrite dequeue_loop_spec by done. by repeat case_match.
Qed.

Lemma op_error_same now o b : WF b → is_Some (op_error now o b) → exec now o b = b.
Proof.
  intros Hwf. destruct o as [i j|o|w i|w i t r|w i r|w ids vt|qs l|l| | | |ids|ids| | | |];
    cbn [op_error exec];
    unfold Ack, Nack, Kill, Extend, Reap, Promote, Heartbeat, AcquireLease, ReleaseLease,
      ScheduleCronIfAbsent, ClaimCron, RemoveCron, RetryDead, PurgeDead, checkOpen;
    try (repeat case_match; simpl; done || by intros []).
  - unfold Enqueue, checkOpen. repeat (case_match; simplify_eq/=; try done); by intros [].
  - pose proof (Dequeue_error_same o now b Hwf) as H.
    destruct (Dequeue o now b) as [b' [j|e]]; simpl in *; [by intros []|done].
Qed.

(** Case analysis on the conditions of [valid_args]. *)
Ltac args_cases :=
  repeat match goal with
  | |- context [String.eqb ?x ?y] => destruct (String.eqb x y)
  | |- context [bool_decide (0 < ?v)] =>
      destruct (bool_decide_reflect (0 < v));
      [try rewrite (bool_decide_eq_false_2 (v ≤ 0)) by lia
      |try rewrite (bool_decide_eq_true_2 (v ≤ 0)) by lia]
  end; cbn [andb orb negb] in *.

Lemma invalid_args_rejected now o b :
  valid_args o = false →
  exec now o b = b ∧ ∃ err, op_error now o b = Some err ∧ Is err ErrInvalidTask = true ∧ Is err ErrClosed = false.
Proof.
  destruct o as [i [j|]|o|w i|w i t r|w i r|w ids vt|qs l|l| | | |ids|ids| | | |];
    cbn [op_error exec valid_args];
    unfold Enqueue, Dequeue, Extend, Heartbeat, AcquireLease, ScheduleCronIfAbsent;
    args_cases; try done; intros _; (split; [done|by eexists]).
Qed.

Lemma asks_nothing_answered now o b : asks_nothing o = true → exec now o b = b ∧ op_error now o b = None.
Proof. destruct o; try done; cbn [op_error exec asks_nothing]; unfold Reap, Promote; intros ->; done. Qed.

Lemma closed_rejected now o b :
  closed b = true →
  exec now o b = b ∧
  (valid_args o = true → asks_nothing o = false → o ≠ OpClose → op_error now o b = Some (Sentinel ErrClosed)).
Proof.
  intros Hc. assert (checkOpen b = Some (Sentinel ErrClosed)) as Hop by (unfold checkOpen; by rewrite Hc).
  destruct o as [i [j|]|o|w i|w i t r|w i r|w ids vt|qs l|l| | | |ids|ids| | | |];
    cbn [op_error exec valid_args asks_nothing];
    unfold Enqueue, Dequeue, Ack, Nack, Kill, Extend, Reap, Promote, Heartbeat, AcquireLease,
      ReleaseLease, ScheduleCronIfAbsent, ClaimCron, RemoveCron, RetryDead, PurgeDead, Close;
    rewrite ?Hop; args_cases; try done; try (by case_bool_decide).
  split; [|done]. unfold set_closed. rewrite <- Hc. by destruct b.
Qed.



(** ** Lemmas and properties: the dead-letter queue *)

Lemma list_dead_loop_spec b limit ids out :
  (∀ id, id ∈ ids → is_Some (jobs b !! id)) →
  list_dead_loop b limit ids out =
    out ++ take (Z.to_nat (limit - Z.of_nat (length out))) ((λ id, (jobs b).[id | zeroJob]) <$> ids).
Proof.
  revert out. induction ids as [|id ids IH]; intros out Hin; cbn [list_dead_loop].
  { by rewrite fmap_nil, take_nil, app_nil_r. }
  rewrite fmap_cons. case_bool_decide as Hl.
  - destruct (Hin id) as [j Hj]; [by left|]. rewrite Hj, clone_eq, IH by (intros; apply Hin; by right).
    rewrite length_app, <- app_assoc. simpl length.
    replace (Z.to_nat (limit - Z.of_nat (length out)))
      with (S (Z.to_nat (limit - Z.of_nat (length out + 1)))) by lia. done.
  - replace (Z.to_nat (limit - Z.of_nat (length out))) with 0%nat by lia. simpl. by rewrite app_nil_r.
Qed.

Lemma drop_reverse {A} (l : list A) n : reverse (take (length l - n) l) = drop n (reverse l).
Proof. unfold reverse. rewrite <- !rev_alt. symmetry. apply skipn_rev. Qed.

Lemma ListDead_spec b offset limit :
  WF b → closed b = false → 0 ≤ offset → 0 < limit →
  ListDead offset limit b = Ok (take (Z.to_nat limit) (drop (Z.to_nat offset) (dead_jobs b))).
Proof.
  intros Hwf Hop Ho Hl. unfold ListDead, checkOpen, dead_jobs.
  rewrite Hop, !bool_decide_eq_false_2 by lia. simpl. rewrite list_dead_loop_spec.
  - rewrite Z.sub_0_r, app_nil_l, <- fmap_drop, <- drop_reverse. repeat f_equal. lia.
  - intros id Hid. apply elem_of_reverse, subseteq_take in Hid.
    destruct (WF_dead_elem id b Hwf Hid) as (j & -> & _). by eexists.
Qed.

Lemma pages_spec b limit n :
  WF b → closed b = false → 0 < limit →
  pages limit n b = take (n * Z.to_nat limit) (dead_jobs b).
Proof.
  intros Hwf Hop Hl. induction n as [|n IH]; [done|]. cbn [pages].
  rewrite IH, ListDead_spec by (done || lia).
  replace (Z.to_nat (Z.of_nat n * limit)) with (n * Z.to_nat limit)%nat by lia.
  replace (S n * Z.to_nat limit)%nat with (n * Z.to_nat limit + Z.to_nat limit)%nat by lia.
  by rewrite take_take_drop.
Qed.

(** Paging through the dead-letter queue: ListDead returns the dead jobs newest first,
    skipping [offset] of them and returning at most [limit]; consecutive pages never overlap
    and never skip a job, so together they are the whole queue. *)
Theorem list_dead_pages b offset limit n :
  reachable b → closed b = false → 0 ≤ offset → 0 < limit →
  ListDead offset limit b = Ok (take (Z.to_nat limit) (drop (Z.to_nat offset) (dead_jobs b))) ∧
  (Z.of_nat (length (dead b)) ≤ Z.of_nat n * limit → pages limit n b = dead_jobs b).
Proof.
  intros Hwf%reachable_WF Hop Ho Hl. split; [by apply ListDead_spec|].
  intros Hn. rewrite pages_spec by done. apply take_ge.
  unfold dead_jobs. rewrite length_fmap, length_reverse. nia.
Qed.

(** The demo broker after its active job is killed, then the other one. *)
Definition demo_dead : Broker :=
  run [(120, OpKill "w" "a" "bad input"); (121, OpDequeue demo_claim); (122, OpKill "w" "b" "bad too")] demo.

Lemma demo_dead_reachable : reachable demo_dead.
Proof. apply reachable_run; [apply demo_reachable|]. vm_compute. split_and!; exact I. Qed.

Lemma list_dead_pages_witness : pages 1 2 demo_dead = dead_jobs demo_dead.
Proof.
  refine (proj2 (list_dead_pages demo_dead 0 1 2 demo_dead_reachable _ _ _) _);
    [vm_compute; reflexivity|lia|lia|vm_compute; discriminate].
Defined.

(** Removing one identifier after the other from the dead-letter list. *)
Lemma remove_first_filter id l :
  NoDup l → remove_first id l = filter (λ x, x ≠ id) l.
Proof.
  induction l as [|x l IH]; intros Hnd; [done|]. apply NoDup_cons in Hnd as [Hx Hnd].
  cbn [remove_first]. rewrite filter_cons. destruct (String.eqb_spec x id) as [->|Hne].
  - rewrite decide_False by (by intros []). symmetry. apply filter_all.
    by intros y Hy ->.
  - rewrite decide_True by done. by rewrite IH.
Qed.

Lemma retry_dead_loop_spec n sel b :
  NoDup sel → NoDup (dead b) → (∀ id, id ∈ sel → is_Some (jobs b !! id)) →
  let '(b', n') := retry_dead_loop n sel b in
  n' = n + Z.of_nat (length sel) ∧
  (∀ id, jobs b' !! id = if decide (id ∈ sel) then replayed <$> jobs b !! id else jobs b !! id) ∧
  (∀ q, pend b' q = pend b q ++ filter (λ id, of_queue b q id = true) sel) ∧
  dead b' = filter (.∉ sel) (dead b).
Proof.
  revert n b. induction sel as [|i sel IH]; intros n b Hnd Hd Hin; cbn [retry_dead_loop].
  { split_and!; [simpl; lia|done|intros q; by rewrite app_nil_r|].
    symmetry. apply filter_all. intros x _. apply not_elem_of_nil. }
  apply NoDup_cons in Hnd as [Hi Hnd]. destruct (Hin i) as [j Hj]; [by left|]. rewrite Hj.
  set (b1 := retry_dead_one i j b).
  assert (∀ id, jobs b1 !! id = if decide (id = i) then Some (replayed j) else jobs b !! id) as Hjobs.
  { intros id. change (jobs b1) with (<[i := replayed j]> (jobs b)). rewrite lookup_insert.
    repeat case_decide; congruence. }
  assert (∀ q, pend b1 q = pend b q ++ (if of_queue b q i then [i] else [])) as Hpend.
  { intros q. unfold b1, retry_dead_one, of_queue. rewrite Hj. unfold pend at 1. simpl.
    rewrite lookup_insert. destruct (String.eqb_spec (Queue j) q) as [<-|Hne].
    - by rewrite decide_True.
    - rewrite decide_False by done. by rewrite app_nil_r. }
  assert (dead b1 = filter (λ x, x ≠ i) (dead b)) as Hdead by by apply remove_first_filter.
  specialize (IH (n + 1) b1 Hnd). destruct (retry_dead_loop (n + 1) sel b1) as [b' n'].
  destruct IH as (-> & H1 & H2 & H3).
  { rewrite Hdead. by apply NoDup_filter. }
  { intros id Hid. rewrite Hjobs. case_decide; [by eexists|]. apply Hin. by right. }
  split_and!.
  - simpl length. lia.
  - intros id. rewrite H1, Hjobs. destruct (decide (id = i)) as [->|Hne].
    + rewrite decide_False by done. rewrite decide_True by (by left). by rewrite Hj.
    + destruct (decide (id ∈ sel)); [by rewrite decide_True by (by right)|].
      by rewrite decide_False by set_solver.
  - intros q. rewrite H2, Hpend, filter_cons, <- app_assoc.
    rewrite (filter_ext_elem _ (of_queue b q)).
    2:{ intros x Hx. unfold of_queue. rewrite Hjobs, decide_False by (by intros ->). done. }
    by destruct (of_queue b q i); case_decide.
  - rewrite H3, Hdead, list_filter_filter. apply list_filter_iff. set_solver.
Qed.

(** Replaying dead jobs is exact: RetryDead, given identifiers without repetition,
    selects those that are in the dead-letter queue (all of it if none is named), gives each
    a fresh attempt budget and appends it to its own queue as pending, removes exactly these
    from the dead-letter queue, and returns how many they are. *)
Theorem retry_dead_exact b ids :
  reachable b → closed b = false → NoDup ids →
  ∃ sel, NoDup sel ∧ (∀ id, id ∈ sel ↔ id ∈ dead b ∧ (ids = [] ∨ id ∈ ids)) ∧
    let '(b', r) := RetryDead ids b in
    r = Ok (Z.of_nat (length sel)) ∧
    (∀ id, jobs b' !! id = if decide (id ∈ sel) then replayed <$> jobs b !! id else jobs b !! id) ∧
    (∀ q, pend b' q = pend b q ++ filter (λ id, of_queue b q id = true) sel) ∧
    dead b' = filter (.∉ sel) (dead b).
Proof.
  intros Hwf%reachable_WF Hop Hnd. destruct (selectDead_ok ids b Hwf Hnd) as [Hsnd Hsel].
  exists (selectDeadLocked ids b). split_and!; [done|done|].
  unfold RetryDead, checkOpen. rewrite Hop.
  pose proof (retry_dead_loop_spec 0 (selectDeadLocked ids b) b Hsnd (wf_dead_nodup _ Hwf)) as H.
  destruct (retry_dead_loop 0 (selectDeadLocked ids b) b) as [b' n].
  destruct H as (-> & H); [|done]. intros id [Hid _]%Hsel.
  destruct (WF_dead_elem id b Hwf Hid) as (j & -> & _). by eexists.
Qed.

Lemma retry_dead_exact_witness :
  ∃ sel, NoDup sel ∧ "a" ∈ sel ∧ (RetryDead ["a"; "z"] demo_dead).2 = Ok (Z.of_nat (length sel)).
Proof.
  destruct (retry_dead_exact demo_dead ["a"; "z"] demo_dead_reachable) as (sel & Hnd & Hsel & H).
  - vm_compute. reflexivity.
  - apply (bool_decide_unpack _). vm_compute. exact I.
  - exists sel. split_and!; [exact Hnd| |].
    + apply Hsel. split; [apply (bool_decide_unpack _); vm_compute; exact I|].
      right. apply list_elem_of_here.
    + destruct (RetryDead ["a"; "z"] demo_dead) as [b' r]. exact (proj1 H).
Defined.

(** What the body of RetryDead leaves of one job. *)
Lemma retry_dead_one_at id j b :
  jobs (retry_dead_one id j b) !! id = Some (replayed j) ∧
  pend (retry_dead_one id j b) (Queue j) = pend b (Queue j) ++ [id] ∧
  closed (retry_dead_one id j b) = closed b.
Proof.
  split_and!; [apply lookup_insert_eq| |done].
  unfold retry_dead_one, pend at 1. simpl. by rewrite lookup_insert_eq.
Qed.

(** RetryDead on an identifier named twice. *)
Lemma retry_dead_twice_spec b id j :
  WF b → closed b = false → jobs b !! id = Some j → State_ j = StateDead →
  let '(b', r) := RetryDead [id; id] b in
  r = Ok 2 ∧ ID j = id ∧ closed b' = false ∧ jobs b' !! id = Some (replayed (replayed j)) ∧
  pend b' (Queue j) = pend b (Queue j) ++ [id; id].
Proof.
  intros Hwf Hop Hj Hs.
  destruct (wf_at _ Hwf id) as [[_ _ _ _ Hd] Hok]. destruct (Hok j Hj) as [Hid _ _ _ _ _ _].
  assert (id ∈ dead b) as Hin by (apply Hd; rewrite Hj; simpl; by rewrite Hs).
  assert (selectDeadLocked [id; id] b = [id; id]) as Hsel.
  { unfold selectDeadLocked. apply filter_all. intros x Hx. rewrite elem_of_list_to_set.
    by assert (x = id) as -> by set_solver. }
  unfold RetryDead, checkOpen. rewrite Hop, Hsel. cbn [retry_dead_loop]. rewrite Hj.
  destruct (retry_dead_one_at id j b) as (H1 & H2 & H3). set (b1 := retry_dead_one id j b) in *.
  rewrite H1. destruct (retry_dead_one_at id (replayed j) b1) as (H4 & H5 & H6).
  set (b2 := retry_dead_one id (replayed j) b1) in *.
  change (Queue (replayed j)) with (Queue j) in H5.
  split_and!; [done|done|congruence|done|]. by rewrite H5, H2, <- app_assoc.
Qed.

(** A claim from a queue whose head is stored, on any broker. *)
Lemma dequeue_any b o now q id ids j :
  closed b = false → WorkerID o ≠ "" → 0 < VisibilityTimeout o → Queues o = [q] →
  pend b q = id :: ids → jobs b !! id = Some j →
  ∃ b', Dequeue o now b = (b', Ok (claim o now j)) ∧ closed b' = false ∧ pend b' q = ids ∧
        jobs b' !! id = Some (claim o now j).
Proof.
  intros Hop Hw Hvt Hq Hp Hj. unfold Dequeue, checkOpen. apply eqb_false_iff in Hw.
  rewrite Hw, bool_decide_eq_false_2, Hop, Hq by lia. simpl. rewrite Hp, Hj, clone_eq.
  eexists. split_and!; [done|done| |simpl; apply lookup_insert_eq].
  unfold pend. simpl. by rewrite lookup_insert_eq.
Qed.

(** The identifiers given to RetryDead are not deduplicated: naming a dead job twice
    counts it twice and puts it twice into its ready queue, so that two workers can both
    claim it and run it at the same time, each without knowing of the other. *)
Theorem retry_dead_twice b id j o1 o2 now :
  reachable b → closed b = false → jobs b !! id = Some j → State_ j = StateDead →
  let q := Queue j in
  WorkerID o1 ≠ "" → 0 < VisibilityTimeout o1 → Queues o1 = [q] →
  WorkerID o2 ≠ "" → 0 < VisibilityTimeout o2 → Queues o2 = [q] →
  let '(b', r) := RetryDead [id; id] b in
  r = Ok 2 ∧ pend b' q = pend b q ++ [id; id] ∧
  (pend b q = [] →
   ∃ b1 b2 j1 j2, Dequeue o1 now b' = (b1, Ok j1) ∧ Dequeue o2 now b1 = (b2, Ok j2) ∧
                  ID j1 = id ∧ ID j2 = id).
Proof.
  intros Hwf%reachable_WF Hop Hj Hs q Hw1 Hv1 Hq1 Hw2 Hv2 Hq2.
  pose proof (retry_dead_twice_spec b id j Hwf Hop Hj Hs) as H.
  destruct (RetryDead [id; id] b) as [b' r]. fold q in H.
  destruct H as (-> & Hid & Hop' & Hj' & Hp'). split_and!; [done|done|].
  intros Hemp. rewrite Hemp in Hp'.
  destruct (dequeue_any b' o1 now q id [id] _ Hop' Hw1 Hv1 Hq1 Hp' Hj')
    as (b1 & Hd1 & Hop1 & Hp1 & Hj1).
  destruct (dequeue_any b1 o2 now q id [] _ Hop1 Hw2 Hv2 Hq2 Hp1 Hj1) as (b2 & Hd2 & _).
  exists b1, b2. eexists _, _. split_and!; [done|done|done|done].
Qed.

Lemma retry_dead_twice_witness :
  let '(b', r) := RetryDead ["a"; "a"] demo_dead in
  r = Ok 2 ∧ pend b' "mail" = pend demo_dead "mail" ++ ["a"; "a"].
Proof.
  assert (jobs demo_dead !! "a" =
    Some (buried "bad input" (claim demo_claim 110 (stored_job "a" 100 demo_job)))) as Hj
    by (vm_compute; reflexivity).
  pose proof (retry_dead_twice demo_dead "a" _
    (mkClaimOpts "w1" ["mail"] 30) (mkClaimOpts "w2" ["mail"] 30) 200 demo_dead_reachable
    ltac:(vm_compute; reflexivity) Hj ltac:(reflexivity) ltac:(discriminate) ltac:(simpl; lia)
    ltac:(reflexivity) ltac:(discriminate) ltac:(simpl; lia) ltac:(reflexivity)) as H.
  destruct (RetryDead ["a"; "a"] demo_dead) as [b' r].
  destruct H as (Hr & Hp & _). split; [exact Hr|exact Hp].
Defined.

Lemma purge_dead_loop_spec n sel b :
  NoDup (dead b) → (∀ id, id ∈ dead b → is_Some (jobs b !! id)) →
  let '(b', n') := purge_dead_loop n sel b in
  n' + Z.of_nat (size (jobs b')) = n + Z.of_nat (size (jobs b)) ∧
  (∀ id, jobs b' !! id = if decide (id ∈ sel) then None else jobs b !! id) ∧
  dead b' = filter (.∉ sel) (dead b) ∧ pending b' = pending b.
Proof.
  revert n b. induction sel as [|i sel IH]; intros n b Hd Hin; cbn [purge_dead_loop].
  { split_and!; try done. symmetry. apply filter_all. intros x _. apply not_elem_of_nil. }
  assert (∀ (o : option Job) id, (id = i → o = None) →
    (if decide (id ∈ i :: sel) then None else o) = (if decide (id ∈ sel) then None else o)) as Hdec.
  { intros o id Ho. destruct (decide (id ∈ sel)); [by rewrite decide_True by (by right)|].
    destruct (decide (id = i)) as [Heq|Hne]; [rewrite Ho by done; by case_decide|].
    by rewrite decide_False by set_solver. }
  destruct (jobs b !! i) as [j|] eqn:Hj.
  - set (b1 := removeDeadLocked i _).
    assert (∀ id, jobs b1 !! id = if decide (id = i) then None else jobs b !! id) as Hjobs.
    { intros id. change (jobs b1) with (delete i (jobs b)). rewrite lookup_delete.
      repeat case_decide; congruence. }
    assert (dead b1 = filter (λ x, x ≠ i) (dead b)) as Hdead by by apply remove_first_filter.
    specialize (IH (n + 1) b1). destruct (purge_dead_loop (n + 1) sel b1) as [b' n'].
    destruct IH as (H1 & H2 & H3 & H4); [rewrite Hdead; by apply NoDup_filter| |split_and!].
    + intros id. rewrite Hdead, list_elem_of_filter, Hjobs. intros [Hne Hid].
      rewrite decide_False by done. by apply Hin.
    + change (jobs b1) with (delete i (jobs b)) in H1. rewrite map_size_delete, Hj in H1.
      assert (size (jobs b) ≠ 0)%nat by (by eapply map_size_ne_0_lookup_2). lia.
    + intros id. rewrite H2, Hjobs. destruct (decide (id = i)) as [->|]; [|by rewrite Hdec].
      rewrite (decide_True (P := i ∈ i :: sel)) by (by left). by destruct (decide _).
    + rewrite H3, Hdead, list_filter_filter. apply list_filter_iff. set_solver.
    + done.
  - specialize (IH n b Hd Hin). destruct (purge_dead_loop n sel b) as [b' n'].
    destruct IH as (H1 & H2 & H3 & H4). split_and!; [done| | |done].
    + intros id. rewrite H2, Hdec; [done|]. by intros ->.
    + rewrite H3. apply filter_iff_elem. intros id Hid. rewrite not_elem_of_cons.
      split; [|by intros []]. intros Hn. split; [|done]. intros ->.
      destruct (Hin i Hid) as [? ?]. congruence.
Qed.

(** Purging dead jobs is exact, repeated identifiers included: PurgeDead deletes the
    named jobs that are in the dead-letter queue (all of it if none is named), for good,
    keeps every other job and the order of the rest of the queue, never touches a ready
    queue, and returns the number of jobs deleted. *)
Theorem purge_dead_exact b ids :
  reachable b → closed b = false →
  let '(b', r) := PurgeDead ids b in
  r = Ok (Z.of_nat (size (jobs b)) - Z.of_nat (size (jobs b'))) ∧
  (∀ id, jobs b' !! id = if decide (id ∈ dead b ∧ (ids = [] ∨ id ∈ ids)) then None else jobs b !! id) ∧
  dead b' = filter (λ id, ¬ (ids = [] ∨ id ∈ ids)) (dead b) ∧
  pending b' = pending b.
Proof.
  intros Hwf%reachable_WF Hop.
  assert (∀ id, id ∈ dead b → is_Some (jobs b !! id)) as Hd.
  { intros id Hid. destruct (WF_dead_elem id b Hwf Hid) as (j & -> & _). by eexists. }
  assert (∀ id, id ∈ selectDeadLocked ids b ↔ id ∈ dead b ∧ (ids = [] ∨ id ∈ ids)) as Hsel.
  { intros id. unfold selectDeadLocked. destruct ids; [naive_solver|].
    rewrite list_elem_of_filter, elem_of_list_to_set. naive_solver. }
  unfold PurgeDead, checkOpen. rewrite Hop.
  pose proof (purge_dead_loop_spec 0 (selectDeadLocked ids b) b (wf_dead_nodup _ Hwf) Hd) as H.
  destruct (purge_dead_loop 0 (selectDeadLocked ids b) b) as [b' n].
  destruct H as (H1 & H2 & H3 & H4). split_and!; [f_equal; lia| | |done].
  - intros id. rewrite H2. apply decide_ext. by rewrite Hsel.
  - rewrite H3. apply filter_iff_elem. intros id Hid. rewrite Hsel. naive_solver.
Qed.

Lemma purge_dead_exact_witness :
  let '(b', r) := PurgeDead ["a"; "a"; "z"] demo_dead in
  r = Ok (Z.of_nat (size (jobs demo_dead)) - Z.of_nat (size (jobs b'))).
Proof.
  pose proof (purge_dead_exact demo_dead ["a"; "a"; "z"] demo_dead_reachable
    ltac:(vm_compute; reflexivity)) as H.
  destruct (PurgeDead ["a"; "a"; "z"] demo_dead) as [b' r]. exact (proj1 H).
Defined.

(** ** Lemmas and properties: statistics *)

Lemma foldl_insert_keys {V} (F : string → V) (l : list string) (s : gmap string V) q :
  foldl (λ s q, <[q := F q]> s) s l !! q = if decide (q ∈ l) then Some (F q) else s !! q.
Proof.
  revert s. induction l as [|k l IH]; intros s; cbn [foldl]; [by rewrite decide_False by set_solver|].
  rewrite IH, lookup_insert. destruct (decide (q ∈ l)); [by rewrite decide_True by (by right)|].
  destruct (decide (k = q)) as [->|]; [by rewrite decide_True by (by left)|].
  by rewrite decide_False by set_solver.
Qed.

(** Bumping a counter for each of a list of jobs. *)
Lemma foldl_bump b f ids s q :
  (∀ x, qs_Queue (f x) = qs_Queue x) →
  (∀ x, s !! q = Some x → qs_Queue x = q) →
  (s !! q = None → ∀ id, id ∈ ids → of_queue b q id = false) →
  foldl (bump b f) s ids !! q =
    Nat.iter (length (filter (λ id, of_queue b q id = true) ids)) f <$> s !! q.
Proof.
  intros Hf. revert s. induction ids as [|i ids IH]; intros s Hq Hnone; cbn [foldl].
  { simpl. by destruct (s !! q). }
  assert (of_queue b q i = true → is_Some (s !! q)) as Hsome.
  { intros Hi. destruct (s !! q) eqn:Hs; [by eexists|]. rewrite Hnone in Hi; [done|done|by left]. }
  assert (bump b f s i !! q = if of_queue b q i then f <$> s !! q else s !! q) as Hb.
  { unfold bump, of_queue in *. destruct (jobs b !! i) as [j|]; [|done].
    destruct (s.[Queue j|zeroQueueStats]) as [n p a sc r] eqn:Hd. rewrite lookup_insert.
    destruct (String.eqb_spec (Queue j) q) as [Heq|Hne]; [|by rewrite decide_False by congruence].
    rewrite decide_True by done. destruct (Hsome eq_refl) as [x Hx]. rewrite Heq, Hx in *.
    simpl in *. specialize (Hq x eq_refl). rewrite Hd in *. simpl in Hq. by rewrite Hq. }
  rewrite IH, Hb, filter_cons.
  - destruct (of_queue b q i); case_decide; try done. simpl. destruct (s !! q); [|done]. simpl.
    by rewrite Nat.iter_swap.
  - intros x. rewrite Hb. destruct (of_queue b q i); [|by apply Hq].
    intros (y & Hy & ->)%fmap_Some. rewrite Hf. by apply Hq.
  - rewrite Hb. intros Hn id Hid. apply Hnone; [|by right].
    destruct (of_queue b q i); [|done]. by apply fmap_None in Hn.
Qed.

(** Counting up from zero never overflows below 2^63. *)
Lemma iter_incActive n q p s r :
  Z.of_nat n < 2 ^ 63 →
  Nat.iter n incActive (mkQueueStats q p 0 s r) = mkQueueStats q p (Z.of_nat n) s r.
Proof.
  intros Hn. induction n as [|n IH]; [done|]. simpl Nat.iter. rewrite IH by lia.
  cbn [incActive]. rewrite !wrap64_id by (unfold int64_range; lia). f_equal; lia.
Qed.

Lemma iter_incScheduled n q p a r :
  Z.of_nat n < 2 ^ 63 →
  Nat.iter n incScheduled (mkQueueStats q p a 0 r) = mkQueueStats q p a (Z.of_nat n) r.
Proof.
  intros Hn. induction n as [|n IH]; [done|]. simpl Nat.iter. rewrite IH by lia.
  cbn [incScheduled]. rewrite !wrap64_id by (unfold int64_range; lia). f_equal; lia.
Qed.

Lemma iter_incRetry n q p a s :
  Z.of_nat n < 2 ^ 63 →
  Nat.iter n incRetry (mkQueueStats q p a s 0) = mkQueueStats q p a s (Z.of_nat n).
Proof.
  intros Hn. induction n as [|n IH]; [done|]. simpl Nat.iter. rewrite IH by lia.
  cbn [incRetry]. rewrite !wrap64_id by (unfold int64_range; lia). f_equal; lia.
Qed.

(** A duplicate-free list of the jobs of a queue in a state counts them. *)
Lemma count_length b q s l :
  NoDup l → (∀ id, id ∈ l ↔ ∃ j, jobs b !! id = Some j ∧ Queue j = q ∧ State_ j = s) →
  Z.of_nat (length l) = count b q s.
Proof.
  intros Hnd Hl. unfold count. f_equal. rewrite <- (length_fmap fst). apply NoDup_same_length.
  - done.
  - apply NoDup_filter_entries.
  - intros id. rewrite Hl, list_elem_of_fmap. setoid_rewrite elem_of_filter_entries. split.
    + intros (j & Hj & H). by exists (id, j).
    + intros ([i j] & -> & H & Hj). by exists j.
Qed.

Lemma count_bound b q s : 0 ≤ count b q s ≤ Z.of_nat (size (jobs b)).
Proof.
  unfold count. split; [lia|]. apply inj_le. rewrite <- length_map_to_list. apply length_filter.
Qed.

(** The members of a queue in one of the three sets, counted. *)
Lemma count_set {V} b (m : gmap string V) q s :
  (∀ id, is_Some (m !! id) ↔ ∃ j, jobs b !! id = Some j ∧ State_ j = s) →
  Z.of_nat (length (filter (λ id, of_queue b q id = true) (map_to_list m).*1)) = count b q s.
Proof.
  intros Hm. apply count_length.
  - apply NoDup_filter, NoDup_fst_map_to_list.
  - intros id. rewrite list_elem_of_filter, list_elem_of_fmap. unfold of_queue. split.
    + intros [Hq ([i v] & -> & Hi%elem_of_map_to_list)]. simpl in *.
      destruct (proj1 (Hm i)) as (j & Hj & Hs); [by rewrite Hi|]. rewrite Hj in Hq.
      exists j. by apply eqb_true_iff in Hq.
    + intros (j & Hj & Hq & Hs). rewrite Hj. split; [by apply eqb_true_iff|].
      destruct (proj2 (Hm id)) as [v Hv]; [by eauto|]. exists (id, v). by rewrite elem_of_map_to_list.
Qed.

(** The jobs in the three sets of a well-formed broker. *)
Lemma WF_sets b id :
  WF b →
  (is_Some (active b !! id) ↔ ∃ j, jobs b !! id = Some j ∧ State_ j = StateActive) ∧
  (is_Some (scheduled b !! id) ↔ ∃ j, jobs b !! id = Some j ∧ State_ j = StateScheduled) ∧
  (is_Some (retry b !! id) ↔ ∃ j, jobs b !! id = Some j ∧ State_ j = StateRetry).
Proof.
  intros Hwf. destruct (jobs b !! id) as [j|] eqn:Hj.
  - destruct (spot_state b id j Hwf Hj) as (H1 & H2 & H3 & _). rewrite H1, H2, H3. naive_solver.
  - destruct (spot_absent b id Hwf Hj) as (-> & -> & -> & _). 
    split_and!; (split; [by intros []|naive_solver]).
Qed.

Lemma of_queue_known b q id : WF b → of_queue b q id = true → q ∈ queues b.
Proof.
  intros Hwf. unfold of_queue. destruct (jobs b !! id) as [j|] eqn:Hj; [|done].
  intros <-%eqb_true_iff. destruct (wf_at _ Hwf id) as [_ Hok]. by destruct (Hok j Hj).
Qed.

(** One of the three counting passes, seen from one queue. *)
Lemma bump_stage b f ids s q x :
  WF b → (∀ y, qs_Queue (f y) = qs_Queue y) →
  s !! q = (if decide (q ∈ queues b) then Some x else None) → qs_Queue x = q →
  foldl (bump b f) s ids !! q =
    if decide (q ∈ queues b)
    then Some (Nat.iter (length (filter (λ id, of_queue b q id = true) ids)) f x) else None.
Proof.
  intros Hwf Hf Hs Hx. rewrite foldl_bump; rewrite ?Hs; [by case_decide|done|..].
  - intros y. case_decide; [|done]. by intros [= <-].
  - case_decide as Hq; [done|]. intros _ id _. destruct (of_queue b q id) eqn:Ho; [|done].
    by apply of_queue_known in Ho.
Qed.

(** The statistics of one queue. *)
Lemma queue_stats_exact b q :
  WF b → Z.of_nat (size (jobs b)) < 2 ^ 63 →
  let s := foldl (λ s q, <[q := mkQueueStats q (Z.of_nat (length (pend b q))) 0 0 0]> s)
    ∅ (elements (queues b)) in
  let s := foldl (bump b incActive) s (map_to_list (active b)).*1 in
  let s := foldl (bump b incScheduled) s (map_to_list (scheduled b)).*1 in
  let s := foldl (bump b incRetry) s (map_to_list (retry b)).*1 in
  s !! q =
    if decide (q ∈ queues b)
    then Some (mkQueueStats q (count b q StatePending) (count b q StateActive)
                 (count b q StateScheduled) (count b q StateRetry))
    else None.
Proof.
  intros Hwf Hsz. cbv zeta.
  set (s0 := foldl _ ∅ _). set (s1 := foldl (bump b incActive) s0 _).
  set (s2 := foldl (bump b incScheduled) s1 _).
  assert (s0 !! q = if decide (q ∈ queues b)
    then Some (mkQueueStats q (count b q StatePending) 0 0 0) else None) as E0.
  { unfold s0. rewrite foldl_insert_keys, lookup_empty.
    rewrite (decide_ext _ (q ∈ queues b)) by apply elem_of_elements.
    rewrite (count_length b q StatePending (pend b q)); [done|apply Hwf|].
    intros id. destruct (wf_at _ Hwf id) as [[Hp _ _ _ _] _]. rewrite Hp.
    destruct (jobs b !! id) as [j|]; simpl; [|naive_solver].
    rewrite andb_true_iff, !eqb_true_iff. naive_solver. }
  pose proof (count_bound b q StateActive). pose proof (count_bound b q StateScheduled).
  pose proof (count_bound b q StateRetry).
  pose proof (count_set b (active b) q StateActive (λ id, proj1 (WF_sets b id Hwf))) as Ca.
  pose proof (count_set b (scheduled b) q StateScheduled
    (λ id, proj1 (proj2 (WF_sets b id Hwf)))) as Cs.
  pose proof (count_set b (retry b) q StateRetry (λ id, proj2 (proj2 (WF_sets b id Hwf)))) as Cr.
  pose proof (bump_stage b incActive (map_to_list (active b)).*1 s0 q _ Hwf
    ltac:(by intros []) E0 eq_refl) as E1.
  rewrite iter_incActive, Ca in E1 by lia.
  pose proof (bump_stage b incScheduled (map_to_list (scheduled b)).*1 s1 q _ Hwf
    ltac:(by intros []) E1 eq_refl) as E2.
  rewrite iter_incScheduled, Cs in E2 by lia.
  pose proof (bump_stage b incRetry (map_to_list (retry b)).*1 s2 q _ Hwf
    ltac:(by intros []) E2 eq_refl) as E3.
  rewrite iter_incRetry, Cr in E3 by lia. exact E3.
Qed.

(** Statistics are exact: on a broker with fewer than 2^63 jobs, Stats reports for
    every queue ever used, and only for these, how many stored jobs of that queue are
    pending, active, scheduled and waiting for a retry, and how many jobs are dead in all,
    so that every stored job is counted under exactly its own queue and state. *)
Theorem stats_exact b now :
  reachable b → closed b = false → Z.of_nat (size (jobs b)) < 2 ^ 63 →
  ∃ st, Stats_ now b = Ok st ∧
    (∀ q, st_Queues st !! q =
       if decide (q ∈ queues b)
       then Some (mkQueueStats q (count b q StatePending) (count b q StateActive)
                    (count b q StateScheduled) (count b q StateRetry))
       else None) ∧
    (∀ q s, 0 < count b q s → q ∈ queues b) ∧
    st_Dead st = Z.of_nat (length (filter (λ e : string * Job, State_ e.2 = StateDead)
      (map_to_list (jobs b)))) ∧
    st_Processed st = processed b ∧ st_Failed st = failed b.
Proof.
  intros Hwf%reachable_WF Hop Hsz. unfold Stats_, checkOpen. rewrite Hop.
  eexists. split; [done|]. cbn [st_Queues st_Dead st_Processed st_Failed].
  split_and!; [| | |done|done].
  - intros q. by apply queue_stats_exact.
  - intros q s Hc. unfold count in Hc.
    destruct (filter _ _) as [|[i j] l] eqn:Hf; [simpl in Hc; lia|].
    assert ((i, j) ∈ (i, j) :: l) as Hin by (by left). rewrite <- Hf in Hin.
    apply elem_of_filter_entries in Hin as [[<- _] Hj].
    destruct (wf_at _ Hwf i) as [_ Hok]. by destruct (Hok j Hj).
  - f_equal. rewrite <- (length_fmap fst (filter _ _)). apply NoDup_same_length.
    + apply Hwf.
    + apply NoDup_filter_entries.
    + intros id. rewrite list_elem_of_fmap. setoid_rewrite elem_of_filter_entries. split.
      * intros (j & Hj & Hs)%WF_dead_elem; [|done]. by exists (id, j).
      * intros ([i j] & -> & Hs & Hj). by apply (spot_state b i j Hwf Hj).
Qed.

Lemma stats_exact_witness :
  ∃ st, Stats_ 200 demo = Ok st ∧ st_Queues st !! "mail" = Some (mkQueueStats "mail" 1 1 0 0).
Proof.
  destruct (stats_exact demo 200 demo_reachable) as (st & Hst & Hq & _);
    [vm_compute; reflexivity|vm_compute; reflexivity|].
  exists st. split; [exact Hst|]. rewrite Hq. vm_compute. reflexivity.
Defined.
