(* ===== verification/MemoryBroker.v ===== *)
(** * The in-memory broker implements the interfaces

    The instances that let the client, the worker and the scheduler run on the
    in-memory broker, with the proofs that it keeps the promises of
    BrokerAPI.v. *)
From S2P Require Import Prelude GoBase Job Backoff Interface BrokerAPI Memory MemoryInv MemorySpec MemoryProps MemoryExclusion MemoryOps.

#[export] Instance memory_broker : BrokerOps Broker := {|
  b_Enqueue := Enqueue;
  b_Dequeue := Dequeue;
  b_Ack w id _ := Ack w id;
  b_Nack w id t r _ := Nack w id t r;
  b_Kill w id r _ := Kill w id r;
  b_Extend := Extend
|}.

#[export] Instance memory_maintenance : MaintenanceOps Broker := {|
  m_Reap := Reap;
  m_Promote := Promote;
  m_Heartbeat := Heartbeat;
  m_AcquireLease := AcquireLease;
  m_ReleaseLease name owner _ := ReleaseLease name owner
|}.

#[export] Instance memory_cron : CronOps Broker := {|
  c_ScheduleCronIfAbsent id t _ := ScheduleCronIfAbsent id t;
  c_DueCron limit now b := (b, DueCron limit now b);
  c_ClaimCron id fired next _ := ClaimCron id fired next;
  c_RemoveCron id _ := RemoveCron id
|}.

(** An open, well-formed broker. *)
Definition open_ok (b : Broker) : Prop := WF b ∧ closed b = false.

Lemma checkOpen_open b : open_ok b → checkOpen b = None.
Proof. intros [_ Hc]. unfold checkOpen. by rewrite Hc. Qed.

Lemma memory_law_enqueue i now j b :
  open_ok b → jobs b !! assigned_id i j = None → assigned_id i j ≠ "" → go_job j → clock_ok now →
  let '(b', j', err) := Enqueue i now (Some j) b in
  match err with
  | Some _ => b' = b
  | None =>
      open_ok b' ∧
      ∃ jf js, j' = Some jf ∧ same_task j jf ∧ ID jf = assigned_id i j ∧
        MaxAttempts jf = (if bool_decide (MaxAttempts j ≤ 0) then DefaultMaxAttempts else MaxAttempts j) ∧
        jobs b' !! ID jf = Some js ∧ same_task jf js ∧ ID js = ID jf ∧
        MaxAttempts js = MaxAttempts jf ∧ Owner js = "" ∧
        (State_ js = StatePending ∨ (State_ js = StateScheduled ∧ now < RunAt j)) ∧
        (State_ js = StatePending → run_ms j ≤ UnixMilli now) ∧
        ∀ id, id ≠ ID jf → jobs b' !! id = jobs b !! id
  end.
Proof.
  intros [Hwf Hop] Hfresh _ _ [Hclk _]. pose proof (Enqueue_spec i now (Some j) b) as HE.
  pose proof (WF_Enqueue i now (Some j) b Hwf Hfresh) as HW.
  pose proof (aux_fields _ _ (exec_jobs_aux now (OpEnqueue i (Some j)) b)) as (Hcl & _). cbn [exec] in Hcl.
  assert (∀ b' j' err, Enqueue i now (Some j) b = (b', j', err) → err = None →
    j' = Some (fill_defaults i now j)) as Hret.
  { unfold Enqueue, checkOpen. intros b' j' err HEq ->. revert HEq.
    repeat (case_match; try done); intros; by simplify_eq. }
  destruct (Enqueue i now (Some j) b) as [[b' j'] err] eqn:HEq. simpl in *.
  specialize (Hret _ _ _ eq_refl). destruct (_ || _); [by destruct HE as [-> [? ->]]|].
  rewrite Hop in HE. destruct (duplicate_of now j b); [by destruct HE as [-> ->]|].
  destruct HE as (-> & Hjobs & _). split; [split; [done|by rewrite Hcl]|].
  destruct (fill_defaults_fields i now j) as (F1 & F2 & F3 & F4 & F5 & F6 & F7 & F8 & F9 & F10).
  set (jf := fill_defaults i now j) in *. exists jf, (stored_job i now j).
  assert (same_task jf (stored_job i now j) ∧ ID (stored_job i now j) = ID jf ∧
    MaxAttempts (stored_job i now j) = MaxAttempts jf ∧ Owner (stored_job i now j) = "" ∧
    State_ (stored_job i now j) = (if After (RunAt j) now then StateScheduled else StatePending))
    as (G1 & G2 & G3 & G4 & G5).
  { unfold stored_job, same_task, run_ms. fold jf. rewrite clone_eq. job_simpl. rewrite F6.
    destruct (After (RunAt j) now); job_simpl; by rewrite F6. }
  rewrite Hjobs, G5. split_and!; try done; try (by apply Hret).
  - unfold same_task, run_ms. by rewrite F2, F3, F6, F7, F9.
  - unfold jf, fill_defaults. destruct (String.eqb (ID j) ""); simpl;
      destruct (bool_decide (MaxAttempts j ≤ 0)); simpl; by destruct (IsZero _).
  - rewrite F1. apply lookup_insert_eq.
  - destruct (After (RunAt j) now) eqn:Ha; [right|by left]. by apply After_spec in Ha.
  - destruct (After (RunAt j) now) eqn:Ha; [done|]. intros _. apply After_false in Ha. unfold run_ms, UnixMilli.
    destruct (IsZero (RunAt j)); [|by apply Z.div_le_mono]. apply Z.div_pos; unfold_durations; lia.
  - intros id Hne. rewrite F1 in Hne. by rewrite lookup_insert_ne.
Qed.

Lemma memory_law_dequeue o now b :
  open_ok b → clock_ok now → VisibilityTimeout o < 2 ^ 63 →
  let '(b', r) := Dequeue o now b in
  match r with
  | Err _ => b' = b
  | Ok j => open_ok b' ∧ jobs b' !! ID j = Some j ∧ State_ j = StateActive ∧ Owner j = WorkerID o ∧
            (∃ j0, jobs b !! ID j = Some j0 ∧ State_ j0 = StatePending) ∧
            ∀ id, id ≠ ID j → jobs b' !! id = jobs b !! id
  end.
Proof.
  intros Hop _ _. pose proof Hop as [Hwf Hcl]. pose proof (WF_Dequeue o now b Hwf) as HW.
  pose proof (aux_fields _ _ (proj1 (exec_jobs_aux now (OpDequeue o) b))) as (Hc & _). cbn [exec] in Hc.
  revert HW Hc. unfold Dequeue. rewrite checkOpen_open by done.
  destruct (String.eqb _ _); [done|]. case_bool_decide; [done|]. rewrite dequeue_loop_spec by done.
  destruct (first_ready b (Queues o)) as [[q id]|] eqn:Hfr; [|done].
  destruct (jobs b !! id) as [j|] eqn:Hj; [|done]. intros HW Hc.
  destruct (wf_at _ Hwf id) as [_ Hok]. destruct (Hok j Hj) as [Hid _ _ _ _ _ _].
  split; [split; [exact HW|exact (eq_trans Hc Hcl)]|].
  change (ID (claim o now j)) with (ID j). rewrite Hid. split_and!; try done.
  - apply lookup_insert_eq.
  - exists j. split; [done|]. destruct (first_ready_Some _ _ _ _ Hfr) as (qs1 & qs2 & ids & _ & _ & Hp).
    destruct (WF_pending_head _ _ _ _ Hwf Hp) as (_ & _ & j' & Hj' & Hs & _). congruence.
  - intros id' Hne. by apply lookup_insert_ne.
Qed.

(** Reports: the fencing check, and what the specification says of success. *)
Lemma memory_report_fenced w id b :
  open_ok b →
  (∃ j, ownedActive w id b = Ok j ∧ jobs b !! id = Some j ∧ holds (λ b, (jobs b !!.)) b w id) ∨
  (∃ err, ownedActive w id b = Err err ∧ ¬ holds (λ b, (jobs b !!.)) b w id).
Proof.
  intros _. destruct (ownedActive w id b) as [j|err] eqn:Ho.
  - left. exists j. apply ownedActive_Ok in Ho as (Hj & Hs & Hw). split_and!; try done. by exists j.
  - right. exists err. split; [done|]. intros (j & H). apply ownedActive_Ok in H. congruence.
Qed.

Lemma memory_law_ack w id b :
  open_ok b →
  let '(b', err) := Ack w id b in
  match err with
  | Some _ => ¬ holds (λ b, (jobs b !!.)) b w id ∧ b' = b
  | None => holds (λ b, (jobs b !!.)) b w id ∧ open_ok b' ∧
            (∀ j, jobs b' !! id = Some j → State_ j = StateCompleted) ∧
            ∀ id', id' ≠ id → jobs b' !! id' = jobs b !! id'
  end.
Proof.
  intros Hop. pose proof Hop as [Hwf Hcl]. pose proof (WF_Ack w id b Hwf) as HW. revert HW.
  unfold Ack. rewrite checkOpen_open by done.
  destruct (memory_report_fenced w id b Hop) as [(j & Ho & Hj & Hh)|(err & -> & Hh)]; [|done].
  rewrite Ho. apply ownedActive_Ok in Ho as (_ & Hs & _). rewrite Hs. simpl. intros HW.
  split_and!; try done; [intros j'; simpl; by rewrite lookup_delete_eq|]. intros id' Hne. by apply lookup_delete_ne.
Qed.

Lemma memory_law_nack w id t r b :
  open_ok b →
  let '(b', err) := Nack w id t r b in
  match err with
  | Some _ => ¬ holds (λ b, (jobs b !!.)) b w id ∧ b' = b
  | None => holds (λ b, (jobs b !!.)) b w id ∧ open_ok b' ∧
            (∃ j j', jobs b !! id = Some j ∧ jobs b' !! id = Some j' ∧ same_task j j' ∧
               Attempt j' = Attempt j ∧ MaxAttempts j' = MaxAttempts j ∧
               LastErr j' = r ∧ Owner j' = "" ∧
               State_ j' = (if Exhausted j then StateDead else StateRetry)) ∧
            ∀ id', id' ≠ id → jobs b' !! id' = jobs b !! id'
  end.
Proof.
  intros Hop. pose proof Hop as [Hwf Hcl]. pose proof (WF_Nack w id t r b Hwf) as HW. revert HW.
  unfold Nack. rewrite checkOpen_open by done.
  destruct (memory_report_fenced w id b Hop) as [(j & Ho & Hj & Hh)|(err & -> & Hh)]; [|done].
  rewrite Ho. change (Exhausted (set_LastErr r (set_Owner "" j))) with (Exhausted j).
  destruct (Exhausted j) eqn:He; unfold moveToDeadLocked; simpl; intros HW; (split_and!; try done;
    [exists j; eexists; rewrite lookup_insert_eq, He; split_and!; done
    |intros id' Hne; by apply lookup_insert_ne]).
Qed.

Lemma memory_law_kill w id r b :
  open_ok b →
  let '(b', err) := Kill w id r b in
  match err with
  | Some _ => ¬ holds (λ b, (jobs b !!.)) b w id ∧ b' = b
  | None => holds (λ b, (jobs b !!.)) b w id ∧ open_ok b' ∧
            (∃ j j', jobs b !! id = Some j ∧ jobs b' !! id = Some j' ∧ same_task j j' ∧
               Attempt j' = Attempt j ∧ MaxAttempts j' = MaxAttempts j ∧
               LastErr j' = r ∧ Owner j' = "" ∧ State_ j' = StateDead) ∧
            ∀ id', id' ≠ id → jobs b' !! id' = jobs b !! id'
  end.
Proof.
  intros Hop. pose proof Hop as [Hwf Hcl]. pose proof (WF_Kill w id r b Hwf) as HW. revert HW.
  unfold Kill. rewrite checkOpen_open by done.
  destruct (memory_report_fenced w id b Hop) as [(j & Ho & Hj & Hh)|(err & -> & Hh)]; [|done].
  rewrite Ho. unfold moveToDeadLocked; simpl; intros HW. split_and!; try done.
  - exists j. eexists. rewrite lookup_insert_eq. split_and!; done.
  - intros id' Hne. by apply lookup_insert_ne.
Qed.

Lemma memory_law_extend w ids vt now b :
  open_ok b → 0 < vt < 2 ^ 63 → clock_ok now →
  let '(b', r) := Extend w ids vt now b in
  ∃ lost, r = Ok lost ∧ open_ok b' ∧
    (∀ id, id ∈ lost ↔ id ∈ ids ∧ ¬ holds (λ b, (jobs b !!.)) b w id) ∧
    ∀ id, (holds (λ b, (jobs b !!.)) b w id → id ∈ ids →
             jobs b' !! id = set_Deadline (now + vt) <$> jobs b !! id) ∧
          (¬ holds (λ b, (jobs b !!.)) b w id ∨ id ∉ ids → jobs b' !! id = jobs b !! id).
Proof.
  intros Hop [Hvt _] _. pose proof Hop as [Hwf Hcl]. pose proof (WF_Extend w ids vt now b Hwf) as HW.
  pose proof (aux_fields _ _ (proj1 (exec_jobs_aux now (OpExtend w ids vt) b))) as (Hc & _).
  cbn [exec] in Hc. revert HW Hc.
  unfold Extend. rewrite checkOpen_open, bool_decide_eq_false_2 by (done || lia).
  pose proof (extend_loop_spec w (Add now vt) ids [] b) as H.
  destruct (extend_loop w (Add now vt) ids [] b) as [b' lost]. destruct H as [Hlost H].
  rewrite app_nil_l in Hlost. intros HW Hc. simpl in HW, Hc.
  exists lost. split_and!; [done|split; [done|by rewrite Hc]| |].
  - intros id. rewrite Hlost, list_elem_of_filter.
    change (holds (λ b, (jobs b !!.)) b w id) with (owned_by b w id).
    rewrite <- ownedActive_dec, not_true_iff_false. naive_solver.
  - intros id. destruct (H id) as [-> _].
    change (holds (λ b, (jobs b !!.)) b w id) with (owned_by b w id).
    rewrite <- ownedActive_dec, not_true_iff_false. split.
    + intros -> Hid. by rewrite bool_decide_eq_true_2.
    + intros [-> |Hid]; [done|]. by rewrite bool_decide_eq_false_2, andb_false_r.
Qed.

Lemma memory_law_valid i now j b :
  open_ok b → (Enqueue i now (Some j) b).2 = None → Queue j ≠ "" ∧ Type_ j ≠ "".
Proof.
  intros _. unfold Enqueue.
  destruct (String.eqb_spec (Queue j) ""); [done|]. by destruct (String.eqb_spec (Type_ j) "").
Qed.

Lemma memory_law_lease now vt : clock_ok now → 0 < vt → now + vt - 2 * Millisecond < now + vt ≤ now + vt.
Proof. unfold_durations. lia. Qed.

#[export] Instance memory_laws : BrokerLaws Broker := {|
  law_inv := open_ok;
  job_at := λ b id, jobs b !! id;
  lease_deadline := Z.add;
  law_lease := memory_law_lease;
  law_enqueue := memory_law_enqueue;
  law_enqueue_valid := memory_law_valid;
  law_dequeue := memory_law_dequeue;
  law_ack w id _ := memory_law_ack w id;
  law_nack w id t r _ := memory_law_nack w id t r;
  law_kill w id r _ := memory_law_kill w id r;
  law_extend := memory_law_extend
|}.

(** ** Cron *)

Lemma DueCron_spec limit now b :
  closed b = false → 0 < limit →
  ∃ all, DueCron limit now b = Ok (take (Z.to_nat limit) all) ∧
    Sorted (by_key (λ d, (due_FireAt d, due_ID d))) all ∧ NoDup (due_ID <$> all) ∧
    ∀ d, d ∈ all ↔ cron b !! due_ID d = Some (due_FireAt d) ∧ due_FireAt d ≤ now.
Proof.
  intros Hop Hl. unfold DueCron, checkOpen. rewrite Hop, bool_decide_eq_false_2 by lia.
  set (l := _ <$> filter _ _). exists (merge_sort (by_key (λ d, (due_FireAt d, due_ID d))) l).
  split_and!.
  - case_bool_decide; [done|]. by rewrite take_ge by lia.
  - apply Sorted_merge_sort, _.
  - rewrite merge_sort_Permutation. unfold l. rewrite <- list_fmap_compose. apply NoDup_filter_entries.
  - intros d. rewrite merge_sort_Permutation. unfold l. rewrite list_elem_of_fmap.
    setoid_rewrite elem_of_filter_entries. setoid_rewrite After_false. split.
    + intros (e & -> & Hle & He). done.
    + intros [Hd Hle]. exists (due_ID d, due_FireAt d). by destruct d.
Qed.

(** An open broker. *)
Definition is_open (b : Broker) : Prop := closed b = false.

Lemma memory_law_due limit now b :
  is_open b → 0 < limit → clock_ok now →
  ∃ due, DueCron limit now b = Ok due ∧ is_open b ∧ (∀ id, cron b !! id = cron b !! id) ∧
    ∀ d, d ∈ due → cron b !! due_ID d = Some (due_FireAt d) ∧ due_FireAt d ≤ now ∧ due_FireAt d = due_FireAt d.
Proof.
  intros Hop Hl _. destruct (DueCron_spec limit now b Hop Hl) as (all & -> & _ & _ & Hall).
  eexists. split_and!; try done. intros d Hd%subseteq_take. apply Hall in Hd as [? ?]. done.
Qed.

Lemma memory_law_claim id fired next b :
  is_open b → id ≠ "" → fired = fired →
  let '(b', r) := ClaimCron id fired next b in
  if decide (cron b !! id = Some fired)
  then r = Ok true ∧ cron b' !! id = Some next ∧
       (∀ id', id' ≠ id → cron b' !! id' = cron b !! id') ∧ is_open b'
  else r = Ok false ∧ b' = b.
Proof.
  unfold is_open. intros Hop _ _. unfold ClaimCron, checkOpen. rewrite Hop.
  destruct (cron b !! id) as [t|] eqn:Ht; [|by rewrite decide_False].
  destruct (Equal t fired) eqn:He; simpl.
  - apply Equal_spec in He as ->. rewrite decide_True by done.
    split_and!; [done|apply lookup_insert_eq| |done].
    intros id' Hne. by apply lookup_insert_ne.
  - rewrite decide_False; [done|]. intros [= ->]. by rewrite (proj2 (Equal_spec fired fired)) in He.
Qed.

Lemma memory_law_schedule id t b :
  is_open b → id ≠ "" →
  let '(b', r) := ScheduleCronIfAbsent id t b in
  match cron b !! id with
  | Some _ => r = Ok false ∧ b' = b
  | None => r = Ok true ∧ cron b' !! id = Some t ∧
            (∀ id', id' ≠ id → cron b' !! id' = cron b !! id') ∧ is_open b'
  end.
Proof.
  unfold is_open. intros Hop Hid. apply eqb_false_iff in Hid.
  unfold ScheduleCronIfAbsent, checkOpen. rewrite Hid, Hop.
  destruct (cron b !! id) as [u|] eqn:Ht; [done|].
  split_and!; [done|apply lookup_insert_eq| |done]. intros id' Hne. by apply lookup_insert_ne.
Qed.

Lemma memory_law_stored t : t - Millisecond < t ≤ t.
Proof. unfold_durations. lia. Qed.

#[export] Instance memory_cron_laws : CronLaws Broker := {|
  cron_inv := is_open;
  fire_time := λ b id, cron b !! id;
  stored_time := λ t, t;
  law_stored := memory_law_stored;
  law_due := memory_law_due;
  law_claim id fired next _ b Hop Hid Hst _ := memory_law_claim id fired next b Hop Hid Hst;
  law_schedule id t _ b Hop Hid _ := memory_law_schedule id t b Hop Hid
|}.

Lemma memory_law_enqueue_cron i now j b :
  is_open b → let b' := (Enqueue i now j b).1.1 in is_open b' ∧ ∀ id, cron b' !! id = cron b !! id.
Proof.
  intros Hop. pose proof (aux_fields _ _ (exec_jobs_aux now (OpEnqueue i j) b)) as (Hc & Hcr & _).
  cbn [exec] in Hc, Hcr. split; [exact (eq_trans Hc Hop)|]. intros id. by rewrite Hcr.
Qed.

#[export] Instance memory_scheduler_laws : SchedulerLaws Broker := {|
  law_enqueue_cron := memory_law_enqueue_cron
|}.

(** ** Properties *)

(** The entries DueCron returns are the stored cron entries whose fire time has come,
    each once, ordered by fire time with ties by identifier, cut to the limit. *)
Theorem due_cron_exact b limit now :
  closed b = false → 0 < limit →
  ∃ all, DueCron limit now b = Ok (take (Z.to_nat limit) all) ∧
    Sorted (by_key (λ d, (due_FireAt d, due_ID d))) all ∧ NoDup (due_ID <$> all) ∧
    ∀ d, d ∈ all ↔ cron b !! due_ID d = Some (due_FireAt d) ∧ due_FireAt d ≤ now.
Proof. apply DueCron_spec. Qed.

Lemma due_cron_exact_witness :
  ∃ all, DueCron 5 600 (exec 1 (OpScheduleCronIfAbsent "daily" 500) New) = Ok (take 5 all) ∧
         mkDueCronEntry "daily" 500 ∈ all.
Proof.
  destruct (due_cron_exact (exec 1 (OpScheduleCronIfAbsent "daily" 500) New) 5 600)
    as (all & Heq & _ & _ & Hall); [reflexivity|lia|].
  exists all. split; [exact Heq|]. apply Hall. split; [vm_compute; reflexivity|simpl; lia].
Defined.
