(* ===== verification/Client.v ===== *)
(** * Producing jobs and routing them (client.go, handler.go, job.go)

    The client turns tasks into jobs and hands them to any broker that
    implements the interface; the registry routes jobs to handlers. A panic is a
    value of its own. [json.Marshal] and the handlers, which are user code, are
    parameters. *)
From Stdlib Require Import Strings.Byte.
From S2P Require Import Prelude GoBase Job Backoff Interface BrokerAPI.

(** ** Tasks (job.go) *)

Record Task := mkTask { t_Type : string; t_Payload : option (list byte) }.

(** [NewTask(taskType, payload)], [payload] being nil or a value of a type [A]
    that [Marshal] encodes. *)
Definition NewTask {A} (Marshal : A → res (list byte)) (taskType : string) (payload : option A)
  : res Task :=
  if String.eqb taskType ""
  then Err (Errorf "taskq: %w: task type is empty" [] [Sentinel ErrInvalidTask])
  else match payload with
  | None => Ok (mkTask taskType None)
  | Some p =>
      match Marshal p with
      | Err err => Err (Errorf "taskq: marshal payload for task %q: %w" [taskType] [err])
      | Ok b => Ok (mkTask taskType (Some b))
      end
  end.

(** ** The client (client.go) *)

Definition DefaultQueue : string := "default".

(** The client's settings; the broker is the state the operations run on. *)
Record Client := mkClient {
  defaultQueue : string;
  defaultMaxAttempts : Z
}.

Definition ClientOption : Type := Client → Client.
Definition WithDefaultQueue (q : string) : ClientOption := λ c, mkClient q (defaultMaxAttempts c).
Definition WithDefaultMaxAttempts (n : Z) : ClientOption := λ c, mkClient (defaultQueue c) n.

Definition NewClient (opts : list ClientOption) : Client :=
  foldl (λ c opt, opt c) (mkClient DefaultQueue DefaultMaxAttempts) opts.

(** Options of one enqueue; [Delay] reads the clock, [now], when it is applied. *)
Definition EnqueueOption : Type := Z → Job → Job.
Definition OptQueue (name : string) : EnqueueOption := λ _ j, set_Queue name j.
Definition OptMaxAttempts (n : Z) : EnqueueOption := λ _ j, set_MaxAttempts n j.
Definition Delay (d : Z) : EnqueueOption := λ now j, set_RunAt (Add now d) j.
Definition At (t : Z) : EnqueueOption := λ _ j, set_RunAt t j.
Definition Unique (key : string) (ttl : Z) : EnqueueOption := λ _ j, set_Unique key ttl j.

(** The job Enqueue builds before it calls the broker. *)
Definition build_job (c : Client) (now : Z) (task : Task) (opts : list EnqueueOption) : Job :=
  let j := mkJob "" (defaultQueue c) (t_Type task) (t_Payload task) 0 (defaultMaxAttempts c) 0 "" ""
             "" 0 "" zeroTime zeroTime zeroTime zeroTime in
  foldl (λ j opt, opt now j) j opts.

Section client.
Context {S : Type} `{BrokerOps S}.

(** [(c *Client) Enqueue]: the new broker state, and the job or the error. *)
Definition Client_Enqueue (c : Client) (NewID : string) (now : Z) (task : option Task)
  (opts : list EnqueueOption) (s : S) : S * res Job :=
  match task with
  | None => (s, Err (Errorf "%w: nil task" [] [Sentinel ErrInvalidTask]))
  | Some task =>
      let j := build_job c now task opts in
      match b_Enqueue NewID now (Some j) s with
      | (s, _, Some err) => (s, Err err)
      | (s, Some j, None) => (s, Ok j)
      | (s, None, None) => (s, Ok j)
      end
  end.

Definition EnqueueTask {A} (Marshal : A → res (list byte)) (c : Client) (NewID : string) (now : Z)
  (taskType : string) (payload : option A) (opts : list EnqueueOption) (s : S) : S * res Job :=
  match NewTask Marshal taskType payload with
  | Err err => (s, Err err)
  | Ok task => Client_Enqueue c NewID now (Some task) opts s
  end.
End client.

(** ** The registry (handler.go) *)

(** The registry; its lock only serialises the calls. *)
Record Mux (Handler : Type) := mkMux { handlers : gmap string Handler }.
Arguments mkMux {Handler} handlers.
Arguments handlers {Handler} m.

Definition NewMux {Handler} : Mux Handler := mkMux ∅.

Section mux.
(** [Handler] values, and what running one on a job does. *)
Context {Handler R : Type} (Process : Handler → Job → R) (Fail : error → R).

(** [Handle] with a possibly nil handler. *)
Definition Handle (taskType : string) (h : option Handler) (m : Mux Handler)
  : may_panic (Mux Handler) :=
  if String.eqb taskType "" then Panic "taskq: Handle called with an empty task type"
  else match h with
  | None => Panic ("taskq: Handle called with a nil handler for type " +:+ taskType)
  | Some h =>
      match handlers m !! taskType with
      | Some _ => Panic ("taskq: duplicate handler registration for task type " +:+ taskType)
      | None => Done (mkMux (<[taskType := h]> (handlers m)))
      end
  end.

(** Registrations in a row, stopping at the first panic. *)
Fixpoint handle_all (regs : list (string * option Handler)) (m : Mux Handler)
  : may_panic (Mux Handler) :=
  match regs with
  | [] => Done m
  | (t, h) :: regs => match Handle t h m with Done m => handle_all regs m | Panic e => Panic e end
  end.

Definition Mux_ProcessTask (m : Mux Handler) (j : Job) : R :=
  match handlers m !! Type_ j with
  | None => Fail (Errorf "%w for task type %q" [Type_ j] [Sentinel ErrNoHandler])
  | Some h => Process h j
  end.

(** The registered types, in the order the map is ranged over. *)
Definition Types (m : Mux Handler) : list string := (map_to_list (handlers m)).*1.
End mux.

(** ** What options ask for *)

(** The options by name, and the value an option gives to each setting. *)
Inductive client_setting := SetQueue (q : string) | SetMaxAttempts (n : Z).
Definition as_client_option (o : client_setting) : ClientOption :=
  match o with SetQueue q => WithDefaultQueue q | SetMaxAttempts n => WithDefaultMaxAttempts n end.
Definition default_queue_of (o : client_setting) : option string := match o with SetQueue q => Some q | _ => None end.
Definition default_attempts_of (o : client_setting) : option Z := match o with SetMaxAttempts n => Some n | _ => None end.

Inductive job_setting :=
| AskQueue (name : string) | AskMaxAttempts (n : Z) | AskDelay (d : Z) | AskAt (t : Z) | AskUnique (key : string) (ttl : Z).
Definition as_option (o : job_setting) : EnqueueOption :=
  match o with
  | AskQueue name => OptQueue name
  | AskMaxAttempts n => OptMaxAttempts n
  | AskDelay d => Delay d
  | AskAt t => At t
  | AskUnique key ttl => Unique key ttl
  end.
Definition queue_of (o : job_setting) : option string := match o with AskQueue q => Some q | _ => None end.
Definition attempts_of (o : job_setting) : option Z := match o with AskMaxAttempts n => Some n | _ => None end.
Definition run_of (now : Z) (o : job_setting) : option Z :=
  match o with AskDelay d => Some (now + d) | AskAt t => Some t | _ => None end.
Definition unique_of (o : job_setting) : option (string * Z) := match o with AskUnique k ttl => Some (k, ttl) | _ => None end.

(** The last value given, or the default. *)
Definition last_of {O A} (value : O → option A) (d : A) (os : list O) : A := default d (last (omap value os)).

(** ** Lemmas *)

(** A field that each option either sets or keeps has the last value given. *)
Lemma foldl_last {O J A} (app : O → J → J) (get : J → A) (value : O → option A) j os :
  (∀ o j, get (app o j) = default (get j) (value o)) →
  get (foldl (λ j o, app o j) j os) = last_of value (get j) os.
Proof.
  intros Happ. unfold last_of. induction os as [|o os IH] using rev_ind; [done|].
  rewrite foldl_app, omap_app. cbn [foldl omap list_omap]. rewrite Happ, IH.
  destruct (value o); [by rewrite last_snoc|by rewrite app_nil_r].
Qed.

Lemma NewClient_fields cs :
  let c := NewClient (as_client_option <$> cs) in
  defaultQueue c = last_of default_queue_of DefaultQueue cs ∧
  defaultMaxAttempts c = last_of default_attempts_of DefaultMaxAttempts cs.
Proof.
  cbv zeta. unfold NewClient. rewrite foldl_fmap.
  split; [rewrite (foldl_last as_client_option _ default_queue_of)|rewrite (foldl_last as_client_option _ default_attempts_of)];
    first [done|by intros []].
Qed.

Lemma build_job_fields c now task gs :
  let j := build_job c now task (as_option <$> gs) in
  ID j = "" ∧ Type_ j = t_Type task ∧ Payload j = t_Payload task ∧
  Queue j = last_of queue_of (defaultQueue c) gs ∧ MaxAttempts j = last_of attempts_of (defaultMaxAttempts c) gs ∧
  RunAt j = last_of (run_of now) zeroTime gs ∧ (UniqueKey j, UniqueTTL j) = last_of unique_of ("", 0) gs.
Proof.
  cbv zeta. unfold build_job. rewrite foldl_fmap. set (j0 := mkJob _ _ _ _ _ _ _ _ _ _ _ _ _ _ _ _).
  pose proof (λ A (get : Job → A) value, foldl_last (λ g, as_option g now) get value j0 gs) as HF.
  assert (∀ (A : Type) (get : Job → A), (∀ o j, get (as_option o now j) = get j) →
    get (foldl (λ j g, as_option g now j) j0 gs) = get j0) as HK.
  { intros A get Hk. rewrite (HF A get (λ _, None)) by done. unfold last_of.
    assert (omap (λ _ : job_setting, @None A) gs = []) as -> by (clear; by induction gs). done. }
  split_and!; [refine (HK _ ID _)|refine (HK _ Type_ _)|refine (HK _ Payload _)|refine (HF _ Queue queue_of _)
    |refine (HF _ MaxAttempts attempts_of _)|refine (HF _ RunAt (run_of now) _)
    |refine (HF _ (λ j, (UniqueKey j, UniqueTTL j)) unique_of _)]; by intros [] ?.
Qed.

Lemma Client_Enqueue_lawful {S} `{BrokerLaws S} c i now task opts (s : S) :
  let j := build_job c now task opts in
  law_inv s → job_at s (assigned_id i j) = None → assigned_id i j ≠ "" → go_job j → clock_ok now →
  let '(s', r) := Client_Enqueue c i now (Some task) opts s in
  match r with
  | Err _ => s' = s
  | Ok jf =>
      law_inv s' ∧ same_task j jf ∧ ID jf = assigned_id i j ∧ Queue jf ≠ "" ∧ Type_ jf ≠ "" ∧
      ∃ js, job_at s' (ID jf) = Some js ∧ same_task jf js ∧ ID js = ID jf ∧
        MaxAttempts jf = (if bool_decide (MaxAttempts j ≤ 0) then DefaultMaxAttempts else MaxAttempts j) ∧
        MaxAttempts js = MaxAttempts jf ∧
        (State_ js = StatePending ∨ (State_ js = StateScheduled ∧ now < RunAt j)) ∧
        (State_ js = StatePending → run_ms j ≤ UnixMilli now) ∧
        ∀ id, id ≠ ID jf → job_at s' id = job_at s id
  end.
Proof.
  intros j Hinv Hfresh Hne Hgo Hclk. unfold Client_Enqueue. fold j.
  pose proof (law_enqueue i now j s Hinv Hfresh Hne Hgo Hclk) as HE.
  pose proof (law_enqueue_valid i now j s Hinv) as HV.
  destruct (b_Enqueue i now (Some j) s) as [[s' j'] [err|]]; [by destruct j'|].
  destruct HE as (Hinv' & jf & js & -> & Hst & Hid & Hm & Hjs & Hst' & Hid' & Hm' & Ho & Hs & Hrun & Hsame).
  destruct (HV eq_refl) as [Hq Ht]. pose proof Hst as (Eq & Et & _).
  split_and!; try done; [by rewrite Eq|by rewrite Et|]. by exists js.
Qed.

Lemma handle_all_spec {Handler} (regs : list (string * option Handler)) (m : Mux Handler) :
  match handle_all regs m with
  | Done m' =>
      Forall (λ e, e.1 ≠ "" ∧ is_Some e.2 ∧ handlers m !! e.1 = None) regs ∧ NoDup regs.*1 ∧
      ∀ t, handlers m' !! t = match (list_to_map regs : gmap string (option Handler)) !! t with
                     | Some h => h
                     | None => handlers m !! t
                     end
  | Panic _ => ¬ (Forall (λ e, e.1 ≠ "" ∧ is_Some e.2 ∧ handlers m !! e.1 = None) regs ∧ NoDup regs.*1)
  end.
Proof.
  revert m. induction regs as [|[t h] regs IH]; intros m; simpl.
  { split_and!; [done|constructor|]. intros t. by rewrite lookup_empty. }
  unfold Handle. destruct (String.eqb_spec t "") as [->|Ht].
  { simpl. intros [Hf _]. by apply Forall_cons in Hf as [[Hn _] _]. }
  destruct h as [h|].
  2:{ intros [Hf _]. apply Forall_cons in Hf as [(_ & [? ?] & _) _]. done. }
  destruct (handlers m !! t) as [h'|] eqn:Hm.
  { intros [Hf _]. apply Forall_cons in Hf as [(_ & _ & Hn) _]. simpl in Hn. congruence. }
  assert (Forall (λ e : string * option Handler, e.1 ≠ "" ∧ is_Some e.2 ∧ <[t:=h]> (handlers m) !! e.1 = None) regs ↔
          Forall (λ e, e.1 ≠ "" ∧ is_Some e.2 ∧ handlers m !! e.1 = None) regs ∧ t ∉ regs.*1) as Hext.
  { rewrite !Forall_forall. split.
    - intros H. split.
      + intros e He. destruct (H e He) as (? & ? & Hn). apply lookup_insert_None in Hn as [? ?]. done.
      + intros (e & -> & He)%list_elem_of_fmap. destruct (H e He) as (_ & _ & Hn).
        by rewrite lookup_insert_eq in Hn.
    - intros [H Hnin] e He. destruct (H e He) as (? & ? & ?). split_and!; try done.
      rewrite lookup_insert_ne; [done|]. intros ->. apply Hnin. by apply list_elem_of_fmap_2. }
  set (m1 := mkMux (<[t:=h]> (handlers m))). specialize (IH m1). destruct (handle_all regs m1) as [m'|e].
  - destruct IH as (H1 & H2 & H3). apply Hext in H1 as [H1 Hnin]. split_and!.
    + constructor; [|done]. split_and!; [done|by eexists|done].
    + by constructor.
    + intros t'. rewrite H3. destruct (decide (t = t')) as [<-|Hne].
      * rewrite (not_elem_of_list_to_map_1 (M := gmap string) regs t) by done.
        simpl. by rewrite !lookup_insert_eq.
      * simpl. by rewrite !lookup_insert_ne.
  - intros [Hf Hnd]. apply IH. apply NoDup_cons in Hnd as [Hnin Hnd].
    apply Forall_cons in Hf as [_ Hf]. split; [|done]. by apply Hext.
Qed.

(** ** Properties *)

(** C23: the producer's contract, for every broker that keeps its promises. The broker is asked
    to store the task's type and payload under no identifier yet, with the queue, the attempt
    budget, the run time and the unique key and its time to live that the options give, the
    last one of a kind counting, and otherwise with the client's defaults, no run time and no
    unique key; a delay counts from the clock reading. The client returns what the broker
    answers: an error, as it is, or the job. In the latter case the broker has stored exactly
    one new job, under the new identifier, with all of that, an attempt budget of zero or
    less replaced by the default, pending if its run time has come and scheduled if it is
    still to come. Nothing is claimed of the broker after an error, which may be ambiguous.
    A nil task is refused as invalid without asking the broker. *)
Theorem client_enqueue_contract {S} `{BrokerLaws S} cs i now task gs (s : S) :
  let c := NewClient (as_client_option <$> cs) in
  let opts := as_option <$> gs in
  let queue := last_of queue_of (last_of default_queue_of DefaultQueue cs) gs in
  let attempts := last_of attempts_of (last_of default_attempts_of DefaultMaxAttempts cs) gs in
  let runAt := last_of (run_of now) zeroTime gs in
  let unique := last_of unique_of ("", 0) gs in
  law_inv s → job_at s i = None → i ≠ "" → clock_ok now →
  attempts ≤ 2 ^ 53 → runAt = zeroTime ∨ 0 ≤ UnixMilli runAt ≤ 2 ^ 53 →
  (∃ err, Client_Enqueue c i now None opts s = (s, Err err) ∧ Is err ErrInvalidTask = true) ∧
  ∃ j, ID j = "" ∧ Type_ j = t_Type task ∧ Payload j = t_Payload task ∧ Queue j = queue ∧ MaxAttempts j = attempts ∧
    RunAt j = runAt ∧ (UniqueKey j, UniqueTTL j) = unique ∧
    match b_Enqueue i now (Some j) s, Client_Enqueue c i now (Some task) opts s with
    | (s1, _, Some err), (s', r) => s' = s1 ∧ r = Err err
    | (s1, oj, None), (s', r) =>
        s' = s1 ∧ law_inv s' ∧ queue ≠ "" ∧ t_Type task ≠ "" ∧
        ∃ jf js, oj = Some jf ∧ r = Ok jf ∧ ID jf = i ∧ job_at s' i = Some js ∧ ID js = i ∧
          Queue js = queue ∧ Type_ js = t_Type task ∧ default [] (Payload js) = default [] (t_Payload task) ∧
          UniqueKey js = unique.1 ∧ run_ms js = run_ms j ∧
          MaxAttempts js = (if bool_decide (attempts ≤ 0) then DefaultMaxAttempts else attempts) ∧
          (State_ js = StatePending ∨ (State_ js = StateScheduled ∧ now < runAt)) ∧
          (State_ js = StatePending → run_ms j ≤ UnixMilli now) ∧
          ∀ id, id ≠ i → job_at s' id = job_at s id
    end.
Proof.
  intros c opts queue attempts runAt unique Hinv Hfresh Hi Hclk Hmax Hrun. split; [by eexists|].
  destruct (NewClient_fields cs) as [Hcq Hca]. fold c in Hcq, Hca.
  destruct (build_job_fields c now task gs) as (F1 & F2 & F3 & F4 & F5 & F6 & F7). fold opts in F1, F2, F3, F4, F5, F6, F7.
  set (j := build_job c now task opts) in *. rewrite Hcq in F4. rewrite Hca in F5.
  change (Queue j = queue) in F4. change (MaxAttempts j = attempts) in F5. change (RunAt j = runAt) in F6.
  change ((UniqueKey j, UniqueTTL j) = unique) in F7.
  exists j. split_and!; try done. assert (assigned_id i j = i) as Hid by (unfold assigned_id; by rewrite F1).
  assert (go_job j) as Hgo by (split; [by rewrite F5|by rewrite F6]).
  pose proof (Client_Enqueue_lawful c i now task opts s) as HL. cbv zeta in HL. fold j in HL. rewrite Hid in HL.
  specialize (HL Hinv Hfresh Hi Hgo Hclk). pose proof (law_enqueue i now j s Hinv) as HE. rewrite Hid in HE.
  specialize (HE Hfresh Hi Hgo Hclk). unfold Client_Enqueue in *. fold j in HL |- *.
  destruct (b_Enqueue i now (Some j) s) as [[s1 oj] [err|]]; [by destruct oj|]. destruct HE as (_ & jf & js & -> & _).
  destruct HL as (Hinv' & Hst & Hjf & Hq & Ht & js' & Hjs & Hst' & Hid' & Hm & Hm' & Hs & Hp & Ho).
  pose proof (same_task_trans _ _ _ Hst Hst') as (E1 & E2 & E3 & E4 & E5). destruct Hst as (Q1 & Q2 & _).
  rewrite Hjf in *. split_and!; [done|done|congruence|congruence|]. exists jf, js'.
  split_and!; try done; try congruence.
  - rewrite E5. by rewrite <- F7.
  - by rewrite Hm', Hm, F5.
Qed.

(** The registry routes exactly: registering a list of handlers succeeds if and only if
    every type is named, every handler is there and no type comes twice (anything else
    panics), and afterwards a job is processed by the handler registered for its type, and
    by no other; a type nobody registered fails with ErrNoHandler. *)
Theorem mux_routes {Handler R} (Process : Handler → Job → R) (Fail : error → R)
  (regs : list (string * option Handler)) :
  let registrable := Forall (λ e, e.1 ≠ "" ∧ is_Some e.2) regs ∧ NoDup regs.*1 in
  match handle_all regs NewMux with
  | Done m =>
      registrable ∧
      ∀ j, (∀ h, (Type_ j, Some h) ∈ regs → Mux_ProcessTask Process Fail m j = Process h j) ∧
           (Type_ j ∉ regs.*1 →
              ∃ err, Mux_ProcessTask Process Fail m j = Fail err ∧ Is err ErrNoHandler = true) ∧
           (Type_ j ∈ Types m ↔ Type_ j ∈ regs.*1)
  | Panic _ => ¬ registrable
  end.
Proof.
  cbv zeta. pose proof (handle_all_spec regs NewMux) as HS.
  assert (Forall (λ e : string * option Handler, e.1 ≠ "" ∧ is_Some e.2 ∧ handlers (NewMux (Handler := Handler)) !! e.1 = None) regs ↔
          Forall (λ e, e.1 ≠ "" ∧ is_Some e.2) regs) as Hext.
  { rewrite !Forall_forall. simpl. setoid_rewrite lookup_empty. naive_solver. }
  destruct (handle_all regs NewMux) as [m|e]; [|by rewrite <- Hext].
  destruct HS as (Hf & Hnd & Hm). apply Hext in Hf. split; [done|]. intros j.
  assert (∀ h, (Type_ j, h) ∈ regs → handlers m !! Type_ j = h) as Hreg.
  { intros h Hin. rewrite Hm. by rewrite (elem_of_list_to_map_1 (M := gmap string) regs (Type_ j) h). }
  assert (Type_ j ∉ regs.*1 → handlers m !! Type_ j = None) as Hno.
  { intros Hnin. rewrite Hm, (not_elem_of_list_to_map_1 (M := gmap string)) by done. apply lookup_empty. }
  unfold Mux_ProcessTask. split_and!.
  - intros h Hin. by rewrite (Hreg (Some h)).
  - intros Hnin. rewrite Hno by done. by eexists.
  - unfold Types. rewrite list_elem_of_fmap. split.
    + intros ([t h] & Heq & Hin%elem_of_map_to_list). simpl in Heq. subst t.
      destruct (decide (Type_ j ∈ regs.*1)) as [|Hn]; [done|]. rewrite Hno in Hin by done. done.
    + intros ([t h] & Heq & Hin)%list_elem_of_fmap. simpl in Heq. subst t.
      pose proof (proj1 (Forall_forall _ _) Hf _ Hin) as [_ [h' Hh]]. simpl in Hh. subst h.
      exists (Type_ j, h'). split; [done|]. apply elem_of_map_to_list. by apply (Hreg (Some h')).
Qed.
