(* ===== verification/Calendar.v ===== *)
(** * The civil calendar of time.Time in UTC

    The fields [time.Time] computes from an instant (year, month, day, weekday,
    hour, minute), and [time.Date] and [AddDate] as the cron package uses them,
    in UTC on the proleptic Gregorian calendar. Internally years start in March,
    so that a leap day is the last day of its year and the months have a fixed
    layout. *)
From S2P Require Import Prelude GoBase.

(** ** Definitions *)

Definition Day : Z := 24 * Hour.

(** 1 March of year 0, counted from 1 January 1970. *)
Definition epochShift : Z := 719468.

(** The first day of a year that starts in March, counted from 1 March of year 0:
    every fourth year is a leap year, except every hundredth, except every
    four-hundredth. *)
Definition yearStart (y : Z) : Z := 365 * y + y / 4 - y / 100 + y / 400.

(** The March-based year a day falls in: a proportional estimate, off by at most
    one year. *)
Definition marchYear (z : Z) : Z :=
  let y := 400 * z / 146097 in
  if bool_decide (z < yearStart y) then y - 1
  else if bool_decide (yearStart (y + 1) ≤ z) then y + 1 else y.

(** The first day of a month (0 is March) within its year: 31, 30, 31, 30, 31
    days, over and over. *)
Definition monthStart (mp : Z) : Z := (153 * mp + 2) / 5.

(** The civil date of a day number (0 is 1 January 1970). *)
Definition civil (z : Z) : Z * Z * Z :=
  let z := z + epochShift in
  let y := marchYear z in
  let doy := z - yearStart y in
  let mp := (5 * doy + 2) / 153 in
  let m := if bool_decide (mp < 10) then mp + 3 else mp - 9 in
  (if bool_decide (m ≤ 2) then y + 1 else y, m, doy - monthStart mp + 1).

(** The day number of a date, whose month and day may be out of range: months
    carry into years, days count from the first of the month. *)
Definition days (y m d : Z) : Z :=
  let y := y + (m - 1) / 12 in
  let m := (m - 1) mod 12 + 1 in
  let y := if bool_decide (m ≤ 2) then y - 1 else y in
  yearStart y + monthStart (if bool_decide (m ≤ 2) then m + 9 else m - 3) + (d - 1) - epochShift.

(** The accessors of [time.Time]. *)
Definition dayNumber (t : Z) : Z := t / Day.
Definition t_Year (t : Z) : Z := (civil (dayNumber t)).1.1.
Definition t_Month (t : Z) : Z := (civil (dayNumber t)).1.2.
Definition t_Day (t : Z) : Z := (civil (dayNumber t)).2.
Definition t_Weekday (t : Z) : Z := (dayNumber t + 4) mod 7.
Definition t_Hour (t : Z) : Z := (t mod Day) / Hour.
Definition t_Minute (t : Z) : Z := (t mod Hour) / Minute.

(** [time.Date(y, m, d, hour, 0, 0, 0, UTC)]. *)
Definition Date (y m d hour : Z) : Z := days y m d * Day + hour * Hour.

(** [t.AddDate(0, months, ds)] of an instant on the hour: the date with that many
    more months and days, normalised. *)
Definition AddDate (t months ds : Z) : Z :=
  Date (t_Year t) (t_Month t + months) (t_Day t + ds) (t_Hour t).

(** [t.Truncate(d)] for a unit that divides a day. *)
Definition Truncate (t d : Z) : Z := t - t mod d.

(** The civil month (1 is January) of a March-based one, and its year. *)
Definition civilMonth (mp : Z) : Z := if bool_decide (mp < 10) then mp + 3 else mp - 9.
Definition civilYear (y mp : Z) : Z := if bool_decide (mp < 10) then y else y + 1.

(** ** Lemmas: years and months *)

Lemma yearStart_step y : 365 ≤ yearStart (y + 1) - yearStart y ≤ 366.
Proof.
  unfold yearStart.
  replace (y / 400) with (y / 4 / 25 / 4) by (rewrite !Z.div_div by lia; reflexivity).
  replace (y / 100) with (y / 4 / 25) by (rewrite !Z.div_div by lia; reflexivity).
  replace ((y + 1) / 400) with ((y + 1) / 4 / 25 / 4) by (rewrite !Z.div_div by lia; reflexivity).
  replace ((y + 1) / 100) with ((y + 1) / 4 / 25) by (rewrite !Z.div_div by lia; reflexivity).
  Z.to_euclidean_division_equations; lia.
Qed.

Lemma yearStart_mono a b : a ≤ b → yearStart a ≤ yearStart b.
Proof.
  intros H. replace b with (a + (b - a)) by lia. generalize (Z.to_nat (b - a)), (Z2Nat.id (b - a)).
  intros n Hn. rewrite <- Hn by lia. clear. induction n as [|n IH]; [by rewrite Z.add_0_r|].
  pose proof (yearStart_step (a + Z.of_nat n)). replace (a + Z.of_nat (S n)) with (a + Z.of_nat n + 1) by lia.
  lia.
Qed.

Lemma marchYear_bounds z : yearStart (marchYear z) ≤ z < yearStart (marchYear z + 1).
Proof.
  unfold marchYear, yearStart. cbv zeta.
  pose proof (Z.div_mod (400 * z) 146097 ltac:(lia)).
  pose proof (Z.mod_pos_bound (400 * z) 146097 ltac:(lia)).
  set (y := 400 * z / 146097) in *. clearbody y.
  repeat case_bool_decide; Z.to_euclidean_division_equations; lia.
Qed.

Lemma marchYear_unique z y : yearStart y ≤ z < yearStart (y + 1) → marchYear z = y.
Proof.
  intros Hy. pose proof (marchYear_bounds z) as Hz.
  destruct (Z.lt_trichotomy (marchYear z) y) as [H|[H|H]]; [|done|].
  - pose proof (yearStart_mono (marchYear z + 1) y). lia.
  - pose proof (yearStart_mono (y + 1) (marchYear z)). lia.
Qed.

Lemma monthOf_bounds doy :
  0 ≤ doy < 366 →
  let mp := (5 * doy + 2) / 153 in
  0 ≤ mp ≤ 11 ∧ monthStart mp ≤ doy < monthStart (mp + 1).
Proof. intros H mp. unfold mp, monthStart. Z.to_euclidean_division_equations; lia. Qed.

Lemma monthOf_unique doy mp :
  0 ≤ mp ≤ 11 → monthStart mp ≤ doy < monthStart (mp + 1) → (5 * doy + 2) / 153 = mp.
Proof. unfold monthStart. intros. Z.to_euclidean_division_equations; lia. Qed.

Lemma monthStart_bounds mp :
  0 ≤ mp ≤ 11 → 0 ≤ monthStart mp ≤ 337 ∧ 28 ≤ monthStart (mp + 1) - monthStart mp ≤ 31.
Proof. unfold monthStart. intros. Z.to_euclidean_division_equations; lia. Qed.

(** A day and its date, in March-based terms. *)
Lemma civil_spec z :
  ∃ y mp, 0 ≤ mp ≤ 11 ∧
    yearStart y ≤ z + epochShift < yearStart (y + 1) ∧
    yearStart y + monthStart mp ≤ z + epochShift < yearStart y + monthStart (mp + 1) ∧
    civil z = (civilYear y mp, civilMonth mp,
               z + epochShift - (yearStart y + monthStart mp) + 1).
Proof.
  pose proof (marchYear_bounds (z + epochShift)) as Hy.
  pose proof (yearStart_step (marchYear (z + epochShift))) as Hs.
  exists (marchYear (z + epochShift)), ((5 * (z + epochShift - yearStart (marchYear (z + epochShift))) + 2) / 153).
  unfold civil. cbv zeta. set (y := marchYear (z + epochShift)) in *. clearbody y.
  set (doy := z + epochShift - yearStart y).
  destruct (monthOf_bounds doy) as [Hm Hd]; [unfold doy; lia|].
  set (mp := (5 * doy + 2) / 153) in *. clearbody mp. fold (civilMonth mp).
  split_and!; try lia. f_equal; [f_equal|].
  - unfold civilYear, civilMonth. repeat case_bool_decide; lia.
  - lia.
Qed.

Lemma civil_unique z y mp :
  0 ≤ mp ≤ 11 → yearStart y ≤ z + epochShift < yearStart (y + 1) →
  yearStart y + monthStart mp ≤ z + epochShift < yearStart y + monthStart (mp + 1) →
  civil z = (civilYear y mp, civilMonth mp, z + epochShift - (yearStart y + monthStart mp) + 1).
Proof.
  intros Hm Hy Hz. unfold civil. cbv zeta. rewrite (marchYear_unique _ _ Hy).
  rewrite (monthOf_unique _ mp) by lia. fold (civilMonth mp). f_equal; [f_equal|].
  - unfold civilYear, civilMonth. repeat case_bool_decide; lia.
  - lia.
Qed.

(** The day number of a date of a month given in March-based terms. *)
Lemma days_march y mp d :
  0 ≤ mp ≤ 11 →
  days (civilYear y mp) (civilMonth mp) d = yearStart y + monthStart mp + (d - 1) - epochShift.
Proof.
  intros Hm. unfold days, civilYear, civilMonth. cbv zeta.
  destruct (bool_decide_reflect (mp < 10)).
  - rewrite Z.div_small, Z.mod_small by lia. rewrite !bool_decide_eq_false_2 by lia.
    repeat f_equal; lia.
  - rewrite Z.div_small, Z.mod_small by lia. rewrite !bool_decide_eq_true_2 by lia.
    repeat f_equal; lia.
Qed.

(** The first day of the month after a month given in March-based terms. *)
Lemma days_next_month y mp :
  0 ≤ mp ≤ 11 →
  days (civilYear y mp) (civilMonth mp + 1) 1 =
    (if bool_decide (mp = 11) then yearStart (y + 1) else yearStart y + monthStart (mp + 1)) - epochShift.
Proof.
  intros Hm. destruct (bool_decide_reflect (mp = 11)) as [->|].
  - change (days (civilYear y 11) (civilMonth 11 + 1) 1) with (days (civilYear (y + 1) 0) (civilMonth 0) 1).
    rewrite days_march by lia. change (monthStart 0) with 0. lia.
  - destruct (decide (mp = 9)) as [->|].
    + change (civilMonth 9 + 1) with 13. change (civilYear y 9) with y. unfold days. cbv zeta.
      change ((13 - 1) / 12) with 1. change ((13 - 1) mod 12 + 1) with 1.
      rewrite !bool_decide_eq_true_2 by lia. replace (y + 1 - 1) with y by lia.
      change (1 + 9) with (9 + 1). lia.
    + replace (civilYear y mp) with (civilYear y (mp + 1))
        by (unfold civilYear; repeat case_bool_decide; lia).
      replace (civilMonth mp + 1) with (civilMonth (mp + 1))
        by (unfold civilMonth; repeat case_bool_decide; lia).
      rewrite days_march by lia. lia.
Qed.

(** ** Lemmas: what the cron search relies on *)

(** Dates are in range, and convert back to the day they came from. *)
Lemma civil_days z :
  let '(y, m, d) := civil z in 1 ≤ m ≤ 12 ∧ 1 ≤ d ≤ 31 ∧ days y m d = z.
Proof.
  destruct (civil_spec z) as (y & mp & Hm & Hy & Hz & ->).
  rewrite days_march by done. pose proof (monthStart_bounds mp Hm).
  split_and!; try lia; unfold civilMonth; case_bool_decide; lia.
Qed.

(** All days from [z] to the first of the next month share the month of [z]. *)
Lemma next_month_spec z :
  let '(y, m, d) := civil z in
  let first := days y m 1 in
  let next := days y (m + 1) 1 in
  civil first = (y, m, 1) ∧ z < next ∧ ∀ z', z ≤ z' < next → (civil z').1.2 = m.
Proof.
  destruct (civil_spec z) as (y & mp & Hm & Hy & Hz & ->).
  pose proof (monthStart_bounds mp Hm) as [H1 H2]. pose proof (yearStart_step y) as H3.
  cbv zeta. rewrite days_march, days_next_month by done.
  assert (yearStart y + monthStart (mp + 1) ≤ yearStart (y + 1) ∨ mp = 11) as H4.
  { destruct (decide (mp = 11)); [by right|]. left.
    pose proof (monthStart_bounds (mp + 1) ltac:(lia)). lia. }
  split_and!.
  - rewrite (civil_unique _ y mp) by lia. f_equal. lia.
  - case_bool_decide; lia.
  - intros z' Hz'. rewrite (civil_unique z' y mp); [done|lia|..].
    + case_bool_decide; [lia|]. destruct H4; lia.
    + case_bool_decide; [|lia]. subst mp.
      change (monthStart (11 + 1)) with 367 in *. change (monthStart 11) with 337 in *. lia.
Qed.
