(* ===== verification/Schedule.v ===== *)
(** * When a cron schedule fires next (internal/cron/cron.go)

    The parsed schedule, the day rule and the search [Next] makes, in UTC. *)
From S2P Require Import Prelude GoBase Calendar.

(** ** Definitions *)

Record Schedule := mkSchedule {
  minute : Z;
  hour : Z;
  dom : Z;
  month : Z;
  dow : Z;
  domStar : bool;
  dowStar : bool;
  every : Z
}.

#[export] Instance Schedule_eq_dec : EqDecision Schedule.
Proof. solve_decision. Defined.

(** [searchLimit]: 5 * 365 days. *)
Definition searchLimit : Z := 5 * 365 * 24 * Hour.

(** [mask&(1<<v) != 0] on 64-bit words. *)
Definition bitSet (mask v : Z) : bool :=
  if bool_decide (v > 63) then false
  else negb (bool_decide (Z.land mask (wrapu64 (Z.shiftl 1 v)) = 0)).

Definition dayMatches (s : Schedule) (t : Z) : bool :=
  let domOK := bitSet (dom s) (t_Day t) in
  let dowOK := bitSet (dow s) (t_Weekday t) in
  if domStar s && dowStar s then true
  else if domStar s then dowOK
  else if dowStar s then domOK
  else domOK || dowOK.

(** One iteration of the search: the instant to look at next, or the result. *)
Definition next_step (s : Schedule) (limit t : Z) : Z + Z :=
  if negb (Before t limit) then inr zeroTime
  else if negb (bitSet (month s) (t_Month t)) then
    inl (AddDate (Date (t_Year t) (t_Month t) 1 0) 1 0)
  else if negb (dayMatches s t) then
    inl (AddDate (Date (t_Year t) (t_Month t) (t_Day t) 0) 0 1)
  else if negb (bitSet (hour s) (t_Hour t)) then
    inl (Add (Date (t_Year t) (t_Month t) (t_Day t) (t_Hour t)) Hour)
  else if negb (bitSet (minute s) (t_Minute t)) then inl (Add t Minute)
  else inr t.

(** The most iterations the search can make: one per minute up to the limit, and
    the one that ends it. *)
Definition searchSteps : positive := 2628001.

(** [Next] with at most [fuel] iterations of its loop: [None] if they do not suffice. *)
Definition Next_within (fuel : positive) (s : Schedule) (t : Z) : option Z :=
  if bool_decide (every s > 0) then Some (Add t (every s))
  else
    let t := Add (Truncate t Minute) Minute in
    let limit := Add t searchLimit in
    match loop fuel (next_step s limit) t with
    | inr r => Some r
    | inl _ => None
    end.

(** The result, as its callers use it. A search that did not end would give [t] itself here,
    which is never the answer; [next_first] shows that every search ends. *)
Definition Next (s : Schedule) (t : Z) : Z := default t (Next_within searchSteps s t).

(** The whole minutes at which the schedule fires. *)
Definition fires_at (s : Schedule) (u : Z) : bool :=
  bool_decide (u mod Minute = 0) && bitSet (month s) (t_Month u) && dayMatches s u &&
  bitSet (hour s) (t_Hour u) && bitSet (minute s) (t_Minute u).

(** No firing from [a] up to, and not including, [b]. *)
Definition quiet (s : Schedule) (a b : Z) : Prop := ∀ u, a ≤ u < b → fires_at s u = false.

(** ** Lemmas *)

Lemma bitSet_spec mask v : 0 ≤ v → bitSet mask v = bool_decide (v ≤ 63) && Z.testbit mask v.
Proof.
  intros Hv. unfold bitSet. destruct (bool_decide_reflect (v > 63)).
  { by rewrite bool_decide_eq_false_2 by lia. }
  rewrite (bool_decide_eq_true_2 (v ≤ 63)) by lia. simpl. rewrite wrapu64_id.
  2:{ rewrite Z.shiftl_mul_pow2, Z.mul_1_l by lia. split; [lia|]. apply Z.pow_lt_mono_r; lia. }
  rewrite Z.shiftl_mul_pow2, Z.mul_1_l by lia.
  destruct (Z.testbit mask v) eqn:Hb.
  - rewrite bool_decide_eq_false_2; [done|]. intros H0.
    assert (Z.testbit (Z.land mask (2 ^ v)) v = true) as H.
    { by rewrite Z.land_spec, Hb, Z.pow2_bits_true. }
    by rewrite H0, Z.bits_0 in H.
  - rewrite bool_decide_eq_true_2; [done|]. apply Z.bits_inj'. intros k Hk.
    rewrite Z.land_spec, Z.bits_0. destruct (decide (k = v)) as [->|]; [by rewrite Hb|].
    by rewrite Z.pow2_bits_false, andb_false_r by lia.
Qed.

(** Day, hour and minute of an instant, as divisions. *)
Lemma clock_spec t :
  t = dayNumber t * Day + t_Hour t * Hour + t_Minute t * Minute + t mod Minute ∧
  0 ≤ t_Hour t < 24 ∧ 0 ≤ t_Minute t < 60 ∧ 0 ≤ t mod Minute < Minute.
Proof.
  unfold dayNumber, t_Hour, t_Minute, Day. unfold_durations.
  replace (24 * (60 * (60 * (1000 * 1000000)))) with 86400000000000 by lia.
  replace (60 * (60 * (1000 * 1000000))) with 3600000000000 by lia.
  replace (60 * (1000 * 1000000)) with 60000000000 by lia.
  Z.to_euclidean_division_equations; lia.
Qed.

(** Midnight of the day, and the start of the hour, of an instant. *)
Lemma Date_of_day t h :
  Date (t_Year t) (t_Month t) (t_Day t) h = dayNumber t * Day + h * Hour.
Proof.
  unfold Date, t_Year, t_Month, t_Day. pose proof (civil_days (dayNumber t)) as H.
  destruct (civil (dayNumber t)) as [[y m] d]. simpl. by destruct H as (_ & _ & ->).
Qed.

Lemma dayNumber_midnight z h : 0 ≤ h < 24 → dayNumber (z * Day + h * Hour) = z ∧ t_Hour (z * Day + h * Hour) = h.
Proof.
  intros Hh. unfold dayNumber, t_Hour, Day. unfold_durations.
  replace (24 * (60 * (60 * (1000 * 1000000)))) with 86400000000000 by lia.
  replace (60 * (60 * (1000 * 1000000))) with 3600000000000 by lia.
  split; Z.to_euclidean_division_equations; lia.
Qed.

(** Date arithmetic on a midnight. *)
Lemma AddDate_midnight z months ds :
  AddDate (z * Day) months ds =
    let '(y, m, d) := civil z in days y (m + months) (d + ds) * Day.
Proof.
  unfold AddDate, t_Year, t_Month, t_Day.
  destruct (dayNumber_midnight z 0 ltac:(lia)) as [Hd Hh].
  rewrite Z.mul_0_l, Z.add_0_r in Hd, Hh. rewrite Hd, Hh.
  destruct (civil z) as [[y m] d]. unfold Date. simpl. lia.
Qed.

(** Whole days, and the order of instants. *)
Lemma dayNumber_order t n :
  (dayNumber t < n ↔ t < n * Day) ∧ (∀ u, t ≤ u → dayNumber t ≤ dayNumber u) ∧
  (n * Day) mod Minute = 0.
Proof.
  unfold dayNumber. assert (0 < Day) as HD by done. split_and!.
  - pose proof (Z.mul_div_le t Day HD). pose proof (Z.mul_succ_div_gt t Day HD). nia.
  - intros u Hu. by apply Z.div_le_mono.
  - replace (n * Day) with (n * (24 * 60) * Minute) by (unfold Day, Hour; lia). by apply Z.mod_mul.
Qed.

(** The jump to the first of the next month. *)
Lemma month_jump t :
  let t' := AddDate (Date (t_Year t) (t_Month t) 1 0) 1 0 in
  t < t' ∧ t' mod Minute = 0 ∧ ∀ u, t ≤ u < t' → t_Month u = t_Month t.
Proof.
  cbv zeta. unfold Date. rewrite Z.mul_0_l, Z.add_0_r, AddDate_midnight.
  unfold t_Year, t_Month. pose proof (next_month_spec (dayNumber t)) as H.
  destruct (civil (dayNumber t)) as [[y m] d] eqn:Hc. cbn [fst snd] in *.
  destruct H as (-> & Hlt & Hsame). rewrite Z.add_0_r. set (n := days y (m + 1) 1) in *.
  destruct (dayNumber_order t n) as (Ho & Hmono & Hmin).
  split_and!; [by apply Ho|done|]. intros u [Htu Hun].
  apply Hsame. split; [by apply Hmono|]. by apply (dayNumber_order u n).
Qed.

(** The jump to the next midnight. *)
Lemma day_jump t :
  let t' := AddDate (Date (t_Year t) (t_Month t) (t_Day t) 0) 0 1 in
  t < t' ∧ t' mod Minute = 0 ∧ ∀ u, t ≤ u < t' → dayNumber u = dayNumber t.
Proof.
  cbv zeta. rewrite Date_of_day, Z.mul_0_l, Z.add_0_r, AddDate_midnight.
  pose proof (civil_days (dayNumber t)) as H.
  destruct (civil (dayNumber t)) as [[y m] d]. destruct H as (_ & _ & H).
  replace (days y (m + 0) (d + 1)) with (dayNumber t + 1)
    by (rewrite Z.add_0_r; unfold days in *; cbv zeta in *; lia).
  destruct (dayNumber_order t (dayNumber t + 1)) as (Ho & Hmono & Hmin).
  split_and!; [apply Ho; lia|done|]. intros u [Htu Hun].
  apply (dayNumber_order u (dayNumber t + 1)) in Hun. specialize (Hmono u Htu). lia.
Qed.

(** The jump to the next whole hour. *)
Lemma hour_jump t :
  let t' := Add (Date (t_Year t) (t_Month t) (t_Day t) (t_Hour t)) Hour in
  t < t' ∧ t' mod Minute = 0 ∧
  ∀ u, t ≤ u < t' → dayNumber u = dayNumber t ∧ t_Hour u = t_Hour t.
Proof.
  cbv zeta. rewrite Date_of_day. unfold Add. pose proof (clock_spec t) as (Ht & Hh & Hm & Hs).
  split_and!.
  - unfold_durations. lia.
  - replace (dayNumber t * Day + t_Hour t * Hour + Hour)
      with ((dayNumber t * (24 * 60) + t_Hour t * 60 + 60) * Minute) by (unfold Day, Hour; lia).
    by apply Z.mod_mul.
  - intros u Hu. pose proof (clock_spec u) as (Hu' & Hh' & Hm' & Hs').
    assert (dayNumber u * 24 + t_Hour u = dayNumber t * 24 + t_Hour t); [|lia].
    unfold Day in *. unfold_durations. lia.
Qed.

(** The next minute. *)
Lemma minute_jump t :
  t mod Minute = 0 → (t + Minute) mod Minute = 0 ∧
  ∀ u, t ≤ u < t + Minute → u mod Minute = 0 → u = t.
Proof.
  intros Ht. assert (0 < Minute) as HM by done. split.
  - replace (t + Minute) with (t + 1 * Minute) by lia. by rewrite Z.mod_add.
  - intros u Hu Hum. apply Z.mod_divide in Ht as [a ->]; [|done].
    apply Z.mod_divide in Hum as [c ->]; [|done].
    generalize dependent Minute. intros M HM Hu. assert (c = a) as -> by nia. done.
Qed.

(** Firing depends on the month, the day, the hour and the minute. *)
Lemma fires_at_false s u :
  bitSet (month s) (t_Month u) = false ∨ dayMatches s u = false ∨
  bitSet (hour s) (t_Hour u) = false ∨ bitSet (minute s) (t_Minute u) = false →
  fires_at s u = false.
Proof. unfold fires_at. intros [-> |[-> |[-> | ->]]]; by rewrite ?andb_false_r. Qed.

Lemma dayMatches_same_day s t u : dayNumber u = dayNumber t → dayMatches s u = dayMatches s t.
Proof. unfold dayMatches, t_Day, t_Weekday. by intros ->. Qed.

(** One iteration moves forward over instants at which the schedule is quiet. *)
Lemma next_step_spec s limit t :
  t mod Minute = 0 → t < limit →
  match next_step s limit t with
  | inl t' => t < t' ∧ t' mod Minute = 0 ∧ quiet s t t'
  | inr r => r = t ∧ fires_at s t = true
  end.
Proof.
  intros Ht Hlim. unfold next_step. rewrite (proj2 (Before_spec t limit) Hlim). cbn [negb].
  destruct (bitSet (month s) (t_Month t)) eqn:Hmo; cbn [negb].
  2:{ destruct (month_jump t) as (H1 & H2 & H3). split_and!; [done|done|].
      intros u Hu. apply fires_at_false. left. by rewrite H3. }
  destruct (dayMatches s t) eqn:Hda; cbn [negb].
  2:{ destruct (day_jump t) as (H1 & H2 & H3). split_and!; [done|done|].
      intros u Hu. apply fires_at_false. right. left. by rewrite (dayMatches_same_day s t) by auto. }
  destruct (bitSet (hour s) (t_Hour t)) eqn:Hho; cbn [negb].
  2:{ destruct (hour_jump t) as (H1 & H2 & H3). split_and!; [done|done|].
      intros u Hu. apply fires_at_false. right. right. left. by destruct (H3 u Hu) as [_ ->]. }
  destruct (bitSet (minute s) (t_Minute t)) eqn:Hmi; cbn [negb].
  - split; [done|]. unfold fires_at. by rewrite Hmo, Hda, Hho, Hmi, bool_decide_eq_true_2.
  - destruct (minute_jump t Ht) as [H1 H2]. unfold Add. split_and!; [unfold_durations; lia|done|].
    intros u Hu. destruct (decide (u mod Minute = 0)) as [Hum|Hum].
    + rewrite (H2 u Hu Hum). apply fires_at_false. auto.
    + unfold fires_at. by rewrite bool_decide_eq_false_2.
Qed.

(** What the search has found: the first firing from [t0], or none before [limit]. *)
Definition found (s : Schedule) (t0 limit r : Z) : Prop :=
  (fires_at s r = true ∧ t0 ≤ r < limit ∧ quiet s t0 r) ∨ (r = zeroTime ∧ quiet s t0 limit).

(** Instants on the minute are a whole minute apart. *)
Lemma minutes_apart a b : a mod Minute = 0 → b mod Minute = 0 → a < b → a + Minute ≤ b.
Proof.
  intros Ha Hb Hab. apply Z.mod_divide in Ha as [x ->]; [|done].
  apply Z.mod_divide in Hb as [y ->]; [|done]. assert (0 < Minute) by done.
  generalize dependent Minute. intros M Hlt HM. assert (x + 1 ≤ y) by nia. nia.
Qed.

(** The search ends within its bound, in the right result. *)
Lemma search_ends s t0 :
  t0 mod Minute = 0 →
  let limit := t0 + searchLimit in
  ∃ r, loop searchSteps (next_step s limit) t0 = inr r ∧ found s t0 limit r.
Proof.
  intros H0 limit. assert (0 < Minute) as HM by done.
  assert (limit mod Minute = 0) as Hl.
  { unfold limit. replace searchLimit with (2628000 * Minute) by done. by rewrite Z.mod_add. }
  apply (loop_terminates (λ t, t0 ≤ t ∧ t mod Minute = 0 ∧ quiet s t0 t)
    (found s t0 limit) (λ t, Z.max 0 ((limit - t) / Minute))).
  - intros t (Hge & Hmod & Hq). destruct (decide (t < limit)) as [Hlt|Hlt].
    + pose proof (next_step_spec s limit t Hmod Hlt) as Hstep.
      destruct (next_step s limit t) as [t'|r].
      * destruct Hstep as (Htt & Hmod' & Hq').
        pose proof (minutes_apart t t' Hmod Hmod' Htt). pose proof (minutes_apart t limit Hmod Hl Hlt).
        assert ((limit - t') / Minute ≤ (limit - t) / Minute - 1).
        { replace ((limit - t) / Minute - 1) with ((limit - t + -1 * Minute) / Minute)
            by (rewrite Z.div_add by lia; lia). apply Z.div_le_mono; lia. }
        assert (1 ≤ (limit - t) / Minute) by (apply Z.div_le_lower_bound; lia).
        split_and!; [lia|done| |lia|lia].
        intros u Hu. destruct (decide (u < t)); [apply Hq; lia|apply Hq'; lia].
      * destruct Hstep as [-> Hf]. by left.
    + unfold next_step. assert (Before t limit = false) as -> by (apply bool_decide_eq_false_2; lia).
      right. split; [done|]. intros u Hu. apply Hq. lia.
  - split_and!; [lia|done|]. intros u Hu. lia.
  - replace (limit - t0) with searchLimit by (unfold limit; lia).
    replace (searchLimit / Minute) with 2628000 by done. unfold searchSteps. lia.
Qed.

(** Where the search starts. *)
Lemma search_start t :
  let t0 := Add (Truncate t Minute) Minute in t0 mod Minute = 0 ∧ t < t0 ≤ t + Minute.
Proof.
  cbv zeta. unfold Add, Truncate. assert (0 < Minute) as HM by done. pose proof (Z.mod_pos_bound t Minute HM) as Hm.
  split; [|lia]. replace (t - t mod Minute + Minute) with ((t / Minute + 1) * Minute); [by apply Z.mod_mul|].
  pose proof (Z.div_mod t Minute ltac:(lia)). lia.
Qed.

(** The search ends within the bound, and with any larger one, and finds what it should. *)
Lemma Next_ends s t :
  every s ≤ 0 →
  let t0 := Add (Truncate t Minute) Minute in
  (∀ fuel, (searchSteps ≤ fuel)%positive → Next_within fuel s t = Some (Next s t)) ∧ found s t0 (t0 + searchLimit) (Next s t).
Proof.
  intros He t0. destruct (search_start t) as [H0 _]. destruct (search_ends s t0 H0) as (r & Hr & Hf).
  assert (∀ fuel, (searchSteps ≤ fuel)%positive → Next_within fuel s t = Some r) as Hw.
  { intros fuel Hle. unfold Next_within. rewrite bool_decide_eq_false_2 by lia. cbv zeta.
    fold t0. change (Add t0 searchLimit) with (t0 + searchLimit). by rewrite (loop_more searchSteps fuel _ _ r). }
  assert (Next s t = r) as -> by (unfold Next; by rewrite Hw). done.
Qed.

(** ** Properties *)


(** 12:00 on weekdays: from the morning of Friday, 1 January 2021, the next firing is noon
    of that day; from there on it is Monday. *)
Definition demo_schedule : Schedule := mkSchedule 1 4096 4294967294 8190 62 true false 0.

