(* ===== verification/CronParse.v ===== *)
(** * Parsing cron specifications (internal/cron/cron.go)

    The string functions of Go's standard library the parser calls, on ASCII
    strings, and the parser. [time.ParseDuration], which only the "@every"
    descriptor uses, is a parameter. *)
From Stdlib Require Import Ascii.
From S2P Require Import Prelude GoBase Calendar Schedule.

(** ** package strings, strconv *)

(** White space in the ASCII range: tab, newline, vertical tab, form feed,
    carriage return, space. *)
Definition is_space (c : ascii) : bool :=
  let n := nat_of_ascii c in ((9 <=? n) && (n <=? 13) || (n =? 32))%nat.

Fixpoint trim_left (s : string) : string :=
  match s with
  | String c s' => if is_space c then trim_left s' else s
  | EmptyString => s
  end.

Fixpoint trim_right (s : string) : string :=
  match s with
  | EmptyString => EmptyString
  | String c s' =>
      match trim_right s' with
      | EmptyString => if is_space c then EmptyString else String c EmptyString
      | r => String c r
      end
  end.

Definition TrimSpace (s : string) : string := trim_right (trim_left s).

(** [strings.Split(s, string(sep))] for a one-byte separator. *)
Fixpoint Split (sep : ascii) (s : string) : list string :=
  match s with
  | EmptyString => [EmptyString]
  | String c s' =>
      if Ascii.eqb c sep then EmptyString :: Split sep s'
      else match Split sep s' with
           | t :: ts => String c t :: ts
           | [] => [String c EmptyString]
           end
  end.

(** [strings.Fields]: the non-empty pieces between runs of white space. *)
Fixpoint fields_loop (cur s : string) : list string :=
  match s with
  | EmptyString => match cur with EmptyString => [] | _ => [cur] end
  | String c s' =>
      if is_space c then
        match cur with EmptyString => fields_loop EmptyString s' | _ => cur :: fields_loop EmptyString s' end
      else fields_loop (cur +:+ String c EmptyString) s'
  end.
Definition Fields (s : string) : list string := fields_loop EmptyString s.

(** The text before and after the first occurrence of a byte: [strings.IndexByte]
    and the two slices around it, and [strings.SplitN(s, sep, 2)]. *)
Fixpoint cut (sep : ascii) (s : string) : option (string * string) :=
  match s with
  | EmptyString => None
  | String c s' =>
      if Ascii.eqb c sep then Some (EmptyString, s')
      else match cut sep s' with
           | Some (a, b) => Some (String c a, b)
           | None => None
           end
  end.

Definition lower (c : ascii) : ascii :=
  let n := nat_of_ascii c in
  if ((65 <=? n) && (n <=? 90))%nat then ascii_of_nat (n + 32) else c.

Fixpoint ToLower (s : string) : string :=
  match s with EmptyString => EmptyString | String c s => String (lower c) (ToLower s) end.

(** [strings.TrimPrefix] when the prefix is there, which is [strings.HasPrefix]. *)
Fixpoint strip_prefix (p s : string) : option string :=
  match p, s with
  | EmptyString, _ => Some s
  | String a p, String b s => if Ascii.eqb a b then strip_prefix p s else None
  | _, _ => None
  end.

(** [strconv.ParseUint(s, 10, 32)]. *)
Fixpoint parse_digits (s : string) (acc : Z) : option Z :=
  match s with
  | EmptyString => Some acc
  | String c s =>
      let n := Z.of_nat (nat_of_ascii c) in
      if bool_decide (48 ≤ n ≤ 57) then
        let acc := acc * 10 + (n - 48) in
        if bool_decide (acc < 2 ^ 32) then parse_digits s acc else None
      else None
  end.
Definition ParseUint (s : string) : option Z :=
  match s with EmptyString => None | _ => parse_digits s 0 end.

(** ** The parser *)

Record fieldSpec := mkFieldSpec {
  f_name : string;
  f_min : Z;
  f_max : Z;
  f_names : list (string * Z)
}.

Definition monthNames : list (string * Z) :=
  [("jan", 1); ("feb", 2); ("mar", 3); ("apr", 4); ("may", 5); ("jun", 6);
   ("jul", 7); ("aug", 8); ("sep", 9); ("oct", 10); ("nov", 11); ("dec", 12)].

Definition dayNames : list (string * Z) :=
  [("sun", 0); ("mon", 1); ("tue", 2); ("wed", 3); ("thu", 4); ("fri", 5); ("sat", 6)].

Definition descriptors : list (string * string) :=
  [("@yearly", "0 0 1 1 *"); ("@annually", "0 0 1 1 *"); ("@monthly", "0 0 1 * *");
   ("@weekly", "0 0 * * 0"); ("@daily", "0 0 * * *"); ("@midnight", "0 0 * * *");
   ("@hourly", "0 * * * *")].

(** Reading one of the tables above. *)
Fixpoint table {A} (k : string) (l : list (string * A)) : option A :=
  match l with
  | [] => None
  | (k', v) :: l => if String.eqb k' k then Some v else table k l
  end.

Definition parseValue (s : string) (f : fieldSpec) : res Z :=
  let s := TrimSpace s in
  match table (ToLower s) (f_names f) with
  | Some v => Ok v
  | None =>
      match ParseUint s with
      | None => Err (Errorf "cron: invalid value %q in %s field" [s; f_name f] [])
      | Some v =>
          if String.eqb (f_name f) "day of week" && bool_decide (v = 7) then Ok 0
          else if bool_decide (v < f_min f) || bool_decide (v > f_max f)
          then Err (Errorf "cron: value %d out of range %d-%d in %s field"
                      [pretty v; pretty (f_min f); pretty (f_max f); f_name f] [])
          else Ok v
      end
  end.

(** [for v := low; v <= high; v += step { bits |= 1 << v }]; the loop runs at
    most [fuel] times. A step is at least 1, so that one time per value from [low] to [high]
    is enough ([bits_loop_spec] of CronProps). *)
Fixpoint bits_loop (fuel : nat) (v high step bits : Z) : Z :=
  match fuel with
  | O => bits
  | S fuel =>
      if bool_decide (v ≤ high)
      then bits_loop fuel (wrapu64 (v + step)) high step (Z.lor bits (wrapu64 (Z.shiftl 1 v)))
      else bits
  end.

(** The step suffix of a term: the rest of the term and the step (1 if none). *)
Definition parse_step (term : string) (f : fieldSpec) : res (string * Z) :=
  match cut "/" term with
  | None => Ok (term, 1)
  | Some (term, stepStr) =>
      match ParseUint stepStr with
      | Some n =>
          if bool_decide (n = 0)
          then Err (Errorf "cron: invalid step %q in %s field" [stepStr; f_name f] [])
          else Ok (term, n)
      | None => Err (Errorf "cron: invalid step %q in %s field" [stepStr; f_name f] [])
      end
  end.

(** The bounds of a term, given its step. *)
Definition parse_bounds (term : string) (step : Z) (f : fieldSpec) : res (Z * Z) :=
  if String.eqb term "*" then Ok (f_min f, f_max f)
  else match cut "-" term with
  | Some (a, b) =>
      low ← parseValue a f;
      high ← parseValue b f;
      if bool_decide (low > high)
      then Err (Errorf "cron: range %q is inverted in %s field" [term; f_name f] [])
      else Ok (low, high)
  | None =>
      v ← parseValue term f;
      Ok (v, if bool_decide (step > 1) then f_max f else v)
  end.

Definition parseTerm (term : string) (f : fieldSpec) : res Z :=
  '(term, step) ← parse_step term f;
  '(low, high) ← parse_bounds term step f;
  Ok (bits_loop (S (Z.to_nat (high - low))) low high step 0).

Fixpoint parse_terms (terms : list string) (f : fieldSpec) (bits : Z) : res Z :=
  match terms with
  | [] => Ok bits
  | term :: terms =>
      let term := TrimSpace term in
      if String.eqb term "" then Err (Errorf "cron: empty term in %s field" [f_name f] [])
      else
        termBits ← parseTerm term f;
        parse_terms terms f (Z.lor bits termBits)
  end.

Definition parseField (field : string) (f : fieldSpec) : res Z :=
  parse_terms (Split "," field) f 0.

(** The five fields. *)
Definition minuteSpec := mkFieldSpec "minute" 0 59 [].
Definition hourSpec := mkFieldSpec "hour" 0 23 [].
Definition domSpec := mkFieldSpec "day of month" 1 31 [].
Definition monthSpec := mkFieldSpec "month" 1 12 monthNames.
Definition dowSpec := mkFieldSpec "day of week" 0 6 dayNames.

(** The specification a descriptor stands for; any other specification stands for
    itself. *)
Definition expand (spec : string) : string :=
  match table (ToLower spec) descriptors with Some e => e | None => spec end.

Section parse.
Context (ParseDuration : string → res Z).

Definition Parse (spec : string) : res Schedule :=
  let spec := TrimSpace spec in
  if String.eqb spec "" then Err (errors_New "cron: empty specification")
  else match strip_prefix "@every " spec with
  | Some rest =>
      match ParseDuration (TrimSpace rest) with
      | Err err => Err (Errorf "cron: parse @every duration: %w" [] [err])
      | Ok d =>
          if bool_decide (d ≤ 0)
          then Err (Errorf "cron: @every duration must be positive, got %s" [pretty d] [])
          else Ok (mkSchedule 0 0 0 0 0 false false d)
      end
  | None =>
      let spec := expand spec in
      match Fields spec with
      | [f0; f1; f2; f3; f4] =>
          minute ← parseField f0 minuteSpec;
          hour ← parseField f1 hourSpec;
          dom ← parseField f2 domSpec;
          month ← parseField f3 monthSpec;
          dow ← parseField f4 dowSpec;
          Ok (mkSchedule minute hour dom month dow (String.eqb f2 "*") (String.eqb f4 "*") 0)
      | fields =>
          Err (Errorf "cron: expected 5 fields, got %d in %q"
                 [pretty (Z.of_nat (length fields)); spec] [])
      end
  end.
End parse.
