(* ===== verification/CronProps.v ===== *)
(** * The cron parser: what a parsed schedule is, and printing it back *)
From Stdlib Require Import Ascii.
From S2P Require Import Prelude GoBase Calendar Schedule CronParse.

(** ** Definitions *)

(** A mask of the values a field may take, not empty. *)
Definition mask_ok (f : fieldSpec) (bits : Z) : Prop :=
  0 < bits ∧ ∀ u, 0 ≤ u → Z.testbit bits u = true → f_min f ≤ u ≤ f_max f.

(** The mask of every value of a field, which "*" stands for. *)
Definition full (f : fieldSpec) : Z :=
  bits_loop (S (Z.to_nat (f_max f - f_min f))) (f_min f) (f_max f) 1 0.

(** The schedules a five-field specification can stand for. *)
Record fields_ok (s : Schedule) : Prop := mkFieldsOk {
  fo_minute : mask_ok minuteSpec (minute s);
  fo_hour : mask_ok hourSpec (hour s);
  fo_dom : mask_ok domSpec (dom s);
  fo_month : mask_ok monthSpec (month s);
  fo_dow : mask_ok dowSpec (dow s);
  fo_domStar : domStar s = true → dom s = full domSpec;
  fo_dowStar : dowStar s = true → dow s = full dowSpec;
  fo_every : every s = 0
}.

(** What the parser needs of the table of a field. *)
Definition spec_ok (f : fieldSpec) : bool :=
  bool_decide (0 ≤ f_min f) && bool_decide (f_min f ≤ f_max f) && bool_decide (f_max f ≤ 59) &&
  forallb (λ e, bool_decide (f_min f ≤ e.2 ≤ f_max f)) (f_names f) &&
  (if String.eqb (f_name f) "day of week" then bool_decide (f_min f = 0) else true).

(** ** Printing *)

Fixpoint join (sep : string) (l : list string) : string :=
  match l with
  | [] => ""
  | [s] => s
  | s :: l => s +:+ sep +:+ join sep l
  end.

(** The values of a mask, in order. *)
Definition values (f : fieldSpec) (bits : Z) : list Z :=
  filter (λ v, Z.testbit bits v = true) (seqZ (f_min f) (f_max f - f_min f + 1)).

Definition render_field (f : fieldSpec) (star : bool) (bits : Z) : string :=
  if star then "*" else join "," (pretty <$> values f bits).

Definition render (s : Schedule) : string :=
  join " " [render_field minuteSpec false (minute s); render_field hourSpec false (hour s);
            render_field domSpec (domStar s) (dom s); render_field monthSpec false (month s);
            render_field dowSpec (dowStar s) (dow s)].

(** No character of the string satisfies [p]. *)
Fixpoint free (p : ascii → bool) (s : string) : bool :=
  match s with EmptyString => true | String c s => negb (p c) && free p s end.

(** A printed term or field: it starts with a digit or a star and has no white
    space. *)
Definition word (s : string) : bool :=
  free is_space s &&
  match s with
  | EmptyString => false
  | String c _ => let n := nat_of_ascii c in ((48 <=? n) && (n <=? 57) || (n =? 42))%nat
  end.

(** What is checked of one printed value of a field. *)
Definition term_check (f : fieldSpec) (v : Z) : bool :=
  word (pretty v) && free (λ c, Ascii.eqb "," c || Ascii.eqb "*" c) (pretty v) &&
  match parseTerm (pretty v) f with Ok b => bool_decide (b = 2 ^ v) | Err _ => false end.

Definition specs : list fieldSpec := [minuteSpec; hourSpec; domSpec; monthSpec; dowSpec].

(** ** Lemmas: masks *)

Lemma bits_loop_spec fuel v high step bits u :
  0 ≤ v → high ≤ 63 → 1 ≤ step < 2 ^ 32 → v ≤ high + step → high - v < Z.of_nat fuel → 0 ≤ u →
  Z.testbit (bits_loop fuel v high step bits) u =
    Z.testbit bits u || bool_decide (v ≤ u ≤ high ∧ (u - v) mod step = 0).
Proof.
  revert v bits. induction fuel as [|fuel IH]; intros v bits Hv Hh Hs Hvh Hf Hu; cbn [bits_loop].
  { rewrite bool_decide_eq_false_2 by lia. by rewrite orb_false_r. }
  destruct (bool_decide_reflect (v ≤ high)) as [Hle|Hle].
  2:{ rewrite bool_decide_eq_false_2 by lia. by rewrite orb_false_r. }
  rewrite (wrapu64_id (v + step)) by lia. rewrite IH by lia.
  rewrite Z.lor_spec, <- orb_assoc. f_equal.
  assert (wrapu64 (Z.shiftl 1 v) = 2 ^ v) as ->.
  { rewrite Z.shiftl_mul_pow2, Z.mul_1_l by lia. apply wrapu64_id. split; [lia|].
    apply Z.pow_lt_mono_r; lia. }
  destruct (decide (u = v)) as [->|Hne].
  { rewrite Z.pow2_bits_true by lia. simpl. rewrite Z.sub_diag, Z.mod_0_l by lia.
    by rewrite bool_decide_eq_true_2 by lia. }
  rewrite Z.pow2_bits_false by lia. simpl. apply bool_decide_ext.
  replace (u - v) with (u - (v + step) + 1 * step) by lia. rewrite Z.mod_add by lia.
  split; [intros []; split; [lia|done]|]. intros [Hr Hm]. split; [|done]. split; [|lia].
  destruct (decide (v + step ≤ u)) as [|Hlt]; [done|].
  rewrite <- (Z.mod_add _ 1), Z.mod_small in Hm by lia. lia.
Qed.

Lemma table_In {A} k (l : list (string * A)) v : table k l = Some v → ∃ k', (k', v) ∈ l.
Proof.
  induction l as [|[k' v'] l IH]; simpl; [done|]. case_match.
  - intros [= ->]. exists k'. by left.
  - intros (k2 & H2)%IH. exists k2. by right.
Qed.

Lemma spec_ok_spec f :
  spec_ok f = true →
  0 ≤ f_min f ≤ f_max f ∧ f_max f ≤ 59 ∧ (∀ k v, table k (f_names f) = Some v → f_min f ≤ v ≤ f_max f) ∧
  (f_name f = "day of week" → f_min f = 0).
Proof.
  unfold spec_ok. rewrite !andb_true_iff, !bool_decide_eq_true. intros [[[[H1 H2] H3] H4] H5].
  split_and!; [done|done|done| |].
  - intros k v (k' & Hin)%table_In. rewrite forallb_forall in H4.
    apply list_elem_of_In in Hin. specialize (H4 _ Hin). by apply bool_decide_eq_true in H4.
  - intros Hn. rewrite Hn in H5. by apply bool_decide_eq_true in H5.
Qed.

Lemma parseValue_range s f v :
  spec_ok f = true → parseValue s f = Ok v → f_min f ≤ v ≤ f_max f.
Proof.
  intros Hf. destruct (spec_ok_spec f Hf) as (H1 & H2 & H3 & H4). unfold parseValue.
  destruct (table _ _) as [v'|] eqn:Ht; [intros [= <-]; by eapply H3|].
  destruct (ParseUint _) as [n|]; [|done].
  destruct (String.eqb_spec (f_name f) "day of week") as [Hn|Hn]; simpl;
    repeat (case_bool_decide; simpl; try done); intros [= <-]; try lia.
  rewrite (H4 Hn) in *. lia.
Qed.

Lemma ParseUint_range s n : ParseUint s = Some n → 0 ≤ n < 2 ^ 32.
Proof.
  assert (∀ s acc, 0 ≤ acc < 2 ^ 32 → parse_digits s acc = Some n → 0 ≤ n < 2 ^ 32) as H.
  { clear s. intros s. induction s as [|c s IH]; intros acc Hacc; cbn [parse_digits].
    - by intros [= <-].
    - case_bool_decide; [|done]. case_bool_decide; [|done]. apply IH. lia. }
  unfold ParseUint. destruct s; [done|]. apply H. lia.
Qed.

(** The meaning of a term: the values from [low] to [high] in steps of [step]. *)
Lemma parseTerm_spec term f bits :
  spec_ok f = true → parseTerm term f = Ok bits →
  ∃ low high step,
    f_min f ≤ low ≤ high ∧ high ≤ f_max f ∧ 1 ≤ step ∧
    ∀ u, 0 ≤ u → Z.testbit bits u = bool_decide (low ≤ u ≤ high ∧ (u - low) mod step = 0).
Proof.
  intros Hf. destruct (spec_ok_spec f Hf) as (H1 & H2 & H3 & H4). unfold parseTerm.
  destruct (parse_step term f) as [[term' step]|e] eqn:Hstep; [|done].
  unfold mbind at 1, result_bind at 1. cbv beta iota zeta.
  assert (1 ≤ step < 2 ^ 32) as Hs.
  { unfold parse_step in Hstep. destruct (cut "/" term) as [[a st]|]; [|by simplify_eq].
    destruct (ParseUint st) as [n|] eqn:Hn; [|done]. apply ParseUint_range in Hn.
    case_bool_decide; simplify_eq. lia. }
  destruct (parse_bounds term' step f) as [[low high]|e] eqn:Hb; [|done].
  unfold mbind, result_bind. cbv beta iota zeta.
  remember (S (Z.to_nat (high - low))) as fuel eqn:Hfuel. intros [= <-].
  assert (f_min f ≤ low ≤ high ∧ high ≤ f_max f) as [Hlo Hhi].
  { unfold parse_bounds in Hb. destruct (String.eqb term' "*"); [simplify_eq; lia|].
    destruct (cut "-" term') as [[a c]|].
    - destruct (parseValue a f) as [lo|] eqn:Ha; [|done]. simpl in Hb.
      destruct (parseValue c f) as [hi|] eqn:Hc; [|done]. simpl in Hb.
      apply parseValue_range in Ha, Hc; [|done..]. case_bool_decide; simplify_eq. lia.
    - destruct (parseValue term' f) as [v|] eqn:Hv; [|done]. simpl in Hb.
      apply parseValue_range in Hv; [|done]. case_bool_decide; simplify_eq; lia. }
  exists low, high, step. split_and!; try lia. intros u Hu.
  rewrite bits_loop_spec by lia. by rewrite Z.bits_0.
Qed.

Lemma parseTerm_mask term f bits :
  spec_ok f = true → parseTerm term f = Ok bits → mask_ok f bits ∧ 0 ≤ bits.
Proof.
  intros Hf Hok. destruct (parseTerm_spec term f bits Hf Hok) as (low & high & step & H1 & H2 & H3 & H4).
  destruct (spec_ok_spec f Hf) as (H5 & H6 & _ & _).
  assert (Z.testbit bits low = true) as Hlow.
  { rewrite H4 by lia. rewrite Z.sub_diag, Z.mod_0_l by lia. apply bool_decide_eq_true_2. lia. }
  assert (0 ≤ bits) as Hnn.
  { apply Z.bits_iff_nonneg_ex. exists 64. intros m Hm. rewrite H4 by lia.
    apply bool_decide_eq_false_2. lia. }
  split; [|done]. split.
  - destruct (decide (bits = 0)) as [->|]; [by rewrite Z.bits_0 in Hlow|lia].
  - intros u Hu. rewrite H4 by done. rewrite bool_decide_eq_true. lia.
Qed.

Lemma mask_ok_lor f a b : 0 ≤ a → (∀ u, 0 ≤ u → Z.testbit a u = true → f_min f ≤ u ≤ f_max f) →
  mask_ok f b → mask_ok f (Z.lor a b).
Proof.
  intros Ha Hr [Hb Hrb]. split.
  - assert (0 ≤ Z.lor a b) by (apply Z.lor_nonneg; lia).
    destruct (decide (Z.lor a b = 0)) as [[-> ->]%Z.lor_eq_0_iff|]; lia.
  - intros u Hu. rewrite Z.lor_spec, orb_true_iff. intros [?|?]; auto.
Qed.

Lemma parse_terms_mask terms f acc bits :
  spec_ok f = true → (terms = [] → mask_ok f acc) → 0 ≤ acc →
  (∀ u, 0 ≤ u → Z.testbit acc u = true → f_min f ≤ u ≤ f_max f) →
  parse_terms terms f acc = Ok bits → mask_ok f bits.
Proof.
  intros Hf. revert acc. induction terms as [|t terms IH]; intros acc Hne Hacc Hr; cbn [parse_terms].
  { intros [= <-]. by apply Hne. }
  destruct (String.eqb _ _); [done|].
  destruct (parseTerm (TrimSpace t) f) as [tb|] eqn:Ht; [|done].
  apply parseTerm_mask in Ht as [Ht Ht0]; [|done]. intros Hok.
  pose proof (mask_ok_lor f acc tb Hacc Hr Ht) as Hm.
  apply (IH (Z.lor acc tb)); [done| |apply Hm|exact Hok]. apply Z.lt_le_incl, Hm.
Qed.

Lemma parseField_mask field f bits : spec_ok f = true → parseField field f = Ok bits → mask_ok f bits.
Proof.
  intros Hf. unfold parseField. apply parse_terms_mask; [done| |lia|].
  - destruct field as [|c field]; simpl; [done|]. case_match; [done|]. by case_match.
  - intros u _. by rewrite Z.bits_0.
Qed.

(** ** Lemmas: strings *)

Lemma free_app p a b : free p (a +:+ b) = free p a && free p b.
Proof. induction a as [|c a IH]; simpl; [done|]. by rewrite IH, andb_assoc. Qed.

Lemma free_or p q s : free (λ c, p c || q c) s = free p s && free q s.
Proof.
  induction s as [|c s IH]; simpl; [done|]. rewrite IH, negb_orb.
  destruct (p c), (q c), (free p s), (free q s); done.
Qed.

Lemma app_string_nil (a : string) : a +:+ "" = a.
Proof. induction a as [|c a IH]; [done|]. exact (f_equal (String c) IH). Qed.

Lemma app_string_assoc (a b c : string) : (a +:+ b) +:+ c = a +:+ (b +:+ c).
Proof. induction a as [|x a IH]; [done|]. exact (f_equal (String x) IH). Qed.

Lemma trim_right_free s : free is_space s = true → trim_right s = s.
Proof.
  induction s as [|c s IH]; simpl; [done|]. rewrite andb_true_iff, negb_true_iff. intros [Hc Hs].
  rewrite IH by done. destruct s; [by rewrite Hc|done].
Qed.

Lemma trim_right_app a b : b ≠ "" → trim_right b = b → trim_right (a +:+ b) = a +:+ b.
Proof.
  intros Hb Ht. induction a as [|c a IH]; simpl; [done|]. rewrite IH. by destruct a, b.
Qed.

Lemma TrimSpace_free s : free is_space s = true → TrimSpace s = s.
Proof.
  intros Hs. unfold TrimSpace. destruct s as [|c s]; [done|]. simpl.
  pose proof Hs as Hs'. simpl in Hs'. apply andb_true_iff in Hs' as [Hc%negb_true_iff _].
  rewrite Hc. by apply trim_right_free.
Qed.

Lemma Split_app sep s r :
  free (Ascii.eqb sep) s = true → Split sep (s +:+ String sep r) = s :: Split sep r.
Proof.
  induction s as [|c s IH]; simpl; [by rewrite Ascii.eqb_refl|].
  rewrite andb_true_iff, negb_true_iff, Ascii.eqb_sym. intros [-> Hs]. by rewrite IH.
Qed.

Lemma Split_free sep s : free (Ascii.eqb sep) s = true → Split sep s = [s].
Proof.
  induction s as [|c s IH]; simpl; [done|].
  rewrite andb_true_iff, negb_true_iff, Ascii.eqb_sym. intros [-> Hs]. by rewrite IH.
Qed.

Lemma Split_join sep l :
  l ≠ [] → Forall (λ s, free (Ascii.eqb sep) s = true) l → Split sep (join (String sep "") l) = l.
Proof.
  intros Hne Hl. induction Hl as [|s l Hs Hl IH]; [done|].
  destruct l as [|s' l]; [by apply Split_free|].
  change (join (String sep "") (s :: s' :: l))
    with (s +:+ String sep (join (String sep "") (s' :: l))).
  rewrite Split_app by done. by rewrite IH.
Qed.

Lemma fields_loop_word cur s r :
  free is_space s = true → cur +:+ s ≠ "" →
  fields_loop cur (s +:+ String " " r) = (cur +:+ s) :: fields_loop "" r.
Proof.
  revert cur. induction s as [|c s IH]; intros cur; simpl.
  - rewrite app_string_nil. by destruct cur.
  - rewrite andb_true_iff, negb_true_iff. intros [-> Hs] Hne. rewrite IH.
    + by rewrite app_string_assoc.
    + done.
    + by rewrite app_string_assoc.
Qed.

Lemma fields_loop_last cur s :
  free is_space s = true → cur +:+ s ≠ "" → fields_loop cur s = [cur +:+ s].
Proof.
  revert cur. induction s as [|c s IH]; intros cur; simpl.
  - rewrite app_string_nil. by destruct cur.
  - rewrite andb_true_iff, negb_true_iff. intros [-> Hs] Hne. rewrite IH; rewrite ?app_string_assoc; done.
Qed.

Lemma word_spec s :
  word s = true → s ≠ "" ∧ free is_space s = true ∧
  ∃ c s', s = String c s' ∧ Ascii.eqb "@" c = false ∧ Ascii.eqb "@" (lower c) = false ∧ is_space c = false.
Proof.
  unfold word. rewrite andb_true_iff. intros [Hf Hc]. destruct s as [|c s]; [done|].
  split_and!; [done|done|]. exists c, s. simpl in Hf. apply andb_true_iff in Hf as [Hs%negb_true_iff _].
  split_and!; [done|..|done]; revert Hc; clear; intros Hc.
  - by destruct c as [[] [] [] [] [] [] [] []].
  - by destruct c as [[] [] [] [] [] [] [] []].
Qed.

(** ** Lemmas: printed fields *)

(** Every value of every field prints to a term that parses back. *)
Lemma term_checks :
  forallb (λ f, spec_ok f &&
    forallb (term_check f) (seqZ (f_min f) (f_max f - f_min f + 1))) specs = true.
Proof. vm_compute. reflexivity. Qed.

Lemma specs_ok f :
  f ∈ specs → spec_ok f = true ∧ ∀ v, f_min f ≤ v ≤ f_max f → term_check f v = true.
Proof.
  intros Hf. pose proof term_checks as H. rewrite forallb_forall in H.
  apply list_elem_of_In in Hf. specialize (H f Hf). apply andb_true_iff in H as [H1 H2].
  split; [done|]. intros v Hv. rewrite forallb_forall in H2. apply H2.
  apply list_elem_of_In, elem_of_seqZ. lia.
Qed.

Lemma term_check_spec f v :
  term_check f v = true →
  word (pretty v) = true ∧ free (Ascii.eqb ",") (pretty v) = true ∧
  parseTerm (pretty v) f = Ok (2 ^ v) ∧ free (Ascii.eqb "*") (pretty v) = true.
Proof.
  unfold term_check. rewrite !andb_true_iff. intros [[H1 H2] H3].
  rewrite free_or, andb_true_iff in H2. destruct H2 as [H2 H4]. split_and!; [done|done| |done].
  destruct (parseTerm (pretty v) f); [|done]. by apply bool_decide_eq_true in H3 as ->.
Qed.

Lemma parse_terms_printed f vs acc :
  Forall (λ v, term_check f v = true) vs →
  parse_terms (pretty <$> vs) f acc = Ok (foldl (λ a v, Z.lor a (2 ^ v)) acc vs).
Proof.
  intros Hvs. revert acc. induction Hvs as [|v vs Hv Hvs IH]; intros acc; [done|].
  destruct (term_check_spec f v Hv) as (Hw & _ & Hp & _). rewrite fmap_cons. cbn [parse_terms foldl].
  destruct (word_spec _ Hw) as (Hne & Hfree & _). rewrite TrimSpace_free by done.
  destruct (String.eqb_spec (pretty v) "") as [|_]; [done|]. rewrite Hp. apply IH.
Qed.

Lemma foldl_bits vs acc u :
  0 ≤ u → Forall (λ v, 0 ≤ v) vs →
  Z.testbit (foldl (λ a v, Z.lor a (2 ^ v)) acc vs) u = Z.testbit acc u || bool_decide (u ∈ vs).
Proof.
  intros Hu Hvs. revert acc. induction Hvs as [|v vs Hv Hvs IH]; intros acc; cbn [foldl].
  { rewrite bool_decide_eq_false_2 by set_solver. by rewrite orb_false_r. }
  rewrite IH, Z.lor_spec, <- orb_assoc. f_equal. destruct (decide (u = v)) as [->|Hne].
  - rewrite Z.pow2_bits_true by lia. simpl.
    by rewrite (bool_decide_eq_true_2 (v ∈ v :: vs)) by (by left).
  - rewrite Z.pow2_bits_false by lia. simpl. apply bool_decide_ext. set_solver.
Qed.

Lemma values_spec f bits :
  f ∈ specs → mask_ok f bits →
  values f bits ≠ [] ∧ Forall (λ v, term_check f v = true) (values f bits) ∧
  foldl (λ a v, Z.lor a (2 ^ v)) 0 (values f bits) = bits.
Proof.
  intros Hf [Hpos Hr]. destruct (specs_ok f Hf) as [Hok Hcheck].
  destruct (spec_ok_spec f Hok) as (H1 & H2 & _ & _).
  assert (∀ v, v ∈ values f bits ↔ f_min f ≤ v ≤ f_max f ∧ Z.testbit bits v = true) as Hv.
  { intros v. unfold values. rewrite list_elem_of_filter, elem_of_seqZ. split; intros []; split; try done; lia. }
  assert (foldl (λ a v, Z.lor a (2 ^ v)) 0 (values f bits) = bits) as Heq.
  { apply Z.bits_inj'. intros u Hu. rewrite foldl_bits, Z.bits_0; [|done|].
    - simpl. apply eq_true_iff_eq. rewrite bool_decide_eq_true, Hv. naive_solver.
    - apply Forall_forall. intros v Hv'%Hv. lia. }
  split_and!; [|apply Forall_forall; intros v [Hin _]%Hv; by apply Hcheck|done].
  intros Hnil. rewrite Hnil in Heq. simpl in Heq. lia.
Qed.

Lemma word_join_comma l :
  l ≠ [] → Forall (λ s, word s = true) l → word (join "," l) = true.
Proof.
  intros Hne Hl. induction Hl as [|s l Hs Hl IH]; [done|].
  destruct l as [|s' l]; [done|].
  change (join "," (s :: s' :: l)) with (s +:+ ("," +:+ join "," (s' :: l))).
  specialize (IH ltac:(done)). unfold word in *. rewrite !andb_true_iff in *.
  destruct IH as [IH _], Hs as [Hs Hc]. rewrite !free_app, Hs, IH. by destruct s.
Qed.

(** A printed field is a word, and parses back to its mask. *)
Lemma render_field_spec f star bits :
  f ∈ specs → mask_ok f bits → (star = true → bits = full f) →
  word (render_field f star bits) = true ∧ parseField (render_field f star bits) f = Ok bits.
Proof.
  intros Hf Hm Hstar. unfold render_field. destruct star.
  { rewrite (Hstar eq_refl). split; [done|]. clear -Hf. unfold specs in Hf.
    repeat (apply elem_of_cons in Hf as [->|Hf]; [vm_compute; reflexivity|]).
    by apply elem_of_nil in Hf. }
  destruct (values_spec f bits Hf Hm) as (Hne & Hall & Heq).
  assert (pretty <$> values f bits ≠ []) as Hne' by by intros ?%fmap_nil_inv.
  split.
  - apply word_join_comma; [done|]. apply Forall_fmap. eapply Forall_impl; [exact Hall|].
    intros v Hv. by apply term_check_spec in Hv as [Hv _].
  - unfold parseField. rewrite Split_join; [|done|].
    + rewrite parse_terms_printed by done. by rewrite Heq.
    + apply Forall_fmap. eapply Forall_impl; [exact Hall|].
      intros v Hv. by apply term_check_spec in Hv as (_ & Hv & _).
Qed.

(** Only a star prints as a star. *)
Lemma render_field_star f star bits :
  f ∈ specs → mask_ok f bits → String.eqb (render_field f star bits) "*" = star.
Proof.
  intros Hf Hm. unfold render_field. destruct star; [done|]. apply String.eqb_neq. intros Heq.
  destruct (values_spec f bits Hf Hm) as (Hne & Hall & _).
  assert (free (Ascii.eqb "*") (join "," (pretty <$> values f bits)) = true) as Hfree.
  { clear Heq Hne. induction Hall as [|v vs Hv Hall IH]; [done|]. rewrite fmap_cons.
    apply term_check_spec in Hv as (_ & _ & _ & Hv). destruct (pretty <$> vs) as [|s l]; [done|].
    change (join "," (pretty v :: s :: l)) with (pretty v +:+ ("," +:+ join "," (s :: l))).
    by rewrite !free_app, Hv, IH. }
  by rewrite Heq in Hfree.
Qed.

(** ** Lemmas: printed specifications *)

Lemma Fields_join l : Forall (λ s, word s = true) l → Fields (join " " l) = l.
Proof.
  unfold Fields. induction 1 as [|s l Hs Hl IH]; [done|].
  destruct (word_spec s Hs) as (Hne & Hfree & _).
  destruct l as [|s' l]; [by apply (fields_loop_last "" s)|].
  change (join " " (s :: s' :: l)) with (s +:+ String " " (join " " (s' :: l))).
  rewrite (fields_loop_word "" s) by done. by rewrite IH.
Qed.

Lemma TrimSpace_join l : Forall (λ s, word s = true) l → TrimSpace (join " " l) = join " " l.
Proof.
  intros Hl. unfold TrimSpace.
  assert (trim_left (join " " l) = join " " l) as ->.
  { destruct Hl as [|s l Hs Hl]; [done|].
    destruct (word_spec s Hs) as (_ & _ & c & s' & -> & _ & _ & Hc).
    destruct l; simpl; by rewrite Hc. }
  induction Hl as [|s l Hs Hl IH]; [done|].
  destruct (word_spec s Hs) as (Hne & Hfree & _). destruct l as [|s' l]; [by apply trim_right_free|].
  change (join " " (s :: s' :: l)) with (s +:+ (" " +:+ join " " (s' :: l))).
  assert (join " " (s' :: l) ≠ "") as Hj.
  { apply Forall_cons in Hl as [Hs' _]. destruct (word_spec s' Hs') as (_ & _ & c & x & -> & _).
    by destruct l. }
  apply trim_right_app; [done|]. by apply trim_right_app.
Qed.

(** A specification that starts with a word is no descriptor. *)
Lemma not_descriptor w l :
  word w = true →
  String.eqb (join " " (w :: l)) "" = false ∧ strip_prefix "@every " (join " " (w :: l)) = None ∧
  expand (join " " (w :: l)) = join " " (w :: l).
Proof.
  intros Hw. destruct (word_spec w Hw) as (_ & _ & c & s' & -> & Hc & Hl & _).
  assert (∃ r, join " " (String c s' :: l) = String c r) as [r ->] by (destruct l; by eexists).
  split_and!; [done| |].
  - cbn [strip_prefix]. by rewrite Hc.
  - unfold expand. assert (table (ToLower (String c r)) descriptors = None) as ->; [|done].
    cbn [ToLower]. generalize (ToLower r) as r'. intros r'. revert Hl. generalize (lower c). clear.
    intros c Hc. unfold descriptors. cbn [table String.eqb]. by rewrite Hc.
Qed.

Lemma in_specs :
  minuteSpec ∈ specs ∧ hourSpec ∈ specs ∧ domSpec ∈ specs ∧ monthSpec ∈ specs ∧ dowSpec ∈ specs.
Proof. unfold specs. split_and!; repeat constructor. Qed.

(** A star selects every value. *)
Lemma star_full :
  parseField "*" domSpec = Ok (full domSpec) ∧ parseField "*" dowSpec = Ok (full dowSpec).
Proof. split; vm_compute; reflexivity. Qed.

(** ** Properties *)

Section properties.
Context (ParseDuration : string → res Z).

(** Parsing five words. *)
Lemma Parse_words w0 w1 w2 w3 w4 :
  Forall (λ s, word s = true) [w0; w1; w2; w3; w4] →
  Parse ParseDuration (join " " [w0; w1; w2; w3; w4]) =
    (minute ← parseField w0 minuteSpec;
     hour ← parseField w1 hourSpec;
     dom ← parseField w2 domSpec;
     month ← parseField w3 monthSpec;
     dow ← parseField w4 dowSpec;
     Ok (mkSchedule minute hour dom month dow (String.eqb w2 "*") (String.eqb w4 "*") 0)).
Proof.
  intros Hl. unfold Parse. rewrite TrimSpace_join by done.
  pose proof Hl as [H0 _]%Forall_cons.
  destruct (not_descriptor w0 [w1; w2; w3; w4] H0) as (E1 & E2 & E3).
  rewrite E1, E2, E3, Fields_join by done. done.
Qed.

(** What a parsed schedule is. *)
Lemma Parse_ok spec s :
  Parse ParseDuration spec = Ok s →
  fields_ok s ∨ (0 < every s ∧ s = mkSchedule 0 0 0 0 0 false false (every s)).
Proof.
  unfold Parse. destruct (String.eqb _ _); [done|].
  destruct (strip_prefix _ _) as [rest|].
  { destruct (ParseDuration _) as [d|]; [|done]. case_bool_decide; [done|]. intros [= <-].
    right. simpl. split; [lia|done]. }
  destruct (Fields _) as [|f0 [|f1 [|f2 [|f3 [|f4 [|? ?]]]]]]; try done.
  destruct in_specs as (I1 & I2 & I3 & I4 & I5).
  destruct (parseField f0 minuteSpec) as [m0|] eqn:E0; [|done].
  destruct (parseField f1 hourSpec) as [m1|] eqn:E1; [|done].
  destruct (parseField f2 domSpec) as [m2|] eqn:E2; [|done].
  destruct (parseField f3 monthSpec) as [m3|] eqn:E3; [|done].
  destruct (parseField f4 dowSpec) as [m4|] eqn:E4; [|done].
  intros [= <-]. left.
  split; cbn [minute hour dom month dow domStar dowStar every]; try done;
    try (eapply parseField_mask; [by apply specs_ok|eassumption]).
  - intros ->%String.eqb_eq. rewrite (proj1 star_full) in E2. by injection E2 as <-.
  - intros ->%String.eqb_eq. rewrite (proj2 star_full) in E4. by injection E4 as <-.
Qed.

(** C38: every accepted specification is a meaningful schedule: a five-field one gives
    masks that are not empty and only have values the field allows, with a starred day
    field selecting every day; "@every" gives a positive interval and nothing else. *)
Theorem parse_wellformed spec s :
  Parse ParseDuration spec = Ok s →
  fields_ok s ∨ (0 < every s ∧ s = mkSchedule 0 0 0 0 0 false false (every s)).
Proof. apply Parse_ok. Qed.

(** C37: printing and parsing are inverse: any well-formed five-field schedule prints to a
    specification that parses back to it, so every accepted five-field specification has a
    canonical form with the same meaning. *)
Theorem parse_render s : fields_ok s → Parse ParseDuration (render s) = Ok s.
Proof.
  intros [H1 H2 H3 H4 H5 H6 H7 H8]. destruct in_specs as (I1 & I2 & I3 & I4 & I5).
  destruct (render_field_spec minuteSpec false (minute s) I1 H1 ltac:(done)) as [W1 P1].
  destruct (render_field_spec hourSpec false (hour s) I2 H2 ltac:(done)) as [W2 P2].
  destruct (render_field_spec domSpec (domStar s) (dom s) I3 H3 H6) as [W3 P3].
  destruct (render_field_spec monthSpec false (month s) I4 H4 ltac:(done)) as [W4 P4].
  destruct (render_field_spec dowSpec (dowStar s) (dow s) I5 H5 H7) as [W5 P5].
  pose proof (render_field_star domSpec (domStar s) (dom s) I3 H3) as S3.
  pose proof (render_field_star dowSpec (dowStar s) (dow s) I5 H5) as S5.
  unfold render. rewrite Parse_words by (by repeat constructor).
  rewrite P1, P2, P3, P4, P5, S3, S5. rewrite <- H8. by destruct s.
Qed.
End properties.

(** A duration parser for the witnesses: it accepts nothing. *)
Definition no_duration (s : string) : res Z := Err (errors_New "no duration").

Lemma parse_wellformed_witness :
  ∃ s, Parse no_duration "*/15 9-17 1,15 * MON" = Ok s ∧
       (fields_ok s ∨ (0 < every s ∧ s = mkSchedule 0 0 0 0 0 false false (every s))).
Proof.
  eexists. split; [vm_compute; reflexivity|].
  apply (parse_wellformed no_duration "*/15 9-17 1,15 * MON"). vm_compute. reflexivity.
Defined.

Lemma parse_render_witness :
  Parse no_duration (render demo_schedule) = Ok demo_schedule.
Proof.
  apply (parse_render no_duration demo_schedule).
  destruct (Parse_ok no_duration "0 12 * * 1-5" demo_schedule) as [Hok|[Hev _]];
    [vm_compute; reflexivity|exact Hok|]. exfalso. revert Hev. simpl. lia.
Defined.

(** The meaning of a term with a range and a step: it is refused when the range is
    inverted, also for the day-of-week range 5-7 although 7 stands for Sunday, and a bare
    value with the explicit step 1 stands for that value alone, while with any larger step
    it runs to the end of the field. *)
Theorem step_and_range_corner_cases :
  Parse no_duration "0 0 * * 5-7" =
    Err (Errorf "cron: range %q is inverted in %s field" ["5-7"; "day of week"] []) ∧
  Parse no_duration "0 0 * * 7" = Parse no_duration "0 0 * * 0" ∧
  parseTerm "5/1" minuteSpec = Ok (2 ^ 5) ∧
  parseTerm "55/2" minuteSpec = Ok (2 ^ 55 + 2 ^ 57 + 2 ^ 59).
Proof. split_and!; vm_compute; reflexivity. Qed.
