(* ===== verification/Server.v ===== *)
(** * Configuring a worker (server.go, cron.go)

    The configuration a worker accepts, the defaults it fills in, and the
    constants and intervals its loops run on. The host name, the process number
    and the generated identifier are arguments; the logger is left out. *)
From Stdlib Require Import Strings.Byte.
From S2P Require Import Prelude GoBase Job Backoff Queues Client Calendar Schedule CronParse.

(** ** Constants *)

Definition DefaultConcurrency : Z := 10.
Definition DefaultVisibilityTimeout : Z := 30 * Second.
Definition DefaultShutdownTimeout : Z := 30 * Second.
Definition minPollInterval : Z := 5 * Millisecond.
Definition maxPollInterval : Z := 250 * Millisecond.
Definition maxRenewFailures : Z := 3.
Definition reapBatch : Z := 100.
Definition promoteBatch : Z := 100.
Definition cronBatch : Z := 100.
Definition schedulerLease : string := "scheduler".
Definition cronUniqueTTL : Z := 5 * Minute.

(** ** Cron entries (cron.go) *)

Record CronEntry := mkCronEntry {
  ce_ID : string;
  ce_Spec : string;
  ce_Type : string;
  ce_Payload : option (list byte);
  ce_Queue : string;
  ce_MaxAttempts : Z
}.

Record compiledEntry := mkCompiledEntry { entry : CronEntry; schedule : Schedule }.

(** [cronUniqueKey]. *)
Definition cronUniqueKey (id : string) (fireAt : Z) : string :=
  "cron:" +:+ id +:+ ":" +:+ pretty (UnixMilli fireAt).

(** ** Configuration (server.go) *)

Record Config := mkConfig {
  cfg_Queues : list string;
  cfg_Weights : option (gmap string Z);
  cfg_StrictPriority : bool;
  cfg_Concurrency : Z;
  cfg_VisibilityTimeout : Z;
  cfg_ShutdownTimeout : Z;
  cfg_Backoff : option (Z → Z);
  cfg_WorkerID : string;
  cfg_Cron : list CronEntry
}.

(** Which optional interfaces the broker implements. *)
Record capabilities := mkCapabilities { has_Maintenance : bool; has_CronStore : bool }.

Record Server := mkServer {
  srv_maint : bool;
  srv_cron : bool;
  srv_cfg : Config;
  srv_Backoff : Z → Z;
  srv_host : string;
  srv_queues : queueSelector;
  srv_entries : gmap string compiledEntry
}.

Section server.
Context (ParseDuration : string → res Z) (global : randFunc).

Definition compile (e : CronEntry) : res compiledEntry :=
  if String.eqb (ce_ID e) ""
  then Err (Errorf "%w: cron entry has no ID" [] [Sentinel ErrInvalidTask])
  else if String.eqb (ce_Type e) ""
  then Err (Errorf "%w: cron entry %q has no task type" [ce_ID e] [Sentinel ErrInvalidTask])
  else match Parse ParseDuration (ce_Spec e) with
  | Err err => Err (Errorf "%w: cron entry %q: %w" [ce_ID e] [Sentinel ErrInvalidTask; err])
  | Ok schedule =>
      let q := if String.eqb (ce_Queue e) "" then DefaultQueue else ce_Queue e in
      let n := if bool_decide (ce_MaxAttempts e ≤ 0) then DefaultMaxAttempts else ce_MaxAttempts e in
      Ok (mkCompiledEntry (mkCronEntry (ce_ID e) (ce_Spec e) (ce_Type e) (ce_Payload e) q n) schedule)
  end.

(** The loop over the queue names: the names seen, or the error. *)
Fixpoint check_queues (qs : list string) (seen : gset string) : res (gset string) :=
  match qs with
  | [] => Ok seen
  | q :: qs =>
      if String.eqb q "" then Err (errors_New "taskq: Config.Queues contains an empty queue name")
      else if bool_decide (q ∈ seen) then Err (Errorf "taskq: Config.Queues lists %q twice" [q] [])
      else check_queues qs ({[q]} ∪ seen)
  end.

(** The loop over the weights, in the order the map is ranged over. *)
Fixpoint check_weights (ws : list (string * Z)) (seen : gset string) : option error :=
  match ws with
  | [] => None
  | (name, w) :: ws =>
      if bool_decide (name ∉ seen)
      then Some (Errorf "taskq: Config.Weights names %q, which is not in Config.Queues" [name] [])
      else if bool_decide (w < 1)
      then Some (Errorf "taskq: Config.Weights[%q] = %d, must be at least 1" [name; pretty w] [])
      else check_weights ws seen
  end.

(** The loop that parses every schedule up front. *)
Fixpoint compile_all (es : list CronEntry) (entries : gmap string compiledEntry)
  : res (gmap string compiledEntry) :=
  match es with
  | [] => Ok entries
  | e :: es =>
      match compile e with
      | Err err => Err err
      | Ok ce =>
          match entries !! ce_ID (entry ce) with
          | Some _ => Err (Errorf "taskq: duplicate cron entry ID %q" [ce_ID (entry ce)] [])
          | None => compile_all es (<[ce_ID (entry ce) := ce]> entries)
          end
      end
  end.

(** [os.Hostname()] with its fallback. *)
Definition host_name (hostname : option string) : string :=
  match hostname with
  | Some h => if String.eqb h "" then "unknown" else h
  | None => "unknown"
  end.

(** [generateWorkerID]: [NewID()[:8]] is the first eight characters. *)
Definition generateWorkerID (hostname : option string) (pid : Z) (NewID : string) : string :=
  host_name hostname +:+ ":" +:+ pretty pid +:+ ":" +:+ String.substring 0 8 NewID.

(** The defaults NewServer fills in. *)
Definition fill_config (cfg : Config) (genID : string) : Config :=
  mkConfig (cfg_Queues cfg) (cfg_Weights cfg) (cfg_StrictPriority cfg)
    (if bool_decide (cfg_Concurrency cfg ≤ 0) then DefaultConcurrency else cfg_Concurrency cfg)
    (if bool_decide (cfg_VisibilityTimeout cfg ≤ 0) then DefaultVisibilityTimeout
     else cfg_VisibilityTimeout cfg)
    (if bool_decide (cfg_ShutdownTimeout cfg ≤ 0) then DefaultShutdownTimeout
     else cfg_ShutdownTimeout cfg)
    (match cfg_Backoff cfg with
     | Some f => Some f
     | None => Some (Backoff.Next global zeroExponential)
     end)
    (if String.eqb (cfg_WorkerID cfg) "" then genID else cfg_WorkerID cfg)
    (cfg_Cron cfg).

(** [NewServer]; the broker is nil or has some of the optional interfaces. *)
Definition NewServer (b : option capabilities) (cfg : Config) (hostname : option string) (pid : Z)
  (NewID : string) : res Server :=
  match b with
  | None => Err (errors_New "taskq: nil broker")
  | Some caps =>
    if bool_decide (length (cfg_Queues cfg) = 0%nat)
    then Err (errors_New "taskq: Config.Queues must name at least one queue")
    else
      seenQueue ← check_queues (cfg_Queues cfg) ∅;
      match check_weights (map_to_list (default ∅ (cfg_Weights cfg))) seenQueue with
      | Some err => Err err
      | None =>
          let cfg := fill_config cfg (generateWorkerID hostname pid NewID) in
          entries ← compile_all (cfg_Cron cfg) ∅;
          if bool_decide (0 < size entries)%nat && negb (has_CronStore caps)
          then Err (errors_New "taskq: Config.Cron was set but the broker does not implement taskq.CronStore")
          else if bool_decide (0 < size entries)%nat && negb (has_Maintenance caps)
          then Err (errors_New "taskq: Config.Cron requires a broker implementing taskq.Maintenance for leader election")
          else
            Ok (mkServer (has_Maintenance caps) (has_CronStore caps) cfg
                  (default (Backoff.Next global zeroExponential) (cfg_Backoff cfg))
                  (host_name hostname)
                  (newQueueSelector (cfg_Queues cfg) (cfg_Weights cfg) (cfg_StrictPriority cfg))
                  entries)
      end
  end.
End server.

(** ** Intervals *)

(** [jitter(d)] with a draw of [rand.Int64N]. *)
Definition jitter (draw : Z → Z) (d : Z) : Z :=
  if bool_decide (d ≤ 1) then d
  else let half := Z.quot d 2 in wrap64 (half + draw half).

(** Falling back to a second when a division rounds down to nothing. *)
Definition or_second (d : Z) : Z := if bool_decide (d ≤ 0) then Second else d.

(** The intervals of renewLoop, reapLoop, promoteLoop, and of heartbeatLoop and
    schedulerLoop, whose time to live is three intervals. *)
Definition renewInterval (vt : Z) : Z := or_second (Z.quot vt 3).
Definition reapInterval (vt : Z) : Z := or_second (Z.quot vt 2).
Definition promoteInterval (vt : Z) : Z := or_second (Z.min Second (Z.quot vt 2)).
Definition beatInterval (vt : Z) : Z := or_second (Z.min (5 * Second) (Z.quot vt 2)).
Definition beatTTL (vt : Z) : Z := wrap64 (3 * beatInterval vt).

(** The delay before the next poll, after an idle one. *)
Definition idle_delay (delay : Z) : Z := Z.min (wrap64 (delay * 2)) maxPollInterval.

(** The configurations a worker can run with, on a broker with these interfaces. *)
Record valid_config (PD : string → res Z) (caps : capabilities) (cfg : Config) : Prop := mkValidConfig {
  vc_queues : cfg_Queues cfg ≠ [];
  vc_named : "" ∉ cfg_Queues cfg;
  vc_once : NoDup (cfg_Queues cfg);
  vc_weights : ∀ n w, default ∅ (cfg_Weights cfg) !! n = Some w → n ∈ cfg_Queues cfg ∧ 1 ≤ w;
  vc_ids : NoDup (ce_ID <$> cfg_Cron cfg);
  vc_entries : ∀ e, e ∈ cfg_Cron cfg → ∃ ce, compile PD e = Ok ce;
  vc_caps : cfg_Cron cfg ≠ [] → has_CronStore caps = true ∧ has_Maintenance caps = true
}.

(** What the loops of a worker rely on. *)
Record server_ok (PD : string → res Z) (cfg : Config) (srv : Server) : Prop := mkServerOk {
  so_queues : cfg_Queues (srv_cfg srv) = cfg_Queues cfg;
  so_concurrency : 0 < cfg_Concurrency (srv_cfg srv);
  so_visibility : 0 < cfg_VisibilityTimeout (srv_cfg srv);
  so_shutdown : 0 < cfg_ShutdownTimeout (srv_cfg srv);
  so_worker : cfg_WorkerID (srv_cfg srv) ≠ "";
  so_selector : srv_queues srv =
    newQueueSelector (cfg_Queues cfg) (cfg_Weights cfg) (cfg_StrictPriority cfg);
  so_weights : ∀ q, q ∈ cfg_Queues cfg → 0 < weight_of (cfg_Weights cfg) q;
  so_entries : ∀ e, e ∈ cfg_Cron cfg →
    ∃ ce, compile PD e = Ok ce ∧ srv_entries srv !! ce_ID e = Some ce;
  so_only : ∀ id, is_Some (srv_entries srv !! id) → id ∈ ce_ID <$> cfg_Cron cfg
}.

(** Two queues, each weighing half of the largest sum of weights and one more. *)
Definition heavy_config : Config :=
  mkConfig ["a"; "b"] (Some {["a" := 2 ^ 62; "b" := 2 ^ 62]}) false 0 0 0 None "" [].

(** ** Lemmas: validation *)

Lemma check_queues_spec qs seen :
  match check_queues qs seen with
  | Ok seen' => "" ∉ qs ∧ NoDup qs ∧ (∀ q, q ∈ qs → q ∉ seen) ∧ seen' = list_to_set qs ∪ seen
  | Err _ => ¬ ("" ∉ qs ∧ NoDup qs ∧ ∀ q, q ∈ qs → q ∉ seen)
  end.
Proof.
  revert seen. induction qs as [|q qs IH]; intros seen; cbn [check_queues].
  { split_and!; [apply not_elem_of_nil|constructor| |].
    - intros q Hq. by apply elem_of_nil in Hq.
    - simpl. by rewrite (left_id_L ∅ (∪)). }
  destruct (String.eqb_spec q "") as [->|Hq].
  { intros (H & _). apply H. by left. }
  destruct (bool_decide_reflect (q ∈ seen)) as [Hs|Hs].
  { intros (_ & _ & H). apply (H q); [by left|done]. }
  specialize (IH ({[q]} ∪ seen)). destruct (check_queues qs ({[q]} ∪ seen)) as [seen'|e].
  - destruct IH as (H1 & H2 & H3 & ->). split_and!.
    + rewrite not_elem_of_cons. by split.
    + constructor; [|done]. intros Hin. by apply (H3 q) in Hin; set_solver.
    + intros q' [->|Hin]%elem_of_cons; [done|]. specialize (H3 q' Hin). set_solver.
    + simpl. set_solver.
  - intros (H1 & H2 & H3). apply NoDup_cons in H2 as [Hn H2]. apply IH. split_and!.
    + set_solver.
    + done.
    + intros q' Hq'. assert (q' ≠ q) by (by intros ->). specialize (H3 q' (list_elem_of_further _ _ _ Hq')).
      set_solver.
Qed.

Lemma check_weights_spec ws seen :
  check_weights ws seen = None ↔ ∀ n w, (n, w) ∈ ws → n ∈ seen ∧ 1 ≤ w.
Proof.
  induction ws as [|[n w] ws IH]; cbn [check_weights].
  { split; [|done]. intros _ n w H. by apply elem_of_nil in H. }
  destruct (bool_decide_reflect (n ∉ seen)) as [Hn|Hn].
  { split; [done|]. intros H. destruct (H n w) as [? _]; [by left|done]. }
  destruct (bool_decide_reflect (w < 1)) as [Hw|Hw].
  { split; [done|]. intros H. destruct (H n w) as [_ ?]; [by left|lia]. }
  rewrite IH. split; intros H n' w'.
  - intros [[= -> ->]|Hin]%elem_of_cons; [|by apply H]. split; [|lia].
    destruct (decide (n ∈ seen)); [done|by destruct Hn].
  - intros Hin. apply H. by right.
Qed.

(** What compile accepts, and what it fills in. *)
Lemma compile_spec PD e :
  match compile PD e with
  | Ok ce =>
      ce_ID e ≠ "" ∧ ce_Type e ≠ "" ∧ Parse PD (ce_Spec e) = Ok (schedule ce) ∧
      ce_ID (entry ce) = ce_ID e ∧ ce_Type (entry ce) = ce_Type e ∧
      ce_Payload (entry ce) = ce_Payload e ∧ ce_Queue (entry ce) ≠ "" ∧ 0 < ce_MaxAttempts (entry ce)
  | Err err => Is err ErrInvalidTask = true ∧
      ¬ (ce_ID e ≠ "" ∧ ce_Type e ≠ "" ∧ ∃ s, Parse PD (ce_Spec e) = Ok s)
  end.
Proof.
  unfold compile. destruct (String.eqb_spec (ce_ID e) "") as [Hi|Hi]; [naive_solver|].
  destruct (String.eqb_spec (ce_Type e) "") as [Ht|Ht]; [naive_solver|].
  destruct (Parse PD (ce_Spec e)) as [s|err]; [|naive_solver]. cbn [entry schedule ce_ID ce_Type ce_Payload ce_Queue ce_MaxAttempts].
  split_and!; try done.
  - by destruct (String.eqb_spec (ce_Queue e) "").
  - unfold DefaultMaxAttempts. case_bool_decide; lia.
Qed.

Lemma compile_all_spec PD es m :
  match compile_all PD es m with
  | Ok m' =>
      NoDup (ce_ID <$> es) ∧ (∀ e, e ∈ es → m !! ce_ID e = None) ∧
      (∀ e, e ∈ es → ∃ ce, compile PD e = Ok ce ∧ m' !! ce_ID e = Some ce) ∧
      ∀ id, id ∉ ce_ID <$> es → m' !! id = m !! id
  | Err _ =>
      ¬ (NoDup (ce_ID <$> es) ∧ (∀ e, e ∈ es → m !! ce_ID e = None) ∧
         ∀ e, e ∈ es → ∃ ce, compile PD e = Ok ce)
  end.
Proof.
  revert m. induction es as [|e es IH]; intros m; cbn [compile_all].
  { split_and!; [constructor|..|done]; intros e He; by apply elem_of_nil in He. }
  pose proof (compile_spec PD e) as HC. destruct (compile PD e) as [ce|err] eqn:Hce.
  2:{ intros (_ & _ & H). destruct (H e) as [? ?]; [by left|congruence]. }
  destruct HC as (_ & _ & _ & Hid & _). rewrite Hid.
  destruct (m !! ce_ID e) as [ce'|] eqn:Hm.
  { intros (_ & H & _). specialize (H e (list_elem_of_here _ _)). congruence. }
  specialize (IH (<[ce_ID e := ce]> m)). destruct (compile_all PD es (<[ce_ID e := ce]> m)) as [m'|err].
  - destruct IH as (H1 & H2 & H3 & H4).
    assert (ce_ID e ∉ ce_ID <$> es) as Hnin.
    { intros (e' & Heq & He')%list_elem_of_fmap. specialize (H2 e' He').
      by rewrite <- Heq, lookup_insert_eq in H2. }
    split_and!.
    + rewrite fmap_cons. by constructor.
    + intros e' [->|He']%elem_of_cons; [done|]. specialize (H2 e' He').
      by apply lookup_insert_None in H2 as [? _].
    + intros e' [->|He']%elem_of_cons; [|by apply H3]. exists ce. split; [done|].
      rewrite H4 by done. apply lookup_insert_eq.
    + intros id. rewrite fmap_cons, not_elem_of_cons. intros [Hne Hn]. rewrite H4 by done.
      by rewrite lookup_insert_ne.
  - intros (H1 & H2 & H3). rewrite fmap_cons, NoDup_cons in H1. destruct H1 as [Hnin H1].
    apply IH. split_and!; [done| |intros e' He'; apply H3; by right].
    intros e' He'. rewrite lookup_insert_ne; [apply H2; by right|].
    intros Heq. apply Hnin. rewrite Heq. by apply list_elem_of_fmap_2.
Qed.

Lemma fill_config_ok g cfg genID :
  genID ≠ "" →
  let cfg' := fill_config g cfg genID in
  0 < cfg_Concurrency cfg' ∧ 0 < cfg_VisibilityTimeout cfg' ∧ 0 < cfg_ShutdownTimeout cfg' ∧
  cfg_WorkerID cfg' ≠ "".
Proof.
  intros Hg. unfold fill_config, DefaultConcurrency, DefaultVisibilityTimeout, DefaultShutdownTimeout.
  cbn [cfg_Concurrency cfg_VisibilityTimeout cfg_ShutdownTimeout cfg_WorkerID]. unfold_durations.
  split_and!; try (case_bool_decide; lia). by destruct (String.eqb_spec (cfg_WorkerID cfg) "").
Qed.

Lemma generateWorkerID_nonempty h pid i : generateWorkerID h pid i ≠ "".
Proof. unfold generateWorkerID. by destruct (host_name h). Qed.

(** Processes of one host have different names. *)
Lemma generateWorkerID_pid h pid1 i1 pid2 i2 : generateWorkerID h pid1 i1 = generateWorkerID h pid2 i2 → pid1 = pid2.
Proof.
  unfold generateWorkerID. intros E%string_app_inj%(string_app_inj ":"). apply (f_equal String.list_ascii_of_string) in E.
  rewrite !ascii_app in E. apply (split_first colon) in E as [E _]; try apply no_colon_Z.
  apply (inj pretty). by apply ascii_inj.
Qed.

Lemma NewServer_cfg PD g b cfg hostname pid NewID srv :
  NewServer PD g (Some b) cfg hostname pid NewID = Ok srv →
  srv_cfg srv = fill_config g cfg (generateWorkerID hostname pid NewID) ∧ srv_maint srv = has_Maintenance b.
Proof.
  unfold NewServer. case_bool_decide; [done|]. destruct (check_queues _ _) as [seen|e]; [|done]. cbn [mbind result_bind].
  destruct (check_weights _ _); [done|]. cbv zeta. destruct (compile_all _ _ _) as [es|e]; [|done]. cbn [mbind result_bind].
  repeat (case_match; try done). by intros [= <-].
Qed.

(** Cron entries were configured exactly when some were compiled. *)
Lemma compiled_nonempty PD es m :
  compile_all PD es ∅ = Ok m → (0 < size m)%nat ↔ es ≠ [].
Proof.
  intros Hc. pose proof (compile_all_spec PD es ∅) as H. rewrite Hc in H.
  destruct H as (_ & _ & H3 & H4). destruct es as [|e es].
  - simpl in Hc. injection Hc as <-. rewrite map_size_empty. split; [lia|done].
  - split; [done|]. intros _. destruct (H3 e) as (ce & _ & Hce); [by left|].
    assert (size m ≠ 0)%nat by (by eapply map_size_ne_0_lookup_2). lia.
Qed.

(** The whole of NewServer. *)
Lemma NewServer_spec PD g caps cfg hostname pid NewID :
  match NewServer PD g (Some caps) cfg hostname pid NewID with
  | Ok srv => valid_config PD caps cfg ∧ server_ok PD cfg srv
  | Err _ => ¬ valid_config PD caps cfg
  end.
Proof.
  unfold NewServer. destruct (bool_decide_reflect (length (cfg_Queues cfg) = 0%nat)) as [Hl|Hl].
  { intros []. by apply vc_queues0, nil_length_inv. }
  pose proof (check_queues_spec (cfg_Queues cfg) ∅) as HQ.
  destruct (check_queues (cfg_Queues cfg) ∅) as [seen|e]; unfold mbind, result_bind.
  2:{ intros []. apply HQ. split_and!; [done|done|]. intros q _. apply not_elem_of_empty. }
  destruct HQ as (Hnamed & Honce & _ & ->).
  pose proof (check_weights_spec (map_to_list (default ∅ (cfg_Weights cfg))) (list_to_set (cfg_Queues cfg) ∪ ∅)) as HW.
  assert (∀ n w, (n, w) ∈ map_to_list (default ∅ (cfg_Weights cfg)) ↔ default ∅ (cfg_Weights cfg) !! n = Some w)
    as Hml by (intros; apply elem_of_map_to_list).
  destruct (check_weights _ _) as [err|].
  { intros []. assert (Some err = None) as H; [|done]. apply HW. intros n w Hin%Hml.
    destruct (vc_weights0 n w Hin) as [Hn Hw]. split; [set_solver|done]. }
  assert (∀ n w, default ∅ (cfg_Weights cfg) !! n = Some w → n ∈ cfg_Queues cfg ∧ 1 ≤ w) as Hws.
  { intros n w Hin%Hml. destruct (proj1 HW eq_refl n w Hin) as [Hn Hw]. split; [set_solver|done]. }
  cbn [fill_config cfg_Cron]. pose proof (compile_all_spec PD (cfg_Cron cfg) ∅) as HC.
  destruct (compile_all PD (cfg_Cron cfg) ∅) as [entries|err] eqn:Hce; cbv beta iota.
  2:{ intros []. apply HC. split_and!; [done|intros; apply lookup_empty|done]. }
  pose proof (compiled_nonempty _ _ _ Hce) as Hne. destruct HC as (Hids & _ & Hent & Hnot).
  assert (bool_decide (0 < size entries)%nat = bool_decide (cfg_Cron cfg ≠ [])) as Hb
    by (by apply bool_decide_ext).
  rewrite Hb. assert (∀ b1 b2, (bool_decide (cfg_Cron cfg ≠ []) && negb b1 = false ∧
    bool_decide (cfg_Cron cfg ≠ []) && negb b2 = false) → cfg_Cron cfg ≠ [] → b1 = true ∧ b2 = true) as Hcaps.
  { intros b1 b2 [H1 H2] Hn. rewrite bool_decide_true in H1, H2 by done. by destruct b1, b2. }
  destruct (bool_decide _ && negb (has_CronStore caps)) eqn:Hc1.
  { intros V. apply andb_true_iff in Hc1 as [Hn%bool_decide_eq_true Hc1].
    destruct (vc_caps _ _ _ V Hn) as [Hx _]. by rewrite Hx in Hc1. }
  destruct (bool_decide _ && negb (has_Maintenance caps)) eqn:Hc2.
  { intros V. apply andb_true_iff in Hc2 as [Hn%bool_decide_eq_true Hc2].
    destruct (vc_caps _ _ _ V Hn) as [_ Hx]. by rewrite Hx in Hc2. }
  split.
  { constructor; try done; [by intros H; rewrite H in Hl| |by apply Hcaps].
    intros e He. destruct (Hent e He) as (ce & Hce' & _). by exists ce. }
  destruct (fill_config_ok g cfg _ (generateWorkerID_nonempty hostname pid NewID)) as (?&?&?&?).
  constructor; try done.
  - intros q Hq. unfold weight_of. destruct (cfg_Weights cfg) as [m|]; [|lia].
    destruct (m !! q) as [w|] eqn:Hw; [|lia]. destruct (Hws q w Hw). lia.
  - intros id [ce Hid]. destruct (decide (id ∈ ce_ID <$> cfg_Cron cfg)) as [|Hn]; [done|].
    cbn [srv_entries] in Hid. rewrite (Hnot id Hn), lookup_empty in Hid. done.
Qed.

Lemma heavy_valid PD caps : valid_config PD caps heavy_config.
Proof.
  constructor; try done.
  - apply (bool_decide_unpack _). by vm_compute.
  - apply (bool_decide_unpack _). by vm_compute.
  - cbn. intros n w. rewrite lookup_insert_Some, lookup_singleton_Some.
    intros [[<- <-]|[_ [<- <-]]]; (split; [apply (bool_decide_unpack _); by vm_compute|lia]).
  - constructor.
  - intros e He. by apply elem_of_nil in He.
Qed.

(** ** Properties *)

(** C22: a worker starts exactly on the valid configurations: NewServer accepts a
    configuration if and only if it names queues, each once and none empty, weighs only
    these and by at least 1, has cron entries with distinct identifiers that all compile,
    and has them only on a broker with the interfaces they need; the worker it returns has
    positive limits and timeouts, an identity, a positive weight for every queue, and
    exactly the compiled entries. *)
Theorem new_server_validates PD g caps cfg hostname pid NewID :
  match NewServer PD g (Some caps) cfg hostname pid NewID with
  | Ok srv => valid_config PD caps cfg ∧ server_ok PD cfg srv
  | Err _ => ¬ valid_config PD caps cfg
  end.
Proof. apply NewServer_spec. Qed.

(** A unique key names one tick of one schedule: the keys of two ticks are the same
    exactly when the entries are the same and the fire times agree to the millisecond,
    whatever characters the identifiers contain, colons included. *)
Theorem cron_keys_distinct id1 t1 id2 t2 :
  cronUniqueKey id1 t1 = cronUniqueKey id2 t2 ↔ id1 = id2 ∧ UnixMilli t1 = UnixMilli t2.
Proof.
  split; [|by intros [-> H]; unfold cronUniqueKey; rewrite H]. unfold cronUniqueKey. intros H.
  apply (f_equal String.list_ascii_of_string) in H. rewrite !ascii_app in H.
  apply app_inj_1 in H as [_ H]; [|done].
  apply split_last in H as [Hi Hp]; try apply no_colon_Z.
  split; [by apply ascii_inj|]. apply (inj pretty). by apply ascii_inj.
Qed.

(** Polling is paced: after any number of idle polls the delay is between the shortest
    and the longest poll interval, doubling until it gets there, and the pause actually
    made, whatever is drawn, is at least half of it and less than the whole. *)
Theorem poll_pacing draw n :
  (∀ b, 0 < b → 0 ≤ draw b < b) →
  let d := Nat.iter n idle_delay minPollInterval in
  d = Z.min (minPollInterval * 2 ^ Z.of_nat n) maxPollInterval ∧
  minPollInterval ≤ d ≤ maxPollInterval ∧ d / 2 ≤ jitter draw d < d.
Proof.
  intros Hdraw d. assert (d = Z.min (minPollInterval * 2 ^ Z.of_nat n) maxPollInterval) as Hd.
  { subst d. induction n as [|n IH]; [done|].
    rewrite Nat.iter_succ, IH. unfold idle_delay, minPollInterval, maxPollInterval. unfold_durations.
    rewrite Nat2Z.inj_succ, Z.pow_succ_r by lia.
    assert (0 < 2 ^ Z.of_nat n) by (apply Z.pow_pos_nonneg; lia).
    rewrite wrap64_id by (unfold int64_range; lia). lia. }
  assert (minPollInterval ≤ d ≤ maxPollInterval) as Hb.
  { rewrite Hd. assert (0 < 2 ^ Z.of_nat n) by (apply Z.pow_pos_nonneg; lia).
    unfold minPollInterval, maxPollInterval. unfold_durations. lia. }
  split; [done|]. split; [done|]. clear Hd. clearbody d.
  unfold minPollInterval, maxPollInterval in Hb. unfold_durations.
  unfold jitter. rewrite bool_decide_eq_false_2 by lia. cbv zeta.
  rewrite Z.quot_div_nonneg by lia.
  assert (0 < d / 2 ∧ d / 2 * 2 ≤ d) as [Hh Hh2] by (Z.to_euclidean_division_equations; lia).
  specialize (Hdraw (d / 2) Hh). rewrite wrap64_id by (unfold int64_range; lia). lia.
Qed.

Lemma poll_pacing_witness :
  Nat.iter 6 idle_delay minPollInterval = maxPollInterval ∧
  125 * Millisecond ≤ jitter (λ b, b - 1) maxPollInterval < 250 * Millisecond.
Proof.
  assert (∀ b, 0 < b → 0 ≤ b - 1 < b) as Hd by lia.
  split; [exact (proj1 (poll_pacing (λ b, b - 1) 6 Hd))|].
  exact (proj2 (proj2 (poll_pacing (λ b, b - 1) 6 Hd))).
Defined.

(** The intervals of the background loops fit the visibility timeout they are derived
    from, with no overflow: all are positive, three renewals fit in a lease, a sweep starts
    at most half a timeout after a lease expired, so that a dead worker's job is looked at
    within one and a half timeouts, and a heartbeat or scheduler lease lasts exactly three
    intervals. *)
Theorem loop_intervals_fit vt :
  2 < vt < 2 ^ 63 →
  0 < renewInterval vt ∧ 3 * renewInterval vt ≤ vt ∧
  0 < reapInterval vt ∧ 2 * (vt + reapInterval vt) ≤ 3 * vt ∧
  0 < promoteInterval vt ≤ Second ∧
  0 < beatInterval vt ≤ 5 * Second ∧ beatTTL vt = 3 * beatInterval vt.
Proof.
  intros Hv. unfold beatTTL, renewInterval, reapInterval, promoteInterval, beatInterval, or_second.
  rewrite !Z.quot_div_nonneg by lia. unfold_durations.
  assert (0 < vt / 3 ∧ 3 * (vt / 3) ≤ vt) by (Z.to_euclidean_division_equations; lia).
  assert (0 < vt / 2 ∧ 2 * (vt / 2) ≤ vt) by (Z.to_euclidean_division_equations; lia).
  rewrite !bool_decide_eq_false_2 by lia. rewrite wrap64_id by (unfold int64_range; lia). lia.
Qed.

Lemma loop_intervals_fit_witness :
  3 * renewInterval DefaultVisibilityTimeout ≤ DefaultVisibilityTimeout ∧
  2 * (DefaultVisibilityTimeout + reapInterval DefaultVisibilityTimeout) ≤ 3 * DefaultVisibilityTimeout.
Proof.
  destruct (loop_intervals_fit DefaultVisibilityTimeout) as (_ & H1 & _ & H2 & _).
  - split; vm_compute; reflexivity.
  - split; [exact H1|exact H2].
Defined.

(** NewServer bounds each weight from below only: it accepts two weights whose sum does
    not fit in 64 bits, and then every poll panics in rand.IntN, because the total has
    wrapped around to a negative number. *)
Theorem weight_sum_overflow PD g caps hostname pid NewID :
  ∃ srv, NewServer PD g (Some caps) heavy_config hostname pid NewID = Ok srv ∧
         ∀ draws, next draws (srv_queues srv) = None.
Proof.
  pose proof (NewServer_spec PD g caps heavy_config hostname pid NewID) as HS.
  destruct (NewServer PD g (Some caps) heavy_config hostname pid NewID) as [srv|e].
  2:{ destruct HS. apply heavy_valid. }
  exists srv. split; [done|]. intros draws. rewrite (so_selector _ _ _ (proj2 HS)).
  assert (newQueueSelector (cfg_Queues heavy_config) (cfg_Weights heavy_config) (cfg_StrictPriority heavy_config) =
    mkQueueSelector ["a"; "b"] [2 ^ 62; 2 ^ 62] (- 2 ^ 63) false [] []) as -> by (by vm_compute).
  done.
Qed.
