(* ===== verification/Worker.v ===== *)
(** * Running jobs (worker.go, maintenance.go)

    The worker runtime: the loop that claims jobs, the goroutine of each job,
    the table of jobs in flight and the renewal of their leases, as a
    transition system over the goroutines' atomic actions. A critical section
    of [s.mu], a broker call and a channel operation are each one action;
    anything may happen between two of them, the operations other processes
    make on the broker included. Handlers are user code: a run ends with any
    outcome. Logging is left out. *)
From S2P Require Import Prelude GoBase Job Backoff Queues Interface BrokerAPI Client Calendar Schedule CronParse Server.

(** ** State *)

(** Where the goroutine of a job is: not yet in the table, running its handler, or
    past the report of the outcome. *)
Inductive phase := Spawned | Running | Reported.

(** Where fetchLoop is: waiting for a slot, holding one and about to ask for work,
    asleep with the delay to use when it wakes, or returned. *)
Inductive fetch := AtSelect | Claiming | Sleeping (after : Z) | Returned.

(** Where renewLoop is: about to call Extend for these jobs, or with these left to
    cancel (none: asleep). *)
Inductive renewal := Listed (ids : list string) | Cancelling (ids : list string).

(** Where Run is: before drain, waiting for the jobs in flight, waiting for the
    cancelled ones, or returned. *)
Inductive shutdown := Serving | Draining | Forced | Exited (err : option error).

#[export] Instance phase_eq_dec : EqDecision phase.
Proof. solve_decision. Defined.

(** A run is named by a number, which also names its context: [inFlight] maps a job
    to the context its cancel function cancels. [slots] counts the tokens in the
    channel of the same name. *)
Record Worker (S : Type) := mkWorker {
  broker : S;
  selector : queueSelector;
  inFlight : gmap string nat;
  cancelled : gset nat;
  runs : gmap nat (Job * phase);
  spawned : nat;
  slots : nat;
  fetching : fetch;
  poll_delay : Z;
  renewing : renewal;
  failures : Z;
  stopping : shutdown
}.
Arguments mkWorker {S}.
Arguments broker {S}.
Arguments selector {S}.
Arguments inFlight {S}.
Arguments cancelled {S}.
Arguments runs {S}.
Arguments spawned {S}.
Arguments slots {S}.
Arguments fetching {S}.
Arguments poll_delay {S}.
Arguments renewing {S}.
Arguments failures {S}.
Arguments stopping {S}.

(** ** Operations *)

Section worker.
Context {S : Type} `{BrokerOps S}.
(** [err.Error()], and the worker. *)
Context (Error_ : error → string) (srv : Server).

Abbreviation workerID := (cfg_WorkerID (srv_cfg srv)).
Abbreviation vt := (cfg_VisibilityTimeout (srv_cfg srv)).

Definition set_broker (s : S) (w : Worker S) : Worker S :=
  mkWorker s (selector w) (inFlight w) (cancelled w) (runs w) (spawned w) (slots w) (fetching w)
    (poll_delay w) (renewing w) (failures w) (stopping w).
Definition set_inFlight (m : gmap string nat) (w : Worker S) : Worker S :=
  mkWorker (broker w) (selector w) m (cancelled w) (runs w) (spawned w) (slots w) (fetching w)
    (poll_delay w) (renewing w) (failures w) (stopping w).
Definition set_cancelled (c : gset nat) (w : Worker S) : Worker S :=
  mkWorker (broker w) (selector w) (inFlight w) c (runs w) (spawned w) (slots w) (fetching w)
    (poll_delay w) (renewing w) (failures w) (stopping w).
Definition set_runs (r : gmap nat (Job * phase)) (w : Worker S) : Worker S :=
  mkWorker (broker w) (selector w) (inFlight w) (cancelled w) r (spawned w) (slots w) (fetching w)
    (poll_delay w) (renewing w) (failures w) (stopping w).
Definition set_fetch (f : fetch) (d : Z) (n : nat) (w : Worker S) : Worker S :=
  mkWorker (broker w) (selector w) (inFlight w) (cancelled w) (runs w) (spawned w) n f
    d (renewing w) (failures w) (stopping w).
Definition set_renewal (r : renewal) (f : Z) (w : Worker S) : Worker S :=
  mkWorker (broker w) (selector w) (inFlight w) (cancelled w) (runs w) (spawned w) (slots w)
    (fetching w) (poll_delay w) r f (stopping w).
Definition set_stopping (d : shutdown) (w : Worker S) : Worker S :=
  mkWorker (broker w) (selector w) (inFlight w) (cancelled w) (runs w) (spawned w) (slots w)
    (fetching w) (poll_delay w) (renewing w) (failures w) d.

(** The table of jobs in flight. *)
Definition trackJob (id : string) (cancel : nat) (w : Worker S) : Worker S :=
  set_inFlight (<[id := cancel]> (inFlight w)) w.
Definition untrackJob (id : string) (w : Worker S) : Worker S :=
  set_inFlight (delete id (inFlight w)) w.
Definition inFlightIDs (w : Worker S) : list string := (map_to_list (inFlight w)).*1.
Definition inFlightCount (w : Worker S) : Z := Z.of_nat (size (inFlight w)).
Definition cancel (k : nat) (w : Worker S) : Worker S := set_cancelled ({[k]} ∪ cancelled w) w.
Definition cancelJob (id : string) (w : Worker S) : Worker S :=
  match inFlight w !! id with Some k => cancel k w | None => w end.

(** [invoke]: what the handler returned, or its panic as an error. *)
Definition invoke (outcome : may_panic (option error)) : option error :=
  match outcome with
  | Done err => err
  | Panic r => Some (Errorf "taskq: handler panicked: %v" [r] [])
  end.

(** The report runJob makes of an outcome; its own error is only logged. *)
Definition report (err : option error) (j : Job) (now : Z) (s : S) : S * option error :=
  match err with
  | None => b_Ack workerID (ID j) now s
  | Some err =>
      if Is err ErrSkipRetry then b_Kill workerID (ID j) (Error_ err) now s
      else
        let delay := srv_Backoff srv (Attempt j) in
        let retryAt := Add now delay in
        b_Nack workerID (ID j) retryAt (Error_ err) now s
  end.

(** runJob up to the handler, its report, and its deferred calls with those of the
    goroutine that made the call. *)
Definition run_start (k : nat) (j : Job) (w : Worker S) : Worker S :=
  set_runs (<[k := (j, Running)]> (runs w)) (trackJob (ID j) k w).
Definition run_report (k : nat) (j : Job) (outcome : may_panic (option error)) (now : Z)
  (w : Worker S) : Worker S :=
  set_runs (<[k := (j, Reported)]> (runs w))
    (set_broker (report (invoke outcome) j now (broker w)).1 w).
Definition run_finish (k : nat) (j : Job) (w : Worker S) : Worker S :=
  let w := cancel k (untrackJob (ID j) w) in
  let w := set_runs (delete k (runs w)) w in
  set_fetch (fetching w) (poll_delay w) (pred (slots w)) w.

(** fetchLoop: taking a slot, asking for work with it, and waking up. *)
Definition fetch_slot (w : Worker S) : Worker S :=
  set_fetch Claiming (poll_delay w) (Datatypes.S (slots w)) w.
Definition fetch_claim (draws : nat → Z → Z) (now : Z) (ctx_done : bool) (w : Worker S)
  : option (Worker S) :=
  match next draws (selector w) with
  | None => None
  | Some (sel, order) =>
      let '(s, r) := b_Dequeue (mkClaimOpts workerID order vt) now (broker w) in
      let w := mkWorker s sel (inFlight w) (cancelled w) (runs w) (spawned w) (slots w)
                 (fetching w) (poll_delay w) (renewing w) (failures w) (stopping w) in
      match r with
      | Ok job =>
          let w := mkWorker s sel (inFlight w) (cancelled w) (<[spawned w := (job, Spawned)]> (runs w))
                     (Datatypes.S (spawned w)) (slots w) (fetching w) (poll_delay w) (renewing w)
                     (failures w) (stopping w) in
          Some (set_fetch AtSelect minPollInterval (slots w) w)
      | Err err =>
          if Is err ErrNoJob
          then Some (set_fetch (Sleeping (idle_delay (poll_delay w))) (poll_delay w) (pred (slots w)) w)
          else if ctx_done then Some (set_fetch Returned (poll_delay w) (pred (slots w)) w)
          else Some (set_fetch (Sleeping (poll_delay w)) (poll_delay w) (pred (slots w)) w)
      end
  end.
Definition fetch_wake (after : Z) (w : Worker S) : Worker S := set_fetch AtSelect after (slots w) w.
Definition fetch_return (w : Worker S) : Worker S := set_fetch Returned (poll_delay w) (slots w) w.

(** renewLoop: listing the jobs in flight, renewing their leases, cancelling. *)
Definition renew_list (w : Worker S) : Worker S :=
  match inFlightIDs w with
  | [] => set_renewal (Cancelling []) 0 w
  | ids => set_renewal (Listed ids) (failures w) w
  end.
Definition renew_extend (ids : list string) (now : Z) (w : Worker S) : Worker S :=
  let '(s, r) := b_Extend workerID ids vt now (broker w) in
  let w := set_broker s w in
  match r with
  | Err _ =>
      let failures := failures w + 1 in
      if bool_decide (maxRenewFailures ≤ failures) then set_renewal (Cancelling ids) 0 w
      else set_renewal (Cancelling []) failures w
  | Ok lost => set_renewal (Cancelling lost) 0 w
  end.
Definition renew_cancel (id : string) (ids : list string) (w : Worker S) : Worker S :=
  set_renewal (Cancelling ids) (failures w) (cancelJob id w).

(** A whole pass of renewLoop, when nothing comes between its actions. *)
Definition renew_cancels (ids : list string) (w : Worker S) : Worker S :=
  set_renewal (Cancelling []) (failures w) (foldl (λ w id, cancelJob id w) w ids).
Definition renew_pass (now : Z) (w : Worker S) : Worker S :=
  let w := renew_list w in
  match renewing w with
  | Listed ids =>
      let w := renew_extend ids now w in
      match renewing w with Cancelling l => renew_cancels l w | Listed _ => w end
  | Cancelling _ => w
  end.

(** drain: waiting for the jobs in flight, giving up on waiting, which cancels them
    all, and giving up on them. *)
Definition drain_begin (w : Worker S) : Worker S := set_stopping Draining w.
Definition drain_done (w : Worker S) : Worker S := set_stopping (Exited None) w.
Definition drain_deadline (w : Worker S) : Worker S := set_stopping Forced w.
Definition drain_abandon (w : Worker S) : Worker S :=
  set_stopping (Exited (Some (errors_New "taskq: shutdown timed out with jobs still running"))) w.

(** Is the context of a run cancelled: on its own, or with those of all jobs? *)
Definition ctx_cancelled (w : Worker S) (k : nat) : Prop :=
  k ∈ cancelled w ∨ match stopping w with Serving | Draining => False | _ => True end.

(** A worker that starts. *)
Definition worker_start (s : S) : Worker S :=
  mkWorker s (srv_queues srv) ∅ ∅ ∅ 0 0 AtSelect minPollInterval (Cancelling []) 0 Serving.

(** ** The transition system *)

Inductive wstep (Env : S → S → Prop) (w : Worker S) : Worker S → Prop :=
| step_slot :
    fetching w = AtSelect → Z.of_nat (slots w) < cfg_Concurrency (srv_cfg srv) →
    wstep Env w (fetch_slot w)
| step_claim draws now ctx_done w' :
    fetching w = Claiming → fetch_claim draws now ctx_done w = Some w' → wstep Env w w'
| step_wake d : fetching w = Sleeping d → wstep Env w (fetch_wake d w)
| step_return :
    fetching w = AtSelect ∨ (∃ d, fetching w = Sleeping d) → wstep Env w (fetch_return w)
| step_start k j : runs w !! k = Some (j, Spawned) → wstep Env w (run_start k j w)
| step_report k j outcome now :
    runs w !! k = Some (j, Running) → wstep Env w (run_report k j outcome now w)
| step_finish k j : runs w !! k = Some (j, Reported) → wstep Env w (run_finish k j w)
| step_renew_list : renewing w = Cancelling [] → wstep Env w (renew_list w)
| step_renew_extend ids now : renewing w = Listed ids → wstep Env w (renew_extend ids now w)
| step_renew_cancel id ids :
    renewing w = Cancelling (id :: ids) → wstep Env w (renew_cancel id ids w)
| step_drain : fetching w = Returned → stopping w = Serving → wstep Env w (drain_begin w)
| step_drained :
    runs w = ∅ → stopping w = Draining ∨ stopping w = Forced → wstep Env w (drain_done w)
| step_deadline : stopping w = Draining → wstep Env w (drain_deadline w)
| step_abandon : stopping w = Forced → wstep Env w (drain_abandon w)
| step_env s : Env (broker w) s → wstep Env w (set_broker s w).

(** The invariant of the runtime: a slot is held by every live run, and by
    fetchLoop while it asks; and the table lists only live runs, under their jobs. *)
Record wok (w : Worker S) : Prop := mkWok {
  wok_slots : slots w = (size (runs w) + match fetching w with Claiming => 1 | _ => 0 end)%nat;
  wok_limit : Z.of_nat (slots w) ≤ cfg_Concurrency (srv_cfg srv);
  wok_fresh : ∀ k, is_Some (runs w !! k) → (k < spawned w)%nat;
  wok_live : ∀ id k, inFlight w !! id = Some k →
    ∃ j ph, runs w !! k = Some (j, ph) ∧ ph ≠ Spawned ∧ ID j = id
}.

(** Nothing is claimed during the shutdown, and Run returns without an error only
    when no run is left. *)
Definition stop_ok (w : Worker S) : Prop :=
  (stopping w ≠ Serving → fetching w = Returned) ∧ (stopping w = Exited None → runs w = ∅).

(** The actions of the goroutines of jobs. *)
Definition rstep (w w' : Worker S) : Prop :=
  ∃ k j, (runs w !! k = Some (j, Spawned) ∧ w' = run_start k j w) ∨
         (runs w !! k = Some (j, Running) ∧ ∃ outcome now, w' = run_report k j outcome now w) ∨
         (runs w !! k = Some (j, Reported) ∧ w' = run_finish k j w).

(** How many actions the live runs have left. *)
Definition phase_left (ph : phase) : nat :=
  match ph with Spawned => 3 | Running => 2 | Reported => 1 end.
Definition runs_left (w : Worker S) : nat := map_fold (λ _ r n, phase_left r.2 + n)%nat 0%nat (runs w).

(** No other live run is of the same job as the run [k]. *)
Definition alone (k : nat) (w : Worker S) : Prop :=
  ∀ k' j j' ph ph', runs w !! k = Some (j, ph) → runs w !! k' = Some (j', ph') → ID j' = ID j → k' = k.

(** The run [k] is in the table once it has started. *)
Definition tracked (k : nat) (w : Worker S) : Prop :=
  ∀ j ph, runs w !! k = Some (j, ph) → ph ≠ Spawned → inFlight w !! ID j = Some k.
End worker.

(** ** Lemmas: the invariant *)

Section worker_lemmas.
Context {S : Type} `{BrokerOps S} (Error_ : error → string) (srv : Server).
Implicit Types w : Worker S.

(** Cancelling changes nothing but the set of cancelled contexts. *)
Lemma cancelJob_frame id w :
  runs (cancelJob id w) = runs w ∧ inFlight (cancelJob id w) = inFlight w ∧
  slots (cancelJob id w) = slots w ∧ fetching (cancelJob id w) = fetching w ∧
  spawned (cancelJob id w) = spawned w ∧ broker (cancelJob id w) = broker w ∧
  failures (cancelJob id w) = failures w ∧ stopping (cancelJob id w) = stopping w ∧
  cancelled (cancelJob id w) =
    match inFlight w !! id with Some k => {[k]} ∪ cancelled w | None => cancelled w end.
Proof. unfold cancelJob. by destruct (inFlight w !! id). Qed.

Lemma renew_list_frame w :
  runs (renew_list w) = runs w ∧ inFlight (renew_list w) = inFlight w ∧
  slots (renew_list w) = slots w ∧ fetching (renew_list w) = fetching w ∧
  spawned (renew_list w) = spawned w ∧ stopping (renew_list w) = stopping w.
Proof. unfold renew_list. by destruct (inFlightIDs w). Qed.

Lemma renew_extend_frame ids now w :
  let w' := renew_extend srv ids now w in
  runs w' = runs w ∧ inFlight w' = inFlight w ∧ slots w' = slots w ∧ fetching w' = fetching w ∧
  spawned w' = spawned w ∧ stopping w' = stopping w.
Proof.
  unfold renew_extend. destruct (b_Extend _ _ _ _ _) as [s [lost|e]]; simpl; [done|]. by case_bool_decide.
Qed.

(** What wok and tracked read. *)
Lemma wok_frame w w' :
  wok srv w → runs w' = runs w → inFlight w' = inFlight w → slots w' = slots w →
  fetching w' = fetching w → spawned w' = spawned w → wok srv w'.
Proof.
  intros [] Hr Hi Hs Hf Hsp. constructor; rewrite ?Hr, ?Hi, ?Hs, ?Hf, ?Hsp; done.
Qed.

(** fetchLoop either starts a run of the job it claimed, with its slot, or gives the slot back. *)
Lemma fetch_claim_spec draws now ctx_done w w' :
  fetch_claim srv draws now ctx_done w = Some w' →
  inFlight w' = inFlight w ∧ fetching w' ≠ Claiming ∧ stopping w' = stopping w ∧
  ((∃ j, runs w' = <[spawned w := (j, Spawned)]> (runs w) ∧ spawned w' = Datatypes.S (spawned w) ∧
         slots w' = slots w) ∨
   (runs w' = runs w ∧ spawned w' = spawned w ∧ slots w' = pred (slots w))).
Proof.
  unfold fetch_claim. destruct (next draws (selector w)) as [[sel ord]|]; [|done].
  destruct (b_Dequeue _ _ _) as [s [j|e]]; simpl.
  - intros [= <-]. simpl. split_and!; try done. left. by exists j.
  - destruct (Is e ErrNoJob); [|destruct ctx_done]; intros [= <-]; simpl; (split_and!; [done..|by right]).
Qed.

Lemma wok_start (s : S) : 0 < cfg_Concurrency (srv_cfg srv) → wok srv (worker_start srv s).
Proof.
  intros Hc. constructor; simpl; [done|lia| |].
  - intros k [x Hx]. by rewrite lookup_empty in Hx.
  - intros id k Hx. by rewrite lookup_empty in Hx.
Qed.

(** Moving a live run to a later phase keeps the runs that are live. *)
Lemma wok_runs_phase w k j ph ph' :
  wok srv w → runs w !! k = Some (j, ph) → ph' ≠ Spawned →
  wok srv (set_runs (<[k := (j, ph')]> (runs w)) w).
Proof.
  intros [H1 H2 H3 H4] Hk Hph. constructor; simpl; [|done| |].
  - by rewrite map_size_insert_Some by (by eexists).
  - intros k' [x Hx]. apply lookup_insert_Some in Hx as [[<- _]|[_ Hx]]; apply H3; by eexists.
  - intros id k' Hid. destruct (H4 id k' Hid) as (j0 & ph0 & Hr & Hp & Hj).
    destruct (decide (k' = k)) as [->|Hne].
    + rewrite Hk in Hr. simplify_eq. exists j0, ph'. by rewrite lookup_insert_eq.
    + exists j0, ph0. by rewrite lookup_insert_ne.
Qed.

Lemma wok_step Env w w' : wok srv w → wstep Error_ srv Env w w' → wok srv w'.
Proof.
  intros HW Hstep. pose proof HW as [H1 H2 H3 H4]. destruct Hstep as
    [Hf Hlt|draws now d w' Hf Hw'|d Hf|Hf|k j Hk|k j o now Hk|k j Hk|Hr|ids now Hr|id ids Hr
    |Hf Hd|Hr Hd|Hd|Hd|s Hs].
  - constructor; simpl; rewrite ?Hf in *; try done; lia.
  - apply fetch_claim_spec in Hw' as (Hi & Hnc & _ & Hcase). rewrite Hf in H1.
    assert (runs w !! spawned w = None) as Hnew.
    { destruct (runs w !! spawned w) eqn:E; [|done]. assert (spawned w < spawned w)%nat; [|lia]. apply H3. by eexists. }
    destruct Hcase as [(j & Hr & Hsp & Hsl)|(Hr & Hsp & Hsl)]; constructor; rewrite ?Hr, ?Hsp, ?Hsl, ?Hi.
    + rewrite map_size_insert_None by done. destruct (fetching w'); (done || lia).
    + done.
    + intros k [x Hx]. apply lookup_insert_Some in Hx as [[<- _]|[_ Hx]]; [lia|].
      assert (k < spawned w)%nat by (apply H3; by eexists). lia.
    + intros id k Hid. destruct (H4 id k Hid) as (j0 & ph & Hk & Hph & Hj). exists j0, ph.
      rewrite lookup_insert_ne; [done|]. intros <-. congruence.
    + destruct (fetching w'); (done || lia).
    + lia.
    + done.
    + done.
  - constructor; simpl; rewrite ?Hf in *; done.
  - constructor; simpl; try done. destruct Hf as [Hf|[d Hf]]; by rewrite Hf in H1.
  - assert (wok srv (set_runs (<[k := (j, Running)]> (runs w)) w)) as [G1 G2 G3 G4]
      by (by eapply wok_runs_phase).
    constructor; simpl; try done. intros id k' Hid. apply lookup_insert_Some in Hid as [[<- <-]|[_ Hid]].
    + exists j, Running. by rewrite lookup_insert_eq.
    + by apply G4.
  - eapply (wok_frame (set_runs (<[k := (j, Reported)]> (runs w)) w)); try done. by eapply wok_runs_phase.
  - assert (size (runs w) ≠ 0)%nat as Hne by (by eapply map_size_ne_0_lookup_2; eexists).
    constructor; simpl.
    + rewrite map_size_delete, Hk. lia.
    + lia.
    + intros k' [x Hx]. apply lookup_delete_Some in Hx as [_ Hx]. apply H3. by eexists.
    + intros id k' Hid. apply lookup_delete_Some in Hid as [Hne' Hid].
      destruct (H4 id k' Hid) as (j0 & ph & Hr & Hph & Hj). exists j0, ph.
      rewrite lookup_delete_ne; [done|]. intros <-. rewrite Hk in Hr. by simplify_eq.
  - destruct (renew_list_frame w) as (? & ? & ? & ? & ? & _). by eapply wok_frame.
  - destruct (renew_extend_frame ids now w) as (? & ? & ? & ? & ? & _). by eapply wok_frame.
  - destruct (cancelJob_frame id w) as (? & ? & ? & ? & ? & _). by eapply wok_frame.
  - by apply (wok_frame w).
  - by apply (wok_frame w).
  - by apply (wok_frame w).
  - by apply (wok_frame w).
  - by apply (wok_frame w).
Qed.

Lemma stop_ok_frame w w' :
  stop_ok w → runs w' = runs w → fetching w' = fetching w → stopping w' = stopping w → stop_ok w'.
Proof. unfold stop_ok. intros ? -> -> ->. done. Qed.

Lemma stop_ok_step Env w w' : stop_ok w → wstep Error_ srv Env w w' → stop_ok w'.
Proof.
  intros HW Hstep. pose proof HW as [H1 H2].
  assert (fetching w ≠ Returned → stopping w = Serving) as Hserv.
  { intros Hf. destruct (stopping w) eqn:E; [done|..]; by destruct Hf; apply H1. }
  assert (∀ k x, runs w !! k = Some x → stopping w ≠ Exited None) as Hlive.
  { intros k x Hk HE. rewrite (H2 HE), lookup_empty in Hk. done. }
  destruct Hstep as
    [Hf Hlt|draws now d w' Hf Hw'|d Hf|Hf|k j Hk|k j o now Hk|k j Hk|Hr|ids now Hr|id ids Hr
    |Hf Hd|Hr Hd|Hd|Hd|s Hs].
  - assert (stopping w = Serving) as E by (apply Hserv; by rewrite Hf). by split; simpl; rewrite E.
  - assert (stopping w = Serving) as E by (apply Hserv; by rewrite Hf).
    apply fetch_claim_spec in Hw' as (_ & _ & Hst & _). by split; rewrite Hst, E.
  - assert (stopping w = Serving) as E by (apply Hserv; by rewrite Hf). by split; simpl; rewrite E.
  - by split.
  - split; simpl; [done|]. intros HE. by apply Hlive in Hk.
  - split; simpl; [done|]. intros HE. by apply Hlive in Hk.
  - split; simpl; [done|]. intros HE. by apply Hlive in Hk.
  - destruct (renew_list_frame w) as (? & _ & _ & ? & _ & ?). by eapply stop_ok_frame.
  - destruct (renew_extend_frame ids now w) as (? & _ & _ & ? & _ & ?). by eapply stop_ok_frame.
  - destruct (cancelJob_frame id w) as (? & _ & _ & ? & _ & _ & _ & ? & _). by eapply stop_ok_frame.
  - by split.
  - split; simpl; [|done]. intros _. apply H1. by destruct Hd as [-> | ->].
  - split; simpl; [|done]. intros _. apply H1. by rewrite Hd.
  - split; simpl; [|done]. intros _. apply H1. by rewrite Hd.
  - by apply (stop_ok_frame w).
Qed.

Lemma wok_reachable Env (s : S) w :
  0 < cfg_Concurrency (srv_cfg srv) → rtc (wstep Error_ srv Env) (worker_start srv s) w → wok srv w.
Proof.
  intros Hc Hr. apply (rtc_invariant _ _ _ _ (wok_step Env) Hr). by apply wok_start.
Qed.

(** ** Lemmas: the table *)

Lemma tracked_step Env k w w' :
  alone k w → tracked k w → wstep Error_ srv Env w w' → tracked k w'.
Proof.
  intros Halone HT Hstep.
  assert (∀ w', runs w' = runs w → inFlight w' = inFlight w → tracked k w') as Hframe.
  { intros w1 Hr Hi j ph. rewrite Hr, Hi. apply HT. }
  destruct Hstep as
    [Hf Hlt|draws now d w' Hf Hw'|d Hf|Hf|k0 j0 Hk|k0 j0 o now Hk|k0 j0 Hk|Hr|ids now Hr|id ids Hr
    |Hf Hd|Hr Hd|Hd|Hd|s Hs]; try by apply Hframe.
  - apply fetch_claim_spec in Hw' as (Hi & _ & _ & [(j & Hr & _)|(Hr & _)]); [|by apply Hframe].
    intros j' ph. rewrite Hr, Hi. intros [[<- [= <- <-]]|[_ Hk]]%lookup_insert_Some; [done|]. by apply HT.
  - intros j' ph. simpl. intros [[<- [= <- <-]]|[Hne Hk']]%lookup_insert_Some Hph.
    + by rewrite lookup_insert_eq.
    + rewrite lookup_insert_ne; [by eapply HT|]. intros Heq. apply Hne. by eapply Halone.
  - intros j' ph. simpl. intros [[<- [= <- <-]]|[_ Hk']]%lookup_insert_Some Hph; by eapply HT.
  - intros j' ph. simpl. intros [Hne Hk']%lookup_delete_Some Hph.
    rewrite lookup_delete_ne; [by eapply HT|]. intros Heq. apply Hne. by eapply Halone.
  - destruct (renew_list_frame w) as (? & ? & _). by apply Hframe.
  - destruct (renew_extend_frame ids now w) as (? & ? & _). by apply Hframe.
  - destruct (cancelJob_frame id w) as (? & ? & _). by apply Hframe.
Qed.

(** An execution in which a run is never beside another one of the same job. *)
Lemma tracked_reachable Env (s : S) k w :
  rtc (λ w w', wstep Error_ srv Env w w' ∧ alone k w') (worker_start srv s) w → tracked k w.
Proof.
  intros Hr. apply (rtc_invariant _ (λ w, alone k w ∧ tracked k w) _ _) in Hr; [by destruct Hr| |].
  - intros w1 w2 (H2 & H3) [Hs Hd]. split; [done|exact (tracked_step Env k w1 w2 H2 H3 Hs)].
  - split; [intros k' j j' ph ph' Hk _ _|intros j ph Hk _]; cbn in Hk; by rewrite lookup_empty in Hk.
Qed.

(** Distinct jobs are tracked under distinct runs. *)
Lemma inFlight_le_runs w : wok srv w → (size (inFlight w) ≤ size (runs w))%nat.
Proof.
  intros HW. rewrite <- !length_map_to_list, <- (length_fmap snd (map_to_list (inFlight w))),
    <- (length_fmap fst (map_to_list (runs w))).
  assert (∀ id k, (id, k) ∈ map_to_list (inFlight w) →
    ∃ j ph, runs w !! k = Some (j, ph) ∧ ID j = id) as Hin.
  { intros id k Hk%elem_of_map_to_list. destruct (wok_live _ _ HW id k Hk) as (j & ph & ? & _ & ?). by exists j, ph. }
  apply submseteq_length, NoDup_submseteq.
  - apply NoDup_fmap_2_strong; [|apply NoDup_map_to_list].
    intros [id1 k1] [id2 k2] H1 H2 Heq. simpl in Heq. subst k2.
    destruct (Hin _ _ H1) as (j1 & p1 & Hr1 & <-), (Hin _ _ H2) as (j2 & p2 & Hr2 & <-). congruence.
  - intros k ([id k'] & -> & Hk)%list_elem_of_fmap. destruct (Hin _ _ Hk) as (j & ph & Hr & _).
    apply list_elem_of_fmap. exists (k', (j, ph)). split; [done|]. by apply elem_of_map_to_list.
Qed.

(** ** Lemmas: shutting down *)

Lemma runs_left_delete w k j ph :
  runs w !! k = Some (j, ph) →
  runs_left w = (phase_left ph + runs_left (set_runs (delete k (runs w)) w))%nat.
Proof.
  intros Hk. unfold runs_left. rewrite (map_fold_delete_L _ _ k (j, ph)); [done| |done].
  intros. lia.
Qed.

Lemma runs_left_insert w k j ph ph' :
  runs w !! k = Some (j, ph) →
  (runs_left (set_runs (<[k := (j, ph')]> (runs w)) w) + phase_left ph =
   runs_left w + phase_left ph')%nat.
Proof.
  intros Hk. rewrite (runs_left_delete w k j ph) by done.
  rewrite (runs_left_delete (set_runs (<[k := (j, ph')]> (runs w)) w) k j ph') by (simpl; by rewrite lookup_insert_eq).
  simpl. unfold runs_left. simpl. rewrite delete_insert_eq. lia.
Qed.

Lemma rstep_left w w' : rstep Error_ srv w w' → runs_left w = Datatypes.S (runs_left w').
Proof.
  intros (k & j & [[Hk ->]|[(Hk & o & now & ->)|[Hk ->]]]).
  - pose proof (runs_left_insert w k j Spawned Running Hk) as H1. unfold runs_left in *. simpl in *. lia.
  - pose proof (runs_left_insert w k j Running Reported Hk) as H1. unfold runs_left in *. simpl in *. lia.
  - pose proof (runs_left_delete w k j Reported Hk) as H1. unfold runs_left in *. simpl in *. lia.
Qed.

Lemma runs_left_bound w : (runs_left w ≤ 3 * size (runs w))%nat.
Proof.
  unfold runs_left. induction (runs w) as [|k [j ph] m Hk IH] using map_ind.
  - by rewrite map_fold_empty.
  - rewrite map_fold_insert_L by (done || intros; lia). rewrite map_size_insert_None by done.
    simpl. destruct ph; simpl; lia.
Qed.

Lemma rstep_progress w : runs w ≠ ∅ → ∃ w', rstep Error_ srv w w'.
Proof.
  intros Hne. destruct (map_choose _ Hne) as (k & [j ph] & Hk). destruct ph.
  - eexists. exists k, j. left. done.
  - eexists. exists k, j. right. left. split; [done|]. by exists (Done None), 0.
  - eexists. exists k, j. right. right. done.
Qed.

Lemma rstep_wstep Env w w' : rstep Error_ srv w w' → wstep Error_ srv Env w w'.
Proof.
  intros (k & j & [[Hk ->]|[(Hk & o & now & ->)|[Hk ->]]]).
  - by apply step_start.
  - by apply step_report.
  - by apply step_finish.
Qed.
End worker_lemmas.

(** ** Lemmas: renewal *)

Section renewal_lemmas.
Context {S : Type} `{BrokerOps S} (srv : Server).
Implicit Types w : Worker S.

Lemma cancel_all_spec ids w :
  let w' := foldl (λ w id, cancelJob id w) w ids in
  broker w' = broker w ∧ inFlight w' = inFlight w ∧ failures w' = failures w ∧ runs w' = runs w ∧
  ∀ k, k ∈ cancelled w' ↔ k ∈ cancelled w ∨ ∃ id, id ∈ ids ∧ inFlight w !! id = Some k.
Proof.
  revert w. induction ids as [|id ids IH]; intros w; simpl.
  { split_and!; try done. intros k. split; [by left|]. intros [?|(id & Hid & _)]; [done|].
    by apply elem_of_nil in Hid. }
  destruct (IH (cancelJob id w)) as (-> & -> & -> & -> & Hc).
  destruct (cancelJob_frame id w) as (-> & Hi & _ & _ & _ & -> & -> & _ & Hcan).
  split_and!; try done. intros k. rewrite Hc, Hcan, Hi. destruct (inFlight w !! id) as [k0|] eqn:Hid.
  - rewrite elem_of_union, elem_of_singleton. setoid_rewrite elem_of_cons. naive_solver.
  - setoid_rewrite elem_of_cons. naive_solver.
Qed.

Lemma inFlightIDs_spec w id : id ∈ inFlightIDs w ↔ is_Some (inFlight w !! id).
Proof.
  unfold inFlightIDs. rewrite list_elem_of_fmap. split.
  - intros ([id' k] & -> & Hk%elem_of_map_to_list). by eexists.
  - intros [k Hk]. exists (id, k). split; [done|]. by apply elem_of_map_to_list.
Qed.

(** The branches of a pass. *)
Lemma renew_pass_idle now w : inFlightIDs w = [] → renew_pass srv now w = set_renewal (Cancelling []) 0 w.
Proof. unfold renew_pass, renew_list. intros ->. done. Qed.

Lemma renew_pass_empty now w : inFlight w = ∅ → broker (renew_pass srv now w) = broker w.
Proof. intros He. rewrite renew_pass_idle; [done|]. unfold inFlightIDs. by rewrite He. Qed.

Lemma renew_pass_ok now w s lost :
  inFlightIDs w ≠ [] →
  b_Extend (cfg_WorkerID (srv_cfg srv)) (inFlightIDs w) (cfg_VisibilityTimeout (srv_cfg srv)) now (broker w)
    = (s, Ok lost) →
  let w' := renew_pass srv now w in
  broker w' = s ∧ inFlight w' = inFlight w ∧ failures w' = 0 ∧
  ∀ k, k ∈ cancelled w' ↔ k ∈ cancelled w ∨ ∃ id, id ∈ lost ∧ inFlight w !! id = Some k.
Proof.
  intros Hne HE. unfold renew_pass, renew_list. destruct (inFlightIDs w) as [|i ids]; [done|].
  cbn [renewing set_renewal]. unfold renew_extend. cbn [broker set_renewal]. rewrite HE.
  cbn [renewing set_renewal]. unfold renew_cancels.
  destruct (cancel_all_spec lost (set_renewal (Cancelling lost) 0 (set_broker s (set_renewal (Listed (i :: ids)) (failures w) w))))
    as (Hb & Hi & Hf & _ & Hc).
  split_and!; [exact Hb|exact Hi|done|exact Hc].
Qed.

Lemma renew_pass_err now w s e :
  inFlightIDs w ≠ [] →
  b_Extend (cfg_WorkerID (srv_cfg srv)) (inFlightIDs w) (cfg_VisibilityTimeout (srv_cfg srv)) now (broker w)
    = (s, Err e) →
  let w' := renew_pass srv now w in
  broker w' = s ∧ inFlight w' = inFlight w ∧
  if bool_decide (maxRenewFailures ≤ failures w + 1)
  then failures w' = 0 ∧ ∀ k, k ∈ cancelled w' ↔ k ∈ cancelled w ∨ ∃ id, inFlight w !! id = Some k
  else failures w' = failures w + 1 ∧ cancelled w' = cancelled w.
Proof.
  intros Hne HE. unfold renew_pass, renew_list. pose proof (inFlightIDs_spec w) as Hids.
  destruct (inFlightIDs w) as [|i ids]; [done|].
  cbn [renewing set_renewal]. unfold renew_extend. cbn [broker set_renewal]. rewrite HE.
  cbn [failures set_broker set_renewal]. case_bool_decide; cbn [renewing set_renewal]; unfold renew_cancels; [|done].
  destruct (cancel_all_spec (i :: ids) (set_renewal (Cancelling (i :: ids)) 0 (set_broker s (set_renewal (Listed (i :: ids)) (failures w) w))))
    as (Hb & Hi & Hf & _ & Hc).
  split_and!; [exact Hb|exact Hi|done|]. intros k. etrans; [exact (Hc k)|].
  setoid_rewrite Hids. simpl. split; (intros [?|(id & Hid)]; [by left|right]).
  - exists id. by destruct Hid.
  - exists id. split; [by eexists|done].
Qed.
End renewal_lemmas.

(** Holding a lease, as a condition on the record. *)
Definition held_by (w : string) (oj : option Job) : Prop :=
  match oj with Some j => State_ j = StateActive ∧ Owner j = w | None => False end.
#[export] Instance held_by_dec w oj : Decision (held_by w oj).
Proof. destruct oj; apply _. Defined.
Lemma held_by_spec {S} `{BrokerLaws S} (s : S) w id : held_by w (job_at s id) ↔ holds job_at s w id.
Proof. unfold holds. destruct (job_at s id) as [j|]; cbn; naive_solver. Qed.

(** ** Properties *)

(** C24: the concurrency limit holds in every state a worker can reach, whatever the handlers
    do and whatever happens to the broker: it never runs more jobs at once than Concurrency,
    it holds exactly one slot per live run, and one more while it asks for work, so that no
    job is claimed without a slot to run in and no slot leaks; and the jobs it reports as
    in flight are live runs. *)
Theorem worker_concurrency {S} `{BrokerOps S} Error_ srv Env (s : S) w :
  0 < cfg_Concurrency (srv_cfg srv) → rtc (wstep Error_ srv Env) (worker_start srv s) w →
  inFlightCount w ≤ Z.of_nat (size (runs w)) ≤ cfg_Concurrency (srv_cfg srv) ∧
  slots w = (size (runs w) + match fetching w with Claiming => 1 | _ => 0 end)%nat ∧
  Z.of_nat (slots w) ≤ cfg_Concurrency (srv_cfg srv) ∧
  ∀ id, id ∈ inFlightIDs w → ∃ k j ph, runs w !! k = Some (j, ph) ∧ ph ≠ Spawned ∧ ID j = id.
Proof.
  intros Hc Hr. pose proof (wok_reachable Error_ srv Env s w Hc Hr) as HW.
  pose proof (inFlight_le_runs srv w HW). pose proof HW as [H1 H2 _ H4]. unfold inFlightCount.
  split_and!; try done; [lia|lia|]. intros id [k Hk]%inFlightIDs_spec. exists k. by apply H4.
Qed.

(** The table of jobs in flight is right about what it lists, always: it maps a job to a run of
    that job that has started and has not finished. And it is complete as far as a job has
    one run at a time: a run that has started and not finished, and that was never beside
    another run of the same job in this worker, is in it, so that its lease is renewed and
    it can be cancelled. *)
Theorem worker_tracks_runs {S} `{BrokerOps S} Error_ srv Env (s : S) w id k :
  0 < cfg_Concurrency (srv_cfg srv) → rtc (wstep Error_ srv Env) (worker_start srv s) w →
  (inFlight w !! id = Some k → ∃ j ph, runs w !! k = Some (j, ph) ∧ ph ≠ Spawned ∧ ID j = id) ∧
  (rtc (λ w w', wstep Error_ srv Env w w' ∧ alone k w') (worker_start srv s) w →
   ∀ j ph, runs w !! k = Some (j, ph) → ph ≠ Spawned → inFlight w !! ID j = Some k).
Proof.
  intros Hc Hr. split; [by apply (wok_live srv w (wok_reachable Error_ srv Env s w Hc Hr))|].
  intros Ha. by apply (tracked_reachable Error_ srv Env s).
Qed.

(** C27: a shutdown ends. Nothing is claimed once it has begun; the goroutines of the jobs in
    flight make at most three more actions each, and when they can make none no run is left;
    so as long as handlers return, a worker that drains always comes to return without an
    error, and it does so only when every run has been reported and cleaned up. *)
Theorem drain_completes {S} `{BrokerOps S} Error_ srv Env (s : S) w :
  0 < cfg_Concurrency (srv_cfg srv) → rtc (wstep Error_ srv Env) (worker_start srv s) w →
  (stopping w ≠ Serving → fetching w = Returned) ∧
  (stopping w = Exited None → runs w = ∅) ∧
  (∀ n w', nsteps (rstep Error_ srv) n w w' →
     Z.of_nat n ≤ 3 * cfg_Concurrency (srv_cfg srv) ∧
     ((¬ ∃ w'', rstep Error_ srv w' w'') → runs w' = ∅)) ∧
  (stopping w = Draining → ∃ w', rtc (wstep Error_ srv Env) w w' ∧ stopping w' = Exited None).
Proof.
  intros Hc Hr. pose proof (wok_reachable Error_ srv Env s w Hc Hr) as HW.
  assert (stop_ok w) as [H1 H2].
  { apply (rtc_invariant _ _ _ _ (stop_ok_step Error_ srv Env) Hr). by split. }
  split_and!; [done|done| |].
  - intros n w' Hn. split; [|by intros Hno; destruct (decide (runs w' = ∅)) as [|Hne]; [done|]; destruct Hno; apply rstep_progress].
    assert (runs_left w = n + runs_left w')%nat as Heq.
    { clear -Hn. induction Hn as [|n x y z Hxy Hyz IH]; [done|]. apply rstep_left in Hxy. lia. }
    pose proof (runs_left_bound w). pose proof HW as [? ? _ _]. lia.
  - clear Hr H1 H2 HW Hc. remember (runs_left w) as n eqn:Hn. revert w Hn.
    induction n as [|n IH]; intros w Hn Hd.
    + assert (runs w = ∅) as He.
      { destruct (decide (runs w = ∅)) as [|Hne]; [done|]. destruct (rstep_progress Error_ srv w Hne) as [w' Hw'].
        apply rstep_left in Hw'. lia. }
      exists (drain_done w). split; [|done]. apply rtc_once. apply step_drained; [done|by left].
    + destruct (decide (runs w = ∅)) as [He|Hne].
      { pose proof (runs_left_bound w). rewrite He, map_size_empty in *. lia. }
      destruct (rstep_progress Error_ srv w Hne) as [w1 Hw1]. pose proof (rstep_left _ _ _ _ Hw1).
      destruct (IH w1) as (w' & Hr & Hx); [lia| |].
      { destruct Hw1 as (k & j & [[_ ->]|[(_ & o & now & ->)|[_ ->]]]); done. }
      exists w'. split; [|done]. eapply rtc_l; [|done]. by apply rstep_wstep.
Qed.

(** C26: the outcome of a run reaches the broker exactly, for every broker that keeps its
    promises. If the worker has lost the lease the report is refused and the broker is
    unchanged; otherwise it succeeds and changes this job only: a handler that returned
    leaves the job completed, one that failed or panicked leaves it with the error recorded,
    dead if the error says not to retry or the attempts are spent, to be retried otherwise;
    and a panic is never taken for an order not to retry. *)
Theorem report_outcome {S} `{BrokerLaws S} Error_ srv outcome j now (s : S) :
  law_inv s →
  let '(s', err) := report Error_ srv (invoke outcome) j now s in
  (is_Some err ↔ ¬ holds job_at s (cfg_WorkerID (srv_cfg srv)) (ID j)) ∧
  (is_Some err → s' = s) ∧
  (err = None →
     law_inv s' ∧ (∀ id, id ≠ ID j → job_at s' id = job_at s id) ∧
     match invoke outcome with
     | None => ∀ j1, job_at s' (ID j) = Some j1 → State_ j1 = StateCompleted
     | Some e =>
         ∃ j0 j1, job_at s (ID j) = Some j0 ∧ job_at s' (ID j) = Some j1 ∧ same_task j0 j1 ∧
           LastErr j1 = Error_ e ∧ Owner j1 = "" ∧
           State_ j1 = if Is e ErrSkipRetry || Exhausted j0 then StateDead else StateRetry
     end) ∧
  (∀ r, outcome = Panic r → ∃ e, invoke outcome = Some e ∧ Is e ErrSkipRetry = false).
Proof.
  intros Hinv. set (w := cfg_WorkerID (srv_cfg srv)).
  assert (∀ r, outcome = Panic r → ∃ e, invoke outcome = Some e ∧ Is e ErrSkipRetry = false) as Hpanic.
  { intros r ->. by eexists. }
  unfold report. fold w. destruct (invoke outcome) as [e|] eqn:Ho.
  - destruct (Is e ErrSkipRetry) eqn:He.
    + pose proof (law_kill w (ID j) (Error_ e) now s Hinv) as HL.
      destruct (b_Kill w (ID j) (Error_ e) now s) as [s' [err|]].
      * destruct HL as [Hn ->]. by split_and!.
      * destruct HL as (Hh & Hi & (j0 & j1 & Hj) & Hsame).
        split_and!; try done.
        intros _. split_and!; [done|done|]. exists j0, j1. naive_solver.
    + pose proof (law_nack w (ID j) (Add now (srv_Backoff srv (Attempt j))) (Error_ e) now s Hinv) as HL.
      destruct (b_Nack w (ID j) _ (Error_ e) now s) as [s' [err|]].
      * destruct HL as [Hn ->]. by split_and!.
      * destruct HL as (Hh & Hi & (j0 & j1 & Hj) & Hsame).
        split_and!; try done.
        intros _. split_and!; [done|done|]. exists j0, j1. naive_solver.
  - pose proof (law_ack w (ID j) now s Hinv) as HL. destruct (b_Ack w (ID j) now s) as [s' [err|]].
    * destruct HL as [Hn ->]. by split_and!.
    * destruct HL as (Hh & Hi & Hj & Hsame).
      by split_and!.
Qed.

(** C25: renewal is exact about the table of jobs in flight. On a broker that keeps its promises
    and whose invariant holds, in every state a worker can reach, a pass of the renewal loop that nothing else comes in
    between of moves the deadline of every job in the table whose lease the worker still
    holds to a visibility timeout from now, and changes no other job; it cancels the runs in
    the table whose lease is lost, and no other. What it covers is a condition on the run: a
    running handler is in the table if, while it was live, this worker had no second run of
    the same job. Where there was one, the older run takes the entry of the newer away with
    it, and the newer is not renewed (EndToEnd.overlapping_run_not_renewed). *)
Theorem renewal_keeps_leases {S} `{BrokerLaws S} Error_ srv Env (s : S) w now :
  0 < cfg_Concurrency (srv_cfg srv) → 0 < cfg_VisibilityTimeout (srv_cfg srv) < 2 ^ 63 → clock_ok now →
  rtc (wstep Error_ srv Env) (worker_start srv s) w →
  law_inv (broker w) →
  let workerID := cfg_WorkerID (srv_cfg srv) in
  let w' := renew_pass srv now w in
  law_inv (broker w') ∧ failures w' = 0 ∧
  (∀ id, job_at (broker w') id =
     if decide (is_Some (inFlight w !! id) ∧ held_by workerID (job_at (broker w) id))
     then set_Deadline (lease_deadline now (cfg_VisibilityTimeout (srv_cfg srv))) <$> job_at (broker w) id
     else job_at (broker w) id) ∧
  (∀ k, k ∈ cancelled w' ↔
     k ∈ cancelled w ∨ ∃ id, inFlight w !! id = Some k ∧ ¬ holds job_at (broker w) workerID id) ∧
  (∀ k j, rtc (λ w w', wstep Error_ srv Env w w' ∧ alone k w') (worker_start srv s) w →
     runs w !! k = Some (j, Running) → inFlight w !! ID j = Some k).
Proof.
  intros Hc Hvt Hclk Hr Hinv workerID.
  assert (∀ k j, rtc (λ w w', wstep Error_ srv Env w w' ∧ alone k w') (worker_start srv s) w →
     runs w !! k = Some (j, Running) → inFlight w !! ID j = Some k) as HT.
  { intros k j Ha Hk. by eapply (tracked_reachable Error_ srv Env s). }
  destruct (decide (inFlightIDs w = [])) as [He|Hne].
  { assert (∀ id, inFlight w !! id = None) as Hnone.
    { intros id. destruct (inFlight w !! id) as [k|] eqn:E; [|done].
      assert (id ∈ inFlightIDs w) as Hin by (apply inFlightIDs_spec; by eexists). rewrite He in Hin. by apply elem_of_nil in Hin. }
    rewrite renew_pass_idle by done. split_and!; [done|done| | |done].
    - intros id. rewrite decide_False; [done|]. rewrite Hnone. by intros [[? ?] _].
    - intros k. cbn. split; [by left|]. intros [?|(id & Hid & _)]; [done|]. by rewrite Hnone in Hid. }
  pose proof (law_extend workerID (inFlightIDs w) _ now (broker w) Hinv Hvt Hclk) as HL.
  destruct (b_Extend workerID (inFlightIDs w) _ now (broker w)) as [s' r] eqn:HE.
  destruct HL as (lost & -> & Hinv' & Hlost & Hjobs).
  destruct (renew_pass_ok srv now w s' lost Hne HE) as (Hb & _ & Hf & Hcan). cbv zeta. rewrite Hb, Hf.
  split_and!; [done|done| | |done].
  - intros id. destruct (decide _) as [[Hin Hh%held_by_spec]|Hno]; [by apply Hjobs; [|apply inFlightIDs_spec]|].
    apply Hjobs. destruct (decide (id ∈ inFlightIDs w)) as [Hin|]; [left|by right].
    intros Hh%held_by_spec. apply Hno. split; [by apply inFlightIDs_spec|done].
  - intros k. rewrite Hcan. split; (intros [?|(id & H1 & H2)]; [by left|right; exists id]).
    + apply Hlost in H1 as [_ Hn]. done.
    + split; [|done]. apply Hlost. split; [apply inFlightIDs_spec; by eexists|done].
Qed.

(** A worker that cannot reach its broker stops working on jobs that are no longer its
    own: while renewal fails, two passes in a row cancel nothing, and the third cancels
    every run in flight and starts counting again. *)
Theorem renewal_gives_up {S} `{BrokerOps S} srv (w : Worker S) t1 t2 t3 :
  (∀ now ids, ∃ e, b_Extend (cfg_WorkerID (srv_cfg srv)) ids (cfg_VisibilityTimeout (srv_cfg srv)) now (broker w)
                     = (broker w, Err e)) →
  failures w = 0 → inFlight w ≠ ∅ →
  let w2 := renew_pass srv t2 (renew_pass srv t1 w) in
  let w3 := renew_pass srv t3 w2 in
  cancelled w2 = cancelled w ∧ failures w2 = 2 ∧ failures w3 = 0 ∧
  ∀ id k, inFlight w !! id = Some k → k ∈ cancelled w3.
Proof.
  intros Hfail H0 Hne.
  assert (∀ w' : Worker S, inFlight w' = inFlight w → inFlightIDs w' ≠ []) as Hids.
  { intros w' Hi He. destruct (map_choose _ Hne) as (id & k & Hk).
    assert (id ∈ inFlightIDs w') as Hin by (apply inFlightIDs_spec; rewrite Hi; by eexists).
    rewrite He in Hin. by apply elem_of_nil in Hin. }
  assert (∀ now (w' : Worker S), broker w' = broker w → inFlight w' = inFlight w → ∃ e,
    b_Extend (cfg_WorkerID (srv_cfg srv)) (inFlightIDs w') (cfg_VisibilityTimeout (srv_cfg srv)) now (broker w')
      = (broker w, Err e)) as HF by (intros now w' -> _; apply Hfail).
  destruct (HF t1 w eq_refl eq_refl) as [e1 E1].
  destruct (renew_pass_err srv t1 w _ _ (Hids _ eq_refl) E1) as (B1 & I1 & P1).
  rewrite H0 in P1. cbn in P1. destruct P1 as [F1 C1].
  destruct (HF t2 _ B1 I1) as [e2 E2].
  destruct (renew_pass_err srv t2 _ _ _ (Hids _ I1) E2) as (B2 & I2 & P2).
  rewrite F1 in P2. cbn in P2. destruct P2 as [F2 C2]. rewrite I1 in I2.
  destruct (HF t3 _ B2 I2) as [e3 E3].
  destruct (renew_pass_err srv t3 _ _ _ (Hids _ I2) E3) as (_ & _ & P3).
  rewrite F2 in P3. cbn in P3. destruct P3 as [F3 C3]. cbv zeta.
  split_and!; [congruence|done|done|]. intros id k Hk. apply C3. right. exists id. by rewrite I2.
Qed.
