(* ===== verification/Maintenance.v ===== *)
(** * The background loops of a worker (maintenance.go)

    One pass of the loops that sweep expired leases, promote due jobs and publish
    the worker's liveness; the renewal loop is in Worker.v. A pass ends its loop
    only if the call failed and the context is done. *)
From S2P Require Import Prelude GoBase Job Queues Interface BrokerAPI Client Calendar Schedule CronParse Server.

Section maintenance.
Context {S : Type} `{MaintenanceOps S} (srv : Server).

(** reapLoop after its sleep: the broker, and whether the loop goes on. *)
Definition reap_pass (now : Z) (ctx_done : bool) (s : S) : S * bool :=
  match m_Reap (cfg_Queues (srv_cfg srv)) reapBatch now s with
  | (s, Err _) => (s, negb ctx_done)
  | (s, Ok _) => (s, true)
  end.

(** promoteLoop after its sleep. *)
Definition promote_pass (now : Z) (ctx_done : bool) (s : S) : S * bool :=
  match m_Promote promoteBatch now s with
  | (s, Err _) => (s, negb ctx_done)
  | (s, Ok _) => (s, true)
  end.

(** The record heartbeatLoop publishes, and one beat. *)
Definition beat_info (pid inFlight started : Z) : WorkerInfo :=
  mkWorkerInfo (cfg_WorkerID (srv_cfg srv)) (srv_host srv) pid (cfg_Queues (srv_cfg srv))
    (cfg_Concurrency (srv_cfg srv)) inFlight started zeroTime.
Definition beat (pid inFlight started now : Z) (s : S) : S :=
  (m_Heartbeat (beat_info pid inFlight started) (beatTTL (cfg_VisibilityTimeout (srv_cfg srv))) now s).1.
End maintenance.
