(* ===== verification/Scheduler.v ===== *)
(** * Firing cron schedules (scheduler.go)

    The scheduler of a worker: seeding the fire times, electing a leader, and
    turning due ticks into jobs, on any broker with the three interfaces. The
    clock readings of a pass are a sequence [clk], the identifiers generated
    for its jobs a sequence [ids]. Logging is left out. *)
From S2P Require Import Prelude GoBase Job Backoff Queues Interface BrokerAPI Client Calendar Schedule CronParse Server.

(** What became of a due entry. *)
Inductive fired :=
| Unknown            (* a schedule of another build: left alone *)
| Never              (* no next fire time: skipped *)
| NotEnqueued        (* Enqueue failed: retried in the next pass *)
| NotClaimed         (* ClaimCron failed *)
| Lost               (* another scheduler advanced it first *)
| Won.               (* this one did *)

Section scheduler.
Context {S : Type} `{BrokerOps S} `{MaintenanceOps S} `{CronOps S} (srv : Server).

(** The body of the loop of seedSchedules, and the loop over the entries. *)
Definition seed_one (now call_now : Z) (id : string) (ce : compiledEntry) (s : S) : S * option error :=
  let next := Schedule.Next (schedule ce) now in
  if IsZero next then (s, None)
  else match c_ScheduleCronIfAbsent id next call_now s with
       | (s, Err err) => (s, Some err)
       | (s, Ok _) => (s, None)
       end.
Fixpoint seed_loop (now : Z) (es : list (string * compiledEntry)) (s : S) : S * option error :=
  match es with
  | [] => (s, None)
  | (id, ce) :: es =>
      match seed_one now now id ce s with
      | (s, Some err) => (s, Some err)
      | (s, None) => seed_loop now es s
      end
  end.
Definition seedSchedules (now : Z) (s : S) : S * option error :=
  seed_loop now (map_to_list (srv_entries srv)) s.

(** The job of a tick. *)
Definition cron_job (ce : compiledEntry) (d : DueCronEntry) : Job :=
  mkJob "" (ce_Queue (entry ce)) (ce_Type (entry ce)) (ce_Payload (entry ce)) 0
    (ce_MaxAttempts (entry ce)) 0 "" "" (cronUniqueKey (due_ID d) (due_FireAt d)) cronUniqueTTL ""
    zeroTime zeroTime zeroTime zeroTime.

(** The body of the loop of fireDueSchedules, up to the job and with the claim: [base_now]
    is the clock it reads, [now] the one the broker reads. *)
Definition fire_enqueue (NewID : string) (base_now now : Z) (d : DueCronEntry) (s : S) : S * (fired + Z) :=
  match srv_entries srv !! due_ID d with
  | None => (s, inl Unknown)
  | Some ce =>
      let base := if Before base_now (due_FireAt d) then due_FireAt d else base_now in
      let next := Schedule.Next (schedule ce) base in
      if IsZero next then (s, inl Never)
      else
        let '(s, _, err) := b_Enqueue NewID now (Some (cron_job ce d)) s in
        let failed := match err with Some err => negb (Is err ErrDuplicate) | None => false end in
        (s, if failed then inl NotEnqueued else inr next)
  end.
Definition fire_claim (d : DueCronEntry) (next now : Z) (s : S) : S * fired :=
  match c_ClaimCron (due_ID d) (due_FireAt d) next now s with
  | (s, Err _) => (s, NotClaimed)
  | (s, Ok won) => (s, if won then Won else Lost)
  end.
Definition fire_one (NewID : string) (base_now now : Z) (d : DueCronEntry) (s : S) : S * fired :=
  match fire_enqueue NewID base_now now d s with
  | (s, inl r) => (s, r)
  | (s, inr next) => fire_claim d next now s
  end.

(** The loop over the due entries, the [i]-th with its own identifier and readings. *)
Fixpoint fire_loop (ids : nat → string) (clk : nat → Z) (i : nat) (due : list DueCronEntry) (s : S) : S :=
  match due with
  | [] => s
  | d :: due =>
      fire_loop ids clk (Datatypes.S i) due
        (fire_one (ids i) (clk (2 * i + 1)%nat) (clk (2 * i + 2)%nat) d s).1
  end.
Definition fireDueSchedules (ids : nat → string) (clk : nat → Z) (s : S) : S :=
  match c_DueCron cronBatch (clk 0%nat) s with
  | (s, Err _) => s
  | (s, Ok due) => fire_loop ids clk 0 due s
  end.

(** One iteration of schedulerLoop after its sleep, and its deferred release: the
    state, and whether the worker is the leader. *)
Definition scheduler_pass (ids : nat → string) (clk : nat → Z) (now : Z) (leader : bool) (s : S)
  : S * bool :=
  match m_AcquireLease schedulerLease (cfg_WorkerID (srv_cfg srv))
          (beatTTL (cfg_VisibilityTimeout (srv_cfg srv))) now s with
  | (s, Err _) => (s, leader)
  | (s, Ok held) => (if held then fireDueSchedules ids clk s else s, held)
  end.
Definition scheduler_stop (now : Z) (leader : bool) (s : S) : S * bool :=
  if leader then ((m_ReleaseLease schedulerLease (cfg_WorkerID (srv_cfg srv)) now s).1, false)
  else (s, false).
End scheduler.

(** ** Lemmas *)

(** A next fire time is later than the instant it is computed from. *)
Lemma Next_later s t : IsZero (Schedule.Next s t) = false → t < Schedule.Next s t.
Proof.
  intros Hz. destruct (decide (every s ≤ 0)) as [He|He].
  - destruct (search_start t) as [_ Hlt]. destruct (Next_ends s t He) as [_ [(_ & ? & _)|[E _]]]; [lia|].
    rewrite E in Hz. by vm_compute in Hz.
  - unfold Schedule.Next, Next_within. rewrite bool_decide_eq_true_2 by lia. cbn. unfold Add. lia.
Qed.

Lemma seed_loop_spec {S} `{CronLaws S} now es (s : S) :
  cron_inv s → 0 ≤ now → NoDup es.*1 → (∀ id, id ∈ es.*1 → id ≠ "") →
  let '(s', err) := seed_loop now es s in
  err = None ∧ cron_inv s' ∧
  (∀ id t, fire_time s id = Some t → fire_time s' id = Some t) ∧
  (∀ id, fire_time s id = None →
     fire_time s' id = match (list_to_map es : gmap string compiledEntry) !! id with
                       | Some ce => let t := Schedule.Next (schedule ce) now in if IsZero t then None else Some (stored_time t)
                       | None => None
                       end).
Proof.
  revert s. induction es as [|[id ce] es IH]; intros s Hinv Hnow Hnd Hne; cbn [seed_loop]; unfold seed_one; cbv zeta.
  { by split_and!. }
  rewrite fmap_cons in Hnd. apply NoDup_cons in Hnd as [Hnin Hnd].
  assert (∀ id', id' ∈ es.*1 → id' ≠ "") as Hne' by (intros id' Hid; apply Hne; rewrite fmap_cons; by right).
  assert ((list_to_map es : gmap string compiledEntry) !! id = None) as Hno by (by apply not_elem_of_list_to_map_1).
  destruct (IsZero (Schedule.Next (schedule ce) now)) eqn:Hz.
  - specialize (IH s Hinv Hnow Hnd Hne'). destruct (seed_loop now es s) as [s' err].
    destruct IH as (? & ? & ? & Hnew). split_and!; try done. intros id' Hid'. rewrite Hnew by done. cbn.
    destruct (decide (id = id')) as [<-|Hneq]; [by rewrite lookup_insert_eq, Hno, Hz|by rewrite lookup_insert_ne].
  - assert (id ≠ "") as Hid by (apply Hne; rewrite fmap_cons; by left).
    assert (0 ≤ Schedule.Next (schedule ce) now) as Hpos by (pose proof (Next_later _ _ Hz); lia).
    pose proof (law_schedule id (Schedule.Next (schedule ce) now) now s Hinv Hid Hpos) as HL.
    destruct (c_ScheduleCronIfAbsent id _ now s) as [s1 r]. destruct (fire_time s id) as [t|] eqn:Hft.
    + destruct HL as [-> ->]. specialize (IH s Hinv Hnow Hnd Hne'). destruct (seed_loop now es s) as [s' err].
      destruct IH as (? & ? & ? & Hnew). split_and!; try done. intros id' Hid'. rewrite Hnew by done. cbn.
      rewrite lookup_insert_ne by congruence. done.
    + destruct HL as (-> & Hft1 & Hsame & Hinv1). specialize (IH s1 Hinv1 Hnow Hnd Hne').
      destruct (seed_loop now es s1) as [s' err]. destruct IH as (? & ? & Hold & Hnew). split_and!; try done.
      * intros id' t Ht. apply Hold. rewrite Hsame; [done|congruence].
      * intros id' Hid'. cbn. destruct (decide (id = id')) as [<-|Hneq].
        -- rewrite lookup_insert_eq, Hz. by apply Hold.
        -- rewrite lookup_insert_ne by done. apply Hnew. by rewrite Hsame.
Qed.

(** ** Properties *)

(** Seeding is idempotent and complete, on a broker that keeps its promises: it succeeds,
    never moves the fire time of a schedule that has one, so that restarting workers do not
    postpone a running schedule, and gives every configured schedule without one its next
    fire time, unless it has none within the search limit; schedules of other builds stay
    as they are. *)
Theorem seed_registers {S} `{CronLaws S} srv now (s : S) :
  cron_inv s → 0 ≤ now → srv_entries srv !! "" = None →
  let '(s', err) := seedSchedules srv now s in
  err = None ∧
  (∀ id t, fire_time s id = Some t → fire_time s' id = Some t) ∧
  (∀ id ce, srv_entries srv !! id = Some ce → fire_time s id = None →
     fire_time s' id = let t := Schedule.Next (schedule ce) now in if IsZero t then None else Some (stored_time t)) ∧
  (∀ id, srv_entries srv !! id = None → fire_time s' id = fire_time s id).
Proof.
  intros Hinv Hnow Hempty. unfold seedSchedules.
  assert (∀ id, id ∈ (map_to_list (srv_entries srv)).*1 → id ≠ "") as Hne.
  { intros id ([id' ce] & -> & Hin%elem_of_map_to_list)%list_elem_of_fmap ?. simpl in *. congruence. }
  pose proof (seed_loop_spec now (map_to_list (srv_entries srv)) s Hinv Hnow (NoDup_fst_map_to_list _) Hne) as HS.
  destruct (seed_loop now _ s) as [s' err]. destruct HS as (-> & _ & Hold & Hnew).
  rewrite list_to_map_to_list in Hnew. split_and!; try done.
  - intros id ce Hce Hno. by rewrite (Hnew id Hno), Hce.
  - intros id Hid. destruct (fire_time s id) as [t|] eqn:Ht; [by apply Hold|]. by rewrite (Hnew id Ht), Hid.
Qed.

(** Missed ticks are skipped, not replayed: on a broker that keeps its promises, firing a
    due entry advances it only if its fire time is still the one that was read, and then to
    its next fire time after both that tick and the present, as the broker rounds it, however
    long the scheduler was down; in every other case no fire time changes. *)
Theorem fire_advances {S} `{SchedulerLaws S} srv NewID base_now now d (s : S) :
  cron_inv s → 0 ≤ base_now → due_ID d ≠ "" → stored_time (due_FireAt d) = due_FireAt d →
  let '(s', r) := fire_one srv NewID base_now now d s in
  cron_inv s' ∧ (∀ id, id ≠ due_ID d → fire_time s' id = fire_time s id) ∧
  match r with
  | Won => fire_time s (due_ID d) = Some (due_FireAt d) ∧
           ∃ ce t, srv_entries srv !! due_ID d = Some ce ∧
             t = Schedule.Next (schedule ce) (Z.max base_now (due_FireAt d)) ∧
             fire_time s' (due_ID d) = Some (stored_time t) ∧ base_now < t ∧ due_FireAt d < t
  | Lost => fire_time s (due_ID d) ≠ Some (due_FireAt d) ∧ fire_time s' (due_ID d) = fire_time s (due_ID d)
  | _ => fire_time s' (due_ID d) = fire_time s (due_ID d)
  end.
Proof.
  intros Hinv Hnow Hne Hst. unfold fire_one, fire_enqueue, fire_claim. destruct (srv_entries srv !! due_ID d) as [ce|] eqn:Hce; [|done].
  assert ((if Before base_now (due_FireAt d) then due_FireAt d else base_now) = Z.max base_now (due_FireAt d)) as ->.
  { unfold Before. case_bool_decide; lia. }
  destruct (IsZero _) eqn:Hz; [done|]. pose proof (Next_later _ _ Hz) as Hlt.
  set (t := Schedule.Next (schedule ce) (Z.max base_now (due_FireAt d))) in *. cbv zeta.
  pose proof (law_enqueue_cron NewID now (Some (cron_job ce d)) s Hinv) as HE.
  destruct (b_Enqueue NewID now (Some (cron_job ce d)) s) as [[s1 j'] err]. simpl in HE.
  destruct HE as [Hinv1 Hsame]. set (failed := match err with Some _ => _ | None => _ end).
  destruct failed; [by split_and!|].
  pose proof (law_claim (due_ID d) (due_FireAt d) t now s1 Hinv1 Hne Hst ltac:(lia)) as HL.
  destruct (c_ClaimCron (due_ID d) (due_FireAt d) t now s1) as [s2 r]. rewrite Hsame in HL.
  destruct (decide (fire_time s (due_ID d) = Some (due_FireAt d))) as [Hft|Hft].
  - destruct HL as (-> & Hft2 & Hsame2 & Hinv2). split_and!; [done| |done|].
    { intros id Hid. by rewrite Hsame2, Hsame. }
    exists ce, t. split_and!; try done; lia.
  - destruct HL as [-> ->]. by split_and!.
Qed.
