(* ===== verification/Runtime.v ===== *)
(** * A worker process (server.go, maintenance.go, scheduler.go)

    [Run] as a whole: the fetch loop and the jobs it starts (Worker.v), the
    background loops and the contexts that stop them, the shutdown and the
    return, as a transition system over the goroutines' atomic actions. The
    caller may cancel its context at any moment; a sleep ends when its timer does
    or, with a context that is done, at once. The order in which a map is ranged
    over, the clock readings, the identifiers and the random draws are any. *)
From S2P Require Import Prelude GoBase Job Backoff Queues Interface BrokerAPI Client Calendar Schedule CronParse Server Worker Maintenance Scheduler.

(** ** State *)

(** A background loop: not started, about to make its call, asleep, or returned. *)
Inductive loop := Off | Call | Asleep | Finished.

(** schedulerLoop: not started, seeding these entries as of an instant, asleep, about to
    read what is due, with these ticks left to fire, between the job of a tick and its
    claim, in its deferred call, or returned. *)
Inductive scheduling :=
| SOff
| SSeed (now : Z) (es : list (string * compiledEntry))
| SAsleep
| SDue
| SFire (due : list DueCronEntry)
| SClaim (d : DueCronEntry) (next : Z) (due : list DueCronEntry)
| SDefer
| SFinished.

#[export] Instance loop_eq_dec : EqDecision loop.
Proof. solve_decision. Defined.

(** [ctx_done] is the caller's context and [maint_done] the one of renewal and heartbeats;
    [result] is what Run returned. *)
Record Process (S : Type) := mkProcess {
  worker : Worker S;
  ctx_done : bool;
  maint_done : bool;
  renew_on : bool;
  beats : loop;
  reaps : loop;
  promotes : loop;
  sched : scheduling;
  leader : bool;
  result : option (option error)
}.
Arguments mkProcess {S}.
Arguments worker {S}.
Arguments ctx_done {S}.
Arguments maint_done {S}.
Arguments renew_on {S}.
Arguments beats {S}.
Arguments reaps {S}.
Arguments promotes {S}.
Arguments sched {S}.
Arguments leader {S}.
Arguments result {S}.

(** ** Operations *)

Section process.
Context {S : Type} `{BrokerOps S} `{MaintenanceOps S} `{CronOps S}.
Context (Error_ : error → string) (srv : Server).
Implicit Types p : Process S.

Definition set_worker (w : Worker S) (p : Process S) : Process S :=
  mkProcess w (ctx_done p) (maint_done p) (renew_on p) (beats p) (reaps p) (promotes p) (sched p) (leader p) (result p).
Definition set_ctx (c m : bool) (p : Process S) : Process S :=
  mkProcess (worker p) c m (renew_on p) (beats p) (reaps p) (promotes p) (sched p) (leader p) (result p).
Definition set_renew (b : bool) (p : Process S) : Process S :=
  mkProcess (worker p) (ctx_done p) (maint_done p) b (beats p) (reaps p) (promotes p) (sched p) (leader p) (result p).
Definition set_beats (l : loop) (p : Process S) : Process S :=
  mkProcess (worker p) (ctx_done p) (maint_done p) (renew_on p) l (reaps p) (promotes p) (sched p) (leader p) (result p).
Definition set_reaps (l : loop) (p : Process S) : Process S :=
  mkProcess (worker p) (ctx_done p) (maint_done p) (renew_on p) (beats p) l (promotes p) (sched p) (leader p) (result p).
Definition set_promotes (l : loop) (p : Process S) : Process S :=
  mkProcess (worker p) (ctx_done p) (maint_done p) (renew_on p) (beats p) (reaps p) l (sched p) (leader p) (result p).
Definition set_sched (l : scheduling) (b : bool) (p : Process S) : Process S :=
  mkProcess (worker p) (ctx_done p) (maint_done p) (renew_on p) (beats p) (reaps p) (promotes p) l b (result p).
Definition set_result (r : option error) (p : Process S) : Process S :=
  mkProcess (worker p) (ctx_done p) (maint_done p) (renew_on p) (beats p) (reaps p) (promotes p) (sched p) (leader p) (Some r).

(** The broker, which the worker's state holds. *)
Definition pbroker (p : Process S) : S := broker (worker p).
Definition set_pbroker (s : S) (p : Process S) : Process S := set_worker (set_broker s (worker p)) p.

Definition IsLeader (p : Process S) : bool := leader p.
Definition srv_WorkerID : string := cfg_WorkerID (srv_cfg srv).

(** startMaintenance: which loops are launched. schedulerLoop reads the clock and ranges
    over the entries, in any order. *)
Definition startMaintenance (now : Z) (es : list (string * compiledEntry)) (w : Worker S) : Process S :=
  if negb (srv_maint srv) then mkProcess w false false true Off Off Off SOff false None
  else mkProcess w false false true Call Asleep Asleep
         (if bool_decide (size (srv_entries srv) = 0%nat) then SOff else SSeed now es) false None.

(** Run up to fetchLoop, with a handler that is nil or not. *)
Definition Run (h : bool) (now : Z) (es : list (string * compiledEntry)) (s : S) : res (Process S) :=
  if negb h then Err (errors_New "taskq: nil handler")
  else Ok (startMaintenance now es (worker_start srv s)).

(** What [sleepCtx] may return. *)
Definition sleepCtx (done slept : bool) : Prop := slept = false → done = true.

(** A loop after its sleep. *)
Definition woken (slept : bool) : loop := if slept then Call else Finished.

(** The calls of the loops: reapLoop, promoteLoop, heartbeatLoop. *)
Definition reap_call (now : Z) (p : Process S) : Process S :=
  let '(s, goes_on) := reap_pass srv now (ctx_done p) (pbroker p) in
  set_pbroker s (set_reaps (if goes_on then Asleep else Finished) p).
Definition promote_call (now : Z) (p : Process S) : Process S :=
  let '(s, goes_on) := promote_pass now (ctx_done p) (pbroker p) in
  set_pbroker s (set_promotes (if goes_on then Asleep else Finished) p).
Definition beat_call (pid started now : Z) (p : Process S) : Process S :=
  set_pbroker (beat srv pid (inFlightCount (worker p)) started now (pbroker p)) (set_beats Asleep p).

(** The steps of schedulerLoop: one entry of the seeding, the election, the due entries, one
    tick's job and its claim, the deferred release. *)
Definition seed_call (call_now t : Z) (id : string) (ce : compiledEntry) (es : list (string * compiledEntry))
  (p : Process S) : Process S :=
  let '(s, err) := seed_one t call_now id ce (pbroker p) in
  set_pbroker s (set_sched (match err with Some _ => SAsleep | None => SSeed t es end) (leader p) p).
Definition elect_call (now : Z) (p : Process S) : Process S :=
  match m_AcquireLease schedulerLease srv_WorkerID (beatTTL (cfg_VisibilityTimeout (srv_cfg srv))) now (pbroker p) with
  | (s, Err _) => set_pbroker s (set_sched (if ctx_done p then SDefer else SAsleep) (leader p) p)
  | (s, Ok held) => set_pbroker s (set_sched (if held then SDue else SAsleep) held p)
  end.
Definition due_call (now : Z) (p : Process S) : Process S :=
  match c_DueCron cronBatch now (pbroker p) with
  | (s, Err _) => set_pbroker s (set_sched SAsleep (leader p) p)
  | (s, Ok due) => set_pbroker s (set_sched (SFire due) (leader p) p)
  end.
Definition fire_call (NewID : string) (base_now now : Z) (d : DueCronEntry) (due : list DueCronEntry)
  (p : Process S) : Process S :=
  let '(s, r) := fire_enqueue srv NewID base_now now d (pbroker p) in
  set_pbroker s (set_sched (match r with inl _ => SFire due | inr next => SClaim d next due end) (leader p) p).
Definition claim_call (now : Z) (d : DueCronEntry) (next : Z) (due : list DueCronEntry) (p : Process S) : Process S :=
  set_pbroker (fire_claim d next now (pbroker p)).1 (set_sched (SFire due) (leader p) p).
Definition release_call (now : Z) (p : Process S) : Process S :=
  let '(s, l) := scheduler_stop srv now (leader p) (pbroker p) in set_pbroker s (set_sched SFinished l p).

(** The end of Run: stopMaint once drain has returned, and the wait for the loops. *)
Definition stop_maint (p : Process S) : Process S := set_ctx (ctx_done p) true p.
Definition over (l : loop) : bool := match l with Off | Finished => true | _ => false end.
Definition sched_over (l : scheduling) : bool := match l with SOff | SFinished => true | _ => false end.
Definition loops_over (p : Process S) : bool :=
  negb (renew_on p) && over (beats p) && over (reaps p) && over (promotes p) && sched_over (sched p).

(** ** The transition system *)

(** The actions of the fetch loop and of the goroutines of jobs, whose contexts outlive
    the caller's; fetchLoop returns only when its context is done. *)
Inductive jstep (done : bool) (w : Worker S) : Worker S → Prop :=
| j_slot :
    fetching w = AtSelect → Z.of_nat (slots w) < cfg_Concurrency (srv_cfg srv) → jstep done w (fetch_slot w)
| j_claim draws now w' : fetching w = Claiming → fetch_claim srv draws now done w = Some w' → jstep done w w'
| j_wake d : fetching w = Sleeping d → jstep done w (fetch_wake d w)
| j_return : done = true → fetching w = AtSelect ∨ (∃ d, fetching w = Sleeping d) → jstep done w (fetch_return w)
| j_start k j : runs w !! k = Some (j, Spawned) → jstep done w (run_start k j w)
| j_report k j outcome now : runs w !! k = Some (j, Running) → jstep done w (run_report Error_ srv k j outcome now w)
| j_finish k j : runs w !! k = Some (j, Reported) → jstep done w (run_finish k j w).

(** The actions of renewLoop while it is on. *)
Inductive nstep (w : Worker S) : Worker S → Prop :=
| n_list : renewing w = Cancelling [] → nstep w (renew_list w)
| n_extend ids now : renewing w = Listed ids → nstep w (renew_extend srv ids now w)
| n_cancel id ids : renewing w = Cancelling (id :: ids) → nstep w (renew_cancel id ids w).

(** The actions of drain. *)
Inductive dstep (w : Worker S) : Worker S → Prop :=
| d_begin : fetching w = Returned → stopping w = Serving → dstep w (drain_begin w)
| d_done : runs w = ∅ → stopping w = Draining ∨ stopping w = Forced → dstep w (drain_done w)
| d_deadline : stopping w = Draining → dstep w (drain_deadline w)
| d_abandon : stopping w = Forced → dstep w (drain_abandon w).

(** The actions of the background loops. *)
Inductive bstep p : Process S → Prop :=
| b_renew_end : renew_on p = true → renewing (worker p) = Cancelling [] → maint_done p = true → bstep p (set_renew false p)
| b_beat pid started now : beats p = Call → bstep p (beat_call pid started now p)
| b_beat_sleep slept : beats p = Asleep → sleepCtx (maint_done p) slept → bstep p (set_beats (woken slept) p)
| b_reap now : reaps p = Call → bstep p (reap_call now p)
| b_reap_sleep slept : reaps p = Asleep → sleepCtx (ctx_done p) slept → bstep p (set_reaps (woken slept) p)
| b_promote now : promotes p = Call → bstep p (promote_call now p)
| b_promote_sleep slept : promotes p = Asleep → sleepCtx (ctx_done p) slept → bstep p (set_promotes (woken slept) p)
| b_seed call_now t id ce es : sched p = SSeed t ((id, ce) :: es) → bstep p (seed_call call_now t id ce es p)
| b_seeded t : sched p = SSeed t [] → bstep p (set_sched SAsleep (leader p) p)
| b_elect now : sched p = SAsleep → bstep p (elect_call now p)
| b_sched_end : sched p = SAsleep → ctx_done p = true → bstep p (set_sched SDefer (leader p) p)
| b_due now : sched p = SDue → bstep p (due_call now p)
| b_fire NewID base_now now d due : sched p = SFire (d :: due) → bstep p (fire_call NewID base_now now d due p)
| b_fired : sched p = SFire [] → bstep p (set_sched SAsleep (leader p) p)
| b_claim now d next due : sched p = SClaim d next due → bstep p (claim_call now d next due p)
| b_release now : sched p = SDefer → bstep p (release_call now p).

(** The actions of the process, and of others: the caller's cancellation, and changes to the broker. *)
Inductive pstep (Env : S → S → Prop) p : Process S → Prop :=
| p_job w : jstep (ctx_done p) (worker p) w → pstep Env p (set_worker w p)
| p_renew w : renew_on p = true → nstep (worker p) w → pstep Env p (set_worker w p)
| p_drain w : dstep (worker p) w → pstep Env p (set_worker w p)
| p_loop p' : bstep p p' → pstep Env p p'
| p_stop_maint err : stopping (worker p) = Exited err → maint_done p = false → pstep Env p (stop_maint p)
| p_exit err :
    stopping (worker p) = Exited err → maint_done p = true → loops_over p = true → result p = None →
    pstep Env p (set_result err p)
| p_cancel : pstep Env p (set_ctx true (maint_done p) p)
| p_env s : Env (pbroker p) s → pstep Env p (set_pbroker s p).

(** There is a way for the loops to a state with [Q]. *)
Definition leads (Q : Process S → Prop) (p : Process S) : Prop := ∃ p', rtc bstep p p' ∧ Q p'.

(** ** The background loops, seen from the broker *)

(** The calls they make, and no others. *)
Inductive own_call (s : S) : S → Prop :=
| own_reap now : own_call s (m_Reap (cfg_Queues (srv_cfg srv)) reapBatch now s).1
| own_promote now : own_call s (m_Promote promoteBatch now s).1
| own_beat w ttl now : wi_ID w = srv_WorkerID → own_call s (m_Heartbeat w ttl now s).1
| own_elect ttl now : own_call s (m_AcquireLease schedulerLease srv_WorkerID ttl now s).1
| own_release now : own_call s (m_ReleaseLease schedulerLease srv_WorkerID now s).1
| own_seed id t now : own_call s (c_ScheduleCronIfAbsent id t now s).1
| own_due now : own_call s (c_DueCron cronBatch now s).1
| own_enqueue NewID now d ce :
    srv_entries srv !! due_ID d = Some ce → own_call s (b_Enqueue NewID now (Some (cron_job ce d)) s).1.1
| own_claim d next now : own_call s (c_ClaimCron (due_ID d) (due_FireAt d) next now s).1
| own_none : own_call s s.

(** ** The invariant *)

(** The lifetimes of the loops: claiming, sweeping, promoting and scheduling end only with
    the caller's context, renewal and heartbeats only once drain has returned; and Run
    returns last. *)
Record pok (p : Process S) : Prop := mkPok {
  pok_stop : stop_ok (worker p);
  pok_fetch : fetching (worker p) = Returned → ctx_done p = true;
  pok_maint : maint_done p = true → ∃ err, stopping (worker p) = Exited err;
  pok_renew : renew_on p = false → maint_done p = true;
  pok_beats : beats p = Finished → maint_done p = true;
  pok_reaps : reaps p = Finished → ctx_done p = true;
  pok_promotes : promotes p = Finished → ctx_done p = true;
  pok_sched : sched p = SDefer ∨ sched p = SFinished → ctx_done p = true;
  pok_off : (beats p = Off ↔ srv_maint srv = false) ∧ (reaps p = Off ↔ srv_maint srv = false) ∧
            (promotes p = Off ↔ srv_maint srv = false) ∧
            (sched p = SOff ↔ srv_maint srv = false ∨ srv_entries srv = ∅);
  pok_leader : sched_over (sched p) = true → leader p = false;
  pok_result : ∀ err, result p = Some err →
    stopping (worker p) = Exited err ∧ maint_done p = true ∧ loops_over p = true;
  pok_selector : ∀ d, is_Some (next d (selector (worker p))) ↔ is_Some (next d (srv_queues srv))
}.
End process.

(** ** Lemmas *)

Section process_lemmas.
Context {S : Type} `{BrokerOps S} `{MaintenanceOps S} `{CronOps S}.
Context (Error_ : error → string) (srv : Server).
Implicit Types p : Process S.
Implicit Types w : Worker S.

Lemma set_broker_same w : set_broker (broker w) w = w.
Proof. by destruct w. Qed.

(** What an action of a loop does to the worker's state: at most one call on the broker. *)
Lemma bstep_worker p p' :
  bstep srv p p' → ∃ s, own_call srv (pbroker p) s ∧ worker p' = set_broker s (worker p).
Proof.
  intros Hstep.
  assert (∀ p1, worker p1 = worker p → ∃ s, own_call srv (pbroker p) s ∧ worker p1 = set_broker s (worker p)) as Hsame.
  { intros p1 ->. exists (pbroker p). split; [by constructor|]. unfold pbroker. by rewrite set_broker_same. }
  destruct Hstep as [| | |now Hl| |now Hl| |cn t id ce es Hl| |now Hl| |now Hl|i bn now d due Hl| |now d n due Hl|now Hl];
    try by apply Hsame.
  - eexists. split; [by apply (own_beat srv _ (beat_info srv pid (inFlightCount (worker p)) started))|done].
  - exists (m_Reap (cfg_Queues (srv_cfg srv)) reapBatch now (pbroker p)).1. split; [constructor|].
    unfold reap_call, reap_pass. by destruct (m_Reap _ _ _ _) as [s [n|e]].
  - exists (m_Promote promoteBatch now (pbroker p)).1. split; [constructor|].
    unfold promote_call, promote_pass. by destruct (m_Promote _ _ _) as [s [n|e]].
  - unfold seed_call, seed_one. cbv zeta. destruct (IsZero _); [by apply Hsame; unfold set_pbroker, pbroker; simpl; rewrite set_broker_same|].
    eexists. split; [apply (own_seed srv _ id (Schedule.Next (schedule ce) t) cn)|].
    by destruct (c_ScheduleCronIfAbsent _ _ _ _) as [s [b|e]].
  - unfold elect_call. eexists. split; [by apply (own_elect srv _ (beatTTL (cfg_VisibilityTimeout (srv_cfg srv))) now)|].
    by destruct (m_AcquireLease _ _ _ _ _) as [s [b|e]].
  - unfold due_call. eexists. split; [by apply (own_due srv _ now)|]. by destruct (c_DueCron _ _ _) as [s [b|e]].
  - unfold fire_call, fire_enqueue. destruct (srv_entries srv !! due_ID d) as [ce|] eqn:Hce.
    + cbv zeta. destruct (IsZero _); [by apply Hsame; unfold set_pbroker, pbroker; simpl; rewrite set_broker_same|].
      eexists. split; [by apply (own_enqueue srv _ i now d ce)|]. by destruct (b_Enqueue _ _ _ _) as [[s j] e].
    + apply Hsame. unfold set_pbroker, pbroker. simpl. by rewrite set_broker_same.
  - unfold claim_call, fire_claim. eexists. split; [by apply (own_claim srv _ d n now)|].
    by destruct (c_ClaimCron _ _ _ _ _) as [s [b|e]].
  - unfold release_call, scheduler_stop. destruct (leader p).
    + eexists. split; [by apply (own_release srv _ now)|done].
    + apply Hsame. unfold set_pbroker, pbroker. simpl. by rewrite set_broker_same.
Qed.

(** An action of the process is an action of the worker, a change of the broker by its loops
    or by others, or none. *)
Lemma pstep_worker Env p p' :
  pstep Error_ srv Env p p' →
  rtc (wstep Error_ srv (λ s s', Env s s' ∨ own_call srv s s')) (worker p) (worker p').
Proof.
  intros [w Hj|w _ Hn|w Hd|p1 Hb|err _ _|err _ _ _ _| |s Hs]; cbn [worker set_worker]; try by apply rtc_refl.
  - apply rtc_once. destruct Hj; by econstructor.
  - apply rtc_once. destruct Hn; by econstructor.
  - apply rtc_once. destruct Hd; by econstructor.
  - apply bstep_worker in Hb as (s & Hs & ->). apply rtc_once, step_env. by right.
  - apply rtc_once, step_env. by left.
Qed.

Lemma process_worker Env h now es (s : S) p0 p :
  Run srv h now es s = Ok p0 → rtc (pstep Error_ srv Env) p0 p →
  rtc (wstep Error_ srv (λ s s', Env s s' ∨ own_call srv s s')) (worker_start srv s) (worker p).
Proof.
  unfold Run. destruct h; [|done]. cbn [negb]. intros [= <-] Hr.
  assert (worker_start srv s = worker (startMaintenance srv now es (worker_start srv s))) as ->.
  { unfold startMaintenance. by destruct (srv_maint srv). }
  induction Hr as [|x y z Hxy Hyz IH]; [done|]. etrans; [by apply pstep_worker|done].
Qed.

(** What each kind of action leaves alone. *)
Lemma jstep_frame done w w' :
  jstep Error_ srv done w w' →
  stopping w' = stopping w ∧ (fetching w' = Returned → fetching w = Returned ∨ done = true) ∧
  ∀ d, is_Some (next d (selector w')) ↔ is_Some (next d (selector w)).
Proof.
  intros [| ? ? ? Hf Hc| | | | |]; cbn; try by (split_and!; intros; auto).
  unfold fetch_claim in Hc. destruct (next draws (selector w)) as [[sel ord]|] eqn:Hn; [|done].
  assert (∀ d, is_Some (next d sel) ↔ is_Some (next d (selector w))) as Hs by (intros d; by eapply next_again).
  destruct (b_Dequeue _ _ _) as [s [j|e]]; [|destruct (Is e ErrNoJob); [|destruct done]]; simplify_eq/=; split_and!; auto; done.
Qed.

Lemma nstep_frame w w' :
  nstep srv w w' → stopping w' = stopping w ∧ fetching w' = fetching w ∧ selector w' = selector w ∧ runs w' = runs w.
Proof.
  intros []; unfold renew_list, renew_extend, renew_cancel, cancelJob; repeat case_match; try done; by case_bool_decide.
Qed.

Lemma dstep_frame w w' :
  dstep w w' → fetching w' = fetching w ∧ selector w' = selector w ∧ runs w' = runs w ∧ ∀ err, stopping w ≠ Exited err.
Proof. intros [| | |]; cbn; split_and!; try done; intros err; destruct_or?; congruence. Qed.

(** What an action of a loop does to the loops. *)
Ltac loops_done H :=
  cbn; rewrite ?H, ?andb_false_r; cbn; split_and!; try done; try (split; done);
  intros; destruct_or?; simplify_eq; rewrite ?H in *; try done; auto.
Lemma bstep_loops p p' :
  bstep srv p p' →
  ctx_done p' = ctx_done p ∧ maint_done p' = maint_done p ∧ result p' = result p ∧ loops_over p = false ∧
  (renew_on p' = false → renew_on p = false ∨ maint_done p = true) ∧
  (beats p' = Finished → beats p = Finished ∨ maint_done p = true) ∧
  (reaps p' = Finished → reaps p = Finished ∨ ctx_done p = true) ∧
  (promotes p' = Finished → promotes p = Finished ∨ ctx_done p = true) ∧
  (sched p' = SDefer ∨ sched p' = SFinished → sched p = SDefer ∨ sched p = SFinished ∨ ctx_done p = true) ∧
  ((beats p' = Off ↔ beats p = Off) ∧ (reaps p' = Off ↔ reaps p = Off) ∧ (promotes p' = Off ↔ promotes p = Off) ∧
   (sched p' = SOff ↔ sched p = SOff)) ∧
  (sched_over (sched p') = true → leader p' = false ∨ (sched_over (sched p) = true ∧ leader p' = leader p)) ∧
  ((renew_on p = false → renew_on p' = false) ∧ (over (beats p) = true → beats p' = beats p) ∧
   (over (reaps p) = true → reaps p' = reaps p) ∧ (over (promotes p) = true → promotes p' = promotes p) ∧
   (sched_over (sched p) = true → sched p' = sched p)).
Proof.
  unfold loops_over. intros Hstep.
  destruct Hstep as [Hl Hr Hm|pid st now Hl|slept Hl Hs|now Hl|slept Hl Hs|now Hl|slept Hl Hs|cn t id ce es Hl|t Hl|now Hl
    |Hl Hc|now Hl|i bn now d due Hl|Hl|now d n due Hl|now Hl]; try (by loops_done Hl).
  - destruct slept; [|specialize (Hs eq_refl)]; loops_done Hl.
  - unfold reap_call, reap_pass. destruct (m_Reap _ _ _ _) as [s [n|e]], (ctx_done p) eqn:Hc; loops_done Hl.
  - destruct slept; [|specialize (Hs eq_refl)]; loops_done Hl.
  - unfold promote_call, promote_pass. destruct (m_Promote _ _ _) as [s [n|e]], (ctx_done p) eqn:Hc; loops_done Hl.
  - destruct slept; [|specialize (Hs eq_refl)]; loops_done Hl.
  - unfold seed_call. destruct (seed_one _ _ _ _ _) as [s [e|]]; loops_done Hl.
  - unfold elect_call. destruct (m_AcquireLease _ _ _ _ _) as [s [[]|e]], (ctx_done p) eqn:Hc; loops_done Hl.
  - unfold due_call. destruct (c_DueCron _ _ _) as [s [l|e]]; loops_done Hl.
  - unfold fire_call. destruct (fire_enqueue _ _ _ _ _ _) as [s [r|r]]; loops_done Hl.
  - unfold release_call, scheduler_stop. destruct (leader p); loops_done Hl.
Qed.

Lemma pok_start h now es (s : S) p : Run srv h now es s = Ok p → pok srv p.
Proof.
  unfold Run. destruct h; [|done]. cbn [negb]. intros [= <-]. unfold startMaintenance.
  assert (size (srv_entries srv) = 0%nat ↔ srv_entries srv = ∅) as Hsz by (apply map_size_empty_iff).
  destruct (srv_maint srv) eqn:Hm; cbn [negb]; [case_bool_decide as He|];
    constructor; cbn; try done; rewrite ?Hm; try naive_solver; by split.
Qed.

(** An action of the worker's part, with the invariant of the rest. *)
Lemma pok_worker Env p w :
  pok srv p → wstep Error_ srv Env (worker p) w →
  (fetching w = Returned → fetching (worker p) = Returned ∨ ctx_done p = true) →
  (∀ err, stopping (worker p) = Exited err → stopping w = Exited err) →
  (∀ d, is_Some (next d (selector w)) ↔ is_Some (next d (selector (worker p)))) →
  pok srv (set_worker w p).
Proof.
  intros [] Hw Hf Hs Hsel. constructor; cbn; try done.
  - by eapply stop_ok_step.
  - intros [?|?]%Hf; auto.
  - intros [err Herr]%pok_maint0. exists err. by apply Hs.
  - intros err (Hst & Hm & Hl)%pok_result0. split_and!; [by apply Hs|done|done].
  - intros d. by rewrite Hsel.
Qed.

Lemma pok_step Env p p' : pok srv p → pstep Error_ srv Env p p' → pok srv p'.
Proof.
  intros HP Hstep. pose proof HP as []. destruct Hstep as [w Hj|w Hon Hn|w Hd|p1 Hb|err Hex Hm|err Hex Hm Hl Hres| |s Hs].
  - destruct (jstep_frame _ _ _ Hj) as (Hst & Hf & Hsel). apply (pok_worker Env); [done| |done|by intros err; rewrite Hst|done].
    destruct Hj; by econstructor.
  - destruct (nstep_frame _ _ Hn) as (Hst & Hf & Hsel & _). apply (pok_worker Env); [done| |rewrite Hf; by left|by intros err; rewrite Hst|by rewrite Hsel].
    destruct Hn; by econstructor.
  - destruct (dstep_frame _ _ Hd) as (Hf & Hsel & _ & Hne). apply (pok_worker Env); [done| |rewrite Hf; by left|intros err He; by apply Hne in He|by rewrite Hsel].
    destruct Hd; by econstructor.
  - destruct (bstep_worker _ _ Hb) as (s & _ & Hw). destruct (bstep_loops _ _ Hb) as
      (Hc & Hm & Hr & Hlo & Hre & Hbe & Hrp & Hpr & Hsc & Hoff & Hle & _).
    constructor; rewrite ?Hw, ?Hc, ?Hm, ?Hr; cbn; try done.
    + intros [?|?]%Hre; auto.
    + intros [?|?]%Hbe; auto.
    + intros [?|?]%Hrp; auto.
    + intros [?|?]%Hpr; auto.
    + intros [?|[?|?]]%Hsc; auto.
    + destruct Hoff as (-> & -> & -> & ->). done.
    + intros [?|[? ->]]%Hle; auto.
    + intros err (_ & _ & Hl)%pok_result0. congruence.
  - constructor; cbn; try done; [by exists err|]. intros e (? & ? & ?)%pok_result0. done.
  - constructor; cbn; try done. by intros ? [= <-].
  - constructor; cbn; auto.
  - by constructor.
Qed.

Lemma pok_reachable Env h now es (s : S) p0 p :
  Run srv h now es s = Ok p0 → rtc (pstep Error_ srv Env) p0 p → pok srv p.
Proof. intros Hrun Hr. apply (rtc_invariant _ _ _ _ (pok_step Env) Hr). by eapply pok_start. Qed.

(** ** Lemmas: the way out *)

(** From every state of a goroutine there is a way to its end, once its context is done. *)
Section way_out.
Context (Env : S → S → Prop).

(** Steps that neither cancel nor touch the goroutine of a job that has been started. *)
Definition calm (p p' : Process S) : Prop :=
  pstep Error_ srv Env p p' ∧ ctx_done p' = ctx_done p ∧ runs (worker p) ⊆ runs (worker p').
Abbreviation goes := (rtc calm).

Lemma calm_psteps p p' : goes p p' → rtc (pstep Error_ srv Env) p p'.
Proof. induction 1 as [|x y z [Hxy _] _ IH]; [done|by eapply rtc_l]. Qed.

Lemma goes_loop p p' : rtc (bstep srv) p p' → goes p p'.
Proof.
  induction 1 as [|p p1 p2 Hb _ IH]; [done|]. eapply rtc_l; [|done]. split; [by apply p_loop|].
  destruct (bstep_loops _ _ Hb) as (-> & _). split; [done|]. by destruct (bstep_worker _ _ Hb) as (s & _ & ->).
Qed.

(** Actions of the loops leave the contexts, the result and the worker's own state alone,
    and never start a loop again. *)
Lemma loops_onward p p' :
  rtc (bstep srv) p p' →
  ctx_done p' = ctx_done p ∧ maint_done p' = maint_done p ∧ result p' = result p ∧
  (∃ s, worker p' = set_broker s (worker p)) ∧
  (renew_on p = false → renew_on p' = false) ∧ (over (beats p) = true → over (beats p') = true) ∧
  (over (reaps p) = true → over (reaps p') = true) ∧ (over (promotes p) = true → over (promotes p') = true) ∧
  (sched_over (sched p) = true → sched_over (sched p') = true).
Proof.
  induction 1 as [p|p p1 p2 Hb _ IH].
  { split_and!; try done. exists (pbroker p). unfold pbroker. by rewrite set_broker_same. }
  destruct (bstep_worker _ _ Hb) as (s1 & _ & Hw). destruct (bstep_loops _ _ Hb) as
    (Hc & Hm & Hr & _ & _ & _ & _ & _ & _ & _ & _ & Hre & Hbe & Hrp & Hpr & Hsc).
  destruct IH as (-> & -> & -> & [s2 ->] & Ire & Ibe & Irp & Ipr & Isc). rewrite Hw.
  split_and!; try done; [by exists s2| |..]; intros Ho; auto.
  - apply Ibe. by rewrite Hbe.
  - apply Irp. by rewrite Hrp.
  - apply Ipr. by rewrite Hpr.
  - apply Isc. by rewrite Hsc.
Qed.

Lemma leads_now (Q : Process S → Prop) p : Q p → leads srv Q p.
Proof. intros HQ. by exists p. Qed.

Lemma leads_step (Q : Process S → Prop) p p1 : bstep srv p p1 → leads srv Q p1 → leads srv Q p.
Proof. intros Hb (p' & Hp' & HQ). exists p'. split; [by eapply rtc_l|done]. Qed.

(** reapLoop, promoteLoop and heartbeatLoop: the call, if one is due, and the end of the sleep. *)
Lemma reaps_end p : ctx_done p = true → leads srv (λ q, over (reaps q) = true) p.
Proof.
  assert (∀ q, ctx_done q = true → reaps q = Asleep → leads srv (λ q, over (reaps q) = true) q) as Hs.
  { intros q Hc Hl. apply (leads_step _ _ (set_reaps (woken false) q)); [|by apply leads_now].
    by apply b_reap_sleep; [|intros _]. }
  intros Hc. destruct (reaps p) eqn:Hl; [apply leads_now; by rewrite Hl| |by apply Hs|apply leads_now; by rewrite Hl].
  assert (bstep srv p (reap_call srv 0 p)) as Hb by (by constructor). apply (leads_step _ _ _ Hb). clear Hb.
  unfold reap_call. destruct (reap_pass srv 0 (ctx_done p) (pbroker p)) as [s []]; [by apply Hs|by apply leads_now].
Qed.

Lemma promotes_end p : ctx_done p = true → leads srv (λ q, over (promotes q) = true) p.
Proof.
  assert (∀ q, ctx_done q = true → promotes q = Asleep → leads srv (λ q, over (promotes q) = true) q) as Hs.
  { intros q Hc Hl. apply (leads_step _ _ (set_promotes (woken false) q)); [|by apply leads_now].
    by apply b_promote_sleep; [|intros _]. }
  intros Hc. destruct (promotes p) eqn:Hl; [apply leads_now; by rewrite Hl| |by apply Hs|apply leads_now; by rewrite Hl].
  assert (bstep srv p (promote_call 0 p)) as Hb by (by constructor). apply (leads_step _ _ _ Hb). clear Hb.
  unfold promote_call. destruct (promote_pass 0 (ctx_done p) (pbroker p)) as [s []]; [by apply Hs|by apply leads_now].
Qed.

Lemma beats_end p : maint_done p = true → leads srv (λ q, over (beats q) = true) p.
Proof.
  assert (∀ q, maint_done q = true → beats q = Asleep → leads srv (λ q, over (beats q) = true) q) as Hs.
  { intros q Hc Hl. apply (leads_step _ _ (set_beats (woken false) q)); [|by apply leads_now].
    by apply b_beat_sleep; [|intros _]. }
  intros Hc. destruct (beats p) eqn:Hl; [apply leads_now; by rewrite Hl| |by apply Hs|apply leads_now; by rewrite Hl].
  apply (leads_step _ _ (beat_call srv 0 0 0 p)); [by constructor|by apply Hs].
Qed.

(** schedulerLoop: the rest of what it is doing, the end of its sleep, the release. *)
Abbreviation sched_ends := (leads srv (λ q, sched_over (sched q) = true)).

Lemma sched_end_defer p : sched p = SDefer → sched_ends p.
Proof.
  intros Hq. apply (leads_step _ _ (release_call srv 0 p)); [by constructor|]. apply leads_now.
  unfold release_call. by destruct (scheduler_stop _ _ _ _).
Qed.

Lemma sched_end_sleep p : ctx_done p = true → sched p = SAsleep → sched_ends p.
Proof.
  intros Hc Hq. apply (leads_step _ _ (set_sched SDefer (leader p) p)); [by apply b_sched_end|]. by apply sched_end_defer.
Qed.

Lemma sched_end_fire due p : ctx_done p = true → sched p = SFire due → sched_ends p.
Proof.
  revert p. induction due as [|d due IH]; intros p Hc Hq.
  { apply (leads_step _ _ (set_sched SAsleep (leader p) p)); [by apply b_fired|]. by apply sched_end_sleep. }
  assert (bstep srv p (fire_call srv "" 0 0 d due p)) as Hb by (by constructor). apply (leads_step _ _ _ Hb). clear Hb.
  unfold fire_call. destruct (fire_enqueue srv "" 0 0 d (pbroker p)) as [s [r|n]]; [by apply IH|].
  eapply leads_step; [by eapply (b_claim srv _ 0)|]. by apply IH.
Qed.

Lemma sched_end_seed es t p : ctx_done p = true → sched p = SSeed t es → sched_ends p.
Proof.
  revert p. induction es as [|[id ce] es IH]; intros p Hc Hq.
  { apply (leads_step _ _ (set_sched SAsleep (leader p) p)); [by eapply b_seeded|]. by apply sched_end_sleep. }
  assert (bstep srv p (seed_call 0 t id ce es p)) as Hb by (by constructor). apply (leads_step _ _ _ Hb). clear Hb.
  unfold seed_call. destruct (seed_one t 0 id ce (pbroker p)) as [s [e|]]; [by apply sched_end_sleep|by apply IH].
Qed.

Lemma sched_end p : ctx_done p = true → sched_ends p.
Proof.
  intros Hc. destruct (sched p) as [|t es| | |due|d n due| |] eqn:Hq.
  - apply leads_now. by rewrite Hq.
  - by eapply sched_end_seed.
  - by apply sched_end_sleep.
  - apply (leads_step _ _ (due_call 0 p)); [by constructor|]. unfold due_call.
    destruct (c_DueCron cronBatch 0 (pbroker p)) as [s [due|e]]; [by eapply sched_end_fire|by apply sched_end_sleep].
  - by eapply sched_end_fire.
  - apply (leads_step _ _ (claim_call 0 d n due p)); [by constructor|]. by eapply sched_end_fire.
  - by apply sched_end_defer.
  - apply leads_now. by rewrite Hq.
Qed.

(** The fetch loop returns, and the goroutines of jobs finish; with them the shutdown. *)
Definition kept (w w' : Worker S) : Prop := jstep Error_ srv true w w' ∧ runs w ⊆ runs w'.
Lemma goes_worker p w : ctx_done p = true → rtc kept (worker p) w → goes p (set_worker w p).
Proof.
  intros Hc Hr. assert (∀ w1 w2, rtc kept w1 w2 → goes (set_worker w1 p) (set_worker w2 p)) as HS.
  { intros w1 w2. induction 1 as [|w1 w3 w2 [Hj Hk] _ IH]; [done|]. eapply rtc_l; [|exact IH]. split_and!; [|done|done].
    apply (p_job _ _ _ (set_worker w1 p)). cbn. by rewrite Hc. }
  apply HS in Hr. destruct p. exact Hr.
Qed.

(** Every live run has a number that was given out. *)
Definition numbered (w : Worker S) : Prop := ∀ k, is_Some (runs w !! k) → (k < spawned w)%nat.

Lemma numbered_step Env' w w' : wstep Error_ srv Env' w w' → numbered w → numbered w'.
Proof.
  intros Hstep Hn k. specialize (Hn k) as Hk. assert (∀ k' x, runs w !! k' = Some x → (k' < spawned w)%nat) as Hs by (intros; apply Hn; by eexists).
  destruct Hstep as [|draws now c w' Hf Hc| | |k' j Hr|k' j o now Hr|k' j Hr| |ids now Hr| | | | | |]; try done;
    try (unfold renew_list, renew_extend, renew_cancel, cancelJob; repeat case_match; try done; by case_bool_decide).
  - apply fetch_claim_spec in Hc as (_ & _ & _ & [(j & -> & -> & _)|(-> & -> & _)]); [|done].
    rewrite lookup_insert_is_Some. intros [<-|[_ ?%Hk]]; lia.
  - cbn. rewrite lookup_insert_is_Some. intros [<-|[_ ?]]; [by eapply Hs|auto].
  - cbn. rewrite lookup_insert_is_Some. intros [<-|[_ ?]]; [by eapply Hs|auto].
  - cbn. rewrite lookup_delete_is_Some. intros [_ ?]. auto.
Qed.

Lemma fetch_end w :
  (∃ d, is_Some (next d (selector w))) → numbered w →
  ∃ w', rtc kept w w' ∧ fetching w' = Returned ∧ stopping w' = stopping w.
Proof.
  intros [d [[sel ord] Hn]] Hnum.
  assert (∀ w1, fetching w1 = AtSelect ∨ (∃ d, fetching w1 = Sleeping d) → stopping w1 = stopping w →
    ∃ w', rtc kept w1 w' ∧ fetching w' = Returned ∧ stopping w' = stopping w) as Hret.
  { intros w1 Hf Hst. exists (fetch_return w1). split; [|done]. apply rtc_once. split; [by apply j_return|done]. }
  destruct (fetching w) eqn:Hf; [by apply Hret; [left|]| |by apply Hret; [right; eexists|]|by exists w].
  destruct (fetch_claim srv d 0 true w) as [w1|] eqn:Hc.
  - assert (kept w w1) as Hj.
    { split; [by eapply j_claim|]. apply fetch_claim_spec in Hc as (_ & _ & _ & [(j & -> & _)|(-> & _)]); [|done].
      apply insert_subseteq. destruct (runs w !! spawned w) eqn:Hs; [|done]. by pose proof (Hnum _ (ex_intro _ _ Hs)) as ?%Nat.lt_irrefl. }
    destruct (jstep_frame _ _ _ (proj1 Hj)) as (Hst & _).
    destruct (fetching w1) as [| |d1|] eqn:Hf1.
    + destruct (Hret w1) as (w' & Hw' & ?); [by left|done|]. exists w'. split; [by eapply rtc_l|done].
    + apply fetch_claim_spec in Hc as (_ & Hnc & _). done.
    + destruct (Hret w1) as (w' & Hw' & ?); [right; by eexists|done|]. exists w'. split; [by eapply rtc_l|done].
    + exists w1. split; [by apply rtc_once|done].
  - unfold fetch_claim in Hc. rewrite Hn in Hc. destruct (b_Dequeue _ _ _) as [s [j|e]]; [done|].
    by destruct (Is e ErrNoJob).
Qed.

Lemma rstep_jstep done w w' : rstep Error_ srv w w' → jstep Error_ srv done w w'.
Proof. intros (k & j & [[Hk ->]|[(Hk & o & now & ->)|[Hk ->]]]); by constructor. Qed.

Lemma jobs_end done w :
  ∃ w', rtc (jstep Error_ srv done) w w' ∧ runs w' = ∅ ∧ fetching w' = fetching w ∧ stopping w' = stopping w.
Proof.
  remember (runs_left w) as n eqn:Hn. revert w Hn. induction n as [|n IH]; intros w Hn;
    (destruct (decide (runs w = ∅)) as [He|Hne]; [by exists w|]);
    destruct (rstep_progress Error_ srv w Hne) as [w1 Hw1]; pose proof (rstep_left _ _ _ _ Hw1); [lia|].
  destruct (IH w1) as (w' & Hr & He & Hf & Hs); [lia|]. exists w'. split; [eapply rtc_l; [by apply rstep_jstep|done]|].
  rewrite Hf, Hs. by destruct Hw1 as (k & j & [[_ ->]|[(_ & o & now & ->)|[_ ->]]]).
Qed.

Lemma renew_end p :
  maint_done p = true → ∃ w', goes p (set_renew false (set_worker w' p)) ∧ stopping w' = stopping (worker p).
Proof.
  intros Hm. destruct (renew_on p) eqn:Hon.
  2:{ exists (worker p). destruct p; cbn in *. rewrite Hon. by split. }
  assert (∀ ids w, renewing w = Cancelling ids →
    ∃ w', goes (set_worker w p) (set_renew false (set_worker w' p)) ∧ stopping w' = stopping w) as Hcan.
  { induction ids as [|id ids IH]; intros w Hw.
    { exists w. split; [|done]. apply rtc_once. split; [|done]. apply p_loop. by constructor. }
    destruct (IH (renew_cancel id ids w)) as (w' & Hg & Hst); [done|]. exists w'.
    assert (nstep srv w (renew_cancel id ids w)) as Hn by (by constructor).
    split; [|by rewrite Hst; apply (nstep_frame _ _ Hn)]. eapply rtc_l; [|exact Hg].
    split_and!; [by apply (p_renew _ _ _ (set_worker w p))|done|]. cbn [worker set_worker]. by rewrite (proj2 (proj2 (proj2 (nstep_frame _ _ Hn)))). }
  assert (set_worker (worker p) p = p) as Hp by (by destruct p).
  destruct (renewing (worker p)) as [ids|ids] eqn:Hr; [|by destruct (Hcan ids _ Hr) as (w' & Hg & Hst); rewrite Hp in Hg; exists w'].
  assert (nstep srv (worker p) (renew_extend srv ids 0 (worker p))) as Hn by (by constructor).
  assert (∃ l, renewing (renew_extend srv ids 0 (worker p)) = Cancelling l) as [l Hl].
  { unfold renew_extend. destruct (b_Extend _ _ _ _ _) as [s [lost|e]]; [by eexists|]. case_bool_decide; by eexists. }
  destruct (Hcan l _ Hl) as (w' & Hg & Hst). exists w'. split; [|by rewrite Hst; apply (nstep_frame _ _ Hn)].
  eapply rtc_l; [|exact Hg]. split_and!; [by apply p_renew|done|]. cbn [worker set_worker]. by rewrite (proj2 (proj2 (proj2 (nstep_frame _ _ Hn)))).
Qed.

(** Drain returns, and then every loop ends. *)
Lemma drain_end p :
  fetching (worker p) = Returned → runs (worker p) = ∅ ∨ (∃ err, stopping (worker p) = Exited err) →
  ∃ w, goes p (set_worker w p) ∧
    stopping w = Exited match stopping (worker p) with Exited err => err | _ => None end.
Proof.
  intros Hf He. assert (set_worker (worker p) p = p) as Hp by (by destruct p).
  destruct (stopping (worker p)) as [| | |err] eqn:Hst; [..|by exists (worker p); rewrite Hp].
  all: destruct He as [He|[? [=]]].
  1: exists (drain_done (drain_begin (worker p))).
  2,3: exists (drain_done (worker p)).
  all: split; [|done].
  1: eapply (rtc_l _ _ (set_worker (drain_begin (worker p)) p)); [split; [by apply p_drain, d_begin|done]|].
  1: apply rtc_once; split; [|done].
  1: by apply (p_drain _ _ _ (set_worker (drain_begin (worker p)) p)), d_done; [|left].
  all: apply rtc_once; split; [|done].
  all: apply p_drain, d_done; auto.
Qed.

Lemma loops_end p :
  ctx_done p = true → maint_done p = true →
  ∃ p', goes p p' ∧ loops_over p' = true ∧ stopping (worker p') = stopping (worker p) ∧
    maint_done p' = true ∧ result p' = result p.
Proof.
  intros Hc Hm.
  destruct (sched_end p Hc) as (p1 & R1 & O1). destruct (loops_onward _ _ R1) as (C1 & M1 & _).
  destruct (reaps_end p1 ltac:(by rewrite C1)) as (p2 & R2 & O2).
  destruct (loops_onward _ _ R2) as (C2 & M2 & _ & _ & _ & _ & _ & _ & S2).
  destruct (promotes_end p2 ltac:(by rewrite C2, C1)) as (p3 & R3 & O3).
  destruct (loops_onward _ _ R3) as (C3 & M3 & _ & _ & _ & _ & P3 & _ & S3).
  destruct (beats_end p3 ltac:(by rewrite M3, M2, M1)) as (p4 & R4 & O4).
  destruct (loops_onward _ _ R4) as (_ & M4 & _ & _ & _ & _ & P4 & Q4 & S4).
  assert (rtc (bstep srv) p p4) as R by (etrans; [exact R1|etrans; [exact R2|by etrans]]).
  destruct (loops_onward _ _ R) as (_ & M & Hres & [s Hw] & _).
  destruct (renew_end p4 ltac:(by rewrite M)) as (w & Hg & Hst).
  exists (set_renew false (set_worker w p4)). split_and!.
  - etrans; [by apply goes_loop|exact Hg].
  - unfold loops_over. cbn. by rewrite O4, P4, Q4, S4 by auto.
  - cbn. by rewrite Hst, Hw.
  - cbn. by rewrite M.
  - done.
Qed.

(** With no job left, or given up on, Run returns. *)
Lemma way_end p :
  ctx_done p = true → result p = None → fetching (worker p) = Returned →
  runs (worker p) = ∅ ∨ (∃ err, stopping (worker p) = Exited err) →
  ∃ p', goes p p' ∧ result p' = Some match stopping (worker p) with Exited err => err | _ => None end.
Proof.
  intros Hc Hres Hf He. destruct (drain_end p Hf He) as (w & Hg2 & Hst2). set (p2 := set_worker w p) in *.
  assert (∃ p3, goes p2 p3 ∧ ctx_done p3 = true ∧ maint_done p3 = true ∧
    stopping (worker p3) = stopping w ∧ result p3 = None) as (p3 & Hg3 & Hc3 & Hm3 & Hst3 & Hr3).
  { destruct (maint_done p) eqn:Hm; [by exists p2|]. exists (stop_maint p2). split_and!; try done.
    apply rtc_once. split; [by eapply p_stop_maint|done]. }
  destruct (loops_end p3 Hc3 Hm3) as (p4 & Hg4 & Hl4 & Hst4 & Hm4 & Hr4).
  exists (set_result match stopping (worker p) with Exited err => err | _ => None end p4). split; [|done].
  etrans; [exact Hg2|]. etrans; [exact Hg3|]. etrans; [exact Hg4|]. apply rtc_once. split; [|done].
  apply p_exit; [by rewrite Hst4, Hst3|done|done|by rewrite Hr4].
Qed.

Lemma psteps_jobs p w : rtc (jstep Error_ srv (ctx_done p)) (worker p) w → rtc (pstep Error_ srv Env) p (set_worker w p).
Proof.
  intros Hr. assert (∀ w1 w2, rtc (jstep Error_ srv (ctx_done p)) w1 w2 →
    rtc (pstep Error_ srv Env) (set_worker w1 p) (set_worker w2 p)) as HS.
  { intros w1 w2. induction 1 as [|w1 w3 w2 Hj _ IH]; [done|]. eapply rtc_l; [|exact IH]. by apply (p_job _ _ _ (set_worker w1 p)). }
  apply HS in Hr. destruct p. exact Hr.
Qed.
End way_out.

Lemma numbered_reachable Env h now es (s : S) p0 p :
  Run srv h now es s = Ok p0 → rtc (pstep Error_ srv Env) p0 p → numbered (worker p).
Proof.
  intros Hrun Hr. refine (rtc_invariant _ numbered _ _ _ (process_worker Env _ _ _ _ _ _ Hrun Hr) _).
  - intros x y Hn Hxy. by eapply numbered_step.
  - intros k [x Hx]. change ((∅ : gmap nat (Job * phase)) !! k = Some x) in Hx. by rewrite lookup_empty in Hx.
Qed.
End process_lemmas.

(** ** Properties *)

(** C19: the whole process behaves, towards its jobs, as the worker of the previous file. Every
    execution of Run, with its background loops, is an execution of the worker's transition
    system in an environment that adds only the calls those loops make: sweeps of its queues
    and promotions by the batch, heartbeats under its own identity, elections and releases
    of the scheduler's lease in its own name, and the seeding, enqueueing and claiming of
    its own schedules. What holds of the worker in every environment, such as its limit on
    concurrency, holds of the process. *)
Theorem process_refines_worker {S} `{BrokerOps S} `{MaintenanceOps S} `{CronOps S} Error_ srv Env h now es (s : S) p0 p :
  Run srv h now es s = Ok p0 → rtc (pstep Error_ srv Env) p0 p →
  worker p0 = worker_start srv s ∧
  rtc (wstep Error_ srv (λ s s', Env s s' ∨ own_call srv s s')) (worker p0) (worker p).
Proof.
  intros Hrun Hr. assert (worker p0 = worker_start srv s) as Hw.
  { revert Hrun. unfold Run, startMaintenance. destruct h; [|done]. intros [= <-]. by destruct (srv_maint srv). }
  split; [done|]. rewrite Hw. by eapply process_worker.
Qed.

(** C18: each background loop lives as long as it must, and Run returns last. Until the caller
    cancels, the process neither stops claiming nor stops sweeping, promoting or scheduling;
    until drain has returned, leases are renewed and heartbeats go out, so that a job that
    is still draining does not lose its lease for want of renewal; the loops that need a
    Maintenance broker run exactly when there is one, and the scheduler exactly when there
    are schedules too; and when Run has returned, drain has, with the same error, every loop
    has ended and the process does not think it is the leader. *)
Theorem run_lifetimes {S} `{BrokerOps S} `{MaintenanceOps S} `{CronOps S} Error_ srv Env h now es (s : S) p0 p :
  Run srv h now es s = Ok p0 → rtc (pstep Error_ srv Env) p0 p →
  (ctx_done p = false → fetching (worker p) ≠ Returned ∧ reaps p ≠ Finished ∧ promotes p ≠ Finished ∧
     sched p ≠ SDefer ∧ sched p ≠ SFinished) ∧
  ((∀ err, stopping (worker p) ≠ Exited err) → renew_on p = true ∧ beats p ≠ Finished) ∧
  ((beats p = Off ↔ srv_maint srv = false) ∧ (reaps p = Off ↔ srv_maint srv = false) ∧
   (promotes p = Off ↔ srv_maint srv = false) ∧
   (sched p = SOff ↔ srv_maint srv = false ∨ srv_entries srv = ∅)) ∧
  ∀ err, result p = Some err →
    stopping (worker p) = Exited err ∧ ctx_done p = true ∧ loops_over p = true ∧ IsLeader p = false.
Proof.
  intros Hrun Hr. pose proof (pok_reachable Error_ srv Env _ _ _ _ _ _ Hrun Hr) as [].
  split_and!.
  - intros Hc. split_and!; intros Hx; [apply pok_fetch0 in Hx|apply pok_reaps0 in Hx|apply pok_promotes0 in Hx
      |specialize (pok_sched0 (or_introl Hx))|specialize (pok_sched0 (or_intror Hx))]; congruence.
  - intros Hne. split; [destruct (renew_on p) eqn:Hn; [done|]; specialize (pok_renew0 eq_refl)|intros Hb; specialize (pok_beats0 Hb)];
      by destruct pok_maint0 as [err ?]; [|destruct (Hne err)].
  - apply pok_off0.
  - apply pok_off0.
  - apply pok_off0.
  - apply pok_off0.
  - intros err (Hst & Hm & Hl)%pok_result0. split_and!; [done| |done|].
    + apply pok_fetch0, pok_stop0. by rewrite Hst.
    + apply pok_leader0. unfold loops_over in Hl. by repeat (apply andb_true_iff in Hl as [? Hl] || apply andb_true_iff in Hl as [Hl ?]).
Qed.

(** A process whose Run has returned is silent. If it returned without an error it makes no
    step of its own ever again; if it gave up on jobs that ignored their cancellation, only
    the goroutines of those jobs still act. *)
Theorem run_quiescent {S} `{BrokerOps S} `{MaintenanceOps S} `{CronOps S} Error_ srv Env h now es (s : S) p0 p p' err :
  Run srv h now es s = Ok p0 → rtc (pstep Error_ srv Env) p0 p → result p = Some err → pstep Error_ srv Env p p' →
  p' = set_ctx true (maint_done p) p ∨ (∃ s', Env (pbroker p) s' ∧ p' = set_pbroker s' p) ∨
  (∃ e w, err = Some e ∧ rstep Error_ srv (worker p) w ∧ p' = set_worker w p).
Proof.
  intros Hrun Hr Hres Hstep. pose proof (pok_reachable Error_ srv Env _ _ _ _ _ _ Hrun Hr) as [].
  destruct (pok_result0 _ Hres) as (Hst & Hm & Hl). destruct pok_stop0 as [Hret Hnone].
  assert (fetching (worker p) = Returned) as Hf by (apply Hret; by rewrite Hst).
  assert (∀ k x, runs (worker p) !! k = Some x → ∃ e, err = Some e) as Hlive.
  { intros k x Hk. destruct err as [e|]; [by exists e|]. rewrite (Hnone Hst), lookup_empty in Hk. done. }
  assert (renew_on p = false) as Hren by (unfold loops_over in Hl; by destruct (renew_on p)).
  destruct Hstep as [w Hj|w Hon Hn|w Hd|p1 Hb|e Hex Hm'|e Hex Hm' Hl' Hres'| |s' Hs'].
  - right. right. destruct Hj as [| | |? [Hx|[d Hx]]|k j Hk|k j o t Hk|k j Hk]; try congruence;
      destruct (Hlive _ _ Hk) as [e ->]; eexists e, _; (split_and!; [done| |done]); exists k, j; naive_solver.
  - congruence.
  - destruct (dstep_frame _ _ Hd) as (_ & _ & _ & Hne). by destruct (Hne err).
  - destruct (bstep_loops srv _ _ Hb) as (_ & _ & _ & Hlo & _). congruence.
  - congruence.
  - congruence.
  - by left.
  - right. left. by exists s'.
Qed.

(** C20: a process can always come to an end. From every state it can reach, whatever its loops,
    its jobs and its scheduler are in the middle of, there is a continuation, the caller's
    cancellation included, in which Run returns, and it returns no error unless it has
    already given up on its jobs. *)
Theorem run_can_return {S} `{BrokerOps S} `{MaintenanceOps S} `{CronOps S} Error_ srv Env h now es (s : S) p0 p :
  (∃ d, is_Some (next d (srv_queues srv))) →
  Run srv h now es s = Ok p0 → rtc (pstep Error_ srv Env) p0 p → result p = None →
  ∃ p', rtc (pstep Error_ srv Env) p p' ∧
    result p' = Some match stopping (worker p) with Exited err => err | _ => None end.
Proof.
  intros Hd Hrun Hr Hres. pose proof (pok_reachable Error_ srv Env _ _ _ _ _ _ Hrun Hr) as HP.
  pose proof (numbered_reachable Error_ srv Env _ _ _ _ _ _ Hrun Hr) as Hnum.
  set (p1 := set_ctx true (maint_done p) p). assert (pstep Error_ srv Env p p1) as Hcan by constructor.
  destruct (fetch_end Error_ srv (worker p)) as (w1 & Hr1 & Hf1 & Hs1); [|done|].
  { destruct Hd as [d Hd]. exists d. by apply (pok_selector _ _ HP). }
  apply (goes_worker Error_ srv Env p1) in Hr1; [|done].
  destruct (jobs_end Error_ srv true w1) as (w2 & Hr2 & He2 & Hf2 & Hs2).
  destruct (way_end Error_ srv Env (set_worker w2 p1)) as (p' & Hg & Hp'); [done|done|cbn; congruence|by left|].
  exists p'. split; [|rewrite Hp'; cbn; by rewrite Hs2, Hs1].
  eapply rtc_l; [exact Hcan|]. etrans; [by apply calm_psteps|]. etrans; [|by apply calm_psteps].
  exact (psteps_jobs Error_ srv Env (set_worker w1 p1) w2 Hr2).
Qed.

(** ** A short life *)

Section quiet.
Context {S : Type} `{BrokerOps S} `{MaintenanceOps S} `{CronOps S}.
Context (Error_ : error → string) (srv : Server).

(** Steps of a process that runs no job. *)
Definition quiet (p p' : Process S) : Prop :=
  pstep Error_ srv (λ _ _, False) p p' ∧ ctx_done p' = ctx_done p ∧ runs (worker p) = ∅.

(** A process that was cancelled as soon as it had started, with nothing to seed, returns. *)
Definition fresh (t : Z) (s : S) : Process S :=
  mkProcess (worker_start srv s) true false true Call Asleep Asleep (SSeed t []) false None.

Lemma fresh_returns t s : ∃ p, rtc quiet (fresh t s) p ∧ is_Some (result p).
Proof.
  set (w := worker_start srv s). set (s1 := broker (worker (beat_call srv 0 0 0 (fresh t s)))).
  set (w1 := set_broker s1 w). set (w2 := drain_done (drain_begin (fetch_return w1))).
  eexists. split.
  - eapply (rtc_l _ _ (mkProcess w1 true false true Asleep Asleep Asleep (SSeed t []) false None)).
    { split; [by apply p_loop, (b_beat srv (fresh t s) 0 0 0)|done]. }
    eapply (rtc_l _ _ (mkProcess (fetch_return w1) true false true Asleep Asleep Asleep (SSeed t []) false None)).
    { split; [|done]. apply p_job, j_return; [done|by left]. }
    eapply (rtc_l _ _ (mkProcess (drain_begin (fetch_return w1)) true false true Asleep Asleep Asleep (SSeed t []) false None)).
    { split; [|done]. by apply p_drain, d_begin. }
    eapply (rtc_l _ _ (mkProcess w2 true false true Asleep Asleep Asleep (SSeed t []) false None)).
    { split; [|done]. apply p_drain, d_done; [done|by left]. }
    eapply (rtc_l _ _ (mkProcess w2 true true true Asleep Asleep Asleep (SSeed t []) false None)).
    { split; [|done]. by eapply p_stop_maint. }
    eapply (rtc_l _ _ (mkProcess w2 true true false Asleep Asleep Asleep (SSeed t []) false None)).
    { split; [|done]. by apply p_loop, b_renew_end. }
    eapply (rtc_l _ _ (mkProcess w2 true true false Finished Asleep Asleep (SSeed t []) false None)).
    { split; [|done]. apply p_loop. by refine (b_beat_sleep srv _ false _ _). }
    eapply (rtc_l _ _ (mkProcess w2 true true false Finished Finished Asleep (SSeed t []) false None)).
    { split; [|done]. apply p_loop. by refine (b_reap_sleep srv _ false _ _). }
    eapply (rtc_l _ _ (mkProcess w2 true true false Finished Finished Finished (SSeed t []) false None)).
    { split; [|done]. apply p_loop. by refine (b_promote_sleep srv _ false _ _). }
    eapply (rtc_l _ _ (mkProcess w2 true true false Finished Finished Finished SAsleep false None)).
    { split; [|done]. by eapply p_loop, b_seeded. }
    eapply (rtc_l _ _ (mkProcess w2 true true false Finished Finished Finished SDefer false None)).
    { split; [|done]. by apply p_loop, b_sched_end. }
    eapply (rtc_l _ _ (mkProcess w2 true true false Finished Finished Finished SFinished false None)).
    { split; [|done]. apply p_loop. by refine (b_release srv _ 0 _). }
    eapply rtc_once. split; [by eapply p_exit|done].
  - by eexists.
Qed.
End quiet.
