(* ===== verification/Demo.v ===== *)
(** * Programs that print

    The programs under examples/ run calls of the library that can fail, in
    sequence, and print what they see: a state and error monad over any world, with
    the lines printed so far. A line is its format, without the line feed, and the
    arguments of its verbs, each as it is printed. *)
From S2P Require Import Prelude GoBase.

Definition line : Type := string * list string.

Record console (W : Type) := mkConsole { world : W; printed : list line }.
Arguments mkConsole {W}.
Arguments world {W}.
Arguments printed {W}.

Definition demo (W A : Type) : Type := console W → console W * res A.

#[export] Instance demo_ret {W} : MRet (demo W) := λ A a c, (c, Ok a).
#[export] Instance demo_bind {W} : MBind (demo W) := λ A B k m c,
  match m c with (c, Ok a) => k a c | (c, Err e) => (c, Err e) end.

(** A call on the world, and one whose only result is an error. *)
Definition does {W A} (f : W → W * res A) : demo W A := λ c,
  let '(w, r) := f (world c) in (mkConsole w (printed c), r).
Definition attempt {W} (f : W → W * option error) : demo W unit :=
  does (λ w, let '(w, err) := f w in (w, match err with Some e => Err e | None => Ok () end)).
Definition throw {W A} (e : error) : demo W A := λ c, (c, Err e).

(** [err := f()], an error or nil, as a value. *)
Definition errof {W} (m : demo W unit) : demo W (option error) := λ c,
  match m c with (c, Ok _) => (c, Ok None) | (c, Err e) => (c, Ok (Some e)) end.

Definition Printf {W} (format : string) (args : list string) : demo W unit := λ c,
  (mkConsole (world c) (printed c ++ [(format, args)]), Ok ()).
Definition Println {W} (s : string) : demo W unit := Printf s [].

(** [d.Round(m)]: to the nearest multiple, halves away from zero. *)
Definition Round (d m : Z) : Z :=
  if bool_decide (m ≤ 0) then d
  else
    let r := Z.rem d m in
    if bool_decide (d < 0) then if bool_decide (- r + - r < m) then d - r else d - r - m
    else if bool_decide (r + r < m) then d - r else d + m - r.

(** A [for] loop without a condition: [body i] is what the [i]-th round returns, or [None] if
    the loop goes on; at most [fuel] rounds, [None] if they do not suffice. *)
Fixpoint rounds {R} (body : nat → option R) (i fuel : nat) : option R :=
  match fuel with
  | O => None
  | S fuel => match body i with Some r => Some r | None => rounds body (S i) fuel end
  end.

(** [defer fin()] around the rest of a function: it runs on every way out. *)
Definition deferring {W A} (fin : demo W unit) (m : demo W A) : demo W A := λ c,
  let '(c, r) := m c in ((fin c).1, r).

(** A value and an error as results, and the check of the error after a call. *)
Definition or_return {W A} (r : res A) : demo W A := λ c, (c, r).
Definition check {W} (err : option error) : demo W unit := λ c, (c, match err with Some e => Err e | None => Ok () end).

(** ** Child processes *)

(** What a coordinator does to its children, by their numbers, and to the keys of its run, and
    that a process closes its client of the server. *)
Inductive effect := Started (i : nat) | Killed (i : nat) | Waited (i : nat) | Cleaned | Disconnected.
#[export] Instance effect_eq_dec : EqDecision effect.
Proof. solve_decision. Defined.
Definition effects (l : list effect) : demo (list effect) unit := λ c, (mkConsole (world c ++ l) (printed c), Ok ()).

(** The loop of spawnWorkers, from the [i]-th child on: [starts] are the errors of [cmd.Start()]
    and [wrap] what is made of one. It returns the children it started, and the error. *)
Fixpoint spawn_loop (wrap : nat → error → error) (starts : nat → option error) (i n : nat) (children : list nat)
  : demo (list effect) (list nat * option error) :=
  match n with
  | O => mret (children, None)
  | S n =>
      match starts i with
      | Some err => mret (children, Some (wrap i err))
      | None => _ ← effects [Started i]; spawn_loop wrap starts (S i) n (children ++ [i])
      end
  end.
Definition spawn (wrap : nat → error → error) (exe : option error) (starts : nat → option error) (n : nat)
  : demo (list effect) (list nat * option error) :=
  match exe with
  | Some err => mret ([], Some (Errorf "locate own binary: %w" [] [err]))
  | None => spawn_loop wrap starts 0 n []
  end.

(** ** Lemmas *)

Lemma demo_bind_Ok {W A B} (m : demo W A) (k : A → demo W B) c c' b :
  (x ← m; k x) c = (c', Ok b) → ∃ x c1, m c = (c1, Ok x) ∧ k x c1 = (c', Ok b).
Proof. unfold mbind, demo_bind. destruct (m c) as [c1 [x|e]]; [|done]. by eauto. Qed.

Lemma deferring_Ok {W A} (fin : demo W unit) (m : demo W A) c c' x :
  deferring fin m c = (c', Ok x) → ∃ c1, m c = (c1, Ok x) ∧ c' = (fin c1).1.
Proof. unfold deferring. destruct (m c) as [c1 r]. intros [= <- ->]. by eauto. Qed.

Lemma rounds_shift {R} (body : nat → option R) i fuel r :
  rounds body i fuel = Some r ↔
  ∃ k, (i ≤ k < i + fuel)%nat ∧ body k = Some r ∧ ∀ k', (i ≤ k' < k)%nat → body k' = None.
Proof.
  revert i. induction fuel as [|fuel IH]; intros i; cbn [rounds]; [split; [done|intros (k & ? & _); lia]|].
  destruct (body i) as [r'|] eqn:Hi.
  - split.
    + intros [= <-]. exists i. split_and!; [lia|lia|done|intros; lia].
    + intros (k & Hk & Hb & Hlt). destruct (decide (k = i)) as [->|Hne]; [congruence|]. rewrite (Hlt i) in Hi by lia. done.
  - rewrite IH. split.
    + intros (k & Hk & Hb & Hlt). exists k. split_and!; [lia|lia|done|]. intros k' Hk'.
      destruct (decide (k' = i)) as [->|]; [done|apply Hlt; lia].
    + intros (k & Hk & Hb & Hlt). destruct (decide (k = i)) as [->|]; [congruence|]. exists k.
      split_and!; [lia|lia|done|]. intros; apply Hlt; lia.
Qed.

(** The loop returns what its first round that returns does. *)
Lemma rounds_first {R} (body : nat → option R) fuel r :
  rounds body 0 fuel = Some r ↔
  ∃ k, (k < fuel)%nat ∧ body k = Some r ∧ ∀ k', (k' < k)%nat → body k' = None.
Proof.
  rewrite rounds_shift. split; intros (k & Hk & Hb & Hlt); exists k; (split_and!; [lia..|done|]) || (split_and!; [lia|done|]);
    intros; apply Hlt; lia.
Qed.

(** And it returns if some round does. *)
Lemma rounds_returns {R} (body : nat → option R) fuel k :
  (k < fuel)%nat → is_Some (body k) → is_Some (rounds body 0 fuel).
Proof.
  assert (∀ i, (i ≤ k < i + fuel)%nat → is_Some (body k) → is_Some (rounds body i fuel)) as HS.
  { induction fuel as [|fuel IH]; intros i Hk Hb; [lia|]. cbn [rounds]. destruct (body i) eqn:Hi; [by eexists|].
    apply IH; [|done]. destruct (decide (k = i)) as [->|]; [|lia]. rewrite Hi in Hb. by destruct Hb. }
  intros Hk. apply HS. lia.
Qed.

Lemma bind_ok {W A B} (m : demo W A) (k : A → demo W B) c c' a :
  m c = (c', Ok a) → (m ≫= k) c = k a c'.
Proof. unfold mbind, demo_bind. by intros ->. Qed.

Lemma bind_err {W A B} (m : demo W A) (k : A → demo W B) c c' e :
  m c = (c', Err e) → (m ≫= k) c = (c', Err e).
Proof. unfold mbind, demo_bind. by intros ->. Qed.

Lemma bind_assoc {W A B C} (m : demo W A) (k : A → demo W B) (l : B → demo W C) c :
  ((m ≫= k) ≫= l) c = (m ≫= (λ a, k a ≫= l)) c.
Proof. unfold mbind, demo_bind. by destruct (m c) as [? [a|e]]. Qed.

Lemma bind_Printf {W B} f args (k : () → demo W B) c :
  (Printf f args ≫= k) c = k () (mkConsole (world c) (printed c ++ [(f, args)])).
Proof. done. Qed.

Lemma bind_check {W B} err (k : () → demo W B) c :
  (check err ≫= k) c = match err with Some e => (c, Err e) | None => k () c end.
Proof. by destruct err. Qed.

(** What spawning does: it starts the children in order, up to the first that does not start. *)
Lemma spawn_loop_spec wrap starts i n children c :
  ∃ k, (k ≤ n)%nat ∧ (∀ k', (k' < k)%nat → starts (i + k')%nat = None) ∧
    spawn_loop wrap starts i n children c =
      (mkConsole (world c ++ (Started <$> seq i k)) (printed c),
       Ok (children ++ seq i k, if decide (k = n) then None else wrap (i + k)%nat <$> starts (i + k)%nat)) ∧
    (k ≠ n → is_Some (starts (i + k)%nat)).
Proof.
  revert i children c. induction n as [|n IH]; intros i children c; cbn [spawn_loop].
  { exists 0%nat. split_and!; [lia|intros; lia| |done]. cbn. rewrite !app_nil_r. by destruct c. }
  destruct (starts i) as [err|] eqn:Hi.
  - exists 0%nat. split_and!; [lia|intros; lia| |]; rewrite Nat.add_0_r; [|by rewrite Hi; eexists].
    rewrite decide_False by lia. cbn. rewrite Hi, !app_nil_r. by destruct c.
  - destruct (IH (S i) (children ++ [i]) (mkConsole (world c ++ [Started i]) (printed c))) as (k & Hk & Hlt & HE & Hfail).
    exists (S k). split_and!; [lia| | |].
    + intros k' Hk'. destruct k' as [|k']; [by rewrite Nat.add_0_r|]. rewrite <- Nat.add_succ_comm. apply Hlt. lia.
    + unfold mbind, demo_bind, effects. rewrite HE. cbn [world printed seq fmap list_fmap]. rewrite <- !app_assoc.
      rewrite <- Nat.add_succ_comm. cbn [app]. do 3 f_equal. destruct (decide (k = n)) as [->|]; [by rewrite decide_True|by rewrite decide_False by lia].
    + intros Hne. rewrite <- Nat.add_succ_comm. apply Hfail. lia.
Qed.
