(* ===== verification/Lifecycle.v ===== *)
(** * The lifecycle demonstration (examples/lifecycle)

    The program that takes jobs through the whole lifecycle on the in-memory
    broker, with a clock it moves by hand. The identifiers of the three jobs, the
    random source of each retry delay and the text of times, durations and errors
    are parameters. *)
From S2P Require Import Prelude GoBase Job Backoff Interface Memory Demo.

(** ** The program *)

(** The clock and the broker. *)
Record stage := mkStage { clk : Z; brk : Broker }.

Definition visibilityTimeout : Z := 30 * Second.

(** [time.Date(2026, 8, 4, 12, 0, 0, 0, time.UTC)]. *)
Definition noon : Z := 1785844800 * Second.

Section program.
Context (TimeOnly : Z → string) (Duration_String : Z → string) (Error_ : error → string).
Context (ids : nat → string) (rands : Z → randFunc).

Definition Now : demo stage Z := does (λ w, (w, Ok (clk w))).
Definition advance (d : Z) : demo stage unit := does (λ w, (mkStage (clk w + d) (brk w), Ok ())).

(** The calls on the broker, which reads the clock. *)
Definition on_broker {A} (f : Z → Broker → Broker * res A) : demo stage A :=
  does (λ w, let '(b, r) := f (clk w) (brk w) in (mkStage (clk w) b, r)).
Definition on_broker_err (f : Z → Broker → Broker * option error) : demo stage unit :=
  on_broker (λ now b, let '(b, err) := f now b in (b, match err with Some e => Err e | None => Ok () end)).

Definition enqueue (i : nat) (ty : string) : demo stage unit :=
  on_broker_err (λ now b,
    let '(b, _, err) :=
      Enqueue (ids i) now
        (Some (mkJob "" "default" ty None 0 3 0 "" "" "" 0 "" zeroTime zeroTime zeroTime zeroTime)) b in
    (b, err)).
Definition claim_by (worker : string) : demo stage Job :=
  on_broker (Dequeue (mkClaimOpts worker ["default"] visibilityTimeout)).
Definition ack (worker id : string) : demo stage unit := on_broker_err (λ _, Ack worker id).

Definition step (title : string) : demo stage unit := Printf "== %s ==" [title].

(** 1. The happy path. *)
Definition happy_path : demo stage unit :=
  _ ← step "a job is enqueued, claimed, and acked";
  _ ← enqueue 0 "email:send";
  j ← claim_by "worker-A";
  _ ← Printf "   claimed  %s" [Job_String (Some j)];
  _ ← Printf "   lease held by %s until %s" [Owner j; TimeOnly (Deadline j)];
  _ ← ack "worker-A" (ID j);
  Println "   acked, job complete".

(** 2. A worker dies mid-job. *)
Definition orphan_path : demo stage unit :=
  _ ← step "a worker is killed mid-job; the reaper recovers the work";
  _ ← enqueue 1 "report:build";
  orphan ← claim_by "worker-B";
  _ ← Printf "   claimed  %s by worker-B" [Job_String (Some orphan)];
  _ ← Println "   worker-B is SIGKILLed — no ack, no nack, nothing";
  _ ← advance (visibilityTimeout + Second);
  _ ← Println "   ...visibility timeout expires...";
  n ← on_broker (Reap ["default"] 100);
  _ ← Printf "   reaper recovered %d job(s)" [pretty n];
  recovered ← claim_by "worker-C";
  _ ← Printf "   re-delivered to worker-C: attempt=%d recoveries=%d"
        [pretty (Attempt recovered); pretty (Recoveries recovered)];
  err ← errof (ack "worker-B" (ID orphan));
  _ ← match err with
      | Some e => Printf "   zombie worker-B tried to ack and was fenced off: %v" [Error_ e]
      | None => throw (errors_New "zombie ack succeeded; fencing is broken")
      end;
  _ ← ack "worker-C" (ID recovered);
  Println "   worker-C acked successfully".

(** 3. Retries and the dead-letter queue: the loop runs until it breaks out; [fuel] bounds
    its iterations, and running out of it is an error of the model. *)
Definition backoff : Exponential := mkExponential Second Minute (Some JitterFull) None.

Fixpoint fail_loop (fuel : nat) : demo stage unit :=
  match fuel with
  | O => throw (errors_New "out of fuel")
  | S fuel =>
      job ← claim_by "worker-D";
      let delay := Backoff.Next (rands (Attempt job)) backoff (Attempt job) in
      now ← Now;
      let retryAt := Add now delay in
      _ ← on_broker_err (λ _, Nack "worker-D" (ID job) retryAt "connection refused");
      _ ← Printf "   attempt %d/%d failed, backing off %v"
            [pretty (Attempt job); pretty (MaxAttempts job); Duration_String (Round delay Millisecond)];
      if bool_decide (MaxAttempts job ≤ Attempt job)
      then Println "   attempts exhausted, job moved to the dead-letter queue"
      else
        _ ← advance (wrap64 (delay + Second));
        _ ← on_broker (Promote 100);
        fail_loop fuel
  end.
Definition retry_path (fuel : nat) : demo stage unit :=
  _ ← step "a job fails repeatedly, backs off, and is dead-lettered";
  _ ← enqueue 2 "flaky:call";
  fail_loop fuel.

(** 4. Operator replay. *)
Fixpoint print_dead (l : list Job) : demo stage unit :=
  match l with
  | [] => mret ()
  | d :: l => _ ← Printf "   dead: %s last_err=%q" [Job_String (Some d); LastErr d]; print_dead l
  end.
Definition replay_path : demo stage unit :=
  _ ← step "an operator inspects and replays the dead-letter queue";
  dead ← on_broker (λ _ b, (b, ListDead 0 10 b));
  _ ← print_dead dead;
  replayed ← on_broker (λ _, RetryDead []);
  _ ← Printf "   replayed %d job(s) back onto their queues" [pretty replayed];
  revived ← claim_by "worker-E";
  _ ← Printf "   %s is claimable again with a fresh budget (attempt=%d)" [Type_ revived; pretty (Attempt revived)];
  ack "worker-E" (ID revived).

(** 5. The final tally. *)
Fixpoint print_queues (l : list (string * QueueStats)) : demo stage unit :=
  match l with
  | [] => mret ()
  | (name, qs) :: l =>
      _ ← Printf "   queue %-8s pending=%d active=%d scheduled=%d retry=%d"
            [name; pretty (qs_Pending qs); pretty (qs_Active qs); pretty (qs_Scheduled qs); pretty (qs_Retry qs)];
      print_queues l
  end.
Definition tally : demo stage unit :=
  _ ← step "final stats";
  stats ← on_broker (λ now b, (b, Stats_ now b));
  _ ← Printf "   processed=%d failed=%d dead=%d"
        [pretty (st_Processed stats); pretty (st_Failed stats); pretty (st_Dead stats)];
  print_queues (map_to_list (st_Queues stats)).

Definition body (fuel : nat) : demo stage unit :=
  _ ← happy_path; _ ← orphan_path; _ ← retry_path fuel; _ ← replay_path; tally.

(** [run], with its deferred Close. *)
Definition run (fuel : nat) : console stage * res unit :=
  let '(c, r) := body fuel (mkConsole (mkStage noon New) []) in
  (mkConsole (mkStage (clk (world c)) (Close (brk (world c)))) (printed c), r).
End program.

(** ** The states the broker goes through: one job at a time, in the queue "default" *)

Definition idle (P F : Z) : Broker := mkBroker false ∅ {["default" := []]} ∅ ∅ ∅ [] {["default"]} ∅ ∅ ∅ ∅ P F.
Definition queued (id : string) (j : Job) (P F : Z) : Broker :=
  mkBroker false {[id := j]} {["default" := [id]]} ∅ ∅ ∅ [] {["default"]} ∅ ∅ ∅ ∅ P F.
Definition held (id : string) (j : Job) (P F : Z) : Broker :=
  mkBroker false {[id := j]} {["default" := []]} {[id := Deadline j]} ∅ ∅ [] {["default"]} ∅ ∅ ∅ ∅ P F.
Definition retrying (id : string) (j : Job) (t P F : Z) : Broker :=
  mkBroker false {[id := j]} {["default" := []]} ∅ ∅ {[id := t]} [] {["default"]} ∅ ∅ ∅ ∅ P F.
Definition buried (id : string) (j : Job) (P F : Z) : Broker :=
  mkBroker false {[id := j]} {["default" := []]} ∅ ∅ ∅ [ID j] {["default"]} ∅ ∅ ∅ ∅ P F.

(** The job as Enqueue stores it. *)
Definition fresh_job (id ty : string) (now : Z) : Job :=
  mkJob id "default" ty None 0 3 0 StatePending "" "" 0 "" now zeroTime zeroTime zeroTime.

(** ** What is to be seen *)

Section expected.
Context (TimeOnly : Z → string) (Duration_String : Z → string) (Error_ : error → string).
Context (ids : nat → string) (rands : Z → randFunc).

(** The error of the zombie's acknowledgement. *)
Definition zombie_error : error :=
  Errorf "%w: job %s is %s owned by %q, not %q" [ids 1%nat; StateActive; "worker-C"; "worker-B"] [Sentinel ErrLeaseLost].

(** The job after its last attempt, at [t'], and the lines of its failures. *)
Definition dead_job (t t' : Z) : Job :=
  mkJob (ids 2%nat) "default" "flaky:call" None 3 3 0 StateDead "" "" 0 "connection refused" t zeroTime t'
    (Add t' visibilityTimeout).
Definition failure_line (a : Z) : line :=
  ("   attempt %d/%d failed, backing off %v", [pretty a; "3"; Duration_String (Round (Backoff.Next (rands a) backoff a) Millisecond)]).

(** What each section prints. *)
Definition happy_lines (t : Z) : list line :=
  [("== %s ==", ["a job is enqueued, claimed, and acked"]);
   ("   claimed  %s", ["job(" +:+ ids 0%nat +:+ " type=email:send queue=default state=active attempt=1/3)"]);
   ("   lease held by %s until %s", ["worker-A"; TimeOnly (Add t visibilityTimeout)]);
   ("   acked, job complete", [])].
Definition orphan_lines : list line :=
  [("== %s ==", ["a worker is killed mid-job; the reaper recovers the work"]);
   ("   claimed  %s by worker-B",
     ["job(" +:+ ids 1%nat +:+ " type=report:build queue=default state=active attempt=1/3)"]);
   ("   worker-B is SIGKILLed — no ack, no nack, nothing", []);
   ("   ...visibility timeout expires...", []);
   ("   reaper recovered %d job(s)", ["1"]);
   ("   re-delivered to worker-C: attempt=%d recoveries=%d", ["2"; "1"]);
   ("   zombie worker-B tried to ack and was fenced off: %v", [Error_ zombie_error]);
   ("   worker-C acked successfully", [])].
Definition retry_lines : list line :=
  [("== %s ==", ["a job fails repeatedly, backs off, and is dead-lettered"]);
   failure_line 1; failure_line 2; failure_line 3;
   ("   attempts exhausted, job moved to the dead-letter queue", [])].
Definition replay_lines : list line :=
  [("== %s ==", ["an operator inspects and replays the dead-letter queue"]);
   ("   dead: %s last_err=%q",
     ["job(" +:+ ids 2%nat +:+ " type=flaky:call queue=default state=dead attempt=3/3)"; "connection refused"]);
   ("   replayed %d job(s) back onto their queues", ["1"]);
   ("   %s is claimable again with a fresh budget (attempt=%d)", ["flaky:call"; "1"])].
Definition tally_lines : list line :=
  [("== %s ==", ["final stats"]); ("   processed=%d failed=%d dead=%d", ["3"; "1"; "0"]);
   ("   queue %-8s pending=%d active=%d scheduled=%d retry=%d", ["default"; "0"; "0"; "0"; "0"])].
End expected.

(** ** Lemmas: each call on these states *)

Section calls.
Context (id : string) (j : Job) (P F now : Z).

Lemma Enqueue_idle ty b :
  b = New ∧ P = 0 ∧ F = 0 ∨ b = idle P F → ty ≠ "" → zeroTime ≤ now →
  ∃ j', Enqueue id now (Some (mkJob "" "default" ty None 0 3 0 "" "" "" 0 "" zeroTime zeroTime zeroTime zeroTime)) b
        = (queued id (fresh_job id ty now) P F, j', None).
Proof.
  intros Hb Hty Hnow.
  exists (Some (mkJob id "default" ty None 0 3 0 "" "" "" 0 "" now zeroTime zeroTime zeroTime)). unfold Enqueue. cbn [Queue Type_ UniqueKey].
  rewrite (proj2 (String.eqb_neq ty "")) by done.
  assert (fill_defaults id now (mkJob "" "default" ty None 0 3 0 "" "" "" 0 "" zeroTime zeroTime zeroTime zeroTime)
    = mkJob id "default" ty None 0 3 0 "" "" "" 0 "" now zeroTime zeroTime zeroTime) as -> by (by vm_compute).
  assert (After zeroTime now = false) as Ha by (by apply After_false).
  destruct Hb as [(-> & -> & ->)| ->]; cbn [checkOpen closed New idle String.eqb]; rewrite clone_eq; cbn [RunAt set_Owner];
    rewrite Ha; cbn -[zeroTime]; [done|].
  unfold put_pending, pend. cbn -[zeroTime]. rewrite lookup_singleton_eq. cbn -[zeroTime].
  rewrite insert_singleton_eq, (subseteq_union_1_L {["default"]} {["default"]}) by done. unfold put_job, idle, queued, fresh_job. cbn -[zeroTime].
  by rewrite insert_empty.
Qed.

Lemma Dequeue_queued w :
  w ≠ "" →
  Dequeue (mkClaimOpts w ["default"] visibilityTimeout) now (queued id j P F) =
    (held id (claim (mkClaimOpts w ["default"] visibilityTimeout) now j) P F,
     Ok (claim (mkClaimOpts w ["default"] visibilityTimeout) now j)).
Proof.
  intros Hw. unfold Dequeue. cbn [WorkerID VisibilityTimeout]. rewrite (proj2 (String.eqb_neq w "")) by done.
  cbn [checkOpen closed queued Queues dequeue_loop]. unfold pend. cbn [pending queued].
  rewrite lookup_singleton_eq. cbn. rewrite lookup_singleton_eq. rewrite clone_eq.
  unfold put_job, put_pending, queued, held. cbn. by rewrite !insert_singleton_eq.
Qed.

Lemma Ack_held w :
  State_ j = StateActive → Owner j = w → Ack w id (held id j P F) = (idle (wrap64 (P + 1)) F, None).
Proof.
  intros Hs Ho. unfold Ack, checkOpen, ownedActive. cbn [closed held jobs]. rewrite lookup_singleton_eq, Hs, Ho.
  rewrite !String.eqb_refl. cbn -[CanTransition held]. rewrite Hs.
  assert (CanTransition StateActive StateCompleted = true) as -> by (by vm_compute).
  unfold held, idle. cbn. by rewrite !delete_singleton_eq.
Qed.

Lemma Ack_fenced w :
  Owner j ≠ w →
  Ack w id (held id j P F) =
    (held id j P F, Some (Errorf "%w: job %s is %s owned by %q, not %q" [id; State_ j; Owner j; w] [Sentinel ErrLeaseLost])).
Proof.
  intros Ho. unfold Ack, checkOpen, ownedActive. cbn [closed held jobs]. rewrite lookup_singleton_eq.
  by rewrite (proj2 (String.eqb_neq (Owner j) w) Ho), orb_true_r.
Qed.

Lemma Reap_held :
  Queue j = "default" → Deadline j ≤ now → Attempt j < MaxAttempts j →
  Reap ["default"] 100 now (held id j P F) =
    (queued id (set_State StatePending (set_Recoveries (wrap64 (Recoveries j + 1)) (set_Owner "" j))) P F, Ok 1).
Proof.
  intros Hq Hd Ha. unfold Reap, checkOpen, reap_expired. cbn [closed held active]. rewrite map_to_list_singleton.
  cbn -[held reapable]. rewrite decide_True.
  2:{ unfold reapable. cbn [fst snd]. rewrite (proj2 (After_false _ _) Hd). cbn [jobs held fst]. rewrite lookup_singleton_eq, Hq. done. }
  cbn -[held reap_one]. rewrite !(bool_decide_eq_false_2 (100 ≤ 0)) by lia. cbn [jobs held].
  rewrite lookup_singleton_eq. unfold reap_one. cbv zeta.
  rewrite (proj2 (Exhausted_false _)) by done. unfold put_job, put_pending, pend, held, queued. cbn. rewrite Hq.
  by rewrite lookup_singleton_eq, !insert_singleton_eq, delete_singleton_eq.
Qed.

Lemma Nack_held w t r :
  State_ j = StateActive → Owner j = w →
  Nack w id t r (held id j P F) =
    (if Exhausted j then
       buried id (set_Owner "" (set_State StateDead (set_LastErr r (set_Owner "" j)))) P (wrap64 (F + 1))
     else retrying id (set_State StateRetry (set_LastErr r (set_Owner "" j))) t P F, None).
Proof.
  intros Hs Ho. unfold Nack, checkOpen, ownedActive. cbn [closed held jobs]. rewrite lookup_singleton_eq, Hs, Ho.
  rewrite !String.eqb_refl. cbn -[held Exhausted].
  change (Exhausted (set_LastErr r (set_Owner "" j))) with (Exhausted j). destruct (Exhausted j).
  - unfold moveToDeadLocked, put_job, held, buried. cbn. by rewrite !insert_singleton_eq, delete_singleton_eq.
  - unfold put_job, held, retrying. cbn. by rewrite !insert_singleton_eq, delete_singleton_eq.
Qed.

Lemma Promote_retrying t :
  Queue j = "default" → t ≤ now →
  Promote 100 now (retrying id j t P F) = (queued id (set_State StatePending j) P F, Ok 1).
Proof.
  intros Hq Ht. unfold Promote, checkOpen, promote_due. cbn [closed retrying scheduled retry].
  rewrite map_to_list_empty, map_to_list_singleton. cbn -[retrying After]. rewrite decide_True by (by apply After_false).
  cbn -[retrying]. rewrite !(bool_decide_eq_false_2 (100 ≤ 0)) by lia. cbn [jobs retrying].
  rewrite lookup_singleton_eq. unfold promote_one, delete_due, put_job, put_pending, pend, retrying, queued.
  cbn. rewrite Hq. by rewrite lookup_singleton_eq, !insert_singleton_eq, delete_singleton_eq.
Qed.

Lemma ListDead_buried : ID j = id → ListDead 0 10 (buried id j P F) = Ok [j].
Proof.
  intros <-. unfold ListDead, checkOpen. rewrite bool_decide_eq_false_2, bool_decide_eq_false_2 by lia.
  cbn [closed dead buried length]. change (reverse (take _ [ID j])) with [ID j]. cbn [list_dead_loop length].
  rewrite bool_decide_eq_true_2 by lia. cbn [jobs buried]. by rewrite lookup_singleton_eq, clone_eq.
Qed.

Lemma RetryDead_buried :
  ID j = id → Queue j = "default" →
  RetryDead [] (buried id j P F) =
    (queued id (set_Owner "" (set_Recoveries 0 (set_Attempt 0 (set_State StatePending j)))) P F, Ok 1).
Proof.
  intros <- Hq. unfold RetryDead, checkOpen, selectDeadLocked. cbn -[buried retry_dead_one]. cbn [dead buried].
  cbn -[retry_dead_one]. rewrite lookup_singleton_eq. unfold retry_dead_one, put_job, put_pending, pend, removeDeadLocked, buried, queued.
  cbn. rewrite Hq, String.eqb_refl. by rewrite lookup_singleton_eq, !insert_singleton_eq.
Qed.

Lemma Stats_idle :
  Stats_ now (idle P F) = Ok (mkStats {["default" := mkQueueStats "default" 0 0 0 0]} 0 P F 0).
Proof. by vm_compute. Qed.
End calls.

(** ** Lemmas: the sections of the program *)

Section sections.
Context (TimeOnly : Z → string) (Duration_String : Z → string) (Error_ : error → string).
Context (ids : nat → string) (rands : Z → randFunc).
Implicit Types out : list line.

Abbreviation at_stage t b out := (mkConsole (mkStage t b) out).
Abbreviation opts w := (mkClaimOpts w ["default"] visibilityTimeout).
Abbreviation delay_of a := (Backoff.Next (rands a) backoff a).

Lemma claim_passes id j P F w t out :
  w ≠ "" → claim_by w (at_stage t (queued id j P F) out) =
    (at_stage t (held id (claim (opts w) t j) P F) out, Ok (claim (opts w) t j)).
Proof. intros Hw. unfold claim_by, on_broker, does. cbn [world clk brk]. by rewrite Dequeue_queued. Qed.

Lemma ack_passes id j P F w t out :
  State_ j = StateActive → Owner j = w →
  ack w id (at_stage t (held id j P F) out) = (at_stage t (idle (wrap64 (P + 1)) F) out, Ok ()).
Proof. intros Hs Ho. unfold ack, on_broker_err, on_broker, does. cbn [world clk brk]. by rewrite Ack_held. Qed.

Lemma enqueue_passes i ty b P F t out :
  b = New ∧ P = 0 ∧ F = 0 ∨ b = idle P F → ty ≠ "" → zeroTime ≤ t →
  enqueue ids i ty (at_stage t b out) = (at_stage t (queued (ids i) (fresh_job (ids i) ty t) P F) out, Ok ()).
Proof.
  intros Hb Hty Ht. unfold enqueue, on_broker_err, on_broker, does. cbn [world clk brk].
  by destruct (Enqueue_idle (ids i) P F t ty b Hb Hty Ht) as [j' ->].
Qed.

Lemma on_broker_ok {A} (f : Z → Broker → Broker * res A) t b b' r out :
  f t b = (b', r) → on_broker f (at_stage t b out) = (at_stage t b' out, r).
Proof. intros Hf. unfold on_broker, does. cbn [world clk brk]. by rewrite Hf. Qed.

Lemma happy_ok t out :
  zeroTime ≤ t →
  happy_path TimeOnly ids (at_stage t New out) =
    (at_stage t (idle 1 0)
       (out ++ happy_lines TimeOnly ids t), Ok ()).
Proof.
  intros Ht. unfold happy_path, step. rewrite bind_Printf. cbn [world printed].
  erewrite bind_ok by (apply (enqueue_passes 0 "email:send" New 0 0); [by left|done|done]).
  erewrite bind_ok by (by apply claim_passes). rewrite !bind_Printf. cbn [world printed].
  erewrite bind_ok by (by apply ack_passes). unfold Println, Printf. cbn [world printed]. rewrite <- !app_assoc. done.
Qed.

Lemma advance_ok d t b out : advance d (at_stage t b out) = (at_stage (t + d) b out, Ok ()).
Proof. done. Qed.

Lemma orphan_ok t out :
  zeroTime ≤ t →
  orphan_path Error_ ids (at_stage t (idle 1 0) out) =
    (at_stage (t + (visibilityTimeout + Second)) (idle 2 0)
       (out ++ orphan_lines Error_ ids), Ok ()).
Proof.
  intros Ht. unfold orphan_path, step. rewrite bind_Printf. cbn [world printed].
  erewrite bind_ok by (apply (enqueue_passes 1 "report:build" _ 1 0); [by right|done|done]).
  erewrite bind_ok by (by apply claim_passes). unfold Println. rewrite !bind_Printf. cbn [world printed].
  erewrite bind_ok by apply advance_ok. rewrite bind_Printf. cbn [world printed].
  erewrite bind_ok by (apply on_broker_ok, Reap_held; [done|cbn; unfold Add; unfold_durations; lia|done]).
  rewrite bind_Printf. cbn [world printed].
  erewrite bind_ok by (by apply claim_passes). rewrite bind_Printf. cbn [world printed].
  erewrite bind_ok.
  2:{ unfold errof, ack, on_broker_err. erewrite on_broker_ok; [|by rewrite Ack_fenced]. done. }
  cbv beta iota. rewrite bind_Printf. cbn [world printed]. erewrite bind_ok by (by apply ack_passes).
  unfold Printf. cbn [world printed]. rewrite <- !app_assoc. done.
Qed.

(** One iteration of the loop that fails the job. *)
Lemma fail_again fuel t j out :
  Queue j = "default" → 0 ≤ Attempt j → Attempt j + 1 < MaxAttempts j < 2 ^ 63 →
  0 ≤ delay_of (Attempt j + 1) ≤ Minute →
  let d := delay_of (Attempt j + 1) in
  let j' := set_State StateRetry (set_LastErr "connection refused" (set_Owner "" (claim (opts "worker-D") t j))) in
  fail_loop Duration_String rands (S fuel) (at_stage t (queued (ID j) j 2 0) out) =
    fail_loop Duration_String rands fuel
      (at_stage (t + d + Second) (queued (ID j) (set_State StatePending j') 2 0)
         (out ++ [("   attempt %d/%d failed, backing off %v",
                   [pretty (Attempt j + 1); pretty (MaxAttempts j); Duration_String (Round d Millisecond)])])).
Proof.
  intros Hq H0 Ha Hd d j'. cbn [fail_loop]. erewrite bind_ok by (by apply claim_passes).
  assert (Attempt (claim (opts "worker-D") t j) = Attempt j + 1) as HA.
  { cbn. apply wrap64_id. unfold int64_range. lia. }
  cbv zeta. rewrite HA. fold d. erewrite bind_ok by done.
  erewrite bind_ok.
  2:{ unfold on_broker_err. apply on_broker_ok. rewrite Nack_held by done.
      rewrite (proj2 (Exhausted_false _)) by (rewrite HA; cbn; lia). done. }
  rewrite bind_Printf. cbn [world printed]. change (MaxAttempts (claim (opts "worker-D") t j)) with (MaxAttempts j).
  rewrite bool_decide_eq_false_2 by lia. erewrite bind_ok by apply advance_ok.
  assert (wrap64 (d + Second) = d + Second) as ->.
  { apply wrap64_id. unfold int64_range, d in *. unfold_durations. lia. }
  erewrite bind_ok.
  2:{ apply on_broker_ok, (Promote_retrying _ _ 2 0 (t + (d + Second)) (Add t d)); [done|].
      assert (0 < Second) by done. unfold Add. lia. }
  by rewrite Z.add_assoc.
Qed.

Lemma fail_last fuel t j out :
  0 ≤ Attempt j → Attempt j + 1 = MaxAttempts j → MaxAttempts j < 2 ^ 63 →
  fail_loop Duration_String rands (S fuel) (at_stage t (queued (ID j) j 2 0) out) =
    (at_stage t
       (buried (ID j) (set_State StateDead (set_LastErr "connection refused" (set_Owner "" (claim (opts "worker-D") t j)))) 2 1)
       (out ++ [("   attempt %d/%d failed, backing off %v",
                 [pretty (Attempt j + 1); pretty (MaxAttempts j); Duration_String (Round (delay_of (Attempt j + 1)) Millisecond)]);
                ("   attempts exhausted, job moved to the dead-letter queue", [])]), Ok ()).
Proof.
  intros H0 Ha Hm. cbn [fail_loop]. erewrite bind_ok by (by apply claim_passes).
  assert (Attempt (claim (opts "worker-D") t j) = Attempt j + 1) as HA.
  { cbn. apply wrap64_id. unfold int64_range. lia. }
  cbv zeta. rewrite HA. erewrite bind_ok by done.
  erewrite bind_ok.
  2:{ unfold on_broker_err. apply on_broker_ok. rewrite Nack_held by done.
      rewrite (proj2 (Exhausted_true _)) by (rewrite HA; cbn; lia). reflexivity. }
  assert (∀ c, set_Owner "" (set_State StateDead (set_LastErr "connection refused" (set_Owner "" c))) =
    set_State StateDead (set_LastErr "connection refused" (set_Owner "" c))) as -> by done.
  change (wrap64 (0 + 1)) with 1.
  rewrite bind_Printf. cbn [world printed]. change (MaxAttempts (claim (opts "worker-D") t j)) with (MaxAttempts j).
  rewrite bool_decide_eq_true_2 by lia. unfold Println, Printf. cbn [world printed]. rewrite <- app_assoc. reflexivity.
Qed.

Lemma retry_ok fuel t out :
  zeroTime ≤ t → (∀ a, 0 ≤ delay_of a ≤ Minute) →
  let t' := t + delay_of 1 + Second + delay_of 2 + Second in
  retry_path Duration_String ids rands (3 + fuel) (at_stage t (idle 2 0) out) =
    (at_stage t' (buried (ids 2%nat) (dead_job ids t t') 2 1)
       (out ++ retry_lines Duration_String rands), Ok ()).
Proof.
  intros Ht Hd. unfold retry_path, step. rewrite bind_Printf. cbn [world printed].
  erewrite bind_ok by (apply (enqueue_passes 2 "flaky:call" _ 2 0); [by right|done|done]).
  change (ids 2%nat) with (ID (fresh_job (ids 2%nat) "flaky:call" t)) at 1. cbn [Nat.add].
  rewrite fail_again by (done || apply Hd). cbv zeta.
  match goal with |- context [queued _ ?j 2 0] => change (ID (fresh_job (ids 2%nat) "flaky:call" t)) with (ID j) end.
  rewrite fail_again by (done || apply Hd). cbv zeta.
  match goal with |- context [queued (ID ?i) ?j 2 0] => change (ID i) with (ID j) end.
  rewrite fail_last by done. rewrite <- !app_assoc. done.
Qed.

Lemma replay_ok t0 t out :
  replay_path (at_stage t (buried (ids 2%nat) (dead_job ids t0 t) 2 1) out) =
    (at_stage t (idle 3 1)
       (out ++ replay_lines ids), Ok ()).
Proof.
  unfold replay_path, step. rewrite bind_Printf. cbn [world printed].
  erewrite bind_ok by (apply on_broker_ok; by rewrite ListDead_buried).
  erewrite bind_ok by done. erewrite bind_ok by (apply on_broker_ok; by rewrite RetryDead_buried).
  rewrite bind_Printf. cbn [world printed]. erewrite bind_ok by (by apply claim_passes). rewrite bind_Printf.
  cbn [world printed]. etrans; [by apply ack_passes|]. rewrite <- !app_assoc. done.
Qed.

Lemma tally_ok t out :
  tally (at_stage t (idle 3 1) out) =
    (at_stage t (idle 3 1)
       (out ++ tally_lines), Ok ()).
Proof.
  unfold tally, step. rewrite bind_Printf. cbn [world printed].
  erewrite bind_ok by (apply on_broker_ok; by rewrite Stats_idle). rewrite bind_Printf. cbn [world printed st_Queues].
  rewrite map_to_list_singleton. cbn [print_queues]. rewrite bind_Printf. cbn [world printed]. rewrite <- !app_assoc. done.
Qed.
End sections.

(** ** Properties *)

(** C28: the demonstration shows what it says, whatever the generated identifiers and the random
    delays: it ends without an error, with the loop that fails a job over and over leaving
    after its third iteration; it prints exactly the transcript above, in which the sweep
    recovers the orphaned job for a second attempt, the zombie's acknowledgement is refused
    because its lease is lost, the failing job backs off for less than 1, 2 and 4 seconds,
    is buried after its third attempt and is claimed again with a fresh budget; and it leaves
    a closed broker with no job, three processed and one failed. *)
Theorem lifecycle_completes TimeOnly Duration_String Error_ ids rands fuel :
  (∀ a, rand_ok (rands a)) → (3 ≤ fuel)%nat →
  let delay a := Backoff.Next (rands a) backoff a in
  let '(c, r) := run TimeOnly Duration_String Error_ ids rands fuel in
  r = Ok () ∧ brk (world c) = Close (idle 3 1) ∧
  clk (world c) = noon + (visibilityTimeout + Second) + delay 1 + Second + delay 2 + Second ∧
  (∀ a, 1 ≤ a ≤ 3 → 0 ≤ delay a < 2 ^ (a - 1) * Second) ∧
  printed c = happy_lines TimeOnly ids noon ++ orphan_lines Error_ ids ++ retry_lines Duration_String rands ++
              replay_lines ids ++ tally_lines.
Proof.
  intros Hr Hf delay.
  assert (exp_typed backoff) as Ht by (split; split; by vm_compute).
  assert (∀ a, 0 ≤ delay a < Backoff.delay backoff a) as Hd.
  { intros a. pose proof (delay_bounds backoff a Ht). pose proof (eff_ceiling_bounds backoff Ht).
    destruct (jitter_policies_bounds (rands a) (Backoff.delay backoff a) (Hr a)) as (_ & Hj & _); [lia|done]. }
  assert (∀ a, 0 ≤ delay a ≤ Minute) as Hmin.
  { intros a. specialize (Hd a). pose proof (delay_bounds backoff a Ht) as [_ Hb]. change (eff_ceiling backoff) with Minute in Hb. lia. }
  destruct (Nat.le_exists_sub 3 fuel Hf) as (n & -> & _). rewrite Nat.add_comm. unfold run, body.
  assert (zeroTime ≤ noon) by (by vm_compute).
  erewrite bind_ok by (by apply happy_ok). erewrite bind_ok by (by apply orphan_ok).
  erewrite bind_ok by (apply retry_ok; [by vm_compute|done]). erewrite bind_ok by apply replay_ok. rewrite tally_ok.
  split_and!; [done|done|done| |].
  - intros a Ha. specialize (Hd a). rewrite delay_eq in Hd by done. unfold delay_spec in Hd.
    change (eff_base backoff) with Second in Hd. rewrite Z.max_l in Hd by lia. lia.
  - cbn [printed world]. by rewrite <- !app_assoc.
Qed.

Lemma lifecycle_completes_witness :
  (run pretty pretty (λ _, "lease lost") (λ i, pretty i) (λ _ n, n / 2) 5).2 = Ok ().
Proof.
  pose proof (lifecycle_completes pretty pretty (λ _, "lease lost") (λ i, pretty i) (λ _ n, n / 2) 5) as H. cbv zeta in H.
  destruct (run pretty pretty (λ _, "lease lost") (λ i, pretty i) (λ _ n, n / 2) 5) as [c r]. cbn [snd]. apply H.
  - intros a n Hn. pose proof (Z.div_pos n 2). pose proof (Z.div_lt n 2). lia.
  - lia.
Defined.
