(* ===== verification/Scheduled.v ===== *)
(** * The scheduling demonstration (examples/scheduled)

    Three workers with one schedule on one broker, a leader that is stopped
    partway, and a check that no tick fired twice: the nodes as processes
    (Runtime.v) that share a broker, the demonstration as a relation, because it
    sleeps while they run. The clock, the environment of [NewServer] and the order
    in which maps are ranged over are parameters. *)
From S2P Require Import Prelude GoBase Job Backoff Queues Interface BrokerAPI Memory MemoryInv MemoryExclusion MemoryBroker Client Calendar Schedule CronParse Server Worker Maintenance Scheduler Runtime Demo.

Definition workerTotal : nat := 3.
Definition tickEvery : Z := 400 * Millisecond.

(** ** The verdict *)

(** The counts of report, in the order the keys are seen. *)
Definition seen_counts (fired : list string) : gmap string Z :=
  foldl (λ seen k, <[k := default 0 (seen !! k) + 1]> seen) ∅ fired.

(** [sort.Strings]. *)
Definition sort_Strings (l : list string) : list string := merge_sort String.le l.

(** [range] is the order in which the map is ranged over. *)
Definition dupe (e : string * Z) : string := e.1 +:+ " x" +:+ pretty e.2.
Definition report_dupes (range : gmap string Z → list (string * Z)) (fired : list string) : list string :=
  sort_Strings (dupe <$> filter (λ e, 1 < e.2) (range (seen_counts fired))).

Definition summary_lines (range : gmap string Z → list (string * Z)) (fired : list string) : list line :=
  let dupes := report_dupes range fired in
  [("--- summary ---", []);
   ("ticks fired      : %d", [pretty (length fired)]);
   ("distinct ticks   : %d", [pretty (size (seen_counts fired))]);
   ("double fires     : %d", [pretty (length dupes)])] ++
  ((λ d, ("   %s", [d])) <$> dupes).
Definition report (range : gmap string Z → list (string * Z)) (fired : list string) : list line * option error :=
  if bool_decide (0 < length (report_dupes range fired))%nat
  then (summary_lines range fired, Some (errors_New "a tick fired more than once"))
  else (summary_lines range fired ++ [("Every tick fired exactly once, across a leadership handover.", [])], None).

(** ** The nodes *)

(** [n_nil] is whether the field [srv] is nil, [n_once] whether [stop] was called. *)
Record node (S : Type) := mkNode {
  n_name : string;
  n_srv : Server;
  n_proc : Process S;
  n_nil : bool;
  n_once : bool
}.
Arguments mkNode {S}.
Arguments n_name {S}.
Arguments n_srv {S}.
Arguments n_proc {S}.
Arguments n_nil {S}.
Arguments n_once {S}.

(** The broker all processes share, the nodes, and the keys the handler has recorded. *)
Record cluster (S : Type) := mkCluster { shared : S; nodes : list (node S); ran : list string }.
Arguments mkCluster {S}.
Arguments shared {S}.
Arguments nodes {S}.
Arguments ran {S}.

(** The registry of run: its handler records the key of the job's tick. *)
Definition handler : Type := Job → list string → list string * option error.
Definition generate : handler := λ j fired, (fired ++ [UniqueKey j], None).
Definition report_mux : Mux handler :=
  match Handle "report:generate" (Some generate) NewMux with Done m => m | Panic _ => NewMux end.
Definition handle_job (j : Job) (fired : list string) : list string * option error :=
  Mux_ProcessTask (λ h, h) (λ err fired, (fired, Some err)) report_mux j fired.

Definition report_entry (Duration_String : Z → string) : CronEntry :=
  mkCronEntry "nightly-report" ("@every " +:+ Duration_String tickEvery) "report:generate" None "" 0.
Definition node_config (name : string) (entry : CronEntry) : Config :=
  mkConfig [DefaultQueue] None false 4 (400 * Millisecond) (2 * Second) None name [entry].

Section nodes.
Context {S : Type} `{BrokerOps S} `{MaintenanceOps S} `{CronOps S}.
Context (ParseDuration : string → res Z) (global : randFunc) (Error_ : error → string).
Implicit Types c : cluster S.
Implicit Types n : node S.

(** startWorker: the configured worker, and its process, which ranges over the entries in
    the order [es]. *)
Definition startWorker (caps : capabilities) (name : string) (entry : CronEntry) (hostname : option string) (pid : Z)
  (NewID : string) (now : Z) (es : list (string * compiledEntry)) (s : S) : res (node S) :=
  srv ← NewServer ParseDuration global (Some caps) (node_config name entry) hostname pid NewID;
  p ← Run srv true now es s;
  Ok (mkNode name srv p false false).

Fixpoint currentLeader (ns : list (node S)) : option (node S) :=
  match ns with
  | [] => None
  | n :: ns => if negb (n_nil n) && IsLeader (n_proc n) then Some n else currentLeader ns
  end.
Definition leaderName (ns : list (node S)) : string :=
  match currentLeader ns with Some n => n_name n | None => "(none yet)" end.

Definition set_proc (p : Process S) (n : node S) : node S := mkNode (n_name n) (n_srv n) p (n_nil n) (n_once n).
Definition put_node (i : nat) (n : node S) (c : cluster S) : cluster S :=
  mkCluster (shared c) (<[i := n]> (nodes c)) (ran c).

(** The first call of [stop] cancels the context; [leader.srv = nil]. *)
Definition cancel_node (n : node S) : node S :=
  mkNode (n_name n) (n_srv n) (set_ctx true (maint_done (n_proc n)) (n_proc n)) (n_nil n) true.
Definition nil_srv (n : node S) : node S := mkNode (n_name n) (n_srv n) (n_proc n) true (n_once n).

(** ** The transition system *)

(** An action of a process on the shared broker, or a handler that runs and its report. *)
Inductive cstep c : cluster S → Prop :=
| c_node i n p :
    nodes c !! i = Some n → pstep Error_ (n_srv n) (λ _ _, False) (set_pbroker (shared c) (n_proc n)) p →
    ctx_done p = ctx_done (n_proc n) →
    (∀ k j, runs (worker (n_proc n)) !! k = Some (j, Running) → runs (worker p) !! k = Some (j, Running)) →
    cstep c (mkCluster (pbroker p) (<[i := set_proc p n]> (nodes c)) (ran c))
| c_handle i n k j now fired err :
    nodes c !! i = Some n → runs (worker (n_proc n)) !! k = Some (j, Running) →
    handle_job j (ran c) = (fired, err) →
    let w := run_report Error_ (n_srv n) k j (Done err) now (set_broker (shared c) (worker (n_proc n))) in
    cstep c (mkCluster (broker w) (<[i := set_proc (set_worker w (n_proc n)) n]> (nodes c)) fired).

(** [stop] returns when Run has; a second call at once. *)
Inductive stops (i : nat) c : cluster S → Prop :=
| stops_first n c' n' :
    nodes c !! i = Some n → n_once n = false → rtc cstep (put_node i (cancel_node n) c) c' →
    nodes c' !! i = Some n' → is_Some (result (n_proc n')) → stops i c c'
| stops_again n : nodes c !! i = Some n → n_once n = true → stops i c c.

(** The deferred sweep. *)
Inductive stops_all : list nat → cluster S → cluster S → Prop :=
| stops_none c : stops_all [] c c
| stops_next i rest c c1 c2 : stops i c c1 → stops_all rest c1 c2 → stops_all (i :: rest) c c2.

(** The loop that starts the workers, which run while it goes on: [left] are to come. *)
Context (caps : capabilities) (entry : CronEntry).
Definition worker_name (i : nat) : string := "worker-" +:+ pretty i.
Inductive starts : nat → cluster S → cluster S → option error → Prop :=
| starts_done c : starts 0 c c None
| starts_failed left c hostname pid NewID now es err :
    startWorker caps (worker_name (length (nodes c))) entry hostname pid NewID now es (shared c) = Err err →
    starts (Datatypes.S left) c c (Some err)
| starts_one left c c1 c2 r hostname pid NewID now es n :
    startWorker caps (worker_name (length (nodes c))) entry hostname pid NewID now es (shared c) = Ok n →
    rtc cstep (mkCluster (shared c) (nodes c ++ [n]) (ran c)) c1 → starts left c1 c2 r →
    starts (Datatypes.S left) c c2 r.

(** Stopping the leader, if there is one. *)
Inductive hands_over c : cluster S → list line → Prop :=
| no_leader : currentLeader (nodes c) = None → hands_over c c []
| leader_stopped i n n' c' :
    nodes c !! i = Some n → currentLeader (nodes c) = Some n → stops i c c' → nodes c' !! i = Some n' →
    hands_over c (put_node i (nil_srv n') c') [(">>> stopping the leader (%s)", [n_name n])].

(** run after openBroker, with the sweep it defers: the lines, the cluster and the result. *)
Context (range : gmap string Z → list (string * Z)) (Duration_String : Z → string) (describe : string).
Definition heading : list line :=
  [("broker: %s", [describe]);
   ("%d workers share one schedule firing every %v", [pretty workerTotal; Duration_String tickEvery])].
Inductive demo_run (s : S) : list line → cluster S → option error → Prop :=
| run_refused c c' err :
    starts workerTotal (mkCluster s [] []) c (Some err) → stops_all (seq 0 (length (nodes c))) c c' →
    demo_run s heading c' (Some err)
| run_through c1 c2 c3 c4 c5 c6 c7 handover :
    starts workerTotal (mkCluster s [] []) c1 None → rtc cstep c1 c2 → rtc cstep c2 c3 →
    hands_over c3 c4 handover → rtc cstep c4 c5 → rtc cstep c5 c6 →
    stops_all (seq 0 (length (nodes c6))) c6 c7 →
    demo_run s
      (heading ++ [(">>> leader: %s", [leaderName (nodes c2)])] ++ handover ++
       [(">>> new leader: %s", [leaderName (nodes c5)])] ++ (report range (ran c6)).1)
      c7 (report range (ran c6)).2.

(** ** The invariant *)

(** Every node is a process that runs its own worker's configuration; one that was stopped
    has been cancelled, and a node that is not a candidate any more was stopped. *)
Record node_ok n : Prop := mkNodeOk {
  nk_pok : pok (n_srv n) (n_proc n);
  nk_once : ctx_done (n_proc n) = true → n_once n = true;
  nk_nil : n_nil n = true → is_Some (result (n_proc n));
  nk_name : cfg_WorkerID (srv_cfg (n_srv n)) = n_name n
}.
Record cluster_ok c : Prop := mkClusterOk {
  ck_nodes : ∀ i n, nodes c !! i = Some n → node_ok n;
  ck_names : ∀ i n, nodes c !! i = Some n → n_name n = worker_name i
}.
End nodes.

(** ** Lemmas: the verdict *)

(** How many times a key was recorded. *)
Definition times (k : string) (fired : list string) : nat := length (filter (λ k', k' = k) fired).

Lemma times_snoc k fired k' : times k (fired ++ [k']) = (times k fired + if decide (k' = k) then 1 else 0)%nat.
Proof. unfold times. rewrite filter_app, length_app, filter_cons. by case_decide. Qed.

Lemma times_elem k fired : (0 < times k fired)%nat ↔ k ∈ fired.
Proof.
  unfold times. split.
  - destruct (filter _ _) as [|x l] eqn:E; cbn [length]; [lia|]. intros _.
    assert (x ∈ filter (λ k', k' = k) fired) as [-> ?]%list_elem_of_filter by (rewrite E; by left). done.
  - intros Hk. assert (k ∈ filter (λ k', k' = k) fired) as Hin by (by apply list_elem_of_filter).
    destruct (filter _ _); [by apply elem_of_nil in Hin|cbn; lia].
Qed.

Lemma seen_counts_lookup fired k :
  seen_counts fired !! k = if decide (k ∈ fired) then Some (Z.of_nat (times k fired)) else None.
Proof.
  induction fired as [|x fired IH] using rev_ind; [done|]. unfold seen_counts in *. rewrite foldl_app. cbn [foldl].
  rewrite times_snoc. destruct (decide (x = k)) as [->|Hne].
  - destruct (decide (k ∈ fired ++ [k])) as [_|Hn]; [|destruct Hn; rewrite elem_of_app; right; by left].
    rewrite lookup_insert_eq, IH. f_equal. case_decide as Hk; cbn [default from_option id]; [lia|]. rewrite <- times_elem in Hk. lia.
  - rewrite lookup_insert_ne, IH by done. rewrite Nat.add_0_r.
    assert (k ∈ fired ++ [x] ↔ k ∈ fired) as Heq by (rewrite elem_of_app, list_elem_of_singleton; naive_solver).
    destruct (decide (k ∈ fired)); [by rewrite decide_True by (by apply Heq)|by rewrite decide_False by (by rewrite Heq)].
Qed.

Lemma seen_counts_size fired : size (seen_counts fired) = size (list_to_set fired : gset string).
Proof.
  rewrite <- size_dom. f_equal. apply set_eq. intros k. rewrite elem_of_dom, elem_of_list_to_set, seen_counts_lookup.
  case_decide; split; try done; by intros [].
Qed.

Lemma NoDup_times fired : NoDup fired ↔ ∀ k, (times k fired ≤ 1)%nat.
Proof.
  induction fired as [|x fired IH]; [split; [intros _ k; cbn; lia|constructor]|].
  rewrite NoDup_cons, IH. unfold times. split.
  - intros [Hx Hle] k. rewrite filter_cons. case_decide as Hxk; [|apply Hle]. subst k. cbn [length].
    rewrite <- times_elem in Hx. unfold times in Hx. lia.
  - intros Hle. split.
    + intros Hx. specialize (Hle x). rewrite filter_cons, decide_True in Hle by done. rewrite <- times_elem in Hx.
      unfold times in Hx. cbn [length] in Hle. lia.
    + intros k. specialize (Hle k). rewrite filter_cons in Hle. case_decide; cbn [length] in Hle; lia.
Qed.

(** The entries counted more than once, in the order of the map. *)
Lemma elem_of_doubles range fired k n :
  (∀ m, range m ≡ₚ map_to_list m) →
  (k, n) ∈ filter (λ e, 1 < e.2) (range (seen_counts fired)) ↔ n = Z.of_nat (times k fired) ∧ (1 < times k fired)%nat.
Proof.
  intros Hrange. rewrite list_elem_of_filter, Hrange, elem_of_map_to_list, seen_counts_lookup. cbn [snd]. split.
  - intros [Hn Hk]. case_decide; [|done]. injection Hk as <-. split; [done|lia].
  - intros [-> Hn]. rewrite decide_True by (apply times_elem; lia). split; [lia|done].
Qed.

Lemma sort_Strings_perm l1 l2 : l1 ≡ₚ l2 → sort_Strings l1 = sort_Strings l2.
Proof.
  intros HP. unfold sort_Strings. apply (Sorted_unique String.le).
  - apply Sorted_merge_sort, _.
  - apply Sorted_merge_sort, _.
  - by rewrite !merge_sort_Permutation.
Qed.

(** ** Lemmas: the cluster *)

Section cluster_lemmas.
Context {S : Type} `{BrokerOps S} `{MaintenanceOps S} `{CronOps S}.
Context (ParseDuration : string → res Z) (global : randFunc) (Error_ : error → string).
Context (caps : capabilities) (entry : CronEntry).
Implicit Types c : cluster S.
Implicit Types n : node S.

(** What of a node stays as it is while others, or its own process, go on. *)
Definition goes_on n n' : Prop :=
  n_name n' = n_name n ∧ n_nil n' = n_nil n ∧ n_once n' = n_once n ∧
  (is_Some (result (n_proc n)) → is_Some (result (n_proc n'))).

Lemma result_stays srv Env (p p' : Process S) :
  pstep Error_ srv Env p p' → is_Some (result p) → is_Some (result p').
Proof.
  intros [w _|w _ _|w _|p1 Hb|err _ _|err _ _ _ _| |s _]; try done.
  destruct (bstep_loops _ _ _ Hb) as (_ & _ & -> & _). done.
Qed.

Lemma pok_broker srv (s : S) (p : Process S) : pok srv p → pok srv (set_pbroker s p).
Proof. intros HP. by eapply (pok_step Error_ srv (λ _ _, True)); [|apply p_env]. Qed.

(** A step changes one node: its process, and the broker with it. *)
Lemma cstep_node c c' :
  cstep Error_ c c' →
  ∃ i n p, nodes c !! i = Some n ∧ nodes c' = <[i := set_proc p n]> (nodes c) ∧ shared c' = pbroker p ∧
    pstep Error_ (n_srv n) (λ _ _, False) (set_pbroker (shared c) (n_proc n)) p ∧ ctx_done p = ctx_done (n_proc n) ∧
    ran c `prefix_of` ran c'.
Proof.
  intros [i n p Hi Hp Hc _|i n k j now fired err Hi Hk Hj w].
  - exists i, n, p. by split_and!.
  - exists i, n, (set_worker w (n_proc n)). split_and!; try done.
    + apply (p_job _ _ _ (set_pbroker (shared c) (n_proc n))). by apply (j_report _ _ _ _ k j (Done err) now).
    + cbn [ran]. unfold handle_job, Mux_ProcessTask in Hj. case_match eqn:Hh.
      * change (handlers report_mux) with (<["report:generate" := generate]> ∅ : gmap string handler) in Hh.
        apply lookup_insert_Some in Hh as [[_ <-]|[_ ?]]; [|done].
        injection Hj as <- _. by eexists.
      * by injection Hj as <- _.
Qed.

Lemma cstep_onward c c' :
  cstep Error_ c c' → length (nodes c') = length (nodes c) ∧
  ∀ i n, nodes c !! i = Some n → ∃ n', nodes c' !! i = Some n' ∧ goes_on n n'.
Proof.
  intros (i & n & p & Hi & Hn & _ & Hp & _)%cstep_node. rewrite Hn, length_insert. split; [done|].
  intros i' n' Hi'. destruct (decide (i' = i)) as [->|Hne].
  - assert (n' = n) as -> by congruence. exists (set_proc p n). rewrite list_lookup_insert_eq by (by eapply lookup_lt_Some).
    split; [done|]. split_and!; try done. cbn. by apply (result_stays _ _ _ _ Hp).
  - rewrite list_lookup_insert_ne by done. exists n'. done.
Qed.

Lemma csteps_onward c c' :
  rtc (cstep Error_) c c' → length (nodes c') = length (nodes c) ∧ ran c `prefix_of` ran c' ∧
  ∀ i n, nodes c !! i = Some n → ∃ n', nodes c' !! i = Some n' ∧ goes_on n n'.
Proof.
  induction 1 as [c|c c1 c2 Hs _ IH]; [split_and!; [done|done|]; intros i n Hi; by exists n|].
  destruct (cstep_onward _ _ Hs) as [Hl Hn]. apply cstep_node in Hs as (? & ? & ? & _ & _ & _ & _ & _ & Hpre).
  destruct IH as (IHl & IHp & IHn). split_and!; [congruence|by etrans|].
  intros i n (n1 & Hi1 & E1 & E2 & E3 & E4)%Hn. apply IHn in Hi1 as (n2 & Hi2 & F1 & F2 & F3 & F4). exists n2.
  split; [done|]. split_and!; [congruence..|auto].
Qed.

Lemma cluster_ok_put i n c :
  cluster_ok c → node_ok n → nodes c !! i = None ∨ n_name n = worker_name i → cluster_ok (put_node i n c).
Proof.
  intros [Hn Hm] Hok Hname. constructor; intros i' n'; cbn; destruct (decide (i' = i)) as [->|Hne];
    rewrite ?list_lookup_insert_ne by done; eauto; intros Hi';
    (assert (i < length (nodes c))%nat as Hlt by (apply lookup_lt_Some in Hi'; by rewrite length_insert in Hi'));
    rewrite list_lookup_insert_eq in Hi' by done; injection Hi' as <-; [done|].
  destruct Hname as [Hnone|]; [|done]. apply lookup_ge_None in Hnone. lia.
Qed.

Lemma cluster_ok_step c c' : cluster_ok c → cstep Error_ c c' → cluster_ok c'.
Proof.
  intros Hok (i & n & p & Hi & Hn & _ & Hp & Hc & _)%cstep_node. destruct (ck_nodes _ Hok _ _ Hi) as [Hpok Ho Hnil Hnm].
  assert (nodes c' = nodes (put_node i (set_proc p n) c)) as Heq by done.
  destruct (cluster_ok_put i (set_proc p n) c) as [A B];
    [done| |right; exact (ck_names _ Hok _ _ Hi)|constructor; intros i' n'; rewrite Heq; [apply A|apply B]].
  constructor; cbn; try done.
  - eapply pok_step; [apply pok_broker, Hpok|exact Hp].
  - by rewrite Hc.
  - intros Hr%Hnil. by apply (result_stays _ _ _ _ Hp).
Qed.

Lemma cluster_ok_steps c c' : cluster_ok c → rtc (cstep Error_) c c' → cluster_ok c'.
Proof. intros Hok Hr. by apply (rtc_invariant _ _ _ _ cluster_ok_step Hr). Qed.

Lemma node_ok_cancel n : node_ok n → node_ok (cancel_node n).
Proof.
  intros [Hp Ho Hn Hm]. constructor; try done. cbn. by eapply (pok_step Error_ _ (λ _ _, False)); [|apply p_cancel].
Qed.

(** What of the cluster the whole demonstration keeps. *)
Definition keeps c c' : Prop :=
  length (nodes c') = length (nodes c) ∧ ran c `prefix_of` ran c' ∧
  ∀ i n, nodes c !! i = Some n → ∃ n', nodes c' !! i = Some n' ∧ n_name n' = n_name n ∧
    (n_nil n = true → n_nil n' = true) ∧ (is_Some (result (n_proc n)) → is_Some (result (n_proc n'))).

#[local] Instance keeps_refl : Reflexive keeps.
Proof. intros c. split_and!; [done|done|]. intros i n Hi. by exists n. Qed.
#[local] Instance keeps_trans : Transitive keeps.
Proof.
  intros c1 c2 c3 (L1 & P1 & N1) (L2 & P2 & N2). split_and!; [congruence|by etrans|].
  intros i n (n1 & (n2 & Hi & E & Hnil & Hr)%N2 & E' & Hnil' & Hr')%N1. exists n2. split_and!; [done|congruence|auto|auto].
Qed.

Lemma keeps_steps c c' : rtc (cstep Error_) c c' → keeps c c'.
Proof.
  intros (Hl & Hp & Hn)%csteps_onward. split_and!; [done|done|]. intros i n (n' & Hi & E1 & E2 & E3 & E4)%Hn.
  exists n'. split_and!; [done|done|congruence|done].
Qed.

Lemma keeps_put i n n' c :
  nodes c !! i = Some n → n_name n' = n_name n → (n_nil n = true → n_nil n' = true) →
  (is_Some (result (n_proc n)) → is_Some (result (n_proc n'))) → keeps c (put_node i n' c).
Proof.
  intros Hi Hname Hnil Hr. split_and!; [cbn; by rewrite length_insert|done|]. intros i' n1 Hi'. cbn.
  destruct (decide (i' = i)) as [->|Hne].
  - assert (n1 = n) as -> by congruence. exists n'. by rewrite list_lookup_insert_eq by (by eapply lookup_lt_Some).
  - exists n1. by rewrite list_lookup_insert_ne.
Qed.

(** Between the statements of the demonstration a node that was stopped has returned. *)
Definition settled c : Prop :=
  cluster_ok c ∧ ∀ i n, nodes c !! i = Some n → n_once n = true → is_Some (result (n_proc n)).

Lemma settled_steps c c' : settled c → rtc (cstep Error_) c c' → settled c'.
Proof.
  intros [Hok Hs] Hr. split; [by eapply cluster_ok_steps|]. destruct (csteps_onward _ _ Hr) as (Hl & _ & Hn).
  intros i n' Hi' Ho. destruct (lookup_lt_is_Some_2 (nodes c) i) as [n Hi].
  { rewrite <- Hl. by eapply lookup_lt_Some. }
  destruct (Hn _ _ Hi) as (n1 & Hi1 & _ & _ & Ho1 & Hr1). assert (n1 = n') as -> by congruence.
  apply Hr1, (Hs i n Hi). congruence.
Qed.

Lemma settled_put i n n' c :
  settled c → nodes c !! i = Some n → n_name n' = n_name n → node_ok n' →
  (n_once n' = true → is_Some (result (n_proc n'))) → settled (put_node i n' c).
Proof.
  intros [Hok Hs] Hi Hname Hn' Hr. split.
  { apply cluster_ok_put; [done|done|]. right. rewrite Hname. by apply (ck_names _ Hok). }
  intros i' n1. cbn. destruct (decide (i' = i)) as [->|Hne].
  - rewrite list_lookup_insert_eq by (by eapply lookup_lt_Some). by intros [= <-].
  - rewrite list_lookup_insert_ne by done. apply Hs.
Qed.

Lemma settled_stops i c c' :
  settled c → stops Error_ i c c' →
  settled c' ∧ keeps c c' ∧ ∃ n', nodes c' !! i = Some n' ∧ is_Some (result (n_proc n')).
Proof.
  intros [Hok Hs] [n c1 n' Hi Ho Hr Hi' Hres|n Hi Ho].
  2:{ split_and!; [done|done|]. exists n. split; [done|]. by apply (Hs i). }
  assert (keeps c (put_node i (cancel_node n) c)) as Hk by (by eapply keeps_put).
  split_and!; [|by etrans; [|apply keeps_steps]|by exists n']. split.
  { eapply cluster_ok_steps; [|exact Hr]. apply cluster_ok_put; [done| |right; exact (ck_names _ Hok _ _ Hi)].
    by apply node_ok_cancel, (ck_nodes _ Hok i). }
  destruct (csteps_onward _ _ Hr) as (Hl & _ & Hn). intros i2 n2 Hi2 Ho2.
  destruct (decide (i2 = i)) as [->|Hne]; [congruence|].
  destruct (lookup_lt_is_Some_2 (nodes c) i2) as [n0 Hi0].
  { apply lookup_lt_Some in Hi2. rewrite Hl in Hi2. cbn in Hi2. by rewrite length_insert in Hi2. }
  destruct (Hn i2 n0) as (n3 & Hi3 & _ & _ & Ho3 & Hr3); [cbn; by rewrite list_lookup_insert_ne|].
  assert (n3 = n2) as -> by congruence. apply Hr3, (Hs i2); [done|congruence].
Qed.

Lemma settled_stops_all l c c' :
  settled c → stops_all Error_ l c c' →
  settled c' ∧ keeps c c' ∧ ∀ i, i ∈ l → ∃ n', nodes c' !! i = Some n' ∧ is_Some (result (n_proc n')).
Proof.
  intros Hs Hst. revert Hs. induction Hst as [c|i l c c1 c2 Hi _ IH]; intros Hs.
  { split_and!; [done|done|]. intros i Hi. by apply elem_of_nil in Hi. }
  destruct (settled_stops _ _ _ Hs Hi) as (Hs1 & Hk1 & n1 & Hn1 & Hr1). destruct (IH Hs1) as (Hs2 & Hk2 & Hall).
  split_and!; [done|by etrans|]. intros i' [->|Hin]%elem_of_cons; [|by apply Hall].
  destruct Hk2 as (_ & _ & Hk2). destruct (Hk2 _ _ Hn1) as (n2 & Hn2 & _ & _ & Hr2). exists n2. auto.
Qed.

(** A worker that starts. *)
Lemma startWorker_node name hostname pid NewID now es (s : S) n :
  name ≠ "" → startWorker ParseDuration global caps name entry hostname pid NewID now es s = Ok n →
  node_ok n ∧ n_name n = name ∧ n_once n = false ∧ leader (n_proc n) = false ∧ pbroker (n_proc n) = s.
Proof.
  intros Hne. unfold startWorker.
  destruct (NewServer ParseDuration global (Some caps) (node_config name entry) hostname pid NewID) as [srv|e] eqn:HN; [|done].
  cbn [mbind result_bind]. destruct (Run srv true now es s) as [p|e] eqn:HR; [|done]. intros [= <-].
  assert (p = startMaintenance srv now es (worker_start srv s)) as Hp by (by injection HR).
  assert (ctx_done p = false ∧ leader p = false ∧ pbroker p = s) as (Hc & Hl & Hb).
  { rewrite Hp. unfold startMaintenance. by destruct (srv_maint srv). }
  split_and!; try done. constructor; cbn; [by eapply pok_start|congruence|done|].
  apply NewServer_cfg in HN as [-> _]. cbn. by rewrite (proj2 (String.eqb_neq name "")).
Qed.

Lemma worker_name_inj i i' : worker_name i = worker_name i' → i = i'.
Proof. unfold worker_name. intros Heq. apply (inj (String.append "worker-")) in Heq. by apply (inj pretty) in Heq. Qed.

Lemma settled_add hostname pid NewID now es c n :
  settled c →
  startWorker ParseDuration global caps (worker_name (length (nodes c))) entry hostname pid NewID now es (shared c) = Ok n →
  settled (mkCluster (shared c) (nodes c ++ [n]) (ran c)).
Proof.
  intros [[Hn Hm] Hs] Hst. apply startWorker_node in Hst as (Hok & Hname & Ho & _); [|done].
  assert (∀ i n', (nodes c ++ [n]) !! i = Some n' → nodes c !! i = Some n' ∨ i = length (nodes c) ∧ n' = n) as Hlook.
  { intros i n' [?|[Hge Hi]]%lookup_app_Some; [by left|right]. apply list_lookup_singleton_Some in Hi as [Hi <-]. split; [lia|done]. }
  split; [constructor|]; cbn; intros i n' [Hi|[-> ->]]%Hlook; eauto; congruence.
Qed.

Lemma settled_starts left c c' r :
  settled c → starts ParseDuration global Error_ caps entry left c c' r →
  settled c' ∧ (r = None → length (nodes c') = (length (nodes c) + left)%nat).
Proof.
  intros Hs Hst. revert Hs. induction Hst as [c|left c h pid NewID now es err _|left c c1 c2 r h pid NewID now es n Hn Hr _ IH]; intros Hs.
  - split; [done|intros _; lia].
  - done.
  - destruct IH as [Hs2 Hl2]; [eapply settled_steps; [by eapply settled_add|exact Hr]|]. split; [done|].
    intros Hnone. rewrite Hl2 by done. destruct (csteps_onward _ _ Hr) as [-> _]. cbn. rewrite length_app. cbn. lia.
Qed.

Lemma settled_empty (s : S) : settled (mkCluster s [] []).
Proof. by split; [constructor|]. Qed.

Lemma settled_handover c c' lines :
  settled c → hands_over Error_ c c' lines →
  settled c' ∧ keeps c c' ∧
  (lines = [] ∨ ∃ i n, nodes c' !! i = Some n ∧ n_nil n = true ∧ lines = [(">>> stopping the leader (%s)", [n_name n])]).
Proof.
  intros Hs [Hno|i n n' c1 Hi Hl Hst Hi']; [split_and!; [done|done|by left]|].
  destruct (settled_stops _ _ _ Hs Hst) as (Hs1 & Hk1 & n1 & Hi1 & Hr1). assert (n1 = n') as -> by congruence.
  destruct (ck_nodes _ (proj1 Hs1) _ _ Hi1) as [Hp Ho _ Hnm].
  assert (n_name n' = n_name n) as Hname.
  { destruct Hk1 as (_ & _ & Hk1). destruct (Hk1 _ _ Hi) as (n2 & Hi2 & E & _). congruence. }
  split_and!.
  - by eapply settled_put; [done..| |done].
  - etrans; [exact Hk1|]. by eapply keeps_put.
  - right. exists i, (nil_srv n'). cbn. rewrite list_lookup_insert_eq by (by eapply lookup_lt_Some). by rewrite Hname.
Qed.

Lemma currentLeader_Some (ns : list (node S)) n :
  currentLeader ns = Some n → ∃ i, ns !! i = Some n ∧ n_nil n = false ∧ IsLeader (n_proc n) = true.
Proof.
  induction ns as [|n0 ns IH]; [done|]. cbn [currentLeader]. destruct (n_nil n0) eqn:Hn; cbn [negb andb].
  - intros [i ?]%IH. by exists (Datatypes.S i).
  - destruct (IsLeader (n_proc n0)) eqn:Hl; [intros [= <-]; by exists 0%nat|]. intros [i ?]%IH. by exists (Datatypes.S i).
Qed.
End cluster_lemmas.

(** report returns an error exactly if a key was recorded twice. *)
Lemma report_dupes_err range fired :
  (∀ m, range m ≡ₚ map_to_list m) → (report range fired).2 = None ↔ NoDup fired.
Proof.
  intros Hrange. set (es := filter (λ e, 1 < e.2) (range (seen_counts fired))).
  assert (∀ k n, (k, n) ∈ es ↔ n = Z.of_nat (times k fired) ∧ (1 < times k fired)%nat) as Hes
    by (intros; by apply elem_of_doubles).
  rewrite NoDup_times. unfold report. assert (length (report_dupes range fired) = length es) as ->.
  { unfold report_dupes, sort_Strings. by rewrite merge_sort_Permutation, length_fmap. }
  case_bool_decide as Hz; cbn [snd]; split; try done.
  - intros Hle. exfalso. destruct es as [|[k n] es']; [cbn in Hz; lia|].
    destruct (proj1 (Hes k n)) as [_ Hk]; [by left|]. specialize (Hle k). lia.
  - intros _ k. destruct (decide (1 < times k fired)%nat) as [Hk|]; [|lia]. exfalso. apply Hz.
    assert ((k, Z.of_nat (times k fired)) ∈ es) as Hin by (by apply Hes). destruct es; [by apply elem_of_nil in Hin|cbn; lia].
Qed.

(** The configuration of the demonstration is accepted. *)
Lemma startWorker_accepted {S} `{BrokerOps S} `{MaintenanceOps S} `{CronOps S} PD g Duration_String i hostname pid NewID now es (s : S) :
  Duration_String tickEvery = "400ms" → PD "400ms" = Ok tickEvery →
  ∃ n, startWorker PD g (mkCapabilities true true) (worker_name i) (report_entry Duration_String) hostname pid NewID now es s = Ok n.
Proof.
  intros HD HP. unfold startWorker.
  pose proof (NewServer_spec PD g (mkCapabilities true true) (node_config (worker_name i) (report_entry Duration_String)) hostname pid NewID) as HN.
  destruct (NewServer _ _ _ _ _ _ _) as [srv|e]; [by eexists|]. destruct HN. constructor; cbn; try done.
  - intros [?|?%elem_of_nil]%elem_of_cons; done.
  - apply NoDup_singleton.
  - apply NoDup_singleton.
  - intros e0 ->%list_elem_of_singleton. unfold report_entry. rewrite HD. unfold compile. cbn [ce_ID ce_Type ce_Spec String.eqb Ascii.eqb Bool.eqb].
    assert (Parse PD ("@every " +:+ "400ms") = Ok (mkSchedule 0 0 0 0 0 false false tickEvery)) as ->; [|by eexists].
    unfold Parse. assert (TrimSpace ("@every " +:+ "400ms") = "@every 400ms") as -> by (vm_compute; reflexivity).
    cbn [String.eqb Ascii.eqb Bool.eqb]. assert (strip_prefix "@every " "@every 400ms" = Some "400ms") as -> by (vm_compute; reflexivity).
    assert (TrimSpace "400ms" = "400ms") as -> by (vm_compute; reflexivity). by rewrite HP.
Qed.

Lemma starts_accepted {S} `{BrokerOps S} `{MaintenanceOps S} `{CronOps S} PD g Error_ Duration_String left (c c' : cluster S) err :
  Duration_String tickEvery = "400ms" → PD "400ms" = Ok tickEvery →
  ¬ starts PD g Error_ (mkCapabilities true true) (report_entry Duration_String) left c c' (Some err).
Proof.
  intros HD HP Hst. remember (Some err) as r eqn:Hr.
  induction Hst as [c|left c h pid NewID now es e He|left c c1 c2 r h pid NewID now es n _ _ _ IH]; [done| |by apply IH].
  destruct (startWorker_accepted PD g Duration_String (length (nodes c)) h pid NewID now es (shared c) HD HP) as [n Hn]. congruence.
Qed.

(** ** Lemmas: leadership on the in-memory broker *)

Section leadership.
Context (Error_ : error → string).

(** What the broker's operations on jobs leave alone. *)
Lemma jobs_ops_leases now o b :
  match o with
  | OpEnqueue _ _ | OpDequeue _ | OpAck _ _ | OpNack _ _ _ _ | OpKill _ _ _ | OpExtend _ _ _ | OpReap _ _ | OpPromote _ =>
      leases (exec now o b) = leases b ∧ closed (exec now o b) = closed b
  | _ => True
  end.
Proof.
  pose proof (exec_jobs_aux now o b) as HA.
  destruct o; try done; try (apply proj1 in HA); apply aux_fields in HA as (? & _ & ? & _); done.
Qed.

(** Its operations on cron entries and heartbeats too. *)
Lemma cron_ops_leases b :
  (∀ id t, leases (ScheduleCronIfAbsent id t b).1 = leases b ∧ closed (ScheduleCronIfAbsent id t b).1 = closed b) ∧
  (∀ id t t', leases (ClaimCron id t t' b).1 = leases b ∧ closed (ClaimCron id t t' b).1 = closed b) ∧
  (∀ w ttl now, leases (Heartbeat w ttl now b).1 = leases b ∧ closed (Heartbeat w ttl now b).1 = closed b).
Proof.
  split_and!; intros; unfold ScheduleCronIfAbsent, ClaimCron, Heartbeat, checkOpen; by repeat case_match.
Qed.

Lemma report_leases srv err j now (b : Broker) :
  leases (Worker.report Error_ srv err j now b).1 = leases b ∧ closed (Worker.report Error_ srv err j now b).1 = closed b.
Proof.
  unfold Worker.report. destruct err as [e|].
  - destruct (Is e ErrSkipRetry).
    + exact (jobs_ops_leases now (OpKill _ _ _) b).
    + exact (jobs_ops_leases now (OpNack _ _ _ _) b).
  - exact (jobs_ops_leases now (OpAck _ _) b).
Qed.

(** The actions of jobs, of renewal and of the shutdown do not touch the leases. *)
Lemma jstep_leases srv done (w w' : Worker Broker) :
  jstep Error_ srv done w w' ∨ nstep srv w w' ∨ dstep w w' →
  leases (broker w') = leases (broker w) ∧ closed (broker w') = closed (broker w).
Proof.
  intros [[| draws now w1 Hf Hc| | | |k j o now Hk|]|[[|ids now Hr|]|[| | |]]]; try done.
  - unfold fetch_claim in Hc. destruct (next draws (selector w)) as [[sel ord]|]; [|done]. cbn [b_Dequeue memory_broker] in Hc.
    pose proof (jobs_ops_leases now (OpDequeue (mkClaimOpts (cfg_WorkerID (srv_cfg srv)) ord (cfg_VisibilityTimeout (srv_cfg srv)))) (broker w)) as HL.
    cbn [exec] in HL. destruct (Dequeue _ _ _) as [s [j|e]]; [|destruct (Is e ErrNoJob); [|destruct done]]; by injection Hc as <-.
  - apply report_leases.
  - unfold renew_list. by case_match.
  - unfold renew_extend. cbn [b_Extend memory_broker].
    pose proof (jobs_ops_leases now (OpExtend (cfg_WorkerID (srv_cfg srv)) ids (cfg_VisibilityTimeout (srv_cfg srv))) (broker w)) as HL.
    cbn [exec] in HL. destruct (Extend _ _ _ _ _) as [s [lost|e]]; [done|]. by case_bool_decide.
  - unfold renew_cancel, cancelJob. by case_match.
Qed.

(** What a step of a process does to the scheduler's lease and to what the process thinks. *)
Definition lease_of (b : Broker) : option string := l_owner <$> leases b !! schedulerLease.
Definition leads_by srv (p p' : Process Broker) : Prop :=
  (lease_of (pbroker p') = lease_of (pbroker p) ∧ leader p' = leader p) ∨
  (lease_of (pbroker p') = Some (srv_WorkerID srv) ∧ leader p' = true) ∨
  (lease_of (pbroker p') = lease_of (pbroker p) ∧ lease_of (pbroker p) ≠ Some (srv_WorkerID srv) ∧ leader p' = false) ∨
  (lease_of (pbroker p') = None ∧ leader p' = false).

Lemma leads_by_same srv p p' :
  leases (pbroker p') = leases (pbroker p) ∧ closed (pbroker p') = closed (pbroker p) → leader p' = leader p →
  closed (pbroker p') = closed (pbroker p) ∧ leads_by srv p p'.
Proof. intros [Hl Hc] Hd. split; [done|]. left. unfold lease_of. by rewrite Hl. Qed.

Lemma elect_leads srv now p :
  closed (pbroker p) = false →
  closed (pbroker (elect_call srv now p)) = false ∧ leads_by srv p (elect_call srv now p).
Proof.
  intros Hop. unfold elect_call. cbn [m_AcquireLease memory_maintenance]. unfold AcquireLease, checkOpen. rewrite Hop.
  destruct (_ || _); [split; [done|by left]|]. case_bool_decide; [split; [done|by left]|].
  destruct (leases (pbroker p) !! schedulerLease) as [e|] eqn:He.
  - destruct (After (l_expiresAt e) now && negb (String.eqb (l_owner e) (srv_WorkerID srv))) eqn:Hb.
    + split; [done|]. right. right. left. split_and!; [done| |done]. unfold lease_of. rewrite He. cbn. intros [= Heq].
      apply andb_true_iff in Hb as [_ Hb]. by rewrite Heq, String.eqb_refl in Hb.
    + split; [done|]. right. left. split; [|done]. unfold lease_of. cbn. by rewrite lookup_insert_eq.
  - split; [done|]. right. left. split; [|done]. unfold lease_of. cbn. by rewrite lookup_insert_eq.
Qed.

Lemma release_leads srv now p :
  closed (pbroker p) = false →
  closed (pbroker (release_call srv now p)) = false ∧ leads_by srv p (release_call srv now p).
Proof.
  intros Hop. unfold release_call, scheduler_stop. destruct (leader p) eqn:Hl.
  2:{ split; [done|]. left. cbn. by rewrite Hl. }
  cbn [m_ReleaseLease memory_maintenance]. unfold ReleaseLease, checkOpen. rewrite Hop.
  destruct (leases (pbroker p) !! schedulerLease) as [e|] eqn:He.
  - destruct (String.eqb_spec (l_owner e) (cfg_WorkerID (srv_cfg srv))) as [Ho|Ho].
    + split; [done|]. right. right. right. split; [|done]. unfold lease_of. cbn. by rewrite lookup_delete_eq.
    + split; [done|]. right. right. left. split_and!; [done| |done]. unfold lease_of. rewrite He. cbn. by intros [= ?].
  - split; [done|]. right. right. right. split; [|done]. unfold lease_of. cbn. by rewrite He.
Qed.

Lemma bstep_leads srv p p' :
  bstep srv p p' → closed (pbroker p) = false → closed (pbroker p') = false ∧ leads_by srv p p'.
Proof.
  intros Hstep Hop. destruct (cron_ops_leases (pbroker p)) as (HS & HC & HB).
  assert (∀ p1, leases (pbroker p1) = leases (pbroker p) ∧ closed (pbroker p1) = closed (pbroker p) → leader p1 = leader p →
    closed (pbroker p1) = false ∧ leads_by srv p p1) as Hsame.
  { intros p1 H1 H2. rewrite <- Hop. by apply leads_by_same. }
  destruct Hstep as [| | |now Hl| |now Hl| |cn t id ce es Hl| |now Hl| |now Hl|i bn now d due Hl| |now d n due Hl|now Hl];
    try by apply Hsame.
  - apply Hsame; [|done]. apply HB.
  - pose proof (jobs_ops_leases now (OpReap (cfg_Queues (srv_cfg srv)) reapBatch) (pbroker p)) as HL. cbn [exec] in HL.
    apply Hsame; unfold reap_call, reap_pass; cbn [m_Reap memory_maintenance]; by destruct (Reap _ _ _ _) as [s [k|e]].
  - pose proof (jobs_ops_leases now (OpPromote promoteBatch) (pbroker p)) as HL. cbn [exec] in HL.
    apply Hsame; unfold promote_call, promote_pass; cbn [m_Promote memory_maintenance]; by destruct (Promote _ _ _) as [s [k|e]].
  - specialize (HS id (Schedule.Next (schedule ce) t)).
    apply Hsame; unfold seed_call, seed_one; cbv zeta; (destruct (IsZero _); [done|]); cbn [c_ScheduleCronIfAbsent memory_cron];
      by destruct (ScheduleCronIfAbsent _ _ _) as [s [k|e]].
  - by apply elect_leads.
  - apply Hsame; unfold due_call; cbn [c_DueCron memory_cron]; by destruct (DueCron _ _ _) as [k|e].
  - apply Hsame; unfold fire_call, fire_enqueue; (destruct (srv_entries srv !! due_ID d) as [ce|]; [|done]);
      cbv zeta; (destruct (IsZero _); [done|]); cbn [b_Enqueue memory_broker];
      pose proof (jobs_ops_leases now (OpEnqueue i (Some (cron_job ce d))) (pbroker p)) as HL; cbn [exec] in HL;
      by destruct (Enqueue _ _ _ _) as [[s j] e].
  - specialize (HC (due_ID d) (due_FireAt d) n). apply Hsame; unfold claim_call, fire_claim; cbn [c_ClaimCron memory_cron];
      by destruct (ClaimCron _ _ _ _) as [s [k|e]].
  - by apply release_leads.
Qed.

Lemma pstep_leads srv p p' :
  pstep Error_ srv (λ _ _, False) p p' → closed (pbroker p) = false → closed (pbroker p') = false ∧ leads_by srv p p'.
Proof.
  intros Hstep Hop. rewrite <- Hop.
  destruct Hstep as [w Hw|w _ Hw|w Hw|p1 Hb|err _ _|err _ _ _ _| |s []].
  - apply leads_by_same; [|done]. apply (jstep_leases srv (ctx_done p)). by left.
  - apply leads_by_same; [|done]. apply (jstep_leases srv (ctx_done p)). right. by left.
  - apply leads_by_same; [|done]. apply (jstep_leases srv (ctx_done p)). right. by right.
  - rewrite Hop. by apply bstep_leads.
  - by apply leads_by_same.
  - by apply leads_by_same.
  - by apply leads_by_same.
Qed.

(** The holder of the scheduler's lease is a node that thinks it is the leader. *)
Definition led (c : cluster Broker) : Prop :=
  closed (shared c) = false ∧
  ∀ o, lease_of (shared c) = Some o → ∃ i n, nodes c !! i = Some n ∧ n_name n = o ∧ leader (n_proc n) = true.

Lemma led_step c c' : cluster_ok c → led c → cstep Error_ c c' → led c'.
Proof.
  intros Hok [Hop Hled] (i & n & p & Hi & Hn & Hs & Hp & _)%cstep_node.
  destruct (ck_nodes _ Hok _ _ Hi) as [_ _ _ Hid].
  destruct (pstep_leads _ _ _ Hp) as [Hop' HL]; [done|]. split; [by rewrite Hs|]. rewrite Hs, Hn. intros o Ho.
  assert (i < length (nodes c))%nat as Hlt by (by eapply lookup_lt_Some).
  assert (∀ i' n', nodes c !! i' = Some n' → i' ≠ i → <[i := set_proc p n]> (nodes c) !! i' = Some n') as Hoth
    by (intros; by rewrite list_lookup_insert_ne).
  assert (<[i := set_proc p n]> (nodes c) !! i = Some (set_proc p n)) as Hself by (by rewrite list_lookup_insert_eq).
  assert (lease_of (shared c) = Some o → (i = i → o = n_name n → leader p = true) →
    ∃ i' n', <[i := set_proc p n]> (nodes c) !! i' = Some n' ∧ n_name n' = o ∧ leader (n_proc n') = true) as Hkeep.
  { intros (i' & n' & Hi' & <- & Hl')%Hled Hme. destruct (decide (i' = i)) as [->|Hne]; [|exists i', n'; auto].
    assert (n' = n) as -> by congruence. exists i, (set_proc p n). auto. }
  destruct HL as [[HL Hd]|[[HL Hd]|[(HL & HN & Hd)|[HL Hd]]]]; rewrite HL in Ho.
  - cbn in Ho. apply Hkeep; [done|]. intros _ ->. rewrite Hd. cbn. destruct (Hled _ Ho) as (i' & n' & Hi' & Hname & Hl').
    assert (i' = i) as ->.
    { apply worker_name_inj. rewrite <- (ck_names _ Hok _ _ Hi'), <- (ck_names _ Hok _ _ Hi). done. }
    congruence.
  - injection Ho as <-. exists i, (set_proc p n). split_and!; [done|done|done].
  - cbn in Ho, HN. apply Hkeep; [done|]. intros _ ->. rewrite <- Hid in Ho. done.
  - done.
Qed.

Lemma led_steps c c' : cluster_ok c → led c → rtc (cstep Error_) c c' → cluster_ok c' ∧ led c'.
Proof.
  intros Hok Hl Hr. apply (rtc_invariant _ (λ c, cluster_ok c ∧ led c) _ _ (λ x y (H : cluster_ok x ∧ led x) Hs,
    conj (cluster_ok_step Error_ x y (proj1 H) Hs) (led_step x y (proj1 H) (proj2 H) Hs)) Hr). done.
Qed.

Lemma led_put i n n' c :
  nodes c !! i = Some n → n_name n' = n_name n → leader (n_proc n') = leader (n_proc n) → led c → led (put_node i n' c).
Proof.
  intros Hi Hname Hlead [Hop Hl]. split; [done|]. intros o (i' & n1 & Hi' & Ho & Hd)%Hl. cbn.
  destruct (decide (i' = i)) as [->|Hne]; [|exists i', n1; by rewrite list_lookup_insert_ne].
  assert (n1 = n) as -> by congruence. exists i, n'. rewrite list_lookup_insert_eq by (by eapply lookup_lt_Some).
  split_and!; [done|congruence|congruence].
Qed.

Lemma led_stops i c c' : settled c → led c → stops Error_ i c c' → led c'.
Proof.
  intros [Hok Hs] Hl [n c1 n' Hi Ho Hr Hi' Hres|n Hi Ho]; [|done].
  eapply led_steps; [| |exact Hr].
  - apply cluster_ok_put; [done| |right; exact (ck_names _ Hok _ _ Hi)].
    by apply (node_ok_cancel Error_), (ck_nodes _ Hok i).
  - by eapply led_put.
Qed.

Lemma led_starts PD g caps entry left c c' r :
  settled c → led c → starts PD g Error_ caps entry left c c' r → led c'.
Proof.
  intros Hs Hl Hst. revert Hs Hl. induction Hst as [c|left c h pid NewID now es err _|left c c1 c2 r h pid NewID now es n Hn Hr _ IH];
    intros Hs Hl; [done|done|].
  assert (settled (mkCluster (shared c) (nodes c ++ [n]) (ran c))) as Hs0 by (by eapply settled_add).
  apply IH; [by eapply settled_steps|]. eapply (led_steps _ c1); [apply Hs0| |exact Hr].
  destruct Hl as [Hop Hl]. split; [done|]. intros o (i & n0 & Hi & Ho)%Hl. exists i, n0. split; [|done].
  cbn. by apply lookup_app_l_Some.
Qed.
End leadership.

(** ** Properties *)

(** The verdict on the ticks is right. In whatever order Go ranges over the counts, report
    lists each key that was recorded more than once, once, with how often, in the order of
    strings, and the output does not depend on that order; the number of distinct ticks is
    the number of different keys; and it returns an error exactly if some key was recorded
    twice. *)
Theorem report_exact range fired :
  (∀ m, range m ≡ₚ map_to_list m) →
  let '(lines, err) := report range fired in
  (err = None ↔ NoDup fired) ∧
  size (seen_counts fired) = size (list_to_set fired : gset string) ∧
  Sorted String.le (report_dupes range fired) ∧
  (∃ doubles, NoDup doubles ∧ (∀ k, k ∈ doubles ↔ (1 < times k fired)%nat) ∧
     report_dupes range fired ≡ₚ (λ k, dupe (k, Z.of_nat (times k fired))) <$> doubles) ∧
  (lines, err) = report map_to_list fired.
Proof.
  intros Hrange. destruct (report range fired) as [lines err] eqn:HR.
  set (es := filter (λ e, 1 < e.2) (range (seen_counts fired))).
  assert (∀ k n, (k, n) ∈ es ↔ n = Z.of_nat (times k fired) ∧ (1 < times k fired)%nat) as Hes
    by (intros; by apply elem_of_doubles).
  assert (report_dupes range fired = report_dupes map_to_list fired) as Hsame.
  { apply sort_Strings_perm. by rewrite Hrange. }
  assert (NoDup es.*1) as Hnd.
  { apply NoDup_fst_filter. rewrite Hrange. apply NoDup_fst_map_to_list. }
  split_and!.
  - rewrite <- (report_dupes_err range fired Hrange). by rewrite HR.
  - apply seen_counts_size.
  - apply Sorted_merge_sort, _.
  - exists es.*1. split_and!; [done| |].
    + intros k. rewrite list_elem_of_fmap. split.
      * intros ([k' n] & -> & [_ ?]%Hes). done.
      * intros Hk. exists (k, Z.of_nat (times k fired)). split; [done|]. by apply Hes.
    + unfold report_dupes, sort_Strings. rewrite merge_sort_Permutation. fold es. rewrite <- list_fmap_compose.
      apply reflexive_eq, list_fmap_ext. intros i [k n] Hi. unfold compose. cbn.
      apply list_elem_of_lookup_2 in Hi. by apply Hes in Hi as [-> _].
  - rewrite <- HR. unfold report, summary_lines. by rewrite Hsame.
Qed.

Section run_property.
Context {S : Type} `{BrokerOps S} `{MaintenanceOps S} `{CronOps S}.
Context (PD : string → res Z) (global : randFunc) (Error_ : error → string).
Context (range : gmap string Z → list (string * Z)) (Duration_String : Z → string) (describe : string).

(** C29: the demonstration cleans up after itself and judges what it saw. However its three
    workers are interleaved, on whatever broker, it ends with every one of them stopped, its
    Run returned, its loops over and none thinking it is the leader; the leader it stops is
    never the one it reports as the new leader; and it returns an error exactly if, of the
    ticks its handler recorded up to the summary, one was recorded twice. *)
Theorem scheduled_run (s : S) lines c err :
  (∀ m, range m ≡ₚ map_to_list m) → Duration_String tickEvery = "400ms" → PD "400ms" = Ok tickEvery →
  demo_run PD global Error_ (mkCapabilities true true) (report_entry Duration_String) range Duration_String describe s lines c err →
  length (nodes c) = workerTotal ∧
  (∀ i n, nodes c !! i = Some n → is_Some (result (n_proc n)) ∧ loops_over (n_proc n) = true ∧ IsLeader (n_proc n) = false) ∧
  ∃ fired first handover last, fired `prefix_of` ran c ∧ (err = None ↔ NoDup fired) ∧
    lines = heading Duration_String describe ++ [(">>> leader: %s", [first])] ++ handover ++
            [(">>> new leader: %s", [last])] ++ (report range fired).1 ∧
    (handover = [] ∨ ∃ i, handover = [(">>> stopping the leader (%s)", [worker_name i])] ∧ last ≠ worker_name i).
Proof.
  intros Hrange HD HP [c1 c2 e Hst|c1 c2 c3 c4 c5 c6 c7 handover Hst H12 H23 H34 H45 H56 Hall].
  { by apply starts_accepted in Hst. }
  destruct (settled_starts PD global Error_ _ _ _ _ _ _ (settled_empty s) Hst) as [S1 L1].
  pose proof (settled_steps Error_ _ _ (settled_steps Error_ _ _ S1 H12) H23) as S3.
  destruct (settled_handover Error_ _ _ _ S3 H34) as (S4 & K4 & Hho).
  pose proof (settled_steps Error_ _ _ S4 H45) as S5. pose proof (settled_steps Error_ _ _ S5 H56) as S6.
  destruct (settled_stops_all Error_ _ _ _ S6 Hall) as (S7 & K7 & Hret).
  pose proof (keeps_steps Error_ _ _ H12) as K2. pose proof (keeps_steps Error_ _ _ H23) as K3.
  pose proof (keeps_steps Error_ _ _ H45) as K5. pose proof (keeps_steps Error_ _ _ H56) as K6.
  assert (length (nodes c7) = length (nodes c6)) as L7 by apply K7.
  split_and!.
  - rewrite L7, (proj1 K6), (proj1 K5), (proj1 K4), (proj1 K3), (proj1 K2). by apply L1.
  - intros i n Hi. assert (i ∈ seq 0 (length (nodes c6))) as Hin.
    { apply elem_of_seq. apply lookup_lt_Some in Hi. lia. }
    destruct (Hret i Hin) as (n' & Hi' & Hr). assert (n' = n) as -> by congruence.
    destruct (ck_nodes _ (proj1 S7) _ _ Hi) as [Hp _ _ _]. destruct Hr as [r Hr]. split; [by exists r|].
    destruct (pok_result _ _ Hp _ Hr) as (_ & _ & Hl). split; [done|]. apply (pok_leader _ _ Hp).
    unfold loops_over in Hl. by apply andb_true_iff in Hl as [_ ?].
  - exists (ran c6), (leaderName (nodes c2)), handover, (leaderName (nodes c5)). split_and!; [apply K7| |done|].
    + pose proof (report_dupes_err range (ran c6) Hrange) as HR. by destruct (report range (ran c6)).
    + destruct Hho as [->|(i & n & Hi & Hnil & ->)]; [by left|right]. exists i. rewrite (ck_names _ (proj1 S4) _ _ Hi).
      split; [done|]. unfold leaderName. destruct (currentLeader (nodes c5)) as [n5|] eqn:HL; [|done].
      apply currentLeader_Some in HL as (i5 & Hi5 & Hn5 & _). rewrite (ck_names _ (proj1 S5) _ _ Hi5).
      intros ->%worker_name_inj. destruct (proj2 (proj2 K5) _ _ Hi) as (n5' & Hi5' & _ & Hn5' & _).
      assert (n5' = n5) as -> by congruence. rewrite Hn5' in Hn5 by done. done.
Qed.
End run_property.

(** C21: a leader that is stopped hands over at once. On the in-memory broker, when the call that
    stops a node returns, the node does not hold the scheduler's lease, so another's next
    election succeeds at any instant, without waiting for the lease to expire, unless a third
    node has won it already. *)
Theorem leader_hands_over PD g Error_ caps entry left c1 r c i c' i' n' ttl now :
  starts PD g Error_ caps entry left (mkCluster New [] []) c1 r → rtc (cstep Error_) c1 c → stops Error_ i c c' →
  nodes c' !! i' = Some n' → 0 < ttl →
  lease_of (shared c') ≠ Some (worker_name i) ∧
  ((AcquireLease schedulerLease (n_name n') ttl now (shared c')).2 = Ok true ∨
   ∃ i2 n2, i2 ≠ i ∧ nodes c' !! i2 = Some n2 ∧ leader (n_proc n2) = true ∧ lease_of (shared c') = Some (n_name n2)).
Proof.
  intros Hst Hr Hstop Hi' Httl.
  assert (led (mkCluster New [] [])) as Hl0 by (by split).
  destruct (settled_starts PD g Error_ _ _ _ _ _ _ (settled_empty New) Hst) as [S1 _].
  pose proof (led_starts _ _ _ _ _ _ _ _ _ (settled_empty New) Hl0 Hst) as Hl1.
  destruct (led_steps _ _ _ (proj1 S1) Hl1 Hr) as [_ Hl]. pose proof (settled_steps _ _ _ S1 Hr) as S2.
  pose proof (led_stops _ _ _ _ S2 Hl Hstop) as [Hop Hled].
  destruct (settled_stops _ _ _ _ S2 Hstop) as ([Hok _] & _ & n & Hi & [res Hres]).
  assert (lease_of (shared c') ≠ Some (worker_name i)) as Hnot.
  { intros (i2 & n2 & Hi2 & Hname & Hd)%Hled. rewrite (ck_names _ Hok _ _ Hi2) in Hname. apply worker_name_inj in Hname as ->.
    assert (n2 = n) as -> by congruence. destruct (ck_nodes _ Hok _ _ Hi) as [Hp _ _ _].
    destruct (pok_result _ _ Hp _ Hres) as (_ & _ & Hlo). unfold loops_over in Hlo. apply andb_true_iff in Hlo as [_ Hso].
    rewrite (pok_leader _ _ Hp Hso) in Hd. done. }
  split; [done|]. destruct (lease_of (shared c')) as [o|] eqn:Ho.
  - right. destruct (Hled o eq_refl) as (i2 & n2 & Hi2 & <- & Hd). exists i2, n2. split_and!; try done.
    intros ->. apply Hnot. by rewrite (ck_names _ Hok _ _ Hi2).
  - left. unfold AcquireLease, checkOpen. rewrite Hop, (ck_names _ Hok _ _ Hi'). cbn [String.eqb orb].
    rewrite (bool_decide_eq_false_2 (ttl ≤ 0)) by lia. unfold lease_of in Ho. apply fmap_None in Ho. by rewrite Ho.
Qed.

(** ** Witnesses *)

Section stop_fresh.
Context {S : Type} `{BrokerOps S} `{MaintenanceOps S} `{CronOps S} (Error_ : error → string).
Implicit Types c : cluster S.
Implicit Types n : node S.

Lemma quiet_cluster i n ns l p p' :
  (i < length ns)%nat → rtc (quiet Error_ (n_srv n)) p p' →
  rtc (cstep Error_) (mkCluster (pbroker p) (<[i := set_proc p n]> ns) l) (mkCluster (pbroker p') (<[i := set_proc p' n]> ns) l).
Proof.
  intros Hi. induction 1 as [p|p p1 p2 (Hp & Hc & Hq) _ IH]; [done|]. eapply rtc_l; [|exact IH].
  assert (<[i := set_proc p1 n]> ns = <[i := set_proc p1 (set_proc p n)]> (<[i := set_proc p n]> ns)) as ->
    by (by rewrite list_insert_insert_eq).
  apply (c_node Error_ (mkCluster (pbroker p) (<[i := set_proc p n]> ns) l) i (set_proc p n) p1); cbn.
  - by rewrite list_lookup_insert_eq.
  - assert (set_pbroker (pbroker p) p = p) as -> by (by destruct p as [[]]). done.
  - done.
  - intros k j. by rewrite Hq.
Qed.

(** A node whose process has only just started, with nothing to seed, can be stopped. *)
Definition just_started n : Prop :=
  n_once n = false ∧
  n_proc n = mkProcess (worker_start (n_srv n) (pbroker (n_proc n))) false false true Call Asleep Asleep (SSeed 0 []) false None.

Lemma stops_fresh i c n :
  nodes c !! i = Some n → just_started n →
  ∃ c' n', stops Error_ i c c' ∧ nodes c' = <[i := n']> (nodes c) ∧ ran c' = ran c.
Proof.
  intros Hi [Ho Hp]. assert (i < length (nodes c))%nat as Hlt by (by eapply lookup_lt_Some).
  destruct (fresh_returns Error_ (n_srv n) 0 (shared c)) as (p' & Hr & Hres).
  destruct (rtc_inv _ _ Hr) as [Heq|(p1 & (Hstep & Hc & Hq) & Hr1)]; [rewrite <- Heq in Hres; by destruct Hres|].
  set (n1 := cancel_node n). set (c0 := put_node i n1 c).
  set (c1 := mkCluster (pbroker p1) (<[i := set_proc p1 n1]> (nodes c)) (ran c)).
  set (c2 := mkCluster (pbroker p') (<[i := set_proc p' n1]> (nodes c)) (ran c)).
  assert (cstep Error_ c0 c1) as H01.
  { assert (c1 = mkCluster (pbroker p1) (<[i := set_proc p1 n1]> (nodes c0)) (ran c0)) as ->
      by (unfold c1, c0; cbn; by rewrite list_insert_insert_eq).
    apply c_node; [by cbn; rewrite list_lookup_insert_eq| |done|].
    - assert (set_pbroker (shared c0) (n_proc n1) = fresh (n_srv n) 0 (shared c)) as ->; [|done].
      unfold n1. cbn [n_proc cancel_node]. rewrite Hp. done.
    - intros k j. unfold n1. cbn [n_proc cancel_node]. rewrite Hp. cbn. by rewrite lookup_empty. }
  exists c2, (set_proc p' n1). split_and!; [|done|done]. eapply (stops_first _ _ _ n c2 (set_proc p' n1)); [done|done| |cbn; by rewrite list_lookup_insert_eq|done].
  eapply rtc_l; [exact H01|]. by apply (quiet_cluster i n1).
Qed.
End stop_fresh.

(** Three workers on an empty in-memory broker, started and stopped. *)
Definition demo_PD (s : string) : res Z := Ok tickEvery.
Definition demo_DS (d : Z) : string := "400ms".
Definition demo_rand : randFunc := λ _, 0.
Definition demo_msg (e : error) : string := "boom".
Definition demo_caps : capabilities := mkCapabilities true true.

Lemma started_fresh i (b : Broker) :
  ∃ n, startWorker demo_PD demo_rand (mkCapabilities true true) (worker_name i) (report_entry demo_DS) (Some "host") 1 "id" 0 [] b = Ok n ∧
    just_started n.
Proof.
  destruct (startWorker_accepted demo_PD demo_rand demo_DS i (Some "host") 1 "id" 0 [] b eq_refl eq_refl) as [n Hn]. exists n. split; [done|].
  assert (worker_name i ≠ "") as Hne by done. destruct (startWorker_node _ _ _ _ _ _ _ _ _ _ _ _ Hne Hn) as (_ & _ & Ho & _ & Hb).
  revert Hn. unfold startWorker.
  pose proof (NewServer_spec demo_PD demo_rand (mkCapabilities true true) (node_config (worker_name i) (report_entry demo_DS)) (Some "host") 1 "id") as HS.
  destruct (NewServer _ _ _ _ _ _ _) as [srv|e] eqn:HN; [|done]. destruct HS as [_ HS]. cbn [mbind result_bind Run negb]. intros [= <-].
  split; [done|]. cbn [n_srv n_proc] in *. rewrite Hb. unfold startMaintenance. apply NewServer_cfg in HN as [_ ->]. cbn [has_Maintenance negb].
  rewrite bool_decide_eq_false_2; [done|]. intros He%map_size_empty_inv.
  destruct (so_entries _ _ _ HS (report_entry demo_DS)) as (ce & _ & Hce); [by left|]. by rewrite He in Hce.
Qed.

Lemma demo_started :
  ∃ c, starts demo_PD demo_rand demo_msg demo_caps (report_entry demo_DS) workerTotal (mkCluster New [] []) c None ∧
    ran c = [] ∧ length (nodes c) = workerTotal ∧ Forall just_started (nodes c).
Proof.
  destruct (started_fresh 0 New) as (n0 & H0 & J0). destruct (started_fresh 1 New) as (n1 & H1 & J1).
  destruct (started_fresh 2 New) as (n2 & H2 & J2). exists (mkCluster New [n0; n1; n2] []). split_and!; [|done|done|repeat (apply Forall_cons; split; [assumption|]); apply Forall_nil_2].
  eapply (starts_one _ _ _ _ _ 2 (mkCluster New [] [])); [exact H0|apply rtc_refl|].
  eapply (starts_one _ _ _ _ _ 1 (mkCluster New [n0] [])); [exact H1|apply rtc_refl|].
  eapply (starts_one _ _ _ _ _ 0 (mkCluster New [n0; n1] [])); [exact H2|apply rtc_refl|]. constructor.
Qed.

Lemma report_exact_witness :
  (report map_to_list ["cron:a:1"; "cron:a:2"; "cron:a:1"]).2 ≠ None ∧ (report map_to_list ["cron:a:1"; "cron:a:2"]).2 = None.
Proof.
  pose proof (report_exact map_to_list ["cron:a:1"; "cron:a:2"; "cron:a:1"] (λ m, reflexivity (map_to_list m))) as HA.
  pose proof (report_exact map_to_list ["cron:a:1"; "cron:a:2"] (λ m, reflexivity (map_to_list m))) as HB.
  destruct (report map_to_list ["cron:a:1"; "cron:a:2"; "cron:a:1"]) as [la ea].
  destruct (report map_to_list ["cron:a:1"; "cron:a:2"]) as [lb eb]. split.
  - intros HN. apply (proj1 (proj1 HA)) in HN. apply NoDup_cons in HN as [HN _]. apply HN. right. left.
  - apply (proj1 HB). apply NoDup_cons. split; [|apply NoDup_singleton]. intros HN%list_elem_of_singleton. discriminate HN.
Defined.

Lemma scheduled_run_witness :
  ∃ lines c err, demo_run demo_PD demo_rand demo_msg demo_caps (report_entry demo_DS) map_to_list demo_DS "in-memory" New lines c err ∧
    length (nodes c) = workerTotal ∧
    ∀ i n, nodes c !! i = Some n → is_Some (result (n_proc n)) ∧ loops_over (n_proc n) = true ∧ IsLeader (n_proc n) = false.
Proof.
  destruct demo_started as (c & Hst & Hran & Hlen & HF).
  assert (currentLeader (nodes c) = None) as Hno.
  { clear -HF. induction HF as [|n ns [_ Hp] _ IH]; [done|]. cbn [currentLeader]. rewrite Hp. cbn. by rewrite andb_false_r. }
  rewrite Forall_lookup in HF. unfold workerTotal in Hlen.
  destruct (lookup_lt_is_Some_2 (nodes c) 0) as [n0 N0]; [lia|]. destruct (lookup_lt_is_Some_2 (nodes c) 1) as [n1 N1]; [lia|].
  destruct (lookup_lt_is_Some_2 (nodes c) 2) as [n2 N2]; [lia|].
  destruct (stops_fresh demo_msg 0 c n0 N0 (HF _ _ N0)) as (c1 & m0 & S0 & E0 & _).
  destruct (stops_fresh demo_msg 1 c1 n1) as (c2 & m1 & S1 & E1 & _); [by rewrite E0, list_lookup_insert_ne|by eapply HF|].
  destruct (stops_fresh demo_msg 2 c2 n2) as (c3 & m2 & S2 & E2 & _); [by rewrite E1, E0, !list_lookup_insert_ne|by eapply HF|].
  assert (demo_run demo_PD demo_rand demo_msg demo_caps (report_entry demo_DS) map_to_list demo_DS "in-memory" New
    (heading demo_DS "in-memory" ++ [(">>> leader: %s", [leaderName (nodes c)])] ++ [] ++
       [(">>> new leader: %s", [leaderName (nodes c)])] ++ (report map_to_list (ran c)).1) c3 (report map_to_list (ran c)).2) as Hrun.
  { eapply run_through; [exact Hst|apply rtc_refl|apply rtc_refl|by constructor|apply rtc_refl|apply rtc_refl|].
    rewrite Hlen. by repeat (eapply stops_next; [eassumption|]); constructor. }
  eexists _, c3, _. split; [exact Hrun|].
  destruct (scheduled_run demo_PD demo_rand demo_msg map_to_list demo_DS "in-memory" New _ c3 _
    (λ m, reflexivity (map_to_list m)) eq_refl eq_refl Hrun) as (HL & HR & _).
  exact (conj HL HR).
Defined.

Lemma leader_hands_over_witness :
  ∃ c', lease_of (shared c') ≠ Some (worker_name 0) ∧ length (nodes c') = workerTotal.
Proof.
  destruct demo_started as (c & Hst & Hran & Hlen & HF). rewrite Forall_lookup in HF. unfold workerTotal in *.
  destruct (lookup_lt_is_Some_2 (nodes c) 0) as [n0 N0]; [lia|]. destruct (lookup_lt_is_Some_2 (nodes c) 1) as [n1 N1]; [lia|].
  destruct (stops_fresh demo_msg 0 c n0 N0 (HF _ _ N0)) as (c1 & m0 & S0 & E0 & _). exists c1.
  assert (nodes c1 !! 1%nat = Some n1) as N1' by (by rewrite E0, list_lookup_insert_ne).
  destruct (leader_hands_over demo_PD demo_rand demo_msg demo_caps (report_entry demo_DS) 3 c None c 0 c1 1 n1 Second 0
    Hst (rtc_refl _ _) S0 N1' eq_refl) as [HL _].
  refine (conj HL _). by rewrite E0, length_insert.
Defined.
