(* ===== verification/WorkerDemo.v ===== *)
(** * The worker demonstration (examples/worker)

    A producer of sixty jobs of three kinds, the handlers that count how each job
    fares, and the signal that ends the demonstration. Handlers run in goroutines
    of their own, so they are lists of atomic actions on the shared counters, which
    are interleaved; the encoder of payloads is a parameter. *)
From Stdlib Require Import Strings.Byte.
From S2P Require Import Prelude GoBase Job Backoff Queues Interface BrokerAPI Memory MemoryInv MemoryBroker Client Calendar Schedule CronParse Server Demo.

Definition totalJobs : Z := 60.
Definition concurrency : Z := 8.

(** ** The counters *)

(** The atomic counters, whether [once] was used, and whether the channel is closed. *)
Record outcomes := mkOutcomes {
  succeeded : Z;
  retried : Z;
  deadLettered : Z;
  settled : Z;
  once : bool;
  finished : bool
}.
Definition newOutcomes : outcomes := mkOutcomes 0 0 0 0 false false.

(** An atomic action of a handler: [out.succeeded.Add(1)] and so on; the two of settle, which
    adds one and, past the total, calls [once.Do]. *)
Inductive act := Succeeded | Retried | DeadLettered | Settled | CloseOnce.
#[export] Instance act_eq_dec : EqDecision act.
Proof. solve_decision. Defined.

Definition settle : list act := [Settled].

(** What an action does, and what its goroutine has to do next because of it. Closing a closed
    channel panics. *)
Definition perform (a : act) (o : outcomes) : may_panic (outcomes * list act) :=
  match a with
  | Succeeded => Done (mkOutcomes (wrap64 (succeeded o + 1)) (retried o) (deadLettered o) (settled o) (once o) (finished o), [])
  | Retried => Done (mkOutcomes (succeeded o) (wrap64 (retried o + 1)) (deadLettered o) (settled o) (once o) (finished o), [])
  | DeadLettered =>
      Done (mkOutcomes (succeeded o) (retried o) (wrap64 (deadLettered o + 1)) (settled o) (once o) (finished o), [])
  | Settled =>
      let n := wrap64 (settled o + 1) in
      Done (mkOutcomes (succeeded o) (retried o) (deadLettered o) n (once o) (finished o),
            if bool_decide (totalJobs ≤ n) then [CloseOnce] else [])
  | CloseOnce =>
      if once o then Done (o, [])
      else if finished o then Panic "close of closed channel"
      else Done (mkOutcomes (succeeded o) (retried o) (deadLettered o) (settled o) true true, [])
  end.

(** ** The handlers *)

(** What a handler does to the counters, and the error it returns; the first one gives up if
    its context is cancelled before its work is done. *)
Definition handler : Type := bool → Job → list act * option error.
Definition resize_image (ctx_err : error) : handler := λ cancelled _,
  if cancelled then ([], Some ctx_err) else ([Succeeded] ++ settle, None).
Definition charge_card : handler := λ _ j,
  if bool_decide (Attempt j < 3) then ([Retried], Some (errors_New "payment gateway timeout"))
  else ([Succeeded] ++ settle, None).
Definition parse_garbage : handler := λ _ _,
  ([DeadLettered] ++ settle, Some (Errorf "payload is not valid json: %w" [] [Sentinel ErrSkipRetry])).

Definition demo_handlers (ctx_err : error) : list (string * option handler) :=
  [("resize:image", Some (resize_image ctx_err)); ("charge:card", Some charge_card); ("parse:garbage", Some parse_garbage)].
Definition demo_mux (ctx_err : error) : Mux handler :=
  match handle_all (demo_handlers ctx_err) NewMux with Done m => m | Panic _ => NewMux end.
Definition process (ctx_err : error) (cancelled : bool) (j : Job) : list act * option error :=
  Mux_ProcessTask (λ (h : handler) j, h cancelled j) (λ err, ([], Some err)) (demo_mux ctx_err) j.

(** ** The workload *)

(** The kind of the [i]-th job, its payload as the map's only entry, and its options. *)
Definition job_type (i : nat) : string :=
  match (i mod 10)%nat with 7%nat => "charge:card" | 3%nat => "parse:garbage" | _ => "resize:image" end.
Definition job_payload (i : nat) : string * nat :=
  match (i mod 10)%nat with 7%nat => ("order", i) | _ => ("n", i) end.
Definition job_options (i : nat) : list EnqueueOption :=
  match (i mod 10)%nat with 7%nat => [OptQueue "critical"; OptMaxAttempts 5] | _ => [] end.

Section producer.
Context {S : Type} `{BrokerOps S} (Marshal : string * nat → res (list byte)).

(** The loop of enqueueAll from the [i]-th job on: each has an identifier and a clock reading. *)
Fixpoint enqueue_loop (ids : nat → string) (clk : nat → Z) (i n : nat) (s : S) : S * option error :=
  match n with
  | O => (s, None)
  | Datatypes.S n =>
      match EnqueueTask Marshal (NewClient []) (ids i) (clk i) (job_type i) (Some (job_payload i)) (job_options i) s with
      | (s, Err err) => (s, Some (Errorf "enqueue job %d: %w" [pretty i] [err]))
      | (s, Ok _) => enqueue_loop ids clk (Datatypes.S i) n s
      end
  end.
Definition enqueueAll (ids : nat → string) (clk : nat → Z) (s : S) : S * option error :=
  enqueue_loop ids clk 0 (Z.to_nat totalJobs) s.
End producer.

Definition demo_config (global : randFunc) : Config :=
  mkConfig ["critical"; "default"] (Some {["critical" := 4; "default" := 1]}) false concurrency (30 * Second) (10 * Second)
    (Some (Backoff.Next global (mkExponential (100 * Millisecond) Second (Some JitterFull) None))) "" [].

Definition summary_lines (Duration_String : Z → string) (Error_ : error → string) (o : outcomes) (elapsed : Z) (runErr : option error)
  : list line :=
  [("--- summary ---", []);
   ("succeeded     : %d", [pretty (succeeded o)]);
   ("dead-lettered : %d  (ErrSkipRetry, budget untouched)", [pretty (deadLettered o)]);
   ("retries       : %d  (nacked, backed off, promoted, and re-run)", [pretty (retried o)]);
   ("elapsed       : %s", [Duration_String (Round elapsed Millisecond)]);
   match runErr with
   | Some err => ("shutdown      : %v", [Error_ err])
   | None => ("shutdown      : clean", [])
   end].

(** ** The goroutines of handlers, interleaved *)

(** [begun] are the runs so far, each with whether its context was cancelled and its job;
    [threads] is what is left of each. *)
Record crew := mkCrew { tally : outcomes; threads : list (list act); begun : list (bool * Job) }.
Definition crew_start : crew := mkCrew newOutcomes [] [].

Section crew.
Context (ctx_err : error).

Inductive tstep (c : crew) : crew → Prop :=
| t_begin cancelled j :
    tstep c (mkCrew (tally c) (threads c ++ [(process ctx_err cancelled j).1]) (begun c ++ [(cancelled, j)]))
| t_act i a rest o next :
    threads c !! i = Some (a :: rest) → perform a (tally c) = Done (o, next) →
    tstep c (mkCrew o (<[i := next ++ rest]> (threads c)) (begun c)).

Definition panics (c : crew) : Prop :=
  ∃ i a rest msg, threads c !! i = Some (a :: rest) ∧ perform a (tally c) = Panic msg.

(** How often an action occurs in what is left, and in all that was begun. *)
Definition occurs (a : act) (l : list (list act)) : nat := length (filter (λ a', a' = a) (concat l)).
Definition programs (rs : list (bool * Job)) : list (list act) := (λ r, (process ctx_err r.1 r.2).1) <$> rs.

(** A counter, and what is still to be added to it, is what was begun; the channel is closed
    once, and only past the total, which is seen by who gets there. *)
Record crew_ok (c : crew) : Prop := mkCrewOk {
  co_succeeded : succeeded (tally c) + Z.of_nat (occurs Succeeded (threads c)) = Z.of_nat (occurs Succeeded (programs (begun c)));
  co_retried : retried (tally c) + Z.of_nat (occurs Retried (threads c)) = Z.of_nat (occurs Retried (programs (begun c)));
  co_dead : deadLettered (tally c) + Z.of_nat (occurs DeadLettered (threads c)) = Z.of_nat (occurs DeadLettered (programs (begun c)));
  co_settled : settled (tally c) + Z.of_nat (occurs Settled (threads c)) = Z.of_nat (occurs Settled (programs (begun c)));
  co_sign : 0 ≤ succeeded (tally c) ∧ 0 ≤ retried (tally c) ∧ 0 ≤ deadLettered (tally c) ∧ 0 ≤ settled (tally c);
  co_once : once (tally c) = finished (tally c);
  co_close : totalJobs ≤ settled (tally c) ↔ finished (tally c) = true ∨ (0 < occurs CloseOnce (threads c))%nat
}.
End crew.

(** What a clean run executes: each job once, but the charges three times. *)
Definition expected_runs : list (string * Z) :=
  '(i) ← seq 0 (Z.to_nat totalJobs);
  (λ a, (job_type i, a)) <$> (if String.eqb (job_type i) "charge:card" then [1; 2; 3] else [1]).

(** ** Lemmas: the goroutines *)

Definition cnt (a : act) (p : list act) : nat := length (filter (λ a', a' = a) p).

Lemma occurs_app a l1 l2 : occurs a (l1 ++ l2) = (occurs a l1 + occurs a l2)%nat.
Proof. unfold occurs. by rewrite concat_app, filter_app, length_app. Qed.

Lemma occurs_one a p : occurs a [p] = cnt a p.
Proof. unfold occurs, cnt. cbn. by rewrite app_nil_r. Qed.

Lemma occurs_insert a l i old new :
  l !! i = Some old → (occurs a (<[i := new]> l) + cnt a old = occurs a l + cnt a new)%nat.
Proof.
  intros Hi. pose proof (take_drop_middle l i old Hi) as Hl. assert (i < length l)%nat by (by eapply lookup_lt_Some).
  rewrite insert_take_drop by done. rewrite <- Hl at 3. rewrite !(cons_middle _ (take i l)), !occurs_app, !occurs_one. lia.
Qed.

Lemma occurs_fresh a (ctx_err : error) rs r :
  occurs a (programs ctx_err (rs ++ [r])) = (occurs a (programs ctx_err rs) + cnt a (process ctx_err r.1 r.2).1)%nat.
Proof. unfold programs. rewrite fmap_app, occurs_app. cbn [fmap list_fmap]. by rewrite occurs_one. Qed.

(** The programs of handlers. *)
Lemma process_spec ctx_err cancelled j :
  process ctx_err cancelled j =
    if String.eqb (Type_ j) "resize:image" then resize_image ctx_err cancelled j
    else if String.eqb (Type_ j) "charge:card" then charge_card cancelled j
    else if String.eqb (Type_ j) "parse:garbage" then parse_garbage cancelled j
    else ([], Some (Errorf "%w for task type %q" [Type_ j] [Sentinel ErrNoHandler])).
Proof.
  unfold process, Mux_ProcessTask.
  change (handlers (demo_mux ctx_err)) with
    (<["parse:garbage" := parse_garbage]> (<["charge:card" := charge_card]> (<["resize:image" := resize_image ctx_err]> ∅)) : gmap string handler).
  destruct (String.eqb_spec (Type_ j) "resize:image") as [->|H1]; [done|].
  destruct (String.eqb_spec (Type_ j) "charge:card") as [->|H2]; [done|].
  destruct (String.eqb_spec (Type_ j) "parse:garbage") as [->|H3]; [done|].
  by rewrite !lookup_insert_ne by done.
Qed.

Lemma process_cnt ctx_err cancelled j a :
  (cnt a (process ctx_err cancelled j).1 ≤ 1)%nat ∧ cnt CloseOnce (process ctx_err cancelled j).1 = 0%nat.
Proof.
  rewrite process_spec. unfold resize_image, charge_card, parse_garbage.
  repeat case_match; by destruct a; vm_compute; auto with lia.
Qed.

Lemma programs_cnt ctx_err rs a :
  (occurs a (programs ctx_err rs) ≤ length rs)%nat ∧ occurs CloseOnce (programs ctx_err rs) = 0%nat.
Proof.
  induction rs as [|[c j] rs [IH1 IH2]] using rev_ind; [done|]. rewrite !occurs_fresh, length_app. cbn [fst snd length].
  destruct (process_cnt ctx_err c j a). lia.
Qed.

(** The number of runs fits a counter. *)
Definition countable_runs (c : crew) : Prop := Z.of_nat (length (begun c)) < 2 ^ 63 - 1.

(** Counts in a program of one action, or of none, are numbers. *)
Ltac eval_counts :=
  repeat match goal with
  | H : context [cnt ?x [?y]] |- _ => let v := eval vm_compute in (cnt x [y]) in change (cnt x [y]) with v in H
  | H : context [cnt ?x []] |- _ => change (cnt x []) with 0%nat in H
  end.
Ltac crew_fields := cbn [tally threads begun succeeded retried deadLettered settled once finished].

Section crew_lemmas.
Context (ctx_err : error).

(** An action of a goroutine, seen in the counts. *)
Lemma crew_act c i a rest o next :
  countable_runs c → crew_ok ctx_err c → threads c !! i = Some (a :: rest) → perform a (tally c) = Done (o, next) →
  crew_ok ctx_err (mkCrew o (<[i := next ++ rest]> (threads c)) (begun c)).
Proof.
  intros Hb [Hs Hr Hd Hn (P1 & P2 & P3 & P4) Ho Hc] Hi Hp.
  assert (∀ a', (occurs a' (<[i := next ++ rest]> (threads c)) + cnt a' [a] = occurs a' (threads c) + cnt a' next)%nat) as Hocc.
  { intros a'. pose proof (occurs_insert a' _ _ _ (next ++ rest) Hi) as HI. unfold cnt in *. rewrite filter_app, length_app in HI.
    change (a :: rest) with ([a] ++ rest) in HI. rewrite filter_app, length_app in HI. lia. }
  pose proof (Hocc Succeeded) as O1. pose proof (Hocc Retried) as O2. pose proof (Hocc DeadLettered) as O3.
  pose proof (Hocc Settled) as O4. pose proof (Hocc CloseOnce) as O5.
  assert (∀ a', Z.of_nat (occurs a' (programs ctx_err (begun c))) < 2 ^ 63 - 1) as Hlt.
  { intros a'. unfold countable_runs in Hb. pose proof (proj1 (programs_cnt ctx_err (begun c) a')). lia. }
  pose proof (Hlt Succeeded) as L1. pose proof (Hlt Retried) as L2. pose proof (Hlt DeadLettered) as L3. pose proof (Hlt Settled) as L4.
  assert (∀ z, 0 ≤ z < 2 ^ 63 - 1 → wrap64 (z + 1) = z + 1) as Hw by (intros z ?; apply wrap64_id; unfold int64_range; lia).
  clear Hlt Hocc. unfold perform in Hp. destruct a; [injection Hp as <- <-..| |].
  - rewrite (Hw (succeeded (tally c))) by lia. eval_counts. constructor; crew_fields; try done; try lia.
    rewrite Hc. split; intros [?|?]; auto with lia.
  - rewrite (Hw (retried (tally c))) by lia. eval_counts. constructor; crew_fields; try done; try lia.
    rewrite Hc. split; intros [?|?]; auto with lia.
  - rewrite (Hw (deadLettered (tally c))) by lia. eval_counts. constructor; crew_fields; try done; try lia.
    rewrite Hc. split; intros [?|?]; auto with lia.
  - rewrite (Hw (settled (tally c))) in Hp by (eval_counts; lia). cbv zeta in Hp. case_bool_decide as Ht; injection Hp as <- <-; eval_counts;
      constructor; crew_fields; try done; try lia.
    split; [lia|]. intros [Hf|Hf]; [|lia]. pose proof (proj2 Hc (or_introl Hf)). lia.
  - destruct (once (tally c)) eqn:Hon; [injection Hp as <- <-|rewrite <- Ho in Hp; injection Hp as <- <-]; eval_counts;
      constructor; crew_fields; try done; try lia.
    + rewrite Hon. done.
    + rewrite <- Ho. split; [by left|]. intros _. apply Hc. by left.
Qed.

Lemma crew_begin c cancelled j :
  crew_ok ctx_err c →
  crew_ok ctx_err (mkCrew (tally c) (threads c ++ [(process ctx_err cancelled j).1]) (begun c ++ [(cancelled, j)])).
Proof.
  intros [Hs Hr Hd Hn HP Ho Hc]. destruct (process_cnt ctx_err cancelled j Settled) as [_ Hz].
  constructor; crew_fields; rewrite ?occurs_fresh, ?occurs_app, ?occurs_one; cbn [fst snd]; try done; try lia.
  rewrite Hc, Hz, Nat.add_0_r. done.
Qed.

Lemma crew_reachable c : rtc (tstep ctx_err) crew_start c → countable_runs c → crew_ok ctx_err c.
Proof.
  intros Hr. revert c Hr. apply (rtc_ind_r (λ c, countable_runs c → crew_ok ctx_err c)).
  { intros _. constructor; try done. split; [done|]. intros [?|Hlt]; [done|]. by apply Nat.lt_irrefl in Hlt. }
  intros c c' _ Hstep IH Hb. destruct Hstep as [cancelled j|i a rest o next Hi Hp].
  - apply crew_begin, IH. unfold countable_runs in *. cbn in Hb. rewrite length_app in Hb. lia.
  - eapply crew_act; [done|by apply IH|done|done].
Qed.
End crew_lemmas.

(** ** Lemmas: the workload *)

(** What a run does that is not cancelled depends on its type and attempt only. *)
Definition program_of (r : string * Z) : list act :=
  if String.eqb r.1 "resize:image" then [Succeeded; Settled]
  else if String.eqb r.1 "charge:card" then (if bool_decide (r.2 < 3) then [Retried] else [Succeeded; Settled])
  else if String.eqb r.1 "parse:garbage" then [DeadLettered; Settled]
  else [].

Lemma programs_of ctx_err rs :
  (∀ r, r ∈ rs → r.1 = false) → programs ctx_err rs = program_of <$> ((λ r, (Type_ r.2, Attempt r.2)) <$> rs).
Proof.
  intros Hc. unfold programs. rewrite <- list_fmap_compose. apply list_fmap_ext. intros i [cancelled j] Hi.
  apply list_elem_of_lookup_2, Hc in Hi. cbn in Hi. subst cancelled. unfold compose. cbn [fst snd]. rewrite process_spec.
  unfold program_of, resize_image, charge_card, parse_garbage. cbn [fst snd]. by repeat case_match.
Qed.

Lemma occurs_perm a l l' : l ≡ₚ l' → occurs a l = occurs a l'.
Proof.
  intros HP. unfold occurs. apply Permutation_length.
  induction HP as [|x l l' _ IH|x y l|l1 l2 l3 _ IH1 _ IH2]; [done| | |by etrans].
  - cbn. rewrite !filter_app. by rewrite IH.
  - cbn. rewrite !filter_app, !(assoc (++)). by rewrite (comm (++) (filter _ y)).
Qed.

(** One job of the workload, on a broker that keeps its promises. *)
Definition job_queue (i : nat) : string := if String.eqb (job_type i) "charge:card" then "critical" else DefaultQueue.
Definition job_budget (i : nat) : Z := if String.eqb (job_type i) "charge:card" then 5 else DefaultMaxAttempts.

Section workload.
Context {S : Type} `{BrokerLaws S} (Marshal : string * nat → res (list byte)).
Implicit Types s : S.

(** The [k]-th job waits in its queue. *)
Definition waits (ids : nat → string) s (k : nat) : Prop :=
  ∃ j, job_at s (ids k) = Some j ∧ Type_ j = job_type k ∧ Queue j = job_queue k ∧ MaxAttempts j = job_budget k ∧
    State_ j = StatePending.

Lemma enqueue_one ids clk k s s' jr :
  law_inv s → job_at s (ids k) = None → ids k ≠ "" → clock_ok (clk k) →
  EnqueueTask Marshal (NewClient []) (ids k) (clk k) (job_type k) (Some (job_payload k)) (job_options k) s = (s', Ok jr) →
  law_inv s' ∧ waits ids s' k ∧ ∀ id, id ≠ ids k → job_at s' id = job_at s id.
Proof.
  intros Hinv Hfresh Hne Hclk. unfold EnqueueTask, NewTask.
  assert (String.eqb (job_type k) "" = false) as -> by (unfold job_type; by repeat case_match).
  destruct (Marshal (job_payload k)) as [p|e]; [|done]. intros HE.
  set (j := build_job (NewClient []) (clk k) (mkTask (job_type k) (Some p)) (job_options k)).
  assert (ID j = "" ∧ Type_ j = job_type k ∧ Queue j = job_queue k ∧ MaxAttempts j = job_budget k ∧ RunAt j = zeroTime) as (E1 & E2 & E3 & E4 & E5).
  { unfold j, job_queue, job_budget, build_job, job_options, job_type. generalize (k mod 10)%nat as m.
    intros m. do 8 (destruct m as [|m]; [done|]). done. }
  assert (assigned_id (ids k) j = ids k) as Hid by (unfold assigned_id; by rewrite E1).
  pose proof (Client_Enqueue_lawful (NewClient []) (ids k) (clk k) (mkTask (job_type k) (Some p)) (job_options k) s) as HL.
  cbv zeta in HL. fold j in HL. rewrite Hid, HE in HL.
  assert (0 < job_budget k ≤ 2 ^ 53) as Hbud by (unfold job_budget; destruct (String.eqb _ _); unfold DefaultMaxAttempts; lia).
  destruct HL as (Hinv' & (Q & T & _) & Hid' & _ & _ & js & Hjs & (Q' & T' & _) & _ & M & M' & Hst & _ & Hoth); try done.
  { split; [rewrite E4; apply Hbud|by left]. }
  rewrite Hid' in *. split_and!; [done| |done]. exists js. rewrite E4, bool_decide_eq_false_2 in M by lia.
  split_and!; [done|congruence|congruence|congruence|].
  destruct Hst as [?|[_ Hlt]]; [done|]. rewrite E5 in Hlt. destruct Hclk as [Hms _]. unfold zeroTime, Second, Millisecond in *. lia.
Qed.

Lemma enqueue_loop_lawful ids clk n i s s' :
  law_inv s → (∀ k, ids k ≠ "" ∧ clock_ok (clk k)) → (∀ k k', ids k = ids k' → k = k') →
  (∀ k, (i ≤ k < i + n)%nat → job_at s (ids k) = None) → enqueue_loop Marshal ids clk i n s = (s', None) →
  law_inv s' ∧ (∀ k, (i ≤ k < i + n)%nat → waits ids s' k) ∧
  ∀ id, (∀ k, (i ≤ k < i + n)%nat → id ≠ ids k) → job_at s' id = job_at s id.
Proof.
  intros Hinv Hids Hinj. revert i s Hinv. induction n as [|n IH]; intros i s Hinv Hfresh; cbn [enqueue_loop].
  { intros [= <-]. split_and!; [done|intros; lia|done]. }
  destruct (EnqueueTask _ _ _ _ _ _ _ _) as [s1 [jr|e]] eqn:HE; [|done]. intros Hrest. destruct (Hids i) as [Hne Hclk].
  destruct (enqueue_one ids clk i s s1 jr Hinv (Hfresh i ltac:(lia)) Hne Hclk HE) as (Hinv1 & Hw1 & Hoth1).
  apply IH in Hrest as (Hinv' & Hw & Hoth); [|done|].
  - split_and!; [done| |].
    + intros k Hk. destruct (decide (k = i)) as [->|Hki]; [|apply Hw; lia]. destruct Hw1 as (j & Hj & ?). exists j. split; [|done].
      rewrite Hoth; [done|]. intros k Hk' Heq%Hinj. lia.
    + intros id Hid. rewrite Hoth by (intros k ?; apply Hid; lia). apply Hoth1, Hid. lia.
  - intros k Hk. rewrite Hoth1; [apply Hfresh; lia|]. intros ?%Hinj. lia.
Qed.
End workload.

(** ** Properties *)

(** C31: the outcomes are counted exactly and the end is signalled once. However the goroutines
    of the handlers are interleaved, none of them panics, because the channel is closed at
    most once, and never before sixty jobs have settled; when they have all returned, it is
    closed exactly if sixty have; and if the runs were those of a clean pass over the
    workload, the summary shows 54 successes, 6 dead letters and 12 retries. *)
Theorem outcomes_exact ctx_err c :
  rtc (tstep ctx_err) crew_start c → countable_runs c →
  ¬ panics c ∧ (finished (tally c) = true → totalJobs ≤ settled (tally c)) ∧
  (Forall (λ p, p = []) (threads c) →
     (finished (tally c) = true ↔ totalJobs ≤ settled (tally c)) ∧
     ((∀ r, r ∈ begun c → r.1 = false) → ((λ r, (Type_ r.2, Attempt r.2)) <$> begun c) ≡ₚ expected_runs →
        tally c = mkOutcomes 54 12 6 60 true true)).
Proof.
  intros Hr Hb. destruct (crew_reachable ctx_err c Hr Hb) as [Hs Hrt Hd Hn _ Ho Hc]. split_and!.
  - intros (i & a & rest & msg & _ & Hp). unfold perform in Hp. destruct a; try done. rewrite Ho in Hp. by destruct (finished (tally c)).
  - intros Hf. apply Hc. by left.
  - intros Hall. assert (∀ a, occurs a (threads c) = 0%nat) as Hz.
    { intros a. unfold occurs. assert (concat (threads c) = []) as ->; [|done]. clear -Hall. by induction Hall as [|p l -> _ IH]. }
    rewrite Hz in Hs, Hrt, Hd, Hn, Hc. assert (finished (tally c) = true ↔ totalJobs ≤ settled (tally c)) as Hfin.
    { rewrite Hc. split; [by left|]. by intros [?|Hlt%Nat.lt_irrefl]. }
    split; [done|]. intros Hrun HP.
    assert (∀ a, occurs a (programs ctx_err (begun c)) = occurs a (program_of <$> expected_runs)) as Hocc.
    { intros a. rewrite programs_of by done. apply occurs_perm. by rewrite HP. }
    rewrite Hocc in Hs, Hrt, Hd, Hn.
    change (occurs Succeeded (program_of <$> expected_runs)) with 54%nat in Hs.
    change (occurs Retried (program_of <$> expected_runs)) with 12%nat in Hrt.
    change (occurs DeadLettered (program_of <$> expected_runs)) with 6%nat in Hd.
    change (occurs Settled (program_of <$> expected_runs)) with 60%nat in Hn.
    assert (finished (tally c) = true) as Hf by (apply Hfin; unfold totalJobs; lia). rewrite Hf in Ho.
    destruct (tally c) as [x1 x2 x3 x4 x5 x6]. cbn in *. f_equal; try lia; done.
Qed.

(** The workload is what the demonstration means it to be, on every broker that keeps its
    promises: if enqueueAll returns without an error, sixty jobs wait, every tenth a charge
    in the critical queue with five attempts, every tenth garbage and the others images, in
    the default queue with the default budget, and no other job of the broker changed. *)
Theorem workload_enqueued {S} `{BrokerLaws S} Marshal ids clk (s s' : S) :
  law_inv s → (∀ k, ids k ≠ "" ∧ clock_ok (clk k)) → (∀ k k', ids k = ids k' → k = k') →
  (∀ k, (k < Z.to_nat totalJobs)%nat → job_at s (ids k) = None) → enqueueAll Marshal ids clk s = (s', None) →
  law_inv s' ∧
  (∀ k, (k < Z.to_nat totalJobs)%nat → ∃ j, job_at s' (ids k) = Some j ∧ Type_ j = job_type k ∧ Queue j = job_queue k ∧
     MaxAttempts j = job_budget k ∧ State_ j = StatePending) ∧
  (∀ id, (∀ k, (k < Z.to_nat totalJobs)%nat → id ≠ ids k) → job_at s' id = job_at s id) ∧
  length (filter (λ k, job_type k = "charge:card") (seq 0 (Z.to_nat totalJobs))) = 6%nat ∧
  length (filter (λ k, job_type k = "parse:garbage") (seq 0 (Z.to_nat totalJobs))) = 6%nat.
Proof.
  intros Hinv Hids Hinj Hfresh HE.
  destruct (enqueue_loop_lawful Marshal ids clk (Z.to_nat totalJobs) 0 s s') as (Hinv' & Hw & Hoth); try done.
  - intros k Hk. apply Hfresh. lia.
  - split_and!; [done|intros k Hk; apply Hw; lia|intros id Hid; apply Hoth; intros k Hk; apply Hid; lia|by vm_compute|by vm_compute].
Qed.

(** ** Witnesses *)

(** One goroutine after the other, to its end. *)
Fixpoint drive (fuel i : nat) (c : crew) : crew :=
  match fuel, threads c !! i with
  | S fuel, Some (a :: rest) =>
      match perform a (tally c) with
      | Done (o, next) => drive fuel i (mkCrew o (<[i := next ++ rest]> (threads c)) (begun c))
      | Panic _ => c
      end
  | _, _ => c
  end.
Definition run_one (ctx_err : error) (c : crew) (r : bool * Job) : crew :=
  drive 5 (length (threads c)) (mkCrew (tally c) (threads c ++ [(process ctx_err r.1 r.2).1]) (begun c ++ [r])).
Definition clean_runs : list (bool * Job) :=
  (λ r, (false, mkJob "x" "default" r.1 None r.2 25 0 StateActive "w" "" 0 "" 0 zeroTime 0 0)) <$> expected_runs.
Definition ctx_err : error := errors_New "context canceled".
Definition clean_crew : crew := foldl (run_one ctx_err) crew_start clean_runs.

Lemma drive_steps e fuel i c : rtc (tstep e) c (drive fuel i c).
Proof.
  revert c. induction fuel as [|fuel IH]; intros c; [apply rtc_refl|]. cbn [drive].
  destruct (threads c !! i) as [[|a rest]|] eqn:Hi; [apply rtc_refl| |apply rtc_refl].
  destruct (perform a (tally c)) as [[o next]|msg] eqn:Hp; [|apply rtc_refl]. eapply rtc_l; [by eapply t_act|apply IH].
Qed.

Lemma clean_reachable : rtc (tstep ctx_err) crew_start clean_crew.
Proof.
  unfold clean_crew. generalize crew_start as c. induction clean_runs as [|[b j] rs IH]; intros c; [apply rtc_refl|]. cbn [foldl].
  etrans; [|apply IH]. eapply rtc_l; [apply (t_begin _ c b j)|apply drive_steps].
Qed.

Lemma outcomes_exact_witness : ¬ panics clean_crew ∧ tally clean_crew = mkOutcomes 54 12 6 60 true true.
Proof.
  assert (threads clean_crew = replicate 72 []) as HT by (vm_compute; reflexivity).
  assert (begun clean_crew = clean_runs) as HB by (vm_compute; reflexivity).
  assert (countable_runs clean_crew) as HC by (unfold countable_runs; rewrite HB; vm_compute; reflexivity).
  destruct (outcomes_exact ctx_err clean_crew clean_reachable HC) as (HP & _ & HF). refine (conj HP _).
  refine (proj2 (HF _) _ _).
  - rewrite HT. apply Forall_replicate. reflexivity.
  - rewrite HB. intros r Hr. apply list_elem_of_fmap in Hr as (x & -> & _). reflexivity.
  - rewrite HB. unfold clean_runs. rewrite <- list_fmap_compose.
    assert (((λ r : bool * Job, (Type_ r.2, Attempt r.2)) ∘ (λ r : string * Z, (false, mkJob "x" "default" r.1 None r.2 25 0 StateActive "w" "" 0 "" 0 zeroTime 0 0))) <$> expected_runs
      = expected_runs) as -> by (vm_compute; reflexivity). reflexivity.
Defined.

Definition demo_ids (k : nat) : string := "job-" +:+ pretty k.
Definition demo_marshal (p : string * nat) : res (list byte) := Ok [].

Lemma workload_enqueued_witness :
  let s' := (enqueueAll demo_marshal demo_ids (λ _, 5000000) New).1 in
  ∃ j, job_at s' (demo_ids 17) = Some j ∧ Type_ j = "charge:card" ∧ Queue j = "critical" ∧ MaxAttempts j = 5.
Proof.
  intros s'. assert ((enqueueAll demo_marshal demo_ids (λ _, 5000000) New).2 = None) as HE by (vm_compute; reflexivity).
  assert (enqueueAll demo_marshal demo_ids (λ _, 5000000) New = (s', None)) as HE'
    by (rewrite (surjective_pairing (enqueueAll demo_marshal demo_ids (λ _, 5000000) New)), HE; reflexivity).
  assert (law_inv New) as HI by (split; [apply WF_New|reflexivity]).
  destruct (workload_enqueued demo_marshal demo_ids (λ _, 5000000) New s' HI) as (_ & HW & _).
  - intros k. split; [discriminate|]. split; [vm_compute; discriminate|vm_compute; reflexivity].
  - intros k k' Hk. apply (inj (String.append "job-")) in Hk. exact (inj pretty _ _ Hk).
  - intros k _. reflexivity.
  - exact HE'.
  - destruct (HW 17%nat) as (j & Hj & HT & HQ & HM & _); [vm_compute; lia|].
    exists j. exact (conj Hj (conj HT (conj HQ HM))).
Defined.
