(* ===== verification/WorkerRun.v ===== *)
(** * The worker demonstration as a whole (examples/worker)

    [run] of examples/worker: the configured worker as a process (Runtime.v), its
    handlers as goroutines that count outcomes (WorkerDemo.v), the goroutine that
    cancels Run when all jobs have settled, and the operating system's signals, which
    may come at any moment. The broker is any that has the three interfaces; the clock,
    the identifiers and the encoder of payloads are parameters. *)
From Stdlib Require Import Strings.Byte.
From S2P Require Import Prelude GoBase Job Backoff Queues Interface BrokerAPI Memory MemoryInv MemoryBroker Client Calendar Schedule CronParse Server Worker Maintenance Scheduler Runtime Demo WorkerDemo.

(** ** State *)

(** [thread_of] is, for a run whose handler is past its wait, its goroutine among the
    [threads] of the crew; [signalled] is whether a signal has come. *)
Record show (S : Type) := mkShow {
  proc : Process S;
  hands : crew;
  thread_of : gmap nat nat;
  signalled : bool
}.
Arguments mkShow {S}.
Arguments proc {S}.
Arguments hands {S}.
Arguments thread_of {S}.
Arguments signalled {S}.

Section show.
Context {S : Type} `{BrokerOps S} `{MaintenanceOps S} `{CronOps S}.
Context (Error_ : error → string) (srv : Server) (ctx_err : error).
Implicit Types x : show S.

Definition show_start (p : Process S) : show S := mkShow p crew_start ∅ false.
Definition with_proc (p : Process S) x : show S := mkShow p (hands x) (thread_of x) (signalled x).

(** [cancelRun()], and a signal, whose context is the parent of the one of Run. *)
Definition cancelRun x : show S := with_proc (set_ctx true (maint_done (proc x)) (proc x)) x.
Definition signal x : show S := mkShow (proc (cancelRun x)) (hands x) (thread_of x) true.

(** ** The transition system *)

(** An action of the process other than a report; a handler's wait that ends, because its time
    is over or its context cancelled; an action of a handler; its return and the report; the
    goroutine that waits for the channel; a signal. *)
Inductive sstep x : show S → Prop :=
| s_proc p :
    pstep Error_ srv (λ _ _, False) (proc x) p → ctx_done p = ctx_done (proc x) →
    (∀ k j, runs (worker (proc x)) !! k = Some (j, Running) → runs (worker p) !! k = Some (j, Running)) →
    sstep x (with_proc p x)
| s_begin k j c :
    runs (worker (proc x)) !! k = Some (j, Running) → thread_of x !! k = None →
    (c = true → k ∈ cancelled (worker (proc x))) →
    sstep x (mkShow (proc x)
      (mkCrew (tally (hands x)) (threads (hands x) ++ [(process ctx_err c j).1]) (begun (hands x) ++ [(c, j)]))
      (<[k := length (threads (hands x))]> (thread_of x)) (signalled x))
| s_act i a rest o next :
    threads (hands x) !! i = Some (a :: rest) → perform a (tally (hands x)) = Done (o, next) →
    sstep x (mkShow (proc x) (mkCrew o (<[i := next ++ rest]> (threads (hands x))) (begun (hands x))) (thread_of x) (signalled x))
| s_return k j i c now :
    runs (worker (proc x)) !! k = Some (j, Running) → thread_of x !! k = Some i →
    threads (hands x) !! i = Some [] → begun (hands x) !! i = Some (c, j) →
    sstep x (mkShow (set_worker (run_report Error_ srv k j (Done (process ctx_err c j).2) now (worker (proc x))) (proc x))
      (hands x) (delete k (thread_of x)) (signalled x))
| s_settled : finished (tally (hands x)) = true → sstep x (cancelRun x)
| s_signal : sstep x (signal x).

(** ** The invariant *)

(** A goroutine that has something left to do belongs to a run whose handler has not returned;
    Run is cancelled only by a signal or by the end of the workload. *)
Record show_ok x : Prop := mkShowOk {
  so_live : ∀ i p, threads (hands x) !! i = Some p → p = [] ∨ ∃ k, thread_of x !! k = Some i;
  so_tied : ∀ k i, thread_of x !! k = Some i →
    ∃ c j, begun (hands x) !! i = Some (c, j) ∧ runs (worker (proc x)) !! k = Some (j, Running);
  so_length : length (threads (hands x)) = length (begun (hands x));
  so_cancel : ctx_done (proc x) = true → signalled x = true ∨ finished (tally (hands x)) = true;
  so_once : once (tally (hands x)) = finished (tally (hands x))
}.
End show.

(** ** The program *)

Section program.
Context {S : Type} `{BrokerOps S} `{MaintenanceOps S} `{CronOps S}.
Context (ParseDuration : string → res Z) (global : randFunc) (Error_ : error → string) (ctx_err : error).
Context (Marshal : string * nat → res (list byte)) (Duration_String : Z → string).
Context (caps : capabilities) (hostname : option string) (pid : Z) (NewID describe : string).
Context (ids : nat → string) (clk : nat → Z).

(** [run] after openBroker: what it prints, without the line of the goroutine that cancels,
    and what it returns. *)
Inductive demo_runs (s : S) : list line → option error → Prop :=
| runs_refused err :
    NewServer ParseDuration global (Some caps) (demo_config global) hostname pid NewID = Err err →
    demo_runs s [("broker: %s", [describe])] (Some err)
| runs_short srv s' err :
    NewServer ParseDuration global (Some caps) (demo_config global) hostname pid NewID = Ok srv →
    enqueueAll Marshal ids clk s = (s', Some err) →
    demo_runs s [("broker: %s", [describe])] (Some err)
| runs_through srv s' now es p x elapsed runErr :
    NewServer ParseDuration global (Some caps) (demo_config global) hostname pid NewID = Ok srv →
    enqueueAll Marshal ids clk s = (s', None) → Run srv true now es s' = Ok p →
    rtc (sstep Error_ srv ctx_err) (show_start p) x → result (proc x) = Some runErr →
    demo_runs s
      ([("broker: %s", [describe]);
        ("running %d jobs across %d workers — press Ctrl-C to watch a graceful drain", [pretty totalJobs; pretty concurrency])] ++
       summary_lines Duration_String Error_ (tally (hands x)) elapsed runErr)
      None.
End program.

(** ** Lemmas *)

Section show_lemmas.
Context {S : Type} `{BrokerOps S} `{MaintenanceOps S} `{CronOps S}.
Context (Error_ : error → string) (srv : Server) (ctx_err : error).
Implicit Types x : show S.
Abbreviation steps := (rtc (sstep Error_ srv ctx_err)).

(** Its parts: the process and the crew. *)
Lemma sstep_parts x x' :
  sstep Error_ srv ctx_err x x' →
  rtc (pstep Error_ srv (λ _ _, False)) (proc x) (proc x') ∧ rtc (tstep ctx_err) (hands x) (hands x').
Proof.
  intros [p Hp _ _|k j c Hr Ht Hc|i a rest o next Hi Hp|k j i c now Hr Ht Hi Hb|Hf|]; split; try done; apply rtc_once; cbn.
  - done.
  - apply t_begin.
  - by eapply t_act.
  - apply p_job. by apply j_report.
  - apply p_cancel.
  - apply p_cancel.
Qed.
Lemma steps_parts x x' :
  steps x x' → rtc (pstep Error_ srv (λ _ _, False)) (proc x) (proc x') ∧ rtc (tstep ctx_err) (hands x) (hands x').
Proof.
  induction 1 as [|x y z Hxy _ [IHp IHt]]; [done|]. destruct (sstep_parts _ _ Hxy). split; by etrans.
Qed.

(** An action keeps the channel closed, and [once] in step with it. *)
Lemma perform_once a o o' next :
  perform a o = Done (o', next) → once o = finished o →
  once o' = finished o' ∧ (finished o = true → finished o' = true).
Proof.
  destruct a; cbn; try (intros [= <- _]; done). destruct (once o) eqn:Ho; [intros [= <- _]; by rewrite Ho|].
  destruct (finished o) eqn:Hf; [done|]. by intros [= <- _].
Qed.

Lemma show_ok_step x x' : show_ok x → sstep Error_ srv ctx_err x x' → show_ok x'.
Proof.
  intros [Hl Ht Hlen Hc Ho] [p Hp Hctx Hkeep|k j c Hr Hn _|i a rest o next Hi Hp|k j i c now Hr Hk Hi Hb|Hf|];
    constructor; cbn; try done.
  - intros k i Hk. destruct (Ht _ _ Hk) as (c & j & Hb & Hr). eauto 6.
  - by rewrite Hctx.
  - intros i p Hip. apply lookup_app_Some in Hip as [Hip|[Hge Hip]].
    + destruct (Hl _ _ Hip) as [->|[k' Hk']]; [by left|right]. exists k'. rewrite lookup_insert_ne by congruence. done.
    + apply list_lookup_singleton_Some in Hip as [Hz <-]. right. exists k. rewrite lookup_insert_eq. f_equal. lia.
  - intros k' i. rewrite lookup_insert_Some. intros [[<- <-]|[Hne Hk']].
    + exists c, j. split; [|done]. rewrite Hlen. by rewrite lookup_app_r, Nat.sub_diag by lia.
    + destruct (Ht _ _ Hk') as (c' & j' & Hb & Hr'). exists c', j'. split; [by apply lookup_app_l_Some|done].
  - rewrite !length_app. by rewrite Hlen.
  - intros i' p. destruct (decide (i' = i)) as [->|Hne].
    + intros _. destruct (Hl _ _ Hi) as [?|?]; [done|by right].
    + rewrite list_lookup_insert_ne by done. apply Hl.
  - by rewrite length_insert.
  - intros [?|Hf]%Hc; [by left|right]. by eapply perform_once.
  - by eapply perform_once.
  - intros i' p Hip. destruct (Hl _ _ Hip) as [->|[k' Hk']]; [by left|]. destruct (decide (k' = k)) as [->|Hne].
    + left. congruence.
    + right. exists k'. by rewrite lookup_delete_ne.
  - intros k' i'. rewrite lookup_delete_Some. intros [Hne Hk']. destruct (Ht _ _ Hk') as (c' & j' & Hb' & Hr').
    exists c', j'. split; [done|]. by rewrite lookup_insert_ne.
  - by right.
  - by left.
Qed.

Lemma show_ok_start p : ctx_done p = false → show_ok (show_start (S := S) p).
Proof. intros Hp. constructor; cbn; try done. by rewrite Hp. Qed.

Lemma Run_not_done h now es (s : S) p : Run srv h now es s = Ok p → ctx_done p = false ∧ result p = None.
Proof. unfold Run, startMaintenance. destruct h; [|done]. intros [= <-]. by destruct (srv_maint srv). Qed.

Lemma show_ok_steps x x' : show_ok x → steps x x' → show_ok x'.
Proof. intros Hok Hr. by apply (rtc_invariant _ _ _ _ show_ok_step Hr). Qed.

(** ** Lemmas: the way out *)

(** A handler comes to its end. *)
Definition act_weight (a : act) : nat := match a with Settled => 2 | _ => 1 end.
Definition weight (p : list act) : nat := sum_list (act_weight <$> p).

Lemma perform_next a o : once o = finished o → ∃ o' next, perform a o = Done (o', next) ∧ (weight next < act_weight a)%nat.
Proof.
  intros Ho. destruct a; cbn; try (eexists _, _; split; [reflexivity|cbn; lia]).
  - case_bool_decide; eexists _, _; (split; [reflexivity|cbn; lia]).
  - rewrite Ho. destruct (finished o); eexists _, _; (split; [reflexivity|cbn; lia]).
Qed.

Lemma thread_end x i p :
  show_ok x → threads (hands x) !! i = Some p →
  ∃ x', steps x x' ∧ proc x' = proc x ∧ thread_of x' = thread_of x ∧ begun (hands x') = begun (hands x) ∧
    threads (hands x') !! i = Some [].
Proof.
  remember (weight p) as n eqn:Hn. revert x p Hn. induction (lt_wf n) as [n _ IH]. intros x p Hn Hok Hi.
  destruct p as [|a rest]; [by exists x|]. destruct (perform_next a (tally (hands x)) (so_once _ Hok)) as (o & next & Hp & Hw).
  assert (sstep Error_ srv ctx_err x (mkShow (proc x) (mkCrew o (<[i := next ++ rest]> (threads (hands x))) (begun (hands x))) (thread_of x) (signalled x)))
    as Hs by (by eapply s_act).
  destruct (IH (weight (next ++ rest))) with (x := mkShow (proc x) (mkCrew o (<[i := next ++ rest]> (threads (hands x))) (begun (hands x))) (thread_of x) (signalled x)) (p := next ++ rest)
    as (x' & Hr & E1 & E2 & E3 & E4).
  - subst n. unfold weight in *. rewrite fmap_app, sum_list_with_app. cbn. lia.
  - done.
  - by eapply show_ok_step.
  - cbn. apply list_lookup_insert_eq. by eapply lookup_lt_Some.
  - exists x'. split_and!; [by eapply rtc_l|done..].
Qed.

(** What a continuation leaves alone, apart from the jobs. *)
Definition same_rest x x' : Prop :=
  ctx_done (proc x') = ctx_done (proc x) ∧ result (proc x') = result (proc x) ∧
  fetching (worker (proc x')) = fetching (worker (proc x)) ∧ stopping (worker (proc x')) = stopping (worker (proc x)).

(** The handler of a run returns, and its report is made. *)
Lemma run_over x k j :
  show_ok x → runs (worker (proc x)) !! k = Some (j, Running) →
  ∃ x' o now, steps x x' ∧ proc x' = set_worker (run_report Error_ srv k j o now (worker (proc x))) (proc x).
Proof.
  intros Hok Hr. assert (∃ x1 i, steps x x1 ∧ proc x1 = proc x ∧ thread_of x1 !! k = Some i) as (x1 & i & Hs1 & Hp1 & Hk1).
  { destruct (thread_of x !! k) as [i|] eqn:Hk; [by exists x, i|].
    eexists _, _. split; [by eapply rtc_once, (s_begin _ _ _ _ k j false)|]. split; [done|]. cbn. apply lookup_insert_eq. }
  assert (show_ok x1) as Hok1 by (by eapply show_ok_steps). destruct (so_tied _ Hok1 _ _ Hk1) as (c & j' & Hb & Hr').
  assert (j' = j) as -> by (rewrite Hp1 in Hr'; congruence).
  destruct (lookup_lt_is_Some_2 (threads (hands x1)) i) as [p Hi].
  { rewrite (so_length _ Hok1). by eapply lookup_lt_Some. }
  destruct (thread_end x1 i p Hok1 Hi) as (x2 & Hs2 & Hp2 & Ht2 & Hb2 & Hi2).
  eexists _, _, 0. split.
  - etrans; [exact Hs1|]. etrans; [exact Hs2|]. apply rtc_once. apply (s_return _ _ _ _ k j i c 0); [by rewrite Hp2|by rewrite Ht2|done|by rewrite Hb2].
  - cbn. by rewrite Hp2, Hp1.
Qed.

(** One of the live runs makes a step towards its end. *)
Lemma runs_progress x :
  show_ok x → runs (worker (proc x)) ≠ ∅ →
  ∃ x', steps x x' ∧ same_rest x x' ∧ rstep Error_ srv (worker (proc x)) (worker (proc x')).
Proof.
  intros Hok (k & [j ph] & Hk)%map_choose. destruct ph.
  - exists (with_proc (set_worker (run_start k j (worker (proc x))) (proc x)) x). split_and!; [|done|].
    + apply rtc_once, s_proc; [by apply p_job, j_start|done|]. intros k' j' Hk'. cbn. rewrite lookup_insert_ne by congruence. done.
    + exists k, j. by left.
  - destruct (run_over x k j Hok Hk) as (x' & o & now & Hs & Hp). exists x'. split_and!; [done|by unfold same_rest; rewrite Hp|].
    rewrite Hp. exists k, j. right. left. split; [done|]. by exists o, now.
  - exists (with_proc (set_worker (run_finish k j (worker (proc x))) (proc x)) x). split_and!; [|done|].
    + apply rtc_once, s_proc; [by apply p_job, j_finish|done|]. intros k' j' Hk'. cbn. rewrite lookup_delete_ne by congruence. done.
    + exists k, j. right. by right.
Qed.

Lemma all_over x :
  show_ok x → ∃ x', steps x x' ∧ same_rest x x' ∧ runs (worker (proc x')) = ∅.
Proof.
  remember (runs_left (worker (proc x))) as n eqn:Hn. revert x Hn. induction n as [|n IH]; intros x Hn Hok;
    (destruct (decide (runs (worker (proc x)) = ∅)) as [He|Hne]; [by exists x|]);
    destruct (runs_progress x Hok Hne) as (x1 & Hs1 & (E1 & E2 & E3 & E4) & Hr1); pose proof (rstep_left _ _ _ _ Hr1); [lia|].
  destruct (IH x1) as (x2 & Hs2 & (F1 & F2 & F3 & F4) & He); [lia|by eapply show_ok_steps|]. exists x2.
  split_and!; [by etrans| |done]. unfold same_rest. by rewrite F1, F2, F3, F4.
Qed.

(** Calm steps of the process are steps of the whole. *)
Lemma calm_steps p p' : rtc (calm Error_ srv (λ _ _, False)) p p' → ∀ x, proc x = p → steps x (with_proc p' x).
Proof.
  induction 1 as [p|p p1 p2 (Hp & Hc & Hsub) _ IH]; intros x Hx; [subst p; by destruct x|].
  eapply rtc_l; [|exact (IH (with_proc p1 x) eq_refl)]. apply s_proc; rewrite Hx; [done|done|].
  intros k j Hk. by apply (lookup_weaken _ _ _ _ Hk).
Qed.

(** From every state of the demonstration there is a continuation in which Run returns. *)
Lemma show_ends x :
  show_ok x → pok srv (proc x) → numbered (worker (proc x)) → (∃ d, is_Some (next d (srv_queues srv))) →
  ∃ x', steps x x' ∧ is_Some (result (proc x')).
Proof.
  intros Hok HP Hnum [d Hd]. destruct (result (proc x)) as [r|] eqn:Hres; [exists x; rewrite Hres; by eauto|].
  destruct (fetch_end Error_ srv (worker (proc x))) as (w1 & Hr1 & Hf1 & _); [exists d; by apply (pok_selector _ _ HP)|done|].
  apply (goes_worker Error_ srv (λ _ _, False) (proc (signal x)) _ eq_refl) in Hr1.
  pose proof (calm_steps _ _ Hr1 (signal x) eq_refl) as Hs1. set (x1 := with_proc _ (signal x)) in *.
  assert (steps x x1) as Hs by (eapply rtc_l; [apply s_signal|exact Hs1]).
  destruct (all_over x1) as (x2 & Hs2 & (E1 & E2 & E3 & E4) & He2); [by eapply show_ok_steps|].
  destruct (way_end Error_ srv (λ _ _, False) (proc x2)) as (p & Hg & Hp); [by rewrite E1|by rewrite E2|by rewrite E3|by left|].
  exists (with_proc p x2). split; [|cbn; rewrite Hp; by eauto]. etrans; [exact Hs|]. etrans; [exact Hs2|]. by apply (calm_steps _ _ Hg).
Qed.
End show_lemmas.

(** The configured worker has queues to ask. *)
Lemma NewServer_queues PD g caps cfg hostname pid NewID srv :
  NewServer PD g (Some caps) cfg hostname pid NewID = Ok srv →
  srv_queues srv = newQueueSelector (cfg_Queues cfg) (cfg_Weights cfg) (cfg_StrictPriority cfg).
Proof.
  unfold NewServer. destruct (bool_decide _); [done|]. destruct (check_queues _ _) as [seen|]; unfold mbind, result_bind; [|done].
  destruct (check_weights _ _); [done|]. destruct (compile_all _ _ _) as [es|]; [|done].
  destruct (_ && _); [done|]. destruct (_ && _); [done|]. by intros [= <-].
Qed.
Lemma demo_server_queues PD g caps hostname pid NewID srv :
  NewServer PD g (Some caps) (demo_config g) hostname pid NewID = Ok srv → ∃ d, is_Some (next d (srv_queues srv)).
Proof. intros ->%NewServer_queues. exists (λ _ _, 0). vm_compute. by eexists. Qed.

(** A handler settles a job when it counts it as succeeded or dead. *)
Lemma settles_once ctx_err rs :
  occurs Settled (programs ctx_err rs) = (occurs Succeeded (programs ctx_err rs) + occurs DeadLettered (programs ctx_err rs))%nat.
Proof.
  induction rs as [|[c j] rs IH] using rev_ind; [done|]. rewrite !occurs_fresh. cbn [fst snd].
  assert (cnt Settled (process ctx_err c j).1 =
    cnt Succeeded (process ctx_err c j).1 + cnt DeadLettered (process ctx_err c j).1)%nat; [|lia].
  rewrite process_spec. unfold resize_image, charge_card, parse_garbage. by repeat case_match.
Qed.

Lemma occurs_none a l : Forall (λ p, p = []) l → occurs a l = 0%nat.
Proof. intros HF. unfold occurs. assert (concat l = []) as ->; [|done]. by induction HF as [|p l -> _ IH]. Qed.

(** ** Property *)

(** C30: the worker demonstration ends, and only when it should. In every state it can reach, on
    whatever broker, there is a continuation in which Run returns; no handler panics; Run is
    cancelled only by a signal or once sixty jobs have settled; and when it has returned
    without an error, every handler has, the jobs counted as succeeded and as dead-lettered
    are the settled ones, and, unless a signal came, there are at least sixty. *)
Theorem demo_settles {S} `{BrokerOps S} `{MaintenanceOps S} `{CronOps S} PD g Error_ ctx_err caps hostname pid NewID srv now es
  (s : S) p x :
  NewServer PD g (Some caps) (demo_config g) hostname pid NewID = Ok srv → Run srv true now es s = Ok p →
  rtc (sstep Error_ srv ctx_err) (show_start p) x →
  (∃ x', rtc (sstep Error_ srv ctx_err) x x' ∧ is_Some (result (proc x'))) ∧
  (countable_runs (hands x) →
     ¬ panics (hands x) ∧
     (ctx_done (proc x) = true → signalled x = true ∨ totalJobs ≤ settled (tally (hands x))) ∧
     (result (proc x) = Some None →
        Forall (λ q, q = []) (threads (hands x)) ∧
        succeeded (tally (hands x)) + deadLettered (tally (hands x)) = settled (tally (hands x)) ∧
        (signalled x = false → totalJobs ≤ settled (tally (hands x))))).
Proof.
  intros HN Hrun Hr. destruct (steps_parts _ _ _ _ _ Hr) as [Hp Ht]. destruct (Run_not_done _ _ _ _ _ _ Hrun) as [Hc0 _].
  assert (show_ok x) as Hok by (eapply show_ok_steps; [by apply show_ok_start|exact Hr]).
  pose proof (pok_reachable _ _ _ _ _ _ _ _ _ Hrun Hp) as HP. split.
  { apply show_ends; [done|done|by eapply numbered_reachable|by eapply demo_server_queues]. }
  intros Hcount. destruct (crew_reachable _ _ Ht Hcount) as [Cs _ Cd Cn _ Co Cc].
  assert (ctx_done (proc x) = true → signalled x = true ∨ totalJobs ≤ settled (tally (hands x))) as Hcan.
  { intros [?|Hf]%(so_cancel _ Hok); [by left|right]. apply Cc. by left. }
  split_and!; [|done|].
  - intros (i & a & rest & msg & Hi & Hpf). destruct (perform_next a _ Co) as (? & ? & Hd & _). congruence.
  - intros Hres. destruct (pok_result _ _ HP _ Hres) as (Hst & _ & _).
    assert (runs (worker (proc x)) = ∅) as He by (by apply (pok_stop _ _ HP)).
    assert (Forall (λ q, q = []) (threads (hands x))) as HF.
    { apply Forall_lookup. intros i q Hi. destruct (so_live _ Hok _ _ Hi) as [?|[k Hk]]; [done|].
      destruct (so_tied _ Hok _ _ Hk) as (? & ? & _ & Hk'). by rewrite He, lookup_empty in Hk'. }
    rewrite (occurs_none Succeeded _ HF) in Cs. rewrite (occurs_none DeadLettered _ HF) in Cd. rewrite (occurs_none Settled _ HF) in Cn. split_and!; [done| |].
    + pose proof (settles_once ctx_err (begun (hands x))). lia.
    + intros Hsig. destruct Hcan as [?|?]; [|congruence|done]. apply (pok_fetch _ _ HP), (pok_stop _ _ HP). by rewrite Hst.
Qed.

(** ** Witness *)

Definition show_PD (s : string) : res Z := Ok 0.
Definition show_rand : randFunc := λ _, 0.

Lemma demo_settles_witness :
  ∃ srv p x, NewServer show_PD show_rand (Some (mkCapabilities true true)) (demo_config show_rand) None 1 "0123456789" = Ok srv ∧
    Run srv true 0 [] New = Ok p ∧
    rtc (sstep (λ _, "boom") srv (errors_New "context canceled")) (show_start p) x ∧ is_Some (result (proc x)).
Proof.
  assert (is_ok (NewServer show_PD show_rand (Some (mkCapabilities true true)) (demo_config show_rand) None 1 "0123456789") = true) as Hok
    by (vm_compute; reflexivity).
  destruct (NewServer show_PD show_rand (Some (mkCapabilities true true)) (demo_config show_rand) None 1 "0123456789") as [srv|e] eqn:HN;
    [|discriminate Hok].
  destruct (Run srv true 0 [] New) as [p|e] eqn:Hrun; [|discriminate Hrun].
  destruct (demo_settles show_PD show_rand (λ _, "boom") (errors_New "context canceled") _ _ _ _ srv 0 [] New p (show_start p)
    HN Hrun (rtc_refl _ _)) as [(x & Hx & Hres) _].
  exists srv, p, x. split; [reflexivity|]. split; [exact Hrun|]. split; [exact Hx|exact Hres].
Defined.
