(* ===== verification/EndToEnd.v ===== *)
(** * The worker and the scheduler on the in-memory broker

    The components together: what the loops of a worker achieve on a broker that
    is shared with others, and two corner cases in which they fall short. Also the
    concrete executions that instantiate the theorems of the client, the worker
    and the scheduler. *)
From S2P Require Import Prelude GoBase Job Backoff Queues Interface BrokerAPI Memory MemoryInv MemorySpec MemoryProps MemoryExclusion MemoryOps MemoryBroker Client Calendar Schedule CronParse Server Worker Maintenance Scheduler Runtime.

(** ** Definitions *)

(** The stored jobs of the worker's queues whose lease has expired. *)
Definition expired (srv : Server) (now : Z) (b : Broker) : gmap string Job :=
  filter (λ e, State_ e.2 = StateActive ∧ Deadline e.2 ≤ now ∧ Queue e.2 ∈ cfg_Queues (srv_cfg srv)) (jobs b).

(** What others may do to the broker: any of its operations. *)
Definition others (b b' : Broker) : Prop := ∃ now o, b' = exec now o b.

(** A worker with two slots, a lease of ten seconds, a daily schedule and one for
    each 29 February. *)
Definition daily : compiledEntry :=
  mkCompiledEntry (mkCronEntry "daily" "0 12 * * *" "report" None "mail" 3) demo_schedule.
Definition leap : compiledEntry :=
  mkCompiledEntry (mkCronEntry "leap" "0 0 29 2 *" "report" None "mail" 3)
    (mkSchedule 1 1 (2 ^ 29) 4 127 false true 0).
Definition demo_cfg : Config :=
  mkConfig ["mail"] None false 2 (10 * Second) (30 * Second) None "w" [].
Definition demo_srv : Server :=
  mkServer true true demo_cfg (λ _, 0) "host" (newQueueSelector ["mail"] None false)
    {["daily" := daily; "leap" := leap]}.

Definition demo_text (e : error) : string := "boom".
Definition demo_failure : may_panic (option error) := Done (Some (errors_New "boom")).

(** One job waits; the worker takes a slot, claims it and starts it. *)
Definition waiting : Broker := exec 100 (OpEnqueue "a" (Some (set_MaxAttempts 3 demo_job))) New.
Definition claim_at (now : Z) (w : Worker Broker) : Worker Broker :=
  default w (fetch_claim demo_srv low_draws now false (fetch_slot w)).
Definition claimed : Worker Broker := claim_at 2000110 (worker_start demo_srv waiting).
Definition running_job : Job := default demo_job (jobs (broker claimed) !! "a").
Definition started : Worker Broker := run_start 0 running_job claimed.

(** The attempt fails, is retried at once by this or another worker's promotion, and
    is claimed and started again before the first run has cleaned up. *)
Definition failed : Worker Broker := run_report demo_text demo_srv 0 running_job demo_failure 2000111 started.
Definition promoted : Worker Broker := set_broker (exec 2000112 (OpPromote 100) (broker failed)) failed.
Definition reclaimed : Worker Broker := claim_at 2000113 promoted.
Definition second_job : Job := default demo_job (jobs (broker reclaimed) !! "a").
Definition restarted : Worker Broker := run_start 1 second_job reclaimed.
Definition cleaned : Worker Broker := run_finish 0 running_job restarted.

(** ** Lemmas: the demonstration *)

Lemma demo_wstep_claim now (w : Worker Broker) :
  fetching w = AtSelect → Z.of_nat (slots w) < 2 →
  is_Some (fetch_claim demo_srv low_draws now false (fetch_slot w)) →
  rtc (wstep demo_text demo_srv others) w (claim_at now w).
Proof.
  intros Hf Hs [w' Hw']. unfold claim_at. rewrite Hw'. eapply rtc_l; [by apply step_slot|].
  apply rtc_once. by eapply step_claim.
Qed.

Lemma started_runs : runs started = {[0%nat := (running_job, Running)]}.
Proof. vm_compute. reflexivity. Qed.

Lemma started_reachable : rtc (wstep demo_text demo_srv others) (worker_start demo_srv waiting) started.
Proof.
  eapply rtc_r; [apply (demo_wstep_claim 2000110)|].
  - done.
  - done.
  - vm_compute. by eexists.
  - apply step_start. by vm_compute.
Qed.

Lemma cleaned_reachable : rtc (wstep demo_text demo_srv others) (worker_start demo_srv waiting) cleaned.
Proof.
  assert (runs started !! 0%nat = Some (running_job, Running)) as H1 by (by vm_compute).
  assert (runs reclaimed !! 1%nat = Some (second_job, Spawned)) as H2 by (by vm_compute).
  assert (runs restarted !! 0%nat = Some (running_job, Reported)) as H3 by (by vm_compute).
  assert (wstep demo_text demo_srv others started failed) as S1
    by exact (step_report _ _ _ started 0 running_job demo_failure 2000111 H1).
  assert (wstep demo_text demo_srv others failed promoted) as S2.
  { refine (step_env _ _ _ failed (exec 2000112 (OpPromote 100) (broker failed)) _). by exists 2000112, (OpPromote 100). }
  assert (rtc (wstep demo_text demo_srv others) promoted reclaimed) as S3.
  { apply (demo_wstep_claim 2000113); [done|done|]. vm_compute. by eexists. }
  assert (wstep demo_text demo_srv others reclaimed restarted) as S4
    by exact (step_start _ _ _ reclaimed 1 second_job H2).
  assert (wstep demo_text demo_srv others restarted cleaned) as S5
    by exact (step_finish _ _ _ restarted 0 running_job H3).
  etrans; [exact started_reachable|]. eapply rtc_l; [exact S1|]. eapply rtc_l; [exact S2|].
  etrans; [exact S3|]. eapply rtc_l; [exact S4|]. exact (rtc_once _ _ S5).
Qed.

(** ** Lemmas: recovery *)

(** A pass takes the whole batch, or all there is, out of the expired leases. *)
Lemma reap_pass_spec srv now b :
  WF b → closed b = false → cfg_Queues (srv_cfg srv) ≠ [] →
  let b' := (reap_pass srv now false b).1 in
  (∀ id, jobs b' !! id = jobs b !! id ∨
         (is_Some (expired srv now b !! id) ∧ jobs b' !! id = reaped <$> jobs b !! id)) ∧
  size (expired srv now b') = (size (expired srv now b) - Z.to_nat reapBatch)%nat.
Proof.
  intros Hwf Hop Hqs. unfold reap_pass. cbn [m_Reap memory_maintenance].
  destruct (Reap_spec b (cfg_Queues (srv_cfg srv)) reapBatch now Hwf Hop) as (cands & _ & Hnd & Hin & HR); [done|].
  destruct (Reap _ _ _ b) as [b' r]. destruct HR as (-> & Hjobs & _). cbn [fst].
  set (taken := (take (Z.to_nat reapBatch) cands).*1) in *.
  assert (∀ id, id ∈ cands.*1 ↔ is_Some (expired srv now b !! id)) as Hex.
  { intros id. unfold expired. rewrite list_elem_of_fmap. split.
    - intros ([id' d] & -> & (j & Hj & Hs & Hd & Hle & [|Hq])%Hin); [done|]. exists j. apply map_lookup_filter_Some. simpl.
      split_and!; try done. lia.
    - intros [j (Hj & Hs & Hle & Hq)%map_lookup_filter_Some]. exists (id, Deadline j). split; [done|].
      apply Hin. exists j. split_and!; try done. by right. }
  assert (∀ id, id ∈ taken → is_Some (expired srv now b !! id)) as Htaken.
  { intros id Hid. apply Hex. unfold taken in Hid. rewrite fmap_take in Hid. by apply subseteq_take in Hid. }
  split.
  { intros id. rewrite Hjobs. destruct (decide (id ∈ taken)); [right|by left]. split; [by apply Htaken|done]. }
  assert (expired srv now b' = filter (λ e, e.1 ∉ taken) (expired srv now b)) as ->.
  { apply map_eq. intros id. unfold expired. apply option_eq. intros j.
    rewrite !map_lookup_filter_Some, Hjobs. simpl. destruct (decide (id ∈ taken)) as [Hi|Hi]; [|naive_solver].
    split; [|naive_solver]. intros (Hj & Hs & _). apply fmap_Some in Hj as (j0 & _ & ->).
    exfalso. unfold reaped in Hs. by destruct (Exhausted _). }
  rewrite map_size_without.
  - assert (length cands = size (expired srv now b)) as <-.
    { rewrite <- length_map_to_list, <- (length_fmap fst cands), <- (length_fmap fst (map_to_list _)).
      apply NoDup_same_length; [done|apply NoDup_fst_map_to_list|]. intros id. rewrite Hex. split.
      - intros [j Hj]. apply list_elem_of_fmap. exists (id, j). split; [done|]. by apply elem_of_map_to_list.
      - intros ([id' j] & -> & Hj%elem_of_map_to_list)%list_elem_of_fmap. by eexists. }
    unfold taken. rewrite length_fmap, length_take. lia.
  - unfold taken. rewrite fmap_take. eapply sublist_NoDup; [exact Hnd|apply sublist_take].
  - done.
Qed.

(** ** Properties *)

(** A run can lose the renewal of its lease without losing the lease. A worker that is
    given a job again before the goroutine of its previous attempt has left, which a retry
    without delay allows, tracks the second run, and then the first removes it from the
    table with its own entry, because both are under the job's identifier. The second run
    holds the lease and its handler runs, but no renewal reaches it any more, its context
    can no longer be cancelled, and when the lease expires a sweep gives the job to others
    while the handler is still running. *)
Theorem overlapping_run_not_renewed :
  rtc (wstep demo_text demo_srv others) (worker_start demo_srv waiting) cleaned ∧
  runs cleaned !! 1%nat = Some (second_job, Running) ∧ ID second_job = "a" ∧
  holds job_at (broker cleaned) (cfg_WorkerID demo_cfg) "a" ∧ inFlight cleaned = ∅ ∧
  (∀ now, broker (renew_pass demo_srv now cleaned) = broker cleaned) ∧
  (State_ <$> jobs (reap_pass demo_srv (2000113 + 10 * Second) false (broker cleaned)).1 !! "a") = Some StatePending.
Proof.
  assert (inFlight cleaned = ∅) as He by (vm_compute; reflexivity).
  split_and!.
  - exact cleaned_reachable.
  - vm_compute. reflexivity.
  - vm_compute. reflexivity.
  - exists second_job. split_and!; vm_compute; reflexivity.
  - exact He.
  - exact (λ now, renew_pass_empty demo_srv now cleaned He).
  - vm_compute. reflexivity.
Qed.

(** C34: a tick becomes one job even if it is fired twice. Suppose a scheduler has enqueued
    the job of a due tick, and then died before it claimed the tick, or went on. Whatever
    happens on the broker during the next five minutes, a second scheduler that fires the
    same tick then adds no job: the stored jobs stay as they are, and it claims the tick
    if the first did not. *)
Theorem tick_enqueued_once srv ce d i t b tr i' base_now now :
  srv_entries srv !! due_ID d = Some ce → due_ID d ≠ "" → ce_Queue (entry ce) ≠ "" → ce_Type (entry ce) ≠ "" →
  (Enqueue i t (Some (cron_job ce d)) b).2 = None →
  Forall (λ e, e.1 < t + cronUniqueTTL) tr →
  let b' := run tr (Enqueue i t (Some (cron_job ce d)) b).1.1 in
  closed b' = false → now < t + cronUniqueTTL →
  let '(b'', r) := fire_one srv i' base_now now d b' in
  jobs b'' = jobs b' ∧ (∀ q, pend b'' q = pend b' q) ∧
  (r = Won → cron b' !! due_ID d = Some (due_FireAt d)) ∧
  (r = Won ∨ r = Lost ∨ (r = Never ∧ b'' = b')).
Proof.
  intros Hce Hid Hq Ht Hok Htr b' Hop Hnow. set (j := cron_job ce d) in *.
  assert (UniqueKey j ≠ "") as Hk by done.
  assert (unique b' !! UniqueKey j = Some (mkUniqueEntry (assigned_id i j) (t + cronUniqueTTL))) as Hu
    by (apply unique_held_run; [by apply Enqueue_takes_key|done]).
  unfold fire_one, fire_enqueue, fire_claim. rewrite Hce. fold j. cbv zeta. destruct (IsZero _).
  { split_and!; try done. right. by right. }
  set (n := Schedule.Next _ _). cbn [b_Enqueue memory_broker c_ClaimCron memory_cron].
  rewrite (Enqueue_refused i' now j b' _ Hu) by done. cbn [Is DuplicateError_Unwrap negb].
  rewrite bool_decide_eq_true_2 by done. cbn [negb].
  pose proof (memory_law_claim (due_ID d) (due_FireAt d) n b' Hop Hid eq_refl) as HL.
  assert (jobs (ClaimCron (due_ID d) (due_FireAt d) n b').1 = jobs b' ∧
          pending (ClaimCron (due_ID d) (due_FireAt d) n b').1 = pending b') as [Hj Hp].
  { unfold ClaimCron. by repeat case_match. }
  destruct (ClaimCron (due_ID d) (due_FireAt d) n b') as [b'' r]. simpl in Hj, Hp.
  assert (∀ q, pend b'' q = pend b' q) as Hpend by (intros q; unfold pend; by rewrite Hp).
  destruct (decide (cron b' !! due_ID d = Some (due_FireAt d))).
  - destruct HL as (-> & _). split_and!; try done. by left.
  - destruct HL as (-> & _). split_and!; try done. right. by left.
Qed.

(** The search limit of five years is shorter than the longest gap between two firings: a
    schedule for 29 February fires in 2092, but when the tick of 29 February 2096 is due,
    the next is eight years away, beyond the limit; the scheduler takes the schedule for
    one that can never fire, and drops the tick itself: no job is enqueued and the fire
    time stays where it is. *)
Theorem leap_day_dropped :
  let tick y := mkDueCronEntry "leap" (y * Second) in
  (* 29 February of 2092, 2096 and 2104, at midnight *)
  let y2092 := 3855081600 in let y2096 := 3981312000 in let y2104 := 4233686400 in
  fires_at (schedule leap) (y2096 * Second) = true ∧ fires_at (schedule leap) (y2104 * Second) = true ∧
  Schedule.Next (schedule leap) (y2092 * Second) = y2096 * Second ∧
  ∀ i now (b : Broker), fire_one demo_srv i (y2096 * Second) now (tick y2096) b = (b, Never).
Proof.
  cbv zeta. split_and!; [vm_compute; reflexivity..|]. intros i now b. unfold fire_one, fire_enqueue.
  assert (srv_entries demo_srv !! due_ID (mkDueCronEntry "leap" (3981312000 * Second)) = Some leap) as ->
    by (vm_compute; reflexivity).
  assert ((if Before (3981312000 * Second) (due_FireAt (mkDueCronEntry "leap" (3981312000 * Second)))
           then due_FireAt (mkDueCronEntry "leap" (3981312000 * Second)) else 3981312000 * Second) = 3981312000 * Second) as ->
    by done.
  assert (IsZero (Schedule.Next (schedule leap) (3981312000 * Second)) = true) as ->
    by (vm_compute; reflexivity).
  done.
Qed.

(** C33: orphans are recovered. Once leases of a worker's queues have expired, as many passes
    of its sweep as there are batches of them recover every one: each of these jobs is back
    in its queue, or dead if its attempts are spent, and every other job is as it was. *)
Theorem orphans_recovered srv now b n :
  reachable b → closed b = false → cfg_Queues (srv_cfg srv) ≠ [] →
  Z.of_nat (size (expired srv now b)) ≤ reapBatch * Z.of_nat n →
  let b' := Nat.iter n (λ b, (reap_pass srv now false b).1) b in
  expired srv now b' = ∅ ∧
  ∀ id, jobs b' !! id = if decide (is_Some (expired srv now b !! id)) then reaped <$> jobs b !! id
                        else jobs b !! id.
Proof.
  intros Hr Hop Hqs. revert b Hr Hop. induction n as [|n IH]; intros b Hr Hop Hn.
  { assert (expired srv now b = ∅) as He by (apply map_size_empty_inv; lia).
    simpl. split; [done|]. intros id. rewrite He, lookup_empty, decide_False; [done|]. by intros [? ?]. }
  destruct (reap_pass_spec srv now b (reachable_WF _ Hr) Hop Hqs) as [Hjobs Hsz].
  rewrite Nat.iter_succ_r. set (b1 := (reap_pass srv now false b).1) in *.
  assert (b1 = exec now (OpReap (cfg_Queues (srv_cfg srv)) reapBatch) b) as Hb1.
  { unfold b1, reap_pass. cbn [m_Reap memory_maintenance exec]. by destruct (Reap _ _ _ b) as [? [?|?]]. }
  assert (closed b1 = false) as Hop1.
  { rewrite Hb1, <- Hop. pose proof (exec_jobs_aux now (OpReap (cfg_Queues (srv_cfg srv)) reapBatch) b) as [Haux _].
    by apply aux_fields in Haux as (-> & _). }
  destruct (IH b1) as [He Hj].
  { rewrite Hb1. by apply reach_step. }
  { done. }
  { rewrite Hsz. unfold reapBatch in *. lia. }
  split; [done|]. intros id. rewrite Hj. destruct (Hjobs id) as [Hid|[Hex Hid]].
  - assert (expired srv now b1 !! id = expired srv now b !! id) as ->.
    { unfold expired. apply option_eq. intros j. by rewrite !map_lookup_filter_Some, Hid. }
    by rewrite Hid.
  - rewrite (decide_True _ _ Hex), decide_False; [done|]. intros [j (Hj' & Hs & _)%map_lookup_filter_Some].
    rewrite Hid in Hj'. apply fmap_Some in Hj' as (j0 & _ & ->). unfold reaped in Hs. by destruct (Exhausted _).
Qed.

(** ** Witnesses *)

Lemma open_New : open_ok New.
Proof. split; [apply WF_New|done]. Qed.

Lemma open_waiting : open_ok waiting.
Proof.
  split; [|by vm_compute]. apply (WF_Enqueue "a" 100 (Some (set_MaxAttempts 3 demo_job)) New); [apply WF_New|].
  by vm_compute.
Qed.

Lemma open_started : open_ok (broker started).
Proof.
  pose proof (memory_law_dequeue (mkClaimOpts "w" ["mail"] (10 * Second)) 2000110 waiting open_waiting ltac:(split; vm_compute; (discriminate || reflexivity)) ltac:(reflexivity)) as H.
  assert (broker started = (Dequeue (mkClaimOpts "w" ["mail"] (10 * Second)) 2000110 waiting).1) as ->
    by (vm_compute; reflexivity).
  assert (∃ j, (Dequeue (mkClaimOpts "w" ["mail"] (10 * Second)) 2000110 waiting).2 = Ok j) as [j Hj]
    by (vm_compute; by eexists).
  destruct (Dequeue _ _ waiting) as [b' r]. simpl in *. subst r. apply H.
Qed.

Lemma started_held : holds job_at (broker started) "w" "a".
Proof. exists running_job. split_and!; vm_compute; reflexivity. Qed.

Lemma started_alone :
  rtc (λ w w', wstep demo_text demo_srv others w w' ∧ alone 0 w') (worker_start demo_srv waiting) started.
Proof.
  assert (∀ (w : Worker Broker) m, runs w = m → m = ∅ ∨ (∃ x, m = {[0%nat := x]}) → alone 0 w) as Hd.
  { intros w m <- [Hm|[x Hm]] k' j j' ph ph'; rewrite Hm; [by rewrite lookup_empty|].
    intros _ [<- _]%lookup_singleton_Some. done. }
  set (w0 := worker_start demo_srv waiting).
  assert (fetch_claim demo_srv low_draws 2000110 false (fetch_slot w0) = Some claimed) as Hc by (vm_compute; reflexivity).
  assert (runs claimed = {[0%nat := (running_job, Spawned)]}) as Hr by (vm_compute; reflexivity).
  assert (runs claimed !! 0%nat = Some (running_job, Spawned)) as Hk by (by rewrite Hr).
  eapply (rtc_l _ _ (fetch_slot w0)); [split; [by apply step_slot|apply (Hd _ ∅); [done|by left]]|].
  eapply (rtc_l _ _ claimed); [split; [by apply (step_claim _ _ _ (fetch_slot w0) low_draws 2000110 false)|]|].
  { eapply Hd; [exact Hr|]. right. by eexists. }
  apply rtc_once. split; [exact (step_start _ _ _ claimed 0 running_job Hk)|].
  eapply Hd; [exact started_runs|]. right. by eexists.
Qed.

Lemma client_enqueue_contract_witness :
  let c := NewClient [WithDefaultMaxAttempts 7] in
  let '(b', r) := Client_Enqueue c "x1" 5000000 (Some (mkTask "email:send" None)) [OptQueue "mail"; Delay Second] New in
  ∃ jf js, r = Ok jf ∧ jobs b' !! "x1" = Some js ∧ Queue js = "mail" ∧ MaxAttempts js = 7 ∧ run_ms js = 1005.
Proof.
  pose proof (client_enqueue_contract (S := Broker) [SetMaxAttempts 7] "x1" 5000000
    (mkTask "email:send" None) [AskQueue "mail"; AskDelay Second] New open_New eq_refl) as H.
  destruct H as (_ & j & _ & _ & _ & Hq & Hm & Hr & _ & H).
  - discriminate.
  - split; [vm_compute; discriminate|vm_compute; reflexivity].
  - vm_compute. discriminate.
  - right. split; vm_compute; discriminate.
  - cbv zeta. change (as_client_option <$> [SetMaxAttempts 7]) with [WithDefaultMaxAttempts 7] in H.
    change (as_option <$> [AskQueue "mail"; AskDelay Second]) with [OptQueue "mail"; Delay Second] in H.
    assert (is_ok (Client_Enqueue (NewClient [WithDefaultMaxAttempts 7]) "x1" 5000000 (Some (mkTask "email:send" None))
      [OptQueue "mail"; Delay Second] New).2 = true) as Hok by (vm_compute; reflexivity).
    destruct (b_Enqueue "x1" 5000000 (Some j) New) as [[s1 oj] [err|]];
      destruct (Client_Enqueue _ "x1" 5000000 _ _ New) as [b' r]; [destruct H as [_ ->]; discriminate Hok|].
    destruct H as (_ & _ & _ & _ & jf & js & _ & -> & _ & Hjs & _ & Hqs & _ & _ & _ & Hrun & Hmax & _). exists jf, js.
    split; [reflexivity|]. split; [exact Hjs|]. split; [exact Hqs|]. split; [exact Hmax|].
    rewrite Hrun. unfold run_ms. rewrite Hr. vm_compute. reflexivity.
Defined.

Lemma worker_concurrency_witness : inFlightCount started ≤ Z.of_nat (size (runs started)) ≤ 2.
Proof. exact (proj1 (worker_concurrency demo_text demo_srv others waiting started eq_refl started_reachable)). Defined.

Lemma worker_tracks_runs_witness : inFlight started !! "a" = Some 0%nat.
Proof.
  refine (proj2 (worker_tracks_runs demo_text demo_srv others waiting started "a" 0%nat eq_refl started_reachable) started_alone
    running_job Running _ _); [rewrite started_runs; reflexivity|discriminate].
Defined.

Lemma drain_completes_witness :
  ∃ w, rtc (wstep demo_text demo_srv others) (drain_begin (fetch_return started)) w ∧ stopping w = Exited None.
Proof.
  assert (wstep demo_text demo_srv others started (fetch_return started)) as H1.
  { apply step_return. left. reflexivity. }
  assert (wstep demo_text demo_srv others (fetch_return started) (drain_begin (fetch_return started))) as H2.
  { apply step_drain; reflexivity. }
  refine (proj2 (proj2 (proj2 (drain_completes demo_text demo_srv others waiting (drain_begin (fetch_return started))
    eq_refl (rtc_r _ _ _ (rtc_r _ _ _ started_reachable H1) H2)))) eq_refl).
Defined.

Lemma report_outcome_witness :
  let '(b', err) := report demo_text demo_srv (invoke demo_failure) running_job 2000111 (broker started) in
  ¬ is_Some err ∧ ∃ j1, jobs b' !! "a" = Some j1 ∧ LastErr j1 = "boom".
Proof.
  pose proof (report_outcome demo_text demo_srv demo_failure running_job 2000111 (broker started) open_started) as H.
  destruct (report demo_text demo_srv (invoke demo_failure) running_job 2000111 (broker started)) as [b' err].
  destruct H as (H1 & _ & H3 & _).
  assert (¬ is_Some err) as Hn by (intros He; apply (proj1 H1 He); exact started_held).
  split; [exact Hn|]. destruct err as [e|]; [destruct Hn; by eexists|].
  destruct (H3 eq_refl) as (_ & _ & j0 & j1 & _ & Hj1 & _ & HL & _). exists j1. split; [exact Hj1|exact HL].
Defined.

Lemma renewal_keeps_leases_witness :
  inFlight started !! "a" = Some 0%nat ∧
  job_at (broker (renew_pass demo_srv 4000000000 started)) "a" =
    set_Deadline (4000000000 + 10 * Second) <$> job_at (broker started) "a".
Proof.
  pose proof (renewal_keeps_leases demo_text demo_srv others waiting started 4000000000 eq_refl
    ltac:(split; reflexivity) ltac:(split; vm_compute; (discriminate || reflexivity)) started_reachable open_started)
    as (_ & _ & Hjobs & _ & Hin).
  assert (inFlight started !! "a" = Some 0%nat) as Ha
    by exact (Hin 0%nat running_job started_alone ltac:(rewrite started_runs; reflexivity)).
  split; [exact Ha|]. rewrite Hjobs, decide_True; [reflexivity|]. split; [by eexists|].
  apply held_by_spec. exact started_held.
Defined.

Lemma renewal_gives_up_witness :
  let w := set_broker (exec 0 OpClose (broker started)) started in
  0%nat ∈ cancelled (renew_pass demo_srv 3 (renew_pass demo_srv 2 (renew_pass demo_srv 1 w))).
Proof.
  intros w. refine (proj2 (proj2 (proj2 (renewal_gives_up demo_srv w 1 2 3 _ _ _))) "a" 0%nat _).
  - intros now ids. eexists. reflexivity.
  - reflexivity.
  - intros He. assert (inFlight w !! "a" = Some 0%nat) as H by (vm_compute; reflexivity).
    rewrite He in H. discriminate H.
  - vm_compute. reflexivity.
Defined.

Lemma seed_registers_witness :
  let '(b', err) := seedSchedules demo_srv (1609459200 * Second) New in
  err = None ∧ fire_time b' "daily" = Some ((1609459200 + 43200) * Second).
Proof.
  pose proof (seed_registers (S := Broker) demo_srv (1609459200 * Second) New eq_refl ltac:(vm_compute; discriminate) eq_refl) as H.
  destruct (seedSchedules demo_srv (1609459200 * Second) New) as [b' err]. destruct H as (H1 & _ & H2 & _).
  split; [exact H1|]. rewrite (H2 "daily" daily ltac:(vm_compute; reflexivity) eq_refl). vm_compute. reflexivity.
Defined.

Lemma fire_advances_witness :
  let noon := (1609459200 + 43200) * Second in
  let b := exec 0 (OpScheduleCronIfAbsent "daily" noon) New in
  let '(b', r) := fire_one demo_srv "x" (noon + 5) (noon + 6) (mkDueCronEntry "daily" noon) b in
  r = Won ∧ ∃ t, fire_time b' "daily" = Some t ∧ noon + 5 < t.
Proof.
  intros noon b.
  pose proof (fire_advances (S := Broker) demo_srv "x" (noon + 5) (noon + 6) (mkDueCronEntry "daily" noon) b eq_refl ltac:(vm_compute; discriminate) ltac:(discriminate) eq_refl) as H.
  assert ((fire_one demo_srv "x" (noon + 5) (noon + 6) (mkDueCronEntry "daily" noon) b).2 = Won) as HW
    by (vm_compute; reflexivity).
  destruct (fire_one demo_srv "x" (noon + 5) (noon + 6) (mkDueCronEntry "daily" noon) b) as [b' r].
  simpl in HW. split; [exact HW|]. rewrite HW in H. destruct H as (_ & _ & _ & ce & t & _ & _ & Ht & Hlt & _).
  exists t. split; [exact Ht|exact Hlt].
Defined.

Lemma tick_enqueued_once_witness :
  let noon := (1609459200 + 43200) * Second in
  let d := mkDueCronEntry "daily" noon in
  let b' := run [(noon + 2, OpDequeue demo_claim); (noon + 3, OpAck "w" "x")]
              (Enqueue "x" (noon + 1) (Some (cron_job daily d)) (exec 0 (OpScheduleCronIfAbsent "daily" noon) New)).1.1 in
  jobs (fire_one demo_srv "y" (noon + 4) (noon + 5) d b').1 = jobs b'.
Proof.
  intros noon d b'.
  assert (H := tick_enqueued_once demo_srv daily d "x" (noon + 1) (exec 0 (OpScheduleCronIfAbsent "daily" noon) New)
    [(noon + 2, OpDequeue demo_claim); (noon + 3, OpAck "w" "x")] "y" (noon + 4) (noon + 5)).
  cbv zeta in H. fold b' in H.
  destruct (fire_one demo_srv "y" (noon + 4) (noon + 5) d b') as [b'' r]. apply H.
  - vm_compute. reflexivity.
  - discriminate.
  - discriminate.
  - discriminate.
  - vm_compute. reflexivity.
  - repeat constructor; vm_compute; reflexivity.
  - vm_compute. reflexivity.
  - vm_compute. reflexivity.
Defined.

Lemma orphans_recovered_witness :
  expired demo_srv 200 (Nat.iter 1 (λ b, (reap_pass demo_srv 200 false b).1) demo) = ∅.
Proof.
  refine (proj1 (orphans_recovered demo_srv 200 demo 1 demo_reachable _ _ _)).
  - reflexivity.
  - discriminate.
  - vm_compute. discriminate.
Defined.

(** A process that starts, is cancelled and returns. *)
Definition idle_process : Process Broker :=
  mkProcess (worker_start demo_srv New) false false true Call Asleep Asleep (SSeed 0 []) false None.

Lemma idle_run : Run demo_srv true 0 [] New = Ok idle_process.
Proof. vm_compute. reflexivity. Qed.

Lemma idle_returns : ∃ p err, rtc (pstep demo_text demo_srv (λ _ _, False)) idle_process p ∧ result p = Some err.
Proof.
  destruct (fresh_returns (S := Broker) demo_text demo_srv 0 New) as (p & Hr & [err Hp]). exists p, err. split; [|exact Hp].
  eapply rtc_l; [apply p_cancel|]. clear Hp. change (set_ctx true (maint_done idle_process) idle_process) with (fresh demo_srv 0 New).
  induction Hr as [q|q q1 q2 (Hq & _) _ IH]; [apply rtc_refl|]. eapply rtc_l; [exact Hq|exact IH].
Qed.

Lemma process_refines_worker_witness :
  ∃ p, (∃ err, result p = Some err) ∧
    rtc (wstep demo_text demo_srv (λ s s', False ∨ own_call demo_srv s s')) (worker_start demo_srv New) (worker p).
Proof.
  destruct idle_returns as (p & err & Hr & Hp). exists p.
  refine (conj (ex_intro _ err Hp) (proj2 (process_refines_worker demo_text demo_srv (λ _ _, False) true 0 [] New idle_process p idle_run Hr))).
Defined.

Lemma run_lifetimes_witness : ∃ p err, result p = Some err ∧ loops_over (S := Broker) p = true ∧ IsLeader p = false.
Proof.
  destruct idle_returns as (p & err & Hr & Hp). exists p, err. split; [exact Hp|].
  destruct (run_lifetimes demo_text demo_srv (λ _ _, False) true 0 [] New idle_process p idle_run Hr) as (_ & _ & _ & H).
  destruct (H err Hp) as (_ & _ & Hl & Hd). split; [exact Hl|exact Hd].
Defined.

Lemma run_quiescent_witness :
  ∃ p err, result (S := Broker) p = Some err ∧ ∀ p', pstep demo_text demo_srv (λ _ _, False) p p' → err = None →
    p' = set_ctx true (maint_done p) p.
Proof.
  destruct idle_returns as (p & err & Hr & Hp). exists p, err. split; [exact Hp|]. intros p' Hs Hn.
  destruct (run_quiescent demo_text demo_srv (λ _ _, False) true 0 [] New idle_process p p' err idle_run Hr Hp Hs) as [H|[(s & [] & _)|(e & w & H & _)]].
  - exact H.
  - rewrite Hn in H. discriminate H.
Defined.

Lemma run_can_return_witness : ∃ p, rtc (pstep demo_text demo_srv (λ _ _, False)) idle_process p ∧ result p = Some None.
Proof.
  refine (run_can_return demo_text demo_srv (λ _ _, False) true 0 [] New idle_process idle_process _ idle_run (rtc_refl _ _) eq_refl).
  exists low_draws. vm_compute. eexists. reflexivity.
Defined.
