(* ===== verification/RedisServer.v ===== *)
(** * The Redis server the broker talks to

    Redis is not part of the repository: it is a parameter of the model, a
    function [call] that executes one command on a state of any type. What the
    scripts rely on is stated as a law: the commands behave as Redis documents
    them, which [documented] writes out for the commands and options the
    repository uses, on a keyspace of typed values with expiry times. A Lua script
    is a program that issues commands; it runs at one instant, and stops at the
    first error. Numbers are exact: the scripts' are integers below 2^53. Counters
    do not overflow 64 bits. *)
From Stdlib Require Import Ascii.
From S2P Require Import Prelude GoBase.

(** ** Values, commands, replies *)

Inductive rvalue :=
| RStr (s : string)
| RHash (h : gmap string string)
| RList (l : list string)
| RZSet (z : gmap string Z)
| RSet (s : gset string).

(** Each key with its value and, if it has one, the millisecond it expires. *)
Abbreviation keyspace := (gmap string (rvalue * option Z)).

Inductive cmd :=
| EXISTS (k : string)
| DEL (k : string)
| PEXPIRE (k : string) (ms : Z)
| GET (k : string)
| SETPX (k v : string) (ms : Z)
| SETNXPX (k v : string) (ms : Z)
| INCR (k : string)
| HGET (k f : string)
| HSET (k : string) (fvs : list (string * string))
| HINCRBY (k f : string) (n : Z)
| HGETALL (k : string)
| LPOP (k : string)
| LPUSH (k v : string)
| RPUSH (k v : string)
| SADD (k m : string)
| ZADD (k : string) (score : Z) (m : string)
| ZADDNX (k : string) (score : Z) (m : string)
| ZREM (k m : string)
| ZSCORE (k m : string)
| ZRANGEBYSCORE (k : string) (max limit : Z)
| ZRANGEBYSCORE_WITHSCORES (k : string) (max limit : Z)
| ZREMRANGEBYSCORE (k : string) (max : Z)
| ZRANGE (k : string)
| ZCARD (k : string)
| SCARD (k : string)
| SISMEMBER (k m : string)
| LRANGE (k : string)
| TIME.

Inductive reply :=
| RNil
| RInt (z : Z)
| RBulk (s : string)
| RArray (l : list string)
| ROK
| RError.

(** ** Decimal numbers *)

Fixpoint digits (s : string) (acc : Z) : option Z :=
  match s with
  | EmptyString => Some acc
  | String c s =>
      let n := Z.of_nat (nat_of_ascii c) in
      if bool_decide (48 ≤ n ≤ 57) then digits s (acc * 10 + (n - 48)) else None
  end.
Definition digits1 (s : string) : option Z :=
  match s with EmptyString => None | _ => digits s 0 end.

(** A decimal integer with an optional sign. *)
Definition parse_int (s : string) : option Z :=
  match s with
  | String c s' =>
      if Ascii.eqb c "-" then Z.opp <$> digits1 s'
      else if Ascii.eqb c "+" then digits1 s'
      else digits1 s
  | EmptyString => None
  end.

(** ** The documented behaviour *)

Section documented.
Context (now : Z).

Abbreviation now_ms := (UnixMilli now).

(** What a key holds: an expired key is absent. *)
Definition live (ks : keyspace) (k : string) : option (rvalue * option Z) :=
  match ks !! k with
  | Some (v, Some e) => if bool_decide (e < now_ms) then None else Some (v, Some e)
  | Some (v, None) => Some (v, None)
  | None => None
  end.

(** The collection a key holds, empty if the key is absent, and its expiry; [None] if it
    holds a value of another type. *)
Definition hash_at (ks : keyspace) (k : string) : option (gmap string string * option Z) :=
  match live ks k with
  | Some (RHash h, e) => Some (h, e)
  | None => Some (∅, None)
  | _ => None
  end.
Definition list_at (ks : keyspace) (k : string) : option (list string * option Z) :=
  match live ks k with
  | Some (RList l, e) => Some (l, e)
  | None => Some ([], None)
  | _ => None
  end.
Definition zset_at (ks : keyspace) (k : string) : option (gmap string Z * option Z) :=
  match live ks k with
  | Some (RZSet z, e) => Some (z, e)
  | None => Some (∅, None)
  | _ => None
  end.

Definition set_at (ks : keyspace) (k : string) : option (gset string) :=
  match live ks k with Some (RSet s, _) => Some s | None => Some ∅ | _ => None end.

(** A collection that becomes empty is removed with its key. *)
Definition put_list (k : string) (l : list string) (e : option Z) (ks : keyspace) : keyspace :=
  match l with [] => delete k ks | _ => <[k := (RList l, e)]> ks end.
Definition put_zset (k : string) (z : gmap string Z) (e : option Z) (ks : keyspace) : keyspace :=
  if bool_decide (z = ∅) then delete k ks else <[k := (RZSet z, e)]> ks.

(** The members with a score up to [max], by score and then by name. *)
Definition in_score_order (z : gmap string Z) (max : Z) : list (string * Z) :=
  merge_sort (by_key (λ e, (e.2, e.1))) (filter (λ e, e.2 ≤ max) (map_to_list z)).

(** All of them, in the same order. *)
Definition all_in_order (z : gmap string Z) : list (string * Z) :=
  merge_sort (by_key (λ e, (e.2, e.1))) (map_to_list z).

(** A hash as the flat array of its fields and values. *)
Definition flat (h : gmap string string) : list string := '(f, v) ← map_to_list h; [f; v].

Definition documented (c : cmd) (ks : keyspace) : keyspace * reply :=
  match c with
  | EXISTS k => (ks, RInt (if live ks k is Some _ then 1 else 0))
  | DEL k => (delete k ks, RInt (if live ks k is Some _ then 1 else 0))
  | PEXPIRE k ms =>
      match live ks k with
      | Some (v, _) =>
          if bool_decide (ms ≤ 0) then (delete k ks, RInt 1)
          else (<[k := (v, Some (now_ms + ms))]> ks, RInt 1)
      | None => (ks, RInt 0)
      end
  | GET k =>
      match live ks k with
      | Some (RStr s, _) => (ks, RBulk s)
      | None => (ks, RNil)
      | _ => (ks, RError)
      end
  | SETPX k v ms =>
      if bool_decide (ms ≤ 0) then (ks, RError)
      else (<[k := (RStr v, Some (now_ms + ms))]> ks, ROK)
  | SETNXPX k v ms =>
      if bool_decide (ms ≤ 0) then (ks, RError)
      else match live ks k with
           | Some _ => (ks, RNil)
           | None => (<[k := (RStr v, Some (now_ms + ms))]> ks, ROK)
           end
  | INCR k =>
      match live ks k with
      | Some (RStr s, e) =>
          match parse_int s with
          | Some n => (<[k := (RStr (pretty (n + 1)), e)]> ks, RInt (n + 1))
          | None => (ks, RError)
          end
      | None => (<[k := (RStr "1", None)]> ks, RInt 1)
      | _ => (ks, RError)
      end
  | HGET k f =>
      match hash_at ks k with
      | Some (h, _) => (ks, match h !! f with Some v => RBulk v | None => RNil end)
      | None => (ks, RError)
      end
  | HSET k fvs =>
      match hash_at ks k with
      | Some (h, e) =>
          (<[k := (RHash (foldl (λ h fv, <[fv.1 := fv.2]> h) h fvs), e)]> ks,
           RInt (Z.of_nat (length (filter (λ fv, h !! fv.1 = None) fvs))))
      | None => (ks, RError)
      end
  | HINCRBY k f n =>
      match hash_at ks k with
      | Some (h, e) =>
          match parse_int (default "0" (h !! f)) with
          | Some m => (<[k := (RHash (<[f := pretty (m + n)]> h), e)]> ks, RInt (m + n))
          | None => (ks, RError)
          end
      | None => (ks, RError)
      end
  | HGETALL k =>
      match hash_at ks k with
      | Some (h, _) => (ks, RArray (flat h))
      | None => (ks, RError)
      end
  | LPOP k =>
      match list_at ks k with
      | Some (x :: l, e) => (put_list k l e ks, RBulk x)
      | Some ([], _) => (ks, RNil)
      | None => (ks, RError)
      end
  | LPUSH k v =>
      match list_at ks k with
      | Some (l, e) => (put_list k (v :: l) e ks, RInt (Z.of_nat (length l) + 1))
      | None => (ks, RError)
      end
  | RPUSH k v =>
      match list_at ks k with
      | Some (l, e) => (put_list k (l ++ [v]) e ks, RInt (Z.of_nat (length l) + 1))
      | None => (ks, RError)
      end
  | SADD k m =>
      match live ks k with
      | Some (RSet s, e) => (<[k := (RSet ({[m]} ∪ s), e)]> ks, RInt (if decide (m ∈ s) then 0 else 1))
      | None => (<[k := (RSet {[m]}, None)]> ks, RInt 1)
      | _ => (ks, RError)
      end
  | ZADD k score m =>
      match zset_at ks k with
      | Some (z, e) => (<[k := (RZSet (<[m := score]> z), e)]> ks, RInt (if z !! m is Some _ then 0 else 1))
      | None => (ks, RError)
      end
  | ZADDNX k score m =>
      match zset_at ks k with
      | Some (z, e) =>
          match z !! m with
          | Some _ => (ks, RInt 0)
          | None => (<[k := (RZSet (<[m := score]> z), e)]> ks, RInt 1)
          end
      | None => (ks, RError)
      end
  | ZREM k m =>
      match zset_at ks k with
      | Some (z, e) =>
          match z !! m with
          | Some _ => (put_zset k (delete m z) e ks, RInt 1)
          | None => (ks, RInt 0)
          end
      | None => (ks, RError)
      end
  | ZSCORE k m =>
      match zset_at ks k with
      | Some (z, _) => (ks, match z !! m with Some s => RBulk (pretty s) | None => RNil end)
      | None => (ks, RError)
      end
  | ZRANGEBYSCORE k max limit =>
      match zset_at ks k with
      | Some (z, _) => (ks, RArray (take (Z.to_nat limit) (in_score_order z max)).*1)
      | None => (ks, RError)
      end
  | ZRANGEBYSCORE_WITHSCORES k max limit =>
      match zset_at ks k with
      | Some (z, _) => (ks, RArray ('(m, s) ← take (Z.to_nat limit) (in_score_order z max); [m; pretty s]))
      | None => (ks, RError)
      end
  | ZREMRANGEBYSCORE k max =>
      match zset_at ks k with
      | Some (z, e) =>
          (put_zset k (filter (λ x, ¬ x.2 ≤ max) z) e ks,
           RInt (Z.of_nat (length (filter (λ x, x.2 ≤ max) (map_to_list z)))))
      | None => (ks, RError)
      end
  (* the ranges from 0 to -1: everything *)
  | ZRANGE k =>
      match zset_at ks k with Some (z, _) => (ks, RArray (all_in_order z).*1) | None => (ks, RError) end
  | ZCARD k =>
      match zset_at ks k with Some (z, _) => (ks, RInt (Z.of_nat (size z))) | None => (ks, RError) end
  | SCARD k =>
      match set_at ks k with Some s => (ks, RInt (Z.of_nat (size s))) | None => (ks, RError) end
  | SISMEMBER k m =>
      match set_at ks k with Some s => (ks, RInt (if decide (m ∈ s) then 1 else 0)) | None => (ks, RError) end
  | LRANGE k =>
      match list_at ks k with Some (l, _) => (ks, RArray l) | None => (ks, RError) end
  | TIME => (ks, RArray [pretty (now / Second); pretty ((now mod Second) / 1000)])
  end.
End documented.

(** ** Scripts *)

(** A program that issues commands and looks at the replies; it may raise an error. *)
Inductive prog (A : Type) :=
| Ret (a : A)
| Raise
| Call (c : cmd) (k : reply → prog A).
Arguments Ret {A} a.
Arguments Raise {A}.
Arguments Call {A} c k.

Fixpoint prog_bind {A B} (p : prog A) (f : A → prog B) : prog B :=
  match p with Ret a => f a | Raise => Raise | Call c k => Call c (λ r, prog_bind (k r) f) end.

Declare Scope prog_scope.
Notation "'let!' r := 'call' c 'in' p" := (Call c (λ r, p)) (at level 200, r name, c at level 60, p at level 200) : prog_scope.
Notation "'do!' c ; p" := (Call c (λ _, p)) (at level 200, c at level 60, p at level 200) : prog_scope.
Notation "'let!' x <- p 'in' q" := (prog_bind p (λ x, q)) (at level 200, x name, p at level 100, q at level 200) : prog_scope.
Open Scope prog_scope.

(** Running a program against a server: the state it leaves, and its result unless a
    command failed. *)
Fixpoint run_prog {A DB} (call : cmd → DB → DB * reply) (p : prog A) (db : DB) : DB * option A :=
  match p with
  | Ret a => (db, Some a)
  | Raise => (db, None)
  | Call c k =>
      let '(db, r) := call c db in
      match r with RError => (db, None) | _ => run_prog call (k r) db end
  end.

(** A Redis server: a state, and the execution of a command at an instant. *)
Class RedisServer (DB : Type) := redis_call : Z → cmd → DB → DB * reply.

(** What is relied on: the keyspace is the server's state, and every command behaves on it
    as documented. *)
Class RedisLaws (DB : Type) `{RedisServer DB} := {
  view : DB → keyspace;
  view_inj :: Inj (=) (=) view;
  redis_documented now c db :
    let '(db', r) := redis_call now c db in documented now c (view db) = (view db', r)
}.

(** The key a command is about, and programs that issue no command about a key. *)
Definition cmd_key (c : cmd) : option string :=
  match c with
  | EXISTS k | DEL k | PEXPIRE k _ | GET k | SETPX k _ _ | SETNXPX k _ _ | INCR k | HGET k _ | HSET k _
  | HINCRBY k _ _ | HGETALL k | LPOP k | LPUSH k _ | RPUSH k _ | SADD k _ | ZADD k _ _ | ZADDNX k _ _
  | ZREM k _ | ZSCORE k _ | ZRANGEBYSCORE k _ _ | ZRANGEBYSCORE_WITHSCORES k _ _ | ZREMRANGEBYSCORE k _
  | ZRANGE k | ZCARD k | SCARD k | SISMEMBER k _ | LRANGE k => Some k
  | TIME => None
  end.

Fixpoint avoids {A} (k : string) (p : prog A) : Prop :=
  match p with
  | Ret _ | Raise => True
  | Call c f => cmd_key c ≠ Some k ∧ ∀ r, avoids k (f r)
  end.

(** ** Lemmas *)

(** A program has the documented effect on any server that keeps to the documentation. *)
Lemma run_documented {A DB} `{RedisLaws DB} now (p : prog A) (db : DB) :
  let '(db', r) := run_prog (redis_call now) p db in
  run_prog (documented now) p (view db) = (view db', r).
Proof.
  revert db. induction p as [a| |c k IH]; intros db; simpl; [done..|].
  pose proof (redis_documented now c db) as Hc. destruct (redis_call now c db) as [db1 r1].
  rewrite Hc. destruct r1; try apply IH. done.
Qed.

Lemma run_bind {A B DB} call (p : prog A) (f : A → prog B) (db : DB) :
  run_prog call (prog_bind p f) db =
  let '(db', r) := run_prog call p db in
  match r with Some a => run_prog call (f a) db' | None => (db', None) end.
Proof.
  revert db. induction p as [a| |c k IH]; intros db; simpl; [done..|].
  destruct (call c db) as [db1 r1]. by destruct r1; try apply IH.
Qed.

(** Printing a number and reading it back. *)
Lemma digits_go x s : digits (pretty_N_go x s) 0 = digits s (Z.of_N x).
Proof.
  revert s. induction (N.lt_wf_0 x) as [x _ IH]; intros s.
  assert (x = 0 ∨ 0 < x)%N as [->|Hx] by lia; [by rewrite pretty_N_go_0|].
  rewrite pretty_N_go_step, IH by (done || by apply N.div_lt). cbn [digits].
  assert (Z.of_nat (nat_of_ascii (pretty_N_char (x `mod` 10))) = 48 + Z.of_N (x `mod` 10)) as ->.
  { assert (x `mod` 10 < 10)%N as Hm by (by apply N.mod_lt). revert Hm. generalize (x `mod` 10)%N. intros y Hy.
    assert (y = 0 ∨ y = 1 ∨ y = 2 ∨ y = 3 ∨ y = 4 ∨ y = 5 ∨ y = 6 ∨ y = 7 ∨ y = 8 ∨ y = 9)%N as Hc by lia.
    by destruct_or! Hc; subst y. }
  assert (x `mod` 10 < 10)%N as Hm by (by apply N.mod_lt). pose proof (N.div_mod x 10 ltac:(done)) as Hd.
  revert Hm Hd. generalize (x `mod` 10)%N, (x `div` 10)%N. intros m d Hm Hd.
  rewrite bool_decide_eq_true_2 by lia. f_equal. lia.
Qed.

Lemma digits1_pos p : digits1 (pretty p) = Some (Z.pos p).
Proof.
  assert (digits (pretty p) 0 = Some (Z.pos p)) as H by (unfold pretty, pretty_positive, pretty, pretty_N; simpl; by rewrite digits_go).
  unfold digits1. destruct (pretty p) eqn:E; [|done].
  exfalso. unfold pretty, pretty_positive, pretty, pretty_N in E. simpl in E. simpl in H. by simplify_eq.
Qed.

Lemma parse_int_pretty (z : Z) : parse_int (pretty z) = Some z.
Proof.
  destruct z as [|p|p]; [done| |].
  - change (pretty (Z.pos p)) with (pretty p). pose proof (digits1_pos p) as H. unfold parse_int.
    destruct (pretty p) as [|c s] eqn:E; [done|].
    destruct (Ascii.eqb_spec c "-") as [->|_]; [done|]. by destruct (Ascii.eqb_spec c "+") as [->|_].
  - change (pretty (Z.neg p)) with (String "-" (pretty p)). unfold parse_int. simpl. by rewrite digits1_pos.
Qed.

(** ** Frames *)

(** A command leaves the other keys alone, and so does a program. *)
Lemma documented_frame now c ks k : cmd_key c ≠ Some k → (documented now c ks).1 !! k = ks !! k.
Proof.
  intros Hk. destruct c; cbn [cmd_key documented] in *; unfold put_list, put_zset;
    repeat case_match; simplify_eq; cbn [fst]; try done;
    (apply lookup_insert_ne || apply lookup_delete_ne); congruence.
Qed.

Lemma run_frame {A} now k (p : prog A) ks : avoids k p → (run_prog (documented now) p ks).1 !! k = ks !! k.
Proof.
  revert ks. induction p as [a| |c f IH]; intros ks; [done..|]. intros [Hc Hf]. cbn [run_prog].
  pose proof (documented_frame now c ks k Hc) as HF. destruct (documented now c ks) as [ks1 r].
  destruct r; try done; by rewrite IH.
Qed.

Lemma avoids_bind {A B} k (p : prog A) (f : A → prog B) : avoids k p → (∀ a, avoids k (f a)) → avoids k (prog_bind p f).
Proof. intros Hp Hf. induction p as [a| |c g IH]; [apply Hf|done|]. destruct Hp as [Hc Hg]. split; [done|]. intros r. by apply IH. Qed.
