(* ===== verification/RedisScripts.v ===== *)
(** * The Lua scripts (internal/rdb/scripts)

    Each script as a program of Redis commands, its KEYS and ARGV as arguments. A
    nil reply is false in Lua, and joining it to a string raises an error, as does
    arithmetic on what is not a number. *)
From S2P Require Import Prelude GoBase RedisServer.

(** ** Lua *)

(** [r == s] for a string [s]. *)
Definition is_str (r : reply) (s : string) : bool :=
  match r with RBulk t => String.eqb t s | _ => false end.
(** [r == n] for a number [n]. *)
Definition is_int (r : reply) (n : Z) : bool :=
  match r with RInt m => bool_decide (m = n) | _ => false end.
(** [not r]. *)
Definition is_nil (r : reply) : bool := match r with RNil => true | _ => false end.
(** [tostring(r)] of what HGET returns. *)
Definition tostring (r : reply) : string := match r with RBulk s => s | _ => "false" end.
(** A reply used as a string, and as a number. *)
Definition with_str {A} (r : reply) (k : string → prog A) : prog A :=
  match r with RBulk s => k s | _ => Raise end.
Definition with_num {A} (r : reply) (k : Z → prog A) : prog A :=
  match r with
  | RBulk s => match parse_int s with Some n => k n | None => Raise end
  | _ => Raise
  end.

(** The helper [now_ms] the scripts define. *)
Definition now_ms_lua : prog Z :=
  Call TIME (λ t,
    match t with
    | RArray [s; us] =>
        match parse_int s, parse_int us with
        | Some s, Some us => Ret (s * 1000 + us / 1000)
        | _, _ => Raise
        end
    | _ => Raise
    end).

(** ** enqueue.lua *)

(** The envelope and its place, once the unique key is won or not asked for. *)
Definition store_lua (kjob kready kdelayed kqueues : string)
  (id queue type_ payload : string) (max_attempts run_at : Z) (unique_key : string) (now : Z)
  : prog (list reply) :=
  let state := if bool_decide (run_at > now) then "scheduled" else "pending" in
  do! HSET kjob
        [("id", id); ("queue", queue); ("type", type_); ("payload", payload); ("attempt", "0");
         ("max_attempts", pretty max_attempts); ("recoveries", "0"); ("state", state);
         ("owner", ""); ("unique_key", unique_key); ("last_err", ""); ("enqueued_at", pretty now);
         ("run_at", pretty run_at); ("started_at", "0"); ("deadline", "0")];
  if String.eqb state "scheduled"
  then do! ZADD kdelayed run_at id; do! SADD kqueues queue; Ret [RInt 1]
  else do! RPUSH kready id; do! SADD kqueues queue; Ret [RInt 1].

Definition enqueue_lua (kjob kready kdelayed kqueues kunique : string)
  (id queue type_ payload : string) (max_attempts run_at unique_ttl : Z) (unique_key : string)
  : prog (list reply) :=
  let! now <- now_ms_lua in
  let store := store_lua kjob kready kdelayed kqueues id queue type_ payload max_attempts run_at unique_key now in
  if bool_decide (unique_ttl > 0)
  then
    let! won := call (SETNXPX kunique id unique_ttl) in
    if is_nil won
    then let! holder := call (GET kunique) in
         Ret [RInt 0; if is_nil holder then RBulk "" else holder]
    else store
  else store.

(** ** dequeue.lua *)

(** The claim of a job that exists, and the inner loop over a ready list, [n] more times. *)
Definition claim_lua (job active worker id : string) (now vt : Z) : prog (option (list string)) :=
  let deadline := now + vt in
  do! HINCRBY job "attempt" 1;
  do! HSET job [("state", "active"); ("owner", worker); ("started_at", pretty now); ("deadline", pretty deadline)];
  do! ZADD active deadline id;
  let! h := call (HGETALL job) in
  match h with RArray l => Ret (Some l) | _ => Raise end.

Fixpoint pop_lua (n : nat) (ready active worker prefix : string) (now vt : Z) : prog (option (list string)) :=
  match n with
  | O => Ret None
  | S n =>
      let! id := call (LPOP ready) in
      if is_nil id then Ret None
      else with_str id (λ id,
        let job := prefix +:+ id in
        let! ex := call (EXISTS job) in
        if is_int ex 1 then claim_lua job active worker id now vt
        else pop_lua n ready active worker prefix now vt)
  end.

Fixpoint queues_lua (keys : list (string * string)) (worker prefix : string) (now vt : Z)
  : prog (option (list string)) :=
  match keys with
  | [] => Ret None
  | (ready, active) :: keys =>
      let! found <- pop_lua 20 ready active worker prefix now vt in
      match found with
      | Some l => Ret (Some l)
      | None => queues_lua keys worker prefix now vt
      end
  end.

Definition dequeue_lua (keys : list (string * string)) (worker : string) (vt : Z) (prefix : string)
  : prog (option (list string)) :=
  let! now <- now_ms_lua in
  queues_lua keys worker prefix now vt.

(** ** ack.lua, nack.lua, kill.lua *)

(** The fencing check the three begin with. *)
Definition fence_lua (job worker : string) (k : prog (list reply)) : prog (list reply) :=
  let! ex := call (EXISTS job) in
  if is_int ex 0 then Ret [RInt 0; RBulk "notfound"]
  else
    let! state := call (HGET job "state") in
    let! owner := call (HGET job "owner") in
    if negb (is_str state "active") || negb (is_str owner worker)
    then Ret [RInt 0; RBulk "lease"; RBulk (tostring state); RBulk (tostring owner)]
    else k.

(** Releasing the lease: the job leaves the active set of its queue. *)
Definition release_lua (job active_prefix : string) (k : string → prog (list reply)) : prog (list reply) :=
  let! id := call (HGET job "id") in
  let! queue := call (HGET job "queue") in
  with_str queue (λ queue, with_str id (λ id,
    do! ZREM (active_prefix +:+ queue) id; k id)).

Definition ack_lua (job processed worker : string) (ttl : Z) (active_prefix : string) : prog (list reply) :=
  fence_lua job worker (release_lua job active_prefix (λ id,
    do! INCR processed;
    if bool_decide (ttl > 0)
    then do! HSET job [("state", "completed"); ("owner", "")]; do! PEXPIRE job ttl; Ret [RInt 1]
    else do! DEL job; Ret [RInt 1])).

Definition nack_lua (job kretry kdead kfailed worker : string) (retry_at : Z) (reason active_prefix : string)
  : prog (list reply) :=
  fence_lua job worker (release_lua job active_prefix (λ id,
    do! HSET job [("last_err", reason); ("owner", "")];
    let! attempt := call (HGET job "attempt") in
    let! max_attempts := call (HGET job "max_attempts") in
    with_num attempt (λ attempt, with_num max_attempts (λ max_attempts,
      if bool_decide (max_attempts ≤ attempt)
      then
        do! HSET job [("state", "dead")];
        let! now <- now_ms_lua in
        do! ZADD kdead now id; do! INCR kfailed; Ret [RInt 1; RBulk "dead"]
      else
        do! HSET job [("state", "retry")];
        do! ZADD kretry retry_at id; Ret [RInt 1; RBulk "retry"])))).

Definition kill_lua (job kdead kfailed worker reason active_prefix : string) : prog (list reply) :=
  fence_lua job worker (release_lua job active_prefix (λ id,
    do! HSET job [("state", "dead"); ("owner", ""); ("last_err", reason)];
    let! now <- now_ms_lua in
    do! ZADD kdead now id; do! INCR kfailed; Ret [RInt 1])).

(** ** extend.lua *)

Fixpoint extend_ids_lua (ids : list string) (worker job_prefix active_prefix : string) (now vt : Z)
  (lost : list string) : prog (list string) :=
  match ids with
  | [] => Ret lost
  | id :: ids =>
      let job := job_prefix +:+ id in
      let next lost := extend_ids_lua ids worker job_prefix active_prefix now vt lost in
      let! ex := call (EXISTS job) in
      if is_int ex 1
      then
        let! state := call (HGET job "state") in
        let! owner := call (HGET job "owner") in
        if is_str state "active" && is_str owner worker
        then
          let deadline := now + vt in
          let! queue := call (HGET job "queue") in
          do! HSET job [("deadline", pretty deadline)];
          with_str queue (λ queue, do! ZADD (active_prefix +:+ queue) deadline id; next lost)
        else next (lost ++ [id])
      else next (lost ++ [id])
  end.
Definition extend_lua (worker : string) (vt : Z) (job_prefix active_prefix : string) (ids : list string)
  : prog (list string) :=
  let! now <- now_ms_lua in
  extend_ids_lua ids worker job_prefix active_prefix now vt [].

(** ** reap.lua *)

Fixpoint reap_ids_lua (ids : list string) (kactive kdead kready kfailed job_prefix : string) (now : Z)
  (recovered dead : Z) : prog (list reply) :=
  match ids with
  | [] => Ret [RInt recovered; RInt dead]
  | id :: ids =>
      let next r d := reap_ids_lua ids kactive kdead kready kfailed job_prefix now r d in
      let! removed := call (ZREM kactive id) in
      if is_int removed 1
      then
        let job := job_prefix +:+ id in
        let! ex := call (EXISTS job) in
        if is_int ex 1
        then
          do! HINCRBY job "recoveries" 1;
          do! HSET job [("owner", "")];
          let! attempt := call (HGET job "attempt") in
          let! max_attempts := call (HGET job "max_attempts") in
          with_num attempt (λ attempt, with_num max_attempts (λ max_attempts,
            if bool_decide (max_attempts ≤ attempt)
            then
              do! HSET job [("state", "dead");
                            ("last_err", "orphaned: lease expired after " +:+ pretty attempt +:+ " attempts")];
              do! ZADD kdead now id; do! INCR kfailed; next recovered (dead + 1)
            else
              do! HSET job [("state", "pending")];
              do! LPUSH kready id; next (recovered + 1) dead))
        else next recovered dead
      else next recovered dead
  end.
Definition reap_lua (kactive kdead kready kfailed : string) (limit : Z) (job_prefix : string) : prog (list reply) :=
  let! now <- now_ms_lua in
  let! expired := call (ZRANGEBYSCORE kactive now limit) in
  match expired with
  | RArray ids => reap_ids_lua ids kactive kdead kready kfailed job_prefix now 0 0
  | _ => Raise
  end.

(** ** promote.lua *)

Fixpoint promote_ids_lua (ids : list string) (zset job_prefix queue_prefix : string) (promoted : Z) : prog Z :=
  match ids with
  | [] => Ret promoted
  | id :: ids =>
      let next n := promote_ids_lua ids zset job_prefix queue_prefix n in
      let! removed := call (ZREM zset id) in
      if is_int removed 1
      then
        let job := job_prefix +:+ id in
        let! ex := call (EXISTS job) in
        if is_int ex 1
        then
          let! queue := call (HGET job "queue") in
          do! HSET job [("state", "pending"); ("owner", "")];
          with_str queue (λ queue, do! RPUSH (queue_prefix +:+ queue) id; next (promoted + 1))
        else next promoted
      else next promoted
  end.
Fixpoint promote_sets_lua (zsets : list string) (limit now : Z) (job_prefix queue_prefix : string) (promoted : Z)
  : prog Z :=
  match zsets with
  | [] => Ret promoted
  | zset :: zsets =>
      if bool_decide (promoted < limit)
      then
        let! due := call (ZRANGEBYSCORE zset now (limit - promoted)) in
        match due with
        | RArray ids =>
            let! promoted <- promote_ids_lua ids zset job_prefix queue_prefix promoted in
            promote_sets_lua zsets limit now job_prefix queue_prefix promoted
        | _ => Raise
        end
      else promote_sets_lua zsets limit now job_prefix queue_prefix promoted
  end.
Definition promote_lua (kdelayed kretry : string) (limit : Z) (job_prefix queue_prefix : string) : prog Z :=
  let! now <- now_ms_lua in
  promote_sets_lua [kdelayed; kretry] limit now job_prefix queue_prefix 0.

(** ** heartbeat.lua *)

Definition heartbeat_lua (kworkers kworker id : string) (ttl : Z)
  (host pid queues concurrency in_flight : string) (started_at : Z) : prog Z :=
  let! now <- now_ms_lua in
  do! ZADD kworkers now id;
  do! HSET kworker
        [("id", id); ("host", host); ("pid", pid); ("queues", queues); ("concurrency", concurrency);
         ("in_flight", in_flight); ("started_at", pretty started_at); ("last_beat", pretty now)];
  do! PEXPIRE kworker ttl;
  do! ZREMRANGEBYSCORE kworkers (now - ttl);
  Ret 1.

(** ** lease_acquire.lua, lease_release.lua *)

Definition lease_acquire_lua (klease owner : string) (ttl : Z) : prog Z :=
  let! current := call (GET klease) in
  if is_nil current || is_str current owner
  then do! SETPX klease owner ttl; Ret 1
  else Ret 0.

Definition lease_release_lua (klease owner : string) : prog Z :=
  let! current := call (GET klease) in
  if is_str current owner then do! DEL klease; Ret 1 else Ret 0.

(** ** cron_claim.lua *)

Definition cron_claim_lua (kcron id : string) (fired_at next_at : Z) : prog Z :=
  let! score := call (ZSCORE kcron id) in
  if is_nil score then Ret 0
  else with_num score (λ score,
    if negb (bool_decide (score = fired_at)) then Ret 0
    else do! ZADD kcron next_at id; Ret 1).
