(* ===== verification/Redis.v ===== *)
(** * The Redis broker (internal/rdb)

    The Go methods around the scripts: key layout, arguments, replies and the
    decoding of stored jobs, on any Redis server. A failed command comes back as
    an error that wraps it. What a network may do to calls and replies is the matter of
    RedisNetwork.v; the caller's clock and the server's are not told apart. *)
From Stdlib Require Import Strings.Byte.
From S2P Require Import Prelude GoBase Job Backoff Interface BrokerAPI RedisServer RedisScripts.

(** ** Key layout (rdb.go) *)

(** The settings of a broker; the scripts and the client are the server's. *)
Record settings := mkSettings { prefix : string; completedTTL : Z }.

Definition DefaultPrefix : string := "taskq".
Definition DefaultCompletedTTL : Z := Hour.

Definition Option_ : Type := settings → settings.
Definition WithPrefix (p : string) : Option_ := λ b, mkSettings p (completedTTL b).
Definition WithCompletedTTL (d : Z) : Option_ := λ b, mkSettings (prefix b) d.

(** The scripts, in the order in which they are loaded; [ReadFile] reads an embedded file. *)
Definition scriptNames : list string :=
  ["enqueue"; "dequeue"; "ack"; "nack"; "kill"; "extend"; "reap"; "promote"; "heartbeat"; "lease_acquire"; "lease_release";
   "cron_claim"].
Definition loadScript (ReadFile : string → res string) (name : string) : res string :=
  match ReadFile ("scripts/" +:+ name +:+ ".lua") with
  | Ok src => Ok src
  | Err err => Err (Errorf "taskq/rdb: load script %s: %w" [name] [err])
  end.
Fixpoint loadScripts (ReadFile : string → res string) (names : list string) : option error :=
  match names with
  | [] => None
  | name :: names =>
      match loadScript ReadFile name with Err err => Some err | Ok _ => loadScripts ReadFile names end
  end.

(** [New], on a client that is nil or not. *)
Definition NewBroker (ReadFile : string → res string) (client : bool) (opts : list Option_) : res settings :=
  if negb client then Err (errors_New "taskq/rdb: nil redis client")
  else
    let b := foldl (λ b opt, opt b) (mkSettings DefaultPrefix DefaultCompletedTTL) opts in
    if String.eqb (prefix b) "" then Err (errors_New "taskq/rdb: empty key prefix")
    else match loadScripts ReadFile scriptNames with Some err => Err err | None => Ok b end.

Section keys.
Context (b : settings).
Definition kJob (id : string) : string := prefix b +:+ ":job:" +:+ id.
Definition kQueue (q : string) : string := prefix b +:+ ":q:" +:+ q.
Definition kActive (q : string) : string := prefix b +:+ ":active:" +:+ q.
Definition kUnique (key : string) : string := prefix b +:+ ":unique:" +:+ key.
Definition kDelayed : string := prefix b +:+ ":delayed".
Definition kRetry : string := prefix b +:+ ":retry".
Definition kDead : string := prefix b +:+ ":dead".
Definition kQueues : string := prefix b +:+ ":queues".
Definition kProcessed : string := prefix b +:+ ":stat:processed".
Definition kFailed : string := prefix b +:+ ":stat:failed".
Definition kWorkers : string := prefix b +:+ ":workers".
Definition kWorker (id : string) : string := prefix b +:+ ":worker:" +:+ id.
Definition kLease (name : string) : string := prefix b +:+ ":lease:" +:+ name.
Definition kCron : string := prefix b +:+ ":cron".
Definition pJob : string := prefix b +:+ ":job:".
Definition pActive : string := prefix b +:+ ":active:".
End keys.

(** ** Encoding (rdb.go) *)

(** [strconv.ParseInt(s, 10, 64)] and [strconv.Atoi], whose errors are dropped: 0 for what is
    not a number, the nearest value for what does not fit. *)
Definition atoi (s : string) : Z :=
  match parse_int s with
  | Some n => Z.max (- 2 ^ 63) (Z.min n (2 ^ 63 - 1))
  | None => 0
  end.

Definition msFromTime (t : Z) : Z := if IsZero t then 0 else UnixMilli t.
Definition timeFromMs (ms : Z) : Z := if bool_decide (ms = 0) then zeroTime else ms * Millisecond.

(** [d.Milliseconds()]. *)
Definition Milliseconds (d : Z) : Z := Z.quot d Millisecond.

(** [toInt64]. *)
Definition toInt64 (r : reply) : Z :=
  match r with RInt n => n | RBulk s => atoi s | _ => 0 end.

(** The map decodeJob builds from the flat array. *)
Fixpoint pairs (l : list string) : list (string * string) :=
  match l with k :: v :: l => (k, v) :: pairs l | _ => [] end.

Definition decodeJob (l : list string) : res Job :=
  if negb (Nat.even (length l))
  then Err (Errorf "taskq/rdb: malformed job hash: %d fields" [pretty (length l)] [])
  else
    let m : gmap string string := foldl (λ m kv, <[kv.1 := kv.2]> m) ∅ (pairs l) in
    let at_ f := default "" (m !! f) in
    if String.eqb (at_ "id") ""
    then Err (Errorf "%w: job hash has no id" [] [Sentinel ErrJobNotFound])
    else
      Ok (mkJob (at_ "id") (at_ "queue") (at_ "type")
            (if String.eqb (at_ "payload") "" then None else Some (String.list_byte_of_string (at_ "payload")))
            (atoi (at_ "attempt")) (atoi (at_ "max_attempts")) (atoi (at_ "recoveries")) (at_ "state")
            (at_ "owner") (at_ "unique_key") 0 (at_ "last_err") (timeFromMs (atoi (at_ "enqueued_at")))
            (timeFromMs (atoi (at_ "run_at"))) (timeFromMs (atoi (at_ "started_at")))
            (timeFromMs (atoi (at_ "deadline")))).

Definition defaultUniqueTTL : Z := Hour.

(** ** Operations *)

Section broker.
Context {DB : Type} `{RedisServer DB} (b : settings).

(** Running a script at an instant: [None] is a Redis error. *)
Definition Run {A} (now : Z) (p : prog A) (db : DB) : DB * option A := run_prog (redis_call now) p db.

(** The error a failed command is. *)
Definition redisError : error := errors_New "redis".

(** enqueue.go *)
Definition Enqueue (NewID : string) (now : Z) (j : option Job) (db : DB) : DB * option Job * option error :=
  match j with
  | None => (db, None, Some (Errorf "%w: nil job" [] [Sentinel ErrInvalidTask]))
  | Some j =>
    if String.eqb (Queue j) "" then (db, Some j, Some (Errorf "%w: job has no queue" [] [Sentinel ErrInvalidTask]))
    else if String.eqb (Type_ j) "" then (db, Some j, Some (Errorf "%w: job has no type" [] [Sentinel ErrInvalidTask]))
    else
      let j := if String.eqb (ID j) "" then set_ID NewID j else j in
      let j := if bool_decide (MaxAttempts j ≤ 0) then set_MaxAttempts DefaultMaxAttempts j else j in
      let '(uniqueTTL, uniqueKey) :=
        if String.eqb (UniqueKey j) "" then (0, kUnique b "__none__")
        else
          let ttl := if bool_decide (UniqueTTL j ≤ 0) then defaultUniqueTTL else UniqueTTL j in
          (Milliseconds ttl, kUnique b (UniqueKey j)) in
      let script :=
        enqueue_lua (kJob b (ID j)) (kQueue b (Queue j)) (kDelayed b) (kQueues b) uniqueKey
          (ID j) (Queue j) (Type_ j) (String.string_of_list_byte (default [] (Payload j)))
          (MaxAttempts j) (msFromTime (RunAt j)) uniqueTTL (UniqueKey j) in
      let '(db, res) := Run now script db in
      match res with
      | None => (db, Some j, Some (Errorf "taskq/rdb: enqueue %s: %w" [ID j] [redisError]))
      | Some [] => (db, Some j, Some (Errorf "taskq/rdb: empty enqueue reply for job %s" [ID j] []))
      | Some (r0 :: rs) =>
          if bool_decide (toInt64 r0 = 0)
          then
            let existing := match rs with RBulk s :: _ => s | _ => "" end in
            (db, Some j, Some (DuplicateError (UniqueKey j) existing))
          else
            let st := if negb (IsZero (RunAt j)) && After (RunAt j) now then StateScheduled else StatePending in
            (db, Some (set_State st j), None)
      end
  end.

(** claim.go *)
Definition Dequeue (o : ClaimOpts) (now : Z) (db : DB) : DB * res Job :=
  if String.eqb (WorkerID o) "" then (db, Err (Errorf "%w: empty worker ID" [] [Sentinel ErrInvalidTask]))
  else if bool_decide (VisibilityTimeout o ≤ 0)
  then (db, Err (Errorf "%w: visibility timeout must be positive" [] [Sentinel ErrInvalidTask]))
  else if bool_decide (length (Queues o) = 0%nat) then (db, Err (Sentinel ErrNoJob))
  else
    let keys := (λ q, (kQueue b q, kActive b q)) <$> Queues o in
    let '(db, res) := Run now (dequeue_lua keys (WorkerID o) (Milliseconds (VisibilityTimeout o)) (pJob b)) db in
    match res with
    | None => (db, Err (Errorf "taskq/rdb: dequeue: %w" [] [redisError]))
    | Some None => (db, Err (Sentinel ErrNoJob))
    | Some (Some l) => (db, decodeJob l)
    end.

Definition Extend (workerID : string) (jobIDs : list string) (vt now : Z) (db : DB) : DB * res (list string) :=
  if bool_decide (vt ≤ 0) then (db, Err (Errorf "%w: visibility timeout must be positive" [] [Sentinel ErrInvalidTask]))
  else if bool_decide (length jobIDs = 0%nat) then (db, Ok [])
  else
    let '(db, res) := Run now (extend_lua workerID (Milliseconds vt) (pJob b) (pActive b) jobIDs) db in
    match res with
    | None => (db, Err (Errorf "taskq/rdb: extend: %w" [] [redisError]))
    | Some lost => (db, Ok lost)
    end.

(** complete.go *)
Definition fenceError (res : list reply) (jobID workerID : string) : option error :=
  match res with
  | [] => Some (Errorf "taskq/rdb: empty script reply for job %s" [jobID] [])
  | r0 :: rs =>
      if bool_decide (toInt64 r0 = 1) then None
      else
        let reason := match rs with RBulk s :: _ => s | _ => "" end in
        if String.eqb reason "notfound" then Some (Errorf "%w: %s" [jobID] [Sentinel ErrJobNotFound])
        else if String.eqb reason "lease" then
          let state := match rs with _ :: RBulk s :: _ => s | _ :: _ :: _ => "" | _ => "?" end in
          let owner := match rs with _ :: _ :: RBulk s :: _ => s | _ :: _ :: _ :: _ => "" | _ => "?" end in
          Some (Errorf "%w: job %s is %s owned by %q, not %q" [jobID; state; owner; workerID] [Sentinel ErrLeaseLost])
        else Some (Errorf "taskq/rdb: job %s rejected: %s" [jobID; reason] [])
  end.

Definition report_to (now : Z) (what workerID jobID : string) (p : prog (list reply)) (db : DB) : DB * option error :=
  let '(db, res) := Run now p db in
  match res with
  | None => (db, Some (Errorf what [jobID] [redisError]))
  | Some res => (db, fenceError res jobID workerID)
  end.

(** The scripts read the server's clock, [now]. *)
Definition Ack (workerID jobID : string) (now : Z) : DB → DB * option error :=
  report_to now "taskq/rdb: ack %s: %w" workerID jobID
    (ack_lua (kJob b jobID) (kProcessed b) workerID (Milliseconds (completedTTL b)) (pActive b)).
Definition Nack (workerID jobID : string) (retryAt : Z) (reason : string) (now : Z) : DB → DB * option error :=
  report_to now "taskq/rdb: nack %s: %w" workerID jobID
    (nack_lua (kJob b jobID) (kRetry b) (kDead b) (kFailed b) workerID (msFromTime retryAt) reason (pActive b)).
Definition Kill (workerID jobID reason : string) (now : Z) : DB → DB * option error :=
  report_to now "taskq/rdb: kill %s: %w" workerID jobID
    (kill_lua (kJob b jobID) (kDead b) (kFailed b) workerID reason (pActive b)).

(** maintenance.go *)
Definition ReapDetail (queue : string) (limit now : Z) (db : DB) : DB * res (Z * Z) :=
  if bool_decide (limit ≤ 0) then (db, Ok (0, 0))
  else
    let '(db, res) :=
      Run now (reap_lua (kActive b queue) (kDead b) (kQueue b queue) (kFailed b) limit (pJob b)) db in
    match res with
    | None => (db, Err (Errorf "taskq/rdb: reap queue %s: %w" [queue] [redisError]))
    | Some (r0 :: r1 :: _) => (db, Ok (toInt64 r0, toInt64 r1))
    | Some _ => (db, Err (Errorf "taskq/rdb: malformed reap reply for queue %s" [queue] []))
    end.

(** The loop over the queues; a failure ends it, and the count so far that comes with the
    error is dropped. *)
Fixpoint reap_queues (queues : list string) (limit now total : Z) (db : DB) : DB * res Z :=
  match queues with
  | [] => (db, Ok total)
  | q :: queues =>
      match ReapDetail q limit now db with
      | (db, Err err) => (db, Err err)
      | (db, Ok (r, d)) => reap_queues queues limit now (wrap64 (total + wrap64 (r + d))) db
      end
  end.
Definition Reap (queues : list string) (limit now : Z) (db : DB) : DB * res Z :=
  if bool_decide (limit ≤ 0) then (db, Ok 0) else reap_queues queues limit now 0 db.

Definition Promote (limit now : Z) (db : DB) : DB * res Z :=
  if bool_decide (limit ≤ 0) then (db, Ok 0)
  else
    let '(db, res) := Run now (promote_lua (kDelayed b) (kRetry b) limit (pJob b) (prefix b +:+ ":q:")) db in
    match res with
    | None => (db, Err (Errorf "taskq/rdb: promote: %w" [] [redisError]))
    | Some n => (db, Ok n)
    end.

Definition Heartbeat (w : WorkerInfo) (ttl now : Z) (db : DB) : DB * option error :=
  if String.eqb (wi_ID w) "" then (db, Some (Errorf "%w: empty worker ID" [] [Sentinel ErrInvalidTask]))
  else if bool_decide (ttl ≤ 0)
  then (db, Some (Errorf "%w: heartbeat ttl must be positive" [] [Sentinel ErrInvalidTask]))
  else
    let '(db, res) :=
      Run now (heartbeat_lua (kWorkers b) (kWorker b (wi_ID w)) (wi_ID w) (Milliseconds ttl) (wi_Host w)
                 (pretty (wi_PID w)) (String.concat "," (wi_Queues w)) (pretty (wi_Concurrency w))
                 (pretty (wi_InFlight w)) (msFromTime (wi_StartedAt w))) db in
    match res with
    | None => (db, Some (Errorf "taskq/rdb: heartbeat %s: %w" [wi_ID w] [redisError]))
    | Some _ => (db, None)
    end.

Definition AcquireLease (name owner : string) (ttl now : Z) (db : DB) : DB * res bool :=
  if String.eqb name "" || String.eqb owner ""
  then (db, Err (Errorf "%w: lease name and owner must be non-empty" [] [Sentinel ErrInvalidTask]))
  else if bool_decide (ttl ≤ 0)
  then (db, Err (Errorf "%w: lease ttl must be positive" [] [Sentinel ErrInvalidTask]))
  else
    let '(db, res) := Run now (lease_acquire_lua (kLease b name) owner (Milliseconds ttl)) db in
    match res with
    | None => (db, Err (Errorf "taskq/rdb: acquire lease %s: %w" [name] [redisError]))
    | Some held => (db, Ok (bool_decide (held = 1)))
    end.

Definition ReleaseLease (name owner : string) (now : Z) (db : DB) : DB * option error :=
  if String.eqb name "" || String.eqb owner ""
  then (db, Some (Errorf "%w: lease name and owner must be non-empty" [] [Sentinel ErrInvalidTask]))
  else
    let '(db, res) := Run now (lease_release_lua (kLease b name) owner) db in
    match res with
    | None => (db, Some (Errorf "taskq/rdb: release lease %s: %w" [name] [redisError]))
    | Some _ => (db, None)
    end.

(** cron.go *)
Definition ScheduleCronIfAbsent (id : string) (at_ now : Z) (db : DB) : DB * res bool :=
  if String.eqb id "" then (db, Err (Errorf "%w: cron entry has no ID" [] [Sentinel ErrInvalidTask]))
  else
    let '(db, r) := redis_call now (ZADDNX (kCron b) (UnixMilli at_) id) db in
    match r with
    | RInt n => (db, Ok (bool_decide (n = 1)))
    | _ => (db, Err (Errorf "taskq/rdb: schedule cron %s: %w" [id] [redisError]))
    end.

(** Each due member with its score, as an entry. *)
Definition due_entries (l : list string) : list DueCronEntry :=
  (λ e, mkDueCronEntry e.1 (atoi e.2 * Millisecond)) <$> pairs l.

(** The reply of TIME, as go-redis reads it: an instant of whole microseconds. *)
Definition server_time (r : reply) : option Z :=
  match r with RArray [s; us] => Some (atoi s * Second + atoi us * 1000) | _ => None end.

(** Two commands, the state between them unchanged by the first. *)
Definition DueCron (limit now : Z) (db : DB) : DB * res (list DueCronEntry) :=
  if bool_decide (limit ≤ 0) then (db, Ok [])
  else
    let '(db, t) := redis_call now TIME db in
    match server_time t with
    | None => (db, Err (Errorf "taskq/rdb: read server time: %w" [] [redisError]))
    | Some t =>
        let '(db, r) := redis_call now (ZRANGEBYSCORE_WITHSCORES (kCron b) (UnixMilli t) limit) db in
        match r with
        | RArray l => (db, Ok (due_entries l))
        | _ => (db, Err (Errorf "taskq/rdb: read due cron entries: %w" [] [redisError]))
        end
    end.

Definition ClaimCron (id : string) (firedAt nextAt now : Z) (db : DB) : DB * res bool :=
  if String.eqb id "" then (db, Err (Errorf "%w: cron entry has no ID" [] [Sentinel ErrInvalidTask]))
  else
    let '(db, res) := Run now (cron_claim_lua (kCron b) id (UnixMilli firedAt) (UnixMilli nextAt)) db in
    match res with
    | None => (db, Err (Errorf "taskq/rdb: claim cron %s: %w" [id] [redisError]))
    | Some won => (db, Ok (bool_decide (won = 1)))
    end.

Definition RemoveCron (id : string) (now : Z) (db : DB) : DB * option error :=
  let '(db, r) := redis_call now (ZREM (kCron b) id) db in
  match r with
  | RInt _ => (db, None)
  | _ => (db, Some (Errorf "taskq/rdb: remove cron %s: %w" [id] [redisError]))
  end.

(** rdb.go: the client belongs to the caller. *)
Definition Close (db : DB) : DB * option error := (db, None).
End broker.
