(* ===== verification/RedisKeys.v ===== *)
(** * The Redis broker's keyspace, with types

    The keys the broker uses as a type of names, their layout as an injection into
    strings, the type of value each holds, and the commands on well-typed keys: no
    command of the scripts fails on a keyspace of these types, and each changes the
    one value it is about. *)
From S2P Require Import Prelude GoBase Job RedisServer RedisScripts Redis.

Create HintDb redis.
Create Rewrite HintDb redis.

(** ** Names of keys *)

Inductive kname :=
| NJob (id : string)
| NQueue (q : string)
| NActive (q : string)
| NUnique (key : string)
| NDelayed
| NRetry
| NDead
| NQueues
| NProcessed
| NFailed
| NWorkers
| NWorker (id : string)
| NLease (name : string)
| NCron.

#[export] Instance kname_eq_dec : EqDecision kname.
Proof. solve_decision. Defined.

Definition key (b : settings) (n : kname) : string :=
  match n with
  | NJob id => kJob b id
  | NQueue q => kQueue b q
  | NActive q => kActive b q
  | NUnique k => kUnique b k
  | NDelayed => kDelayed b
  | NRetry => kRetry b
  | NDead => kDead b
  | NQueues => kQueues b
  | NProcessed => kProcessed b
  | NFailed => kFailed b
  | NWorkers => kWorkers b
  | NWorker id => kWorker b id
  | NLease name => kLease b name
  | NCron => kCron b
  end.

(** The sorted sets. *)
Definition is_zset (n : kname) : bool :=
  match n with NActive _ | NDelayed | NRetry | NDead | NWorkers | NCron => true | _ => false end.

(** The value a key holds, and whether it may expire. *)
Definition typed (n : kname) (v : rvalue * option Z) : Prop :=
  match n with
  | NJob _ | NWorker _ => ∃ h e, v = (RHash h, e)
  | NQueue _ => ∃ l, v = (RList l, None)
  | NActive _ | NDelayed | NRetry | NDead | NWorkers | NCron => ∃ z, v = (RZSet z, None)
  | NQueues => ∃ s, v = (RSet s, None)
  | NProcessed | NFailed => ∃ n : Z, v = (RStr (pretty n), None)
  | NUnique _ | NLease _ => ∃ s e, v = (RStr s, e)
  end.

(** ** Accessors *)

Section keyspace.
Context (b : settings) (now : Z).
Implicit Types (ks : keyspace) (n : kname).

Definition ty_ok ks : Prop := ∀ n v, ks !! key b n = Some v → typed n v.

(** The hash of a job, with its expiry, whether it has passed or not. *)
Definition jobv ks (id : string) : option (gmap string string * option Z) :=
  match ks !! key b (NJob id) with Some (RHash h, e) => Some (h, e) | _ => None end.
Definition rl ks (q : string) : list string :=
  match ks !! key b (NQueue q) with Some (RList l, _) => l | _ => [] end.
Definition zs ks n : gmap string Z :=
  match ks !! key b n with Some (RZSet z, _) => z | _ => ∅ end.
Definition cnt ks n : Z :=
  match ks !! key b n with Some (RStr s, _) => default 0 (parse_int s) | _ => 0 end.
Definition names_of ks : gset string :=
  match ks !! key b NQueues with Some (RSet s, _) => s | _ => ∅ end.

(** ** Updates *)

Definition set_jobv (id : string) (h : gmap string string) (e : option Z) ks : keyspace :=
  <[key b (NJob id) := (RHash h, e)]> ks.
Definition set_rl (q : string) (l : list string) ks : keyspace := put_list (key b (NQueue q)) l None ks.
Definition set_zs n (z : gmap string Z) ks : keyspace := put_zset (key b n) z None ks.
Definition set_cnt n (m : Z) ks : keyspace := <[key b n := (RStr (pretty m), None)]> ks.
Definition set_names (s : gset string) ks : keyspace := <[key b NQueues := (RSet s, None)]> ks.
End keyspace.

(** ** Lemmas: the layout *)

Lemma key_inj b n1 n2 : key b n1 = key b n2 → n1 = n2.
Proof.
  assert (∀ s1 s2, prefix b +:+ s1 = prefix b +:+ s2 → s1 = s2) as Hp by (intros s1 s2; apply string_app_inj).
  destruct n1, n2; cbn [key];
    unfold kJob, kQueue, kActive, kUnique, kDelayed, kRetry, kDead, kQueues, kProcessed, kFailed, kWorkers,
      kWorker, kLease, kCron; intros H; apply Hp in H; cbn [String.append] in H; try reflexivity; try discriminate H;
    apply string_app_inj in H; by subst.
Qed.

Lemma key_ne b n1 n2 : n1 ≠ n2 → key b n1 ≠ key b n2.
Proof. intros Hne Heq. apply Hne. by eapply key_inj. Qed.

Lemma pJob_app b id : pJob b +:+ id = key b (NJob id).
Proof. unfold pJob. cbn [key]. unfold kJob. apply string_app_assoc. Qed.

Lemma pActive_app b q : pActive b +:+ q = key b (NActive q).
Proof. unfold pActive. cbn [key]. unfold kActive. apply string_app_assoc. Qed.

Lemma pQueue_app b q : (prefix b +:+ ":q:") +:+ q = key b (NQueue q).
Proof. cbn [key]. unfold kQueue. apply string_app_assoc. Qed.

Lemma lookup_key_insert b n n' v (ks : keyspace) :
  <[key b n := v]> ks !! key b n' = if decide (n = n') then Some v else ks !! key b n'.
Proof.
  destruct (decide (n = n')) as [->|Hne]; [by rewrite lookup_insert_eq|].
  rewrite lookup_insert_ne; [done|by apply key_ne].
Qed.

Lemma lookup_key_delete b n n' (ks : keyspace) :
  delete (key b n) ks !! key b n' = if decide (n = n') then None else ks !! key b n'.
Proof.
  destruct (decide (n = n')) as [->|Hne]; [by rewrite lookup_delete_eq|].
  rewrite lookup_delete_ne; [done|by apply key_ne].
Qed.

(** ** Lemmas: accessors after updates *)

Section lookups.
Context (b : settings).
Implicit Types (ks : keyspace) (n : kname).

Lemma lookup_set_zs n n' z ks :
  set_zs b n z ks !! key b n' =
  if decide (n = n') then (if bool_decide (z = ∅) then None else Some (RZSet z, None)) else ks !! key b n'.
Proof. unfold set_zs, put_zset. case_bool_decide; [apply lookup_key_delete|apply lookup_key_insert]. Qed.

Lemma lookup_set_rl q n' l ks :
  set_rl b q l ks !! key b n' =
  if decide (NQueue q = n') then (match l with [] => None | _ => Some (RList l, None) end) else ks !! key b n'.
Proof. unfold set_rl, put_list. destruct l; [apply lookup_key_delete|apply lookup_key_insert]. Qed.

(** A key other than the one written is as it was. *)
Definition only (n : kname) ks ks' : Prop := ∀ n', n' ≠ n → ks' !! key b n' = ks !! key b n'.

Lemma only_insert n v ks : only n ks (<[key b n := v]> ks).
Proof. intros n' Hne. rewrite lookup_key_insert, decide_False; done. Qed.

Lemma only_delete n ks : only n ks (delete (key b n) ks).
Proof. intros n' Hne. rewrite lookup_key_delete, decide_False; done. Qed.

Lemma only_set_zs n z ks : only n ks (set_zs b n z ks).
Proof. intros n' Hne. rewrite lookup_set_zs, decide_False; done. Qed.

Lemma only_set_rl q l ks : only (NQueue q) ks (set_rl b q l ks).
Proof. intros n' Hne. rewrite lookup_set_rl, decide_False; done. Qed.

Lemma jobv_only n ks ks' id : only n ks ks' → NJob id ≠ n → jobv b ks' id = jobv b ks id.
Proof. intros H Hne. unfold jobv. by rewrite H. Qed.
Lemma rl_only n ks ks' q : only n ks ks' → NQueue q ≠ n → rl b ks' q = rl b ks q.
Proof. intros H Hne. unfold rl. by rewrite H. Qed.
Lemma zs_only n ks ks' m : only n ks ks' → m ≠ n → zs b ks' m = zs b ks m.
Proof. intros H Hne. unfold zs. by rewrite H. Qed.

(** What is written. *)
Lemma jobv_set_jobv id h e ks id' :
  jobv b (set_jobv b id h e ks) id' = if decide (id = id') then Some (h, e) else jobv b ks id'.
Proof.
  destruct (decide (id = id')) as [->|Hne]; [unfold jobv, set_jobv; by rewrite lookup_insert_eq|].
  apply (jobv_only (NJob id)); [apply only_insert|congruence].
Qed.
Lemma jobv_delete id ks id' :
  jobv b (delete (key b (NJob id)) ks) id' = if decide (id = id') then None else jobv b ks id'.
Proof.
  destruct (decide (id = id')) as [->|Hne]; [unfold jobv; by rewrite lookup_delete_eq|].
  apply (jobv_only (NJob id)); [apply only_delete|congruence].
Qed.
Lemma rl_set_rl q l ks q' : rl b (set_rl b q l ks) q' = if decide (q = q') then l else rl b ks q'.
Proof.
  destruct (decide (q = q')) as [->|Hne]; [|apply (rl_only (NQueue q)); [apply only_set_rl|congruence]].
  unfold rl. rewrite lookup_set_rl, decide_True by done. by destruct l.
Qed.
Lemma zs_set_zs n z ks n' : zs b (set_zs b n z ks) n' = if decide (n = n') then z else zs b ks n'.
Proof.
  destruct (decide (n = n')) as [->|Hne]; [|apply (zs_only n); [apply only_set_zs|done]].
  unfold zs. rewrite lookup_set_zs, decide_True by done. case_bool_decide; [by subst|done].
Qed.

(** What is left alone. *)
Lemma jobv_set_rl q l ks id : jobv b (set_rl b q l ks) id = jobv b ks id.
Proof. by apply (jobv_only _ _ _ _ (only_set_rl q l ks)). Qed.
Lemma jobv_set_zs n z ks id : is_zset n = true → jobv b (set_zs b n z ks) id = jobv b ks id.
Proof. intros Hz. apply (jobv_only n); [apply only_set_zs|]. by intros <-. Qed.
Lemma rl_set_jobv id h e ks q : rl b (set_jobv b id h e ks) q = rl b ks q.
Proof. by apply (rl_only _ _ _ _ (only_insert (NJob id) _ ks)). Qed.
Lemma rl_delete_job id ks q : rl b (delete (key b (NJob id)) ks) q = rl b ks q.
Proof. by apply (rl_only _ _ _ _ (only_delete (NJob id) ks)). Qed.
Lemma rl_set_zs n z ks q : is_zset n = true → rl b (set_zs b n z ks) q = rl b ks q.
Proof. intros Hz. apply (rl_only n); [apply only_set_zs|]. by intros <-. Qed.
Lemma zs_set_jobv id h e ks n : is_zset n = true → zs b (set_jobv b id h e ks) n = zs b ks n.
Proof. intros Hz. apply (zs_only (NJob id)); [apply only_insert|]. by intros ->. Qed.
Lemma zs_delete_job id ks n : is_zset n = true → zs b (delete (key b (NJob id)) ks) n = zs b ks n.
Proof. intros Hz. apply (zs_only (NJob id)); [apply only_delete|]. by intros ->. Qed.
Lemma zs_set_rl q l ks n : is_zset n = true → zs b (set_rl b q l ks) n = zs b ks n.
Proof. intros Hz. apply (zs_only (NQueue q)); [apply only_set_rl|]. by intros ->. Qed.

(** ** Lemmas: types *)

Lemma ty_insert n v ks : ty_ok b ks → typed n v → ty_ok b (<[key b n := v]> ks).
Proof. intros H Hv n' v'. rewrite lookup_key_insert. case_decide as E; [|by apply H]. intros [= <-]. by subst. Qed.
Lemma ty_delete n ks : ty_ok b ks → ty_ok b (delete (key b n) ks).
Proof. intros H n' v'. rewrite lookup_key_delete. case_decide; [done|by apply H]. Qed.
Lemma ty_set_jobv id h e ks : ty_ok b ks → ty_ok b (set_jobv b id h e ks).
Proof. intros H. apply ty_insert; [done|]. by exists h, e. Qed.
Lemma ty_set_rl q l ks : ty_ok b ks → ty_ok b (set_rl b q l ks).
Proof. intros H. unfold set_rl, put_list. destruct l; [by apply ty_delete|]. apply (ty_insert (NQueue q)); [done|by eexists]. Qed.
Lemma ty_set_zs n z ks : is_zset n = true → ty_ok b ks → ty_ok b (set_zs b n z ks).
Proof.
  intros Hn H. unfold set_zs, put_zset. case_bool_decide; [by apply ty_delete|]. apply ty_insert; [done|].
  destruct n; try done; by exists z.
Qed.
Lemma ty_set_cnt n m ks : n = NProcessed ∨ n = NFailed → ty_ok b ks → ty_ok b (set_cnt b n m ks).
Proof. intros Hn H. apply ty_insert; [done|]. destruct Hn as [-> | ->]; by exists m. Qed.
Lemma ty_set_names s ks : ty_ok b ks → ty_ok b (set_names b s ks).
Proof. intros H. apply (ty_insert NQueues); [done|]. by exists s. Qed.

(** A key that does not expire is there. *)
Lemma live_forever now n ks :
  ty_ok b ks → match n with NJob _ | NWorker _ | NUnique _ | NLease _ => False | _ => True end →
  live now ks (key b n) = ks !! key b n.
Proof.
  intros H Hn. unfold live. destruct (ks !! key b n) as [v|] eqn:E; [|done]. apply H in E.
  destruct n; try done; cbn [typed] in E; destruct_and?; by destruct E as [? ->].
Qed.

(** A job's hash, unless it has expired. *)
Definition live_job (now : Z) ks (id : string) : option (gmap string string * option Z) :=
  match jobv b ks id with
  | Some (h, Some e) => if bool_decide (e < UnixMilli now) then None else Some (h, Some e)
  | r => r
  end.

Lemma live_job_spec now ks id :
  ty_ok b ks →
  live now ks (key b (NJob id)) =
    match live_job now ks id with Some (h, e) => Some (RHash h, e) | None => None end.
Proof.
  intros H. unfold live, live_job, jobv. destruct (ks !! key b (NJob id)) as [v|] eqn:E; [|done].
  apply H in E as (h & e & ->). destruct e; [|done]. by case_bool_decide.
Qed.
End lookups.

#[export] Hint Rewrite jobv_set_jobv jobv_delete rl_set_rl zs_set_zs jobv_set_rl rl_set_jobv rl_delete_job : redis.
#[export] Hint Rewrite jobv_set_zs rl_set_zs zs_set_jobv zs_delete_job zs_set_rl using done : redis.
#[export] Hint Resolve ty_set_jobv ty_set_rl ty_set_zs ty_set_cnt ty_set_names ty_delete : redis.

(** ** Lemmas: commands on well-typed keys *)

Section commands.
Context (b : settings) (now : Z).
Implicit Types (ks : keyspace) (n : kname).

Lemma zset_at_ty n ks : is_zset n = true → ty_ok b ks → zset_at now ks (key b n) = Some (zs b ks n, None).
Proof.
  intros Hn H. unfold zset_at, zs. rewrite live_forever; [|done|by destruct n].
  destruct (ks !! key b n) as [v|] eqn:E; [|done]. apply H in E. destruct n; try done; by destruct E as [z ->].
Qed.

Lemma list_at_ty q ks : ty_ok b ks → list_at now ks (key b (NQueue q)) = Some (rl b ks q, None).
Proof.
  intros H. unfold list_at, rl. rewrite live_forever by done.
  destruct (ks !! key b (NQueue q)) as [v|] eqn:E; [|done]. by apply H in E as [l ->].
Qed.

Lemma hash_at_ty id ks : ty_ok b ks →
  hash_at now ks (key b (NJob id)) = Some (default (∅, None) (live_job b now ks id)).
Proof. intros H. unfold hash_at. rewrite live_job_spec by done. by destruct (live_job b now ks id) as [[h e]|]. Qed.

Lemma doc_ZADD n s m ks :
  is_zset n = true → ty_ok b ks →
  documented now (ZADD (key b n) s m) ks =
    (set_zs b n (<[m := s]> (zs b ks n)) ks, RInt (if zs b ks n !! m is Some _ then 0 else 1)).
Proof.
  intros Hn H. cbn [documented]. rewrite zset_at_ty by done. unfold set_zs, put_zset.
  rewrite bool_decide_eq_false_2; [done|]. apply insert_non_empty.
Qed.

Lemma doc_ZREM n m ks :
  is_zset n = true → ty_ok b ks →
  documented now (ZREM (key b n) m) ks =
    if zs b ks n !! m is Some _ then (set_zs b n (delete m (zs b ks n)) ks, RInt 1) else (ks, RInt 0).
Proof. intros Hn H. cbn [documented]. rewrite zset_at_ty by done. done. Qed.

Lemma doc_ZRANGE n max limit ks :
  is_zset n = true → ty_ok b ks →
  documented now (ZRANGEBYSCORE (key b n) max limit) ks =
    (ks, RArray (take (Z.to_nat limit) (in_score_order (zs b ks n) max)).*1).
Proof. intros Hn H. cbn [documented]. by rewrite zset_at_ty. Qed.

Lemma doc_LPOP q ks :
  ty_ok b ks →
  documented now (LPOP (key b (NQueue q))) ks =
    match rl b ks q with [] => (ks, RNil) | x :: l => (set_rl b q l ks, RBulk x) end.
Proof. intros H. cbn [documented]. rewrite list_at_ty by done. by destruct (rl b ks q). Qed.

Lemma doc_LPUSH q v ks :
  ty_ok b ks →
  documented now (LPUSH (key b (NQueue q)) v) ks =
    (set_rl b q (v :: rl b ks q) ks, RInt (Z.of_nat (length (rl b ks q)) + 1)).
Proof. intros H. cbn [documented]. by rewrite list_at_ty. Qed.

Lemma doc_RPUSH q v ks :
  ty_ok b ks →
  documented now (RPUSH (key b (NQueue q)) v) ks =
    (set_rl b q (rl b ks q ++ [v]) ks, RInt (Z.of_nat (length (rl b ks q)) + 1)).
Proof. intros H. cbn [documented]. by rewrite list_at_ty. Qed.

Lemma doc_EXISTS id ks :
  ty_ok b ks →
  documented now (EXISTS (key b (NJob id))) ks = (ks, RInt (if live_job b now ks id is Some _ then 1 else 0)).
Proof. intros H. cbn [documented]. rewrite live_job_spec by done. by destruct (live_job b now ks id) as [[h e]|]. Qed.

Lemma doc_HGET id f ks h e :
  ty_ok b ks → live_job b now ks id = Some (h, e) →
  documented now (HGET (key b (NJob id)) f) ks = (ks, match h !! f with Some v => RBulk v | None => RNil end).
Proof. intros H Hj. cbn [documented]. by rewrite hash_at_ty, Hj. Qed.

Lemma doc_HGETALL id ks h e :
  ty_ok b ks → live_job b now ks id = Some (h, e) →
  documented now (HGETALL (key b (NJob id))) ks = (ks, RArray (flat h)).
Proof. intros H Hj. cbn [documented]. by rewrite hash_at_ty, Hj. Qed.

Lemma doc_HSET id fvs ks :
  ty_ok b ks →
  let '(h, e) := default (∅, None) (live_job b now ks id) in
  ∃ r, documented now (HSET (key b (NJob id)) fvs) ks =
    (set_jobv b id (foldl (λ h fv, <[fv.1 := fv.2]> h) h fvs) e ks, RInt r).
Proof. intros H. cbn [documented]. rewrite hash_at_ty by done. destruct (default _ _) as [h e]. by eexists. Qed.

Lemma doc_HINCRBY id f m ks h e s :
  ty_ok b ks → live_job b now ks id = Some (h, e) → h !! f = Some (pretty s) →
  documented now (HINCRBY (key b (NJob id)) f m) ks =
    (set_jobv b id (<[f := pretty (s + m)]> h) e ks, RInt (s + m)).
Proof. intros H Hj Hf. cbn [documented]. rewrite hash_at_ty, Hj by done. simpl. by rewrite Hf; simpl; rewrite parse_int_pretty. Qed.

Lemma doc_PEXPIRE id ms ks h e :
  ty_ok b ks → live_job b now ks id = Some (h, e) → 0 < ms →
  documented now (PEXPIRE (key b (NJob id)) ms) ks = (set_jobv b id h (Some (UnixMilli now + ms)) ks, RInt 1).
Proof. intros H Hj Hms. cbn [documented]. rewrite live_job_spec, Hj by done. by rewrite bool_decide_eq_false_2 by lia. Qed.

Lemma doc_INCR n ks :
  n = NProcessed ∨ n = NFailed → ty_ok b ks →
  ∃ m, documented now (INCR (key b n)) ks = (set_cnt b n m ks, RInt m).
Proof.
  intros Hn H. cbn [documented]. rewrite live_forever; [|done|by destruct Hn as [-> | ->]].
  destruct (ks !! key b n) as [v|] eqn:E; [|by exists 1].
  apply H in E. assert (∃ m : Z, v = (RStr (pretty m), None)) as [m ->] by (by destruct Hn as [-> | ->]).
  simpl. rewrite parse_int_pretty. by exists (m + 1).
Qed.

Lemma doc_SADD q ks :
  ty_ok b ks → ∃ s r, documented now (SADD (key b NQueues) q) ks = (set_names b s ks, RInt r).
Proof.
  intros H. cbn [documented]. rewrite live_forever by done. destruct (ks !! key b NQueues) as [v|] eqn:E; [|by do 2 eexists].
  apply H in E as [s ->]. by do 2 eexists.
Qed.

(** The clock of the scripts. *)
Lemma run_now_ms ks : run_prog (documented now) now_ms_lua ks = (ks, Some (UnixMilli now)).
Proof.
  unfold now_ms_lua. cbn [run_prog documented]. rewrite !parse_int_pretty. cbn [run_prog]. do 2 f_equal.
  unfold UnixMilli. unfold_durations. change (1000 * 1000000) with 1000000000.
  Z.to_euclidean_division_equations; lia.
Qed.
End commands.
