(* ===== verification/RedisTypes.v ===== *)
(** * Every key keeps its type

    A command that suits the type of its key leaves every key with its type, and all
    the commands of all the scripts do: on a server that holds nothing else under the
    broker's prefix, no script can meet a value of a type it does not expect. The same
    traversal shows which keys a script can reach. *)
From S2P Require Import Prelude GoBase Job Backoff Interface BrokerAPI RedisServer RedisScripts Redis RedisKeys.

(** The names of keys a command may change, by what it does to them. *)
Definition suits (c : cmd) (n : kname) : Prop :=
  match c with
  | HSET _ _ | HINCRBY _ _ _ => match n with NJob _ | NWorker _ => True | _ => False end
  | PEXPIRE _ _ => match n with NJob _ | NWorker _ | NUnique _ | NLease _ => True | _ => False end
  | SETPX _ _ _ | SETNXPX _ _ _ => match n with NUnique _ | NLease _ => True | _ => False end
  | INCR _ => n = NProcessed ∨ n = NFailed
  | LPOP _ | LPUSH _ _ | RPUSH _ _ => match n with NQueue _ => True | _ => False end
  | SADD _ _ => n = NQueues
  | ZADD _ _ _ | ZADDNX _ _ _ | ZREM _ _ | ZREMRANGEBYSCORE _ _ => is_zset n = true
  | _ => True
  end.

Section types.
Context (b : settings).
Implicit Types (ks : keyspace) (n : kname).

(** A command on one of the keys in [P]. *)
Definition cmd_ok (P : kname → Prop) (c : cmd) : Prop :=
  match cmd_key c with
  | None => True
  | Some k => ∃ n, k = key b n ∧ suits c n ∧ P n
  end.
Fixpoint prog_ok {A} (P : kname → Prop) (p : prog A) : Prop :=
  match p with
  | Ret _ | Raise => True
  | Call c f => cmd_ok P c ∧ ∀ r, prog_ok P (f r)
  end.

(** ** Lemmas *)

(** What a key of each type shows a command. *)
Lemma live_typed now n ks v : ty_ok b ks → live now ks (key b n) = Some v → typed n v.
Proof.
  intros H Hv. apply H. unfold live in Hv. destruct (ks !! key b n) as [[w [e|]]|]; [|done|done].
  by case_bool_decide.
Qed.

Lemma documented_ty now c n ks : cmd_key c = Some (key b n) → suits c n → ty_ok b ks → ty_ok b (documented now c ks).1.
Proof.
  intros Hk Hs H. destruct c; cbn [cmd_key] in Hk; try discriminate Hk; injection Hk as ->; cbn [suits] in Hs; cbn [documented].
  - done.
  - by apply ty_delete.
  - destruct (live now ks (key b n)) as [[v e]|] eqn:E; [|done]. case_bool_decide; [by apply ty_delete|].
    apply ty_insert; [done|]. apply live_typed in E; [|done]. destruct n; try done; destruct E as (? & ? & [= -> ->]); by do 2 eexists.
  - by destruct (live now ks (key b n)) as [[[] ?]|].
  - case_bool_decide; [done|]. apply ty_insert; [done|]. destruct n; try done; by do 2 eexists.
  - case_bool_decide; [done|]. destruct (live now ks (key b n)); [done|]. apply ty_insert; [done|]. destruct n; try done; by do 2 eexists.
  - destruct (doc_INCR b now n ks Hs H) as [m Hm]. cbn [documented] in Hm. rewrite Hm. by apply ty_set_cnt.
  - by destruct (hash_at now ks (key b n)) as [[]|].
  - destruct (hash_at now ks (key b n)) as [[]|]; [|done]. apply ty_insert; [done|]. destruct n; try done; by do 2 eexists.
  - destruct (hash_at now ks (key b n)) as [[]|]; [|done]. destruct (parse_int _); [|done]. apply ty_insert; [done|]. destruct n; try done; by do 2 eexists.
  - by destruct (hash_at now ks (key b n)) as [[]|].
  - destruct n as [|q| | | | | | | | | | | |]; try done. rewrite list_at_ty by done. destruct (rl b ks q) as [|x l]; [done|]. exact (ty_set_rl b q l ks H).
  - destruct n as [|q| | | | | | | | | | | |]; try done. rewrite list_at_ty by done. exact (ty_set_rl b q (v :: rl b ks q) ks H).
  - destruct n as [|q| | | | | | | | | | | |]; try done. rewrite list_at_ty by done. exact (ty_set_rl b q (rl b ks q ++ [v]) ks H).
  - subst n. destruct (doc_SADD b now m ks H) as (s & r & Hm). cbn [documented] in Hm. rewrite Hm. by apply ty_set_names.
  - rewrite zset_at_ty by done. apply ty_insert; [done|]. destruct n; try done; by eexists.
  - rewrite zset_at_ty by done. case_match; [done|]. apply ty_insert; [done|]. destruct n; try done; by eexists.
  - rewrite zset_at_ty by done. case_match; [|done]. cbn [fst]. by apply (ty_set_zs b n).
  - by destruct (zset_at now ks (key b n)) as [[]|].
  - by destruct (zset_at now ks (key b n)) as [[]|].
  - by destruct (zset_at now ks (key b n)) as [[]|].
  - rewrite zset_at_ty by done. cbn [fst]. by apply (ty_set_zs b n).
  - by destruct (zset_at now ks (key b n)) as [[]|].
  - by destruct (zset_at now ks (key b n)) as [[]|].
  - by destruct (set_at now ks (key b n)).
  - by destruct (set_at now ks (key b n)).
  - by destruct (list_at now ks (key b n)) as [[]|].
Qed.

Lemma run_ty {A} now P (p : prog A) ks : prog_ok P p → ty_ok b ks → ty_ok b (run_prog (documented now) p ks).1.
Proof.
  revert ks. induction p as [a| |c f IH]; intros ks; [done..|]. intros [Hc Hf] Hty. cbn [run_prog].
  assert (ty_ok b (documented now c ks).1) as Hty1.
  { unfold cmd_ok in Hc. destruct (cmd_key c) as [k|] eqn:E; [|by destruct c]. destruct Hc as (n & -> & Hs & _). by eapply documented_ty. }
  destruct (documented now c ks) as [ks1 r]. destruct r; try done; by apply IH.
Qed.

(** Keys out of the set are not touched. *)
Lemma prog_ok_avoids {A} (P : kname → Prop) (p : prog A) n : ¬ P n → prog_ok P p → avoids (key b n) p.
Proof.
  intros Hn. induction p as [a| |c f IH]; [done..|]. intros [Hc Hf]. split; [|intros r; by apply IH].
  unfold cmd_ok in Hc. intros E. rewrite E in Hc. destruct Hc as (n' & Hk & _ & HP). by apply key_inj in Hk as ->.
Qed.

(** Nor are the keys of others. *)
Lemma prog_ok_foreign {A} (P : kname → Prop) (p : prog A) k : (∀ n, k ≠ key b n) → prog_ok P p → avoids k p.
Proof.
  intros Hk. induction p as [a| |c f IH]; [done..|]. intros [Hc Hf]. split; [|intros r; by apply IH].
  unfold cmd_ok in Hc. intros E. rewrite E in Hc. destruct Hc as (n' & Hn' & _). by apply Hk in Hn'.
Qed.

Lemma prog_ok_mono {A} (P Q : kname → Prop) (p : prog A) : (∀ n, P n → Q n) → prog_ok P p → prog_ok Q p.
Proof.
  intros HPQ. induction p as [a| |c f IH]; [done..|]. intros [Hc Hf]. split; [|intros r; by apply IH].
  unfold cmd_ok in *. destruct (cmd_key c); [|done]. destruct Hc as (n & ? & ? & ?). exists n. auto.
Qed.

Lemma prog_ok_bind {A B} P (p : prog A) (f : A → prog B) : prog_ok P p → (∀ a, prog_ok P (f a)) → prog_ok P (prog_bind p f).
Proof. intros Hp Hf. induction p as [a| |c g IH]; [apply Hf|done|]. destruct Hp as [Hc Hg]. split; [done|]. intros r. by apply IH. Qed.

Lemma prog_ok_clock P : prog_ok P now_ms_lua.
Proof. split; [done|]. intros r. by repeat case_match. Qed.

Lemma prog_ok_str {A} P r (k : string → prog A) : (∀ s, prog_ok P (k s)) → prog_ok P (with_str r k).
Proof. intros Hk. destruct r; try done. apply Hk. Qed.
Lemma prog_ok_num {A} P r (k : Z → prog A) : (∀ s, prog_ok P (k s)) → prog_ok P (with_num r k).
Proof. intros Hk. destruct r; try done. cbn. case_match; [apply Hk|done]. Qed.
End types.

(** A step of a traversal: a command on a known key, a branch, a call of a helper. *)
Ltac prog_step :=
  lazymatch goal with
  | |- prog_ok _ _ (Ret _) => exact I
  | |- prog_ok _ _ Raise => exact I
  | |- prog_ok _ _ (Call _ _) =>
      rewrite ?pJob_app, ?pActive_app, ?pQueue_app;
      split; [first [exact I | eexists; split; [reflexivity|split; cbn; auto]]|intros ?]
  | |- prog_ok _ _ (prog_bind now_ms_lua _) => apply prog_ok_bind; [apply prog_ok_clock|intros ?]
  | |- prog_ok _ _ (with_str _ _) => apply prog_ok_str; intros ?
  | |- prog_ok _ _ (with_num _ _) => apply prog_ok_num; intros ?
  | |- prog_ok _ _ (match ?x with _ => _ end) => destruct x
  | |- prog_ok _ _ _ => progress rewrite ?pJob_app, ?pActive_app, ?pQueue_app
  end.

(** ** The scripts *)

Section scripts.
Context (b : settings).

(** The keys of jobs and their places, and the names of the queues and the counters. *)
Definition job_key (n : kname) : Prop :=
  match n with NWorkers | NWorker _ | NLease _ | NCron => False | _ => True end.
(** These without the count of completed jobs, which only an acknowledgement touches, and the
    unique keys, of which Enqueue touches its own. *)
Definition work_key (n : kname) : Prop :=
  match n with NWorkers | NWorker _ | NLease _ | NCron | NProcessed | NUnique _ => False | _ => True end.
Definition ack_key (n : kname) : Prop := work_key n ∨ n = NProcessed.
Definition enqueue_key (ukey : string) (ttl : Z) (n : kname) : Prop := work_key n ∨ n = NUnique ukey ∧ 0 < ttl.

Lemma store_ok id q type_ payload m t u now :
  prog_ok b work_key (store_lua (key b (NJob id)) (key b (NQueue q)) (key b NDelayed) (key b NQueues) id q type_ payload m t u now).
Proof. unfold store_lua. cbv zeta. repeat prog_step. Qed.

Lemma enqueue_ok id q type_ payload m t ttl u ukey :
  prog_ok b (enqueue_key ukey ttl) (enqueue_lua (key b (NJob id)) (key b (NQueue q)) (key b NDelayed) (key b NQueues) (key b (NUnique ukey))
                       id q type_ payload m t ttl u).
Proof.
  unfold enqueue_lua. prog_step. case_bool_decide; repeat first [apply (prog_ok_mono b work_key), store_ok; by left|prog_step].
  all: right; split; [done|lia].
Qed.

Lemma pop_ok n q w now vt :
  prog_ok b work_key (pop_lua n (key b (NQueue q)) (key b (NActive q)) w (pJob b) now vt).
Proof. induction n as [|n IH]; [done|]. cbn [pop_lua]. repeat first [exact IH|prog_step|unfold claim_lua; prog_step]. Qed.

Lemma dequeue_ok queues w vt :
  prog_ok b work_key (dequeue_lua ((λ q, (key b (NQueue q), key b (NActive q))) <$> queues) w vt (pJob b)).
Proof.
  unfold dequeue_lua. prog_step. induction queues as [|q queues IH]; [done|]. rewrite fmap_cons. cbn [queues_lua].
  apply prog_ok_bind; [apply pop_ok|]. intros [l|]; [done|exact IH].
Qed.

Lemma ack_ok id w ttl : prog_ok b ack_key (ack_lua (key b (NJob id)) (key b NProcessed) w ttl (pActive b)).
Proof. unfold ack_lua, fence_lua, release_lua. repeat prog_step; try (by left); try (by right); auto. Qed.
Lemma nack_ok id w t reason :
  prog_ok b work_key (nack_lua (key b (NJob id)) (key b NRetry) (key b NDead) (key b NFailed) w t reason (pActive b)).
Proof. unfold nack_lua, fence_lua, release_lua. repeat prog_step; auto. Qed.
Lemma kill_ok id w reason :
  prog_ok b work_key (kill_lua (key b (NJob id)) (key b NDead) (key b NFailed) w reason (pActive b)).
Proof. unfold kill_lua, fence_lua, release_lua. repeat prog_step; auto. Qed.

Lemma extend_ok w vt ids : prog_ok b work_key (extend_lua w vt (pJob b) (pActive b) ids).
Proof.
  unfold extend_lua. prog_step. generalize (@nil string). induction ids as [|id ids IH]; intros lost; [done|].
  cbn [extend_ids_lua]. cbv zeta. repeat first [apply IH|prog_step].
Qed.
Lemma reap_ok q limit :
  prog_ok b work_key (reap_lua (key b (NActive q)) (key b NDead) (key b (NQueue q)) (key b NFailed) limit (pJob b)).
Proof.
  unfold reap_lua. prog_step. prog_step. destruct r; try done. generalize 0 at 1. generalize 0.
  induction l as [|id ids IH]; intros d r; [done|]. cbn [reap_ids_lua]. cbv zeta. repeat first [apply IH|prog_step].
Qed.
Lemma promote_ok limit :
  prog_ok b work_key (promote_lua (key b NDelayed) (key b NRetry) limit (pJob b) (prefix b +:+ ":q:")).
Proof.
  assert (∀ n ids m, n = NDelayed ∨ n = NRetry →
    prog_ok b work_key (promote_ids_lua ids (key b n) (pJob b) (prefix b +:+ ":q:") m)) as Hids.
  { intros n ids m Hn. revert m. induction ids as [|id ids IH]; intros m; [done|]. cbn [promote_ids_lua]. cbv zeta.
    destruct Hn as [-> | ->]; repeat first [apply IH; by auto|prog_step]. }
  unfold promote_lua. prog_step. cbn [promote_sets_lua].
  repeat first [apply prog_ok_bind; [apply Hids; by auto|intros ?]|prog_step].
Qed.

Lemma heartbeat_ok id ttl host pid queues c f t :
  prog_ok b (λ n, n = NWorkers ∨ n = NWorker id)
    (heartbeat_lua (key b NWorkers) (key b (NWorker id)) id ttl host pid queues c f t).
Proof. unfold heartbeat_lua. repeat prog_step; auto. Qed.
Lemma acquire_ok name owner ttl : prog_ok b (.= NLease name) (lease_acquire_lua (key b (NLease name)) owner ttl).
Proof. unfold lease_acquire_lua. repeat prog_step. Qed.
Lemma release_ok name owner : prog_ok b (.= NLease name) (lease_release_lua (key b (NLease name)) owner).
Proof. unfold lease_release_lua. repeat prog_step. Qed.
Lemma claim_ok id fired next : prog_ok b (.= NCron) (cron_claim_lua (key b NCron) id fired next).
Proof. unfold cron_claim_lua. repeat prog_step. Qed.
End scripts.
