(* ===== verification/RedisInv.v ===== *)
(** * The invariant of the Redis broker

    How a job is stored as a hash, and where: in every state the broker's scripts can
    produce, a stored job is in exactly the list or sorted set its state names, and
    nothing else is in them. *)
From Stdlib Require Import Strings.Byte.
From S2P Require Import Prelude GoBase Job Backoff Interface BrokerAPI RedisServer RedisScripts Redis RedisKeys.

(** ** Definitions *)

(** The fields of a job's hash. *)
Definition field (j : Job) (f : string) : option string :=
  if String.eqb f "id" then Some (ID j)
  else if String.eqb f "queue" then Some (Queue j)
  else if String.eqb f "type" then Some (Type_ j)
  else if String.eqb f "payload" then Some (String.string_of_list_byte (default [] (Payload j)))
  else if String.eqb f "attempt" then Some (pretty (Attempt j))
  else if String.eqb f "max_attempts" then Some (pretty (MaxAttempts j))
  else if String.eqb f "recoveries" then Some (pretty (Recoveries j))
  else if String.eqb f "state" then Some (State_ j)
  else if String.eqb f "owner" then Some (Owner j)
  else if String.eqb f "unique_key" then Some (UniqueKey j)
  else if String.eqb f "last_err" then Some (LastErr j)
  else if String.eqb f "enqueued_at" then Some (pretty (msFromTime (EnqueuedAt j)))
  else if String.eqb f "run_at" then Some (pretty (msFromTime (RunAt j)))
  else if String.eqb f "started_at" then Some (pretty (msFromTime (StartedAt j)))
  else if String.eqb f "deadline" then Some (pretty (msFromTime (Deadline j)))
  else None.

Definition hash_of (h : gmap string string) (j : Job) : Prop := ∀ f, h !! f = field j f.

(** An instant that survives being stored in milliseconds. *)
Definition time_ok (t : Z) : Prop := timeFromMs (atoi (pretty (msFromTime t))) = t.

(** The states in which a job still has an attempt to make. *)
Definition waiting_state (s : State) : Prop := s = StatePending ∨ s = StateScheduled ∨ s = StateRetry.

Record rjob_ok (id : string) (j : Job) : Prop := mkRjobOk {
  rj_id : ID j = id;
  rj_ne : id ≠ "";
  rj_queue : Queue j ≠ "";
  rj_type : Type_ j ≠ "";
  rj_max : 0 < MaxAttempts j ≤ 2 ^ 53;
  rj_attempt : 0 ≤ Attempt j ≤ MaxAttempts j;
  rj_left : waiting_state (State_ j) → Attempt j < MaxAttempts j;
  rj_rec : 0 ≤ Recoveries j ≤ Attempt j;
  rj_rec_active : State_ j = StateActive → Recoveries j < Attempt j;
  rj_payload : Payload j ≠ Some [];
  rj_ttl : UniqueTTL j = 0;
  rj_times : time_ok (EnqueuedAt j) ∧ time_ok (RunAt j) ∧ time_ok (StartedAt j) ∧ time_ok (Deadline j);
  rj_owner : State_ j = StateActive ↔ Owner j ≠ "";
  rj_state : waiting_state (State_ j) ∨ State_ j = StateActive ∨ State_ j = StateDead ∨ State_ j = StateCompleted
}.

Section inv.
Context (b : settings).
Implicit Types (ks : keyspace) (id : string).

(** Where an identifier is, as the job under it says. *)
Record spot ks id (oj : option Job) : Prop := mkSpot {
  sp_ready q : id ∈ rl b ks q ↔ ∃ j, oj = Some j ∧ State_ j = StatePending ∧ Queue j = q;
  sp_active q d : zs b ks (NActive q) !! id = Some d ↔
    ∃ j, oj = Some j ∧ State_ j = StateActive ∧ Queue j = q ∧ d = msFromTime (Deadline j);
  sp_delayed : is_Some (zs b ks NDelayed !! id) ↔ ∃ j, oj = Some j ∧ State_ j = StateScheduled;
  sp_retry : is_Some (zs b ks NRetry !! id) ↔ ∃ j, oj = Some j ∧ State_ j = StateRetry;
  sp_dead : is_Some (zs b ks NDead !! id) ↔ ∃ j, oj = Some j ∧ State_ j = StateDead
}.

Definition at_ok ks id : Prop :=
  match jobv b ks id with
  | None => spot ks id None
  | Some (h, e) =>
      ∃ j, hash_of h j ∧ rjob_ok id j ∧ (is_Some e → State_ j = StateCompleted) ∧ spot ks id (Some j)
  end.

Record rinv ks : Prop := mkRinv {
  ri_ty : ty_ok b ks;
  ri_at : ∀ id, at_ok ks id;
  ri_nodup : ∀ q, NoDup (rl b ks q)
}.

(** The job stored under an identifier. *)
Definition jobj ks id : option Job :=
  match jobv b ks id with
  | Some (h, _) => match decodeJob (flat h) with Ok j => Some j | Err _ => None end
  | None => None
  end.
End inv.

(** ** Lemmas: hashes *)

Lemma field_set_State s j f : f ≠ "state" → field (set_State s j) f = field j f.
Proof. intros Hne. unfold field. by rewrite (proj2 (String.eqb_neq f "state") Hne). Qed.
Lemma field_set_Owner s j f : f ≠ "owner" → field (set_Owner s j) f = field j f.
Proof. intros Hne. unfold field. by rewrite (proj2 (String.eqb_neq f "owner") Hne). Qed.
Lemma field_set_LastErr s j f : f ≠ "last_err" → field (set_LastErr s j) f = field j f.
Proof. intros Hne. unfold field. by rewrite (proj2 (String.eqb_neq f "last_err") Hne). Qed.
Lemma field_set_Attempt n j f : f ≠ "attempt" → field (set_Attempt n j) f = field j f.
Proof. intros Hne. unfold field. by rewrite (proj2 (String.eqb_neq f "attempt") Hne). Qed.
Lemma field_set_Recoveries n j f : f ≠ "recoveries" → field (set_Recoveries n j) f = field j f.
Proof. intros Hne. unfold field. by rewrite (proj2 (String.eqb_neq f "recoveries") Hne). Qed.
Lemma field_set_StartedAt t j f : f ≠ "started_at" → field (set_StartedAt t j) f = field j f.
Proof. intros Hne. unfold field. by rewrite (proj2 (String.eqb_neq f "started_at") Hne). Qed.
Lemma field_set_Deadline t j f : f ≠ "deadline" → field (set_Deadline t j) f = field j f.
Proof. intros Hne. unfold field. by rewrite (proj2 (String.eqb_neq f "deadline") Hne). Qed.

Lemma hash_set f v h j j' :
  hash_of h j → field j' f = Some v → (∀ f', f' ≠ f → field j' f' = field j f') → hash_of (<[f := v]> h) j'.
Proof.
  intros H Hf Ho f'. destruct (decide (f = f')) as [<-|Hne]; [by rewrite lookup_insert_eq|].
  rewrite lookup_insert_ne by done. by rewrite H, Ho.
Qed.

Lemma hash_State s h j : hash_of h j → hash_of (<["state" := s]> h) (set_State s j).
Proof. intros H. eapply hash_set; [done|done|]. intros f. apply field_set_State. Qed.
Lemma hash_Owner s h j : hash_of h j → hash_of (<["owner" := s]> h) (set_Owner s j).
Proof. intros H. eapply hash_set; [done|done|]. intros f. apply field_set_Owner. Qed.
Lemma hash_LastErr s h j : hash_of h j → hash_of (<["last_err" := s]> h) (set_LastErr s j).
Proof. intros H. eapply hash_set; [done|done|]. intros f. apply field_set_LastErr. Qed.
Lemma hash_Attempt n h j : hash_of h j → hash_of (<["attempt" := pretty n]> h) (set_Attempt n j).
Proof. intros H. eapply hash_set; [done|done|]. intros f. apply field_set_Attempt. Qed.
Lemma hash_Recoveries n h j : hash_of h j → hash_of (<["recoveries" := pretty n]> h) (set_Recoveries n j).
Proof. intros H. eapply hash_set; [done|done|]. intros f. apply field_set_Recoveries. Qed.
Lemma hash_StartedAt ms h j :
  msFromTime (timeFromMs ms) = ms → hash_of h j →
  hash_of (<["started_at" := pretty ms]> h) (set_StartedAt (timeFromMs ms) j).
Proof. intros Hms H. eapply hash_set; [done| |intros f; apply field_set_StartedAt]. cbn. by rewrite Hms. Qed.
Lemma hash_Deadline ms h j :
  msFromTime (timeFromMs ms) = ms → hash_of h j →
  hash_of (<["deadline" := pretty ms]> h) (set_Deadline (timeFromMs ms) j).
Proof. intros Hms H. eapply hash_set; [done| |intros f; apply field_set_Deadline]. cbn. by rewrite Hms. Qed.

#[export] Hint Resolve hash_State hash_Owner hash_LastErr hash_Attempt hash_Recoveries hash_StartedAt hash_Deadline : redis.

(** ** Lemmas: decoding *)

Lemma atoi_pretty n : int64_range n → atoi (pretty n) = n.
Proof. intros Hn. unfold atoi. rewrite parse_int_pretty. unfold int64_range in Hn. lia. Qed.

Lemma flat_pairs (l : list (string * string)) : pairs ('(f, v) ← l; [f; v]) = l.
Proof. induction l as [|[f v] l IH]; [done|]. cbn. by f_equal. Qed.

Lemma flat_even (l : list (string * string)) : Nat.even (length ('(f, v) ← l; [f; v])) = true.
Proof. induction l as [|[f v] l IH]; [done|]. exact IH. Qed.

Lemma foldl_insert_map (l : list (string * string)) (m : gmap string string) :
  NoDup l.*1 → (∀ k, k ∈ l.*1 → m !! k = None) →
  foldl (λ m kv, <[kv.1 := kv.2]> m) m l = list_to_map l ∪ m.
Proof.
  revert m. induction l as [|[k v] l IH]; intros m Hnd Hm; [simpl; by rewrite (left_id_L ∅ (∪))|].
  rewrite fmap_cons in Hnd, Hm. apply NoDup_cons in Hnd as [Hk Hnd]. cbn [foldl list_to_map fst snd].
  rewrite IH; [|done|].
  - cbn. rewrite <- insert_union_l, <- insert_union_r; [done|]. by apply not_elem_of_list_to_map_1.
  - intros k' Hk'. rewrite lookup_insert_ne; [apply Hm; by right|]. by intros ->.
Qed.

Lemma decode_map h : foldl (λ m kv, <[kv.1 := kv.2]> m) ∅ (pairs (flat h)) = h.
Proof.
  unfold flat. rewrite flat_pairs, foldl_insert_map.
  - rewrite list_to_map_to_list. apply (right_id_L ∅ (∪)).
  - apply NoDup_fst_map_to_list.
  - intros. apply lookup_empty.
Qed.

Lemma string_byte_nonempty l : l ≠ [] → String.string_of_list_byte l ≠ "".
Proof. by destruct l. Qed.

Lemma decode_job id h j : hash_of h j → rjob_ok id j → decodeJob (flat h) = Ok j.
Proof.
  intros H Hok. unfold decodeJob, flat at 1. rewrite flat_even. cbn [negb]. rewrite decode_map.
  rewrite !H. cbn [field String.eqb Ascii.eqb Bool.eqb default]. unfold Datatypes.id.
  destruct Hok as [Hid Hne _ _ Hmax Hatt _ Hrec _ Hpay Httl (T1 & T2 & T3 & T4) _ _].
  unfold time_ok in *.
  rewrite Hid, (proj2 (String.eqb_neq id "") Hne), !T1, !T2, !T3, !T4.
  rewrite !atoi_pretty by (unfold int64_range; lia).
  destruct j; simpl in *; subst. repeat f_equal.
  destruct Payload as [p|]; [|done]. simpl.
  rewrite (proj2 (String.eqb_neq _ "")), String.list_byte_of_string_of_list_byte; [done|].
  apply string_byte_nonempty. by intros ->.
Qed.

(** ** Lemmas: times *)

Lemma ms_time ms : 0 ≤ ms → msFromTime (timeFromMs ms) = ms.
Proof.
  intros Hms. unfold msFromTime, timeFromMs. case_bool_decide as E; [by subst|].
  unfold IsZero, zeroTime. rewrite bool_decide_eq_false_2 by (unfold_durations; lia).
  unfold UnixMilli. by rewrite Z.div_mul.
Qed.

Lemma time_ms_ok ms : 0 ≤ ms < 2 ^ 63 → time_ok (timeFromMs ms).
Proof. intros Hms. unfold time_ok. rewrite ms_time by lia. rewrite atoi_pretty; [done|]. unfold int64_range. lia. Qed.

Lemma time_ok_zero : time_ok zeroTime.
Proof. by apply (time_ms_ok 0). Qed.

Lemma clock_ms now : clock_ok now → 0 < UnixMilli now < 2 ^ 53.
Proof.
  intros [H1 H2]. unfold UnixMilli. unfold_durations. split.
  - apply Z.div_str_pos. lia.
  - apply Z.div_lt_upper_bound; lia.
Qed.

Lemma ms_of_duration vt : 0 < vt < 2 ^ 63 → 0 ≤ Milliseconds vt < 2 ^ 53.
Proof.
  intros H. unfold Milliseconds. rewrite Z.quot_div_nonneg by (unfold_durations; lia). unfold_durations.
  split; [apply Z.div_pos; lia|]. apply Z.div_lt_upper_bound; lia.
Qed.

(** ** Lemmas: the invariant *)

Section inv_lemmas.
Context (b : settings).
Implicit Types (ks : keyspace) (id : string).

Lemma jobj_some ks id h e j : jobv b ks id = Some (h, e) → hash_of h j → rjob_ok id j → jobj b ks id = Some j.
Proof. intros Hv Hh Hok. unfold jobj. by rewrite Hv, (decode_job id h j). Qed.

(** The two cases of an identifier. *)
Lemma rinv_cases ks id :
  rinv b ks →
  (jobv b ks id = None ∧ jobj b ks id = None ∧ spot b ks id None) ∨
  (∃ h e j, jobv b ks id = Some (h, e) ∧ jobj b ks id = Some j ∧ hash_of h j ∧ rjob_ok id j ∧
            (is_Some e → State_ j = StateCompleted) ∧ spot b ks id (Some j)).
Proof.
  intros HI. pose proof (ri_at _ _ HI id) as Hat. unfold at_ok in Hat.
  destruct (jobv b ks id) as [[h e]|] eqn:Hv.
  - right. destruct Hat as (j & Hh & Hok & He & Hs). exists h, e, j. split_and!; try done. by eapply jobj_some.
  - left. split_and!; try done. unfold jobj. by rewrite Hv.
Qed.

(** The sorted sets jobs are in. *)
Definition core_z (n : kname) : Prop :=
  match n with NActive _ | NDelayed | NRetry | NDead => True | _ => False end.

(** Two keyspaces agree on everything that concerns one identifier. *)
Definition same_at ks ks' id : Prop :=
  jobv b ks' id = jobv b ks id ∧ (∀ q, id ∈ rl b ks' q ↔ id ∈ rl b ks q) ∧
  ∀ n, core_z n → zs b ks' n !! id = zs b ks n !! id.

Lemma spot_same ks ks' id oj : same_at ks ks' id → spot b ks id oj → spot b ks' id oj.
Proof.
  intros (_ & Hr & Hz) []. constructor; intros; rewrite ?Hr, ?Hz by done; done.
Qed.

Lemma at_ok_same ks ks' id : same_at ks ks' id → at_ok b ks id → at_ok b ks' id.
Proof.
  intros H. unfold at_ok. rewrite (proj1 H). destruct (jobv b ks id) as [[h e]|].
  - intros (j & ? & ? & ? & ?). exists j. split_and!; try done. by eapply spot_same.
  - by apply spot_same.
Qed.

Lemma jobj_same ks ks' id : jobv b ks' id = jobv b ks id → jobj b ks' id = jobj b ks id.
Proof. unfold jobj. by intros ->. Qed.

(** A step that concerns one identifier. *)
Lemma rinv_step ks ks' id :
  rinv b ks → ty_ok b ks' → (∀ id', id' ≠ id → same_at ks ks' id') →
  (∀ q, NoDup (rl b ks' q)) → at_ok b ks' id → rinv b ks'.
Proof.
  intros HI Hty Hsame Hnd Hat. constructor; [done| |done]. intros id'.
  destruct (decide (id' = id)) as [->|Hne]; [done|]. eapply at_ok_same; [by apply Hsame|by apply HI].
Qed.

(** Membership in the places, by state. *)
Lemma spot_not_ready ks id j q : spot b ks id (Some j) → State_ j ≠ StatePending → id ∉ rl b ks q.
Proof. intros [H _ _ _ _] Hs Hin. apply H in Hin as (j' & [= <-] & ? & _). done. Qed.
Lemma spot_none_ready ks id q : spot b ks id None → id ∉ rl b ks q.
Proof. intros [H _ _ _ _] Hin. by apply H in Hin as (j' & ? & _). Qed.

Lemma live_job_none now ks id : jobv b ks id = None → live_job b now ks id = None.
Proof. unfold live_job. by intros ->. Qed.
Lemma live_job_forever now ks id h : jobv b ks id = Some (h, None) → live_job b now ks id = Some (h, None).
Proof. unfold live_job. by intros ->. Qed.

(** A job that is not completed does not expire. *)
Lemma live_job_open now ks id h e j :
  jobv b ks id = Some (h, e) → (is_Some e → State_ j = StateCompleted) → State_ j ≠ StateCompleted →
  e = None ∧ live_job b now ks id = Some (h, None).
Proof.
  intros Hv He Hs. destruct e as [e|]; [by destruct Hs; apply He; eexists|].
  split; [done|by apply live_job_forever].
Qed.
End inv_lemmas.
