(* ===== verification/RedisRun.v ===== *)
(** * Running the scripts on well-typed keys

    Rules to execute a script command by command, each update described by the
    accessors of RedisKeys.v, and rules for the place of a job: it leaves the list or
    set it is in, its hash changes, it enters another. A state derived from another by
    updates that concern one job is [base]d on it; when the job has a place again, the
    invariant holds again. *)
From S2P Require Import Prelude GoBase Job Backoff Interface BrokerAPI RedisServer RedisScripts Redis RedisKeys RedisInv.

(** [ks] differs from [ks0] in what concerns [id] only. *)
Definition base (b : settings) (ks0 : keyspace) (id : string) (ks : keyspace) : Prop :=
  ty_ok b ks ∧ (∀ q, NoDup (rl b ks q)) ∧ ∀ id', id' ≠ id → same_at b ks0 ks id'.

(** A job in the state that a sorted set is for. *)
Definition belongs (n : kname) (j : Job) : Prop :=
  match n with
  | NActive q => State_ j = StateActive ∧ Queue j = q
  | NDelayed => State_ j = StateScheduled
  | NRetry => State_ j = StateRetry
  | NDead => State_ j = StateDead
  | _ => False
  end.

(** ** Execution *)

Section run.
Context (b : settings) (now : Z).
Implicit Types (ks : keyspace) (id : string).
Local Abbreviation exec := (run_prog (documented now)).

Lemma run_call {A} c (k : reply → prog A) ks ks' r :
  documented now c ks = (ks', r) → r ≠ RError → exec (Call c k) ks = exec (k r) ks'.
Proof. intros Hd Hr. cbn [run_prog]. rewrite Hd. by destruct r. Qed.

Lemma run_let {A B} (p : prog A) (f : A → prog B) ks ks' a :
  exec p ks = (ks', Some a) → exec (prog_bind p f) ks = exec (f a) ks'.
Proof. intros H. by rewrite run_bind, H. Qed.

Lemma run_clock {B} (f : Z → prog B) ks : exec (prog_bind now_ms_lua f) ks = exec (f (UnixMilli now)) ks.
Proof. apply run_let, run_now_ms. Qed.

Lemma run_ZADD {A} n s m (p : prog A) ks :
  is_zset n = true → ty_ok b ks →
  exec (Call (ZADD (key b n) s m) (λ _, p)) ks = exec p (set_zs b n (<[m := s]> (zs b ks n)) ks).
Proof. intros Hn H. erewrite run_call; [done|by apply doc_ZADD|done]. Qed.

Lemma run_ZREM {A} n m (k : reply → prog A) ks :
  is_zset n = true → ty_ok b ks → is_Some (zs b ks n !! m) →
  exec (Call (ZREM (key b n) m) k) ks = exec (k (RInt 1)) (set_zs b n (delete m (zs b ks n)) ks).
Proof. intros Hn H [s Hs]. erewrite run_call; [done| |done]. rewrite doc_ZREM by done. by rewrite Hs. Qed.

Lemma run_ZRANGE {A} n max limit (k : reply → prog A) ks :
  is_zset n = true → ty_ok b ks →
  exec (Call (ZRANGEBYSCORE (key b n) max limit) k) ks =
  exec (k (RArray (take (Z.to_nat limit) (in_score_order (zs b ks n) max)).*1)) ks.
Proof. intros Hn H. erewrite run_call; [done|by apply doc_ZRANGE|done]. Qed.

Lemma run_LPUSH {A} q v (p : prog A) ks :
  ty_ok b ks → exec (Call (LPUSH (key b (NQueue q)) v) (λ _, p)) ks = exec p (set_rl b q (v :: rl b ks q) ks).
Proof. intros H. erewrite run_call; [done|by apply doc_LPUSH|done]. Qed.

Lemma run_RPUSH {A} q v (p : prog A) ks :
  ty_ok b ks → exec (Call (RPUSH (key b (NQueue q)) v) (λ _, p)) ks = exec p (set_rl b q (rl b ks q ++ [v]) ks).
Proof. intros H. erewrite run_call; [done|by apply doc_RPUSH|done]. Qed.

Lemma run_EXISTS {A} id (k : reply → prog A) ks :
  ty_ok b ks →
  exec (Call (EXISTS (key b (NJob id))) k) ks =
  exec (k (RInt (if live_job b now ks id is Some _ then 1 else 0))) ks.
Proof. intros H. erewrite run_call; [done|by apply doc_EXISTS|done]. Qed.

Lemma run_HGET {A} id f (k : reply → prog A) ks h e v :
  ty_ok b ks → live_job b now ks id = Some (h, e) → h !! f = Some v →
  exec (Call (HGET (key b (NJob id)) f) k) ks = exec (k (RBulk v)) ks.
Proof. intros H Hj Hf. erewrite run_call; [done| |done]. erewrite doc_HGET by done. by rewrite Hf. Qed.

Lemma run_HGETALL {A} id (k : reply → prog A) ks h e :
  ty_ok b ks → live_job b now ks id = Some (h, e) →
  exec (Call (HGETALL (key b (NJob id))) k) ks = exec (k (RArray (flat h))) ks.
Proof. intros H Hj. erewrite run_call; [done|by eapply doc_HGETALL|done]. Qed.

Lemma run_HSET {A} id fvs (p : prog A) ks h e :
  ty_ok b ks → live_job b now ks id = Some (h, e) →
  exec (Call (HSET (key b (NJob id)) fvs) (λ _, p)) ks =
  exec p (set_jobv b id (foldl (λ h fv, <[fv.1 := fv.2]> h) h fvs) e ks).
Proof.
  intros H Hj. pose proof (doc_HSET b now id fvs ks H) as Hd. rewrite Hj in Hd. cbn [default] in Hd.
  destruct Hd as [r Hd]. erewrite run_call; [done|exact Hd|done].
Qed.

Lemma run_HSET_new {A} id fvs (p : prog A) ks :
  ty_ok b ks → live_job b now ks id = None →
  exec (Call (HSET (key b (NJob id)) fvs) (λ _, p)) ks =
  exec p (set_jobv b id (foldl (λ h fv, <[fv.1 := fv.2]> h) ∅ fvs) None ks).
Proof.
  intros H Hj. pose proof (doc_HSET b now id fvs ks H) as Hd. rewrite Hj in Hd. cbn [default] in Hd.
  destruct Hd as [r Hd]. erewrite run_call; [done|exact Hd|done].
Qed.

Lemma run_HINCRBY {A} id f m (p : prog A) ks h e s :
  ty_ok b ks → live_job b now ks id = Some (h, e) → h !! f = Some (pretty s) →
  exec (Call (HINCRBY (key b (NJob id)) f m) (λ _, p)) ks =
  exec p (set_jobv b id (<[f := pretty (s + m)]> h) e ks).
Proof. intros H Hj Hf. erewrite run_call; [done|by eapply doc_HINCRBY|done]. Qed.

Lemma run_PEXPIRE {A} id ms (p : prog A) ks h e :
  ty_ok b ks → live_job b now ks id = Some (h, e) → 0 < ms →
  exec (Call (PEXPIRE (key b (NJob id)) ms) (λ _, p)) ks =
  exec p (set_jobv b id h (Some (UnixMilli now + ms)) ks).
Proof. intros H Hj Hms. erewrite run_call; [done|by eapply doc_PEXPIRE|done]. Qed.

Lemma run_DEL {A} id (p : prog A) ks :
  exec (Call (DEL (key b (NJob id))) (λ _, p)) ks = exec p (delete (key b (NJob id)) ks).
Proof. by erewrite run_call. Qed.

Lemma run_INCR {A} n (p : prog A) ks :
  n = NProcessed ∨ n = NFailed → ty_ok b ks →
  ∃ m, exec (Call (INCR (key b n)) (λ _, p)) ks = exec p (set_cnt b n m ks).
Proof. intros Hn H. destruct (doc_INCR b now n ks Hn H) as [m Hm]. exists m. erewrite run_call; [done|exact Hm|done]. Qed.

Lemma run_SADD {A} q (p : prog A) ks :
  ty_ok b ks → ∃ s, exec (Call (SADD (key b NQueues) q) (λ _, p)) ks = exec p (set_names b s ks).
Proof. intros H. destruct (doc_SADD b now q ks H) as (s & r & Hs). exists s. erewrite run_call; [done|exact Hs|done]. Qed.

(** A job's hash after an update. *)
Lemma live_set_jobv id h ks : live_job b now (set_jobv b id h None ks) id = Some (h, None).
Proof. unfold live_job. by rewrite jobv_set_jobv, decide_True. Qed.
Lemma live_set_zs n z ks id : is_zset n = true → live_job b now (set_zs b n z ks) id = live_job b now ks id.
Proof. intros Hn. unfold live_job. by rewrite jobv_set_zs. Qed.
Lemma live_set_rl q l ks id : live_job b now (set_rl b q l ks) id = live_job b now ks id.
Proof. unfold live_job. by rewrite jobv_set_rl. Qed.
Lemma jobv_set_cnt n m ks id : n = NProcessed ∨ n = NFailed → jobv b (set_cnt b n m ks) id = jobv b ks id.
Proof. intros Hn. apply (jobv_only b n); [apply only_insert|]. by destruct Hn as [-> | ->]. Qed.
Lemma live_set_cnt n m ks id : n = NProcessed ∨ n = NFailed → live_job b now (set_cnt b n m ks) id = live_job b now ks id.
Proof. intros Hn. unfold live_job. by rewrite jobv_set_cnt. Qed.
Lemma jobv_set_names s ks id : jobv b (set_names b s ks) id = jobv b ks id.
Proof. by apply (jobv_only b NQueues); [apply only_insert|]. Qed.
End run.

#[export] Hint Rewrite live_set_jobv live_set_rl jobv_set_names : redis.
#[export] Hint Rewrite live_set_zs using done : redis.
#[export] Hint Rewrite live_set_cnt jobv_set_cnt using (by auto) : redis.

(** ** Places *)

Section places.
Context (b : settings).
Implicit Types (ks : keyspace) (id : string) (j : Job).

Lemma same_at_refl ks id : same_at b ks ks id.
Proof. done. Qed.

Lemma rinv_base ks id : rinv b ks → base b ks id ks.
Proof. intros [Hty _ Hnd]. by split_and!. Qed.

(** One more update. *)
Lemma base_set_jobv ks0 id h e ks : base b ks0 id ks → base b ks0 id (set_jobv b id h e ks).
Proof.
  intros (Hty & Hnd & Hs). split_and!; [auto with redis|intros q; by rewrite rl_set_jobv|].
  intros id' Hne. destruct (Hs id' Hne) as (H1 & H2 & H3). split_and!.
  - by rewrite jobv_set_jobv, decide_False.
  - intros q. by rewrite rl_set_jobv.
  - intros n Hn. rewrite zs_set_jobv by (by destruct n). auto.
Qed.
Lemma base_del_job ks0 id ks : base b ks0 id ks → base b ks0 id (delete (key b (NJob id)) ks).
Proof.
  intros (Hty & Hnd & Hs). split_and!; [auto with redis|intros q; by rewrite rl_delete_job|].
  intros id' Hne. destruct (Hs id' Hne) as (H1 & H2 & H3). split_and!.
  - by rewrite jobv_delete, decide_False.
  - intros q. by rewrite rl_delete_job.
  - intros n Hn. rewrite zs_delete_job by (by destruct n). auto.
Qed.
Lemma base_set_zs ks0 id n z ks :
  is_zset n = true → (∀ id', id' ≠ id → z !! id' = zs b ks n !! id') →
  base b ks0 id ks → base b ks0 id (set_zs b n z ks).
Proof.
  intros Hn Hz (Hty & Hnd & Hs). split_and!; [auto with redis|intros q; by rewrite rl_set_zs|].
  intros id' Hne. destruct (Hs id' Hne) as (H1 & H2 & H3). split_and!.
  - by rewrite jobv_set_zs.
  - intros q. by rewrite rl_set_zs.
  - intros n' Hn'. rewrite zs_set_zs. case_decide as E; [|by apply H3]. subst n'. rewrite Hz by done. by apply H3.
Qed.
Lemma base_zadd ks0 id n s ks :
  is_zset n = true → base b ks0 id ks → base b ks0 id (set_zs b n (<[id := s]> (zs b ks n)) ks).
Proof. intros Hn. apply base_set_zs; [done|]. intros id' Hne. by rewrite lookup_insert_ne. Qed.
Lemma base_zrem ks0 id n ks :
  is_zset n = true → base b ks0 id ks → base b ks0 id (set_zs b n (delete id (zs b ks n)) ks).
Proof. intros Hn. apply base_set_zs; [done|]. intros id' Hne. by rewrite lookup_delete_ne. Qed.
Lemma base_set_rl ks0 id q l ks :
  NoDup l → (∀ id', id' ≠ id → id' ∈ l ↔ id' ∈ rl b ks q) →
  base b ks0 id ks → base b ks0 id (set_rl b q l ks).
Proof.
  intros Hl Hin (Hty & Hnd & Hs). split_and!; [auto with redis|intros q'; rewrite rl_set_rl; by case_decide|].
  intros id' Hne. destruct (Hs id' Hne) as (H1 & H2 & H3). split_and!.
  - by rewrite jobv_set_rl.
  - intros q'. rewrite rl_set_rl. case_decide as E; [|by apply H2]. subst q'. rewrite Hin by done. apply H2.
  - intros n Hn. rewrite zs_set_rl by (by destruct n). auto.
Qed.
Lemma base_insert ks0 id n v ks :
  match n with NProcessed | NFailed | NQueues | NUnique _ => True | _ => False end → typed n v →
  base b ks0 id ks → base b ks0 id (<[key b n := v]> ks).
Proof.
  intros Hn Hv (Hty & Hnd & Hs). pose proof (only_insert b n v ks) as Ho.
  assert (∀ q, rl b (<[key b n := v]> ks) q = rl b ks q) as Hrl
    by (intros q; apply (rl_only b n); [done|]; by intros <-).
  split_and!; [by apply ty_insert|intros q; by rewrite Hrl|].
  intros id' Hne. destruct (Hs id' Hne) as (H1 & H2 & H3). split_and!.
  - rewrite (jobv_only b n _ _ _ Ho); [done|]. by intros <-.
  - intros q. by rewrite Hrl.
  - intros n' Hn'. rewrite (zs_only b n _ _ _ Ho); [by apply H3|]. intros ->. by destruct n.
Qed.
Lemma base_set_cnt ks0 id n m ks :
  n = NProcessed ∨ n = NFailed → base b ks0 id ks → base b ks0 id (set_cnt b n m ks).
Proof. intros Hn. apply base_insert; destruct Hn as [-> | ->]; [done..|by exists m|by exists m]. Qed.
Lemma base_set_names ks0 id s ks : base b ks0 id ks → base b ks0 id (set_names b s ks).
Proof. apply (base_insert _ _ NQueues); [done|by exists s]. Qed.

Lemma base_ty ks0 id ks : base b ks0 id ks → ty_ok b ks.
Proof. by intros (? & _). Qed.

(** The place survives updates elsewhere. *)
Lemma spot_frame ks ks' id oj :
  (∀ q, rl b ks' q = rl b ks q) → (∀ n, core_z n → zs b ks' n = zs b ks n) →
  spot b ks id oj → spot b ks' id oj.
Proof. intros Hr Hz []. constructor; intros; rewrite ?Hr, ?Hz by done; done. Qed.
Lemma spot_set_jobv ks id id' h e oj : spot b ks id oj → spot b (set_jobv b id' h e ks) id oj.
Proof. apply spot_frame; [intros q; apply rl_set_jobv|]. intros n Hn. by apply zs_set_jobv; destruct n. Qed.
Lemma spot_del_job ks id id' oj : spot b ks id oj → spot b (delete (key b (NJob id')) ks) id oj.
Proof. apply spot_frame; [intros q; apply rl_delete_job|]. intros n Hn. by apply zs_delete_job; destruct n. Qed.
Lemma spot_insert ks id n v oj :
  match n with NProcessed | NFailed | NQueues | NUnique _ => True | _ => False end →
  spot b ks id oj → spot b (<[key b n := v]> ks) id oj.
Proof.
  intros Hn. pose proof (only_insert b n v ks) as Ho. apply spot_frame.
  - intros q. apply (rl_only b n); [done|]. by intros <-.
  - intros n' Hn'. apply (zs_only b n); [done|]. intros ->. by destruct n.
Qed.
Lemma spot_set_cnt ks id n m oj : n = NProcessed ∨ n = NFailed → spot b ks id oj → spot b (set_cnt b n m ks) id oj.
Proof. intros Hn. apply spot_insert. by destruct Hn as [-> | ->]. Qed.
Lemma spot_set_names ks id s oj : spot b ks id oj → spot b (set_names b s ks) id oj.
Proof. by apply (spot_insert _ _ NQueues). Qed.

(** The place of an identifier without a job, and with one. *)
Lemma spot_none ks id :
  spot b ks id None ↔ (∀ q, id ∉ rl b ks q) ∧ (∀ n, core_z n → zs b ks n !! id = None).
Proof.
  split.
  - intros [H1 H2 H3 H4 H5]. split; [intros q Hin; apply H1 in Hin; by destruct Hin as (? & [=] & _)|].
    intros n Hn. destruct (zs b ks n !! id) as [d|] eqn:E; [exfalso|done].
    destruct n as [| |q| | | | | | | | | | |]; try done.
    + apply H2 in E. by destruct E as (? & [=] & _).
    + apply mk_is_Some in E. apply H3 in E. by destruct E as (? & [=] & _).
    + apply mk_is_Some in E. apply H4 in E. by destruct E as (? & [=] & _).
    + apply mk_is_Some in E. apply H5 in E. by destruct E as (? & [=] & _).
  - intros [H1 H2]. constructor.
    + intros q. split; [intros []%H1|by intros (? & [=] & _)].
    + intros q d. rewrite H2 by done. split; [done|by intros (? & [=] & _)].
    + rewrite H2 by done. split; [by intros [? [=]]|by intros (? & [=] & _)].
    + rewrite H2 by done. split; [by intros [? [=]]|by intros (? & [=] & _)].
    + rewrite H2 by done. split; [by intros [? [=]]|by intros (? & [=] & _)].
Qed.

Lemma spot_some ks id j :
  spot b ks id (Some j) ↔
  (∀ q, id ∈ rl b ks q ↔ State_ j = StatePending ∧ Queue j = q) ∧
  (∀ q d, zs b ks (NActive q) !! id = Some d ↔
     State_ j = StateActive ∧ Queue j = q ∧ d = msFromTime (Deadline j)) ∧
  (is_Some (zs b ks NDelayed !! id) ↔ State_ j = StateScheduled) ∧
  (is_Some (zs b ks NRetry !! id) ↔ State_ j = StateRetry) ∧
  (is_Some (zs b ks NDead !! id) ↔ State_ j = StateDead).
Proof.
  assert (∀ P : Job → Prop, (∃ j', Some j = Some j' ∧ P j') ↔ P j) as Hex.
  { intros P. split; [by intros (? & [= <-] & ?)|]. intros HP. by exists j. }
  split.
  - intros [H1 H2 H3 H4 H5]. split_and!; intros; rewrite ?H1, ?H2, ?H3, ?H4, ?H5; apply Hex.
  - intros (H1 & H2 & H3 & H4 & H5). constructor; intros; rewrite ?H1, ?H2, ?H3, ?H4, ?H5; by rewrite Hex.
Qed.

(** What is not in a state is not in the place of that state. *)
Lemma place_absent ks id j :
  spot b ks id (Some j) →
  (State_ j ≠ StatePending → ∀ q, id ∉ rl b ks q) ∧
  (State_ j ≠ StateActive → ∀ q, zs b ks (NActive q) !! id = None) ∧
  (State_ j ≠ StateScheduled → zs b ks NDelayed !! id = None) ∧
  (State_ j ≠ StateRetry → zs b ks NRetry !! id = None) ∧
  (State_ j ≠ StateDead → zs b ks NDead !! id = None).
Proof.
  intros (H1 & H2 & H3 & H4 & H5)%spot_some. split_and!; intros Hs.
  - intros q [? _]%H1. done.
  - intros q. apply eq_None_not_Some. intros [d E]. by apply H2 in E as [? _].
  - apply eq_None_not_Some. by rewrite H3.
  - apply eq_None_not_Some. by rewrite H4.
  - apply eq_None_not_Some. by rewrite H5.
Qed.

(** A job with no place of its own. *)
Lemma spot_completed ks id j : State_ j = StateCompleted → spot b ks id None ↔ spot b ks id (Some j).
Proof.
  intros Hs. rewrite spot_none. split.
  - intros [H1 H2]. apply spot_some. rewrite Hs. split_and!.
    + intros q. split; [by intros []%H1|by intros []].
    + intros q d. rewrite H2 by done. split; [done|by intros []].
    + rewrite H2 by done. split; [by intros []|done].
    + rewrite H2 by done. split; [by intros []|done].
    + rewrite H2 by done. split; [by intros []|done].
  - intros (H1 & H2 & H3 & H4 & H5)%place_absent. rewrite Hs in *. split; [by apply H1|].
    intros n Hn. destruct n as [| |q| | | | | | | | | | |]; try done; [by apply H2|by apply H3|by apply H4|by apply H5].
Qed.

(** Leaving a place. *)
Lemma leave_zset ks id j n :
  spot b ks id (Some j) →
  belongs n j →
  spot b (set_zs b n (delete id (zs b ks n)) ks) id None.
Proof.
  unfold belongs. intros Hsp Hn. pose proof (place_absent _ _ _ Hsp) as (H1 & H2 & H3 & H4 & H5).
  apply spot_some in Hsp as (_ & HA & _). apply spot_none.
  assert (core_z n) as Hc by (by destruct n). assert (is_zset n = true) as Hz by (by destruct n).
  split.
  - intros q. rewrite rl_set_zs by done. apply H1. intros Hs. rewrite Hs in Hn. destruct n; try done; by destruct Hn as [[=] _].
  - intros n' Hn'. rewrite zs_set_zs. case_decide as E; [apply lookup_delete_eq|].
    assert (State_ j = match n with NActive _ => StateActive | NDelayed => StateScheduled | NRetry => StateRetry
                       | _ => StateDead end) as Hs by (destruct n; try done; apply Hn).
    rewrite Hs in H2, H3, H4, H5. destruct n' as [| |q'| | | | | | | | | | |]; try done.
    + destruct n as [| |q| | | | | | | | | | |]; try (by apply H2). apply eq_None_not_Some.
      intros [d Ez]. apply HA in Ez as (_ & Eq & _). destruct Hn as [_ Hn]. congruence.
    + apply H3. by destruct n.
    + apply H4. by destruct n.
    + apply H5. by destruct n.
Qed.

Lemma leave_ready ks id j q l :
  spot b ks id (Some j) → rl b ks q = id :: l → NoDup (id :: l) → spot b (set_rl b q l ks) id None.
Proof.
  intros Hsp Hrl [Hni _]%NoDup_cons. pose proof (place_absent _ _ _ Hsp) as (_ & H2 & H3 & H4 & H5).
  apply spot_some in Hsp as (H1 & _).
  assert (State_ j = StatePending ∧ Queue j = q) as [Hs HQ] by (apply H1; rewrite Hrl; left).
  rewrite Hs in H2, H3, H4, H5. apply spot_none. split.
  - intros q'. rewrite rl_set_rl. case_decide as E; [done|]. intros [_ ?]%H1. congruence.
  - intros n Hn. rewrite zs_set_rl by (by destruct n).
    destruct n as [| |q'| | | | | | | | | | |]; try done; [by apply H2|by apply H3|by apply H4|by apply H5].
Qed.

(** Entering a place. *)
Lemma enter_ready ks id j l :
  spot b ks id None → State_ j = StatePending → (∀ id', id' ∈ l ↔ id' = id ∨ id' ∈ rl b ks (Queue j)) →
  spot b (set_rl b (Queue j) l ks) id (Some j).
Proof.
  intros [H1 H2]%spot_none Hs Hl. apply spot_some. rewrite Hs. split_and!; intros; rewrite ?zs_set_rl, ?H2 by done.
  - rewrite rl_set_rl. case_decide as E; [rewrite Hl; naive_solver|]. split; [intros []%H1|by intros [_ ?]].
  - split; [done|by intros []].
  - split; [by intros []|done].
  - split; [by intros []|done].
  - split; [by intros []|done].
Qed.

Lemma enter_zset ks id j n d :
  spot b ks id None → belongs n j → (State_ j = StateActive → d = msFromTime (Deadline j)) →
  spot b (set_zs b n (<[id := d]> (zs b ks n)) ks) id (Some j).
Proof.
  unfold belongs. intros [H1 H2]%spot_none Hn Hd. assert (core_z n) as Hc by (by destruct n). assert (is_zset n = true) as Hz by (by destruct n).
  assert (State_ j = match n with NActive _ => StateActive | NDelayed => StateScheduled | NRetry => StateRetry
                     | _ => StateDead end) as Hs by (destruct n; try done; apply Hn).
  assert (∀ n', core_z n' → zs b (set_zs b n (<[id := d]> (zs b ks n)) ks) n' !! id = if decide (n = n') then Some d else None) as HZ.
  { intros n' Hn'. rewrite zs_set_zs. case_decide; [apply lookup_insert_eq|by apply H2]. }
  apply spot_some. rewrite Hs. split_and!; intros; rewrite ?rl_set_zs, ?HZ by done.
  - split; [intros []%H1|]. intros [Hp _]. by destruct n.
  - case_decide as E; [subst n; destruct Hn as [Ha <-]; rewrite (Hd Ha)|].
    + split; [by intros [= <-]|by intros (_ & _ & ->)].
    + split; [done|]. intros (Ha & HQ & _). destruct n; try done. destruct Hn as [_ <-]. by rewrite HQ in E.
  - case_decide; [by subst|]. split; [by intros []|]. by destruct n.
  - case_decide; [by subst|]. split; [by intros []|]. by destruct n.
  - case_decide; [by subst|]. split; [by intros []|]. by destruct n.
Qed.

(** A sorted set holds the jobs that belong to it. *)
Lemma member ks n id :
  rinv b ks → core_z n → is_Some (zs b ks n !! id) ↔ ∃ j, jobj b ks id = Some j ∧ belongs n j.
Proof.
  intros HI Hn. destruct (rinv_cases b ks id HI) as [(_ & -> & Hsp)|(h & e & j & _ & -> & _ & _ & _ & Hsp)].
  { apply spot_none in Hsp as [_ H2]. rewrite H2 by done. split; [by intros []|by intros (? & [=] & _)]. }
  assert (is_Some (zs b ks n !! id) ↔ belongs n j) as ->.
  { pose proof Hsp as (_ & H2 & H3 & H4 & H5)%spot_some. destruct n; try done. split.
    - intros [d Hd]. apply H2 in Hd. unfold belongs. tauto.
    - intros [Hs HQ]. exists (msFromTime (Deadline j)). by apply H2. }
  split; [intros H; by exists j|by intros (? & [= <-] & ?)].
Qed.

(** An active job with a new deadline. *)
Lemma renew_spot ks id j d :
  spot b ks id (Some j) → State_ j = StateActive →
  spot b (set_zs b (NActive (Queue j)) (<[id := msFromTime d]> (zs b ks (NActive (Queue j)))) ks) id
    (Some (set_Deadline d j)).
Proof.
  intros (H1 & H2 & H3 & H4 & H5)%spot_some Hs. apply spot_some. cbn [State_ Queue Deadline set_Deadline].
  split_and!; intros; rewrite ?rl_set_zs, ?zs_set_zs by done.
  - apply H1.
  - case_decide as E.
    + injection E as <-. rewrite lookup_insert_eq. split; [by intros [= <-]|by intros (_ & _ & ->)].
    + rewrite H2. split; intros (_ & HQ & _); by rewrite HQ in E.
  - rewrite decide_False by done. apply H3.
  - rewrite decide_False by done. apply H4.
  - rewrite decide_False by done. apply H5.
Qed.

(** The job has a place again, or is gone. *)
Lemma settle ks0 id ks h e j :
  rinv b ks0 → base b ks0 id ks → jobv b ks id = Some (h, e) → hash_of h j → rjob_ok id j →
  (is_Some e → State_ j = StateCompleted) → spot b ks id (Some j) →
  rinv b ks ∧ jobj b ks id = Some j ∧ ∀ id', id' ≠ id → jobj b ks id' = jobj b ks0 id'.
Proof.
  intros HI (Hty & Hnd & Hs) Hv Hh Hok He Hsp. split_and!.
  - apply (rinv_step b ks0 ks id); try done. unfold at_ok. rewrite Hv. by exists j.
  - by eapply jobj_some.
  - intros id' Hne. apply jobj_same. by apply Hs.
Qed.
Lemma settle_gone ks0 id ks :
  rinv b ks0 → base b ks0 id ks → jobv b ks id = None → spot b ks id None →
  rinv b ks ∧ jobj b ks id = None ∧ ∀ id', id' ≠ id → jobj b ks id' = jobj b ks0 id'.
Proof.
  intros HI (Hty & Hnd & Hs) Hv Hsp. split_and!.
  - apply (rinv_step b ks0 ks id); try done. unfold at_ok. by rewrite Hv.
  - unfold jobj. by rewrite Hv.
  - intros id' Hne. apply jobj_same. by apply Hs.
Qed.
End places.

#[export] Hint Resolve rinv_base base_set_jobv base_del_job base_zadd base_zrem base_set_cnt base_set_names : redis.
#[export] Hint Resolve spot_set_jobv spot_del_job spot_set_cnt spot_set_names : redis.
#[export] Hint Resolve base_ty : redis.
