(* ===== verification/RedisScriptSpecs.v ===== *)
(** * What the scripts do

    Each script on a keyspace that satisfies the invariant: it does not fail, it has
    the effect on the stored jobs that its comments promise, and the invariant holds
    again when it ends. *)
From S2P Require Import Prelude GoBase Job Backoff Interface BrokerAPI RedisServer RedisScripts Redis RedisKeys RedisInv RedisRun.

(** The replies of a fencing check that failed. *)
Definition refused (r : option (list reply)) : Prop :=
  r = Some [RInt 0; RBulk "notfound"] ∨
  ∃ state owner, r = Some [RInt 0; RBulk "lease"; RBulk state; RBulk owner].

(** Every job but one is as it was. *)
Definition others_same (b : settings) (ks ks' : keyspace) (id : string) : Prop :=
  ∀ id', id' ≠ id → jobj b ks' id' = jobj b ks id'.

(** A hash with the fields of [j], and its place, in a keyspace [ks0] whose other jobs are
    out of the way: what the scripts work on. *)
Record working (b : settings) (ks0 : keyspace) (id : string) (ks : keyspace) (h : gmap string string) (j : Job) : Prop := mkWorking {
  wk_base : base b ks0 id ks;
  wk_job : jobv b ks id = Some (h, None);
  wk_hash : hash_of h j;
  wk_spot : spot b ks id None
}.

(** The job after a claim, and after a report or a sweep found its attempts spent or not. *)
Definition claimed_by (w : string) (now_ms vt_ms : Z) (j : Job) : Job :=
  set_Deadline (timeFromMs (now_ms + vt_ms)) (set_StartedAt (timeFromMs now_ms)
    (set_Owner w (set_State StateActive (set_Attempt (Attempt j + 1) j)))).
Definition completed (j : Job) : Job := set_Owner "" (set_State StateCompleted j).
Definition nacked (reason : string) (j : Job) : Job :=
  set_State (if Exhausted j then StateDead else StateRetry) (set_Owner "" (set_LastErr reason j)).
Definition killed (reason : string) (j : Job) : Job :=
  set_LastErr reason (set_Owner "" (set_State StateDead j)).
Definition swept (j : Job) : Job :=
  let j' := set_Owner "" (set_Recoveries (Recoveries j + 1) j) in
  if Exhausted j
  then set_LastErr ("orphaned: lease expired after " +:+ pretty (Attempt j) +:+ " attempts") (set_State StateDead j')
  else set_State StatePending j'.
Definition ready_again (j : Job) : Job := set_Owner "" (set_State StatePending j).

(** The job as Enqueue stores it. *)
Definition stored_as (now_ms : Z) (j : Job) : Job :=
  mkJob (ID j) (Queue j) (Type_ j) (match default [] (Payload j) with [] => None | p => Some p end) 0 (MaxAttempts j) 0
    (if bool_decide (msFromTime (RunAt j) > now_ms) then StateScheduled else StatePending) "" (UniqueKey j) 0 ""
    (timeFromMs now_ms) (timeFromMs (msFromTime (RunAt j))) zeroTime zeroTime.

#[export] Hint Unfold claimed_by completed nacked killed swept ready_again : redis.

(** ** The jobs the scripts produce *)

(** A job out of the active state that is well-formed but for its place. *)
Lemma rjob_ok_released id j j' :
  rjob_ok id j → Owner j' = "" → State_ j' = StateDead ∨ State_ j' = StateCompleted ∨
    (waiting_state (State_ j') ∧ Attempt j < MaxAttempts j) →
  ID j' = ID j → Queue j' = Queue j → Type_ j' = Type_ j → Payload j' = Payload j → Attempt j' = Attempt j →
  MaxAttempts j' = MaxAttempts j → 0 ≤ Recoveries j' ≤ Attempt j → UniqueTTL j' = UniqueTTL j →
  EnqueuedAt j' = EnqueuedAt j → RunAt j' = RunAt j → StartedAt j' = StartedAt j → Deadline j' = Deadline j →
  rjob_ok id j'.
Proof.
  intros [] Ho Hs HI HQ HY HP HA HM HR HU HE HN HT HD.
  assert (State_ j' ≠ StateActive) as Hna by (unfold waiting_state in Hs; intros E; rewrite E in Hs; naive_solver).
  constructor; rewrite ?HI, ?HQ, ?HY, ?HP, ?HA, ?HM, ?HU, ?HE, ?HN, ?HT, ?HD, ?Ho; try done.
  - intros Hw. destruct Hs as [Hs|[Hs|[_ ?]]]; [| |done]; unfold waiting_state in Hw; rewrite Hs in Hw; naive_solver.
  - tauto.
Qed.

Lemma nacked_ok id reason j : rjob_ok id j → rjob_ok id (nacked reason j).
Proof.
  intros Hok. pose proof (rj_rec _ _ Hok). unfold nacked. apply (rjob_ok_released id j); try done.
  destruct (Exhausted j) eqn:E; [by left|]. right; right. split; [by right; right|by apply Exhausted_false].
Qed.
Lemma killed_ok id reason j : rjob_ok id j → rjob_ok id (killed reason j).
Proof. intros Hok. pose proof (rj_rec _ _ Hok). apply (rjob_ok_released id j); try done. by left. Qed.
Lemma completed_ok id j : rjob_ok id j → rjob_ok id (completed j).
Proof. intros Hok. pose proof (rj_rec _ _ Hok). apply (rjob_ok_released id j); try done. right. by left. Qed.
Lemma swept_ok id j : rjob_ok id j → State_ j = StateActive → rjob_ok id (swept j).
Proof.
  intros Hok Hs. pose proof (rj_rec _ _ Hok). pose proof (rj_rec_active _ _ Hok Hs). unfold swept.
  destruct (Exhausted j) eqn:E; (apply (rjob_ok_released id j); try done; [|cbn; lia]); [by left|].
  right; right. split; [by left|by apply Exhausted_false].
Qed.
Lemma ready_again_ok id j : rjob_ok id j → waiting_state (State_ j) → rjob_ok id (ready_again j).
Proof.
  intros Hok Hs. pose proof (rj_rec _ _ Hok). apply (rjob_ok_released id j); try done. right; right.
  split; [by left|by apply (rj_left _ _ Hok)].
Qed.
Lemma claimed_ok id w now vt j :
  rjob_ok id j → State_ j = StatePending → w ≠ "" → clock_ok now → 0 ≤ vt < 2 ^ 53 →
  rjob_ok id (claimed_by w (UnixMilli now) vt j).
Proof.
  intros Hok Hs Hw Hn Hvt. pose proof (rj_left _ _ Hok (or_introl Hs)). pose proof (clock_ms now Hn).
  pose proof (rj_times _ _ Hok) as (T1 & T2 & T3 & T4). destruct Hok. constructor; cbn; try done; try lia.
  - unfold waiting_state. by intros [|[|]].
  - split_and!; [done|done|apply time_ms_ok; lia|apply time_ms_ok; lia].
  - right. by left.
Qed.
Lemma renewed_ok id now vt j :
  rjob_ok id j → clock_ok now → 0 ≤ vt < 2 ^ 53 → rjob_ok id (set_Deadline (timeFromMs (UnixMilli now + vt)) j).
Proof.
  intros Hok Hn Hvt. pose proof (clock_ms now Hn).
  pose proof (rj_times _ _ Hok) as (T1 & T2 & T3 & T4). destruct Hok. constructor; try done. split_and!; [done..|apply time_ms_ok; lia].
Qed.

Section scripts.
Context (b : settings) (now : Z).
Implicit Types (ks : keyspace) (id w : string) (j : Job).
Local Abbreviation exec := (run_prog (documented now)).

Lemma hash_get h j f : hash_of h j → h !! f = field j f.
Proof. intros H. apply H. Qed.

(** ** Fencing *)

Lemma run_fence ks id w :
  rinv b ks →
  (∃ h j, jobv b ks id = Some (h, None) ∧ jobj b ks id = Some j ∧ hash_of h j ∧ rjob_ok id j ∧
     State_ j = StateActive ∧ Owner j = w ∧ spot b ks id (Some j) ∧
     ∀ k, exec (fence_lua (key b (NJob id)) w k) ks = exec k ks) ∨
  (¬ holds (jobj b) ks w id ∧ ∃ r, refused r ∧ ∀ k, exec (fence_lua (key b (NJob id)) w k) ks = (ks, r)).
Proof.
  intros HI. pose proof (ri_ty _ _ HI) as Hty.
  assert (∀ k, exec (fence_lua (key b (NJob id)) w k) ks =
    match live_job b now ks id with
    | None => (ks, Some [RInt 0; RBulk "notfound"])
    | Some _ => exec (let! state := call (HGET (key b (NJob id)) "state") in
                      let! owner := call (HGET (key b (NJob id)) "owner") in
                      if negb (is_str state "active") || negb (is_str owner w)
                      then Ret [RInt 0; RBulk "lease"; RBulk (tostring state); RBulk (tostring owner)]
                      else k) ks
    end) as HE.
  { intros k. unfold fence_lua. rewrite (run_EXISTS b) by done. by destruct (live_job b now ks id). }
  destruct (rinv_cases b ks id HI) as [(Hv & Hj & Hsp)|(h & e & j & Hv & Hj & Hh & Hok & He & Hsp)].
  { right. rewrite live_job_none in HE by done. split; [|eexists; split; [by left|exact HE]]. intros (j & Hj' & _). congruence. }
  destruct (live_job b now ks id) as [[h' e']|] eqn:Hl.
  2:{ right. split; [|eexists; split; [by left|exact HE]]. intros (j' & Hj' & Hs & _). rewrite Hj in Hj'. injection Hj' as <-.
      destruct (live_job_open b now ks id h e j Hv He) as [_ Hl']; [by rewrite Hs|congruence]. }
  assert (h' = h) as -> by (unfold live_job in Hl; rewrite Hv in Hl; destruct e; [case_bool_decide|]; by simplify_eq).
  assert (∀ k, exec (fence_lua (key b (NJob id)) w k) ks =
    if String.eqb (State_ j) "active" && String.eqb (Owner j) w then exec k ks
    else (ks, Some [RInt 0; RBulk "lease"; RBulk (State_ j); RBulk (Owner j)])) as HE'.
  { intros k. rewrite HE. do 2 erewrite (run_HGET b) by (done || by rewrite (hash_get h j)). cbn [is_str tostring].
    destruct (String.eqb (State_ j) "active"), (String.eqb (Owner j) w); done. }
  destruct (String.eqb_spec (State_ j) "active") as [Hs|Hs]; cbn [andb] in HE'.
  - destruct (String.eqb_spec (Owner j) w) as [Hw|Hw].
    + left. exists h, j. destruct (live_job_open b now ks id h e j Hv He) as [-> _]; [by rewrite Hs|]. by split_and!.
    + right. split; [|eexists; split; [right; by do 2 eexists|exact HE']]. intros (j' & Hj' & _ & Ho). congruence.
  - right. split; [|eexists; split; [right; by do 2 eexists|exact HE']]. intros (j' & Hj' & Hs' & _).
    rewrite Hj in Hj'. by injection Hj' as <-.
Qed.

(** Releasing: the job leaves the active set of its queue. *)
Lemma run_release ks id h j k :
  rinv b ks → jobv b ks id = Some (h, None) → hash_of h j → rjob_ok id j → State_ j = StateActive →
  spot b ks id (Some j) →
  ∃ ks', exec (release_lua (key b (NJob id)) (pActive b) k) ks = exec (k id) ks' ∧ working b ks id ks' h j.
Proof.
  intros HI Hv Hh Hok Hs Hsp. pose proof (ri_ty _ _ HI) as Hty.
  pose proof (live_job_forever b now ks id h Hv) as Hl. unfold release_lua.
  do 2 erewrite (run_HGET b) by (done || by rewrite (hash_get h j)). cbn [with_str].
  rewrite pActive_app, (rj_id _ _ Hok). eexists. split.
  - apply run_ZREM; try done. exists (msFromTime (Deadline j)). apply spot_some in Hsp as (_ & H2 & _). by apply H2.
  - constructor; [auto with redis|by rewrite jobv_set_zs|done|]. by apply (leave_zset b ks id j).
Qed.

(** ** Working on a job *)

Lemma working_ty ks0 id ks h j : working b ks0 id ks h j → ty_ok b ks.
Proof. intros []. by eapply base_ty. Qed.
Lemma working_live ks0 id ks h j : working b ks0 id ks h j → live_job b now ks id = Some (h, None).
Proof. intros []. by apply live_job_forever. Qed.

Lemma working_update ks0 id ks h j h' j' :
  working b ks0 id ks h j → hash_of h' j' → working b ks0 id (set_jobv b id h' None ks) h' j'.
Proof. intros [] Hh. constructor; [auto with redis|by rewrite jobv_set_jobv, decide_True|done|auto with redis]. Qed.
Lemma working_cnt ks0 id ks h j n m :
  n = NProcessed ∨ n = NFailed → working b ks0 id ks h j → working b ks0 id (set_cnt b n m ks) h j.
Proof. intros Hn []. constructor; [auto with redis|by rewrite jobv_set_cnt|done|auto with redis]. Qed.

Lemma run_W_HSET {A} ks0 id ks h j fvs (p : prog A) j' :
  working b ks0 id ks h j → hash_of (foldl (λ h fv, <[fv.1 := fv.2]> h) h fvs) j' →
  ∃ ks' h', exec (Call (HSET (key b (NJob id)) fvs) (λ _, p)) ks = exec p ks' ∧ working b ks0 id ks' h' j'.
Proof.
  intros HW Hh. do 2 eexists. split; [eapply (run_HSET b); [by eapply working_ty|by eapply working_live]|].
  by eapply working_update.
Qed.

Lemma run_W_HGET {A} ks0 id ks h j f v (k : reply → prog A) :
  working b ks0 id ks h j → field j f = Some v →
  exec (Call (HGET (key b (NJob id)) f) k) ks = exec (k (RBulk v)) ks.
Proof.
  intros HW Hf. eapply (run_HGET b); [by eapply working_ty|by eapply working_live|].
  by rewrite (hash_get h j) by apply HW.
Qed.

Lemma run_W_INCR {A} ks0 id ks h j n (p : prog A) :
  n = NProcessed ∨ n = NFailed → working b ks0 id ks h j →
  ∃ ks', exec (Call (INCR (key b n)) (λ _, p)) ks = exec p ks' ∧ working b ks0 id ks' h j.
Proof.
  intros Hn HW. destruct (run_INCR b now n p ks Hn) as [m Hm]; [by eapply working_ty|].
  eexists. split; [exact Hm|by apply working_cnt].
Qed.

(** The end of a script: the job enters a sorted set, or the ready list of its queue. *)
Lemma finish_zset {A} ks0 id ks h j n d (p : prog A) :
  rinv b ks0 → working b ks0 id ks h j → rjob_ok id j →
  belongs n j → (State_ j = StateActive → d = msFromTime (Deadline j)) →
  ∃ ks', exec (Call (ZADD (key b n) d id) (λ _, p)) ks = exec p ks' ∧
    rinv b ks' ∧ jobj b ks' id = Some j ∧ others_same b ks0 ks' id.
Proof.
  intros HI HW Hok Hn Hd. assert (is_zset n = true) as Hz by (by destruct n).
  eexists. split; [apply run_ZADD; [done|by eapply working_ty]|].
  destruct HW as [Hb Hv Hh Hs]. eapply (settle b ks0 id _ h None j); try done.
  - auto with redis.
  - by rewrite jobv_set_zs.
  - by apply enter_zset.
Qed.

Lemma finish_ready {A} ks0 id ks h j (front : bool) (p : prog A) :
  rinv b ks0 → working b ks0 id ks h j → rjob_ok id j → State_ j = StatePending →
  ∃ ks', exec (Call ((if front then LPUSH else RPUSH) (key b (NQueue (Queue j))) id) (λ _, p)) ks = exec p ks' ∧
    rinv b ks' ∧ jobj b ks' id = Some j ∧ others_same b ks0 ks' id.
Proof.
  intros HI HW Hok Hs. set (q := Queue j). set (l := if front then id :: rl b ks q else rl b ks q ++ [id]).
  assert (exec (Call ((if front then LPUSH else RPUSH) (key b (NQueue q)) id) (λ _, p)) ks = exec p (set_rl b q l ks)) as ->.
  { destruct front; [apply run_LPUSH|apply run_RPUSH]; by eapply working_ty. }
  eexists. split; [done|]. destruct HW as [Hb Hv Hh Hsp].
  assert (∀ id', id' ∈ l ↔ id' = id ∨ id' ∈ rl b ks q) as Hl.
  { intros id'. unfold l. destruct front; [apply elem_of_cons|]. rewrite elem_of_app, list_elem_of_singleton. tauto. }
  assert (NoDup l) as Hnd.
  { destruct Hb as (_ & Hnd & _). apply spot_none in Hsp as [Hni _]. unfold l.
    destruct front; [by apply NoDup_cons|]. apply NoDup_app. split_and!; [done| |by apply NoDup_singleton].
    intros x Hx ->%list_elem_of_singleton. by apply (Hni q). }
  eapply (settle b ks0 id _ h None j); try done.
  - apply base_set_rl; [done| |done]. intros id' Hne. rewrite Hl. tauto.
  - by rewrite jobv_set_rl.
  - by apply enter_ready.
Qed.

(** A counter, the set of queue names or a unique key: no job is concerned. *)
Lemma rinv_insert ks n v :
  rinv b ks → match n with NProcessed | NFailed | NQueues | NUnique _ => True | _ => False end → typed n v →
  rinv b (<[key b n := v]> ks) ∧ ∀ id, jobj b (<[key b n := v]> ks) id = jobj b ks id.
Proof.
  intros HI Hn Hv. assert (∀ id, base b ks id (<[key b n := v]> ks)) as Hb by (intros id; apply base_insert; auto with redis).
  assert (∀ id, jobv b (<[key b n := v]> ks) id = jobv b ks id) as Hj.
  { intros id. apply (jobv_only b n); [apply only_insert|]. by intros <-. }
  split; [|intros id; by apply jobj_same]. constructor; [apply (Hb "")| |apply (Hb "")].
  intros id. pose proof (ri_at _ _ HI id) as Hat. unfold at_ok in *. rewrite Hj.
  destruct (jobv b ks id) as [[h e]|]; [|by apply spot_insert].
  destruct Hat as (j & ? & ? & ? & ?). exists j. split_and!; try done. by apply spot_insert.
Qed.

Lemma finish_INCR {A} ks n (p : prog A) :
  n = NProcessed ∨ n = NFailed → rinv b ks →
  ∃ ks', exec (Call (INCR (key b n)) (λ _, p)) ks = exec p ks' ∧ rinv b ks' ∧ ∀ id, jobj b ks' id = jobj b ks id.
Proof.
  intros Hn HI. destruct (run_INCR b now n p ks Hn (ri_ty _ _ HI)) as [m ->]. eexists. split; [done|].
  apply rinv_insert; [done|by destruct Hn as [-> | ->]|]. destruct Hn as [-> | ->]; by exists m.
Qed.

Lemma finish_SADD {A} ks q (p : prog A) :
  rinv b ks →
  ∃ ks', exec (Call (SADD (key b NQueues) q) (λ _, p)) ks = exec p ks' ∧ rinv b ks' ∧ ∀ id, jobj b ks' id = jobj b ks id.
Proof.
  intros HI. destruct (run_SADD b now q p ks (ri_ty _ _ HI)) as [m ->]. eexists. split; [done|].
  apply (rinv_insert ks NQueues); [done|done|by exists m].
Qed.

(** A job goes to the dead-letter set and is counted. *)
Lemma finish_dead {A} ks0 id ks h j d (p : prog A) :
  rinv b ks0 → working b ks0 id ks h j → rjob_ok id j → State_ j = StateDead →
  ∃ ks', exec (Call (ZADD (key b NDead) d id) (λ _, Call (INCR (key b NFailed)) (λ _, p))) ks = exec p ks' ∧
    rinv b ks' ∧ jobj b ks' id = Some j ∧ others_same b ks0 ks' id.
Proof.
  intros HI HW Hok Hs.
  destruct (finish_zset ks0 id ks h j NDead d (Call (INCR (key b NFailed)) (λ _, p)) HI HW Hok Hs)
    as (ks1 & -> & HI1 & Hj1 & Ho1); [by rewrite Hs|].
  destruct (finish_INCR ks1 NFailed p (or_intror eq_refl) HI1) as (ks2 & -> & HI2 & Hj2).
  exists ks2. split; [done|]. split; [done|]. split; [by rewrite Hj2|]. intros id' Hne. rewrite Hj2. by apply Ho1.
Qed.

(** ** Reports *)

Ltac run_fence_release HI h j Hj Hok Hs Hw ks1 HW :=
  let Hv := fresh in let Hh := fresh in let Hsp := fresh in let Hrun := fresh in
  match goal with |- context [fence_lua (key _ (NJob ?id)) ?w ?k] => destruct (run_fence _ id w HI)
    as [(h & j & Hv & Hj & Hh & Hok & Hs & Hw & Hsp & Hrun)|(? & ? & ? & Hrun)] end; rewrite Hrun; [|by right];
  match goal with |- context [release_lua (key _ (NJob ?id)) _ ?k] => destruct (run_release _ id h j k HI Hv Hh Hok Hs Hsp)
    as (ks1 & -> & HW) end.
(** The next command writes fields of the job at work, which is then [j']. *)
Ltac run_write HW j' ks' h' HW' :=
  match type of HW with working _ ?ks0 ?id ?ks ?h ?j =>
    match goal with |- context [run_prog _ (Call (HSET _ ?fvs) (λ _, ?p)) ks] =>
      destruct (run_W_HSET ks0 id ks h j fvs p j' HW) as (ks' & h' & -> & HW');
        [pose proof (wk_hash _ _ _ _ _ _ HW); cbn [foldl fst snd]; autounfold with redis; auto 10 with redis|] end end.

Lemma run_ack ks id w ttl :
  rinv b ks →
  let '(ks', r) := exec (ack_lua (key b (NJob id)) (key b NProcessed) w ttl (pActive b)) ks in
  (holds (jobj b) ks w id ∧ r = Some [RInt 1] ∧ rinv b ks' ∧
     jobj b ks' id = (if bool_decide (ttl > 0) then completed <$> jobj b ks id else None) ∧ others_same b ks ks' id) ∨
  (¬ holds (jobj b) ks w id ∧ ks' = ks ∧ refused r).
Proof.
  intros HI. unfold ack_lua. run_fence_release HI h j Hj Hok Hs Hw ks1 HW.
  match goal with |- context [exec (Call (INCR _) (λ _, ?p)) ks1] =>
    destruct (run_W_INCR ks id ks1 h j NProcessed p (or_introl eq_refl) HW) as (ks2 & -> & HW2) end.
  assert (holds (jobj b) ks w id) as Hhold by (by exists j).
  case_bool_decide as Httl.
  - erewrite (run_HSET b); [|by eapply working_ty|by eapply working_live]. cbn [foldl fst snd].
    erewrite (run_PEXPIRE b); [|by eauto using working_ty with redis|by rewrite live_set_jobv|lia].
    cbn [run_prog]. left. split; [done|]. split; [done|].
    destruct HW2 as [Hb _ _ Hs2].
    destruct (settle b ks id (set_jobv b id (<["owner":=""]> (<["state":="completed"]> h)) (Some (UnixMilli now + ttl))
      (set_jobv b id (<["owner":=""]> (<["state":="completed"]> h)) None ks2))
      (<["owner":=""]> (<["state":="completed"]> h)) (Some (UnixMilli now + ttl)) (completed j))
      as (Hinv & Hj' & Ho); try done.
    + auto with redis.
    + by rewrite jobv_set_jobv, decide_True.
    + unfold completed. auto with redis.
    + by apply completed_ok.
    + apply spot_completed; [done|]. auto with redis.
    + split_and!; try done. by rewrite Hj', Hj.
  - rewrite (run_DEL b). cbn [run_prog]. left. split; [done|]. split; [done|]. destruct HW2 as [Hb _ _ Hs2].
    destruct (settle_gone b ks id (delete (key b (NJob id)) ks2)) as (Hinv & Hj' & Ho); try done.
    + auto with redis.
    + by rewrite jobv_delete, decide_True.
    + auto with redis.
Qed.

Lemma run_nack ks id w retry_at reason :
  rinv b ks →
  let '(ks', r) := exec (nack_lua (key b (NJob id)) (key b NRetry) (key b NDead) (key b NFailed) w retry_at reason (pActive b)) ks in
  (holds (jobj b) ks w id ∧ (∃ what, r = Some [RInt 1; RBulk what]) ∧ rinv b ks' ∧
     jobj b ks' id = nacked reason <$> jobj b ks id ∧ others_same b ks ks' id) ∨
  (¬ holds (jobj b) ks w id ∧ ks' = ks ∧ refused r).
Proof.
  intros HI. unfold nack_lua. run_fence_release HI h j Hj Hok Hs Hw ks1 HW.
  assert (holds (jobj b) ks w id) as Hhold by (by exists j). rewrite Hj.
  run_write HW (set_Owner "" (set_LastErr reason j)) ks2 h2 HW2.
  do 2 erewrite run_W_HGET by done. cbn [with_num]. do 2 (rewrite parse_int_pretty; cbn beta iota).
  cbn [Attempt MaxAttempts set_Owner set_LastErr fmap option_fmap option_map].
  pose proof (nacked_ok id reason j Hok) as Hok'. unfold nacked, Exhausted in *.
  case_bool_decide as Hx.
  - run_write HW2 (set_State StateDead (set_Owner "" (set_LastErr reason j))) ks3 h3 HW3. rewrite run_clock.
    match goal with |- context [Call (ZADD _ ?d _) (λ _, Call _ (λ _, ?p))] =>
      destruct (finish_dead ks id ks3 h3 _ d p HI HW3 Hok' eq_refl) as (ks4 & -> & HI4 & Hj4 & Ho4) end.
    left. split; [done|]. split; [by eexists|]. done.
  - run_write HW2 (set_State StateRetry (set_Owner "" (set_LastErr reason j))) ks3 h3 HW3.
    match goal with |- context [Call (ZADD _ ?d _) (λ _, ?p)] =>
      destruct (finish_zset ks id ks3 h3 _ NRetry d p HI HW3 Hok' eq_refl) as (ks4 & -> & HI4 & Hj4 & Ho4) end; [done|].
    left. split; [done|]. split; [by eexists|]. done.
Qed.

Lemma run_kill ks id w reason :
  rinv b ks →
  let '(ks', r) := exec (kill_lua (key b (NJob id)) (key b NDead) (key b NFailed) w reason (pActive b)) ks in
  (holds (jobj b) ks w id ∧ r = Some [RInt 1] ∧ rinv b ks' ∧
     jobj b ks' id = killed reason <$> jobj b ks id ∧ others_same b ks ks' id) ∨
  (¬ holds (jobj b) ks w id ∧ ks' = ks ∧ refused r).
Proof.
  intros HI. unfold kill_lua. run_fence_release HI h j Hj Hok Hs Hw ks1 HW.
  assert (holds (jobj b) ks w id) as Hhold by (by exists j). rewrite Hj.
  run_write HW (killed reason j) ks2 h2 HW2. rewrite run_clock.
  match goal with |- context [Call (ZADD _ ?d _) (λ _, Call _ (λ _, ?p))] =>
    destruct (finish_dead ks id ks2 h2 _ d p HI HW2 (killed_ok id reason j Hok) eq_refl) as (ks4 & -> & HI4 & Hj4 & Ho4) end.
  left. by split_and!.
Qed.

(** ** Claims *)

Lemma finish_HGETALL {A} ks id j (k : reply → prog A) :
  rinv b ks → jobj b ks id = Some j → State_ j ≠ StateCompleted →
  ∃ l, exec (Call (HGETALL (key b (NJob id))) k) ks = exec (k (RArray l)) ks ∧ decodeJob l = Ok j.
Proof.
  intros HI Hj Hs. destruct (rinv_cases b ks id HI) as [(_ & Hn & _)|(h & e & j' & Hv & Hj' & Hh & Hok & He & _)]; [congruence|].
  assert (j' = j) as -> by congruence. destruct (live_job_open b now ks id h e j Hv He Hs) as [-> Hl].
  exists (flat h). split; [by eapply (run_HGETALL b); [apply HI|]|by eapply decode_job].
Qed.

(** The head of a ready list is a pending job of that queue. *)
Lemma ready_head ks q id l :
  rinv b ks → rl b ks q = id :: l →
  ∃ h j, jobv b ks id = Some (h, None) ∧ jobj b ks id = Some j ∧ hash_of h j ∧ rjob_ok id j ∧
    State_ j = StatePending ∧ Queue j = q ∧ working b ks id (set_rl b q l ks) h j.
Proof.
  intros HI Hrl. assert (id ∈ rl b ks q) as Hin by (rewrite Hrl; left).
  destruct (rinv_cases b ks id HI) as [(_ & _ & Hsp)|(h & e & j & Hv & Hj & Hh & Hok & He & Hsp)].
  { apply spot_none in Hsp as [Hno _]. by apply Hno in Hin. }
  pose proof Hsp as (H1 & _)%spot_some. apply H1 in Hin as [Hs HQ].
  destruct (live_job_open b now ks id h e j Hv He) as [-> _]; [by rewrite Hs|].
  exists h, j. split_and!; try done. pose proof (ri_nodup _ _ HI q) as Hnd. rewrite Hrl in Hnd.
  constructor; [|by rewrite jobv_set_rl|done|by eapply leave_ready].
  pose proof Hnd as [_ ?]%NoDup_cons. apply base_set_rl; [done| |auto with redis].
  intros id' Hne. rewrite Hrl, elem_of_cons. tauto.
Qed.

Lemma run_pop ks n q w vt :
  rinv b ks → w ≠ "" → clock_ok now → 0 ≤ vt < 2 ^ 53 →
  match rl b ks q with
  | [] => exec (pop_lua (S n) (key b (NQueue q)) (key b (NActive q)) w (pJob b) (UnixMilli now) vt) ks = (ks, Some None)
  | id :: _ => ∃ ks' l j,
      exec (pop_lua (S n) (key b (NQueue q)) (key b (NActive q)) w (pJob b) (UnixMilli now) vt) ks = (ks', Some (Some l)) ∧
      jobj b ks id = Some j ∧ State_ j = StatePending ∧ Queue j = q ∧ ID j = id ∧
      decodeJob l = Ok (claimed_by w (UnixMilli now) vt j) ∧
      rinv b ks' ∧ jobj b ks' id = Some (claimed_by w (UnixMilli now) vt j) ∧ others_same b ks ks' id
  end.
Proof.
  intros HI Hw Hn Hvt. pose proof (clock_ms now Hn) as Hms. cbn [pop_lua].
  destruct (rl b ks q) as [|id l] eqn:Hrl.
  { rewrite (run_call _ _ _ ks ks RNil); [done| |done]. rewrite doc_LPOP by apply HI. by rewrite Hrl. }
  destruct (ready_head ks q id l HI Hrl) as (h & j & Hv & Hj & Hh & Hok & Hs & HQ & HW).
  rewrite (run_call _ _ _ ks (set_rl b q l ks) (RBulk id)); [|rewrite doc_LPOP by apply HI; by rewrite Hrl|done].
  cbn [is_nil with_str]. rewrite pJob_app. rewrite (run_EXISTS b) by (by eapply working_ty).
  erewrite working_live by done. cbn [is_int]. rewrite bool_decide_eq_true_2 by done. unfold claim_lua.
  erewrite (run_HINCRBY b); [|by eapply working_ty|by eapply working_live|by rewrite (hash_get h j) by done].
  assert (working b ks id (set_jobv b id (<["attempt":=pretty (Attempt j + 1)]> h) None (set_rl b q l ks))
    (<["attempt":=pretty (Attempt j + 1)]> h) (set_Attempt (Attempt j + 1) j)) as HW1
    by (eapply working_update; [done|auto with redis]).
  run_write HW1 (claimed_by w (UnixMilli now) vt j) ks2 h2 HW2.
  { apply hash_Deadline; [apply ms_time; lia|]. apply hash_StartedAt; [apply ms_time; lia|]. auto with redis. }
  pose proof (claimed_ok id w now vt j Hok Hs Hw Hn Hvt) as Hok'.
  match goal with |- context [exec (Call (ZADD _ ?d _) (λ _, ?p)) ks2] =>
    destruct (finish_zset ks id ks2 h2 _ (NActive q) d p HI HW2 Hok') as (ks4 & -> & HI4 & Hj4 & Ho4) end.
  { by split. }
  { intros _. cbn. rewrite ms_time; lia. }
  match goal with |- context [exec (Call _ ?k) ks4] =>
    destruct (finish_HGETALL ks4 id _ k HI4 Hj4) as (l' & -> & Hd) end; [done|].
  exists ks4, l', j. split_and!; try done. apply Hok.
Qed.

(** The first queue, in the order given, that has a job. *)
Fixpoint first_job (ks : keyspace) (queues : list string) : option (string * string) :=
  match queues with
  | [] => None
  | q :: queues => match rl b ks q with id :: _ => Some (q, id) | [] => first_job ks queues end
  end.

Lemma run_queues ks queues w vt :
  rinv b ks → w ≠ "" → clock_ok now → 0 ≤ vt < 2 ^ 53 →
  match first_job ks queues with
  | None => exec (queues_lua ((λ q, (key b (NQueue q), key b (NActive q))) <$> queues) w (pJob b) (UnixMilli now) vt) ks = (ks, Some None)
  | Some (q, id) => ∃ ks' l j,
      exec (queues_lua ((λ q, (key b (NQueue q), key b (NActive q))) <$> queues) w (pJob b) (UnixMilli now) vt) ks = (ks', Some (Some l)) ∧
      jobj b ks id = Some j ∧ State_ j = StatePending ∧ Queue j = q ∧ ID j = id ∧
      decodeJob l = Ok (claimed_by w (UnixMilli now) vt j) ∧
      rinv b ks' ∧ jobj b ks' id = Some (claimed_by w (UnixMilli now) vt j) ∧ others_same b ks ks' id
  end.
Proof.
  intros HI Hw Hn Hvt. induction queues as [|q queues IH]; [done|]. cbn [first_job]. rewrite fmap_cons. cbn [queues_lua].
  pose proof (run_pop ks 19 q w vt HI Hw Hn Hvt) as HP. destruct (rl b ks q) as [|id l].
  - erewrite run_let by exact HP. exact IH.
  - destruct HP as (ks' & l' & j & HP & Hrest). exists ks', l', j. split; [|done]. by erewrite run_let by exact HP.
Qed.

(** ** Renewals *)

(** The lease on a job is held by a worker, as a test. *)
Definition held ks w id : bool :=
  match jobj b ks id with Some j => String.eqb (State_ j) StateActive && String.eqb (Owner j) w | None => false end.

Lemma held_spec ks w id : held ks w id = true ↔ holds (jobj b) ks w id.
Proof.
  unfold held, holds. destruct (jobj b ks id) as [j|]; [|split; [done|by intros (? & [=] & _)]].
  rewrite andb_true_iff, !String.eqb_eq. split; [intros [? ?]; by exists j|by intros (? & [= <-] & ?)].
Qed.

Lemma run_extend_one ks id w vt lost ids :
  rinv b ks → clock_ok now → 0 ≤ vt < 2 ^ 53 →
  ∃ ks', exec (extend_ids_lua (id :: ids) w (pJob b) (pActive b) (UnixMilli now) vt lost) ks =
         exec (extend_ids_lua ids w (pJob b) (pActive b) (UnixMilli now) vt
                 (if held ks w id then lost else lost ++ [id])) ks' ∧
    rinv b ks' ∧
    jobj b ks' id = (if held ks w id then set_Deadline (timeFromMs (UnixMilli now + vt)) <$> jobj b ks id else jobj b ks id) ∧
    others_same b ks ks' id.
Proof.
  intros HI Hn Hvt. pose proof (clock_ms now Hn) as Hms. pose proof (ri_ty _ _ HI) as Hty.
  cbn [extend_ids_lua]. rewrite pJob_app, (run_EXISTS b) by done. unfold held.
  destruct (rinv_cases b ks id HI) as [(Hv & Hj & Hsp)|(h & e & j & Hv & Hj & Hh & Hok & He & Hsp)]; rewrite Hj.
  { rewrite live_job_none by done. exists ks. by split_and!. }
  destruct (live_job b now ks id) as [[h' e']|] eqn:Hl.
  2:{ destruct (String.eqb_spec (State_ j) StateActive) as [Hs|Hs]; [|exists ks; by split_and!].
      destruct (live_job_open b now ks id h e j Hv He) as [_ Hl']; [by rewrite Hs|congruence]. }
  assert (h' = h) as -> by (unfold live_job in Hl; rewrite Hv in Hl; destruct e; [case_bool_decide|]; by simplify_eq).
  cbn [is_int]. rewrite bool_decide_eq_true_2 by done.
  do 2 erewrite (run_HGET b) by (done || by rewrite (hash_get h j)). cbn [is_str].
  change "active" with StateActive.
  destruct (String.eqb_spec (State_ j) StateActive) as [Hs|Hs]; cbn [andb]; [|exists ks; by split_and!].
  destruct (String.eqb_spec (Owner j) w) as [Hw|Hw]; [|exists ks; by split_and!].
  destruct (live_job_open b now ks id h e j Hv He) as [-> _]; [by rewrite Hs|].
  erewrite (run_HGET b) by (done || by rewrite (hash_get h j)). cbn [with_str].
  erewrite (run_HSET b) by done. cbn [foldl fst snd]. rewrite pActive_app.
  assert (base b ks id (set_jobv b id (<["deadline":=pretty (UnixMilli now + vt)]> h) e' ks)) as Hb by auto with redis.
  rewrite (run_ZADD b) by (done || by eapply base_ty). eexists. split; [done|].
  assert (e' = None) as -> by (unfold live_job in Hl; rewrite Hv in Hl; by simplify_eq).
  set (d := timeFromMs (UnixMilli now + vt)).
  assert (UnixMilli now + vt = msFromTime d) as Hd by (unfold d; rewrite ms_time; lia).
  eapply (settle b ks id _ (<["deadline":=pretty (UnixMilli now + vt)]> h) None (set_Deadline d j)); try done.
  - auto with redis.
  - by rewrite jobv_set_zs, jobv_set_jobv, decide_True.
  - apply hash_Deadline; [apply ms_time; lia|done].
  - by apply renewed_ok.
  - rewrite Hd. apply renew_spot; [auto with redis|done].
Qed.

Lemma run_extend ids ks w vt lost :
  rinv b ks → clock_ok now → 0 ≤ vt < 2 ^ 53 →
  ∃ ks', exec (extend_ids_lua ids w (pJob b) (pActive b) (UnixMilli now) vt lost) ks =
           (ks', Some (lost ++ filter (λ id, held ks w id = false) ids)) ∧
    rinv b ks' ∧
    ∀ id, jobj b ks' id = if decide (id ∈ ids ∧ held ks w id = true)
                          then set_Deadline (timeFromMs (UnixMilli now + vt)) <$> jobj b ks id else jobj b ks id.
Proof.
  revert ks lost. induction ids as [|i ids IH]; intros ks lost HI Hn Hvt.
  { exists ks. cbn. rewrite app_nil_r. split_and!; [done|done|]. intros id. rewrite decide_False; [done|]. by intros [?%elem_of_nil _]. }
  destruct (run_extend_one ks i w vt lost ids HI Hn Hvt) as (ks1 & -> & HI1 & Hj1 & Ho1).
  assert (∀ id, held ks1 w id = held ks w id) as Hh.
  { intros id. destruct (decide (id = i)) as [->|Hne]; [|unfold held; by rewrite Ho1].
    unfold held at 1. rewrite Hj1. destruct (held ks w i) eqn:E; [|done]. unfold held in E.
    destruct (jobj b ks i); [exact E|done]. }
  destruct (IH ks1 (if held ks w i then lost else lost ++ [i]) HI1 Hn Hvt) as (ks' & -> & HI' & Hj').
  exists ks'. split_and!; [|done|].
  - do 2 f_equal. rewrite filter_cons. rewrite (list_filter_iff _ (λ id, held ks w id = false)) by (intros; by rewrite Hh).
    destruct (held ks w i); simpl; [done|]. by rewrite <- app_assoc.
  - intros id. rewrite Hj', Hh. destruct (decide (id = i)) as [->|Hne].
    + rewrite Hj1. destruct (held ks w i) eqn:E.
      * rewrite (decide_True (P := i ∈ i :: ids ∧ _)) by (split; [by left|done]).
        case_decide; [|done]. destruct (jobj b ks i); done.
      * rewrite !decide_False by (by intros [_ ?]). done.
    + rewrite Ho1 by done. apply decide_ext. rewrite elem_of_cons. tauto.
Qed.

(** ** Sweeps *)

Lemma in_score_order_spec (z : gmap string Z) max :
  NoDup (in_score_order z max).*1 ∧
  ∀ m s, (m, s) ∈ in_score_order z max ↔ z !! m = Some s ∧ s ≤ max.
Proof.
  unfold in_score_order. split.
  - rewrite merge_sort_Permutation. apply NoDup_filter_entries.
  - intros m s. rewrite merge_sort_Permutation, list_elem_of_filter, elem_of_map_to_list. simpl. tauto.
Qed.

(** The identifiers a sweep of a sorted set takes. *)
Definition taken (n : kname) ks limit : list string :=
  (take (Z.to_nat limit) (in_score_order (zs b ks n) (UnixMilli now))).*1.

Lemma taken_spec n ks limit :
  NoDup (taken n ks limit) ∧ ∀ id, id ∈ taken n ks limit → is_Some (zs b ks n !! id).
Proof.
  destruct (in_score_order_spec (zs b ks n) (UnixMilli now)) as [Hnd Hin]. unfold taken. split.
  - rewrite fmap_take. eapply sublist_NoDup; [exact Hnd|apply sublist_take].
  - intros id ([m s] & -> & Hm)%list_elem_of_fmap. apply subseteq_take, Hin in Hm as [Hm _]. by exists s.
Qed.

(** A job taken out of a sorted set. *)
Lemma take_out ks n id j :
  rinv b ks → jobj b ks id = Some j → belongs n j →
  ∃ h, hash_of h j ∧ rjob_ok id j ∧ is_Some (zs b ks n !! id) ∧
    working b ks id (set_zs b n (delete id (zs b ks n)) ks) h j.
Proof.
  intros HI Hj Hn. assert (core_z n) as Hc by (by destruct n). assert (is_zset n = true) as Hz by (by destruct n).
  destruct (rinv_cases b ks id HI) as [(_ & ? & _)|(h & e & j' & Hv & Hj' & Hh & Hok & He & Hsp)]; [congruence|].
  assert (j' = j) as -> by congruence.
  assert (State_ j ≠ StateCompleted) as Hnc by (intros E; unfold belongs in Hn; rewrite E in Hn; destruct n; try done; by destruct Hn).
  destruct (live_job_open b now ks id h e j Hv He Hnc) as [-> _]. exists h. split_and!; try done.
  - apply member; [done|done|]. by exists j.
  - constructor; [auto with redis|by rewrite jobv_set_zs|done|by eapply leave_zset].
Qed.

Lemma run_reap_one ks q id ids r d j :
  rinv b ks → jobj b ks id = Some j → belongs (NActive q) j →
  ∃ ks' r' d', exec (reap_ids_lua (id :: ids) (key b (NActive q)) (key b NDead) (key b (NQueue q)) (key b NFailed) (pJob b)
                       (UnixMilli now) r d) ks =
    exec (reap_ids_lua ids (key b (NActive q)) (key b NDead) (key b (NQueue q)) (key b NFailed) (pJob b)
            (UnixMilli now) r' d') ks' ∧
    (if Exhausted j then r' = r ∧ d' = d + 1 else r' = r + 1 ∧ d' = d) ∧
    rinv b ks' ∧ jobj b ks' id = Some (swept j) ∧ others_same b ks ks' id.
Proof.
  intros HI Hj [Hs HQ]. destruct (take_out ks (NActive q) id j HI Hj (conj Hs HQ)) as (h & Hh & Hok & Hin & HW).
  cbn [reap_ids_lua]. rewrite (run_ZREM b) by (done || apply HI). cbn [is_int]. rewrite bool_decide_eq_true_2 by done.
  rewrite pJob_app, (run_EXISTS b) by (by eapply working_ty). erewrite working_live by done.
  cbn [is_int]. rewrite bool_decide_eq_true_2 by done.
  erewrite (run_HINCRBY b); [|by eapply working_ty|by eapply working_live|by rewrite (hash_get h j) by done].
  assert (working b ks id (set_jobv b id (<["recoveries":=pretty (Recoveries j + 1)]> h) None
      (set_zs b (NActive q) (delete id (zs b ks (NActive q))) ks))
    (<["recoveries":=pretty (Recoveries j + 1)]> h) (set_Recoveries (Recoveries j + 1) j)) as HW1
    by (eapply working_update; [done|auto with redis]).
  run_write HW1 (set_Owner "" (set_Recoveries (Recoveries j + 1) j)) ks2 h2 HW2.
  do 2 erewrite run_W_HGET by done. cbn [with_num]. do 2 (rewrite parse_int_pretty; cbn beta iota).
  cbn [Attempt MaxAttempts set_Owner set_Recoveries].
  pose proof (swept_ok id j Hok Hs) as Hok'. unfold swept, Exhausted in *. case_bool_decide as Hx.
  - run_write HW2 (set_LastErr ("orphaned: lease expired after " +:+ pretty (Attempt j) +:+ " attempts")
      (set_State StateDead (set_Owner "" (set_Recoveries (Recoveries j + 1) j)))) ks3 h3 HW3.
    match goal with |- context [exec (Call (ZADD _ ?d _) (λ _, Call _ (λ _, ?p))) ks3] =>
      destruct (finish_dead ks id ks3 h3 _ d p HI HW3 Hok' eq_refl) as (ks4 & -> & HI4 & Hj4 & Ho4) end.
    exists ks4, r, (d + 1). by split_and!.
  - run_write HW2 (set_State StatePending (set_Owner "" (set_Recoveries (Recoveries j + 1) j))) ks3 h3 HW3.
    match goal with |- context [exec (Call (LPUSH _ _) (λ _, ?p)) ks3] =>
      destruct (finish_ready ks id ks3 h3 _ true p HI HW3 Hok' eq_refl) as (ks4 & Hrun & HI4 & Hj4 & Ho4) end.
    cbn [Queue set_State set_Owner set_Recoveries] in Hrun. rewrite HQ in Hrun. rewrite Hrun.
    exists ks4, (r + 1), d. by split_and!.
Qed.

(** The job under an identifier has spent its attempts. *)
Definition spent ks id : bool := match jobj b ks id with Some j => Exhausted j | None => false end.

Lemma run_reap_ids ids ks q r d :
  rinv b ks → NoDup ids → (∀ id, id ∈ ids → ∃ j, jobj b ks id = Some j ∧ belongs (NActive q) j) →
  let dead := Z.of_nat (length (filter (λ id, spent ks id = true) ids)) in
  ∃ ks', exec (reap_ids_lua ids (key b (NActive q)) (key b NDead) (key b (NQueue q)) (key b NFailed) (pJob b)
                 (UnixMilli now) r d) ks =
      (ks', Some [RInt (r + (Z.of_nat (length ids) - dead)); RInt (d + dead)]) ∧
    rinv b ks' ∧
    ∀ id, jobj b ks' id = if decide (id ∈ ids) then swept <$> jobj b ks id else jobj b ks id.
Proof.
  revert ks r d. induction ids as [|i ids IH]; intros ks r d HI Hnd Hin.
  { exists ks. cbn. split_and!; [by rewrite !Z.add_0_r|done|done]. }
  apply NoDup_cons in Hnd as [Hi Hnd]. destruct (Hin i) as (j & Hj & Hb); [left|].
  destruct (run_reap_one ks q i ids r d j HI Hj Hb) as (ks1 & r1 & d1 & -> & Hc & HI1 & Hj1 & Ho1).
  assert (∀ id, id ∈ ids → jobj b ks1 id = jobj b ks id) as Hsame by (intros id Hid; apply Ho1; by intros ->).
  destruct (IH ks1 r1 d1 HI1 Hnd) as (ks' & -> & HI' & Hj').
  { intros id Hid. rewrite Hsame by done. apply Hin. by right. }
  exists ks'. split_and!; [|done|].
  - assert (filter (λ id, spent ks1 id = true) ids = filter (λ id, spent ks id = true) ids) as ->.
    { apply filter_ext_elem. intros id Hid. unfold spent. by rewrite Hsame. }
    assert (spent ks i = Exhausted j) as Hsp by (unfold spent; by rewrite Hj).
    rewrite filter_cons, Hsp. destruct (Exhausted j); destruct Hc as [-> ->]; simpl; do 2 f_equal.
    + f_equal; [|do 2 f_equal; lia]. f_equal. lia.
    + f_equal. f_equal. lia.
  - intros id. rewrite Hj'. destruct (decide (id = i)) as [->|Hne].
    + rewrite decide_False by done. rewrite decide_True by left. by rewrite Hj1, Hj.
    + rewrite (Ho1 id Hne). apply decide_ext. rewrite elem_of_cons. tauto.
Qed.

(** ** Promotions *)

Lemma run_promote_one n ks id ids m j :
  n = NDelayed ∨ n = NRetry → rinv b ks → jobj b ks id = Some j → belongs n j →
  ∃ ks', exec (promote_ids_lua (id :: ids) (key b n) (pJob b) (prefix b +:+ ":q:") m) ks =
    exec (promote_ids_lua ids (key b n) (pJob b) (prefix b +:+ ":q:") (m + 1)) ks' ∧
    rinv b ks' ∧ jobj b ks' id = Some (ready_again j) ∧ others_same b ks ks' id.
Proof.
  intros Hn HI Hj Hb. destruct (take_out ks n id j HI Hj Hb) as (h & Hh & Hok & Hin & HW).
  assert (is_zset n = true) as Hz by (by destruct Hn as [-> | ->]).
  assert (waiting_state (State_ j)) as Hs by (destruct Hn as [-> | ->]; right; [by left|by right]).
  cbn [promote_ids_lua]. rewrite (run_ZREM b) by (done || apply HI). cbn [is_int]. rewrite bool_decide_eq_true_2 by done.
  rewrite pJob_app, (run_EXISTS b) by (by eapply working_ty). erewrite working_live by done.
  cbn [is_int]. rewrite bool_decide_eq_true_2 by done.
  erewrite run_W_HGET by done. run_write HW (ready_again j) ks2 h2 HW2. cbn [with_str]. rewrite pQueue_app.
  match goal with |- context [exec (Call (RPUSH _ _) (λ _, ?p)) ks2] =>
    destruct (finish_ready ks id ks2 h2 _ false p HI HW2 (ready_again_ok id j Hok Hs) eq_refl) as (ks4 & Hrun & HI4 & Hj4 & Ho4) end.
  cbn [Queue ready_again set_Owner set_State] in Hrun. rewrite Hrun. by exists ks4.
Qed.

Lemma run_promote_ids n ids ks m :
  n = NDelayed ∨ n = NRetry → rinv b ks → NoDup ids →
  (∀ id, id ∈ ids → ∃ j, jobj b ks id = Some j ∧ belongs n j) →
  ∃ ks', exec (promote_ids_lua ids (key b n) (pJob b) (prefix b +:+ ":q:") m) ks =
      (ks', Some (m + Z.of_nat (length ids))) ∧
    rinv b ks' ∧
    ∀ id, jobj b ks' id = if decide (id ∈ ids) then ready_again <$> jobj b ks id else jobj b ks id.
Proof.
  intros Hn. revert ks m. induction ids as [|i ids IH]; intros ks m HI Hnd Hin.
  { exists ks. cbn. split_and!; [by rewrite Z.add_0_r|done|done]. }
  apply NoDup_cons in Hnd as [Hi Hnd]. destruct (Hin i) as (j & Hj & Hb); [left|].
  destruct (run_promote_one n ks i ids m j Hn HI Hj Hb) as (ks1 & -> & HI1 & Hj1 & Ho1).
  destruct (IH ks1 (m + 1) HI1 Hnd) as (ks' & -> & HI' & Hj').
  { intros id Hid. rewrite Ho1 by (by intros ->). apply Hin. by right. }
  exists ks'. split_and!; [do 2 f_equal; cbn [length]; lia|done|].
  intros id. rewrite Hj'. destruct (decide (id = i)) as [->|Hne].
  - rewrite decide_False by done. rewrite decide_True by left. by rewrite Hj1, Hj.
  - rewrite (Ho1 id Hne). apply decide_ext. rewrite elem_of_cons. tauto.
Qed.

(** What a sweep takes is there to be taken. *)
Lemma taken_belongs n ks limit id :
  rinv b ks → core_z n → id ∈ taken n ks limit → ∃ j, jobj b ks id = Some j ∧ belongs n j.
Proof. intros HI Hn Hid. apply member; [done|done|]. by apply (proj2 (taken_spec n ks limit)). Qed.

Lemma promote_avoids ids m :
  avoids (key b NRetry) (promote_ids_lua ids (key b NDelayed) (pJob b) (prefix b +:+ ":q:") m).
Proof.
  assert (∀ n n', n ≠ n' → Some (key b n) ≠ Some (key b n')) as Hne by (intros n n' Hn [= He]; by apply key_inj in He).
  revert m. induction ids as [|id ids IH]; intros m; [done|]. cbn [promote_ids_lua avoids cmd_key]. rewrite pJob_app.
  split; [by apply Hne|]. intros r. case_match; [|apply IH]. cbn [avoids cmd_key]. split; [by apply Hne|].
  intros r'. case_match; [|apply IH]. cbn [avoids cmd_key]. split; [by apply Hne|]. intros r''. split; [by apply Hne|].
  intros _. destruct r''; try done. cbn [with_str avoids cmd_key]. rewrite pQueue_app. split; [by apply Hne|done].
Qed.

Lemma run_promote ks limit :
  rinv b ks → 0 < limit →
  let ids1 := taken NDelayed ks limit in
  let ids2 := taken NRetry ks (limit - Z.of_nat (length ids1)) in
  ∃ ks', exec (promote_lua (key b NDelayed) (key b NRetry) limit (pJob b) (prefix b +:+ ":q:")) ks =
      (ks', Some (Z.of_nat (length (ids1 ++ ids2)))) ∧
    rinv b ks' ∧
    ∀ id, jobj b ks' id = if decide (id ∈ ids1 ++ ids2) then ready_again <$> jobj b ks id else jobj b ks id.
Proof.
  intros HI Hl ids1 ids2. unfold promote_lua. rewrite run_clock. cbn [promote_sets_lua].
  rewrite bool_decide_eq_true_2 by lia. rewrite (run_ZRANGE b) by (done || apply HI). rewrite Z.sub_0_r. fold (taken NDelayed ks limit). fold ids1.
  destruct (run_promote_ids NDelayed ids1 ks 0 (or_introl eq_refl) HI) as (ks1 & HR & HI1 & Hj1).
  { apply taken_spec. }
  { intros id. by apply taken_belongs. }
  erewrite run_let by exact HR. rewrite Z.add_0_l.
  (* the jobs of the retry set are not concerned by the first half *)
  assert (∀ id j, jobj b ks id = Some j → belongs NRetry j → id ∉ ids1) as Hdisj.
  { intros id j Hj Hb Hid. apply taken_belongs in Hid as (j' & Hj' & Hb'); [|done|done].
    rewrite Hj in Hj'. injection Hj' as <-. unfold belongs in *. by rewrite Hb in Hb'. }
  assert (zs b ks1 NRetry = zs b ks NRetry) as Hz.
  { unfold zs. pose proof (run_frame now (key b NRetry) (promote_ids_lua ids1 (key b NDelayed) (pJob b) (prefix b +:+ ":q:") 0) ks) as HF.
    rewrite HR in HF. cbn [fst] in HF. by rewrite HF by apply promote_avoids. }
  assert (limit - Z.of_nat (length ids1) = 0 ∨ 0 < limit - Z.of_nat (length ids1)) as Hle.
  { assert (length ids1 ≤ Z.to_nat limit)%nat; [|lia]. unfold ids1, taken. rewrite length_fmap, length_take. lia. }
  assert (∃ ks', exec (promote_sets_lua [key b NRetry] limit (UnixMilli now) (pJob b) (prefix b +:+ ":q:")
      (Z.of_nat (length ids1))) ks1 = (ks', Some (Z.of_nat (length (ids1 ++ ids2)))) ∧ rinv b ks' ∧
    ∀ id, jobj b ks' id = if decide (id ∈ ids2) then ready_again <$> jobj b ks1 id else jobj b ks1 id)
    as (ks2 & HR2 & HI2 & Hj2).
  { cbn [promote_sets_lua]. case_bool_decide as Hlt.
    - rewrite (run_ZRANGE b) by (done || apply HI1).
      assert (ids2 = taken NRetry ks1 (limit - Z.of_nat (length ids1))) as E2 by (unfold ids2, taken; by rewrite Hz).
      unfold taken in E2. rewrite <- E2.
      destruct (run_promote_ids NRetry ids2 ks1 (Z.of_nat (length ids1)) (or_intror eq_refl) HI1) as (ks2 & HR2 & HI2 & Hj2).
      { apply taken_spec. }
      { intros id Hid. rewrite E2 in Hid. fold (taken NRetry ks1 (limit - Z.of_nat (length ids1))) in Hid. by eapply taken_belongs. }
      exists ks2. erewrite run_let by exact HR2. split_and!; [|done|done]. cbn. by rewrite length_app, Nat2Z.inj_add.
    - assert (ids2 = []) as ->. { unfold ids2, taken. by replace (limit - Z.of_nat (length ids1)) with 0 by lia. }
      exists ks1. rewrite app_nil_r. by split_and!. }
  exists ks2. split_and!; [exact HR2|done|]. intros id. rewrite Hj2, Hj1.
  destruct (decide (id ∈ ids2)) as [H2|H2].
  - rewrite (decide_True (P := id ∈ ids1 ++ ids2)) by (apply elem_of_app; by right).
    apply taken_belongs in H2 as (j & Hj & Hb); [|done|done]. rewrite decide_False; [done|by eapply Hdisj].
  - apply decide_ext. rewrite elem_of_app. tauto.
Qed.

(** Sweeping one queue. *)
Lemma run_reap ks q limit :
  rinv b ks →
  let ids := taken (NActive q) ks limit in
  let dead := Z.of_nat (length (filter (λ id, spent ks id = true) ids)) in
  ∃ ks', exec (reap_lua (key b (NActive q)) (key b NDead) (key b (NQueue q)) (key b NFailed) limit (pJob b)) ks =
      (ks', Some [RInt (Z.of_nat (length ids) - dead); RInt dead]) ∧
    rinv b ks' ∧
    ∀ id, jobj b ks' id = if decide (id ∈ ids) then swept <$> jobj b ks id else jobj b ks id.
Proof.
  intros HI ids dead. unfold reap_lua. rewrite run_clock, (run_ZRANGE b) by (done || apply HI).
  fold (taken (NActive q) ks limit). fold ids. destruct (run_reap_ids ids ks q 0 0 HI) as (ks' & HR & ?).
  - apply taken_spec.
  - intros id. by apply taken_belongs.
  - by exists ks'.
Qed.

(** ** Enqueuing *)

Definition enqueue_fields (now_ms : Z) j : list (string * string) :=
  [("id", ID j); ("queue", Queue j); ("type", Type_ j); ("payload", String.string_of_list_byte (default [] (Payload j)));
   ("attempt", "0"); ("max_attempts", pretty (MaxAttempts j)); ("recoveries", "0");
   ("state", if bool_decide (msFromTime (RunAt j) > now_ms) then "scheduled" else "pending");
   ("owner", ""); ("unique_key", UniqueKey j); ("last_err", ""); ("enqueued_at", pretty now_ms);
   ("run_at", pretty (msFromTime (RunAt j))); ("started_at", "0"); ("deadline", "0")].

Lemma stored_hash now_ms j :
  0 ≤ now_ms → 0 ≤ msFromTime (RunAt j) →
  hash_of (foldl (λ h fv, <[fv.1 := fv.2]> h) ∅ (enqueue_fields now_ms j)) (stored_as now_ms j).
Proof.
  intros Hn Hr f. cbn [foldl enqueue_fields fst snd].
  repeat (match goal with |- <[?k := ?v]> _ !! f = _ =>
    destruct (decide (k = f)) as [<-|?];
    [rewrite lookup_insert_eq; cbn; rewrite ?ms_time by done; try done; by destruct (Payload j) as [[|? ?]|]
    |rewrite lookup_insert_ne by done] end).
  rewrite lookup_empty. unfold field. by rewrite !(proj2 (String.eqb_neq f _)) by done.
Qed.

Lemma stored_ok now_ms j :
  ID j ≠ "" → Queue j ≠ "" → Type_ j ≠ "" → 0 < MaxAttempts j ≤ 2 ^ 53 → 0 ≤ msFromTime (RunAt j) ≤ 2 ^ 53 →
  0 ≤ now_ms < 2 ^ 53 → rjob_ok (ID j) (stored_as now_ms j).
Proof.
  intros. unfold stored_as.
  constructor; cbn; try done; try lia.
  - by case_bool_decide.
  - by destruct (default [] (Payload j)).
  - split_and!; [apply time_ms_ok; lia|apply time_ms_ok; lia|apply time_ok_zero..].
  - split; [|done]. by case_bool_decide.
  - left. case_bool_decide; [right; by left|by left].
Qed.

(** What a job must be for Enqueue to store it well. *)
Record storable (j : Job) : Prop := mkStorable {
  so_id : ID j ≠ "";
  so_queue : Queue j ≠ "";
  so_type : Type_ j ≠ "";
  so_max : 0 < MaxAttempts j ≤ 2 ^ 53;
  so_run : 0 ≤ msFromTime (RunAt j) ≤ 2 ^ 53
}.

(** A place for a new hash: nothing is there, or a record that has expired. *)
Lemma vacant_spot ks id : rinv b ks → live_job b now ks id = None → spot b ks id None.
Proof.
  intros HI Hl. destruct (rinv_cases b ks id HI) as [(_ & _ & Hsp)|(h & e & j & Hv & _ & _ & _ & He & Hsp)]; [done|].
  unfold live_job in Hl. rewrite Hv in Hl. destruct e as [e|]; [|done]. apply (spot_completed b ks id j); [|done].
  apply He. by eexists.
Qed.

Lemma run_store ks j :
  rinv b ks → live_job b now ks (ID j) = None → storable j → clock_ok now →
  ∃ ks', exec (store_lua (key b (NJob (ID j))) (key b (NQueue (Queue j))) (key b NDelayed) (key b NQueues) (ID j) (Queue j) (Type_ j)
                 (String.string_of_list_byte (default [] (Payload j))) (MaxAttempts j) (msFromTime (RunAt j)) (UniqueKey j)
                 (UnixMilli now)) ks = (ks', Some [RInt 1]) ∧
    rinv b ks' ∧ jobj b ks' (ID j) = Some (stored_as (UnixMilli now) j) ∧ others_same b ks ks' (ID j).
Proof.
  intros HI Hl [] Hn. pose proof (clock_ms now Hn) as Hms. unfold store_lua. cbv zeta.
  fold (enqueue_fields (UnixMilli now) j). rewrite (run_HSET_new b) by (done || apply HI).
  pose proof (stored_hash (UnixMilli now) j ltac:(lia) ltac:(lia)) as Hh.
  set (h := foldl _ ∅ (enqueue_fields (UnixMilli now) j)) in *.
  assert (working b ks (ID j) (set_jobv b (ID j) h None ks) h (stored_as (UnixMilli now) j)) as HW.
  { constructor; [auto with redis|by rewrite jobv_set_jobv, decide_True|done|].
    by apply spot_set_jobv, vacant_spot. }
  assert (rjob_ok (ID j) (stored_as (UnixMilli now) j)) as Hok by (apply stored_ok; try done; lia).
  assert (∀ ks1, rinv b ks1 → jobj b ks1 (ID j) = Some (stored_as (UnixMilli now) j) → others_same b ks ks1 (ID j) →
    ∃ ks', exec (Call (SADD (key b NQueues) (Queue j)) (λ _, Ret [RInt 1])) ks1 = (ks', Some [RInt 1]) ∧
    rinv b ks' ∧ jobj b ks' (ID j) = Some (stored_as (UnixMilli now) j) ∧ others_same b ks ks' (ID j)) as Hend.
  { intros ks1 HI1 Hj1 Ho1. destruct (finish_SADD ks1 (Queue j) (Ret [RInt 1]) HI1) as (ks2 & -> & HI2 & Hj2).
    exists ks2. split_and!; [done|done|by rewrite Hj2|]. intros id' Hne. rewrite Hj2. by apply Ho1. }
  set (p := Call (SADD _ _) _) in *. destruct (bool_decide_reflect (msFromTime (RunAt j) > UnixMilli now)) as [Hr|Hr].
  - cbn [String.eqb Ascii.eqb Bool.eqb].
    destruct (finish_zset ks (ID j) _ h _ NDelayed (msFromTime (RunAt j)) p HI HW Hok) as (ks1 & -> & HI1 & Hj1 & Ho1).
    + cbn. by rewrite bool_decide_eq_true_2.
    + cbn. by rewrite bool_decide_eq_true_2.
    + by apply Hend.
  - cbn [String.eqb Ascii.eqb Bool.eqb].
    destruct (finish_ready ks (ID j) _ h _ false p HI HW Hok) as (ks1 & Hrun & HI1 & Hj1 & Ho1).
    + cbn. by rewrite bool_decide_eq_false_2.
    + cbn [Queue stored_as] in Hrun. rewrite Hrun. by apply Hend.
Qed.

(** A unique key is free, or names the job that holds it. *)
Definition holder ks (k : string) : option string :=
  match live now ks (key b (NUnique k)) with Some (RStr s, _) => Some s | _ => None end.

(** A unique key that is held refuses whatever job. *)
Lemma run_enqueue_held ks kjob kready kdelayed kqueues ukey id queue type_ payload max_attempts run_at ttl unique_key other :
  0 < ttl → holder ks ukey = Some other →
  exec (enqueue_lua kjob kready kdelayed kqueues (key b (NUnique ukey)) id queue type_ payload max_attempts run_at ttl unique_key) ks =
  (ks, Some [RInt 0; RBulk other]).
Proof.
  unfold holder. intros Ht Hu. destruct (live now ks (key b (NUnique ukey))) as [[[] e]|] eqn:Hl; try done. injection Hu as ->.
  unfold enqueue_lua. rewrite run_clock. cbv zeta. rewrite bool_decide_eq_true_2 by lia.
  rewrite (run_call _ _ _ ks ks RNil); [|cbn [documented]; rewrite bool_decide_eq_false_2 by lia; by rewrite Hl|done]. cbn [is_nil].
  rewrite (run_call _ _ _ ks ks (RBulk other)); [done|cbn [documented]; by rewrite Hl|done].
Qed.

Lemma run_enqueue ks j ukey ttl :
  rinv b ks → live_job b now ks (ID j) = None → storable j → clock_ok now →
  let p := enqueue_lua (key b (NJob (ID j))) (key b (NQueue (Queue j))) (key b NDelayed) (key b NQueues) (key b (NUnique ukey))
                 (ID j) (Queue j) (Type_ j) (String.string_of_list_byte (default [] (Payload j))) (MaxAttempts j)
                 (msFromTime (RunAt j)) ttl (UniqueKey j) in
  match (if bool_decide (ttl > 0) then holder ks ukey else None) with
  | Some other => exec p ks = (ks, Some [RInt 0; RBulk other])
  | None => ∃ ks', exec p ks = (ks', Some [RInt 1]) ∧
      rinv b ks' ∧ jobj b ks' (ID j) = Some (stored_as (UnixMilli now) j) ∧ others_same b ks ks' (ID j)
  end.
Proof.
  intros HI Hl Hso Hn. cbv zeta. case_bool_decide as Ht;
    [|unfold enqueue_lua; rewrite run_clock; cbv zeta; rewrite bool_decide_eq_false_2 by done; by apply run_store].
  destruct (holder ks ukey) as [other|] eqn:Hh; [apply run_enqueue_held; [lia|done]|].
  unfold enqueue_lua. rewrite run_clock. cbv zeta. rewrite bool_decide_eq_true_2 by done.
  destruct (live now ks (key b (NUnique ukey))) as [v|] eqn:Hu.
  - exfalso. unfold holder in Hh. rewrite Hu in Hh. unfold live in Hu. destruct (ks !! key b (NUnique ukey)) as [[v' e']|] eqn:E; [|done].
    apply (ri_ty _ _ HI) in E as (s & e & [= -> ->]). destruct e; [case_bool_decide|]; by simplify_eq.
  - set (ks1 := <[key b (NUnique ukey) := (RStr (ID j), Some (UnixMilli now + ttl))]> ks).
    rewrite (run_call _ _ _ ks ks1 ROK); [|cbn [documented]; rewrite bool_decide_eq_false_2 by lia; by rewrite Hu|done].
    cbn [is_nil]. destruct (rinv_insert ks (NUnique ukey) (RStr (ID j), Some (UnixMilli now + ttl)) HI) as [HI1 Hj1];
      [done|by do 2 eexists|].
    destruct (run_store ks1 j HI1) as (ks' & HR & HI' & Hj' & Ho'); [|done|done|].
    { unfold live_job. rewrite (jobv_only b (NUnique ukey) ks); [done|apply only_insert|done]. }
    exists ks'. split_and!; try done. intros id' Hne. rewrite Ho' by done. apply Hj1.
Qed.
End scripts.
