(* ===== verification/RedisBroker.v ===== *)
(** * The Redis broker implements the interfaces

    On any Redis server that behaves as documented, the Go methods and the scripts
    together keep the promises of BrokerAPI.v, so the client, the worker and the
    scheduler are as correct on Redis as in memory. *)
From S2P Require Import Prelude GoBase Job Backoff Interface BrokerAPI RedisServer RedisScripts Redis RedisKeys RedisTypes RedisInv RedisRun RedisScriptSpecs.

Section instances.
Context {DB : Type} `{RedisServer DB} (b : settings).

Definition redis_broker : BrokerOps DB := {|
  b_Enqueue := Enqueue b;
  b_Dequeue := Dequeue b;
  b_Ack := Ack b;
  b_Nack := Nack b;
  b_Kill := Kill b;
  b_Extend := Extend b
|}.

Definition redis_maintenance : MaintenanceOps DB := {|
  m_Reap := Reap b;
  m_Promote := Promote b;
  m_Heartbeat := Heartbeat b;
  m_AcquireLease := AcquireLease b;
  m_ReleaseLease := ReleaseLease b
|}.

Definition redis_cron : CronOps DB := {|
  c_ScheduleCronIfAbsent := ScheduleCronIfAbsent b;
  c_DueCron := DueCron b;
  c_ClaimCron := ClaimCron b;
  c_RemoveCron := RemoveCron b
|}.

Context `{!RedisLaws DB}.

(** The states of a server that the broker can be on, and the job under an identifier. *)
Definition redis_inv (db : DB) : Prop := rinv b (view db).
Definition redis_job (db : DB) (id : string) : option Job := jobj b (view db) id.
Definition redis_deadline (now vt : Z) : Z := timeFromMs (UnixMilli now + Milliseconds vt).

(** ** Lemmas *)

(** A script on the server does what it does on the keyspace. *)
Lemma Run_doc {A} now (p : prog A) db ks' r :
  run_prog (documented now) p (view db) = (ks', r) → ∃ db', Run now p db = (db', r) ∧ view db' = ks'.
Proof.
  intros Hd. unfold Run. pose proof (run_documented now p db) as HR.
  destruct (run_prog (redis_call now) p db) as [db' r']. exists db'. rewrite Hd in HR. by simplify_eq.
Qed.

Lemma Run_view {A} now (p : prog A) db :
  let '(db', r) := Run now p db in run_prog (documented now) p (view db) = (view db', r).
Proof. apply run_documented. Qed.

Lemma redis_law_lease now vt :
  clock_ok now → 0 < vt → now + vt - 2 * Millisecond < redis_deadline now vt ≤ now + vt.
Proof.
  intros Hn Hvt. pose proof (clock_ms now Hn) as Hms. unfold redis_deadline, timeFromMs.
  assert (0 ≤ Milliseconds vt) as Hm by (unfold Milliseconds; apply Z.quot_pos; unfold_durations; lia).
  rewrite bool_decide_eq_false_2 by lia. unfold Milliseconds, UnixMilli in *.
  rewrite Z.quot_div_nonneg in * by (unfold_durations; lia).
  assert (0 < Millisecond) as Hpos by done.
  pose proof (Z.div_mod now Millisecond ltac:(lia)). pose proof (Z.div_mod vt Millisecond ltac:(lia)).
  pose proof (Z.mod_pos_bound now Millisecond Hpos). pose proof (Z.mod_pos_bound vt Millisecond Hpos). nia.
Qed.

(** The envelope Enqueue sends: the defaults filled in. *)
Definition filled (NewID : string) (j : Job) : Job :=
  let j := if String.eqb (ID j) "" then set_ID NewID j else j in
  if bool_decide (MaxAttempts j ≤ 0) then set_MaxAttempts DefaultMaxAttempts j else j.

Lemma filled_fields i j :
  ID (filled i j) = assigned_id i j ∧ Queue (filled i j) = Queue j ∧ Type_ (filled i j) = Type_ j ∧
  Payload (filled i j) = Payload j ∧ RunAt (filled i j) = RunAt j ∧ UniqueKey (filled i j) = UniqueKey j ∧
  UniqueTTL (filled i j) = UniqueTTL j ∧
  MaxAttempts (filled i j) = if bool_decide (MaxAttempts j ≤ 0) then DefaultMaxAttempts else MaxAttempts j.
Proof.
  unfold filled, assigned_id. destruct (String.eqb (ID j) ""); cbn; by destruct (bool_decide (MaxAttempts j ≤ 0)).
Qed.

Lemma filled_storable i j :
  assigned_id i j ≠ "" → Queue j ≠ "" → Type_ j ≠ "" → go_job j → storable (filled i j).
Proof.
  intros Hid Hq Ht [Hmax Hrun]. destruct (filled_fields i j) as (F1 & F2 & F3 & _ & F5 & _ & _ & F8).
  constructor; rewrite ?F1, ?F2, ?F3, ?F5, ?F8; try done.
  - case_bool_decide; [by vm_compute|lia].
  - unfold msFromTime. destruct Hrun as [->|Hrun]; [by vm_compute|]. destruct (IsZero (RunAt j)); lia.
Qed.

Lemma stored_same_task i now j :
  0 ≤ msFromTime (RunAt j) → same_task (filled i j) (stored_as (UnixMilli now) (filled i j)).
Proof.
  intros Hr. destruct (filled_fields i j) as (_ & _ & _ & F4 & F5 & _). unfold same_task. split_and!; try done.
  - cbn. by destruct (Payload (filled i j)) as [[|? ?]|].
  - unfold run_ms. rewrite F5. change (msFromTime (RunAt (stored_as (UnixMilli now) (filled i j))) = msFromTime (RunAt j)).
    cbn. rewrite F5. by apply ms_time.
Qed.

(** The time to live of a unique key, in milliseconds. *)
Definition unique_ms (j : Job) : Z := Milliseconds (if bool_decide (UniqueTTL j ≤ 0) then defaultUniqueTTL else UniqueTTL j).

(** Enqueue of a valid envelope, with the key and the time to live it sends. *)
Lemma redis_Enqueue i now j db :
  Queue j ≠ "" → Type_ j ≠ "" →
  ∃ ukey ttl st,
    (if String.eqb (UniqueKey j) "" then ttl = 0 else ukey = UniqueKey j ∧ ttl = unique_ms j) ∧
    Enqueue b i now (Some j) db =
    let f := filled i j in
    let '(db, res) := Run now (enqueue_lua (key b (NJob (ID f))) (key b (NQueue (Queue f))) (key b NDelayed) (key b NQueues)
      (key b (NUnique ukey)) (ID f) (Queue f) (Type_ f) (String.string_of_list_byte (default [] (Payload f)))
      (MaxAttempts f) (msFromTime (RunAt f)) ttl (UniqueKey f)) db in
    match res with
    | None => (db, Some f, Some (Errorf "taskq/rdb: enqueue %s: %w" [ID f] [redisError]))
    | Some [] => (db, Some f, Some (Errorf "taskq/rdb: empty enqueue reply for job %s" [ID f] []))
    | Some (r0 :: rs) =>
        if bool_decide (toInt64 r0 = 0)
        then (db, Some f, Some (DuplicateError (UniqueKey f) match rs with RBulk s :: _ => s | _ => "" end))
        else (db, Some (set_State st f), None)
    end.
Proof.
  intros Hq Ht. unfold Enqueue. rewrite (proj2 (String.eqb_neq _ _) Hq), (proj2 (String.eqb_neq _ _) Ht).
  fold (filled i j). cbv zeta. destruct (filled_fields i j) as (_ & _ & _ & _ & _ & F6 & F7 & _).
  rewrite F6. destruct (String.eqb (UniqueKey j) "");
    [exists "__none__", 0|exists (UniqueKey j), (unique_ms j); unfold unique_ms; rewrite <- F7];
    (eexists; split; [try split; reflexivity|reflexivity]).
Qed.

Lemma redis_absent db id : redis_inv db → redis_job db id = None → jobv b (view db) id = None.
Proof.
  intros HI Hj. destruct (rinv_cases b (view db) id HI) as [(? & _)|(h & e & j & _ & Hj' & _)]; [done|].
  unfold redis_job in Hj. congruence.
Qed.

(** Enqueue under an identifier with no live record. *)
Lemma redis_Enqueue_spec i now j db :
  redis_inv db → live_job b now (view db) (assigned_id i j) = None → assigned_id i j ≠ "" → go_job j → clock_ok now →
  let '(db', j', err) := Enqueue b i now (Some j) db in
  match err with
  | Some _ => db' = db
  | None => redis_inv db' ∧ Queue j ≠ "" ∧ Type_ j ≠ "" ∧ (∃ st, j' = Some (set_State st (filled i j))) ∧
            redis_job db' (assigned_id i j) = Some (stored_as (UnixMilli now) (filled i j)) ∧
            ∀ id, id ≠ assigned_id i j → redis_job db' id = redis_job db id
  end.
Proof.
  intros HI Hl Hid Hgo Hn.
  destruct (String.eqb_spec (Queue j) "") as [Hq|Hq]; [unfold Enqueue; by rewrite Hq|].
  destruct (String.eqb_spec (Type_ j) "") as [Ht|Ht].
  { unfold Enqueue. by rewrite (proj2 (String.eqb_neq _ _) Hq), Ht. }
  destruct (redis_Enqueue i now j db Hq Ht) as (ukey & ttl & st & _ & ->). cbv zeta.
  destruct (filled_fields i j) as (F1 & _). pose proof (filled_storable i j Hid Hq Ht Hgo) as Hso. rewrite <- F1 in *.
  pose proof (run_enqueue b now (view db) (filled i j) ukey ttl HI Hl Hso Hn) as HE. cbv zeta in HE.
  destruct (if bool_decide (ttl > 0) then holder b now (view db) ukey else None) as [other|].
  - destruct (Run_doc _ _ _ _ _ HE) as (db' & -> & Hv). cbn [toInt64]. rewrite bool_decide_eq_true_2 by done.
    by apply (inj view).
  - destruct HE as (ks' & HE & HI' & Hj' & Ho'). destruct (Run_doc _ _ _ _ _ HE) as (db' & -> & Hv).
    cbn [toInt64]. rewrite bool_decide_eq_false_2 by done. unfold redis_inv, redis_job. rewrite Hv. split_and!; try done.
    by exists st.
Qed.

Lemma redis_law_enqueue i now j db :
  redis_inv db → redis_job db (assigned_id i j) = None → assigned_id i j ≠ "" → go_job j → clock_ok now →
  let '(db', j', err) := Enqueue b i now (Some j) db in
  match err with
  | Some _ => db' = db
  | None =>
      redis_inv db' ∧
      ∃ jf js, j' = Some jf ∧ same_task j jf ∧ ID jf = assigned_id i j ∧
        MaxAttempts jf = (if bool_decide (MaxAttempts j ≤ 0) then DefaultMaxAttempts else MaxAttempts j) ∧
        redis_job db' (ID jf) = Some js ∧ same_task jf js ∧ ID js = ID jf ∧
        MaxAttempts js = MaxAttempts jf ∧ Owner js = "" ∧
        (State_ js = StatePending ∨ (State_ js = StateScheduled ∧ now < RunAt j)) ∧
        (State_ js = StatePending → run_ms j ≤ UnixMilli now) ∧
        ∀ id, id ≠ ID jf → redis_job db' id = redis_job db id
  end.
Proof.
  intros HI Hfresh Hid Hgo Hn.
  pose proof (redis_Enqueue_spec i now j db HI (live_job_none _ _ _ _ (redis_absent _ _ HI Hfresh)) Hid Hgo Hn) as HE.
  destruct (Enqueue b i now (Some j) db) as [[db' j'] [err|]]; [done|].
  destruct HE as (HI' & Hq & Ht & [st ->] & Hj' & Ho').
  destruct (filled_fields i j) as (F1 & F2 & F3 & F4 & F5 & F6 & F7 & F8).
  pose proof (so_run _ (filled_storable i j Hid Hq Ht Hgo)) as Hr. rewrite F5 in Hr.
  pose proof (stored_same_task i now j (proj1 Hr)) as Hst. set (f := filled i j) in *.
  split; [done|]. exists (set_State st f), (stored_as (UnixMilli now) f).
  cbn [ID MaxAttempts set_State]. rewrite F1. split_and!; try done.
  - unfold same_task, run_ms. cbn. by rewrite F2, F3, F4, F5, F6.
  - cbn [State_ stored_as]. rewrite F5.
    destruct (bool_decide_reflect (msFromTime (RunAt j) > UnixMilli now)) as [Hc|Hc]; [right|by left]. split; [done|].
    unfold msFromTime in Hc. pose proof (clock_ms now Hn). destruct (IsZero (RunAt j)); [lia|].
    unfold UnixMilli in Hc. apply Z.nle_gt. intros Hle. apply (Z.div_le_mono _ _ Millisecond) in Hle; [lia|done].
  - cbn [State_ stored_as]. rewrite F5.
    destruct (bool_decide_reflect (msFromTime (RunAt j) > UnixMilli now)) as [Hc|Hc]; [done|]. intros _.
    unfold run_ms. fold (msFromTime (RunAt j)). lia.
Qed.

Lemma redis_law_valid i now j db :
  redis_inv db → (Enqueue b i now (Some j) db).2 = None → Queue j ≠ "" ∧ Type_ j ≠ "".
Proof.
  intros _. unfold Enqueue. destruct (String.eqb_spec (Queue j) ""); [done|]. by destruct (String.eqb_spec (Type_ j) "").
Qed.

(** A claim: the head of the first queue that has jobs. *)
Lemma redis_Dequeue_spec o now db :
  redis_inv db → clock_ok now → VisibilityTimeout o < 2 ^ 63 →
  let '(db', r) := Dequeue b o now db in
  match r with
  | Err _ => db' = db
  | Ok jc => ∃ j, redis_job db (ID j) = Some j ∧ State_ j = StatePending ∧
      jc = claimed_by (WorkerID o) (UnixMilli now) (Milliseconds (VisibilityTimeout o)) j ∧
      redis_inv db' ∧ redis_job db' (ID j) = Some jc ∧ ∀ id, id ≠ ID j → redis_job db' id = redis_job db id
  end.
Proof.
  intros HI Hn Hvt. unfold Dequeue. destruct (String.eqb_spec (WorkerID o) "") as [Hw|Hw]; [done|].
  case_bool_decide as Hpos; [done|]. case_bool_decide as Hlen; [done|].
  pose proof (ms_of_duration (VisibilityTimeout o) ltac:(lia)) as Hms.
  assert (run_prog (documented now) (dequeue_lua ((λ q, (kQueue b q, kActive b q)) <$> Queues o) (WorkerID o)
    (Milliseconds (VisibilityTimeout o)) (pJob b)) (view db) =
    run_prog (documented now) (queues_lua ((λ q, (key b (NQueue q), key b (NActive q))) <$> Queues o) (WorkerID o) (pJob b)
      (UnixMilli now) (Milliseconds (VisibilityTimeout o))) (view db)) as HD by (unfold dequeue_lua; by rewrite run_clock).
  pose proof (run_queues b now (view db) (Queues o) (WorkerID o) _ HI Hw Hn Hms) as HQ.
  destruct (first_job b (view db) (Queues o)) as [[q id]|].
  - destruct HQ as (ks' & l & j & HQ & Hj & Hs & Hq & <- & Hd & HI' & Hj' & Ho').
    rewrite HQ in HD. destruct (Run_doc _ _ _ _ _ HD) as (db' & -> & Hv). rewrite Hd.
    exists j. unfold redis_inv, redis_job. rewrite Hv. by split_and!.
  - rewrite HQ in HD. destruct (Run_doc _ _ _ _ _ HD) as (db' & -> & Hv). by apply (inj view).
Qed.

Lemma redis_law_dequeue o now db :
  redis_inv db → clock_ok now → VisibilityTimeout o < 2 ^ 63 →
  let '(db', r) := Dequeue b o now db in
  match r with
  | Err _ => db' = db
  | Ok j => redis_inv db' ∧ redis_job db' (ID j) = Some j ∧ State_ j = StateActive ∧ Owner j = WorkerID o ∧
            (∃ j0, redis_job db (ID j) = Some j0 ∧ State_ j0 = StatePending) ∧
            ∀ id, id ≠ ID j → redis_job db' id = redis_job db id
  end.
Proof.
  intros HI Hn Hvt. pose proof (redis_Dequeue_spec o now db HI Hn Hvt) as HD.
  destruct (Dequeue b o now db) as [db' [jc|err]]; [|done]. destruct HD as (j & Hj & Hs & -> & HI' & Hj' & Ho').
  split_and!; try done. by exists j.
Qed.

(** A refused report. *)
Lemma refused_error r id w :
  refused r → ∃ res, r = Some res ∧ ∃ err, fenceError res id w = Some err ∧ (Is err ErrLeaseLost || Is err ErrJobNotFound) = true.
Proof. intros [->|(s & o & ->)]; eexists; (split; [done|]); by eexists. Qed.

Lemma redis_Ack_spec w id now db :
  redis_inv db →
  let '(db', err) := Ack b w id now db in
  match err with
  | Some _ => ¬ holds redis_job db w id ∧ db' = db
  | None => holds redis_job db w id ∧ redis_inv db' ∧
            redis_job db' id = (if bool_decide (Milliseconds (completedTTL b) > 0) then completed <$> redis_job db id else None) ∧
            ∀ id', id' ≠ id → redis_job db' id' = redis_job db id'
  end.
Proof.
  intros HI. unfold Ack, report_to.
  pose proof (run_ack b now (view db) id w (Milliseconds (completedTTL b)) HI) as HA.
  match goal with |- context [Run now ?p db] => pose proof (Run_view now p db) as HR; destruct (Run now p db) as [db' r] end.
  change (key b (NJob id)) with (kJob b id) in HA. change (key b NProcessed) with (kProcessed b) in HA. rewrite HR in HA.
  destruct HA as [(Hh & -> & HI' & Hj & Ho)|(Hh & Hv & Hr)]; [done|].
  destruct (refused_error r id w Hr) as (res & -> & err & -> & _). split; [done|by apply (inj view)].
Qed.

Lemma redis_law_ack w id now db :
  redis_inv db →
  let '(db', err) := Ack b w id now db in
  match err with
  | Some _ => ¬ holds redis_job db w id ∧ db' = db
  | None => holds redis_job db w id ∧ redis_inv db' ∧
            (∀ j, redis_job db' id = Some j → State_ j = StateCompleted) ∧
            ∀ id', id' ≠ id → redis_job db' id' = redis_job db id'
  end.
Proof.
  intros HI. pose proof (redis_Ack_spec w id now db HI) as HA. destruct (Ack b w id now db) as [db' [err|]]; [done|].
  destruct HA as (Hh & HI' & Hj & Ho). split_and!; try done. intros j. rewrite Hj.
  case_bool_decide; [|done]. destruct (redis_job db id); [by intros [= <-]|done].
Qed.

Lemma redis_law_nack w id t reason now db :
  redis_inv db →
  let '(db', err) := Nack b w id t reason now db in
  match err with
  | Some _ => ¬ holds redis_job db w id ∧ db' = db
  | None => holds redis_job db w id ∧ redis_inv db' ∧
            (∃ j j', redis_job db id = Some j ∧ redis_job db' id = Some j' ∧ same_task j j' ∧
               Attempt j' = Attempt j ∧ MaxAttempts j' = MaxAttempts j ∧ LastErr j' = reason ∧ Owner j' = "" ∧
               State_ j' = (if Exhausted j then StateDead else StateRetry)) ∧
            ∀ id', id' ≠ id → redis_job db' id' = redis_job db id'
  end.
Proof.
  intros HI. unfold Nack, report_to.
  pose proof (run_nack b now (view db) id w (msFromTime t) reason HI) as HA.
  match goal with |- context [Run now ?p db] => pose proof (Run_view now p db) as HR; destruct (Run now p db) as [db' r] end.
  change (key b (NJob id)) with (kJob b id) in HA. change (key b NRetry) with (kRetry b) in HA.
  change (key b NDead) with (kDead b) in HA. change (key b NFailed) with (kFailed b) in HA. rewrite HR in HA.
  destruct HA as [(Hh & [what ->] & HI' & Hj & Ho)|(Hh & Hv & Hr)].
  - cbn. split_and!; try done. destruct Hh as (j & Hj0 & _). rewrite Hj0 in Hj. exists j, (nacked reason j). by split_and!.
  - destruct (refused_error r id w Hr) as (res & -> & err & -> & _). split; [done|by apply (inj view)].
Qed.

Lemma redis_law_kill w id reason now db :
  redis_inv db →
  let '(db', err) := Kill b w id reason now db in
  match err with
  | Some _ => ¬ holds redis_job db w id ∧ db' = db
  | None => holds redis_job db w id ∧ redis_inv db' ∧
            (∃ j j', redis_job db id = Some j ∧ redis_job db' id = Some j' ∧ same_task j j' ∧
               Attempt j' = Attempt j ∧ MaxAttempts j' = MaxAttempts j ∧ LastErr j' = reason ∧ Owner j' = "" ∧
               State_ j' = StateDead) ∧
            ∀ id', id' ≠ id → redis_job db' id' = redis_job db id'
  end.
Proof.
  intros HI. unfold Kill, report_to.
  pose proof (run_kill b now (view db) id w reason HI) as HA.
  match goal with |- context [Run now ?p db] => pose proof (Run_view now p db) as HR; destruct (Run now p db) as [db' r] end.
  change (key b (NJob id)) with (kJob b id) in HA. change (key b NDead) with (kDead b) in HA.
  change (key b NFailed) with (kFailed b) in HA. rewrite HR in HA.
  destruct HA as [(Hh & -> & HI' & Hj & Ho)|(Hh & Hv & Hr)].
  - cbn. split_and!; try done. destruct Hh as (j & Hj0 & _). rewrite Hj0 in Hj. exists j, (killed reason j). by split_and!.
  - destruct (refused_error r id w Hr) as (res & -> & err & -> & _). split; [done|by apply (inj view)].
Qed.

Lemma redis_law_extend w ids vt now db :
  redis_inv db → 0 < vt < 2 ^ 63 → clock_ok now →
  let '(db', r) := Extend b w ids vt now db in
  ∃ lost, r = Ok lost ∧ redis_inv db' ∧ (∀ id, id ∈ lost ↔ id ∈ ids ∧ ¬ holds redis_job db w id) ∧
    ∀ id, (holds redis_job db w id → id ∈ ids → redis_job db' id = set_Deadline (redis_deadline now vt) <$> redis_job db id) ∧
          (¬ holds redis_job db w id ∨ id ∉ ids → redis_job db' id = redis_job db id).
Proof.
  intros HI Hvt Hn. unfold Extend. rewrite bool_decide_eq_false_2 by lia. case_bool_decide as Hlen.
  { apply nil_length_inv in Hlen as ->. exists []. split_and!; try done.
    - intros id. split; [by intros ?%elem_of_nil|by intros [?%elem_of_nil _]].
    - intros id. split; [by intros _ ?%elem_of_nil|done]. }
  pose proof (ms_of_duration vt Hvt) as Hms.
  destruct (run_extend b now ids (view db) w (Milliseconds vt) [] HI Hn Hms) as (ks' & HE & HI' & Hj').
  assert (run_prog (documented now) (extend_lua w (Milliseconds vt) (pJob b) (pActive b) ids) (view db) =
    (ks', Some (filter (λ id, held b (view db) w id = false) ids))) as HD by (unfold extend_lua; by rewrite run_clock).
  destruct (Run_doc _ _ _ _ _ HD) as (db' & -> & Hv). unfold redis_inv, redis_job in *. rewrite Hv.
  assert (∀ id, held b (view db) w id = false ↔ ¬ holds (λ db, jobj b (view db)) db w id) as Hheld.
  { intros id. rewrite <- not_true_iff_false, held_spec. done. }
  eexists. split_and!; [done|done| |].
  - intros id. rewrite list_elem_of_filter, Hheld. tauto.
  - intros id. rewrite Hj'. split; intros Hc.
    + intros Hin. rewrite decide_True; [done|]. split; [done|]. by apply held_spec.
    + rewrite decide_False; [done|]. intros [Hin Hh%held_spec]. by destruct Hc.
Qed.

(** The broker's promises. *)
#[local] Existing Instance redis_broker.
Definition redis_laws : BrokerLaws DB := {|
  law_inv := redis_inv;
  job_at := redis_job;
  lease_deadline := redis_deadline;
  law_lease := redis_law_lease;
  law_enqueue := redis_law_enqueue;
  law_enqueue_valid := redis_law_valid;
  law_dequeue := redis_law_dequeue;
  law_ack := redis_law_ack;
  law_nack := redis_law_nack;
  law_kill := redis_law_kill;
  law_extend := redis_law_extend
|}.

(** ** Cron entries *)

(** The fire times are the scores of one sorted set, in milliseconds from the epoch. *)
Definition redis_cron_inv (db : DB) : Prop :=
  ty_ok b (view db) ∧ ∀ id ms, zs b (view db) NCron !! id = Some ms → 0 ≤ ms.
Definition redis_fire_time (db : DB) (id : string) : option Z := (λ ms, ms * Millisecond) <$> zs b (view db) NCron !! id.
Definition redis_stored_time (t : Z) : Z := UnixMilli t * Millisecond.

Lemma redis_law_stored t : t - Millisecond < redis_stored_time t ≤ t.
Proof.
  unfold redis_stored_time, UnixMilli. pose proof (Z.div_mod t Millisecond ltac:(done)).
  pose proof (Z.mod_pos_bound t Millisecond ltac:(done)). lia.
Qed.

(** A single command, as the server executes it. *)
Lemma call_doc now c db ks' r :
  documented now c (view db) = (ks', r) → ∃ db', redis_call now c db = (db', r) ∧ view db' = ks'.
Proof.
  intros Hd. pose proof (redis_documented now c db) as HR. destruct (redis_call now c db) as [db' r'].
  exists db'. rewrite Hd in HR. by simplify_eq.
Qed.
Lemma call_read now c db r :
  documented now c (view db) = (view db, r) → redis_call now c db = (db, r).
Proof. intros Hd. destruct (call_doc _ _ _ _ _ Hd) as (db' & -> & Hv). apply (inj view) in Hv as ->. done. Qed.

(** A new score in the cron set. *)
Lemma set_cron_ok db db' id t :
  redis_cron_inv db → 0 ≤ t → view db' = set_zs b NCron (<[id := UnixMilli t]> (zs b (view db) NCron)) (view db) →
  redis_fire_time db' id = Some (redis_stored_time t) ∧
  (∀ id', id' ≠ id → redis_fire_time db' id' = redis_fire_time db id') ∧ redis_cron_inv db'.
Proof.
  intros [Hty Hpos] Ht Hv. unfold redis_fire_time, redis_cron_inv. rewrite Hv, zs_set_zs, decide_True by done.
  split_and!.
  - by rewrite lookup_insert_eq.
  - intros id' Hne. by rewrite lookup_insert_ne.
  - by apply ty_set_zs.
  - intros id' ms [[-> <-]|[_ ?]]%lookup_insert_Some; [apply Z.div_pos; [done|by vm_compute]|by eapply Hpos].
Qed.

Lemma redis_law_schedule id t now db :
  redis_cron_inv db → id ≠ "" → 0 ≤ t →
  let '(db', r) := ScheduleCronIfAbsent b id t now db in
  match redis_fire_time db id with
  | Some _ => r = Ok false ∧ db' = db
  | None => r = Ok true ∧ redis_fire_time db' id = Some (redis_stored_time t) ∧
            (∀ id', id' ≠ id → redis_fire_time db' id' = redis_fire_time db id') ∧ redis_cron_inv db'
  end.
Proof.
  intros HI Hid Ht. unfold ScheduleCronIfAbsent. rewrite (proj2 (String.eqb_neq _ _) Hid).
  assert (documented now (ZADDNX (kCron b) (UnixMilli t) id) (view db) =
    match zs b (view db) NCron !! id with
    | Some _ => (view db, RInt 0)
    | None => (set_zs b NCron (<[id := UnixMilli t]> (zs b (view db) NCron)) (view db), RInt 1)
    end) as HD.
  { cbn [documented]. change (kCron b) with (key b NCron). rewrite zset_at_ty by (done || apply HI).
    destruct (_ !! id); [done|]. unfold set_zs, put_zset. by rewrite bool_decide_eq_false_2 by apply insert_non_empty. }
  unfold redis_fire_time at 1. destruct (zs b (view db) NCron !! id) as [ms|].
  - rewrite (call_read _ _ _ _ HD). done.
  - destruct (call_doc _ _ _ _ _ HD) as (db' & -> & Hv). cbn. split; [done|]. by apply set_cron_ok.
Qed.

Lemma redis_law_claim id fired next now db :
  redis_cron_inv db → id ≠ "" → redis_stored_time fired = fired → 0 ≤ next →
  let '(db', r) := ClaimCron b id fired next now db in
  if decide (redis_fire_time db id = Some fired)
  then r = Ok true ∧ redis_fire_time db' id = Some (redis_stored_time next) ∧
       (∀ id', id' ≠ id → redis_fire_time db' id' = redis_fire_time db id') ∧ redis_cron_inv db'
  else r = Ok false ∧ db' = db.
Proof.
  intros HI Hid Hst Hnext. unfold ClaimCron. rewrite (proj2 (String.eqb_neq _ _) Hid).
  change (kCron b) with (key b NCron). pose proof (proj1 HI) as Hty.
  set (p := cron_claim_lua _ _ _ _). set (z := zs b (view db) NCron).
  assert (run_prog (documented now) p (view db) =
    if decide (z !! id = Some (UnixMilli fired))
    then (set_zs b NCron (<[id := UnixMilli next]> z) (view db), Some 1) else (view db, Some 0)) as HD.
  { unfold p, cron_claim_lua.
    rewrite (run_call now _ _ (view db) (view db) (match z !! id with Some s => RBulk (pretty s) | None => RNil end));
      [|cbn [documented]; by rewrite zset_at_ty|by destruct (z !! id)].
    destruct (z !! id) as [ms|]; cbn [is_nil]; [|by rewrite decide_False]. cbn [with_num]. rewrite parse_int_pretty.
    destruct (decide (ms = UnixMilli fired)) as [->|Hne].
    - rewrite bool_decide_eq_true_2, decide_True by done. cbn [negb]. by rewrite (run_ZADD b).
    - rewrite bool_decide_eq_false_2, decide_False by congruence. done. }
  assert (redis_fire_time db id = Some fired ↔ z !! id = Some (UnixMilli fired)) as Heq.
  { unfold redis_fire_time. fold z. rewrite fmap_Some. split.
    - intros (ms & -> & ->). unfold UnixMilli. by rewrite Z.div_mul.
    - intros ->. exists (UnixMilli fired). by split. }
  destruct (decide (z !! id = Some (UnixMilli fired))) as [Hm|Hm].
  - destruct (Run_doc _ _ _ _ _ HD) as (db' & -> & Hv). rewrite (decide_True _ _ (proj2 Heq Hm)). split; [done|].
    by apply set_cron_ok.
  - destruct (Run_doc _ _ _ _ _ HD) as (db' & -> & Hv). rewrite decide_False by (by rewrite Heq). split; [done|].
    by apply (inj view).
Qed.

(** The server's clock, as the client reads it, in milliseconds. *)
Lemma server_time_ms now :
  clock_ok now →
  ∃ t, server_time (RArray [pretty (now / Second); pretty ((now mod Second) / 1000)]) = Some t ∧ UnixMilli t = UnixMilli now.
Proof.
  intros [Hlo Hhi]. unfold server_time. eexists. split; [done|].
  assert (0 ≤ now / Second < 2 ^ 62) as H1.
  { unfold_durations. split; [apply Z.div_pos; lia|]. apply Z.div_lt_upper_bound; lia. }
  pose proof (Z.mod_pos_bound now Second ltac:(done)) as H2.
  assert (0 ≤ (now mod Second) / 1000 < 2 ^ 62) as H3.
  { unfold_durations. split; [apply Z.div_pos; lia|]. apply Z.div_lt_upper_bound; unfold_durations; lia. }
  rewrite !atoi_pretty by (unfold int64_range; lia). unfold UnixMilli. unfold_durations.
  Z.to_euclidean_division_equations; lia.
Qed.

Lemma due_pairs (l : list (string * Z)) : pairs ('(m, s) ← l; [m; pretty s]) = (λ e, (e.1, pretty e.2)) <$> l.
Proof. induction l as [|[m s] l IH]; [done|]. cbn. by f_equal. Qed.

Lemma redis_law_due limit now db :
  redis_cron_inv db → 0 < limit → clock_ok now →
  let '(db', r) := DueCron b limit now db in
  ∃ due, r = Ok due ∧ redis_cron_inv db' ∧ (∀ id, redis_fire_time db' id = redis_fire_time db id) ∧
    ∀ d, d ∈ due → redis_fire_time db (due_ID d) = Some (due_FireAt d) ∧ due_FireAt d ≤ now ∧
                   redis_stored_time (due_FireAt d) = due_FireAt d.
Proof.
  intros HI Hl Hn. unfold DueCron. rewrite bool_decide_eq_false_2 by lia.
  rewrite (call_read now TIME db _ eq_refl). destruct (server_time_ms now Hn) as (t & -> & Ht). rewrite Ht.
  set (z := zs b (view db) NCron).
  assert (documented now (ZRANGEBYSCORE_WITHSCORES (kCron b) (UnixMilli now) limit) (view db) =
    (view db, RArray ('(m, s) ← take (Z.to_nat limit) (in_score_order z (UnixMilli now)); [m; pretty s]))) as HD.
  { cbn [documented]. change (kCron b) with (key b NCron). by rewrite zset_at_ty by (done || apply HI). }
  rewrite (call_read _ _ _ _ HD). eexists. split_and!; try done. intros d Hd. unfold due_entries in Hd.
  rewrite due_pairs, <- list_fmap_compose in Hd. apply list_elem_of_fmap in Hd as ([m s] & -> & Hin).
  apply subseteq_take, in_score_order_spec in Hin as [Hz Hs]. cbn [compose fst snd due_ID due_FireAt].
  pose proof (proj2 HI m s Hz) as Hpos. pose proof (clock_ms now Hn) as Hms.
  rewrite atoi_pretty by (unfold int64_range; lia). split_and!.
  - unfold redis_fire_time. fold z. by rewrite Hz.
  - pose proof (Z.mul_div_le now Millisecond ltac:(done)). transitivity (UnixMilli now * Millisecond); [|unfold UnixMilli; lia].
    by apply Z.mul_le_mono_nonneg_r.
  - unfold redis_stored_time, UnixMilli. by rewrite Z.div_mul.
Qed.

#[local] Existing Instance redis_cron.
Definition redis_cron_laws : CronLaws DB := {|
  cron_inv := redis_cron_inv;
  fire_time := redis_fire_time;
  stored_time := redis_stored_time;
  law_stored := redis_law_stored;
  law_due := redis_law_due;
  law_claim := redis_law_claim;
  law_schedule := redis_law_schedule
|}.

(** A script on the keys of jobs leaves the cron entries as they are. *)
Lemma job_script_cron {A} now P (p : prog A) db :
  prog_ok b P p → ¬ P NCron → redis_cron_inv db →
  redis_cron_inv (Run now p db).1 ∧ ∀ id, redis_fire_time (Run now p db).1 id = redis_fire_time db id.
Proof.
  intros Hp HP [Hty Hpos]. pose proof (Run_view now p db) as HR. destruct (Run now p db) as [db' r]. cbn [fst].
  pose proof (run_ty b now _ p (view db) Hp Hty) as Hty'. rewrite HR in Hty'. cbn [fst] in Hty'.
  assert (zs b (view db') NCron = zs b (view db) NCron) as Hz.
  { pose proof (run_frame now (key b NCron) p (view db)) as HF. rewrite HR in HF. cbn [fst] in HF. unfold zs.
    rewrite HF; [done|]. by apply (prog_ok_avoids b P). }
  unfold redis_cron_inv, redis_fire_time. rewrite Hz. done.
Qed.

Lemma redis_law_enqueue_cron i now j db :
  redis_cron_inv db →
  let db' := (Enqueue b i now j db).1.1 in
  redis_cron_inv db' ∧ ∀ id, redis_fire_time db' id = redis_fire_time db id.
Proof.
  intros HI. cbv zeta. destruct j as [j|]; [|done].
  destruct (String.eqb_spec (Queue j) "") as [Hq|Hq]; [unfold Enqueue; by rewrite Hq|].
  destruct (String.eqb_spec (Type_ j) "") as [Ht|Ht].
  { unfold Enqueue. by rewrite (proj2 (String.eqb_neq _ _) Hq), Ht. }
  destruct (redis_Enqueue i now j db Hq Ht) as (ukey & ttl & st & _ & ->). cbv zeta.
  match goal with |- context [Run now ?p db] =>
    pose proof (job_script_cron now _ p db (enqueue_ok b _ _ _ _ _ _ _ _ _) ltac:(by intros [[]|[[=] _]]) HI) as HC; destruct (Run now p db) as [db' [[|r0 rs]|]] end;
    [done|by destruct (bool_decide _)|done].
Qed.

Definition redis_scheduler_laws : SchedulerLaws DB (claws := redis_cron_laws) :=
  @Build_SchedulerLaws DB redis_broker redis_cron redis_cron_laws redis_law_enqueue_cron.
End instances.
