(* ===== verification/RedisOps.v ===== *)
(** * Executions of the Redis broker

    The calls that processes make on one server, in the order in which the server
    executes them, what each can reach, and what the sweeps do. *)
From S2P Require Import Prelude GoBase Job Backoff Interface BrokerAPI RedisServer RedisScripts Redis RedisKeys RedisTypes RedisInv RedisRun RedisScriptSpecs RedisBroker.

(** A call of a method of the broker. *)
Inductive rop :=
| REnqueue (NewID : string) (j : option Job)
| RDequeue (o : ClaimOpts)
| RAck (w id : string)
| RNack (w id : string) (retryAt : Z) (reason : string)
| RKill (w id reason : string)
| RExtend (w : string) (ids : list string) (vt : Z)
| RReap (queues : list string) (limit : Z)
| RPromote (limit : Z)
| RHeartbeat (w : WorkerInfo) (ttl : Z)
| RAcquireLease (name owner : string) (ttl : Z)
| RReleaseLease (name owner : string)
| RScheduleCron (id : string) (t : Z)
| RDueCron (limit : Z)
| RClaimCron (id : string) (firedAt nextAt : Z)
| RRemoveCron (id : string).

Section executions.
Context {DB : Type} `{RedisServer DB} (b : settings).

Definition rexec (now : Z) (o : rop) (db : DB) : DB :=
  match o with
  | REnqueue i j => (Enqueue b i now j db).1.1
  | RDequeue o => (Dequeue b o now db).1
  | RAck w id => (Ack b w id now db).1
  | RNack w id t r => (Nack b w id t r now db).1
  | RKill w id r => (Kill b w id r now db).1
  | RExtend w ids vt => (Extend b w ids vt now db).1
  | RReap qs limit => (Reap b qs limit now db).1
  | RPromote limit => (Promote b limit now db).1
  | RHeartbeat w ttl => (Heartbeat b w ttl now db).1
  | RAcquireLease name owner ttl => (AcquireLease b name owner ttl now db).1
  | RReleaseLease name owner => (ReleaseLease b name owner now db).1
  | RScheduleCron id t => (ScheduleCronIfAbsent b id t now db).1
  | RDueCron limit => (DueCron b limit now db).1
  | RClaimCron id f n => (ClaimCron b id f n now db).1
  | RRemoveCron id => (RemoveCron b id now db).1
  end.

(** A sequence of calls, each at its own instant. *)
Definition rrun (tr : list (Z * rop)) (db : DB) : DB := foldl (λ db e, rexec e.1 e.2 db) db tr.

Context `{!RedisLaws DB}.

(** The instants and durations are within range, and a job is enqueued under an identifier
    that has no live record. *)
Definition sane (now : Z) (o : rop) (db : DB) : Prop :=
  clock_ok now ∧
  match o with
  | REnqueue i (Some j) => live_job b now (view db) (assigned_id i j) = None ∧ assigned_id i j ≠ "" ∧ go_job j
  | RDequeue o => VisibilityTimeout o < 2 ^ 63
  | RExtend _ _ vt => vt < 2 ^ 63
  | _ => True
  end.

(** The states of a server that starts without keys of the broker's. *)
Inductive redis_reachable : DB → Prop :=
| rreach_start db : (∀ n, view db !! key b n = None) → redis_reachable db
| rreach_step now o db : redis_reachable db → sane now o db → redis_reachable (rexec now o db).

(** The keys an operation can reach. *)
Definition op_keys (o : rop) (n : kname) : Prop :=
  match o with
  | RHeartbeat w _ => n = NWorkers ∨ n = NWorker (wi_ID w)
  | RAcquireLease name _ _ | RReleaseLease name _ => n = NLease name
  | RScheduleCron _ _ | RDueCron _ | RClaimCron _ _ _ | RRemoveCron _ => n = NCron
  | RAck _ _ => ack_key n
  | REnqueue _ oj => work_key n ∨ ∃ j, oj = Some j ∧ UniqueKey j ≠ "" ∧ n = NUnique (UniqueKey j) ∧ 0 < unique_ms j
  | _ => work_key n
  end.

(** From one state to another, the types are kept and only keys in [P] change, and none
    that is not the broker's. *)
Definition reaches (P : kname → Prop) (db db' : DB) : Prop :=
  (ty_ok b (view db) → ty_ok b (view db')) ∧
  (∀ n, ¬ P n → view db' !! key b n = view db !! key b n) ∧
  ∀ k, (∀ n, k ≠ key b n) → view db' !! k = view db !! k.

(** ** Lemmas: what an operation can reach *)

Lemma reaches_refl P db : reaches P db db.
Proof. done. Qed.
Lemma reaches_trans P db1 db2 db3 : reaches P db1 db2 → reaches P db2 db3 → reaches P db1 db3.
Proof.
  intros (H1 & H2 & F2) (H3 & H4 & F4). split_and!; [auto| |]; intros n Hn; [by rewrite H4, H2|by rewrite F4, F2].
Qed.
Lemma reaches_Run {A} P now (p : prog A) db : prog_ok b P p → reaches P db (Run now p db).1.
Proof.
  intros Hp. pose proof (Run_view now p db) as HR. destruct (Run now p db) as [db' r]. cbn [fst]. split_and!.
  - intros Hty. pose proof (run_ty b now P p (view db) Hp Hty) as Hty'. by rewrite HR in Hty'.
  - intros n Hn. pose proof (run_frame now (key b n) p (view db)) as HF. rewrite HR in HF. apply HF.
    by eapply prog_ok_avoids.
  - intros k Hk. pose proof (run_frame now k p (view db)) as HF. rewrite HR in HF. apply HF.
    by eapply prog_ok_foreign.
Qed.
Lemma reaches_call P now c db : cmd_ok b P c → reaches P db (redis_call now c db).1.
Proof.
  intros Hc. pose proof (redis_documented now c db) as HR. destruct (redis_call now c db) as [db' r]. cbn [fst].
  unfold cmd_ok in Hc. split_and!.
  - intros Hty. replace (view db') with (documented now c (view db)).1 by (by rewrite HR).
    destruct (cmd_key c) as [k|] eqn:E; [|by destruct c]. destruct Hc as (n & -> & Hs & _). by eapply documented_ty.
  - intros n Hn. pose proof (documented_frame now c (view db) (key b n)) as HF. rewrite HR in HF. apply HF.
    intros E. rewrite E in Hc. destruct Hc as (n' & Hk & _ & HP). by apply key_inj in Hk as ->.
  - intros k Hk. pose proof (documented_frame now c (view db) k) as HF. rewrite HR in HF. apply HF.
    intros E. rewrite E in Hc. destruct Hc as (n' & Hn' & _). by apply Hk in Hn'.
Qed.

(** A method that runs one script, whose keys are known. *)
Local Ltac by_run Hok :=
  lazymatch goal with |- context [Run ?now ?p ?db] =>
    let HC := fresh in pose proof (reaches_Run _ now _ db Hok : reaches _ db (Run now p db).1) as HC;
    destruct (Run now p db) as [? ?]; cbn [fst] in HC; by repeat case_match
  end.

Lemma reap_queues_reaches queues limit now total db :
  reaches work_key db (reap_queues b queues limit now total db).1.
Proof.
  revert db total. induction queues as [|q queues IH]; intros db total; [apply reaches_refl|]. cbn [reap_queues].
  assert (reaches work_key db (ReapDetail b q limit now db).1) as HR.
  { unfold ReapDetail. destruct (bool_decide _); [apply reaches_refl|]. by_run (reap_ok b q limit). }
  destruct (ReapDetail b q limit now db) as [db' [[r d]|err]]; [|done].
  eapply reaches_trans; [exact HR|apply IH].
Qed.

Lemma due_cron_reaches limit now db : reaches (.= NCron) db (DueCron b limit now db).1.
Proof.
  unfold DueCron. destruct (bool_decide _); [apply reaches_refl|].
  pose proof (reaches_call (.= NCron) now TIME db I) as H1. destruct (redis_call now TIME db) as [db1 r1].
  destruct (server_time r1) as [t|]; [|done].
  assert (cmd_ok b (.= NCron) (ZRANGEBYSCORE_WITHSCORES (kCron b) (UnixMilli t) limit)) as Hc by (by exists NCron).
  pose proof (reaches_call _ now _ db1 Hc) as HC. destruct (redis_call now _ db1) as [db' r].
  eapply reaches_trans; [exact H1|]. by destruct r.
Qed.

Lemma rexec_reaches now o db : reaches (op_keys o) db (rexec now o db).
Proof.
  destruct o; cbn [rexec op_keys].
  - destruct j as [j|]; [|apply reaches_refl].
    destruct (String.eqb_spec (Queue j) "") as [Hq|Hq]; [unfold Enqueue; rewrite Hq; apply reaches_refl|].
    destruct (String.eqb_spec (Type_ j) "") as [Ht|Ht].
    { unfold Enqueue. rewrite (proj2 (String.eqb_neq _ _) Hq), Ht. apply reaches_refl. }
    destruct (redis_Enqueue b NewID now j db Hq Ht) as (ukey & ttl & st & Hkey & ->). cbv zeta.
    assert (∀ n, enqueue_key ukey ttl n → op_keys (REnqueue NewID (Some j)) n) as Hmono.
    { intros n [Hw|[-> Hpos]]; [by left|]. right. exists j. destruct (String.eqb_spec (UniqueKey j) ""); [lia|].
      by destruct Hkey as [-> <-]. }
    match goal with |- context [Run now ?p db] =>
      pose proof (reaches_Run _ now p db (prog_ok_mono b _ _ _ Hmono (enqueue_ok b _ _ _ _ _ _ _ _ _))) as HC;
      destruct (Run now p db) as [db' [[|r0 rs]|]] end; [done|by destruct (bool_decide _)|done].
  - unfold Dequeue. destruct (String.eqb _ _); [apply reaches_refl|].
    do 2 (destruct (bool_decide _); [apply reaches_refl|]).
    by_run (dequeue_ok b (Queues o) (WorkerID o) (Milliseconds (VisibilityTimeout o))).
  - unfold Ack, report_to. by_run (ack_ok b id w (Milliseconds (completedTTL b))).
  - unfold Nack, report_to. by_run (nack_ok b id w (msFromTime retryAt) reason).
  - unfold Kill, report_to. by_run (kill_ok b id w reason).
  - unfold Extend. do 2 (destruct (bool_decide _); [apply reaches_refl|]).
    by_run (extend_ok b w (Milliseconds vt) ids).
  - unfold Reap. destruct (bool_decide _); [apply reaches_refl|apply reap_queues_reaches].
  - unfold Promote. destruct (bool_decide _); [apply reaches_refl|]. by_run (promote_ok b limit).
  - unfold Heartbeat. destruct (String.eqb _ _); [apply reaches_refl|]. destruct (bool_decide _); [apply reaches_refl|].
    by_run (heartbeat_ok b (wi_ID w) (Milliseconds ttl) (wi_Host w) (pretty (wi_PID w)) (String.concat "," (wi_Queues w))
      (pretty (wi_Concurrency w)) (pretty (wi_InFlight w)) (msFromTime (wi_StartedAt w))).
  - unfold AcquireLease. destruct (_ || _); [apply reaches_refl|]. destruct (bool_decide _); [apply reaches_refl|].
    by_run (acquire_ok b name owner (Milliseconds ttl)).
  - unfold ReleaseLease. destruct (_ || _); [apply reaches_refl|]. by_run (release_ok b name owner).
  - unfold ScheduleCronIfAbsent. destruct (String.eqb _ _); [apply reaches_refl|].
    assert (cmd_ok b (.= NCron) (ZADDNX (kCron b) (UnixMilli t) id)) as Hc by (by exists NCron).
    pose proof (reaches_call _ now _ db Hc) as HC. destruct (redis_call now _ db) as [db' r]. by destruct r.
  - apply due_cron_reaches.
  - unfold ClaimCron. destruct (String.eqb _ _); [apply reaches_refl|].
    by_run (claim_ok b id (UnixMilli firedAt) (UnixMilli nextAt)).
  - unfold RemoveCron. assert (cmd_ok b (.= NCron) (ZREM (kCron b) id)) as Hc by (by exists NCron).
    pose proof (reaches_call _ now _ db Hc) as HC. destruct (redis_call now _ db) as [db' r]. by destruct r.
Qed.

(** ** Lemmas: the invariant *)

Lemma rinv_frame ks ks' :
  rinv b ks → ty_ok b ks' → (∀ n, job_key n → ks' !! key b n = ks !! key b n) →
  rinv b ks' ∧ ∀ id, jobj b ks' id = jobj b ks id.
Proof.
  intros HI Hty Hk.
  assert (∀ id, jobv b ks' id = jobv b ks id) as Hj by (intros id; unfold jobv; by rewrite Hk).
  assert (∀ q, rl b ks' q = rl b ks q) as Hr by (intros q; unfold rl; by rewrite Hk).
  assert (∀ n, core_z n → zs b ks' n = zs b ks n) as Hz by (intros n Hn; unfold zs; rewrite Hk; [done|by destruct n]).
  split; [|intros id; by apply jobj_same]. constructor; [done| |].
  - intros id. apply (at_ok_same b ks); [|by apply HI]. split_and!; [done|intros q; by rewrite Hr|].
    intros n Hn. by rewrite Hz.
  - intros q. rewrite Hr. apply HI.
Qed.

Lemma reaches_inv P db db' :
  (∀ n, job_key n → ¬ P n) → reaches P db db' → redis_inv b db →
  redis_inv b db' ∧ ∀ id, redis_job b db' id = redis_job b db id.
Proof.
  intros HP (Hty & Hk & _) HI. apply rinv_frame; [done|apply Hty, HI|]. intros n Hn. by apply Hk, HP.
Qed.

Lemma empty_inv db : (∀ n, view db !! key b n = None) → redis_inv b db ∧ ∀ id, redis_job b db id = None.
Proof.
  intros He. assert (∀ id, jobv b (view db) id = None) as Hj by (intros id; unfold jobv; by rewrite He).
  split; [|intros id; unfold redis_job, jobj; by rewrite Hj]. constructor.
  - intros n v. by rewrite He.
  - intros id. unfold at_ok. rewrite Hj. apply spot_none. split.
    + intros q. unfold rl. rewrite He. apply not_elem_of_nil.
    + intros n Hn. unfold zs. rewrite He. apply lookup_empty.
  - intros q. unfold rl. rewrite He. by apply NoDup_nil.
Qed.

(** ** Lemmas: sweeps *)

Lemma ReapDetail_spec q limit now db :
  redis_inv b db → 0 < limit →
  let ids := taken b now (NActive q) (view db) limit in
  let dead := Z.of_nat (length (filter (λ id, spent b (view db) id = true) ids)) in
  let '(db', r) := ReapDetail b q limit now db in
  r = Ok (Z.of_nat (length ids) - dead, dead) ∧ redis_inv b db' ∧
  ∀ id, redis_job b db' id = if decide (id ∈ ids) then swept <$> redis_job b db id else redis_job b db id.
Proof.
  intros HI Hl. cbv zeta. unfold ReapDetail. rewrite bool_decide_eq_false_2 by lia.
  destruct (run_reap b now (view db) q limit HI) as (ks' & HR & HI' & Hj').
  destruct (Run_doc _ _ _ _ _ HR) as (db' & HD & Hv). cbn [key] in HD. rewrite HD. cbn [toInt64]. unfold redis_inv, redis_job. by rewrite Hv.
Qed.

(** What one sweep of a queue can do to a job. *)
Lemma reap_step_job q limit now db id :
  redis_inv b db → 0 < limit →
  redis_job b (ReapDetail b q limit now db).1 id = redis_job b db id ∨
  ∃ j, redis_job b db id = Some j ∧ State_ j = StateActive ∧ Queue j = q ∧
       redis_job b (ReapDetail b q limit now db).1 id = Some (swept j).
Proof.
  intros HI Hl. pose proof (ReapDetail_spec q limit now db HI Hl) as HR. cbv zeta in HR.
  destruct (ReapDetail b q limit now db) as [db' r]. destruct HR as (_ & _ & Hj). cbn [fst]. rewrite Hj.
  case_decide as Hin; [right|by left]. apply taken_belongs in Hin as (j & Hj0 & Hs & HQ); [|done|done].
  unfold redis_job. rewrite Hj0. by exists j.
Qed.

Lemma swept_not_active j : State_ (swept j) ≠ StateActive.
Proof. unfold swept. by destruct (Exhausted j). Qed.

Lemma reap_queues_spec queues limit now total db :
  redis_inv b db → 0 < limit →
  let '(db', r) := reap_queues b queues limit now total db in
  redis_inv b db' ∧ (∃ n, r = Ok n) ∧
  ∀ id, redis_job b db' id = redis_job b db id ∨
        ∃ j, redis_job b db id = Some j ∧ State_ j = StateActive ∧ Queue j ∈ queues ∧ redis_job b db' id = Some (swept j).
Proof.
  revert db total. induction queues as [|q queues IH]; intros db total HI Hl.
  { cbn. split_and!; [done|by eexists|by left]. }
  cbn [reap_queues]. pose proof (ReapDetail_spec q limit now db HI Hl) as HR. cbv zeta in HR.
  pose proof (λ id, reap_step_job q limit now db id HI Hl) as Hstep.
  destruct (ReapDetail b q limit now db) as [db1 r1]. destruct HR as (-> & HI1 & _). cbn [fst] in Hstep.
  match goal with |- context [reap_queues b queues limit now ?t db1] => specialize (IH db1 t HI1 Hl); destruct (reap_queues b queues limit now t db1) as [db' r] end.
  destruct IH as (HI' & Hok & Hj'). split_and!; try done. intros id.
  destruct (Hstep id) as [H1|(j & Hj & Hs & HQ & H1)].
  - destruct (Hj' id) as [H2|(j & Hj & Hs & HQ & H2)]; [left; congruence|]. right. exists j. rewrite <- H1.
    split_and!; try done. by right.
  - right. exists j. split_and!; try done; [by rewrite HQ; left|]. destruct (Hj' id) as [H2|(j' & Hj2 & Hs' & _)]; [congruence|].
    exfalso. rewrite H1 in Hj2. injection Hj2 as <-. by apply swept_not_active in Hs'.
Qed.

Lemma Promote_spec limit now db :
  redis_inv b db → 0 < limit →
  let ids1 := taken b now NDelayed (view db) limit in
  let ids2 := taken b now NRetry (view db) (limit - Z.of_nat (length ids1)) in
  let '(db', r) := Promote b limit now db in
  r = Ok (Z.of_nat (length (ids1 ++ ids2))) ∧ redis_inv b db' ∧
  ∀ id, redis_job b db' id = if decide (id ∈ ids1 ++ ids2) then ready_again <$> redis_job b db id else redis_job b db id.
Proof.
  intros HI Hl. cbv zeta. unfold Promote. rewrite bool_decide_eq_false_2 by lia.
  destruct (run_promote b now (view db) limit HI Hl) as (ks' & HR & HI' & Hj').
  destruct (Run_doc _ _ _ _ _ HR) as (db' & HD & Hv). cbn [key] in HD. rewrite HD. unfold redis_inv, redis_job. by rewrite Hv.
Qed.

(** Every operation keeps the invariant. *)
Lemma rexec_inv now o db : redis_inv b db → sane now o db → redis_inv b (rexec now o db).
Proof.
  intros HI [Hn Hs]. pose proof (rexec_reaches now o db) as HR.
  destruct o; cbn [rexec op_keys] in *;
    try (by eapply reaches_inv; [|exact HR|exact HI]; intros [] Hk ?; naive_solver).
  - destruct j as [j|]; [|done]. destruct Hs as (Hl & Hid & Hgo).
    pose proof (redis_Enqueue_spec b NewID now j db HI Hl Hid Hgo Hn) as HE.
    destruct (Enqueue b NewID now (Some j) db) as [[db' j'] [err|]]; cbn [fst]; [by rewrite HE|apply HE].
  - pose proof (redis_law_dequeue b o now db HI Hn Hs) as HL. destruct (Dequeue b o now db) as [db' [j|err]]; cbn [fst]; [apply HL|by rewrite HL].
  - pose proof (redis_law_ack b w id now db HI) as HL. destruct (Ack b w id now db) as [db' [err|]]; cbn [fst]; [by destruct HL as [_ ->]|apply HL].
  - pose proof (redis_law_nack b w id retryAt reason now db HI) as HL.
    destruct (Nack b w id retryAt reason now db) as [db' [err|]]; cbn [fst]; [by destruct HL as [_ ->]|apply HL].
  - pose proof (redis_law_kill b w id reason now db HI) as HL.
    destruct (Kill b w id reason now db) as [db' [err|]]; cbn [fst]; [by destruct HL as [_ ->]|apply HL].
  - destruct (decide (vt ≤ 0)) as [Hle|Hgt]; [unfold Extend; by rewrite bool_decide_eq_true_2|].
    pose proof (redis_law_extend b w ids vt now db HI ltac:(lia) Hn) as HL.
    destruct (Extend b w ids vt now db) as [db' r]. by destruct HL as (? & _ & ? & _).
  - unfold Reap. destruct (decide (limit ≤ 0)) as [Hle|Hgt]; [by rewrite bool_decide_eq_true_2|].
    rewrite bool_decide_eq_false_2 by done. pose proof (reap_queues_spec queues limit now 0 db HI ltac:(lia)) as HL.
    destruct (reap_queues b queues limit now 0 db) as [db' r]. apply HL.
  - destruct (decide (limit ≤ 0)) as [Hle|Hgt]; [unfold Promote; by rewrite bool_decide_eq_true_2|].
    pose proof (Promote_spec limit now db HI ltac:(lia)) as HL. cbv zeta in HL.
    destruct (Promote b limit now db) as [db' r]. apply HL.
Qed.

Lemma reachable_inv db : redis_reachable db → redis_inv b db.
Proof. induction 1; [by apply empty_inv|by apply rexec_inv]. Qed.
End executions.
