(* ===== verification/RedisProps.v ===== *)
(** * Properties of the Redis broker

    On any Redis server that behaves as documented: where jobs are, who may report on
    them, what the sweeps do, what a lease of the scheduler excludes, and that what is
    enqueued is what is claimed. The concrete executions run on a server that is its
    documentation. *)
From S2P Require Import Prelude GoBase Job Backoff Interface BrokerAPI RedisServer RedisScripts Redis RedisKeys RedisTypes RedisInv RedisRun RedisScriptSpecs RedisBroker RedisOps.

(** ** Definitions *)

Section definitions.
Context {DB : Type} `{RedisLaws DB} (b : settings).

(** Every call of a sequence is within range at its turn. *)
Fixpoint sane_run (tr : list (Z * rop)) (db : DB) : Prop :=
  match tr with
  | [] => True
  | (now, o) :: tr => sane b now o db ∧ sane_run tr (rexec b now o db)
  end.

(** The call is a claim by the worker. *)
Definition claims_as (w : string) (o : rop) : bool :=
  match o with RDequeue o => String.eqb (WorkerID o) w | _ => false end.

(** The call takes or gives back the named lease for its owner. *)
Definition leases_as (name owner : string) (o : rop) : bool :=
  match o with
  | RAcquireLease n o _ | RReleaseLease n o => String.eqb n name && String.eqb o owner
  | _ => false
  end.

(** The call acknowledges the job. *)
Definition acks (id : string) (o : rop) : bool := match o with RAck _ i => String.eqb i id | _ => false end.

(** What one operation may do to a job that is stored: leave it, move it one step along the
    lifecycle graph with its task and its budget, counting the attempt of a claim, or, on the
    report of the holder of its lease, complete it and drop it. *)
Definition job_next (o : rop) (id : string) (j : Job) (oj' : option Job) : Prop :=
  match oj' with
  | None => o = RAck (Owner j) id ∧ State_ j = StateActive
  | Some j' =>
      same_task j j' ∧ MaxAttempts j' = MaxAttempts j ∧
      (State_ j' = State_ j ∨ CanTransition (State_ j) (State_ j') = true) ∧
      Attempt j' = Attempt j + (if bool_decide (State_ j = StatePending ∧ State_ j' = StateActive) then 1 else 0) ∧
      (State_ j' = StateCompleted → o = RAck (Owner j) id ∧ State_ j = StateActive)
  end.

(** The named lease is its owner's until a millisecond. *)
Definition leased (db : DB) (name owner : string) (until : Z) : Prop :=
  view db !! key b (NLease name) = Some (RStr owner, Some until).
End definitions.

(** A server that is its documentation. *)
#[export] Instance demo_server : RedisServer keyspace := documented.
Lemma demo_documented now c (ks : keyspace) :
  let '(ks', r) := redis_call now c ks in documented now c ks = (ks', r).
Proof. unfold redis_call, demo_server. by destruct (documented now c ks). Qed.
#[export] Instance demo_laws : RedisLaws keyspace := {|
  view := λ ks, ks;
  view_inj := λ _ _ E, E;
  redis_documented := demo_documented
|}.

Definition demo_settings : settings := mkSettings DefaultPrefix DefaultCompletedTTL.
Definition demo_task : Job := set_MaxAttempts 3 (set_Queue "mail" (mkJob "" "" "email:send" None 0 0 0 "" "" "" 0 "" zeroTime zeroTime zeroTime zeroTime)).
Definition demo_opts (w : string) : ClaimOpts := mkClaimOpts w ["mail"] (10 * Second).

(** ** Lemmas *)

Section lemmas.
Context {DB : Type} `{RedisLaws DB} (b : settings).

Lemma sane_run_inv tr db : redis_inv b db → sane_run b tr db → redis_inv b (rrun b tr db).
Proof.
  revert db. induction tr as [|[now o] tr IH]; intros db HI; [done|]. intros [Hs Htr]. apply IH; [|done].
  by apply rexec_inv.
Qed.

(** What a renewal can make of a job. *)
Lemma extend_job w ids vt now (db : DB) id :
  redis_inv b db → clock_ok now → vt < 2 ^ 63 →
  redis_job b (Extend b w ids vt now db).1 id = redis_job b db id ∨
  holds (redis_job b) db w id ∧ id ∈ ids ∧
  ∃ j d, redis_job b db id = Some j ∧ redis_job b (Extend b w ids vt now db).1 id = Some (set_Deadline d j).
Proof.
  intros HI Hn Hvt. destruct (decide (vt ≤ 0)) as [Hle|Hgt]; [left; unfold Extend; by rewrite bool_decide_eq_true_2|].
  pose proof (redis_law_extend b w ids vt now db HI ltac:(lia) Hn) as HL.
  destruct (Extend b w ids vt now db) as [db' r]. destruct HL as (lost & _ & _ & _ & Hx). cbn [fst].
  destruct (Hx id) as [H1 H2]. destruct (decide (held b (view db) w id = true ∧ id ∈ ids)) as [[Hh Hin]|Hno].
  - right. apply held_spec in Hh. split_and!; [done|done|]. rewrite H1 by done. destruct Hh as (j & Hj & _). exists j.
    unfold redis_job. rewrite Hj. by eexists.
  - left. apply H2. destruct (decide (id ∈ ids)) as [Hin|]; [left|by right]. intros Hh%held_spec. by apply Hno.
Qed.

(** What the sweeps can make of a job. *)
Lemma reap_job queues limit now (db : DB) id :
  redis_inv b db →
  redis_job b (Reap b queues limit now db).1 id = redis_job b db id ∨
  ∃ j, redis_job b db id = Some j ∧ State_ j = StateActive ∧ redis_job b (Reap b queues limit now db).1 id = Some (swept j).
Proof.
  intros HI. unfold Reap. case_bool_decide; [by left|].
  pose proof (reap_queues_spec b queues limit now 0 db HI ltac:(lia)) as HL.
  destruct (reap_queues b queues limit now 0 db) as [db' r]. destruct HL as (_ & _ & HL). cbn [fst].
  destruct (HL id) as [E|(j & ? & ? & _ & E)]; [by left|right; by exists j].
Qed.
Lemma promote_job limit now (db : DB) id :
  redis_inv b db →
  redis_job b (Promote b limit now db).1 id = redis_job b db id ∨
  ∃ j, redis_job b db id = Some j ∧ (State_ j = StateScheduled ∨ State_ j = StateRetry) ∧
    redis_job b (Promote b limit now db).1 id = Some (ready_again j).
Proof.
  intros HI. destruct (decide (limit ≤ 0)) as [Hle|Hgt]; [left; unfold Promote; by rewrite bool_decide_eq_true_2|].
  pose proof (Promote_spec b limit now db HI ltac:(lia)) as HL. cbv zeta in HL.
  destruct (Promote b limit now db) as [db' r]. destruct HL as (_ & _ & HL). cbn [fst]. rewrite HL.
  case_decide as Hin; [right|by left].
  assert (∃ j, redis_job b db id = Some j ∧ (State_ j = StateScheduled ∨ State_ j = StateRetry)) as (j & Hj & Hs).
  { apply elem_of_app in Hin as [Hin|Hin]; apply taken_belongs in Hin as (j & Hj & Hb); try done; exists j; auto. }
  exists j. by rewrite Hj.
Qed.

(** Who is in the active set of a queue. *)
Lemma active_member (db : DB) q id d :
  redis_inv b db →
  zs b (view db) (NActive q) !! id = Some d ↔
  ∃ j, redis_job b db id = Some j ∧ State_ j = StateActive ∧ Queue j = q ∧ msFromTime (Deadline j) = d.
Proof.
  intros HI. unfold redis_job. destruct (rinv_cases b (view db) id HI) as [(_ & -> & Hsp)|(h & e & j & _ & -> & _ & _ & _ & Hsp)].
  - apply spot_none in Hsp as [_ H2]. rewrite H2 by done. split; [done|by intros (? & [=] & _)].
  - apply spot_some in Hsp as (_ & H2 & _). rewrite H2. split; [intros (? & ? & ?); by exists j|].
    intros (? & [= <-] & ? & ? & ?). by split_and!.
Qed.

(** The call is a renewal of the worker's that names the job. *)
Definition renews (w id : string) (o : rop) : Prop := ∃ ids vt, o = RExtend w ids vt ∧ id ∈ ids.

(** The call is a claim by the worker that is given the job. *)
Definition claims_job (w id : string) (now : Z) (o : rop) (db : DB) : Prop :=
  ∃ c j, o = RDequeue c ∧ WorkerID c = w ∧ (Dequeue b c now db).2 = Ok j ∧ ID j = id.

(** A lease is taken by a claim of the worker that is given the job, and by nothing else; while
    it is held, only a renewal changes the job. *)
Lemma rexec_held now o (db : DB) w id :
  redis_inv b db → sane b now o db → ¬ claims_job w id now o db → holds (redis_job b) (rexec b now o db) w id →
  holds (redis_job b) db w id ∧ (redis_job b (rexec b now o db) id = redis_job b db id ∨ renews w id o).
Proof.
  intros HI [Hn Hs] Hc (j & Hj & Ha & Ho). pose proof (rexec_reaches b now o db) as HR.
  assert (redis_job b (rexec b now o db) id = redis_job b db id →
    holds (redis_job b) db w id ∧ (redis_job b (rexec b now o db) id = redis_job b db id ∨ renews w id o)) as Hsame.
  { intros E. split; [|by left]. exists j. by rewrite <- E. }
  destruct o; cbn [rexec op_keys] in *;
    try (apply Hsame; eapply reaches_inv; [|exact HR|exact HI]; intros [] Hk ?; naive_solver).
  - destruct j0 as [j0|]; [|by apply Hsame]. destruct Hs as (Hl & Hid & Hgo).
    pose proof (redis_Enqueue_spec b NewID now j0 db HI Hl Hid Hgo Hn) as HE.
    destruct (Enqueue b NewID now (Some j0) db) as [[db' j'] [err|]]; cbn [fst] in *; [apply Hsame; by rewrite HE|].
    destruct HE as (_ & _ & _ & _ & Hj' & Ho'). destruct (decide (id = assigned_id NewID j0)) as [->|Hne]; [|by apply Hsame, Ho'].
    rewrite Hj' in Hj. injection Hj as <-. cbn [State_ stored_as] in Ha. by case_bool_decide.
  - pose proof (redis_law_dequeue b o now db HI Hn Hs) as HL. destruct (Dequeue b o now db) as [db' [j'|err]] eqn:HD; cbn [fst] in *;
      [|apply Hsame; by rewrite HL]. destruct HL as (_ & Hj' & _ & Hw & _ & Ho').
    destruct (decide (id = ID j')) as [->|Hne]; [|by apply Hsame, Ho']. rewrite Hj' in Hj. injection Hj as ->.
    exfalso. apply Hc. exists o, j. rewrite HD. by rewrite <- Hw.
  - pose proof (redis_law_ack b w0 id0 now db HI) as HL. destruct (Ack b w0 id0 now db) as [db' [err|]]; cbn [fst] in *;
      [apply Hsame; by destruct HL as [_ ->]|]. destruct HL as (_ & _ & Hj' & Ho').
    destruct (decide (id = id0)) as [->|Hne]; [|by apply Hsame, Ho']. apply Hj' in Hj. by rewrite Ha in Hj.
  - pose proof (redis_law_nack b w0 id0 retryAt reason now db HI) as HL.
    destruct (Nack b w0 id0 retryAt reason now db) as [db' [err|]]; cbn [fst] in *; [apply Hsame; by destruct HL as [_ ->]|].
    destruct HL as (_ & _ & (j1 & j2 & _ & Hj2 & _ & _ & _ & _ & _ & Hst) & Ho').
    destruct (decide (id = id0)) as [->|Hne]; [|by apply Hsame, Ho']. rewrite Hj2 in Hj. injection Hj as ->.
    rewrite Ha in Hst. by destruct (Exhausted j1).
  - pose proof (redis_law_kill b w0 id0 reason now db HI) as HL.
    destruct (Kill b w0 id0 reason now db) as [db' [err|]]; cbn [fst] in *; [apply Hsame; by destruct HL as [_ ->]|].
    destruct HL as (_ & _ & (j1 & j2 & _ & Hj2 & _ & _ & _ & _ & _ & Hst) & Ho').
    destruct (decide (id = id0)) as [->|Hne]; [|by apply Hsame, Ho']. rewrite Hj2 in Hj. injection Hj as ->. by rewrite Ha in Hst.
  - destruct (extend_job w0 ids vt now db id HI Hn Hs) as [E|(Hh & Hin & j1 & d & E0 & E)]; [by apply Hsame|].
    rewrite E in Hj. injection Hj as <-. destruct Hh as (j2 & Hj2 & _ & Hw2). assert (w0 = w) as -> by (cbn in Ho; congruence).
    split; [by exists j1|right]. by exists ids, vt.
  - destruct (reap_job queues limit now db id HI) as [E|(j1 & _ & _ & E)]; [by apply Hsame|].
    rewrite E in Hj. injection Hj as <-. by apply swept_not_active in Ha.
  - destruct (promote_job limit now db id HI) as [E|(j1 & _ & _ & E)]; [by apply Hsame|]. rewrite E in Hj. by injection Hj as <-.
Qed.

Lemma claims_as_job w id now o (db : DB) : claims_as w o = false → ¬ claims_job w id now o db.
Proof. intros Hc (c & j & -> & Hw & _). cbn in Hc. apply String.eqb_neq in Hc. done. Qed.

Lemma rrun_holds tr (db : DB) w id :
  redis_inv b db → sane_run b tr db → Forall (λ e, claims_as w e.2 = false) tr →
  ¬ holds (redis_job b) db w id → ¬ holds (redis_job b) (rrun b tr db) w id.
Proof.
  revert db. induction tr as [|[now o] tr IH]; intros db HI; [done|]. intros [Hs Htr] [Hc Hall]%Forall_cons Hno.
  apply IH; [by apply rexec_inv|done|done|]. intros Hh. apply Hno. by eapply rexec_held; [| |apply claims_as_job|exact Hh].
Qed.

(** A report by a worker without the lease changes nothing and says so. *)
Lemma fenced_reports (db : DB) w id now :
  redis_inv b db → ¬ holds (redis_job b) db w id →
  ∃ err, (Is err ErrLeaseLost || Is err ErrJobNotFound) = true ∧
    Ack b w id now db = (db, Some err) ∧
    (∀ t r, Nack b w id t r now db = (db, Some err)) ∧
    (∀ r, Kill b w id r now db = (db, Some err)).
Proof.
  intros HI Hno. destruct (run_fence b now (view db) id w HI) as [(h & j & _ & Hj & _ & _ & Hs & Hw & _)|(_ & r & Hr & Hf)].
  { exfalso. apply Hno. by exists j. }
  destruct (refused_error r id w Hr) as (res & -> & err & Herr & His). exists err. split; [done|].
  unfold Ack, Nack, Kill, report_to, ack_lua, nack_lua, kill_lua. change (kJob b id) with (key b (NJob id)).
  split_and!; intros;
    match goal with |- context [fence_lua _ _ ?k] => destruct (Run_doc _ _ _ _ _ (Hf k)) as (db1 & -> & Hv) end;
    apply (inj view) in Hv as ->; by rewrite Herr.
Qed.

(** ** Lemmas: the lifecycle *)

Lemma job_next_refl o id j : State_ j ≠ StateCompleted → job_next o id j (Some j).
Proof.
  intros Hc. unfold job_next. split_and!; try done; [by left|]. rewrite bool_decide_eq_false_2; [lia|].
  intros [E1 E2]. by rewrite E1 in E2.
Qed.

(** From the states a job can leave, by anything but a claim. *)
Lemma job_next_move o id j j' :
  same_task j j' → MaxAttempts j' = MaxAttempts j → Attempt j' = Attempt j →
  CanTransition (State_ j) (State_ j') = true → State_ j' ≠ StateActive → State_ j' ≠ StateCompleted →
  job_next o id j (Some j').
Proof.
  intros. unfold job_next. split_and!; try done; [by right|]. rewrite bool_decide_eq_false_2; [lia|]. by intros [].
Qed.

(** A job that is not completed does not expire. *)
Lemma stored_live now (db : DB) id j :
  redis_inv b db → redis_job b db id = Some j → State_ j ≠ StateCompleted → live_job b now (view db) id ≠ None.
Proof.
  unfold redis_job. intros HI Hj Hc. destruct (rinv_cases b (view db) id HI) as [(_ & E & _)|(h & e & j1 & Hv & E & _ & _ & He & _)]; [congruence|].
  assert (j1 = j) as -> by congruence. by destruct (live_job_open b now (view db) id h e j Hv He Hc) as [_ ->].
Qed.

Lemma rexec_next now o (db : DB) id j :
  redis_inv b db → sane b now o db → redis_job b db id = Some j → State_ j ≠ StateCompleted →
  job_next o id j (redis_job b (rexec b now o db) id).
Proof.
  intros HI [Hn Hs] Hj Hc. pose proof (rexec_reaches b now o db) as HR.
  assert (redis_job b (rexec b now o db) id = redis_job b db id → job_next o id j (redis_job b (rexec b now o db) id)) as Hsame.
  { intros ->. rewrite Hj. by apply job_next_refl. }
  destruct o; cbn [rexec op_keys] in *;
    try (apply Hsame; eapply reaches_inv; [|exact HR|exact HI]; intros [] Hk ?; naive_solver).
  - destruct j0 as [j0|]; [|by apply Hsame]. destruct Hs as (Hl & Hid & Hgo).
    pose proof (redis_Enqueue_spec b NewID now j0 db HI Hl Hid Hgo Hn) as HE.
    destruct (Enqueue b NewID now (Some j0) db) as [[db' j'] [err|]]; cbn [fst] in *; [apply Hsame; by rewrite HE|].
    apply Hsame, HE. intros ->. by apply (stored_live now db _ j HI Hj Hc).
  - pose proof (redis_Dequeue_spec b o now db HI Hn Hs) as HL. destruct (Dequeue b o now db) as [db' [jc|err]]; cbn [fst] in *;
      [|apply Hsame; by rewrite HL]. destruct HL as (j0 & Hj0 & Hp & -> & _ & Hj' & Ho').
    destruct (decide (id = ID j0)) as [->|Hne]; [|by apply Hsame, Ho']. assert (j0 = j) as -> by congruence. rewrite Hj'.
    unfold job_next. rewrite Hp. split_and!; first [done|by right|by rewrite bool_decide_eq_true_2].
  - pose proof (redis_Ack_spec b w id0 now db HI) as HL. destruct (Ack b w id0 now db) as [db' [err|]]; cbn [fst] in *;
      [apply Hsame; by destruct HL as [_ ->]|]. destruct HL as ((j0 & Hj0 & Ha & Ho) & _ & Hj' & Ho').
    destruct (decide (id = id0)) as [<-|Hne]; [|by apply Hsame, Ho']. assert (j0 = j) as -> by congruence. rewrite Hj', Hj, <- Ho.
    case_bool_decide; cbn [fmap option_fmap option_map]; [|done]. unfold job_next. rewrite Ha.
    split_and!; first [done|by right|rewrite bool_decide_eq_false_2 by (by intros []); cbn; lia].
  - pose proof (redis_law_nack b w id0 retryAt reason now db HI) as HL.
    destruct (Nack b w id0 retryAt reason now db) as [db' [err|]]; cbn [fst] in *; [apply Hsame; by destruct HL as [_ ->]|].
    destruct HL as ((j0 & Hj0 & Ha & _) & _ & (j1 & j2 & Hj1 & Hj2 & ? & ? & ? & _ & _ & Hst) & Ho').
    destruct (decide (id = id0)) as [<-|Hne]; [|by apply Hsame, Ho']. rewrite Hj2. assert (j1 = j) as -> by congruence.
    assert (j0 = j) as -> by congruence. apply job_next_move; try done; rewrite Hst, ?Ha; by destruct (Exhausted j).
  - pose proof (redis_law_kill b w id0 reason now db HI) as HL.
    destruct (Kill b w id0 reason now db) as [db' [err|]]; cbn [fst] in *; [apply Hsame; by destruct HL as [_ ->]|].
    destruct HL as ((j0 & Hj0 & Ha & _) & _ & (j1 & j2 & Hj1 & Hj2 & ? & ? & ? & _ & _ & Hst) & Ho').
    destruct (decide (id = id0)) as [<-|Hne]; [|by apply Hsame, Ho']. rewrite Hj2. assert (j1 = j) as -> by congruence.
    assert (j0 = j) as -> by congruence. apply job_next_move; try done; by rewrite Hst, ?Ha.
  - destruct (extend_job w ids vt now db id HI Hn Hs) as [E|(_ & _ & j0 & d & E0 & E)]; [by apply Hsame|].
    assert (j0 = j) as -> by congruence. rewrite E. exact (job_next_refl (RExtend w ids vt) id j Hc).
  - destruct (reap_job queues limit now db id HI) as [E|(j1 & E0 & Ha & E)]; [by apply Hsame|].
    assert (j1 = j) as -> by congruence. rewrite E. apply job_next_move; rewrite ?Ha; unfold swept; by destruct (Exhausted j).
  - destruct (promote_job limit now db id HI) as [E|(j1 & E0 & Ha & E)]; [by apply Hsame|].
    assert (j1 = j) as -> by congruence. rewrite E. apply job_next_move; try done. by destruct Ha as [-> | ->].
Qed.

(** Jobs come into being by being enqueued, and in no other way. *)
Lemma rexec_born now o (db : DB) id j' :
  redis_inv b db → sane b now o db → redis_job b (rexec b now o db) id = Some j' → redis_job b db id = None →
  ∃ i j, o = REnqueue i (Some j) ∧ id = assigned_id i j.
Proof.
  intros HI [Hn Hs] Hj' Hno. pose proof (rexec_reaches b now o db) as HR.
  assert (redis_job b (rexec b now o db) id = redis_job b db id → False) as Hsame by congruence.
  destruct o; cbn [rexec op_keys] in *;
    try (destruct Hsame; eapply reaches_inv; [|exact HR|exact HI]; intros [] Hk ?; naive_solver).
  - destruct j as [j|]; [|by destruct Hsame]. destruct Hs as (Hl & Hid & Hgo). exists NewID, j. split; [done|].
    pose proof (redis_Enqueue_spec b NewID now j db HI Hl Hid Hgo Hn) as HE.
    destruct (Enqueue b NewID now (Some j) db) as [[db' j0] [err|]]; cbn [fst] in *; [destruct Hsame; by rewrite HE|].
    destruct (decide (id = assigned_id NewID j)) as [|Hne]; [done|]. destruct Hsame. by apply HE.
  - pose proof (redis_law_dequeue b o now db HI Hn Hs) as HL. destruct (Dequeue b o now db) as [db' [j|err]]; cbn [fst] in *;
      [|destruct Hsame; by rewrite HL]. destruct HL as (_ & _ & _ & _ & (j0 & Hj0 & _) & Ho').
    destruct (decide (id = ID j)) as [->|Hne]; [congruence|]. by destruct Hsame; apply Ho'.
  - pose proof (redis_law_ack b w id0 now db HI) as HL. destruct (Ack b w id0 now db) as [db' [err|]]; cbn [fst] in *;
      [destruct Hsame; by destruct HL as [_ ->]|]. destruct HL as ((j0 & Hj0 & _) & _ & _ & Ho').
    destruct (decide (id = id0)) as [->|Hne]; [congruence|]. by destruct Hsame; apply Ho'.
  - pose proof (redis_law_nack b w id0 retryAt reason now db HI) as HL.
    destruct (Nack b w id0 retryAt reason now db) as [db' [err|]]; cbn [fst] in *; [destruct Hsame; by destruct HL as [_ ->]|].
    destruct HL as ((j0 & Hj0 & _) & _ & _ & Ho'). destruct (decide (id = id0)) as [->|Hne]; [congruence|]. by destruct Hsame; apply Ho'.
  - pose proof (redis_law_kill b w id0 reason now db HI) as HL.
    destruct (Kill b w id0 reason now db) as [db' [err|]]; cbn [fst] in *; [destruct Hsame; by destruct HL as [_ ->]|].
    destruct HL as ((j0 & Hj0 & _) & _ & _ & Ho'). destruct (decide (id = id0)) as [->|Hne]; [congruence|]. by destruct Hsame; apply Ho'.
  - destruct (extend_job w ids vt now db id HI Hn Hs) as [E|(_ & _ & j0 & d & E0 & E)]; [by destruct Hsame|congruence].
  - destruct (reap_job queues limit now db id HI) as [E|(j1 & E0 & Ha & E)]; [by destruct Hsame|congruence].
  - destruct (promote_job limit now db id HI) as [E|(j1 & E0 & Ha & E)]; [by destruct Hsame|congruence].
Qed.

(** Without an acknowledgement, the job stays. *)
Lemma rrun_kept tr (db : DB) id j :
  redis_inv b db → sane_run b tr db → redis_job b db id = Some j → State_ j ≠ StateCompleted →
  Forall (λ e, acks id e.2 = false) tr →
  ∃ j', redis_job b (rrun b tr db) id = Some j' ∧ State_ j' ≠ StateCompleted ∧ same_task j j' ∧
        MaxAttempts j' = MaxAttempts j ∧ Attempt j ≤ Attempt j'.
Proof.
  revert db j. induction tr as [|[now o] tr IH]; intros db j HI.
  { intros _ Hj Hc _. exists j. split_and!; done. }
  intros [Hs Htr] Hj Hc [Ha Hall]%Forall_cons. cbn [snd] in Ha.
  pose proof (rexec_next now o db id j HI Hs Hj Hc) as HN. pose proof (rexec_inv b now o db HI Hs) as HI1.
  assert (∀ w, o ≠ RAck w id) as Hno by (intros w ->; cbn in Ha; by rewrite String.eqb_refl in Ha).
  destruct (redis_job b (rexec b now o db) id) as [j1|] eqn:Hj1; [|by destruct HN as [[]%Hno _]].
  destruct HN as (Ht & Hm & _ & Hat & Hcomp).
  destruct (IH _ j1 HI1 Htr Hj1) as (j' & Hj' & Hc' & Ht' & Hm' & Hat'); [|done|].
  { intros Hc1. destruct (Hcomp Hc1) as [-> _]. by apply (Hno (Owner j)). }
  exists j'. do 2 (split; [done|]). split; [by eapply same_task_trans|]. split; [congruence|]. case_bool_decide; lia.
Qed.

(** ** Lemmas: ready lists *)

(** A queue that gets its first job has it at the head. *)
Lemma only_ready ks ks' id j q :
  rinv b ks → rinv b ks' → rl b ks q = [] → jobj b ks' id = Some j → State_ j = StatePending → Queue j = q →
  (∀ id', id' ≠ id → jobj b ks' id' = jobj b ks id') → ∃ l, rl b ks' q = id :: l.
Proof.
  intros HI HI' Hrl Hj Hs HQ Ho.
  assert (∀ k id' j', rinv b k → jobj b k id' = Some j' → id' ∈ rl b k q ↔ State_ j' = StatePending ∧ Queue j' = q) as Hm.
  { intros k id' j' Hk Hj'. destruct (rinv_cases b k id' Hk) as [(_ & E & _)|(h & e & j2 & _ & E & _ & _ & _ & Hsp)]; [congruence|].
    assert (j2 = j') as -> by congruence. by apply spot_some in Hsp as (H1 & _). }
  assert (id ∈ rl b ks' q) as Hin by (by apply (Hm ks' id j)).
  destruct (rl b ks' q) as [|x l] eqn:E; [by apply elem_of_nil in Hin|]. exists l. f_equal.
  destruct (decide (x = id)) as [->|Hne]; [done|]. exfalso.
  assert (x ∈ rl b ks' q) as Hx by (rewrite E; left).
  destruct (ready_head b 0 ks' q x l HI' E) as (h & j' & _ & Hj' & _ & _ & Hs' & HQ' & _).
  assert (x ∈ rl b ks q) as Hx0 by (apply (Hm ks x j'); [done|by rewrite <- Ho|done]).
  rewrite Hrl in Hx0. by apply elem_of_nil in Hx0.
Qed.

(** A claim on one queue gets the head of its list. *)
Lemma dequeue_head now o (db : DB) q id l :
  redis_inv b db → clock_ok now → WorkerID o ≠ "" → Queues o = [q] → 0 < VisibilityTimeout o < 2 ^ 63 →
  rl b (view db) q = id :: l →
  ∃ db' j, jobj b (view db) id = Some j ∧
    Dequeue b o now db = (db', Ok (claimed_by (WorkerID o) (UnixMilli now) (Milliseconds (VisibilityTimeout o)) j)).
Proof.
  intros HI Hn Hw HQ Hvt Hrl. unfold Dequeue. rewrite (proj2 (String.eqb_neq _ _) Hw), HQ.
  rewrite !bool_decide_eq_false_2 by (cbn; lia).
  pose proof (run_queues b now (view db) [q] (WorkerID o) _ HI Hw Hn (ms_of_duration _ Hvt)) as HR.
  cbn [first_job] in HR. rewrite Hrl in HR. destruct HR as (ks' & l' & j & HR & Hj & _ & _ & _ & Hd & _).
  assert (run_prog (documented now) (dequeue_lua ((λ q, (kQueue b q, kActive b q)) <$> [q]) (WorkerID o)
    (Milliseconds (VisibilityTimeout o)) (pJob b)) (view db) = (ks', Some (Some l'))) as HD
    by (unfold dequeue_lua; by rewrite run_clock).
  destruct (Run_doc _ _ _ _ _ HD) as (db' & -> & _). exists db', j. by rewrite Hd.
Qed.

(** ** Lemmas: named leases *)

Lemma leased_live (db : DB) name owner until now :
  leased b db name owner until → UnixMilli now ≤ until → live now (view db) (key b (NLease name)) = Some (RStr owner, Some until).
Proof. intros Hl Hn. unfold live. rewrite Hl. by rewrite bool_decide_eq_false_2 by lia. Qed.

(** A call for another owner while the lease runs. *)
Lemma acquire_refused (db : DB) name owner until now owner' ttl :
  leased b db name owner until → UnixMilli now ≤ until → owner' ≠ owner →
  ∃ r, AcquireLease b name owner' ttl now db = (db, r) ∧
    (name ≠ "" → owner' ≠ "" → 0 < ttl → r = Ok false).
Proof.
  intros Hl Hn Hne. unfold AcquireLease. destruct (String.eqb_spec name ""); [by eexists|].
  destruct (String.eqb_spec owner' ""); [by eexists|]. cbn [orb]. case_bool_decide; [eexists; split; [done|lia]|].
  assert (run_prog (documented now) (lease_acquire_lua (kLease b name) owner' (Milliseconds ttl)) (view db) = (view db, Some 0)) as HD.
  { unfold lease_acquire_lua. change (kLease b name) with (key b (NLease name)).
    rewrite (run_call now _ _ (view db) (view db) (RBulk owner)); [|cbn [documented]; by erewrite leased_live|done].
    cbn. by rewrite (proj2 (String.eqb_neq owner owner')). }
  destruct (Run_doc _ _ _ _ _ HD) as (db' & -> & Hv). apply (inj view) in Hv as ->. by eexists.
Qed.
Lemma release_refused (db : DB) name owner until now owner' :
  leased b db name owner until → UnixMilli now ≤ until → owner' ≠ owner →
  ∃ r, ReleaseLease b name owner' now db = (db, r) ∧ (name ≠ "" → owner' ≠ "" → r = None).
Proof.
  intros Hl Hn Hne. unfold ReleaseLease. destruct (String.eqb_spec name ""); [by eexists|].
  destruct (String.eqb_spec owner' ""); [by eexists|]. cbn [orb].
  assert (run_prog (documented now) (lease_release_lua (kLease b name) owner') (view db) = (view db, Some 0)) as HD.
  { unfold lease_release_lua. change (kLease b name) with (key b (NLease name)).
    rewrite (run_call now _ _ (view db) (view db) (RBulk owner)); [|cbn [documented]; by erewrite leased_live|done].
    cbn. by rewrite (proj2 (String.eqb_neq owner owner')). }
  destruct (Run_doc _ _ _ _ _ HD) as (db' & -> & Hv). apply (inj view) in Hv as ->. by eexists.
Qed.

(** A free lease, or one's own, is taken. *)
Lemma acquire_granted (db : DB) name owner ttl now :
  name ≠ "" → owner ≠ "" → Millisecond ≤ ttl →
  live now (view db) (key b (NLease name)) = None ∨
    (∃ e, live now (view db) (key b (NLease name)) = Some (RStr owner, e)) →
  ∃ db', AcquireLease b name owner ttl now db = (db', Ok true) ∧
    leased b db' name owner (UnixMilli now + Milliseconds ttl).
Proof.
  intros Hname Howner Httl Hl. unfold AcquireLease.
  rewrite (proj2 (String.eqb_neq name "")), (proj2 (String.eqb_neq owner "")) by done. cbn [orb].
  rewrite bool_decide_eq_false_2 by (revert Httl; unfold_durations; lia).
  assert (0 < Milliseconds ttl) as Hms by (unfold Milliseconds; apply Z.quot_str_pos; revert Httl; unfold_durations; lia).
  set (ks' := <[key b (NLease name) := (RStr owner, Some (UnixMilli now + Milliseconds ttl))]> (view db)).
  assert (run_prog (documented now) (lease_acquire_lua (kLease b name) owner (Milliseconds ttl)) (view db) = (ks', Some 1)) as HD.
  { unfold lease_acquire_lua. change (kLease b name) with (key b (NLease name)).
    assert (∀ r, (is_nil r || is_str r owner) = true → r ≠ RError → documented now (GET (key b (NLease name))) (view db) = (view db, r) →
      run_prog (documented now) (lease_acquire_lua (key b (NLease name)) owner (Milliseconds ttl)) (view db) = (ks', Some 1)) as Hgo.
    { intros r Hr Hne HG. unfold lease_acquire_lua. rewrite (run_call now _ _ (view db) (view db) r HG Hne), Hr.
      rewrite (run_call now _ _ (view db) ks' ROK); [done| |done]. cbn [documented]. by rewrite bool_decide_eq_false_2 by lia. }
    destruct Hl as [Hl|[e Hl]]; [apply (Hgo RNil)|apply (Hgo (RBulk owner))]; try done; try (cbn [documented]; by rewrite Hl).
    cbn. apply String.eqb_refl. }
  destruct (Run_doc _ _ _ _ _ HD) as (db' & -> & Hv). exists db'. split; [done|]. unfold leased. rewrite Hv. apply lookup_insert_eq.
Qed.

(** Who holds a lease after a successful call for it. *)
Lemma acquired_leased (db db' : DB) name owner ttl now :
  ty_ok b (view db) → AcquireLease b name owner ttl now db = (db', Ok true) →
  name ≠ "" ∧ owner ≠ "" ∧ leased b db' name owner (UnixMilli now + Milliseconds ttl).
Proof.
  intros Hty. unfold AcquireLease. destruct (String.eqb_spec name ""); [done|].
  destruct (String.eqb_spec owner ""); [done|]. cbn [orb]. case_bool_decide; [done|].
  pose proof (Run_view now (lease_acquire_lua (kLease b name) owner (Milliseconds ttl)) db) as HD.
  destruct (Run now _ db) as [db1 r]. intros E. split_and!; try done. revert HD.
  destruct r as [held|]; [|done]. injection E as -> E. apply bool_decide_eq_true in E as ->.
  unfold lease_acquire_lua. change (kLease b name) with (key b (NLease name)). cbn [run_prog].
  destruct (documented now (GET (key b (NLease name))) (view db)) as [ks1 r] eqn:HG.
  destruct r; try done; destruct (is_nil _ || is_str _ owner); try done; cbn [run_prog documented];
    case_bool_decide; try done; cbn; intros [= Hv]; unfold leased; rewrite <- Hv; apply lookup_insert_eq.
Qed.

(** The lease stays with its owner whatever others do. *)
Lemma rexec_leased now o (db : DB) name owner until :
  leased b db name owner until → UnixMilli now ≤ until → leases_as name owner o = false →
  leased b (rexec b now o db) name owner until.
Proof.
  intros Hl Hn Ho. pose proof (rexec_reaches b now o db) as (_ & Hk & _).
  assert (¬ op_keys o (NLease name) → leased b (rexec b now o db) name owner until) as Hframe.
  { intros Hno. unfold leased. by rewrite Hk. }
  destruct o; cbn [op_keys] in Hframe; try (apply Hframe; by intros []); try (by apply Hframe);
    try (apply Hframe; unfold ack_key; cbn; naive_solver).
  - destruct (decide (name0 = name)) as [->|Hne]; [|apply Hframe; congruence].
    cbn [leases_as] in Ho. rewrite String.eqb_refl in Ho. apply String.eqb_neq in Ho.
    destruct (acquire_refused db name owner until now owner0 ttl Hl Hn Ho) as (r & E & _). cbn [rexec]. by rewrite E.
  - destruct (decide (name0 = name)) as [->|Hne]; [|apply Hframe; congruence].
    cbn [leases_as] in Ho. rewrite String.eqb_refl in Ho. apply String.eqb_neq in Ho.
    destruct (release_refused db name owner until now owner0 Hl Hn Ho) as (r & E & _). cbn [rexec]. by rewrite E.
Qed.

Lemma rrun_leased tr (db : DB) name owner until :
  leased b db name owner until → Forall (λ e, UnixMilli e.1 ≤ until ∧ leases_as name owner e.2 = false) tr →
  leased b (rrun b tr db) name owner until.
Proof.
  revert db. induction tr as [|[now o] tr IH]; intros db Hl; [done|]. intros [[Hn Ho] Hall]%Forall_cons.
  apply IH; [by apply rexec_leased|done].
Qed.
End lemmas.

(** ** Properties *)

Section properties.
Context {DB : Type} `{RedisLaws DB} (b : settings).

(** C8: in every state the server can come to by calls of the broker, in any order and from any
    number of processes, a stored job is in exactly the one list or sorted set its state
    names: the ready list of its queue, once, if it is pending; the active set of its queue,
    under its deadline, if it is active; the delayed, retry or dead-letter set otherwise; and
    an identifier without a stored job is in none. A job that is not active has no owner, and
    no job has used more attempts than it has. So no script loses a job or duplicates it. *)
Theorem redis_one_place (db : DB) id :
  redis_reachable b db →
  let ks := view db in
  (∀ q, NoDup (rl b ks q)) ∧
  match redis_job b db id with
  | None => (∀ q, id ∉ rl b ks q) ∧ ∀ n, core_z n → zs b ks n !! id = None
  | Some j =>
      ID j = id ∧ 0 ≤ Attempt j ≤ MaxAttempts j ∧ (State_ j = StateActive ↔ Owner j ≠ "") ∧
      (∀ q, id ∈ rl b ks q ↔ State_ j = StatePending ∧ Queue j = q) ∧
      (∀ q d, zs b ks (NActive q) !! id = Some d ↔
         State_ j = StateActive ∧ Queue j = q ∧ d = msFromTime (Deadline j)) ∧
      (is_Some (zs b ks NDelayed !! id) ↔ State_ j = StateScheduled) ∧
      (is_Some (zs b ks NRetry !! id) ↔ State_ j = StateRetry) ∧
      (is_Some (zs b ks NDead !! id) ↔ State_ j = StateDead)
  end.
Proof.
  intros HI%reachable_inv ks. split; [apply HI|]. unfold redis_job. fold ks.
  destruct (rinv_cases b ks id HI) as [(_ & -> & Hsp)|(h & e & j & _ & -> & _ & Hok & _ & Hsp)].
  - by apply spot_none.
  - apply spot_some in Hsp. split; [apply Hok|]. split; [apply Hok|]. split; [apply Hok|exact Hsp].
Qed.

(** C9: no job is lost on Redis. Whatever calls are made, in any order and from any number of
    processes, a stored job that is not completed stays stored, with the task and the
    attempt budget it was enqueued with, until it is acknowledged; every single call leaves
    it as it is or moves it one step along the lifecycle graph, a claim counting one attempt;
    and it is completed or dropped only by the Ack of the worker that holds its lease. *)
Theorem redis_no_job_lost (db : DB) id j :
  redis_reachable b db → redis_job b db id = Some j → State_ j ≠ StateCompleted →
  (∀ now o, sane b now o db → job_next o id j (redis_job b (rexec b now o db) id)) ∧
  (∀ tr, sane_run b tr db → Forall (λ e, acks id e.2 = false) tr →
     ∃ j', redis_job b (rrun b tr db) id = Some j' ∧ State_ j' ≠ StateCompleted ∧ same_task j j' ∧
           MaxAttempts j' = MaxAttempts j ∧ Attempt j ≤ Attempt j').
Proof.
  intros HI%reachable_inv Hj Hc. split; [intros; by apply rexec_next|]. intros tr Htr Hall. by apply rrun_kept.
Qed.

(** C11: a worker that lost its lease stays fenced off on Redis. Once it does not hold the lease
    on a job, whatever calls others make, and whatever it does itself short of claiming again,
    its Ack, Nack and Kill of that job change nothing and return an error that says the lease
    is lost or the job is gone, and its Extend reports the job as lost. *)
Theorem redis_stale_worker_fenced (db : DB) w id tr now :
  redis_reachable b db → sane_run b tr db → Forall (λ e, claims_as w e.2 = false) tr →
  ¬ holds (redis_job b) db w id → clock_ok now →
  let db' := rrun b tr db in
  (∃ err, (Is err ErrLeaseLost || Is err ErrJobNotFound) = true ∧
    Ack b w id now db' = (db', Some err) ∧
    (∀ t r, Nack b w id t r now db' = (db', Some err)) ∧
    (∀ r, Kill b w id r now db' = (db', Some err))) ∧
  ∀ vt, 0 < vt < 2 ^ 63 → (Extend b w [id] vt now db').2 = Ok [id].
Proof.
  intros HI%reachable_inv Htr Hc Hno Hn db'. pose proof (sane_run_inv b tr db HI Htr) as HI'.
  pose proof (rrun_holds b tr db w id HI Htr Hc Hno) as Hno'. fold db' in HI', Hno'. split.
  - by apply fenced_reports.
  - intros vt Hvt. pose proof (redis_law_extend b w [id] vt now db' HI' Hvt Hn) as HL.
    unfold Extend in *. rewrite bool_decide_eq_false_2 in * by lia. cbn [length] in *. rewrite bool_decide_eq_false_2 in * by done.
    assert (run_prog (documented now) (extend_lua w (Milliseconds vt) (pJob b) (pActive b) [id]) (view db') =
      run_prog (documented now) (extend_ids_lua [id] w (pJob b) (pActive b) (UnixMilli now) (Milliseconds vt) []) (view db')) as HD
      by (unfold extend_lua; by rewrite run_clock).
    destruct (run_extend b now [id] (view db') w (Milliseconds vt) [] HI' Hn (ms_of_duration vt Hvt)) as (ks' & HE & _ & _).
    rewrite HE in HD. destruct (Run_doc _ _ _ _ _ HD) as (db1 & -> & _). cbn [snd app].
    assert (held b (view db') w id = false) as Hh by (apply not_true_iff_false; by rewrite held_spec).
    rewrite filter_cons, decide_True by done. done.
Qed.

(** C12: what is enqueued is what is claimed, to the millisecond. If a job that is due is enqueued
    to a queue without waiting jobs, and Enqueue succeeds, the next claim on that queue gets
    it: decoded from its hash, it has the identifier, queue, type, payload, unique key and
    attempt budget it was enqueued with, its run time rounded down to the millisecond, one
    attempt used, and a lease of the claimer's that runs for the visibility timeout. *)
Theorem redis_roundtrip (db db1 : DB) i now j jr o now' :
  redis_reachable b db → sane b now (REnqueue i (Some j)) db → rl b (view db) (Queue j) = [] →
  run_ms j ≤ UnixMilli now → Enqueue b i now (Some j) db = (db1, jr, None) →
  clock_ok now' → WorkerID o ≠ "" → Queues o = [Queue j] → 0 < VisibilityTimeout o < 2 ^ 63 →
  ∃ db2 jc, Dequeue b o now' db1 = (db2, Ok jc) ∧
    ID jc = assigned_id i j ∧ Queue jc = Queue j ∧ Type_ jc = Type_ j ∧
    default [] (Payload jc) = default [] (Payload j) ∧ UniqueKey jc = UniqueKey j ∧
    MaxAttempts jc = (if bool_decide (MaxAttempts j ≤ 0) then DefaultMaxAttempts else MaxAttempts j) ∧
    run_ms jc = run_ms j ∧ EnqueuedAt jc = UnixMilli now * Millisecond ∧ LastErr jc = "" ∧
    Attempt jc = 1 ∧ State_ jc = StateActive ∧ Owner jc = WorkerID o ∧
    Deadline jc = redis_deadline now' (VisibilityTimeout o).
Proof.
  intros HI%reachable_inv [Hn (Hl & Hid & Hgo)] Hrl Hdue HE Hn' Hw HQ Hvt.
  pose proof (redis_Enqueue_spec b i now j db HI Hl Hid Hgo Hn) as HS. rewrite HE in HS.
  destruct HS as (HI1 & Hq & Ht & _ & Hj1 & Ho1). set (f := filled i j) in *.
  destruct (filled_fields i j) as (F1 & F2 & F3 & F4 & F5 & F6 & F7 & F8). fold f in F1, F2, F3, F4, F5, F6, F7, F8.
  pose proof (so_run _ (filled_storable i j Hid Hq Ht Hgo)) as Hr. fold f in Hr. rewrite F5 in Hr.
  assert (State_ (stored_as (UnixMilli now) f) = StatePending) as Hs.
  { cbn [State_ stored_as]. rewrite F5, bool_decide_eq_false_2; [done|]. unfold run_ms in Hdue. fold (msFromTime (RunAt j)) in Hdue. lia. }
  pose proof (only_ready b (view db) (view db1) (assigned_id i j) (stored_as (UnixMilli now) f) (Queue j) HI HI1 Hrl Hj1 Hs F2 Ho1)
    as [l Hrl1].
  pose proof (dequeue_head b now' o db1 (Queue j) (assigned_id i j) l HI1 Hn' Hw HQ Hvt Hrl1) as (db2 & j1 & Hj1' & HD).
  unfold redis_job in Hj1. rewrite Hj1 in Hj1'. injection Hj1' as <-.
  pose proof (clock_ms now Hn) as Hms. eexists db2, _. split; [exact HD|]. unfold run_ms, timeFromMs.
  cbn [ID Queue Type_ Payload UniqueKey MaxAttempts RunAt EnqueuedAt LastErr Attempt State_ Owner Deadline claimed_by set_Deadline
       set_StartedAt set_Owner set_State set_Attempt stored_as].
  rewrite F1, F2, F3, F4, F5, F6, F8. split_and!; try done.
  - by destruct (Payload j) as [[|? ?]|].
  - change (msFromTime (timeFromMs (msFromTime (RunAt j))) = msFromTime (RunAt j)). apply ms_time; lia.
  - unfold timeFromMs. by rewrite bool_decide_eq_false_2 by lia.
Qed.

(** Recovery on Redis is exact. One sweep of a queue takes the jobs of that queue whose
    lease deadline, in milliseconds, is not after the server's clock, earliest deadline first
    with ties by identifier, [limit] of them at most. Each loses its owner and counts one
    recovery; those with attempts left are pending again, the others dead, with the reason;
    the two numbers of each are returned; and every other job is untouched. *)
Theorem redis_reap_exact (db : DB) q limit now :
  redis_reachable b db → 0 < limit →
  ∃ cands : list (string * Z),
    Sorted (by_key (λ e, (e.2, e.1))) cands ∧ NoDup cands.*1 ∧
    (∀ id d, (id, d) ∈ cands ↔
       ∃ j, redis_job b db id = Some j ∧ State_ j = StateActive ∧ Queue j = q ∧
            d = msFromTime (Deadline j) ∧ d ≤ UnixMilli now) ∧
    let ids := (take (Z.to_nat limit) cands).*1 in
    let dead := Z.of_nat (length (filter (λ id, spent b (view db) id = true) ids)) in
    let '(db', r) := ReapDetail b q limit now db in
    r = Ok (Z.of_nat (length ids) - dead, dead) ∧
    ∀ id, redis_job b db' id = if decide (id ∈ ids) then swept <$> redis_job b db id else redis_job b db id.
Proof.
  intros HI%reachable_inv Hl. exists (in_score_order (zs b (view db) (NActive q)) (UnixMilli now)).
  destruct (in_score_order_spec (zs b (view db) (NActive q)) (UnixMilli now)) as [Hnd Hin].
  split; [apply Sorted_merge_sort, _|]. split; [done|]. split.
  - intros id d. rewrite Hin, active_member by done. naive_solver.
  - pose proof (ReapDetail_spec b q limit now db HI Hl) as HR. cbv zeta in HR |- *. unfold taken in HR.
    destruct (ReapDetail b q limit now db) as [db' r]. by destruct HR as (? & _ & ?).
Qed.

(** Promotion on Redis is exact. One call takes the members of the delayed set with a
    score up to the server's clock, earliest first with ties by identifier, [limit] at most,
    and then those of the retry set with what is left of the limit. Every one of them is a
    scheduled job or a retry, becomes pending and is counted once; every other job is
    untouched. *)
Theorem redis_promote_exact (db : DB) limit now :
  redis_reachable b db → 0 < limit →
  let due n := in_score_order (zs b (view db) n) (UnixMilli now) in
  let ids1 := (take (Z.to_nat limit) (due NDelayed)).*1 in
  let ids2 := (take (Z.to_nat (limit - Z.of_nat (length ids1))) (due NRetry)).*1 in
  (∀ id, id ∈ ids1 → ∃ j, redis_job b db id = Some j ∧ State_ j = StateScheduled) ∧
  (∀ id, id ∈ ids2 → ∃ j, redis_job b db id = Some j ∧ State_ j = StateRetry) ∧
  NoDup (ids1 ++ ids2) ∧ Z.of_nat (length (ids1 ++ ids2)) ≤ limit ∧
  let '(db', r) := Promote b limit now db in
  r = Ok (Z.of_nat (length (ids1 ++ ids2))) ∧
  ∀ id, redis_job b db' id = if decide (id ∈ ids1 ++ ids2) then ready_again <$> redis_job b db id else redis_job b db id.
Proof.
  intros HI%reachable_inv Hl. cbv zeta. pose proof (Promote_spec b limit now db HI Hl) as HP. cbv zeta in HP.
  fold (taken b now NDelayed (view db) limit). set (ids1 := taken b now NDelayed (view db) limit) in *.
  fold (taken b now NRetry (view db) (limit - Z.of_nat (length ids1))).
  set (ids2 := taken b now NRetry (view db) (limit - Z.of_nat (length ids1))) in *.
  assert (∀ id, id ∈ ids1 → ∃ j, redis_job b db id = Some j ∧ State_ j = StateScheduled) as H1
    by (intros id Hid; by apply (taken_belongs b now NDelayed) in Hid).
  assert (∀ id, id ∈ ids2 → ∃ j, redis_job b db id = Some j ∧ State_ j = StateRetry) as H2
    by (intros id Hid; by apply (taken_belongs b now NRetry) in Hid).
  split_and!; [done|done| | |].
  - apply NoDup_app. split_and!; [apply taken_spec| |apply taken_spec].
    intros id (j & Hj & Hs)%H1 (j' & Hj' & Hs')%H2. rewrite Hj in Hj'. injection Hj' as <-. by rewrite Hs in Hs'.
  - change (Z.of_nat (length (ids1 ++ ids2)) ≤ limit).
    assert (∀ n l, (length (taken b now n (view db) l) ≤ Z.to_nat l)%nat) as Hlen
      by (intros; unfold taken; rewrite length_fmap, length_take; lia).
    pose proof (Hlen NDelayed limit : length ids1 ≤ _)%nat.
    pose proof (Hlen NRetry (limit - Z.of_nat (length ids1)) : (length ids2 ≤ _)%nat). rewrite length_app. lia.
  - destruct (Promote b limit now db) as [db' r]. by destruct HP as (? & _ & ?).
Qed.

(** C13: the scheduler's leadership is exclusive on Redis. From a successful AcquireLease until
    its TTL has run out, whatever calls others make in the meantime, a call for any other
    owner is refused and its release has no effect, while the holder can renew; and once the
    holder releases the lease, another owner gets it at once. *)
Theorem redis_lease_exclusive (db db1 : DB) name owner ttl now tr now' :
  redis_reachable b db → AcquireLease b name owner ttl now db = (db1, Ok true) →
  let until := UnixMilli now + Milliseconds ttl in
  Forall (λ e, UnixMilli e.1 ≤ until ∧ leases_as name owner e.2 = false) tr → UnixMilli now' ≤ until →
  let db2 := rrun b tr db1 in
  (∀ owner' ttl', owner' ≠ owner → owner' ≠ "" → 0 < ttl' →
     AcquireLease b name owner' ttl' now' db2 = (db2, Ok false)) ∧
  (∀ owner', owner' ≠ owner → owner' ≠ "" → ReleaseLease b name owner' now' db2 = (db2, None)) ∧
  (∀ ttl', Millisecond ≤ ttl' → (AcquireLease b name owner ttl' now' db2).2 = Ok true) ∧
  (∀ owner' ttl', owner' ≠ "" → Millisecond ≤ ttl' →
     (AcquireLease b name owner' ttl' now' (ReleaseLease b name owner now' db2).1).2 = Ok true).
Proof.
  intros HI%reachable_inv HA until Htr Hn' db2. pose proof (ri_ty _ _ HI) as Hty.
  destruct (acquired_leased b db db1 name owner ttl now Hty HA) as (Hname & Howner & Hl1).
  pose proof (rrun_leased b tr db1 name owner until Hl1 Htr) as Hl2. fold db2 in Hl2.
  pose proof (leased_live b db2 name owner until now' Hl2 Hn') as Hlive. split_and!.
  - intros owner' ttl' Hne Ho Ht. destruct (acquire_refused b db2 name owner until now' owner' ttl' Hl2 Hn' Hne) as (r & -> & Hr).
    by rewrite Hr.
  - intros owner' Hne Ho. destruct (release_refused b db2 name owner until now' owner' Hl2 Hn' Hne) as (r & -> & Hr). by rewrite Hr.
  - intros ttl' Ht. destruct (acquire_granted b db2 name owner ttl' now' Hname Howner Ht) as (db3 & -> & _); [right; by eexists|done].
  - intros owner' ttl' Ho Ht.
    assert (live now' (view (ReleaseLease b name owner now' db2).1) (key b (NLease name)) = None) as Hfree.
    { unfold ReleaseLease. rewrite (proj2 (String.eqb_neq name "")), (proj2 (String.eqb_neq owner "")) by done. cbn [orb].
      assert (run_prog (documented now') (lease_release_lua (kLease b name) owner) (view db2) =
        (delete (key b (NLease name)) (view db2), Some 1)) as HD.
      { unfold lease_release_lua. change (kLease b name) with (key b (NLease name)).
        rewrite (run_call now' _ _ (view db2) (view db2) (RBulk owner)); [|cbn [documented]; by rewrite Hlive|done].
        cbn. by rewrite String.eqb_refl. }
      destruct (Run_doc _ _ _ _ _ HD) as (db3 & -> & Hv). cbn [fst]. rewrite Hv. unfold live. by rewrite lookup_delete_eq. }
    destruct (acquire_granted b _ name owner' ttl' now' Hname Ho Ht (or_introl Hfree)) as (db3 & -> & _). done.
Qed.

(** C10: the Redis broker keeps the promises that the client, the worker and the scheduler rely
    on. On every server that behaves as documented, the laws of the interfaces hold of its
    operations, over an invariant that the empty keyspace satisfies and that every operation
    of the broker, the sweeps, heartbeats, leases and cron calls included, keeps; what the
    laws call the stored job is the job decoded from its hash, and the fire time of a cron
    entry is its score. *)
Theorem redis_implements :
  ∃ (L : @BrokerLaws DB (redis_broker b)) (C : @CronLaws DB (redis_cron b))
    (_ : @SchedulerLaws DB (redis_broker b) (redis_cron b) C),
    let inv := @law_inv DB (redis_broker b) L in
    (∀ db, (∀ n, view db !! key b n = None) → inv db ∧ @cron_inv DB (redis_cron b) C db) ∧
    (∀ now o db, inv db → sane b now o db → inv (rexec b now o db)) ∧
    (∀ db id, @job_at DB (redis_broker b) L db id = jobj b (view db) id) ∧
    (∀ db id, @fire_time DB (redis_cron b) C db id = (λ ms, ms * Millisecond) <$> zs b (view db) NCron !! id).
Proof.
  exists (redis_laws b), (redis_cron_laws b), (redis_scheduler_laws b). split_and!; try done.
  - intros db He. split; [by apply empty_inv|]. split; [by apply empty_inv|]. intros id ms. unfold zs. by rewrite He.
  - intros now o db HI Hs. by apply rexec_inv.
Qed.
End properties.

(** ** A corner case *)

(** One job is enqueued, claimed and completed; its record is kept for an hour. *)
Definition at_s (s : Z) : Z := (1700000000 + s) * Second.
Definition demo1 : keyspace := rexec demo_settings (at_s 0) (REnqueue "a" (Some demo_task)) ∅.
Definition demo2 : keyspace := rexec demo_settings (at_s 1) (RDequeue (demo_opts "w")) demo1.
Definition demo_running : Job := default zeroJob (redis_job demo_settings demo2 "a").
Definition demo3 : keyspace := rexec demo_settings (at_s 2) (RAck "w" "a") demo2.

(** A job enqueued under the identifier of a completed one inherits the expiry of its record:
    Enqueue succeeds and the job is pending in its queue, but the record still expires an
    hour after the first job was completed, and a claim after that finds nothing, although
    the job was never delivered. *)
Theorem reused_id_expires :
  let again := set_ID "a" demo_task in
  (Enqueue demo_settings "" (at_s 60) (Some again) demo3).2 = None ∧
  let db := (Enqueue demo_settings "" (at_s 60) (Some again) demo3).1.1 in
  (State_ <$> redis_job demo_settings db "a") = Some StatePending ∧ rl demo_settings db "mail" = ["a"] ∧
  (Dequeue demo_settings (demo_opts "w") (at_s (2 + 3601)) db).2 = Err (Sentinel ErrNoJob).
Proof. cbv zeta. split_and!; vm_compute; reflexivity. Qed.

(** ** Witnesses *)

Lemma demo_clock s : 0 ≤ s < 1000000 → clock_ok (at_s s).
Proof. intros Hs. unfold clock_ok, at_s. unfold_durations. lia. Qed.

Lemma demo_reach0 : redis_reachable demo_settings (∅ : keyspace).
Proof. apply rreach_start. intros n. exact (lookup_empty (M := gmap string) _). Qed.
Lemma demo_sane1 : sane demo_settings (at_s 0) (REnqueue "a" (Some demo_task)) (∅ : keyspace).
Proof. split; [by apply demo_clock|]. split_and!; [by vm_compute|done|]. split; [by vm_compute|by left]. Qed.
Lemma demo_reach1 : redis_reachable demo_settings demo1.
Proof. apply rreach_step; [exact demo_reach0|exact demo_sane1]. Qed.
Lemma demo_reach2 : redis_reachable demo_settings demo2.
Proof. apply rreach_step; [exact demo_reach1|]. split; [by apply demo_clock|by vm_compute]. Qed.

Lemma redis_one_place_witness :
  is_Some (redis_job demo_settings demo2 "a") ∧ zs demo_settings demo2 (NActive "mail") !! "a" = Some (UnixMilli (at_s 11)).
Proof.
  pose proof (redis_one_place demo_settings demo2 "a" demo_reach2) as [_ H].
  assert (redis_job demo_settings demo2 "a" = Some demo_running) as Hj by (vm_compute; reflexivity).
  rewrite Hj in H. split; [by rewrite Hj; eexists|]. apply H. split_and!; vm_compute; reflexivity.
Defined.

Lemma demo_not_held : ¬ holds (redis_job demo_settings) demo2 "v" "a".
Proof.
  intros (j & Hj & _ & Ho). assert (Owner <$> redis_job demo_settings demo2 "a" = Some "w") as E by (vm_compute; reflexivity).
  rewrite Hj in E. injection E as E. congruence.
Qed.

Lemma redis_stale_worker_fenced_witness :
  ∃ err, (Is err ErrLeaseLost || Is err ErrJobNotFound) = true ∧
    (Ack demo_settings "v" "a" (at_s 13) (rrun demo_settings [(at_s 12, RReap ["mail"] 10)] demo2)).2 = Some err.
Proof.
  destruct (redis_stale_worker_fenced demo_settings demo2 "v" "a" [(at_s 12, RReap ["mail"] 10)] (at_s 13) demo_reach2) as [H _].
  - split; [|exact I]. split; [by apply demo_clock|exact I].
  - repeat constructor.
  - exact demo_not_held.
  - by apply demo_clock.
  - destruct H as (err & He & HA & _). exists err. split; [exact He|]. rewrite HA. reflexivity.
Defined.

Lemma redis_no_job_lost_witness :
  ∃ j', redis_job demo_settings (rrun demo_settings [(at_s 12, RReap ["mail"] 10); (at_s 13, RDequeue (demo_opts "v"))] demo2) "a" = Some j' ∧
        same_task demo_running j'.
Proof.
  assert (redis_job demo_settings demo2 "a" = Some demo_running) as Hj by (vm_compute; reflexivity).
  destruct (redis_no_job_lost demo_settings demo2 "a" demo_running demo_reach2 Hj) as [_ H].
  - vm_compute. discriminate.
  - destruct (H [(at_s 12, RReap ["mail"] 10); (at_s 13, RDequeue (demo_opts "v"))]) as (j' & Hj' & _ & Ht & _).
    + exact (conj (conj (demo_clock 12 ltac:(lia)) I) (conj (conj (demo_clock 13 ltac:(lia)) eq_refl) I)).
    + repeat constructor.
    + exists j'. split; [exact Hj'|exact Ht].
Defined.

Lemma redis_roundtrip_witness :
  ∃ db2 jc, Dequeue demo_settings (demo_opts "w") (at_s 1) demo1 = (db2, Ok jc) ∧ ID jc = "a" ∧ Attempt jc = 1.
Proof.
  destruct (redis_roundtrip demo_settings (∅ : keyspace) demo1 "a" (at_s 0) demo_task
    (Some (set_State StatePending (set_ID "a" demo_task))) (demo_opts "w") (at_s 1)) as (db2 & jc & HD & Hid & H).
  - exact demo_reach0.
  - exact demo_sane1.
  - reflexivity.
  - vm_compute. discriminate.
  - vm_compute. reflexivity.
  - by apply demo_clock.
  - discriminate.
  - reflexivity.
  - split; vm_compute; reflexivity.
  - exists db2, jc. split; [exact HD|]. split; [exact Hid|]. apply H.
Defined.

Lemma redis_reap_exact_witness :
  ∃ cands : list (string * Z),
    ("a", UnixMilli (at_s 11)) ∈ cands ∧
    let ids := (take 10 cands).*1 in
    let dead := Z.of_nat (length (filter (λ id, spent demo_settings demo2 id = true) ids)) in
    (ReapDetail demo_settings "mail" 10 (at_s 12) demo2).2 = Ok (Z.of_nat (length ids) - dead, dead).
Proof.
  destruct (redis_reap_exact demo_settings demo2 "mail" 10 (at_s 12) demo_reach2 eq_refl) as (cands & _ & _ & Hin & H).
  exists cands. split.
  - apply Hin. exists demo_running. split_and!; vm_compute; (reflexivity || discriminate).
  - destruct (ReapDetail demo_settings "mail" 10 (at_s 12) demo2) as [db' r]. exact (proj1 H).
Defined.

Lemma redis_promote_exact_witness :
  let db := rexec demo_settings (at_s 2) (RNack "w" "a" (at_s 5) "boom") demo2 in
  (Promote demo_settings 10 (at_s 6) db).2 = Ok 1.
Proof.
  intros db. assert (redis_reachable demo_settings db) as HR.
  { apply rreach_step; [exact demo_reach2|]. split; [by apply demo_clock|exact I]. }
  pose proof (redis_promote_exact demo_settings db 10 (at_s 6) HR eq_refl) as (_ & _ & _ & _ & H).
  destruct (Promote demo_settings 10 (at_s 6) db) as [db' r]. destruct H as [H _]. rewrite H. vm_compute. reflexivity.
Defined.

Lemma redis_lease_exclusive_witness :
  let db1 := (AcquireLease demo_settings "scheduler" "w" (30 * Second) (at_s 2) demo2).1 in
  AcquireLease demo_settings "scheduler" "v" (30 * Second) (at_s 20)
    (rrun demo_settings [(at_s 10, RReleaseLease "scheduler" "v")] db1) =
  (rrun demo_settings [(at_s 10, RReleaseLease "scheduler" "v")] db1, Ok false).
Proof.
  intros db1.
  refine (proj1 (redis_lease_exclusive demo_settings demo2 db1 "scheduler" "w" (30 * Second) (at_s 2)
    [(at_s 10, RReleaseLease "scheduler" "v")] (at_s 20) demo_reach2 _ _ _) "v" (30 * Second) _ _ _).
  - vm_compute. reflexivity.
  - constructor; [|constructor]. split; [vm_compute; discriminate|reflexivity].
  - vm_compute. discriminate.
  - discriminate.
  - discriminate.
  - reflexivity.
Defined.

Lemma redis_implements_witness :
  ∃ L : @BrokerLaws keyspace (redis_broker demo_settings), @law_inv keyspace (redis_broker demo_settings) L demo1.
Proof.
  destruct (redis_implements (DB := keyspace) demo_settings) as (L & C & _ & H0 & H1 & _). exists L.
  apply (H1 (at_s 0) (REnqueue "a" (Some demo_task)) ∅); [|exact demo_sane1]. apply H0. intros n. exact (lookup_empty (M := gmap string) _).
Defined.
