(* ===== verification/RedisNetwork.v ===== *)
(** * The Redis broker over a network

    The reply of a call can be lost after the server has executed it, and a caller or the
    client library may then send the call again; a call can also never arrive. In the
    sequence of calls a server executes, a call can therefore occur any number of times, and
    whoever made it may not know that it did. What holds of every such sequence: a unique key
    admits one job, a repeated report has no further effect, and a claim whose reply never
    reached the worker is undone by the sweeps. *)
From S2P Require Import Prelude GoBase Job Backoff Interface BrokerAPI RedisServer RedisScripts Redis RedisKeys RedisTypes RedisInv RedisRun RedisScriptSpecs RedisBroker RedisOps RedisProps.

(** ** Definitions *)

Section definitions.
Context {DB : Type} `{RedisLaws DB} (b : settings).

(** The unique key is the job's until a millisecond. *)
Definition keyed (db : DB) (u id : string) (until : Z) : Prop :=
  view db !! key b (NUnique u) = Some (RStr id, Some until).

(** The call is a report of the worker's on the job. *)
Definition reports (w id : string) (o : rop) : Prop :=
  o = RAck w id ∨ (∃ t r, o = RNack w id t r) ∨ ∃ r, o = RKill w id r.

(** What the caller of a report is told. *)
Definition told (now : Z) (o : rop) (db : DB) : option error :=
  match o with
  | RAck w id => (Ack b w id now db).2
  | RNack w id t r => (Nack b w id t r now db).2
  | RKill w id r => (Kill b w id r now db).2
  | _ => None
  end.

(** Something is so of every call of a sequence, in the state it is executed in. *)
Fixpoint along (P : Z → rop → DB → Prop) (tr : list (Z * rop)) (db : DB) : Prop :=
  match tr with
  | [] => True
  | (now, o) :: tr => P now o db ∧ along P tr (rexec b now o db)
  end.
End definitions.

(** The time to live of a unique key is one that Redis can keep: the default, or at least a
    millisecond. *)
Definition whole_ttl (j : Job) : Prop := UniqueTTL j ≤ 0 ∨ Millisecond ≤ UniqueTTL j.

Lemma unique_ms_pos j : whole_ttl j → 0 < unique_ms j.
Proof.
  unfold whole_ttl, unique_ms, Milliseconds. intros Hj. case_bool_decide; [by vm_compute|].
  apply Z.quot_str_pos. revert Hj. unfold_durations. lia.
Qed.
Lemma unique_ms_zero j : ¬ whole_ttl j → unique_ms j = 0.
Proof.
  unfold whole_ttl, unique_ms, Milliseconds. intros Hj. rewrite bool_decide_eq_false_2 by lia.
  apply Z.quot_small. lia.
Qed.

Section lemmas.
Context {DB : Type} `{RedisLaws DB} (b : settings).

(** ** Lemmas: unique keys *)

Lemma keyed_holder (db : DB) u id until now :
  keyed b db u id until → UnixMilli now ≤ until → holder b now (view db) u = Some id.
Proof. intros Hk Hn. unfold holder, live. rewrite Hk. by rewrite bool_decide_eq_false_2 by lia. Qed.

(** A key that is taken refuses every job. *)
Lemma Enqueue_held (db : DB) u id until i now j :
  keyed b db u id until → UnixMilli now ≤ until →
  UniqueKey j = u → u ≠ "" → Queue j ≠ "" → Type_ j ≠ "" → 0 < unique_ms j →
  Enqueue b i now (Some j) db = (db, Some (filled i j), Some (DuplicateError u id)).
Proof.
  intros Hk Hn Hu Hu0 Hq Ht Hms. destruct (redis_Enqueue b i now j db Hq Ht) as (ukey & ttl & st & Hkey & ->).
  rewrite Hu, (proj2 (String.eqb_neq _ _) Hu0) in Hkey. destruct Hkey as [-> ->]. cbv zeta.
  match goal with |- context [Run now ?p db] =>
    assert (run_prog (documented now) p (view db) = (view db, Some [RInt 0; RBulk id])) as HE
      by (by apply run_enqueue_held; [|eapply keyed_holder])
  end.
  destruct (Run_doc _ _ _ _ _ HE) as (db' & -> & Hv). apply (inj view) in Hv as ->.
  destruct (filled_fields i j) as (_ & _ & _ & _ & _ & F6 & _). by rewrite F6, Hu.
Qed.

(** A job that is accepted takes its key. *)
Lemma Enqueue_takes (db db' : DB) i now j j' :
  Enqueue b i now (Some j) db = (db', j', None) → UniqueKey j ≠ "" → 0 < unique_ms j →
  keyed b db' (UniqueKey j) (assigned_id i j) (UnixMilli now + unique_ms j).
Proof.
  intros HE Hu Hms. destruct (decide (Queue j = "")) as [Hq|Hq]; [unfold Enqueue in HE; by rewrite Hq in HE|].
  destruct (decide (Type_ j = "")) as [Ht|Ht].
  { unfold Enqueue in HE. by rewrite (proj2 (String.eqb_neq _ _) Hq), Ht in HE. }
  destruct (redis_Enqueue b i now j db Hq Ht) as (ukey & ttl & st & Hkey & E). rewrite E in HE. clear E.
  rewrite (proj2 (String.eqb_neq _ _) Hu) in Hkey. destruct Hkey as [-> ->].
  destruct (filled_fields i j) as (F1 & _). rewrite <- F1. cbv zeta in HE.
  match type of HE with context [Run now ?p db] => pose proof (Run_view now p db) as HR; destruct (Run now p db) as [db1 r] end.
  unfold enqueue_lua in HR. rewrite run_clock in HR. cbv zeta in HR. rewrite bool_decide_eq_true_2 in HR by lia.
  cbn [run_prog documented] in HR. rewrite bool_decide_eq_false_2 in HR by lia.
  destruct (live now (view db) (key b (NUnique (UniqueKey j)))) as [[v e]|] eqn:Hl.
  - cbn [is_nil run_prog documented] in HR. rewrite Hl in HR. destruct v; cbn in HR; by simplify_eq.
  - cbn [is_nil] in HR. match type of HR with run_prog _ ?p ?ks = _ => pose proof (run_frame now (key b (NUnique (UniqueKey j))) p ks) as HF end.
    rewrite HR in HF. assert (db1 = db') as <-.
    { destruct r as [[|r0 rs]|]; [done| |done]. by destruct (bool_decide (toInt64 r0 = 0)); simplify_eq. }
    unfold keyed. cbn [fst] in HF. rewrite HF.
    + apply lookup_insert_eq.
    + eapply prog_ok_avoids; [|apply store_ok]. by intros [].
Qed.

Lemma rexec_keyed now o (db : DB) u id until :
  keyed b db u id until → UnixMilli now ≤ until →
  keyed b (rexec b now o db) u id until.
Proof.
  intros Hk Hn. pose proof (rexec_reaches b now o db) as (_ & HR & _).
  assert (¬ op_keys o (NUnique u) → keyed b (rexec b now o db) u id until) as Hframe by (intros Hno; unfold keyed; by rewrite HR).
  destruct o; cbn [op_keys] in Hframe; try (apply Hframe; by intros []); try (by apply Hframe);
    try (apply Hframe; unfold ack_key; cbn; naive_solver).
  destruct j as [j'|]; [|done]. destruct (decide (UniqueKey j' ≠ "" ∧ u = UniqueKey j' ∧ 0 < unique_ms j')) as [(Hu & -> & Hms)|Hno].
  - cbn [rexec]. destruct (decide (Queue j' = "")) as [Hq|Hq]; [unfold Enqueue; by rewrite Hq|].
    destruct (decide (Type_ j' = "")) as [Ht|Ht]; [unfold Enqueue; by rewrite (proj2 (String.eqb_neq _ _) Hq), Ht|].
    by rewrite (Enqueue_held db _ id until NewID now j' Hk Hn eq_refl Hu Hq Ht Hms).
  - apply Hframe. intros [[]|(? & [= <-] & Hu & [= ->] & Hms)]. by apply Hno.
Qed.

Lemma rrun_keyed tr (db : DB) u id until :
  keyed b db u id until → Forall (λ e, UnixMilli e.1 ≤ until) tr → keyed b (rrun b tr db) u id until.
Proof.
  revert db. induction tr as [|[now o] tr IH]; intros db Hk; [done|]. intros [Hn Hall]%Forall_cons.
  apply IH; [by apply rexec_keyed|done].
Qed.

(** A key that nobody holds any more is free, and one that is not to be held is not looked at. *)
Lemma Enqueue_accepted (db : DB) i now j :
  redis_inv b db → sane b now (REnqueue i (Some j)) db → Queue j ≠ "" → Type_ j ≠ "" →
  (0 < unique_ms j → holder b now (view db) (UniqueKey j) = None) → (Enqueue b i now (Some j) db).2 = None.
Proof.
  intros HI (Hn & Hl & Hid & Hgo) Hq Ht Hh. destruct (redis_Enqueue b i now j db Hq Ht) as (ukey & ttl & st & Hkey & ->).
  destruct (filled_fields i j) as (F1 & _). pose proof (filled_storable i j Hid Hq Ht Hgo) as Hso. rewrite <- F1 in *. cbv zeta.
  pose proof (run_enqueue b now (view db) (filled i j) ukey ttl HI Hl Hso Hn) as HE. cbv zeta in HE.
  assert ((if bool_decide (ttl > 0) then holder b now (view db) ukey else None) = None) as E.
  { case_bool_decide; [|done]. destruct (String.eqb (UniqueKey j) ""); [lia|]. destruct Hkey as [-> ->]. apply Hh. lia. }
  rewrite E in HE. destruct HE as (ks' & HE & _). destruct (Run_doc _ _ _ _ _ HE) as (db' & -> & _). done.
Qed.

(** ** Lemmas: reports *)

(** A report that the server accepted has released the job. *)
Lemma report_releases now o (db : DB) w id :
  redis_inv b db → reports w id o → told b now o db = None → ¬ holds (redis_job b) (rexec b now o db) w id.
Proof.
  intros HI Ho Ht (j & Hj & Ha & Hw). destruct Ho as [->|[(t & r & ->)|[r ->]]]; cbn [told rexec] in *.
  - pose proof (redis_law_ack b w id now db HI) as HL. destruct (Ack b w id now db) as [db' err]. cbn in *. subst.
    destruct HL as (_ & _ & Hc & _). apply Hc in Hj. by rewrite Ha in Hj.
  - pose proof (redis_law_nack b w id t r now db HI) as HL. destruct (Nack b w id t r now db) as [db' err]. cbn in *. subst.
    destruct HL as (_ & _ & (j1 & j2 & _ & Hj2 & _ & _ & _ & _ & _ & Hst) & _). rewrite Hj2 in Hj. injection Hj as ->.
    rewrite Ha in Hst. by destruct (Exhausted j1).
  - pose proof (redis_law_kill b w id r now db HI) as HL. destruct (Kill b w id r now db) as [db' err]. cbn in *. subst.
    destruct HL as (_ & _ & (j1 & j2 & _ & Hj2 & _ & _ & _ & _ & _ & Hst) & _). rewrite Hj2 in Hj. injection Hj as ->.
    by rewrite Ha in Hst.
Qed.

(** One by a worker without the lease is refused. *)
Lemma report_refused now o (db : DB) w id :
  redis_inv b db → reports w id o → ¬ holds (redis_job b) db w id →
  rexec b now o db = db ∧ ∃ err, told b now o db = Some err ∧ (Is err ErrLeaseLost || Is err ErrJobNotFound) = true.
Proof.
  intros HI Ho Hno. destruct (fenced_reports b db w id now HI Hno) as (err & His & HA & HN & HK).
  destruct Ho as [->|[(t & r & ->)|[r ->]]]; cbn [told rexec]; rewrite ?HA, ?HN, ?HK; (split; [done|by exists err]).
Qed.

(** A lease is lost for good, short of a claim that is given the job. *)
Lemma rrun_released tr (db : DB) w id :
  redis_inv b db → sane_run b tr db → along b (λ now o db, ¬ claims_job b w id now o db) tr db →
  ¬ holds (redis_job b) db w id → ¬ holds (redis_job b) (rrun b tr db) w id.
Proof.
  revert db. induction tr as [|[now o] tr IH]; intros db HI; [done|]. intros [Hs Htr] [Hc Hal] Hno.
  apply IH; [by apply rexec_inv|done|done|]. intros Hh. apply Hno. by eapply rexec_held.
Qed.

(** ** Lemmas: claims *)

(** A lease that is neither taken again nor renewed is as it was. *)
Lemma rrun_held tr (db : DB) w id :
  redis_inv b db → sane_run b tr db → along b (λ now o db, ¬ claims_job b w id now o db ∧ ¬ renews w id o) tr db →
  holds (redis_job b) (rrun b tr db) w id →
  holds (redis_job b) db w id ∧ redis_job b (rrun b tr db) id = redis_job b db id.
Proof.
  revert db. induction tr as [|[now o] tr IH]; intros db HI; [done|]. intros [Hs Htr] [[Hc Hr] Hal] Hh.
  destruct (IH _ (rexec_inv b now o db HI Hs) Htr Hal Hh) as [Hh1 E1].
  destruct (rexec_held b now o db w id HI Hs Hc Hh1) as [Hh0 [E0|Hr']]; [|done]. split; [done|].
  change (rrun b ((now, o) :: tr) db) with (rrun b tr (rexec b now o db)). congruence.
Qed.

(** A claim with no time to work is refused. *)
Lemma claim_positive c now (db db' : DB) j : Dequeue b c now db = (db', Ok j) → 0 < VisibilityTimeout c.
Proof. unfold Dequeue. destruct (String.eqb _ _); [done|]. case_bool_decide; [done|]. lia. Qed.

Lemma sane_run_snoc tr (db : DB) now o :
  sane_run b tr db → sane b now o (rrun b tr db) → sane_run b (tr ++ [(now, o)]) db.
Proof. revert db. induction tr as [|[now1 o1] tr IH]; intros db; [by split|]. intros [Hs Htr] Ho. split; [done|by apply IH]. Qed.

(** The sweep of one queue leaves the active sets of the others. *)
Lemma reap_step_active q q' limit now (db : DB) :
  redis_inv b db → 0 < limit → q ≠ q' →
  zs b (view (ReapDetail b q limit now db).1) (NActive q') = zs b (view db) (NActive q').
Proof.
  intros HI Hl Hne. pose proof (ReapDetail_spec b q limit now db HI Hl) as HR. cbv zeta in HR.
  pose proof (λ id, reap_step_job b q limit now db id HI Hl) as Hstep.
  destruct (ReapDetail b q limit now db) as [db' r]. destruct HR as (_ & HI' & _). cbn [fst] in *.
  apply map_eq. intros id. apply option_eq. intros d. rewrite !active_member by done.
  destruct (Hstep id) as [->|(j & Hj & Ha & HQ & ->)]; [done|]. rewrite Hj. split.
  - intros (? & [= <-] & Hs & _). by apply swept_not_active in Hs.
  - intros (? & [= <-] & _ & HQ' & _). congruence.
Qed.

(** A job whose lease has run out is recovered by a sweep that covers its queue. *)
Lemma reap_sweeps queues limit now total (db : DB) id j :
  redis_inv b db → 0 < limit → redis_job b db id = Some j → State_ j = StateActive → Queue j ∈ queues →
  msFromTime (Deadline j) ≤ UnixMilli now →
  Z.of_nat (length (in_score_order (zs b (view db) (NActive (Queue j))) (UnixMilli now))) ≤ limit →
  redis_job b (reap_queues b queues limit now total db).1 id = Some (swept j).
Proof.
  intros HI Hl Hj Ha Hq Hd Hlen. revert db total HI Hj Hlen. induction queues as [|q queues IH]; [by apply elem_of_nil in Hq|].
  intros db total HI Hj Hlen. cbn [reap_queues].
  pose proof (ReapDetail_spec b q limit now db HI Hl) as HR. cbv zeta in HR.
  pose proof (reap_step_job b q limit now db id HI Hl) as Hstep. pose proof (reap_step_active q (Queue j) limit now db HI Hl) as Hzs.
  destruct (ReapDetail b q limit now db) as [db1 r1]. destruct HR as (-> & HI1 & Hall). cbn [fst] in *.
  destruct (decide (q = Queue j)) as [->|Hne].
  - assert (redis_job b db1 id = Some (swept j)) as Hs.
    { rewrite Hall, decide_True, Hj; [done|]. unfold taken. rewrite take_ge by lia.
      apply list_elem_of_fmap. exists (id, msFromTime (Deadline j)). split; [done|].
      apply in_score_order_spec. split; [|done]. apply active_member; [done|by exists j]. }
    match goal with |- context [reap_queues b queues limit now ?t db1] => pose proof (reap_queues_spec b queues limit now t db1 HI1 Hl) as HR;
      destruct (reap_queues b queues limit now t db1) as [db' r] end.
    destruct HR as (_ & _ & HR). cbn [fst]. destruct (HR id) as [->|(j' & Hj' & Ha' & _)]; [done|].
    rewrite Hs in Hj'. injection Hj' as <-. by apply swept_not_active in Ha'.
  - apply elem_of_cons in Hq as [E|Hq]; [congruence|]. apply IH; try done; [|by rewrite Hzs].
    destruct Hstep as [->|(j' & Hj' & _ & HQ & _)]; [done|congruence].
Qed.
End lemmas.

(** ** Properties *)

Section properties.
Context {DB : Type} `{RedisLaws DB} (b : settings).

(** C14: a unique key admits one job at a time on Redis, among jobs whose key has a time to live
    that Redis can keep, the default of an hour or at least a millisecond. From the Enqueue
    that took the key until its time to live has run out, whatever calls anyone makes in the
    meantime, repetitions of earlier ones included, every Enqueue of such a job under that
    key, with a queue and a type, is refused with the key and the identifier of the job that
    has it, and changes nothing; sending the very call again whose reply was lost is one of
    them. Once the time to live is over the key is free: as long as the instants and
    numbers of the calls were within range and none reused the identifier of a live job, a
    job under it is then accepted. And a job whose time to live
    is positive but below a millisecond is accepted even while the key is held: its key is
    not looked at. *)
Theorem redis_unique_enforced (db db1 : DB) i now j j' tr :
  Enqueue b i now (Some j) db = (db1, j', None) → UniqueKey j ≠ "" → whole_ttl j →
  let until := UnixMilli now + unique_ms j in
  Forall (λ e, UnixMilli e.1 ≤ until) tr →
  let db2 := rrun b tr db1 in
  ∀ i2 j2 now2, UniqueKey j2 = UniqueKey j → Queue j2 ≠ "" → Type_ j2 ≠ "" →
    (whole_ttl j2 → UnixMilli now2 ≤ until →
       Enqueue b i2 now2 (Some j2) db2 = (db2, Some (filled i2 j2), Some (DuplicateError (UniqueKey j) (assigned_id i j)))) ∧
    (redis_reachable b db → sane b now (REnqueue i (Some j)) db → sane_run b tr db1 →
     sane b now2 (REnqueue i2 (Some j2)) db2 →
       until < UnixMilli now2 ∨ ¬ whole_ttl j2 → (Enqueue b i2 now2 (Some j2) db2).2 = None).
Proof.
  intros HE Hu Hw until Hle db2 i2 j2 now2 Hu2 Hq Ht.
  pose proof (Enqueue_takes b db db1 i now j j' HE Hu (unique_ms_pos j Hw)) as Hk.
  pose proof (rrun_keyed b tr db1 _ _ _ Hk Hle) as Hk2. fold db2 in Hk2. split.
  - intros Hw2%unique_ms_pos Hn. by apply (Enqueue_held b db2 (UniqueKey j) _ until).
  - intros HR Hs Htr Hs2 Hfree. apply Enqueue_accepted; try done.
    + apply sane_run_inv; [|done]. replace db1 with (rexec b now (REnqueue i (Some j)) db) by (cbn [rexec]; by rewrite HE).
      apply rexec_inv; [by apply reachable_inv|done].
    + intros Hms2. destruct Hfree as [Hn|Hw2%unique_ms_zero]; [|lia].
      unfold holder, live. rewrite Hu2, Hk2. by rewrite bool_decide_eq_true_2 by lia.
Qed.

(** C15: reporting on a job is idempotent on Redis. Once the server has accepted a report of a
    worker on a job, every further report of that worker on that job, the repetition of the
    one whose reply was lost among them, changes nothing and is told that the lease is gone,
    whatever calls anyone makes in between, until that worker is given the job again. *)
Theorem report_repeated (db : DB) w id now o tr now' o' :
  redis_reachable b db → sane b now o db → reports w id o → told b now o db = None →
  let db1 := rexec b now o db in
  sane_run b tr db1 → along b (λ now o db, ¬ claims_job b w id now o db) tr db1 → reports w id o' →
  let db2 := rrun b tr db1 in
  rexec b now' o' db2 = db2 ∧
  ∃ err, told b now' o' db2 = Some err ∧ (Is err ErrLeaseLost || Is err ErrJobNotFound) = true.
Proof.
  intros HI%reachable_inv Hs Ho Ht db1 Htr Hal Ho' db2. pose proof (rexec_inv b now o db HI Hs) as HI1.
  apply (report_refused b now' o' db2 w id); [by apply sane_run_inv|done|].
  apply rrun_released; [done|done|done|]. by apply report_releases.
Qed.

(** C16: a claim whose reply never reached the worker is undone. A worker that does not know of
    the job neither renews its lease nor reports on it, and is not given it again while it is
    active. Whatever calls anyone makes after the claim, a sweep that covers the queue, at an
    instant past the deadline and with a limit for the jobs that are due, leaves the worker
    without the lease; if it still had it, the job is pending again with one recovery more,
    or in the dead-letter set when that was its last attempt; and as long as nobody has
    acknowledged the job it is stored, not completed, with the task it was enqueued with. *)
Theorem lost_claim_recovered (db db1 : DB) c j now tr queues limit now' :
  redis_reachable b db → sane b now (RDequeue c) db → Dequeue b c now db = (db1, Ok j) →
  sane_run b tr db1 →
  along b (λ now o db, ¬ claims_job b (WorkerID c) (ID j) now o db ∧ ¬ renews (WorkerID c) (ID j) o) tr db1 →
  let db2 := rrun b tr db1 in
  clock_ok now' → UnixMilli now + Milliseconds (VisibilityTimeout c) ≤ UnixMilli now' →
  Queue j ∈ queues → 0 < limit →
  Z.of_nat (length (in_score_order (zs b (view db2) (NActive (Queue j))) (UnixMilli now'))) ≤ limit →
  let db3 := (Reap b queues limit now' db2).1 in
  ¬ holds (redis_job b) db3 (WorkerID c) (ID j) ∧
  (holds (redis_job b) db2 (WorkerID c) (ID j) → redis_job b db3 (ID j) = Some (swept j)) ∧
  (Forall (λ e, acks (ID j) e.2 = false) tr →
     ∃ j', redis_job b db3 (ID j) = Some j' ∧ State_ j' ≠ StateCompleted ∧ same_task j j').
Proof.
  intros HI%reachable_inv Hs HD Htr Hal db2 Hn' Hdl HQ Hlim Hlen db3.
  assert (db1 = rexec b now (RDequeue c) db) as E1 by (cbn [rexec]; by rewrite HD).
  assert (redis_inv b db1) as HI1 by (rewrite E1; by apply rexec_inv).
  assert (redis_inv b db2) as HI2 by (by apply sane_run_inv).
  destruct Hs as [Hn Hvt]. pose proof (redis_Dequeue_spec b c now db HI Hn Hvt) as HL. rewrite HD in HL.
  destruct HL as (j0 & _ & _ & Ej & _ & Hj1 & _). assert (ID j = ID j0) as Eid by (by rewrite Ej). rewrite <- Eid in Hj1.
  assert (State_ j = StateActive ∧ msFromTime (Deadline j) ≤ UnixMilli now') as [Ha Hd].
  { rewrite Ej. split; [done|]. cbn. rewrite ms_time; [done|]. pose proof (clock_ms now Hn).
    pose proof (ms_of_duration _ (conj (claim_positive b c now db db1 j HD) Hvt)). lia. }
  assert (holds (redis_job b) db2 (WorkerID c) (ID j) → redis_job b db3 (ID j) = Some (swept j)) as Hsw.
  { intros Hh. destruct (rrun_held b tr db1 _ _ HI1 Htr Hal Hh) as [_ E2]. fold db2 in E2. unfold db3, Reap.
    rewrite bool_decide_eq_false_2 by lia. apply reap_sweeps; try done. by rewrite E2. }
  assert (db3 = rexec b now' (RReap queues limit) db2) as E3 by done. split_and!; [|done|].
  - intros Hh3. assert (holds (redis_job b) db2 (WorkerID c) (ID j)) as Hh2.
    { rewrite E3 in Hh3. apply (rexec_held b now' (RReap queues limit)) in Hh3; [apply Hh3|done|done|]. by intros (? & ? & [=] & _). }
    destruct Hh3 as (j3 & Hj3 & Ha3 & _). rewrite (Hsw Hh2) in Hj3. injection Hj3 as <-. by apply swept_not_active in Ha3.
  - intros Hacks. destruct (rrun_kept b (tr ++ [(now', RReap queues limit)]) db1 (ID j) j) as (j' & Hj' & Hc' & Ht' & _); try done.
    + by apply sane_run_snoc.
    + by rewrite Ha.
    + apply Forall_app. split; [done|]. by repeat constructor.
    + exists j'. split; [|done]. rewrite <- Hj'. unfold rrun. by rewrite foldl_app.
Qed.
End properties.

(** ** A corner case *)

(** Without a unique key, repeating an Enqueue is not harmless. The first call puts the
    identifier it generated into the caller's envelope; the second stores the record again
    and appends the identifier to the ready list again, without looking whether the job is
    already there. Two workers can then claim the job, one after the other, and the first
    loses its lease to the second while it runs. *)
Theorem enqueue_repeated :
  let again := default demo_task (Enqueue demo_settings "a" (at_s 0) (Some demo_task) (∅ : keyspace)).1.2 in
  let db := (Enqueue demo_settings "b" (at_s 1) (Some again) demo1).1.1 in
  (Enqueue demo_settings "b" (at_s 1) (Some again) demo1).2 = None ∧ rl demo_settings db "mail" = ["a"; "a"] ∧
  let claim w now db := Dequeue demo_settings (demo_opts w) now db in
  let db2 := (claim "w" (at_s 2) db).1 in
  let db3 := (claim "v" (at_s 3) db2).1 in
  let given r := match r with Ok j => Some (ID j) | Err _ => None end in
  given (claim "w" (at_s 2) db).2 = Some "a" ∧ given (claim "v" (at_s 3) db2).2 = Some "a" ∧
  from_option (λ err, Is err ErrLeaseLost) false (Ack demo_settings "w" "a" (at_s 4) db3).2 = true.
Proof. cbv zeta. split_and!; vm_compute; reflexivity. Qed.

(** ** Witnesses *)

Definition demo_once : Job := set_Unique "welcome:7" 0 demo_task.
Definition demo_keyed : keyspace := rexec demo_settings (at_s 0) (REnqueue "a" (Some demo_once)) ∅.

Lemma redis_unique_enforced_witness :
  Enqueue demo_settings "b" (at_s 5) (Some demo_once) (rrun demo_settings [(at_s 1, RDequeue (demo_opts "w"))] demo_keyed) =
  (rrun demo_settings [(at_s 1, RDequeue (demo_opts "w"))] demo_keyed, Some (filled "b" demo_once),
   Some (DuplicateError "welcome:7" "a")).
Proof.
  refine (proj1 (redis_unique_enforced demo_settings (∅ : keyspace) demo_keyed "a" (at_s 0) demo_once
    (Some (set_State StatePending (set_ID "a" demo_once))) [(at_s 1, RDequeue (demo_opts "w"))] _ _ _ _
    "b" demo_once (at_s 5) eq_refl _ _) _ _).
  - vm_compute. reflexivity.
  - discriminate.
  - left. vm_compute. discriminate.
  - constructor; [vm_compute; discriminate|constructor].
  - discriminate.
  - discriminate.
  - left. vm_compute. discriminate.
  - vm_compute. discriminate.
Defined.

Lemma demo_ack_sane : sane demo_settings (at_s 2) (RAck "w" "a") demo2.
Proof. exact (conj (demo_clock 2 ltac:(lia)) I). Qed.

Lemma report_repeated_witness :
  rexec demo_settings (at_s 4) (RAck "w" "a") (rrun demo_settings [(at_s 3, RReap ["mail"] 10)] demo3) =
  rrun demo_settings [(at_s 3, RReap ["mail"] 10)] demo3.
Proof.
  apply (report_repeated demo_settings demo2 "w" "a" (at_s 2) (RAck "w" "a") [(at_s 3, RReap ["mail"] 10)] (at_s 4) (RAck "w" "a")
    demo_reach2 demo_ack_sane).
  - by left.
  - vm_compute. reflexivity.
  - exact (conj (conj (demo_clock 3 ltac:(lia)) I) I).
  - split; [|exact I]. intros (c & j & [=] & _).
  - by left.
Defined.

Lemma lost_claim_recovered_witness :
  redis_job demo_settings (Reap demo_settings ["mail"] 10 (at_s 12) demo2).1 "a" = Some (swept demo_running).
Proof.
  assert (redis_job demo_settings demo2 "a" = Some demo_running) as Hj by (vm_compute; reflexivity).
  refine (proj1 (proj2 (lost_claim_recovered demo_settings demo1 demo2 (demo_opts "w") demo_running (at_s 1) [] ["mail"] 10 (at_s 12)
    demo_reach1 _ _ _ _ _ _ _ _ _)) _).
  - exact (conj (demo_clock 1 ltac:(lia)) eq_refl).
  - vm_compute. reflexivity.
  - exact I.
  - exact I.
  - exact (demo_clock 12 ltac:(lia)).
  - vm_compute. discriminate.
  - left.
  - reflexivity.
  - vm_compute. discriminate.
  - exists demo_running. split; [exact Hj|]. split; vm_compute; reflexivity.
Defined.
