(* ===== verification/Cleanup.v ===== *)
(** * Opening a broker and removing the keys of a run (examples/)

    The choice of a broker, and the loop that scans a server for the keys with a prefix and
    deletes what it finds. SCAN is a parameter, with what Redis documents of it: it changes
    nothing, returns only keys that match, over a full iteration, from cursor 0 back to 0,
    returns every matching key that is there from beginning to end, and an iteration comes to
    its end if the number of keys is bounded. A scan and a deletion can fail; the loop stops at
    the first and drops the error of the second. *)
From Stdlib Require Import Ascii.
From S2P Require Import Prelude GoBase Job Interface BrokerAPI RedisServer RedisScripts Redis RedisProps.

(** ** Opening a broker (examples/scheduled and worker) *)

Inductive chosen := InMemory | OnRedis (b : settings).

(** What is done to the connection and to the server. *)
Inductive client_effect := Connected | ClientClosed | KeysDeleted (prefix : string).
#[export] Instance client_effect_eq_dec : EqDecision client_effect.
Proof. solve_decision. Defined.

Section opening.
(** REDIS_ADDR, the error of the ping, the files of the scripts. *)
Context (addr : string) (ping : option error) (ReadFile : string → res string).

(** What happens at once, and the broker, its description and what the cleanup does. *)
Definition open_with (prefix : string) (cleanup : list client_effect)
  : list client_effect * res (chosen * string * list client_effect) :=
  if String.eqb addr "" then ([], Ok (InMemory, "in-memory (set REDIS_ADDR to use Redis)", []))
  else
    match ping with
    | Some err => ([Connected; ClientClosed], Err (Errorf "connect to redis at %s: %w" [addr] [err]))
    | None =>
        match NewBroker ReadFile true [WithPrefix prefix] with
        | Err err => ([Connected; ClientClosed], Err err)
        | Ok b => ([Connected], Ok (OnRedis b, "redis at " +:+ addr, cleanup))
        end
    end.
Definition sched_openBroker (UnixNano : Z) :=
  let prefix := "taskq:sched:" +:+ pretty UnixNano in open_with prefix [KeysDeleted prefix; ClientClosed].
Definition demo_openBroker := open_with "taskq:demo" [ClientClosed].
End opening.

(** ** The loop *)

Section cleanup.
Context {DB : Type} `{RedisServer DB}.
(** SCAN at an instant: the cursor, the prefix of the pattern [prefix*], the count; an error, or
    keys and the next cursor. *)
Context (SCAN : Z → Z → string → Z → DB → DB * option (list string * Z)).

(** DEL of several keys, as the server executes it. *)
Definition del_all (now : Z) (keys : list string) (db : DB) : DB :=
  foldl (λ db k, (redis_call now (DEL k) db).1) db keys.

(** The call of it: it can fail before the server executes it, [executed] being false then, and
    an error is dropped in any case. *)
Definition Del (executed : bool) (now : Z) (keys : list string) (db : DB) : DB :=
  if executed then del_all now keys db else db.

(** The loop with a cursor: whether it got to the end, [None] if [fuel] rounds do not suffice;
    the [i]-th round reads the clock [clk i], and [dels i] is whether the server executes its
    deletion. No other client acts between the calls. *)
Fixpoint scan_loop (count : Z) (prefix : string) (clk : nat → Z) (dels : nat → bool) (fuel i : nat) (cursor : Z) (db : DB)
  : DB * option bool :=
  match fuel with
  | O => (db, None)
  | S fuel =>
      match SCAN (clk i) cursor prefix count db with
      | (db, None) => (db, Some false)
      | (db, Some (keys, next)) =>
          let db := if bool_decide (0 < length keys)%nat then Del (dels i) (clk i) keys db else db in
          if bool_decide (next = 0) then (db, Some true) else scan_loop count prefix clk dels fuel (S i) next db
      end
  end.
Definition scanDelete := scan_loop 500.
Definition chaos_cleanup := scan_loop 500.
Definition bench_cleanup := scan_loop 1000.

(** ** What Redis documents of SCAN *)

(** A prefix in which no character is special in a pattern. *)
Definition plain (prefix : string) : Prop :=
  ∀ c, c ∈ String.list_ascii_of_string prefix → c ∉ ["*"; "?"; "["; "\"]%char.

(** A full iteration: what each call finds and returns. *)
Inductive iterates `{!RedisLaws DB} (count : Z) (prefix : string) : Z → list (Z * DB * list string) → Prop :=
| it_last now cursor db db' keys :
    SCAN now cursor prefix count db = (db', Some (keys, 0)) → iterates count prefix cursor [(now, db, keys)]
| it_more now cursor db db' keys next rest :
    SCAN now cursor prefix count db = (db', Some (keys, next)) → next ≠ 0 → iterates count prefix next rest →
    iterates count prefix cursor ((now, db, keys) :: rest).

(** Calls of an iteration that need not be full: the servers they find. *)
Inductive scans `{!RedisLaws DB} (count : Z) (prefix : string) : Z → list DB → Prop :=
| scans_none cursor : scans count prefix cursor []
| scans_more now cursor db db' keys next rest :
    SCAN now cursor prefix count db = (db', Some (keys, next)) → (next = 0 → rest = []) → scans count prefix next rest →
    scans count prefix cursor (db :: rest).

Record scan_documented `{!RedisLaws DB} : Prop := mkScanDocumented {
  scan_reads now cursor prefix count db db' r : SCAN now cursor prefix count db = (db', r) → db' = db;
  scan_matches now cursor prefix count db db' keys next k :
    plain prefix → SCAN now cursor prefix count db = (db', Some (keys, next)) → k ∈ keys → String.prefix prefix k = true;
  scan_full count prefix l k :
    plain prefix → iterates count prefix 0 l → String.prefix prefix k = true →
    (∀ now db keys, (now, db, keys) ∈ l → is_Some (live now (view db) k)) → ∃ now db keys, (now, db, keys) ∈ l ∧ k ∈ keys;
  scan_ends count prefix N :
    ∃ most, ∀ l, scans count prefix 0 l → Forall (λ db, (size (view db) ≤ N)%nat) l → (length l ≤ most)%nat
}.
End cleanup.

(** ** Lemmas *)

Lemma live_earlier t t' ks k : t ≤ t' → is_Some (live t' ks k) → is_Some (live t ks k).
Proof.
  intros Ht. unfold live. destruct (ks !! k) as [[v [e|]]|]; [|by eauto|by intros []].
  assert (UnixMilli t ≤ UnixMilli t') by (unfold UnixMilli; apply Z.div_le_mono; unfold_durations; lia).
  destruct (bool_decide_reflect (e < UnixMilli t')); [by intros []|]. rewrite bool_decide_eq_false_2 by lia. by eauto.
Qed.

Section cleanup_lemmas.
Context {DB : Type} `{RedisLaws DB}.
Context (SCAN : Z → Z → string → Z → DB → DB * option (list string * Z)) (Hscan : scan_documented SCAN).

Lemma del_all_view now keys (db : DB) k :
  view (del_all now keys db) !! k = if decide (k ∈ keys) then None else view db !! k.
Proof.
  unfold del_all. revert db. induction keys as [|k' keys IH]; intros db; cbn [foldl]; [by rewrite decide_False by apply not_elem_of_nil|].
  rewrite IH. pose proof (redis_documented now (DEL k') db) as HD. destruct (redis_call now (DEL k') db) as [db1 r].
  cbn [documented fst] in *. injection HD as <- _.
  destruct (decide (k ∈ keys)) as [Hk|Hk]; [by rewrite decide_True by (by right)|].
  destruct (decide (k' = k)) as [->|Hne].
  - rewrite decide_True by (by left). apply lookup_delete_eq.
  - rewrite decide_False by (by intros [?|?]%elem_of_cons). by apply lookup_delete_ne.
Qed.

Lemma Del_view e now keys (db : DB) k :
  view (Del e now keys db) !! k = if decide (e = true ∧ k ∈ keys) then None else view db !! k.
Proof.
  unfold Del. destruct e; [rewrite del_all_view|by rewrite decide_False by (by intros [])].
  destruct (decide (k ∈ keys)); [by rewrite decide_True|by rewrite decide_False by (by intros [])].
Qed.

(** All that an iteration returned. *)
Definition returned (l : list (Z * DB * list string)) : list string := concat (snd <$> l).

(** The rounds of the loop: from round [i] with a cursor and a server it gets to round [j] with
    another. *)
Inductive gets_to (count : Z) (prefix : string) (clk : nat → Z) (dels : nat → bool) : nat → Z → DB → nat → Z → DB → Prop :=
| gets_here i cursor db : gets_to count prefix clk dels i cursor db i cursor db
| gets_on i cursor db keys next j cursor' db' :
    (SCAN (clk i) cursor prefix count db).2 = Some (keys, next) → next ≠ 0 →
    gets_to count prefix clk dels (S i) next (Del (dels i) (clk i) keys db) j cursor' db' →
    gets_to count prefix clk dels i cursor db j cursor' db'.

(** A key that the scan of a round of the loop returned, the deletion of which failed. *)
Definition missed count prefix clk dels i cursor (db : DB) (k : string) : Prop :=
  ∃ j cursor' d keys next, gets_to count prefix clk dels i cursor db j cursor' d ∧ dels j = false ∧
    (SCAN (clk j) cursor' prefix count d).2 = Some (keys, next) ∧ k ∈ keys.

Lemma Del_guarded e now keys (db : DB) :
  (if bool_decide (0 < length keys)%nat then Del e now keys db else db) = Del e now keys db.
Proof. destruct keys; [by destruct e|done]. Qed.

Lemma elem_of_returned l k : k ∈ returned l ↔ ∃ now d keys, (now, d, keys) ∈ l ∧ k ∈ keys.
Proof.
  unfold returned. induction l as [|[[now d] keys] l IH]; cbn.
  - rewrite elem_of_nil. split; [done|]. intros (? & ? & ? & Hin & _). by apply elem_of_nil in Hin.
  - rewrite elem_of_app, IH. split.
    + intros [Hk|(now' & d' & keys' & Hin & Hk)]; [exists now, d, keys; split; [by left|done]|].
      exists now', d', keys'. split; [by right|done].
    + intros (now' & d' & keys' & [[= -> -> ->]|Hin]%elem_of_cons & Hk); [by left|right]. by exists now', d', keys'.
Qed.

(** A loop that gets to the end is a full iteration. Of each key: it is gone, having been
    returned; or it is as it was all along, and was returned only where a deletion failed. *)
Lemma scan_loop_spec count prefix clk dels fuel i cursor (db db' : DB) :
  scan_loop SCAN count prefix clk dels fuel i cursor db = (db', Some true) →
  ∃ l, iterates SCAN count prefix cursor l ∧
    (∀ now d keys, (now, d, keys) ∈ l → ∃ m, now = clk m) ∧
    ∀ k, (k ∈ returned l ∧ view db' !! k = None) ∨
         (view db' !! k = view db !! k ∧ (∀ now d keys, (now, d, keys) ∈ l → view d !! k = view db !! k) ∧
          (k ∈ returned l → missed count prefix clk dels i cursor db k)).
Proof.
  revert i cursor db. induction fuel as [|fuel IH]; intros i cursor db; cbn [scan_loop]; [done|].
  destruct (SCAN (clk i) cursor prefix count db) as [db0 [[keys next]|]] eqn:HS; [|done].
  pose proof (scan_reads _ Hscan _ _ _ _ _ _ _ HS) as ->. cbv zeta. rewrite Del_guarded.
  pose proof (λ k, Del_view (dels i) (clk i) keys db k) as Hv.
  assert (∀ k, dels i ≠ true → k ∈ keys → missed count prefix clk dels i cursor db k) as Hmiss.
  { intros k Hd Hk. exists i, cursor, db, keys, next. rewrite HS. split_and!; [constructor|by destruct (dels i)|done|done]. }
  case_bool_decide as Hn.
  - intros [= <-]. subst next. exists [(clk i, db, keys)]. split_and!; [by eapply it_last| |].
    + intros now d ks Hin. apply list_elem_of_singleton in Hin. injection Hin as -> _ _. by exists i.
    + intros k. unfold returned. cbn. rewrite app_nil_r, Hv. destruct (decide (dels i = true ∧ k ∈ keys)) as [[_ ?]|Hno]; [by left|right].
      split_and!; [done| |intros Hk; apply Hmiss; [|done]; by intros Hd; apply Hno].
      intros now d ks Hin. apply list_elem_of_singleton in Hin. by injection Hin as _ -> _.
  - intros Hrest. destruct (IH _ _ _ Hrest) as (l & Hit & Hclk & Hk). exists ((clk i, db, keys) :: l).
    split_and!; [by eapply it_more| |].
    + intros now d ks [[= -> -> ->]|Hin]%elem_of_cons; [by exists i|by eapply Hclk].
    + intros k. unfold returned. cbn. rewrite elem_of_app. fold (returned l).
      destruct (Hk k) as [[Hr Hg]|(Hsame & Hall & Hr)]; [left; by split; [right|]|].
      rewrite Hv in Hsame, Hall. destruct (decide (dels i = true ∧ k ∈ keys)) as [[_ ?]|Hno]; [left; by split; [left|]|right].
      split_and!; [done| |].
      * intros now d ks [[= -> -> ->]|Hin]%elem_of_cons; [done|by eapply Hall].
      * intros [Hk'|Hk']; [apply Hmiss; [|done]; by intros Hd; apply Hno|].
        destruct (Hr Hk') as (j & c & d & ks & nx & Hto & Hrest'). exists j, c, d, ks, nx.
        split; [|done]. eapply gets_on; [by rewrite HS|done|done].
Qed.

(** One round leaves no more keys than there were. *)
Lemma del_all_size now keys (db : DB) : (size (view (del_all now keys db)) ≤ size (view db))%nat.
Proof.
  rewrite <- !size_dom. apply subseteq_size. intros k [v Hv]%elem_of_dom. rewrite del_all_view in Hv.
  apply elem_of_dom. destruct (decide (k ∈ keys)); [done|by exists v].
Qed.

Lemma Del_size e now keys (db : DB) : (size (view (Del e now keys db)) ≤ size (view db))%nat.
Proof. destruct e; [apply del_all_size|done]. Qed.

(** A loop that has not come to its end has made as many calls as it was allowed. *)
Lemma scan_loop_unfinished count prefix clk dels fuel i cursor (db db' : DB) N :
  scan_loop SCAN count prefix clk dels fuel i cursor db = (db', None) → (size (view db) ≤ N)%nat →
  ∃ l, scans SCAN count prefix cursor l ∧ Forall (λ d, (size (view d) ≤ N)%nat) l ∧ length l = fuel.
Proof.
  revert i cursor db. induction fuel as [|fuel IH]; intros i cursor db; cbn [scan_loop].
  - intros _ _. exists []. split_and!; [constructor|done|done].
  - destruct (SCAN (clk i) cursor prefix count db) as [db0 [[keys next]|]] eqn:HS; [|done].
    pose proof (scan_reads _ Hscan _ _ _ _ _ _ _ HS) as ->. cbv zeta. rewrite Del_guarded.
    case_bool_decide as Hn; [done|]. intros Hrest HN.
    destruct (IH _ _ _ Hrest) as (l & Hl & HF & Hlen); [by etrans; [apply Del_size|]|].
    exists (db :: l). split_and!; [by eapply scans_more|by constructor|by cbn; rewrite Hlen].
Qed.
(** One that fails has got to a round whose scan fails. *)
Lemma scan_loop_failed count prefix clk dels fuel i cursor (db db' : DB) :
  scan_loop SCAN count prefix clk dels fuel i cursor db = (db', Some false) →
  ∃ j cursor' d, gets_to count prefix clk dels i cursor db j cursor' d ∧ (SCAN (clk j) cursor' prefix count d).2 = None.
Proof.
  revert i cursor db. induction fuel as [|fuel IH]; intros i cursor db; cbn [scan_loop]; [done|].
  destruct (SCAN (clk i) cursor prefix count db) as [db0 [[keys next]|]] eqn:HS.
  - pose proof (scan_reads _ Hscan _ _ _ _ _ _ _ HS) as ->. cbv zeta. rewrite Del_guarded. case_bool_decide; [done|].
    intros HL. destruct (IH _ _ _ HL) as (j & c & d & Hto & HN). exists j, c, d. split; [|done].
    eapply gets_on; [by rewrite HS|done|done].
  - intros _. exists i, cursor, db. rewrite HS. split; [constructor|done].
Qed.

(** Keys without the prefix are left alone, also by a loop that fails. *)
Lemma scan_loop_kept count prefix clk dels fuel i cursor (db db' : DB) r k :
  plain prefix → scan_loop SCAN count prefix clk dels fuel i cursor db = (db', r) → String.prefix prefix k = false →
  view db' !! k = view db !! k.
Proof.
  intros Hp HL Hk. revert i cursor db HL. induction fuel as [|fuel IH]; intros i cursor db; cbn [scan_loop]; [by intros; simplify_eq|].
  destruct (SCAN (clk i) cursor prefix count db) as [db0 o] eqn:HS.
  pose proof (scan_reads _ Hscan _ _ _ _ _ _ _ HS) as ->. destruct o as [[keys next]|]; [|by intros; simplify_eq].
  cbv zeta. rewrite Del_guarded.
  assert (view (Del (dels i) (clk i) keys db) !! k = view db !! k) as Hv.
  { rewrite Del_view, decide_False; [done|]. intros [_ Hin].
    rewrite (scan_matches _ Hscan _ _ _ _ _ _ _ _ _ Hp HS Hin) in Hk. done. }
  case_bool_decide; [by intros; simplify_eq|]. intros HL. by rewrite (IH _ _ _ HL).
Qed.

Lemma iterates_matches count prefix cursor l k :
  plain prefix → iterates SCAN count prefix cursor l → k ∈ returned l → String.prefix prefix k = true.
Proof.
  intros Hp. induction 1 as [now cursor db db' keys HS|now cursor db db' keys next rest HS _ _ IH]; unfold returned; cbn.
  - rewrite app_nil_r. by eapply scan_matches.
  - intros [Hk|Hk]%elem_of_app; [by eapply scan_matches|by apply IH].
Qed.

(** What an iteration that got to its end has done. *)
Lemma scan_loop_clean count prefix clk dels fuel (db db' : DB) k t :
  plain prefix → (∀ i, clk i ≤ t) → scan_loop SCAN count prefix clk dels fuel 0 0 db = (db', Some true) →
  (String.prefix prefix k = true →
     live t (view db') k = None ∨ missed count prefix clk dels 0 0 db k ∧ view db' !! k = view db !! k) ∧
  (String.prefix prefix k = false → view db' !! k = view db !! k).
Proof.
  intros Hp Ht HL. destruct (scan_loop_spec _ _ _ _ _ _ _ _ _ HL) as (l & Hit & Hclk & Hk).
  split; intros Hpre; (destruct (Hk k) as [[Hr Hg]|(Hsame & Hall & Hr)]; [|]).
  - left. unfold live. by rewrite Hg.
  - destruct (live t (view db') k) as [x|] eqn:Hlive; [right|by left]. split; [|done]. apply Hr, elem_of_returned.
    eapply (scan_full _ Hscan); [done|exact Hit|done|]. intros now d keys Hin. destruct (Hclk _ _ _ Hin) as [m ->].
    apply (live_earlier _ t); [done|]. unfold live in Hlive |- *. rewrite (Hall _ _ _ Hin), <- Hsame, Hlive. by eexists.
  - rewrite (iterates_matches _ _ _ _ _ Hp Hit Hr) in Hpre. done.
  - done.
Qed.
End cleanup_lemmas.

(** ** Property *)

(** C32: a run leaves nothing behind and touches nothing else, if the server answers and nobody
    else uses it meanwhile. Whatever fails, the loop that cleans up comes to an end. Unless a
    scan failed, a key with the run's prefix that is left, from the last instant the loop
    read on, was returned by the scan of one of its rounds whose deletion the server did not
    execute, the error of which the code drops, and is as it was; so if all deletions were executed no
    such key is left. Every key without the prefix is as it was in any case. *)
Theorem cleanup_complete {DB} `{RedisLaws DB} SCAN count prefix clk dels (db : DB) t :
  scan_documented SCAN → plain prefix → (∀ i, clk i ≤ t) →
  ∃ most, ∀ fuel, (most < fuel)%nat →
  ∃ db' ended, scan_loop SCAN count prefix clk dels fuel 0 0 db = (db', Some ended) ∧
    (ended = false → ∃ i cursor d,
       gets_to SCAN count prefix clk dels 0 0 db i cursor d ∧ (SCAN (clk i) cursor prefix count d).2 = None) ∧
    (∀ k, String.prefix prefix k = false → view db' !! k = view db !! k) ∧
    (ended = true → ∀ k, String.prefix prefix k = true →
       live t (view db') k = None ∨ missed SCAN count prefix clk dels 0 0 db k ∧ view db' !! k = view db !! k) ∧
    (ended = true → (∀ i, dels i = true) → ∀ k, String.prefix prefix k = true → live t (view db') k = None).
Proof.
  intros Hscan Hp Ht. destruct (scan_ends _ Hscan count prefix (size (view db))) as [most Hmost].
  exists most. intros fuel Hfuel. destruct (scan_loop SCAN count prefix clk dels fuel 0 0 db) as [db' [ended|]] eqn:HL.
  - assert (ended = true → ∀ k, String.prefix prefix k = true →
      live t (view db') k = None ∨ missed SCAN count prefix clk dels 0 0 db k ∧ view db' !! k = view db !! k) as Hclean.
    { intros -> k. by eapply scan_loop_clean. }
    exists db', ended. split_and!; [done|intros ->; by eapply scan_loop_failed|intros k; by eapply scan_loop_kept|done|].
    intros He Hall k Hk. destruct (Hclean He k Hk) as [|[(i & _ & _ & _ & _ & _ & Hd & _) _]]; [done|]. by rewrite Hall in Hd.
  - exfalso. destruct (scan_loop_unfinished SCAN Hscan _ _ _ _ _ _ _ _ _ _ HL (Nat.le_refl _)) as (l & Hl & HF & Hlen).
    specialize (Hmost l Hl HF). lia.
Qed.

(** Connections are closed. If no broker is returned, a connection that was made is closed again;
    if one is, its cleanup ends by closing the connection, on Redis under the intended prefix. *)
Theorem open_closes addr ping ReadFile prefix cleanup done r :
  open_with addr ping ReadFile prefix (cleanup ++ [ClientClosed]) = (done, r) →
  match r with
  | Err _ => done = [Connected; ClientClosed] ∧ addr ≠ ""
  | Ok (InMemory, _, fin) => addr = "" ∧ done ++ fin = []
  | Ok (OnRedis b, _, fin) => Redis.prefix b = prefix ∧ done ++ fin = [Connected] ++ cleanup ++ [ClientClosed]
  end.
Proof.
  unfold open_with. destruct (String.eqb_spec addr "") as [->|Hne]; [by intros [= <- <-]|].
  destruct ping as [err|]; [by intros [= <- <-]|].
  unfold NewBroker. cbn [negb foldl WithPrefix Redis.prefix]. destruct (String.eqb prefix ""); [by intros [= <- <-]|].
  destruct (loadScripts ReadFile scriptNames); by intros [= <- <-].
Qed.

(** ** Witness *)

(** A server whose scan returns everything in one go. *)
Definition scan_all (now cursor : Z) (prefix : string) (count : Z) (ks : keyspace) : keyspace * option (list string * Z) :=
  (ks, Some (filter (λ k, String.prefix prefix k = true) (map_to_list ks).*1, 0)).

Lemma scan_all_documented : scan_documented scan_all.
Proof.
  constructor.
  - intros now cursor prefix count db db' r [= <- _]. done.
  - intros now cursor prefix count db db' keys next k _ [= <- <- <-] Hk. by apply list_elem_of_filter in Hk as [? _].
  - intros count prefix l k _ Hit Hpre Hall. destruct Hit as [now cursor db db' keys HS|now cursor db db' keys next rest HS Hne _].
    + exists now, db, keys. split; [by left|]. destruct (Hall now db keys) as [v Hv]; [by left|]. injection HS as <- <-.
      apply list_elem_of_filter. split; [done|]. apply list_elem_of_fmap. change (view db) with db in Hv. unfold live in Hv.
      destruct (db !! k) as [x|] eqn:E; [|done]. exists (k, x). split; [done|]. by apply elem_of_map_to_list.
    + injection HS as _ _ <-. done.
  - intros count prefix N. exists 1%nat. intros l Hl _. destruct Hl as [|now cursor db db' keys next rest HS Hz _]; [cbn; lia|].
    injection HS as _ _ <-. rewrite Hz by done. done.
Qed.

Lemma cleanup_complete_witness :
  let db : keyspace := {["run:1" := (RStr "x", None); "run:2" := (RStr "y", None); "other" := (RStr "z", None)]} in
  ∃ fuel db', scan_loop scan_all 500 "run:" (λ _, 0) (λ _, true) fuel 0 0 db = (db', Some true) ∧
    live 0 db' "run:2" = None ∧ db' !! "other" = Some (RStr "z", None).
Proof.
  intros db.
  assert (plain "run:") as Hp.
  { intros c Hc Hin. repeat (apply elem_of_cons in Hc as [->|Hc]; [by repeat (apply elem_of_cons in Hin as [Hin|Hin]; [discriminate Hin|]); apply elem_of_nil in Hin|]).
    by apply elem_of_nil in Hc. }
  destruct (cleanup_complete scan_all 500 "run:" (λ _, 0) (λ _, true) db 0 scan_all_documented Hp (λ _, Z.le_refl 0)) as [most Hm].
  destruct (Hm (S most) (Nat.lt_succ_diag_r most)) as (db' & ended & HL & Hf & Hkept & _ & Ht). exists (S most), db'. destruct ended.
  - split_and!; [done|by apply (Ht eq_refl (λ _, eq_refl) "run:2")|]. change db' with (view db').
    rewrite (Hkept "other" eq_refl). vm_compute. reflexivity.
  - destruct (Hf eq_refl) as (? & ? & ? & _ & [=]).
Defined.
