(* ===== verification/Chaos.v ===== *)
(** * The chaos demonstration (examples/chaos)

    Worker processes that take jobs from one Redis, one of them killed without
    warning, and a coordinator that checks that every job was done. The coordinator's
    functions, and the fleet as a transition system: a worker's handler records the
    job in a set and counts the execution, two commands that other processes' calls may
    come between, and any worker may stop at any moment. What the coordinator sees when
    it polls, and when its context ends, are sequences. *)
From Stdlib Require Import Strings.Byte.
From S2P Require Import Prelude GoBase Job Backoff Queues Interface BrokerAPI Client Calendar Schedule CronParse Server Worker RedisServer RedisScripts Redis RedisKeys RedisTypes RedisInv RedisRun RedisScriptSpecs RedisBroker RedisOps RedisProps Demo.

Definition totalJobs : Z := 300.
Definition workerCount : Z := 4.
Definition concurrency : Z := 5.
Definition jobDuration : Z := 150 * Millisecond.
Definition queueName : string := "chaos".
Definition killAfter : Z := 2 * Second.
Definition visibilityTimeout : Z := 2 * Second.

(** ** The coordinator *)

Section coordinator.
Context {DB : Type} `{RedisServer DB} (b : settings).

(** The keys of the demonstration, under the broker's prefix. *)
Definition kDone : string := prefix b +:+ ":chaos:done".
Definition kRuns : string := prefix b +:+ ":chaos:runs".

Definition workerID (i : nat) : string := "chaos-worker-" +:+ pretty i.

(** enqueueAll: the [i]-th job has the payload {"n": i}, which [Marshal] encodes, an
    identifier and an instant of its own. *)
Context (Marshal : nat → res (list byte)).
Definition enqueue_job (NewID : string) (now : Z) (i : nat) (db : DB) : DB * res Job :=
  @EnqueueTask DB (redis_broker b) _ Marshal (NewClient [WithDefaultQueue queueName]) NewID now "chaos:work" (Some i)
    [OptMaxAttempts 10] db.
Fixpoint enqueue_loop (ids : nat → string) (clk : nat → Z) (i n : nat) (db : DB) : DB * option error :=
  match n with
  | O => (db, None)
  | S n =>
      match enqueue_job (ids i) (clk i) i db with
      | (db, Err err) => (db, Some (Errorf "enqueue job %d: %w" [pretty i] [err]))
      | (db, Ok _) => enqueue_loop ids clk (S i) n db
      end
  end.
Definition enqueueAll (ids : nat → string) (clk : nat → Z) (db : DB) : DB * option error :=
  enqueue_loop ids clk 0 (Z.to_nat totalJobs) db.

(** jobsOwnedBy: the members of the active set, and the owner of each. The coordinator's own
    commands are read-only; nothing else is shown to happen between them. *)
Fixpoint owned_loop (now : Z) (owner : string) (ids : list string) (db : DB) : DB * res (list string) :=
  match ids with
  | [] => (db, Ok [])
  | id :: ids =>
      let '(db, got) := redis_call now (HGET (prefix b +:+ ":job:" +:+ id) "owner") db in
      match got with
      | RNil => owned_loop now owner ids db
      | RBulk got =>
          match owned_loop now owner ids db with
          | (db, Ok owned) => (db, Ok (if String.eqb got owner then id :: owned else owned))
          | (db, Err err) => (db, Err err)
          end
      | _ => (db, Err (Errorf "read owner of %s: %w" [id] [redisError]))
      end
  end.
Definition jobsOwnedBy (now : Z) (owner : string) (db : DB) : DB * res (list string) :=
  let '(db, ids) := redis_call now (ZRANGE (prefix b +:+ ":active:" +:+ queueName)) db in
  match ids with
  | RArray ids => owned_loop now owner ids db
  | _ => (db, Err (Errorf "read active set: %w" [] [redisError]))
  end.

(** One poll of waitForCompletion: the number of jobs done. *)
Definition done_count (now : Z) (db : DB) : res Z :=
  match (redis_call now (SCARD kDone) db).2 with
  | RInt n => Ok n
  | _ => Err (Errorf "read completion set: %w" [] [redisError])
  end.

(** One pass of timeToRecover: how many of the orphans are not done. *)
Fixpoint missing (now : Z) (orphans : list string) (db : DB) : res Z :=
  match orphans with
  | [] => Ok 0
  | id :: orphans =>
      match (redis_call now (SISMEMBER kDone id) db).2 with
      | RInt ok => n ← missing now orphans db; Ok (if bool_decide (ok = 1) then n else n + 1)
      | _ => Err redisError
      end
  end.

(** A round of waitForCompletion, and the function: [polls] are the replies it gets and [slept]
    what its sleeps return. The line of progress it rewrites is left out. *)
Definition wait_round (polls : nat → res Z) (slept : nat → bool) (i : nat) : option (Z * option error) :=
  match polls i with
  | Err err => Some (0, Some err)
  | Ok n =>
      if bool_decide (totalJobs ≤ n) then Some (n, None)
      else if slept i then None
      else Some (n, Some (Errorf "timed out with %d/%d jobs completed" [pretty n; pretty totalJobs] []))
  end.
Definition waitForCompletion (polls : nat → res Z) (slept : nat → bool) (fuel : nat) : option (Z * option error) :=
  rounds (wait_round polls slept) 0 fuel.

(** A round of timeToRecover, and the function: [passes] are the numbers it counts, [now] the
    clock when it has none left. *)
Definition recover_round (passes : nat → res Z) (slept : nat → bool) (now : nat → Z) (killedAt : Z) (i : nat)
  : option (res Z) :=
  match passes i with
  | Err err => Some (Err err)
  | Ok missing =>
      if bool_decide (missing = 0) then Some (Ok (now i - killedAt))
      else if slept i then None
      else Some (Err (Errorf "%d orphaned jobs never completed" [pretty missing] []))
  end.
Definition timeToRecover (passes : nat → res Z) (slept : nat → bool) (now : nat → Z) (killedAt : Z) (fuel : nat)
  : option (res Z) :=
  rounds (recover_round passes slept now killedAt) 0 fuel.

(** report. *)
Definition report_lines (Duration_String : Z → string) (done runs orphans orphanRecovery totalAfterKill : Z) : list line :=
  let duplicates := if bool_decide (runs - done < 0) then 0 else runs - done in
  [("--- result ---", []);
   ("jobs enqueued          : %d", [pretty totalJobs]);
   ("jobs completed         : %d", [pretty done]);
   ("jobs lost              : %d", [pretty (totalJobs - done)]);
   ("handler executions     : %d", [pretty runs]);
   ("duplicate executions   : %d  (expected: at-least-once permits these)", [pretty duplicates]);
   ("orphaned by the kill   : %d", [pretty orphans])] ++
  (if bool_decide (0 < orphans)
   then [("orphan recovery time   : %s  (bound: visibility timeout %v + reap interval %v)",
          [Duration_String (Round orphanRecovery Millisecond); Duration_String visibilityTimeout;
           Duration_String (Z.quot visibilityTimeout 2)])]
   else []) ++
  [("drained after kill in  : %s", [Duration_String (Round totalAfterKill Millisecond)])] ++
  (if bool_decide (done = totalJobs) then [("ZERO JOB LOSS across a hard kill.", [])] else []).

(** The verdict of runCoordinator. *)
Definition verdict (done : Z) : option error :=
  if negb (bool_decide (done = totalJobs))
  then Some (Errorf "JOB LOSS: %d of %d jobs completed" [pretty done; pretty totalJobs] [])
  else None.

(** The configuration of a worker. *)
Definition worker_config (global : randFunc) (id : string) : Config :=
  mkConfig [queueName] None false concurrency visibilityTimeout (5 * Second)
    (Some (Backoff.Next global (mkExponential (50 * Millisecond) Second (Some JitterFull) None))) id [].
End coordinator.

(** runCoordinator once the server has answered: what its calls return, and its clock readings.
    A child is marked as killed when it is; stopAll kills the others and waits for all. *)
Definition spawnWorkers (exe : option error) (starts : nat → option error) : demo (list effect) (list nat * option error) :=
  r ← spawn (λ i err, Errorf "start worker %d: %w" [pretty i] [err]) exe starts (Z.to_nat workerCount);
  match r.2 with
  | None => _ ← Printf "spawned %d worker processes" [pretty workerCount]; mret r
  | Some _ => mret r
  end.
Definition stopAll (children : list nat) : demo (list effect) unit := λ c,
  effects ((Killed <$> filter (λ i, Killed i ∉ world c) children) ++ (Waited <$> children)) c.

Section run.
Context (Duration_String : Z → string) (victim_pid : Z).
Context (new enqueued exe : option error) (starts : nat → option error) (slept : bool) (ctx_err : error).
Context (orphans : res (list string)) (kill : option error) (completion : Z * option error).
Context (recovery runs : res Z) (killedAt finishedAt : Z).

Definition after_spawn : demo (list effect) unit :=
  _ ← Printf "workers running, killing one in %v..." [Duration_String killAfter];
  _ ← check (if slept then None else Some ctx_err);
  owned ← or_return orphans;
  _ ← check ((λ err, Errorf "kill worker: %w" [] [err]) <$> kill);
  _ ← effects [Killed 0];
  _ ← Printf ">>> SIGKILLed %s (pid %d) holding %d in-flight job(s)" [workerID 0; pretty victim_pid; pretty (length owned)];
  _ ← Println ">>> it will never ack, nack, or release its leases";
  _ ← check completion.2;
  orphanRecovery ← (if bool_decide (0 < length owned)%nat then or_return recovery else mret 0);
  n ← or_return runs;
  _ ← (λ c, (mkConsole (world c) (printed c ++ report_lines Duration_String completion.1 n (Z.of_nat (length owned)) orphanRecovery
               (finishedAt - killedAt)), Ok ()));
  check (verdict completion.1).
Definition runCoordinator : demo (list effect) unit :=
  deferring (effects [Cleaned])
    (_ ← check new;
     _ ← Printf "chaos test: %d jobs, %d worker processes, %d concurrency each" [pretty totalJobs; pretty workerCount; pretty concurrency];
     _ ← Printf "visibility timeout %v, reaper sweeps every %v"
           [Duration_String visibilityTimeout; Duration_String (Z.quot visibilityTimeout 2)];
     _ ← check enqueued;
     _ ← Printf "enqueued %d jobs" [pretty totalJobs];
     '(children, err) ← spawnWorkers exe starts;
     _ ← check err;
     deferring (stopAll children) after_spawn).
End run.

(** ** The fleet *)

(** Where the handler of a run is: before its commands, between them, with whether the first
    was answered without an error, or returned without or with an error. *)
Inductive hphase := Working | Added (ok : bool) | Passed | Failed (e : error).

(** [accepted] are the jobs the coordinator was told are enqueued; [fruns] the runs of all
    workers, each with its worker and its job. *)
Record fleet (DB : Type) := mkFleet {
  fdb : DB;
  accepted : gset string;
  fruns : gmap nat (string * Job * hphase)
}.
Arguments mkFleet {DB}.
Arguments fdb {DB}.
Arguments accepted {DB}.
Arguments fruns {DB}.

Section fleet.
Context {DB : Type} `{RedisLaws DB} (b : settings).
Context (Marshal : nat → res (list byte)) (Error_ : error → string) (srv : string → Server).
Implicit Types F : fleet DB.

Definition errored (r : reply) : bool := match r with RError => true | _ => false end.

(** The operations of workers and of their background loops that are not about a run. *)
Definition background (o : rop) : bool :=
  match o with
  | RExtend _ _ _ | RReap _ _ | RPromote _ | RHeartbeat _ _ | RAcquireLease _ _ _ | RReleaseLease _ _ => true
  | _ => false
  end.

Inductive fstep F : fleet DB → Prop :=
| f_enqueue NewID now i db r :
    clock_ok now → NewID ≠ "" → NewID ∉ accepted F →
    enqueue_job b Marshal NewID now i (fdb F) = (db, r) →
    fstep F (mkFleet db (match r with Ok j => {[ID j]} ∪ accepted F | Err _ => accepted F end) (fruns F))
| f_claim w now k db r :
    clock_ok now → fruns F !! k = None →
    Dequeue b (mkClaimOpts w [queueName] visibilityTimeout) now (fdb F) = (db, r) →
    fstep F (mkFleet db (accepted F) (match r with Ok j => <[k := (w, j, Working)]> (fruns F) | Err _ => fruns F end))
| f_background now o :
    background o = true → sane b now o (fdb F) → fstep F (mkFleet (rexec b now o (fdb F)) (accepted F) (fruns F))
| f_sadd k w j now db r :
    fruns F !! k = Some (w, j, Working) → redis_call now (SADD (kDone b) (ID j)) (fdb F) = (db, r) →
    fstep F (mkFleet db (accepted F) (<[k := (w, j, Added (negb (errored r)))]> (fruns F)))
| f_incr k w j ok now db r :
    fruns F !! k = Some (w, j, Added ok) → redis_call now (INCR (kRuns b)) (fdb F) = (db, r) →
    fstep F (mkFleet db (accepted F)
      (<[k := (w, j, if ok && negb (errored r) then Passed else Failed redisError)]> (fruns F)))
| f_fail k w j ph e :
    (* the context is cancelled, or the connection lost *)
    fruns F !! k = Some (w, j, ph) → ph ≠ Passed → Is e ErrSkipRetry = false →
    fstep F (mkFleet (fdb F) (accepted F) (<[k := (w, j, Failed e)]> (fruns F)))
| f_report k w j err now :
    clock_ok now → fruns F !! k = Some (w, j, match err with None => Passed | Some e => Failed e end) →
    fstep F (mkFleet (@report DB (redis_broker b) Error_ (srv w) err j now (fdb F)).1 (accepted F) (delete k (fruns F)))
| f_lost k :
    (* the report does not reach the server *)
    fstep F (mkFleet (fdb F) (accepted F) (delete k (fruns F)))
| f_kill w :
    (* the process is gone, with all its runs *)
    fstep F (mkFleet (fdb F) (accepted F) (filter (λ r, r.2.1.1 ≠ w) (fruns F))).

(** The jobs recorded as done. *)
Definition done_set F : gset string :=
  match view (fdb F) !! kDone b with Some (RSet s, _) => s | _ => ∅ end.

(** A job is still the broker's to deliver, or dead. *)
Definition unfinished F (id : string) : Prop :=
  ∃ j, redis_job b (fdb F) id = Some j ∧ State_ j ≠ StateCompleted.

Record fok F : Prop := mkFok {
  fok_inv : redis_inv b (fdb F);
  fok_set : view (fdb F) !! kDone b = None ∨ ∃ s, view (fdb F) !! kDone b = Some (RSet s, None);
  fok_jobs : ∀ id j, redis_job b (fdb F) id = Some j → id ∈ accepted F;
  fok_runs : ∀ k w j ph, fruns F !! k = Some (w, j, ph) →
    ID j ∈ accepted F ∧ (ph = Added true ∨ ph = Passed → ID j ∈ done_set F) ∧
    match ph with Failed e => Is e ErrSkipRetry = false | _ => True end;
  fok_done : done_set F ⊆ accepted F;
  fok_kept : ∀ id, id ∈ accepted F → id ∈ done_set F ∨ unfinished F id
}.

(** The fleet before anything is enqueued, on a server without keys of the run's. *)
Definition fleet_start F : Prop :=
  (∀ n, view (fdb F) !! key b n = None) ∧ view (fdb F) !! kDone b = None ∧ accepted F = ∅ ∧ fruns F = ∅.
End fleet.

(** ** Lemmas *)

(** The keys of the demonstration are not the broker's. *)
Lemma foreign_chaos b s n : prefix b +:+ ":chaos:" +:+ s ≠ key b n.
Proof.
  destruct n; cbn [RedisKeys.key]; unfold kJob, kQueue, kActive, kUnique, kDelayed, kRetry, kDead, kQueues,
    kProcessed, kFailed, kWorkers, kWorker, kLease, kCron; intros H%string_app_inj; discriminate H.
Qed.
Lemma done_runs_ne b : kDone b ≠ kRuns b.
Proof. unfold kDone, kRuns. intros H%string_app_inj. discriminate H. Qed.

Section fleet_lemmas.
Context {DB : Type} `{RedisLaws DB} (b : settings).
Context (Marshal : nat → res (list byte)) (Error_ : error → string) (srv : string → Server).
Implicit Types F : fleet DB.

(** A command on a key that is not the broker's leaves its jobs alone. *)
Lemma foreign_call now c k (db db' : DB) r :
  cmd_key c = Some k → (∀ n, k ≠ key b n) → redis_call now c db = (db', r) → redis_inv b db →
  redis_inv b db' ∧ (∀ id, redis_job b db' id = redis_job b db id) ∧
  ∀ k', k' ≠ k → view db' !! k' = view db !! k'.
Proof.
  intros Hk Hf Hc HI. pose proof (redis_documented now c db) as HD. rewrite Hc in HD.
  assert (∀ k', k' ≠ k → view db' !! k' = view db !! k') as Hfr.
  { intros k' Hne. pose proof (documented_frame now c (view db) k') as HF. rewrite HD in HF. apply HF. congruence. }
  assert (∀ n, view db' !! key b n = view db !! key b n) as Hn by (intros n; by apply Hfr, not_eq_sym).
  split; [|split; [|done]]; [|apply rinv_frame; try done]; unfold redis_inv.
  - apply (rinv_frame b (view db)); [done| |by intros]. intros n v. rewrite Hn. apply HI.
  - intros n v. rewrite Hn. apply HI.
Qed.

(** An operation of the broker keeps the account. *)
Lemma fok_exec F now o acc runs :
  fok b F → sane b now o (fdb F) → accepted F ⊆ acc →
  let F' := mkFleet (rexec b now o (fdb F)) acc runs in
  (∀ i j, o = REnqueue i (Some j) → is_Some (redis_job b (fdb F') (assigned_id i j)) → assigned_id i j ∈ acc) →
  (∀ id, id ∈ acc → id ∉ accepted F → unfinished b F' id) →
  (∀ w id, o = RAck w id → id ∈ done_set b F) →
  (∀ k w j ph, runs !! k = Some (w, j, ph) →
     ID j ∈ acc ∧ (ph = Added true ∨ ph = Passed → ID j ∈ done_set b F) ∧
     match ph with Failed e => Is e ErrSkipRetry = false | _ => True end) →
  fok b F'.
Proof.
  intros [HI Hset Hjobs Hruns Hdone Hkept] Hs Hacc F' Henq Hnew Hack Hr'.
  destruct (rexec_reaches b now o (fdb F)) as (_ & _ & Hfr).
  assert (view (fdb F') !! kDone b = view (fdb F) !! kDone b) as HD by (apply Hfr; intros n; apply (foreign_chaos b "done")).
  assert (done_set b F' = done_set b F) as HDS by (unfold done_set; by rewrite HD).
  constructor; rewrite ?HDS, ?HD; try done.
  - by apply rexec_inv.
  - intros id j Hj. destruct (redis_job b (fdb F) id) as [j0|] eqn:E; [by eapply Hacc, Hjobs|].
    destruct (rexec_born b now o (fdb F) id j HI Hs Hj E) as (i & j1 & -> & ->). eapply Henq; [done|by eexists].
  - cbn [accepted F']. set_solver.
  - intros id Hid. destruct (decide (id ∈ accepted F)) as [Hin|Hin]; [|right; by apply Hnew].
    destruct (Hkept id Hin) as [?|(j & Hj & Hc)]; [by left|].
    pose proof (rexec_next b now o (fdb F) id j HI Hs Hj Hc) as HN.
    destruct (redis_job b (rexec b now o (fdb F)) id) as [j'|] eqn:Hj'.
    + destruct (decide (State_ j' = StateCompleted)) as [Hc'|Hc']; [left|right; by exists j'].
      destruct HN as (_ & _ & _ & _ & HN). by eapply Hack, HN.
    + left. by eapply Hack, HN.
Qed.

Lemma fok_enqueue F NewID now i db r :
  fok b F → clock_ok now → NewID ≠ "" → NewID ∉ accepted F → enqueue_job b Marshal NewID now i (fdb F) = (db, r) →
  fok b (mkFleet db (match r with Ok j => {[ID j]} ∪ accepted F | Err _ => accepted F end) (fruns F)).
Proof.
  intros HF Hn Hid Hfresh. pose proof HF as [HI Hset Hjobs Hruns Hdone Hkept].
  assert (mkFleet (fdb F) (accepted F) (fruns F) = F) as Heta by (by destruct F).
  unfold enqueue_job, EnqueueTask, NewTask. cbn [String.eqb]. destruct (Marshal i) as [p|e]; [|intros [= <- <-]; by rewrite Heta].
  unfold Client_Enqueue. set (j := build_job _ _ _ _).
  assert (assigned_id NewID j = NewID) as Has by done.
  assert (redis_job b (fdb F) NewID = None) as Hno.
  { destruct (redis_job b (fdb F) NewID) eqn:E; [|done]. by apply Hjobs in E. }
  assert (live_job b now (view (fdb F)) (assigned_id NewID j) = None) as Hlive.
  { unfold live_job. rewrite Has. by rewrite (redis_absent b (fdb F) NewID HI Hno). }
  assert (go_job j) as Hgo by (split; [vm_compute; discriminate|by left]).
  assert (sane b now (REnqueue NewID (Some j)) (fdb F)) as Hs by (split; [done|split_and!; [done|by rewrite Has|done]]).
  pose proof (redis_Enqueue_spec b NewID now j (fdb F) HI Hlive ltac:(by rewrite Has) Hgo Hn) as HE.
  cbn [b_Enqueue redis_broker].
  assert ((Enqueue b NewID now (Some j) (fdb F)).1.1 = rexec b now (REnqueue NewID (Some j)) (fdb F)) as Hex by done.
  destruct (Enqueue b NewID now (Some j) (fdb F)) as [[db' j'] [err|]]; cbn [fst] in Hex.
  { destruct j'; intros [= <- <-]; by rewrite HE, Heta. }
  destruct HE as (_ & _ & _ & [st ->] & Hj' & _). rewrite Has in Hj'. intros [= <- <-].
  assert (ID (set_State st (filled NewID j)) = NewID) as -> by (by apply filled_fields).
  rewrite Hex in *. apply fok_exec; try done.
  - set_solver.
  - intros i0 j0 [= <- <-] _. rewrite Has. set_solver.
  - intros id Hin Hnot. assert (id = NewID) as -> by set_solver. eexists. split; [exact Hj'|].
    unfold stored_as. cbn. by case_bool_decide.
  - intros k w j0 ph Hk. destruct (Hruns k w j0 ph Hk) as (? & ? & ?). set_solver.
Qed.

Lemma fok_report F k w j err now :
  (∀ w, cfg_WorkerID (srv_cfg (srv w)) = w) →
  fok b F → clock_ok now → fruns F !! k = Some (w, j, match err with None => Passed | Some e => Failed e end) →
  fok b (mkFleet (@report DB (redis_broker b) Error_ (srv w) err j now (fdb F)).1 (accepted F) (delete k (fruns F))).
Proof.
  intros Hsrv HF Hn Hk. pose proof HF as [HI Hset Hjobs Hruns Hdone Hkept]. destruct (Hruns _ _ _ _ Hk) as (Hacc & Hd & Hskip).
  assert (∃ o, (@report DB (redis_broker b) Error_ (srv w) err j now (fdb F)).1 = rexec b now o (fdb F) ∧
    sane b now o (fdb F) ∧ (∀ i j, o ≠ REnqueue i (Some j)) ∧ (∀ w id, o = RAck w id → id ∈ done_set b F)) as (o & -> & Hs & Hne & Hack).
  { unfold report. destruct err as [e|]; cbn [b_Ack b_Kill b_Nack redis_broker].
    - rewrite Hskip. eexists (RNack _ _ _ _). split; [reflexivity|]. split; [by split|]. done.
    - eexists (RAck _ _). split; [reflexivity|]. split; [by split|]. split; [done|]. intros ? ? [= <- <-]. apply Hd. by right. }
  apply fok_exec; try done.
  - intros i j0 ->. by destruct (Hne i j0).
  - intros k' w' j' ph' [_ Hk']%lookup_delete_Some. by eapply Hruns.
Qed.

(** The first command of the handler records the job. *)
Lemma done_added F k w j now db r :
  fok b F → fruns F !! k = Some (w, j, Working) → redis_call now (SADD (kDone b) (ID j)) (fdb F) = (db, r) →
  view db !! kDone b = Some (RSet ({[ID j]} ∪ done_set b F), None) ∧ errored r = false.
Proof.
  intros [HI Hset _ _ _ _] Hk Hc. pose proof (redis_documented now (SADD (kDone b) (ID j)) (fdb F)) as HD. rewrite Hc in HD.
  cbn [documented] in HD. unfold live in HD. unfold done_set. destruct Hset as [E|[s E]]; rewrite E in HD |- *.
  - injection HD as <- <-. split; [|done]. by rewrite lookup_insert_eq, union_empty_r_L.
  - injection HD as <- <-. split; [|done]. by rewrite lookup_insert_eq.
Qed.

(** Moving a run on, with what its new phase asks for. *)
Lemma fok_phase F k w j ph ph' :
  fok b F → fruns F !! k = Some (w, j, ph) → (ph' = Added true ∨ ph' = Passed → ID j ∈ done_set b F) →
  match ph' with Failed e => Is e ErrSkipRetry = false | _ => True end →
  fok b (mkFleet (fdb F) (accepted F) (<[k := (w, j, ph')]> (fruns F))).
Proof.
  intros [HI Hset Hjobs Hruns Hdone Hkept] Hk Hp He. constructor; try done. cbn [fruns].
  intros k' w' j' ph0 [[<- [= <- <- <-]]|[_ Hk']]%lookup_insert_Some; [|by eapply Hruns].
  split_and!; [by eapply Hruns|done|done].
Qed.

Lemma fok_sadd F k w j now db r :
  fok b F → fruns F !! k = Some (w, j, Working) → redis_call now (SADD (kDone b) (ID j)) (fdb F) = (db, r) →
  fok b (mkFleet db (accepted F) (<[k := (w, j, Added (negb (errored r)))]> (fruns F))).
Proof.
  intros HF Hk Hc. pose proof HF as [HI Hset Hjobs Hruns Hdone Hkept].
  destruct (done_added F k w j now db r HF Hk Hc) as [Hv Hr].
  destruct (foreign_call now (SADD (kDone b) (ID j)) (kDone b) _ _ _ eq_refl (λ n, foreign_chaos b "done" n) Hc HI) as (HI' & Hj' & _).
  destruct (Hruns _ _ _ _ Hk) as (Hacc & _).
  assert (done_set b (mkFleet db (accepted F) (fruns F)) = {[ID j]} ∪ done_set b F) as HDS.
  { unfold done_set at 1. cbn [fdb]. by rewrite Hv. }
  rewrite Hr. apply (fok_phase (mkFleet db (accepted F) (fruns F)) k w j Working); [|done|by rewrite HDS; set_solver|done].
  constructor; rewrite ?HDS; cbn [fdb accepted fruns]; try done.
  - right. by eexists.
  - intros id j0. rewrite Hj'. apply Hjobs.
  - intros k' w' j' ph' Hk'. destruct (Hruns _ _ _ _ Hk') as (? & Hd & ?). split_and!; [done| |done]. set_solver.
  - set_solver.
  - intros id [Hin|Hu]%Hkept; [set_solver|right]. destruct Hu as (j0 & ? & ?). exists j0. cbn [fdb]. by rewrite Hj'.
Qed.

Lemma fok_incr F k w j ok now db r :
  fok b F → fruns F !! k = Some (w, j, Added ok) → redis_call now (INCR (kRuns b)) (fdb F) = (db, r) →
  fok b (mkFleet db (accepted F) (<[k := (w, j, if ok && negb (errored r) then Passed else Failed redisError)]> (fruns F))).
Proof.
  intros HF Hk Hc. pose proof HF as [HI Hset Hjobs Hruns Hdone Hkept].
  destruct (foreign_call now (INCR (kRuns b)) (kRuns b) _ _ _ eq_refl (λ n, foreign_chaos b "runs" n) Hc HI) as (HI' & Hj' & Hfr).
  assert (view db !! kDone b = view (fdb F) !! kDone b) as Hv by (apply Hfr, done_runs_ne).
  assert (done_set b (mkFleet db (accepted F) (fruns F)) = done_set b F) as HDS.
  { unfold done_set. cbn [fdb]. by rewrite Hv. }
  destruct (Hruns _ _ _ _ Hk) as (Hacc & Hd & _).
  apply (fok_phase (mkFleet db (accepted F) (fruns F)) k w j (Added ok)); [|done| |by destruct (ok && _)].
  2:{ rewrite HDS. destruct ok; [intros _; apply Hd; by left|by intros [|]]. }
  constructor; rewrite ?HDS, ?Hv; cbn [fdb accepted fruns]; rewrite ?Hv; try done.
  - intros id j0. rewrite Hj'. apply Hjobs.
  - intros id [Hin|Hu]%Hkept; [by left|right]. destruct Hu as (j0 & ? & ?). exists j0. cbn [fdb]. by rewrite Hj'.
Qed.

Lemma fok_step F F' :
  (∀ w, cfg_WorkerID (srv_cfg (srv w)) = w) → fok b F → fstep b Marshal Error_ srv F F' → fok b F'.
Proof.
  intros Hsrv HF Hstep. pose proof HF as [HI Hset Hjobs Hruns Hdone Hkept].
  destruct Hstep as [i now n db r Hn Hi Hf He|w now k db r Hn Hk Hd|now o Hb Hs|k w j now db r Hk Hc|k w j ok now db r Hk Hc
    |k w j ph e Hk Hph He|k w j err now Hn Hk|k|w].
  - by eapply fok_enqueue.
  - pose proof (redis_law_dequeue b (mkClaimOpts w [queueName] visibilityTimeout) now (fdb F) HI Hn ltac:(done)) as HL.
    assert (db = rexec b now (RDequeue (mkClaimOpts w [queueName] visibilityTimeout)) (fdb F)) as Hdb by (cbn; by rewrite Hd).
    rewrite Hd in HL. rewrite Hdb. apply fok_exec; try done.
    intros k' w' j' ph' Hk'. destruct r as [j|e]; [|by eapply Hruns].
    apply lookup_insert_Some in Hk' as [[<- [= <- <- <-]]|[_ Hk']]; [|by eapply Hruns].
    destruct HL as (_ & _ & _ & _ & (j0 & Hj0 & _) & _). split_and!; [by eapply Hjobs|by intros [|]|done].
  - apply fok_exec; try done; by destruct o.
  - by eapply fok_sadd.
  - by eapply fok_incr.
  - apply (fok_phase F k w j ph); try done. by intros [|].
  - by apply fok_report.
  - constructor; try done. cbn [fruns]. intros k' w' j' ph' [_ Hk']%lookup_delete_Some. by eapply Hruns.
  - constructor; try done. cbn [fruns]. intros k' w' j' ph' [Hk' _]%map_lookup_filter_Some. by eapply Hruns.
Qed.

(** An enqueued job has the identifier that was generated for it. *)
Lemma enqueue_job_ID NewID now i (db db' : DB) j :
  enqueue_job b Marshal NewID now i db = (db', Ok j) → ID j = NewID.
Proof.
  unfold enqueue_job, EnqueueTask, NewTask. cbn [String.eqb]. destruct (Marshal i) as [p|e]; [|done].
  unfold Client_Enqueue. cbn [b_Enqueue redis_broker]. set (j0 := build_job _ _ _ _).
  destruct (redis_Enqueue b NewID now j0 db) as (ukey & ttl & st & _ & ->); [done|done|]. cbv zeta.
  assert (ID (filled NewID j0) = NewID) as Hid by (by apply filled_fields).
  destruct (Run now _ db) as [db1 [[|r0 rs]|]]; [done| |done].
  destruct (bool_decide (toInt64 r0 = 0)); [done|]. intros [= _ <-]. exact Hid.
Qed.

(** A loop of enqueues that succeed is a sequence of steps of the fleet. *)
Lemma enqueue_loop_steps ids clk n i F db' :
  (∀ w, cfg_WorkerID (srv_cfg (srv w)) = w) → fok b F →
  (∀ k, (i ≤ k < i + n)%nat → ids k ≠ "" ∧ clock_ok (clk k) ∧ ids k ∉ accepted F ∧
     ∀ k', (i ≤ k' < i + n)%nat → ids k = ids k' → k = k') →
  enqueue_loop b Marshal ids clk i n (fdb F) = (db', None) →
  rtc (fstep b Marshal Error_ srv) F (mkFleet db' (list_to_set (ids <$> seq i n) ∪ accepted F) (fruns F)).
Proof.
  intros Hsrv. revert i F. induction n as [|n IH]; intros i F HF Hids; cbn [enqueue_loop].
  { intros [= <-]. cbn. rewrite union_empty_l_L. by destruct F. }
  destruct (enqueue_job b Marshal (ids i) (clk i) i (fdb F)) as [db1 [j|e]] eqn:HE; [|done]. intros Hrest.
  destruct (Hids i) as (Hne & Hclk & Hfresh & Hinj); [lia|].
  pose proof (f_enqueue b Marshal Error_ srv F (ids i) (clk i) i db1 (Ok j) Hclk Hne Hfresh HE) as Hstep. cbv iota in Hstep.
  rewrite (enqueue_job_ID _ _ _ _ _ _ HE) in Hstep.
  eapply rtc_l; [exact Hstep|]. pose proof (fok_step F _ Hsrv HF Hstep) as HF1.
  apply (IH (S i) (mkFleet db1 ({[ids i]} ∪ accepted F) (fruns F))) in Hrest; [|done|].
  - cbn [accepted fruns] in Hrest. cbn [seq fmap list_fmap list_to_set].
    assert (list_to_set (ids <$> seq (S i) n) ∪ ({[ids i]} ∪ accepted F) =
      {[ids i]} ∪ list_to_set (ids <$> seq (S i) n) ∪ accepted F) as <- by set_solver. done.
  - intros k Hk. destruct (Hids k) as (? & ? & Hf & Hk'); [lia|]. split_and!; [done|done| |intros; apply Hk'; [lia|done]].
    cbn [accepted]. intros [Heq%elem_of_singleton|?]%elem_of_union; [|done]. assert (i = k) by (apply Hinj; [lia|done]). lia.
Qed.

Lemma fok_start F : fleet_start b F → fok b F.
Proof.
  intros (He & Hd & Ha & Hr). destruct (empty_inv b (fdb F) He) as [HI Hj].
  assert (done_set b F = ∅) as HDS by (unfold done_set; by rewrite Hd).
  constructor; rewrite ?HDS, ?Ha, ?Hr; try done; [by left|..].
  - intros id j. by rewrite Hj.
Qed.

Lemma fok_reachable F0 F :
  (∀ w, cfg_WorkerID (srv_cfg (srv w)) = w) → fleet_start b F0 → rtc (fstep b Marshal Error_ srv) F0 F → fok b F.
Proof. intros Hsrv Hst Hr. apply (rtc_invariant _ _ _ _ (λ F F', fok_step F F' Hsrv) Hr). by apply fok_start. Qed.
End fleet_lemmas.

(** ** Lemmas: the coordinator *)

Section coordinator_lemmas.
Context {DB : Type} `{RedisLaws DB} (b : settings).

Lemma owned_loop_spec now owner ids (db : DB) :
  redis_inv b db → (∀ id, id ∈ ids → ∃ j, redis_job b db id = Some j ∧ State_ j = StateActive) →
  owned_loop b now owner ids db =
    (db, Ok (filter (λ id, (Owner <$> redis_job b db id) = Some owner) ids)).
Proof.
  intros HI. induction ids as [|id ids IH]; intros Hids; [done|]. cbn [owned_loop].
  destruct (Hids id) as (j & Hj & Ha); [by left|].
  destruct (rinv_cases b (view db) id HI) as [(_ & E & _)|(h & e & j1 & Hv & E & Hh & _ & He & _)]; [unfold redis_job in Hj; congruence|].
  assert (j1 = j) as -> by (unfold redis_job in Hj; congruence).
  destruct (live_job_open b now (view db) id h e j Hv He ltac:(by rewrite Ha)) as [_ Hlive].
  destruct (call_doc now (HGET (key b (NJob id)) "owner") db (view db) (RBulk (Owner j))) as (db' & HC & Hv').
  { erewrite doc_HGET by (apply HI || exact Hlive). by rewrite (Hh "owner"). }
  apply (inj view) in Hv' as ->. change (prefix b +:+ ":job:" +:+ id) with (key b (NJob id)). rewrite HC.
  rewrite IH by (intros id' Hid'; apply Hids; by right). rewrite filter_cons, Hj. cbn [fmap option_fmap option_map].
  destruct (String.eqb_spec (Owner j) owner) as [->|Hne]; [by rewrite decide_True|by rewrite decide_False by congruence].
Qed.
End coordinator_lemmas.

(** ** Properties *)

Section properties.
Context {DB : Type} `{RedisLaws DB} (b : settings).
Context (Marshal : nat → res (list byte)) (Error_ : error → string) (srv : string → Server).
Implicit Types F : fleet DB.

(** C17: no job is lost across a hard kill, and the verdict of the demonstration is right. In
    every state the fleet can reach, whatever workers do and whenever they are killed, even
    between the two commands of a handler or between a handler and its report, every job that
    was enqueued is recorded as done or still the broker's, waiting, claimed or dead, and
    nothing else is recorded; the count the coordinator polls is the number of recorded jobs;
    once all the jobs have been enqueued it reaches their number exactly when every one is
    recorded, which is then the verdict; and it does so as soon as the broker has none left. *)
Theorem chaos_no_loss F0 F :
  (∀ w, cfg_WorkerID (srv_cfg (srv w)) = w) → fleet_start b F0 → rtc (fstep b Marshal Error_ srv) F0 F →
  (∀ id, id ∈ accepted F → id ∈ done_set b F ∨ unfinished b F id) ∧ done_set b F ⊆ accepted F ∧
  ∀ now, ∃ n, done_count b now (fdb F) = Ok n ∧ n = Z.of_nat (size (done_set b F)) ∧
    (Z.of_nat (size (accepted F)) = totalJobs →
       (verdict n = None ↔ ∀ id, id ∈ accepted F → id ∈ done_set b F) ∧
       ((∀ id, id ∈ accepted F → ¬ unfinished b F id) → verdict n = None)).
Proof.
  intros Hsrv Hst Hr. destruct (fok_reachable b Marshal Error_ srv F0 F Hsrv Hst Hr) as [HI Hset _ _ Hdone Hkept].
  split_and!; [done|done|]. intros now. exists (Z.of_nat (size (done_set b F))).
  assert (done_count b now (fdb F) = Ok (Z.of_nat (size (done_set b F)))) as HC.
  { unfold done_count. pose proof (redis_documented now (SCARD (kDone b)) (fdb F)) as HD.
    destruct (redis_call now (SCARD (kDone b)) (fdb F)) as [db r]. cbn [documented] in HD. unfold set_at, live in HD. unfold done_set.
    destruct Hset as [E|[s E]]; rewrite E in HD |- *; by injection HD as _ <-. }
  split_and!; [done|done|]. intros Hall.
  assert (verdict (Z.of_nat (size (done_set b F))) = None ↔ ∀ id, id ∈ accepted F → id ∈ done_set b F) as HV.
  { unfold verdict. rewrite <- Hall. split.
    - case_bool_decide as Heq; [|done]. intros _. apply Nat2Z.inj in Heq.
      assert (done_set b F = accepted F) as ->; [|done]. apply set_subseteq_size_eq; [done|lia].
    - intros Hsub. rewrite bool_decide_eq_true_2; [done|]. f_equal. f_equal. apply set_eq. set_solver. }
  split; [done|]. intros Hno. apply HV. intros id Hid. destruct (Hkept id Hid) as [?|Hu]; [done|]. by destruct (Hno id).
Qed.

(** The coordinator's workload is the whole workload: if enqueueAll returns without an error,
    with identifiers that are distinct and not empty, the fleet has got to a state in which
    exactly three hundred jobs are accepted, one for each identifier, so that the account of
    the demonstration is about all of them. *)
Theorem enqueue_all_accepted F0 ids clk db :
  (∀ w, cfg_WorkerID (srv_cfg (srv w)) = w) → fleet_start b F0 →
  (∀ k, ids k ≠ "" ∧ clock_ok (clk k)) → (∀ k k', ids k = ids k' → k = k') →
  enqueueAll b Marshal ids clk (fdb F0) = (db, None) →
  ∃ F, rtc (fstep b Marshal Error_ srv) F0 F ∧ fdb F = db ∧ Z.of_nat (size (accepted F)) = totalJobs ∧
    ∀ id, id ∈ accepted F ↔ ∃ k, (k < Z.to_nat totalJobs)%nat ∧ id = ids k.
Proof.
  intros Hsrv Hst Hids Hinj HE. pose proof (fok_start b F0 Hst) as HF. destruct Hst as (_ & _ & Ha & _).
  exists (mkFleet db (list_to_set (ids <$> seq 0 (Z.to_nat totalJobs)) ∪ accepted F0) (fruns F0)).
  split; [|split; [reflexivity|]].
  - eapply (enqueue_loop_steps b Marshal Error_ srv ids clk (Z.to_nat totalJobs) 0); [done|done| |exact HE].
    intros k _. rewrite Ha. split_and!; [apply Hids|apply Hids|set_solver|auto].
  - cbn [accepted]. rewrite Ha, union_empty_r_L. split.
    + rewrite size_list_to_set; [by rewrite length_fmap, length_seq|].
      apply NoDup_fmap_2_strong; [|apply NoDup_seq]. intros x y _ _. apply Hinj.
    + intros id. rewrite ?Ha, ?union_empty_r_L, elem_of_list_to_set, list_elem_of_fmap. split.
      * intros (k & -> & Hk%elem_of_seq). exists k. split; [lia|done].
      * intros (k & Hk & ->). exists k. split; [done|]. apply elem_of_seq. lia.
Qed.

(** The coordinator counts the victim's jobs right. On every state the broker can reach,
    jobsOwnedBy returns, without an error and without changing anything, exactly the jobs of
    the queue whose lease the worker holds, each once, earliest deadline first. *)
Theorem jobs_owned_exact now owner (db : DB) :
  redis_reachable b db →
  ∃ ids, jobsOwnedBy b now owner db = (db, Ok ids) ∧ NoDup ids ∧
    sublist ids (all_in_order (zs b (view db) (NActive queueName))).*1 ∧
    ∀ id, id ∈ ids ↔ ∃ j, redis_job b db id = Some j ∧ State_ j = StateActive ∧ Queue j = queueName ∧ Owner j = owner.
Proof.
  intros HI%reachable_inv. set (z := zs b (view db) (NActive queueName)).
  assert (∀ id, id ∈ (all_in_order z).*1 ↔ is_Some (z !! id)) as Hmem.
  { intros id. unfold all_in_order. rewrite list_elem_of_fmap. split.
    - intros ([id' d] & -> & Hin). rewrite merge_sort_Permutation in Hin. apply elem_of_map_to_list in Hin. by eexists.
    - intros [d Hd]. exists (id, d). split; [done|]. rewrite merge_sort_Permutation. by apply elem_of_map_to_list. }
  assert (∀ id, is_Some (z !! id) ↔ ∃ j, redis_job b db id = Some j ∧ State_ j = StateActive ∧ Queue j = queueName) as Hz.
  { intros id. destruct (rinv_cases b (view db) id HI) as [(_ & E & Hs)|(h & e & j & _ & E & _ & _ & _ & Hs)];
      unfold redis_job; rewrite E; split.
    - intros [d (j & ? & _)%(sp_active _ _ _ _ Hs)]. done.
    - intros (j & ? & _). done.
    - intros [d (j' & [= <-] & ? & ? & _)%(sp_active _ _ _ _ Hs)]. by exists j.
    - intros (j' & [= <-] & Ha & Hq). eexists. apply (sp_active _ _ _ _ Hs). by exists j. }
  exists (filter (λ id, (Owner <$> redis_job b db id) = Some owner) (all_in_order z).*1). split_and!.
  - unfold jobsOwnedBy. change (prefix b +:+ ":active:" +:+ queueName) with (key b (NActive queueName)).
    assert (redis_call now (ZRANGE (key b (NActive queueName))) db = (db, RArray (all_in_order z).*1)) as ->.
    { apply call_read. cbn [documented]. rewrite zset_at_ty; [done|done|apply HI]. }
    apply owned_loop_spec; [done|]. intros id (j & ? & ? & _)%Hmem%Hz. by exists j.
  - apply NoDup_filter. unfold all_in_order. rewrite merge_sort_Permutation. apply NoDup_fst_map_to_list.
  - apply sublist_filter.
  - intros id. rewrite list_elem_of_filter, Hmem, Hz. split.
    + intros (Ho & j & Hj & Ha & Hq). rewrite Hj in Ho. exists j. by injection Ho.
    + intros (j & Hj & Ha & Hq & Ho). rewrite Hj. cbn. rewrite Ho. split; [done|]. by exists j.
Qed.
End properties.

(** ** The coordinator's run *)

Section run_lemmas.
Context (Duration_String : Z → string) (victim_pid : Z).
Context (new enqueued exe : option error) (starts : nat → option error) (slept : bool) (ctx_err : error).
Context (orphans : res (list string)) (kill : option error) (completion : Z * option error).
Context (recovery runs : res Z) (killedAt finishedAt : Z).

(** Nothing goes wrong after the workers have started, and all jobs are done. *)
Definition smooth : Prop :=
  slept = true ∧ (∃ owned, orphans = Ok owned ∧ (owned ≠ [] → ∃ d, recovery = Ok d)) ∧ kill = None ∧
  completion = (totalJobs, None) ∧ ∃ n, runs = Ok n.

Lemma verdict_ok d : match verdict d with Some e => Err e | None => Ok () end = (Ok () : res unit) ↔ d = totalJobs.
Proof. unfold verdict. case_bool_decide; done. Qed.

Lemma after_spawn_spec c :
  let '(c', r) := after_spawn Duration_String victim_pid slept ctx_err orphans kill completion recovery runs killedAt finishedAt c in
  (world c' = world c ∨ world c' = world c ++ [Killed 0]) ∧ (r = Ok () ↔ smooth).
Proof.
  unfold after_spawn, smooth. rewrite bind_Printf. unfold mbind, demo_bind, check, or_return.
  destruct slept; [|cbn; split; [by left|split; [done|naive_solver]]].
  destruct orphans as [owned|e]; [|cbn; split; [by left|split; [done|naive_solver]]].
  destruct kill as [e|]; [cbn; split; [by left|split; [done|naive_solver]]|].
  cbn [fmap option_fmap option_map effects Printf Println world printed].
  destruct completion as [done_ [e|]]; [cbn; split; [by right|split; [done|naive_solver]]|]. cbn [fst snd].
  assert ((0 < length owned)%nat ↔ owned ≠ []) as Hne by (destruct owned; cbn; split; (done || lia)).
  case_bool_decide as Ho; [destruct recovery as [d|e]; [|cbn; split; [by right|split; [done|]]]|].
  2:{ intros (_ & (o & [= <-] & Hd) & _). destruct Hd as [d ?]; [by apply Hne|done]. }
  all: destruct runs as [n|e]; [|cbn; split; [by right|split; [done|naive_solver]]].
  all: cbn [mret demo_ret world]; (split; [by right|]); rewrite verdict_ok; (split; [intros ->|intros (_ & _ & _ & [= ->] & _); done]).
  - split_and!; eauto.
  - split_and!; [done| |done|done|eauto]. exists owned. split; [done|]. by intros Hx%Hne.
Qed.
End run_lemmas.

Lemma spawnWorkers_spec exe starts c :
  (exe = None ∧ (∀ i, (i < Z.to_nat workerCount)%nat → starts i = None) ∧
   ∃ c', spawnWorkers exe starts c = (c', Ok (seq 0 4, None)) ∧ world c' = world c ++ (Started <$> seq 0 4)) ∨
  (∃ c' ch e, spawnWorkers exe starts c = (c', Ok (ch, Some e)) ∧
     ¬ (exe = None ∧ ∀ i, (i < Z.to_nat workerCount)%nat → starts i = None)).
Proof.
  unfold spawnWorkers, spawn. destruct exe as [e|]; [right; do 3 eexists; split; [reflexivity|naive_solver]|].
  match goal with |- context [spawn_loop ?w starts 0 ?n [] ] => destruct (spawn_loop_spec w starts 0 n [] c) as (k & Hk & Hlt & HE & Hfail) end.
  change (∀ k', (k' < k)%nat → starts k' = None) in Hlt. unfold mbind, demo_bind. rewrite HE.
  destruct (decide (k = Z.to_nat workerCount)) as [->|Hne].
  - left. split_and!; [done|done|]. eexists. split; [reflexivity|done].
  - right. destruct (Hfail Hne) as [e He]. rewrite He. cbn [fmap option_fmap option_map snd]. do 3 eexists. split; [reflexivity|].
    intros [_ Hall]. rewrite Hall in He by lia. done.
Qed.

(** The coordinator judges and cleans up. It returns no error exactly if nothing failed on the
    way and three hundred jobs were recorded as done. Once its workers have started, then
    whatever fails, every one of them is killed exactly once, the victim included, and waited
    for, before the keys of the run are removed. *)
Theorem coordinator_verdict Duration_String victim_pid new enqueued exe starts slept ctx_err orphans kill completion recovery runs killedAt finishedAt :
  let '(c, r) := runCoordinator Duration_String victim_pid new enqueued exe starts slept ctx_err orphans kill completion recovery runs
                   killedAt finishedAt (mkConsole [] []) in
  let up := new = None ∧ enqueued = None ∧ exe = None ∧ ∀ i, (i < Z.to_nat workerCount)%nat → starts i = None in
  (r = Ok () ↔ up ∧ smooth slept orphans kill completion recovery runs) ∧
  (up → world c = (Started <$> seq 0 4) ++ (Killed <$> seq 0 4) ++ (Waited <$> seq 0 4) ++ [Cleaned]).
Proof.
  unfold runCoordinator, deferring. rewrite bind_check. destruct new as [e|]; [split; [split; [done|naive_solver]|naive_solver]|].
  rewrite !bind_Printf, bind_check. destruct enqueued as [e|]; [split; [split; [done|naive_solver]|naive_solver]|].
  rewrite bind_Printf. match goal with |- context [(spawnWorkers exe starts ≫= ?k) ?c] => set (c0 := c); set (rest := k) end.
  destruct (spawnWorkers_spec exe starts c0) as [(Hexe & Hst & c1 & HS & Hw)|(c1 & ch & e & HS & Hno)].
  - rewrite (bind_ok _ _ _ _ _ HS). unfold rest. cbn [bind_check]. rewrite bind_check. unfold deferring.
    match goal with |- context [after_spawn ?a ?b ?c ?d ?e ?f ?g ?h ?i ?j ?k ?x] => pose proof (after_spawn_spec a b c d e f g h i j k x) as HA;
      destruct (after_spawn a b c d e f g h i j k x) as [c2 r] end.
    destruct HA as [Hw2 Hr]. split; [rewrite Hr; naive_solver|]. intros _. unfold stopAll, effects. cbn [fst world].
    destruct Hw2 as [-> | ->]; rewrite Hw; vm_compute; reflexivity.
  - rewrite (bind_ok _ _ _ _ _ HS). unfold rest. cbn [bind_check]. rewrite bind_check. split; [split; [done|]|]; intros; exfalso; naive_solver.
Qed.

(** The coordinator waits for as long as it should: it reports completion at the first poll that
    sees all the jobs done, provided no poll failed and its context did not end before; and
    it returns as soon as one of these comes to pass. *)
Theorem wait_for_completion polls slept fuel n :
  (waitForCompletion polls slept fuel = Some (n, None) ↔
   ∃ k, (k < fuel)%nat ∧ polls k = Ok n ∧ totalJobs ≤ n ∧
     ∀ k', (k' < k)%nat → slept k' = true ∧ ∃ m, polls k' = Ok m ∧ m < totalJobs) ∧
  (∀ k, (k < fuel)%nat → slept k = false ∨ (∃ e, polls k = Err e) ∨ (∃ m, polls k = Ok m ∧ totalJobs ≤ m) →
     is_Some (waitForCompletion polls slept fuel)).
Proof.
  assert (∀ k, wait_round polls slept k = None ↔ slept k = true ∧ ∃ m, polls k = Ok m ∧ m < totalJobs) as Hnone.
  { intros k. unfold wait_round. destruct (polls k) as [m|e]; [case_bool_decide|]; [split; [done|intros (_ & m' & [= <-] & ?); lia]| |].
    - destruct (slept k); split; try done; [intros _; split; [done|]; exists m; split; [done|lia]|by intros []].
    - split; [done|by intros (_ & m & ? & _)]. }
  split.
  - unfold waitForCompletion. rewrite rounds_first. split; intros (k & Hk & Hb & Hlt); exists k.
    + unfold wait_round in Hb. destruct (polls k) as [m|e]; [|done]. case_bool_decide; [|by destruct (slept k)].
      injection Hb as ->. split_and!; [done|done|done|]. intros k' Hk'. by apply Hnone, Hlt.
    + destruct Hlt as [Hn Hlt]. split_and!; [done| |intros k' Hk'; by apply Hnone, Hlt].
      unfold wait_round. by rewrite Hb, bool_decide_eq_true_2.
  - intros k Hk Hcase. apply (rounds_returns _ _ k Hk). destruct (wait_round polls slept k) eqn:E; [by eexists|].
    apply Hnone in E as (Hs & m & Hm & Hlt). destruct Hcase as [?|[[e ?]|(m' & ? & ?)]]; [congruence|congruence|].
    assert (m' = m) as -> by congruence. lia.
Qed.

(** ** Witnesses *)

(** A fleet of which nothing is left but one accepted job. *)
Definition demo_marshal (i : nat) : res (list byte) := Ok [].
Definition demo_error (e : error) : string := "boom".
Definition demo_worker (w : string) : Server :=
  mkServer true true (worker_config (λ _, 0) w) (λ _, 0) "host" (newQueueSelector [queueName] None false) ∅.
Definition demo_fleet : fleet keyspace := mkFleet ∅ ∅ ∅.
Definition demo_ids (k : nat) : string := "job-" +:+ pretty k.

Lemma demo_fleet_start : fleet_start demo_settings demo_fleet.
Proof. by split_and!. Qed.

Lemma enqueue_all_accepted_witness :
  ∃ F, rtc (fstep demo_settings demo_marshal demo_error demo_worker) demo_fleet F ∧ Z.of_nat (size (accepted F)) = totalJobs.
Proof.
  assert ((enqueueAll demo_settings demo_marshal demo_ids (λ k, at_s 0) (∅ : keyspace)).2 = None) as HE by (vm_compute; reflexivity).
  destruct (enqueue_all_accepted demo_settings demo_marshal demo_error demo_worker demo_fleet demo_ids (λ k, at_s 0)
    (enqueueAll demo_settings demo_marshal demo_ids (λ k, at_s 0) (∅ : keyspace)).1) as (F & Hr & _ & Hn & _).
  - reflexivity.
  - exact demo_fleet_start.
  - intros k. split; [discriminate|]. exact (demo_clock 0 ltac:(lia)).
  - intros k k' Hk. apply (inj (String.append "job-")) in Hk. exact (inj pretty _ _ Hk).
  - rewrite <- HE. apply surjective_pairing.
  - exists F. exact (conj Hr Hn).
Defined.

Lemma chaos_no_loss_witness :
  ∃ F, accepted F = {["job-0"]} ∧ (∀ id, id ∈ accepted F → id ∈ done_set demo_settings F ∨ unfinished demo_settings F id).
Proof.
  set (db := (enqueue_job demo_settings demo_marshal "job-0" (at_s 0) 0 (∅ : keyspace)).1).
  assert (∃ j, (enqueue_job demo_settings demo_marshal "job-0" (at_s 0) 0 (∅ : keyspace)).2 = Ok j ∧ ID j = "job-0") as (j & Hj & Hid)
    by (eexists; vm_compute; split; reflexivity).
  assert (fstep demo_settings demo_marshal demo_error demo_worker demo_fleet (mkFleet db ({[ID j]} ∪ ∅) ∅)) as Hs.
  { refine (f_enqueue demo_settings demo_marshal demo_error demo_worker demo_fleet "job-0" (at_s 0) 0 db (Ok j) _ _ _ _).
    - by apply demo_clock.
    - discriminate.
    - apply not_elem_of_empty.
    - rewrite <- Hj. apply surjective_pairing. }
  exists (mkFleet db ({[ID j]} ∪ ∅) ∅). split; [cbn; by rewrite Hid, union_empty_r_L|].
  exact (proj1 (chaos_no_loss demo_settings demo_marshal demo_error demo_worker demo_fleet _ (λ w, eq_refl) demo_fleet_start (rtc_once _ _ Hs))).
Defined.

Lemma jobs_owned_exact_witness :
  ∃ ids, jobsOwnedBy demo_settings (at_s 2) "w" demo2 = (demo2, Ok ids) ∧ NoDup ids.
Proof.
  destruct (jobs_owned_exact demo_settings (at_s 2) "w" demo2 demo_reach2) as (ids & HJ & Hnd & _). exists ids. exact (conj HJ Hnd).
Defined.
