(* ===== verification/Bench.v ===== *)
(** * The benchmark (examples/bench)

    The producers that share a workload, the polls that wait for the fleet, the
    samples of latency and their percentiles, and the runs with their deferred
    cleaning up. Floating-point numbers are IEEE 754 binary64, as SpecFloat defines
    them. What the processes, the clock and the server answer are parameters, and so is
    [fmt.Sscan], of which only that it reads a decimal number back is used. *)
From Stdlib Require Import Floats.SpecFloat Strings.Byte.
From S2P Require Import Prelude GoBase Job Backoff Queues Interface BrokerAPI Client Calendar Schedule CronParse Server RedisServer RedisScripts Redis RedisKeys RedisTypes RedisInv RedisRun RedisScriptSpecs RedisBroker RedisOps RedisProps Demo.

Definition queueName : string := "bench".
Definition concurrency : Z := 25.
Definition throughputJobs : Z := 5000.
Definition latencyJobs : Z := 500.
Definition producers : Z := 8.
Definition workerCounts : list Z := [1; 2; 4; 8].

(** ** Floating-point numbers *)

Abbreviation float64 := spec_float.
Definition of_int (n : Z) : float64 := binary_normalize 53 1024 n 0 false.
Definition fmul : float64 → float64 → float64 := SFmul 53 1024.
Definition fdiv : float64 → float64 → float64 := SFdiv 53 1024.
Definition fadd : float64 → float64 → float64 := SFadd 53 1024.

(** A literal of two decimals is the nearest number to so many hundredths. *)
Definition hundredths (n : Z) : float64 := fdiv (of_int n) (of_int 100).

(** [int(x)] of a number that is not too large: truncation. *)
Definition trunc (x : float64) : Z :=
  match x with
  | S754_finite s m e =>
      let z := if bool_decide (0 ≤ e) then Z.pos m * 2 ^ e else Z.pos m / 2 ^ (- e) in
      if s then - z else z
  | _ => 0
  end.

(** [d.Seconds()]. *)
Definition Seconds (d : Z) : float64 :=
  fadd (of_int (Z.quot d Second)) (fdiv (of_int (Z.rem d Second)) (of_int 1000000000)).

(** ** Results *)

Record bench_result := mkResult { workers : Z; enqueueRate : float64; endToEndRate : float64; elapsed : Z }.

(** The result of throughputRun, from the clock readings it makes. *)
Definition rates (workers start enqueueDone finish : Z) : bench_result :=
  mkResult workers (fdiv (of_int throughputJobs) (Seconds (enqueueDone - start)))
    (fdiv (of_int throughputJobs) (Seconds (finish - start))) (finish - start).

(** The peak of printSummary: [results[0]] panics if there is none. *)
Definition peak (results : list bench_result) : may_panic bench_result :=
  match results with
  | [] => Panic "index out of range"
  | r0 :: _ => Done (foldl (λ best r, if SFltb (endToEndRate best) (endToEndRate r) then r else best) r0 results)
  end.

Definition pct (sorted : list Z) (p : float64) : may_panic Z :=
  if bool_decide (length sorted = 0%nat) then Done 0
  else
    let i := trunc (fmul p (of_int (Z.of_nat (length sorted) - 1))) in
    if bool_decide (i < 0) then Panic "index out of range"
    else match sorted !! Z.to_nat i with Some d => Done d | None => Panic "index out of range" end.

(** The samples latencyRun returns, from the list the handlers wrote: what Sscan reads, in order. *)
Definition read_samples (Sscan : string → option Z) (raw : list string) : list Z := omap Sscan raw.
Definition sort_samples (l : list Z) : list Z := merge_sort Z.le l.

(** ** The handler of the latency job (runWorker) *)

Section latency.
Context {DB : Type} `{RedisServer DB} (prefix : string) (Unmarshal : option (list byte) → res Z).
Definition kLatencies : string := prefix +:+ ":bench:latencies".
Definition latency_handler (now call_now : Z) (j : Job) (db : DB) : DB * option error :=
  match Unmarshal (Payload j) with
  | Err err => (db, Some err)
  | Ok enqueued =>
      let delta := wrap64 (now - enqueued) in
      match redis_call call_now (RPUSH kLatencies (pretty delta)) db with
      | (db, RError) => (db, Some redisError)
      | (db, _) => (db, None)
      end
  end.

(** Reading them: an error of the server, or the samples. *)
Definition latencies (Sscan : string → option Z) (now : Z) (db : DB) : DB * res (list Z) :=
  match redis_call now (LRANGE kLatencies) db with
  | (db, RArray raw) => (db, Ok (sort_samples (read_samples Sscan raw)))
  | (db, _) => (db, Err redisError)
  end.
End latency.

(** ** The polls *)

(** [Get(...).Int()]: the count, 0 if the key is absent. *)
Section polls.
Context {DB : Type} `{RedisServer DB} (b : settings).
Definition processed_poll (now : Z) (db : DB) : res Z :=
  match (redis_call now (GET (prefix b +:+ ":stat:processed")) db).2 with
  | RNil => Ok 0
  | RBulk s => match parse_int s with Some n => Ok n | None => Err (errors_New "strconv.Atoi") end
  | _ => Err redisError
  end.
Definition workers_poll (now : Z) (db : DB) : res Z :=
  match (redis_call now (ZCARD (prefix b +:+ ":workers")) db).2 with RInt n => Ok n | _ => Err redisError end.
End polls.

(** waitForProcessed and waitForWorkers: [polls] are what they read, [slept] what their sleeps
    return. *)
Definition wait_round (format : string) (want : Z) (polls : nat → res Z) (slept : nat → bool) (i : nat) : option (option error) :=
  match polls i with
  | Err err => Some (Some err)
  | Ok n =>
      if bool_decide (want ≤ n) then Some None
      else if slept i then None
      else Some (Some (Errorf format [pretty n; pretty want] []))
  end.
Definition waitForProcessed (want : Z) (polls : nat → res Z) (slept : nat → bool) (fuel : nat) : option (option error) :=
  rounds (wait_round "timed out with %d/%d processed" want polls slept) 0 fuel.
Definition waitForWorkers (want : Z) (polls : nat → res Z) (slept : nat → bool) (fuel : nat) : option (option error) :=
  rounds (wait_round "only %d/%d workers registered" want polls slept) 0 fuel.

(** ** The producers *)

(** How many jobs the [p]-th of the producers enqueues. *)
Definition share (total p : Z) : Z :=
  let per := Z.quot total producers in
  if bool_decide (p = producers - 1) then total - per * (producers - 1) else per.

(** The goroutines of enqueueConcurrently: how many jobs each has left, how many were accepted,
    and the errors that are joined. *)
Record fan (S : Type) := mkFan { fan_broker : S; fan_left : list nat; fan_accepted : nat; fan_errs : list error }.
Arguments mkFan {S}.
Arguments fan_broker {S}.
Arguments fan_left {S}.
Arguments fan_accepted {S}.
Arguments fan_errs {S}.

Section fan.
Context {S A : Type} `{BrokerOps S} (Marshal : A → res (list byte)).
Context (taskType : string) (payload : option A).

Definition fan_start (total : Z) (s : S) : fan S :=
  mkFan s ((λ p, Z.to_nat (share total (Z.of_nat p))) <$> seq 0 (Z.to_nat producers)) 0 [].

(** One producer enqueues one job; an error ends it. Others may use the broker in between. *)
Inductive fan_step (Env : S → S → Prop) (f : fan S) : fan S → Prop :=
| fan_ok p n NewID now s j :
    fan_left f !! p = Some (Datatypes.S n) →
    EnqueueTask Marshal (NewClient [WithDefaultQueue queueName]) NewID now taskType payload [] (fan_broker f) = (s, Ok j) →
    fan_step Env f (mkFan s (<[p := n]> (fan_left f)) (Datatypes.S (fan_accepted f)) (fan_errs f))
| fan_failed p n NewID now s err :
    fan_left f !! p = Some (Datatypes.S n) →
    EnqueueTask Marshal (NewClient [WithDefaultQueue queueName]) NewID now taskType payload [] (fan_broker f) = (s, Err err) →
    fan_step Env f (mkFan s (<[p := 0%nat]> (fan_left f)) (fan_accepted f) (fan_errs f ++ [err]))
| fan_env s : Env (fan_broker f) s → fan_step Env f (mkFan s (fan_left f) (fan_accepted f) (fan_errs f)).

(** [wg.Wait()] has returned. *)
Definition fan_over (f : fan S) : Prop := Forall (λ n, n = 0%nat) (fan_left f).
End fan.

(** ** The runs *)

Definition spawnWorkers : option error → (nat → option error) → nat → demo (list effect) (list nat * option error) :=
  spawn (λ _ err, Errorf "start worker: %w" [] [err]).
Definition stopAll (children : list nat) : demo (list effect) unit :=
  effects ((Killed <$> children) ++ (Waited <$> children)).

Section runs.
(** The errors of [rdb.New], [os.Executable] and [cmd.Start]. *)
Context (new exe : option error) (starts : nat → option error).

(** throughputRun: the errors of its waits and of the producers, and its clock readings. *)
Definition throughputRun (n : nat) (registered enqueued processed : option error) (start enqueueDone finish : Z)
  : demo (list effect) bench_result :=
  deferring (effects [Cleaned])
    (_ ← check new;
     '(children, err) ← spawnWorkers exe starts n;
     _ ← check err;
     deferring (stopAll children)
       (_ ← check registered;
        _ ← check enqueued;
        _ ← check processed;
        mret (rates (Z.of_nat n) start enqueueDone finish))).

(** The loop of latencyRun: one job at a time, with a sleep in between. *)
Fixpoint latency_loop (enqueue : nat → option error) (slept : nat → bool) (ctx_err : error) (i n : nat) : option error :=
  match n with
  | O => None
  | S n =>
      match enqueue i with
      | Some err => Some err
      | None => if slept i then latency_loop enqueue slept ctx_err (S i) n else Some ctx_err
      end
  end.
Definition latencyRun (registered : option error) (enqueue : nat → option error) (slept : nat → bool) (ctx_err : error)
  (processed : option error) (samples : res (list Z)) : demo (list effect) (list Z) :=
  deferring (effects [Cleaned])
    (_ ← check new;
     '(children, err) ← spawnWorkers exe starts 4;
     _ ← check err;
     deferring (stopAll children)
       (_ ← check registered;
        _ ← check (latency_loop enqueue slept ctx_err 0 (Z.to_nat latencyJobs));
        _ ← check processed;
        or_return samples)).
End runs.

(** The configuration of a worker process. *)
Definition worker_config : Config :=
  mkConfig [queueName] None false concurrency (30 * Second) (2 * Second) None "" [].

(** The lines of printSummary, [Round] being of the durations and [F] how a rate is printed; it
    panics where an index is out of range. *)
Definition summary_lines (Duration_String : Z → string) (F : float64 → string) (results : list bench_result) (samples : list Z)
  : may_panic (list line) :=
  let head :=
    [("--- results ---", []);
     ("%-9s %-18s %-18s %s", ["workers"; "end-to-end/sec"; "enqueue/sec"; "drain time"])] ++
    ((λ r, ("%-9d %-18.0f %-18.0f %s",
            [pretty (workers r); F (endToEndRate r); F (enqueueRate r); Duration_String (Round (elapsed r) Millisecond)])) <$> results) in
  let shown d := [Duration_String (Round d 1000)] in
  let percentiles :=
    match pct samples (hundredths 50), pct samples (hundredths 95), pct samples (hundredths 99), last samples with
    | Done p50, Done p95, Done p99, Some max =>
        Done [("enqueue-to-start latency on an idle queue (%d samples)", [pretty (length samples)]);
              ("  p50 %v", shown p50); ("  p95 %v", shown p95); ("  p99 %v", shown p99); ("  max %v", shown max)]
    | _, _, _, _ => Panic "index out of range"
    end in
  match (if bool_decide (0 < length samples)%nat then percentiles else Done []), peak results with
  | Done lines, Done best =>
      Done (head ++ lines ++
            [("peak: %.0f jobs/sec sustained across %d worker processes", [F (endToEndRate best); pretty (workers best)])])
  | Panic msg, _ | _, Panic msg => Panic msg
  end.

(** runCoordinator once the server has answered: [runs] is throughputRun on a number of workers and
    [latency] latencyRun. A panic of printSummary is its result. *)
Section coordinator.
Context (Duration_String : Z → string) (F : float64 → string) (addr : string).
Context (runs : Z → demo (list effect) bench_result) (latency : demo (list effect) (list Z)).

Definition result_line (r : bench_result) : line :=
  ("  %d worker(s): %7.0f jobs/sec end-to-end  (enqueue %7.0f/sec, drained in %s)",
   [pretty (workers r); F (endToEndRate r); F (enqueueRate r); Duration_String (Round (elapsed r) Millisecond)]).
Fixpoint ladder (ws : list Z) (results : list bench_result) : demo (list effect) (list bench_result) :=
  match ws with
  | [] => mret results
  | w :: ws => r ← runs w; _ ← Printf (result_line r).1 (result_line r).2; ladder ws (results ++ [r])
  end.
Definition printSummary (results : list bench_result) (samples : list Z) : demo (list effect) (may_panic unit) := λ c,
  match summary_lines Duration_String F results samples with
  | Done lines => (mkConsole (world c) (printed c ++ lines), Ok (Done ()))
  | Panic msg => (c, Ok (Panic msg))
  end.
Definition runCoordinator : demo (list effect) (may_panic unit) :=
  _ ← Printf "throughput: %d jobs per run, no-op handler, %d concurrency per worker" [pretty throughputJobs; pretty concurrency];
  _ ← Printf "redis: %s" [addr];
  results ← ladder workerCounts [];
  _ ← Printf "latency: %d jobs onto an idle queue with 4 workers already running" [pretty latencyJobs];
  percentiles ← latency;
  printSummary results percentiles.
End coordinator.

(** ** Lemmas: floating-point order *)

(** Numbers that are not NaN, as triples in lexicographic order. *)
Definition is_nan (x : float64) : bool := match x with S754_nan => true | _ => false end.
Definition rank (x : float64) : Z * (Z * Z) :=
  match x with
  | S754_infinity s => (if s then -2 else 2, (0, 0))
  | S754_finite true m e => (-1, (- e, - Z.pos m))
  | S754_zero _ => (0, (0, 0))
  | S754_finite false m e => (1, (e, Z.pos m))
  | S754_nan => (0, (0, 0))
  end.
Definition rank_lt (x y : Z * (Z * Z)) : Prop :=
  x.1 < y.1 ∨ (x.1 = y.1 ∧ (x.2.1 < y.2.1 ∨ (x.2.1 = y.2.1 ∧ x.2.2 < y.2.2))).

Lemma SFltb_rank x y : is_nan x = false → is_nan y = false → SFltb x y = true ↔ rank_lt (rank x) (rank y).
Proof.
  intros Hx Hy. unfold SFltb, rank_lt.
  destruct x as [sx|sx| |sx mx ex], y as [sy|sy| |sy my ey]; try done;
    repeat match goal with s : bool |- _ => destruct s end; cbn [SFcompare rank fst snd]; try (split; [done|lia]); try (split; lia);
    change (Pos.compare_cont Eq mx my) with (Pos.compare mx my);
    destruct (Z.compare_spec ex ey); try (split; [done|lia]); try (split; lia);
    destruct (Pos.compare_spec mx my); cbn [CompOpp]; split; (done || lia).
Qed.

Lemma SFltb_chain x y z :
  is_nan x = false → is_nan y = false → is_nan z = false → SFltb x y = false → SFltb y z = false → SFltb x z = false.
Proof.
  intros Hx Hy Hz. rewrite <- !not_true_iff_false, !SFltb_rank by done. unfold rank_lt. lia.
Qed.

Lemma SFltb_asym x y : is_nan x = false → is_nan y = false → SFltb x y = true → SFltb y x = false.
Proof. intros Hx Hy. rewrite <- not_true_iff_false, !SFltb_rank by done. unfold rank_lt. lia. Qed.

Lemma SFltb_irrefl x : is_nan x = false → SFltb x x = false.
Proof. intros Hx. rewrite <- not_true_iff_false, SFltb_rank by done. unfold rank_lt. lia. Qed.

(** The best of the results seen so far. *)
Lemma peak_loop results best :
  is_nan (endToEndRate best) = false → Forall (λ r, is_nan (endToEndRate r) = false) results →
  let best' := foldl (λ best r, if SFltb (endToEndRate best) (endToEndRate r) then r else best) best results in
  is_nan (endToEndRate best') = false ∧ (best' = best ∨ best' ∈ results) ∧ SFltb (endToEndRate best') (endToEndRate best) = false ∧
  ∀ r, r ∈ results → SFltb (endToEndRate best') (endToEndRate r) = false.
Proof.
  revert best. induction results as [|r results IH]; intros best Hb HF; cbn [foldl].
  { split_and!; [done|by left|by apply SFltb_irrefl|]. intros r Hr. by apply elem_of_nil in Hr. }
  apply Forall_cons in HF as [Hr HF].
  set (b1 := if SFltb (endToEndRate best) (endToEndRate r) then r else best).
  assert (is_nan (endToEndRate b1) = false) as Hb1 by (unfold b1; by destruct (SFltb _ _)).
  destruct (IH b1 Hb1 HF) as (Hn & Hin & Hle & Hall). cbv zeta in *. set (b2 := foldl _ b1 results) in *.
  assert (SFltb (endToEndRate b1) (endToEndRate best) = false ∧ SFltb (endToEndRate b1) (endToEndRate r) = false) as [H1 H2].
  { unfold b1. destruct (SFltb (endToEndRate best) (endToEndRate r)) eqn:E; split; auto using SFltb_asym, SFltb_irrefl. }
  split_and!; [done| | |].
  - destruct Hin as [->|?]; [|right; by right]. unfold b1. destruct (SFltb _ _); [right; by left|by left].
  - by apply (SFltb_chain _ (endToEndRate b1)).
  - intros r' [->|Hr']%elem_of_cons; [|by apply Hall]. by apply (SFltb_chain _ (endToEndRate b1)).
Qed.

(** ** Lemmas: percentiles *)

(** The index pct computes is the exact one: checked for every number of samples up to a
    thousand, twice what a run without a repeated delivery takes. *)
Definition most_samples : nat := 1000.
Definition pct_index (p n : Z) : Z := trunc (fmul (hundredths p) (of_int (n - 1))).

Lemma pct_index_exact p n :
  p ∈ [50; 95; 99] → (1 ≤ n ≤ Z.of_nat most_samples)%Z → pct_index p n = (p * (n - 1)) / 100.
Proof.
  intros Hp Hn.
  assert (forallb (λ k, forallb (λ p, Z.eqb (pct_index p (Z.of_nat k)) ((p * (Z.of_nat k - 1)) / 100)) [50; 95; 99])
    (seq 1 most_samples) = true) as Hall by (vm_compute; reflexivity).
  rewrite forallb_forall in Hall. specialize (Hall (Z.to_nat n)). rewrite in_seq in Hall.
  rewrite Z2Nat.id in Hall by lia. specialize (Hall ltac:(lia)). rewrite forallb_forall in Hall.
  apply list_elem_of_In in Hp. by apply Hall, Z.eqb_eq in Hp.
Qed.

Lemma sort_samples_spec l : Sorted Z.le (sort_samples l) ∧ sort_samples l ≡ₚ l.
Proof. split; [apply Sorted_merge_sort, _|apply merge_sort_Permutation]. Qed.

Lemma sorted_between l i k x y : Sorted Z.le l → l !! i = Some x → l !! k = Some y → (i ≤ k)%nat → x ≤ y.
Proof.
  intros Hs. apply (StronglySorted_Sorted Z.le) || apply Sorted_StronglySorted in Hs; [|apply _].
  revert i k. induction Hs as [|z l _ IH HF]; intros i k Hi Hk Hle; [done|].
  destruct i as [|i], k as [|k]; cbn in *; simplify_eq; try lia.
  - rewrite Forall_lookup in HF. by eapply HF.
  - eapply IH; [done..|lia].
Qed.

(** ** Lemmas: the producers *)

Lemma shares_total total : 0 ≤ total →
  Z.of_nat (sum_list ((λ p, Z.to_nat (share total (Z.of_nat p))) <$> seq 0 (Z.to_nat producers))) = total.
Proof.
  intros Ht. set (per := total / 8).
  assert (∀ p, share total p = if bool_decide (p = 7) then total - per * 7 else per) as Hs.
  { intros p. unfold share, producers. cbv zeta. rewrite Z.quot_div_nonneg by lia. done. }
  change (seq 0 (Z.to_nat producers)) with [0; 1; 2; 3; 4; 5; 6; 7]%nat. cbn [fmap list_fmap sum_list sum_list_with foldr].
  rewrite !Hs. unfold per. pose proof (Z.div_pos total 8 Ht ltac:(lia)). pose proof (Z.mul_div_le total 8 ltac:(lia)).
  rewrite !bool_decide_eq_false_2 by lia. rewrite bool_decide_eq_true_2 by lia. cbn. lia.
Qed.

Lemma sum_list_insert (l : list nat) i n m :
  l !! i = Some n → (sum_list (<[i := m]> l) + n = sum_list l + m)%nat.
Proof.
  revert i. induction l as [|x l IH]; intros [|i]; [done|done| |].
  - intros [= ->]. change ((m + sum_list l) + n = (n + sum_list l) + m)%nat. lia.
  - intros Hi. specialize (IH i Hi). change ((x + sum_list (<[i := m]> l)) + n = (x + sum_list l) + m)%nat. lia.
Qed.

Section fan_lemmas.
Context {S A : Type} `{BrokerOps S} (Marshal : A → res (list byte)).
Context (taskType : string) (payload : option A).

(** Jobs accepted and jobs to come are all of them, unless a producer failed. *)
Definition fan_ok_total (total : Z) (f : fan S) : Prop :=
  let n := Z.of_nat (sum_list (fan_left f)) + Z.of_nat (fan_accepted f) in
  (fan_errs f = [] → n = total) ∧ (fan_errs f ≠ [] → n < total).

Lemma fan_total Env total s f :
  0 ≤ total → rtc (fan_step Marshal taskType payload Env) (fan_start total s) f → fan_ok_total total f.
Proof.
  intros Ht Hr. eapply (rtc_invariant _ (fan_ok_total total)); [|exact Hr|].
  - intros f1 f2 [Hok Hbad] [p n NewID now s1 j Hp _|p n NewID now s1 err Hp _|s1 _]; [| |done];
      pose proof (sum_list_insert _ _ _ n Hp) as HS; pose proof (sum_list_insert _ _ _ 0 Hp) as HS0; unfold fan_ok_total;
      cbn [fan_left fan_accepted fan_errs] in *.
    + split; intros He; [specialize (Hok He)|specialize (Hbad He)]; lia.
    + split; [intros He; by destruct (fan_errs f1)|]. intros _. destruct (fan_errs f1) eqn:E; [specialize (Hok eq_refl)|specialize (Hbad ltac:(done))]; lia.
  - unfold fan_ok_total, fan_start. cbn [fan_left fan_accepted fan_errs]. rewrite shares_total by done. split; [lia|done].
Qed.
End fan_lemmas.

(** ** Lemmas: the count of completed jobs *)

(** The value of a counter, absent for none. *)
Definition counter (k : string) (ks : keyspace) : Z :=
  match ks !! k with Some (RStr s, _) => default 0 (parse_int s) | _ => 0 end.
Definition counting (k : string) (ks : keyspace) : Prop := ks !! k = None ∨ ∃ m : Z, ks !! k = Some (RStr (pretty m), None).

(** Programs that return 1 exactly if they increment the counter, once; [n] times so far. *)
Definition acked (r : list reply) : bool := match r with r0 :: _ => bool_decide (toInt64 r0 = 1) | [] => false end.
Fixpoint increments (k : string) (n : nat) (p : prog (list reply)) : Prop :=
  match p with
  | Ret r => n = if acked r then 1%nat else 0%nat
  | Raise => True
  | Call (INCR k') f => if decide (k' = k) then ∀ r, increments k (S n) (f r) else ∀ r, increments k n (f r)
  | Call c f => cmd_key c ≠ Some k ∧ ∀ r, increments k n (f r)
  end.

Lemma counter_INCR now k ks :
  counting k ks → ∃ ks' r, documented now (INCR k) ks = (ks', r) ∧ counter k ks' = counter k ks + 1 ∧ counting k ks'.
Proof.
  intros [Hk|[m Hk]]; cbn [documented]; unfold live, counter; rewrite Hk.
  - do 2 eexists. split; [done|]. rewrite lookup_insert_eq. split; [done|]. right. exists 1. by rewrite lookup_insert_eq.
  - rewrite parse_int_pretty. do 2 eexists. split; [done|]. rewrite lookup_insert_eq, parse_int_pretty. split; [done|].
    right. exists (m + 1). by rewrite lookup_insert_eq.
Qed.

Lemma counter_same k ks ks' : ks' !! k = ks !! k → counter k ks' = counter k ks ∧ (counting k ks → counting k ks').
Proof. intros E. unfold counter, counting. by rewrite E. Qed.

Lemma increments_run now k p n ks :
  increments k n p → counting k ks →
  match run_prog (documented now) p ks with
  | (ks', Some r) => counter k ks' + Z.of_nat n = counter k ks + (if acked r then 1 else 0)
  | _ => True
  end.
Proof.
  revert n ks. induction p as [r| |c f IH]; intros n ks Hp Hk; cbn [run_prog]; [cbn [increments] in Hp; rewrite Hp; by destruct (acked r)|done|].
  assert ((∃ k', c = INCR k' ∧ k' = k ∧ ∀ r, increments k (S n) (f r)) ∨ (cmd_key c ≠ Some k ∧ ∀ r, increments k n (f r))) as [(k' & -> & -> & Hf)|[Hc Hf]].
  { destruct c; try by right. cbn [increments] in Hp. destruct (decide (k0 = k)) as [->|Hne]; [left; by exists k|right].
    split; [|done]. cbn. congruence. }
  - destruct (counter_INCR now k ks Hk) as (ks1 & r & -> & Hcnt & Hk1). destruct r; try done;
      match goal with |- context [f ?r] => specialize (IH r (S n) ks1 (Hf r) Hk1) end;
      destruct (run_prog _ _ _) as [ks2 [r|]]; try done; lia.
  - pose proof (documented_frame now c ks k Hc) as HF. destruct (documented now c ks) as [ks1 r]. cbn [fst] in HF.
    destruct (counter_same _ _ _ HF) as [Hcnt Hk1]. specialize (Hk1 Hk). destruct r; try done;
      match goal with |- context [f ?r] => specialize (IH r n ks1 (Hf r) Hk1) end;
      destruct (run_prog _ _ _) as [ks2 [r|]]; try done; lia.
Qed.

Section processed.
Context {DB : Type} `{RedisLaws DB} (b : settings).

Definition processed (db : DB) : Z := counter (key b NProcessed) (view db).

(** The acknowledgement's script. *)
Ltac inc_step Hne :=
  lazymatch goal with
  | |- increments _ _ (Ret _) => cbn; reflexivity
  | |- increments _ _ Raise => exact I
  | |- increments _ _ (Call (INCR _) _) => cbn [increments]; rewrite decide_True by reflexivity; intros ?
  | |- increments _ _ (Call _ _) => rewrite ?pActive_app; split; [by apply Hne|intros ?]
  | |- increments _ _ (with_str ?r _) => destruct r; cbn [with_str]; try exact I
  | |- increments _ _ (if ?x then _ else _) => destruct x
  end.
Lemma ack_increments id w ttl : increments (key b NProcessed) 0 (ack_lua (key b (NJob id)) (key b NProcessed) w ttl (pActive b)).
Proof.
  assert (∀ n, n ≠ NProcessed → Some (key b n) ≠ Some (key b NProcessed)) as Hne.
  { intros n Hn Heq. apply Hn, (key_inj b). congruence. }
  unfold ack_lua, fence_lua, release_lua. repeat inc_step Hne.
Qed.

Lemma counting_ty db : ty_ok b (view db) → counting (key b NProcessed) (view db).
Proof.
  intros Hty. unfold counting. destruct (view db !! key b NProcessed) as [v|] eqn:E; [right|by left].
  apply Hty in E as [m ->]. by exists m.
Qed.

Lemma fenceError_acked r id w : fenceError r id w = None ↔ acked r = true.
Proof. unfold fenceError, acked. destruct r as [|r0 rs]; [done|]. case_bool_decide; [done|]. by repeat case_match. Qed.

Lemma ack_processed w id now db :
  redis_inv b db → processed (Ack b w id now db).1 = processed db + (if (Ack b w id now db).2 is Some _ then 0 else 1).
Proof.
  intros HI. pose proof (redis_Ack_spec b w id now db HI) as HA.
  destruct (Ack b w id now db) as [db' [err|]] eqn:HE; cbn [fst snd].
  { destruct HA as [_ ->]. lia. }
  clear HA. unfold Ack, report_to in HE.
  pose proof (increments_run now (key b NProcessed) _ 0 (view db) (ack_increments id w (Milliseconds (completedTTL b)))
    (counting_ty db (ri_ty _ _ HI))) as HR.
  change (kJob b id) with (key b (NJob id)) in HE. change (kProcessed b) with (key b NProcessed) in HE.
  pose proof (Run_view now (ack_lua (key b (NJob id)) (key b NProcessed) w (Milliseconds (completedTTL b)) (pActive b)) db) as HV.
  destruct (Run now _ db) as [db1 [r|]]; [|done]. rewrite HV in HR. injection HE as -> Hf.
  apply fenceError_acked in Hf. rewrite Hf in HR. unfold processed. lia.
Qed.

(** No other operation touches the count. *)
Lemma others_processed now o db :
  match o with RAck _ _ => False | _ => True end → processed (rexec b now o db) = processed db.
Proof.
  intros Ho. unfold processed. apply counter_same. destruct (rexec_reaches b now o db) as (_ & HF & _). apply HF.
  destruct o; cbn; naive_solver.
Qed.
End processed.

(** ** Lemmas: latencies *)

Section latency_lemmas.
Context {DB : Type} `{RedisLaws DB} (prefix : string) (Unmarshal : option (list byte) → res Z).

(** The list of samples, under a key that nobody else uses. *)
Definition samples_at (ds : list Z) (db : DB) : Prop :=
  view db !! kLatencies prefix = match ds with [] => None | _ => Some (RList (pretty <$> ds), None) end.

Lemma samples_list_at now ds db : samples_at ds db → list_at now (view db) (kLatencies prefix) = Some (pretty <$> ds, None).
Proof. intros Hl. unfold samples_at in Hl. unfold list_at, live. rewrite Hl. by destruct ds. Qed.

Lemma latency_handler_spec now t j db ds e :
  samples_at ds db → Unmarshal (Payload j) = Ok e →
  ∃ db', latency_handler prefix Unmarshal now t j db = (db', None) ∧ samples_at (ds ++ [wrap64 (now - e)]) db'.
Proof.
  intros Hl HU. unfold latency_handler. rewrite HU. cbv zeta. set (d := wrap64 (now - e)).
  pose proof (redis_documented t (RPUSH (kLatencies prefix) (pretty d)) db) as HD.
  destruct (redis_call t (RPUSH (kLatencies prefix) (pretty d)) db) as [db' r]. cbn [documented] in HD.
  rewrite (samples_list_at t ds db Hl) in HD. injection HD as HV <-. exists db'. split; [done|].
  unfold samples_at. rewrite <- HV. unfold put_list.
  change ((pretty <$> ds) ++ [pretty d]) with ((pretty <$> ds) ++ (pretty <$> [d])). rewrite <- fmap_app.
  destruct (ds ++ [d]) as [|x l] eqn:E; [by destruct ds|]. cbn [fmap list_fmap]. by rewrite lookup_insert_eq.
Qed.

(** The runs of the handler, each with its clock readings and its job. *)
Fixpoint latency_runs (rs : list (Z * Z * Job)) (db : DB) : DB * list (option error) :=
  match rs with
  | [] => (db, [])
  | (now, t, j) :: rs =>
      let '(db, err) := latency_handler prefix Unmarshal now t j db in
      let '(db, errs) := latency_runs rs db in (db, err :: errs)
  end.

Lemma latency_runs_spec rs db ds es :
  samples_at ds db → (Unmarshal ∘ Payload ∘ snd) <$> rs = Ok <$> es →
  let '(db', errs) := latency_runs rs db in
  Forall (λ e, e = None) errs ∧ samples_at (ds ++ zip_with (λ r e, wrap64 (r.1.1 - e)) rs es) db'.
Proof.
  revert db ds es. induction rs as [|[[now t] j] rs IH]; intros db ds es Hl HU.
  { destruct es; [|done]. cbn. rewrite app_nil_r. done. }
  destruct es as [|e es]; [done|]. cbn [fmap list_fmap] in HU. injection HU as HU HUs. cbn [latency_runs].
  destruct (latency_handler_spec now t j db ds e Hl HU) as (db1 & -> & Hl1). specialize (IH db1 _ es Hl1 HUs).
  destruct (latency_runs rs db1) as [db2 errs]. destruct IH as [HF Hl2]. split; [by constructor|].
  cbn [zip_with]. by rewrite <- app_assoc in Hl2.
Qed.

Lemma read_samples_pretty Sscan ds :
  (∀ d, int64_range d → Sscan (pretty d) = Some d) → Forall int64_range ds → read_samples Sscan (pretty <$> ds) = ds.
Proof.
  intros HS HF. unfold read_samples. induction HF as [|d ds Hd _ IH]; [done|]. cbn [fmap list_fmap omap list_omap].
  by rewrite HS, IH.
Qed.
End latency_lemmas.

(** ** Lemmas: the coordinator *)

(** The sample that is picked. *)
Lemma pct_at samples p :
  (0 < length samples ≤ most_samples)%nat → p ∈ [50; 95; 99] →
  ∃ k d, pct samples (hundredths p) = Done d ∧ samples !! k = Some d ∧
    Z.of_nat k = (p * (Z.of_nat (length samples) - 1)) / 100.
Proof.
  intros Hlen Hp. set (n := Z.of_nat (length samples)).
  assert (pct_index p n = (p * (n - 1)) / 100) as Hi by (apply pct_index_exact; [done|lia]).
  assert (0 <= p <= 100) as Hp' by (repeat (apply elem_of_cons in Hp as [->|Hp]; [lia|]); by apply elem_of_nil in Hp).
  assert (0 ≤ (p * (n - 1)) / 100 < n) as Hb.
  { split; [apply Z.div_pos; nia|]. apply Z.div_lt_upper_bound; nia. }
  set (k := Z.to_nat ((p * (n - 1)) / 100)).
  destruct (lookup_lt_is_Some_2 samples k) as [d Hd]; [lia|]. exists k, d. split_and!; [|done|lia].
  unfold pct. rewrite bool_decide_eq_false_2 by lia. fold n. fold (pct_index p n). rewrite Hi.
  rewrite bool_decide_eq_false_2 by lia. fold k. by rewrite Hd.
Qed.
Lemma pct_total samples p : (length samples ≤ most_samples)%nat → p ∈ [50; 95; 99] → ∃ d, pct samples (hundredths p) = Done d.
Proof.
  intros Hlen Hp. destruct (decide (length samples = 0%nat)) as [Hz|Hz].
  - unfold pct. rewrite bool_decide_eq_true_2 by done. by eexists.
  - destruct (pct_at samples p) as (k & d & Hd & _); [lia|done|]. by exists d.
Qed.

Lemma summary_total Duration_String F results samples :
  results ≠ [] → (length samples ≤ most_samples)%nat →
  ∃ lines best, summary_lines Duration_String F results samples = Done lines ∧ peak results = Done best ∧
    last lines = Some ("peak: %.0f jobs/sec sustained across %d worker processes", [F (endToEndRate best); pretty (workers best)]).
Proof.
  intros Hne Hlen. unfold summary_lines. assert (∃ best, peak results = Done best) as [best ->].
  { destruct results; [done|]. by eexists. }
  destruct (pct_total samples 50) as [p50 ->]; [done|set_solver|]. destruct (pct_total samples 95) as [p95 ->]; [done|set_solver|].
  destruct (pct_total samples 99) as [p99 ->]; [done|set_solver|]. case_bool_decide as Hz.
  - destruct (last samples) as [x|] eqn:Hl; [|apply last_None in Hl as ->; cbn in Hz; lia].
    eexists _, best. split_and!; [reflexivity|done|]. by rewrite app_assoc, last_snoc.
  - eexists _, best. split_and!; [reflexivity|done|]. by rewrite app_assoc, last_snoc.
Qed.

Lemma ladder_results Duration_String F runs :
  (∀ w c c' res, runs w c = (c', Ok res) → workers res = w) →
  ∀ ws results c c' results', ladder Duration_String F runs ws results c = (c', Ok results') →
  workers <$> results' = (workers <$> results) ++ ws.
Proof.
  intros Hw ws. induction ws as [|w ws IH]; intros results c c' results' Hl; cbn [ladder] in Hl.
  - injection Hl as _ <-. by rewrite app_nil_r.
  - apply demo_bind_Ok in Hl as (r & c1 & Hr%Hw & Hl). apply demo_bind_Ok in Hl as ([] & c2 & _ & Hl).
    apply IH in Hl as ->. by rewrite fmap_app, <- app_assoc; cbn; rewrite Hr.
Qed.

(** ** Properties *)

(** What the benchmark waits for is what it means to measure. Over any sequence of operations
    that reaches a state of the broker, the durable counter it polls grows by one with each
    acknowledgement that succeeds, exactly, and no other operation changes it; and the poll
    reads it, without an error, in every such state. *)
Theorem processed_counts {DB} `{RedisLaws DB} (b : settings) now o (db : DB) :
  redis_reachable b db → sane b now o db →
  (∀ t, processed_poll b t db = Ok (processed b db)) ∧
  processed b (rexec b now o db) =
    processed b db + match o with RAck w id => if (Ack b w id now db).2 is Some _ then 0 else 1 | _ => 0 end.
Proof.
  intros HI%reachable_inv _. split.
  - intros t. unfold processed_poll. change (prefix b +:+ ":stat:processed") with (key b NProcessed).
    pose proof (redis_documented t (GET (key b NProcessed)) db) as HD. destruct (redis_call t _ db) as [db' r]. cbn [documented snd] in *.
    destruct (counting_ty b db (ri_ty _ _ HI)) as [Hk|[m Hk]]; unfold live in HD; unfold processed, counter; rewrite Hk in HD |- *;
      injection HD as _ <-; [done|]. by rewrite parse_int_pretty.
  - destruct o; try (rewrite others_processed by done; lia). by rewrite <- ack_processed.
Qed.

(** The producers share the workload without loss. For every number of jobs, the shares of the
    eight producers add up to it; and however their enqueues are interleaved with each other
    and with the workers, when all producers have returned, exactly that many jobs have been
    accepted if none of them failed, and fewer if one did. *)
Theorem producers_enqueue_all {S A} `{BrokerOps S} (Marshal : A → res (list byte)) taskType payload Env total (s : S) f :
  0 ≤ total → rtc (fan_step Marshal taskType payload Env) (fan_start total s) f → fan_over f →
  length (fan_left f) = Z.to_nat producers ∧
  (fan_errs f = [] → Z.of_nat (fan_accepted f) = total) ∧ (fan_errs f ≠ [] → Z.of_nat (fan_accepted f) < total).
Proof.
  intros Ht Hr Hover. destruct (fan_total Marshal taskType payload Env total s f Ht Hr) as [Hok Hbad].
  assert (sum_list (fan_left f) = 0%nat) as Hz by (unfold fan_over in Hover; clear -Hover; by induction Hover as [|n l -> _ IH]).
  rewrite Hz in Hok, Hbad. split; [|split; intros He; [specialize (Hok He)|specialize (Hbad He)]; lia].
  eapply (rtc_invariant _ (λ f, length (fan_left f) = Z.to_nat producers)); [|exact Hr|done].
  intros f1 f2 Hl [p n NewID now s1 j _ _|p n NewID now s1 err _ _|s1 _]; cbn; rewrite ?length_insert; done.
Qed.

(** The percentiles are samples of the right rank. For up to a thousand samples in order, the
    index that is computed in floating point for the 50th, 95th and 99th percentile is the
    exact one, rounded down, so that pct never panics and returns a sample with as many
    samples not above it, and as many not below it, as the rank says. *)
Theorem percentile_rank samples p :
  Sorted Z.le samples → (0 < length samples ≤ most_samples)%nat → p ∈ [50; 95; 99] →
  ∃ k d, pct samples (hundredths p) = Done d ∧ samples !! k = Some d ∧
    Z.of_nat k = (p * (Z.of_nat (length samples) - 1)) / 100 ∧
    (∀ i x, samples !! i = Some x → (i ≤ k)%nat → x ≤ d) ∧ (∀ i x, samples !! i = Some x → (k ≤ i)%nat → d ≤ x).
Proof.
  intros Hs Hlen Hp. destruct (pct_at samples p Hlen Hp) as (k & d & Hd & Hk & Hkn). exists k, d.
  split_and!; [done|done|done| |]; intros i x Hx Hle; by eapply sorted_between.
Qed.

(** A run that succeeds is on the number of workers it was asked for. *)
Lemma throughput_workers new exe starts n registered enqueued completed start enqueueDone finish c c' res :
  throughputRun new exe starts n registered enqueued completed start enqueueDone finish c = (c', Ok res) → workers res = Z.of_nat n.
Proof.
  unfold throughputRun. intros (c1 & Hm & _)%deferring_Ok.
  apply demo_bind_Ok in Hm as (? & ? & _ & Hm). apply demo_bind_Ok in Hm as ([children err] & c2 & _ & Hm).
  apply demo_bind_Ok in Hm as (? & c3 & _ & Hm). apply deferring_Ok in Hm as (c4 & Hm & _).
  apply demo_bind_Ok in Hm as (? & ? & _ & Hm). apply demo_bind_Ok in Hm as (? & ? & _ & Hm).
  apply demo_bind_Ok in Hm as (? & ? & _ & Hm). by injection Hm as _ <-.
Qed.

(** The summary is always printed: a coordinator whose runs and whose measurement succeed, with
    at most a thousand samples, does not panic, and its ladder has a result per worker count. *)
Theorem coordinator_total Duration_String F addr runs latency c c' r :
  (∀ w c c' res, runs w c = (c', Ok res) → workers res = w) →
  (∀ c c' samples, latency c = (c', Ok samples) → (length samples ≤ most_samples)%nat) →
  runCoordinator Duration_String F addr runs latency c = (c', Ok r) →
  r = Done () ∧ ∃ results best, workers <$> results = workerCounts ∧ peak results = Done best ∧
    last (printed c') =
      Some ("peak: %.0f jobs/sec sustained across %d worker processes", [F (endToEndRate best); pretty (workers best)]).
Proof.
  intros Hw Hlat Hrun. unfold runCoordinator in Hrun.
  apply demo_bind_Ok in Hrun as ([] & c1 & _ & Hrun). apply demo_bind_Ok in Hrun as ([] & c2 & _ & Hrun).
  apply demo_bind_Ok in Hrun as (results & c3 & Hladder & Hrun). apply demo_bind_Ok in Hrun as ([] & c4 & _ & Hrun).
  apply demo_bind_Ok in Hrun as (samples & c5 & Hs%Hlat & Hrun).
  apply (ladder_results _ _ _ Hw) in Hladder. cbn [fmap list_fmap app] in Hladder.
  assert (results ≠ []) as Hne by (intros ->; done).
  destruct (summary_total Duration_String F results samples Hne Hs) as (lines & best & HS & Hb & Hl).
  unfold printSummary in Hrun. rewrite HS in Hrun. injection Hrun as <- <-. split; [done|].
  exists results, best. split_and!; [done|done|]. cbn [printed]. by rewrite last_app, Hl.
Qed.

(** The peak is the best of the results. Of results whose rates are numbers, the one printed
    as the peak is among them, and none has a greater rate. *)
Theorem peak_best results :
  results ≠ [] → Forall (λ r, is_nan (endToEndRate r) = false) results →
  ∃ best, peak results = Done best ∧ best ∈ results ∧
    ∀ r, r ∈ results → SFltb (endToEndRate best) (endToEndRate r) = false.
Proof.
  intros Hne HF. destruct results as [|r0 results]; [done|]. pose proof HF as [H0 _]%Forall_cons.
  destruct (peak_loop (r0 :: results) r0 H0 HF) as (_ & Hin & _ & Hall). eexists. split; [reflexivity|].
  split; [|exact Hall]. destruct Hin as [Heq|Hin]; [|exact Hin]. cbv zeta in Heq. rewrite Heq. by left.
Qed.

(** The latencies that are reported are the ones that were measured. If the handler runs on
    jobs whose payloads decode, each run records, without an error, the time from the
    payload's instant to its own clock reading; and latencyRun then reads back exactly these
    durations, each as often as it was measured, in increasing order. *)
Theorem latency_measured {DB} `{RedisLaws DB} prefix Unmarshal Sscan rs es now (db : DB) :
  view db !! kLatencies prefix = None → (∀ d, int64_range d → Sscan (pretty d) = Some d) →
  (Unmarshal ∘ Payload ∘ snd) <$> rs = Ok <$> es →
  let '(db', errs) := latency_runs prefix Unmarshal rs db in
  Forall (λ e, e = None) errs ∧
  ∃ samples, latencies prefix Sscan now db' = (db', Ok samples) ∧ Sorted Z.le samples ∧
    samples ≡ₚ zip_with (λ r e, wrap64 (r.1.1 - e)) rs es.
Proof.
  intros Hnone HS HU. pose proof (latency_runs_spec prefix Unmarshal rs db [] es Hnone HU) as HL.
  destruct (latency_runs prefix Unmarshal rs db) as [db' errs]. destruct HL as [HF Hl]. split; [done|]. cbn [app] in Hl.
  set (ds := zip_with _ rs es) in *. exists (sort_samples ds).
  assert (Forall int64_range ds) as Hr.
  { unfold ds. apply Forall_lookup. intros i d Hd. apply lookup_zip_with_Some in Hd as (r & e & -> & _). apply wrap64_range. }
  destruct (sort_samples_spec ds) as [Hsort Hperm]. split_and!; [|done|done].
  unfold latencies. pose proof (redis_documented now (LRANGE (kLatencies prefix)) db') as HD.
  destruct (redis_call now (LRANGE (kLatencies prefix)) db') as [db2 r]. cbn [documented] in HD.
  rewrite (samples_list_at prefix now ds db' Hl) in HD. injection HD as HV <-. apply (inj view) in HV as <-.
  by rewrite read_samples_pretty.
Qed.

(** The runs clean up after themselves. On every way out, the keys of the run are removed
    last; if all workers started, every one of them has been killed, and then waited for,
    before that, whatever failed meanwhile, and the run succeeds exactly if nothing did. If a
    worker does not start, though, those started before it are left running when the keys are
    removed. *)
Theorem runs_clean_up new exe starts n registered enqueued completed start enqueueDone finish :
  let '(c, r) := throughputRun new exe starts n registered enqueued completed start enqueueDone finish (mkConsole [] []) in
  (∃ fx, world c = fx ++ [Cleaned] ∧ Cleaned ∉ fx) ∧
  (new = None → exe = None → (∀ i, (i < n)%nat → starts i = None) →
     world c = (Started <$> seq 0 n) ++ (Killed <$> seq 0 n) ++ (Waited <$> seq 0 n) ++ [Cleaned] ∧
     ((∃ res, r = Ok res) ↔ registered = None ∧ enqueued = None ∧ completed = None)) ∧
  (∀ k, new = None → exe = None → (k < n)%nat → is_Some (starts k) → (∀ i, (i < k)%nat → starts i = None) →
     world c = (Started <$> seq 0 k) ++ [Cleaned] ∧ ∃ err, r = Err err).
Proof.
  unfold throughputRun, deferring, spawnWorkers, spawn.
  destruct new as [e|]; [cbn; split_and!; [exists []; split; [done|apply not_elem_of_nil]|done|done]|]. unfold mbind, demo_bind. cbn [check].
  destruct exe as [e|]; [cbn; split_and!; [exists []; split; [done|apply not_elem_of_nil]|done|done]|].
  destruct (spawn_loop_spec (λ _ err, Errorf "start worker: %w" [] [err]) starts 0 n [] (mkConsole [] [])) as (k & Hk & Hlt & -> & Hfail).
  change (∀ k', (k' < k)%nat → starts k' = None) in Hlt. cbn [world printed app]. rewrite Nat.add_0_l in *.
  assert (∀ (F : nat → effect) (l : list nat), (∀ i, F i ≠ Cleaned) → Cleaned ∉ F <$> l) as Hno.
  { intros F l HF (i & Heq & _)%list_elem_of_fmap. by apply (HF i). }
  destruct (decide (k = n)) as [->|Hne].
  - match goal with |- context [let '(_, _) := ?m in _] => assert (∃ r,
      m = (mkConsole ((Started <$> seq 0 n) ++ (Killed <$> seq 0 n) ++ (Waited <$> seq 0 n) ++ [Cleaned]) [], r) ∧
      ((∃ res, r = Ok res) ↔ registered = None ∧ enqueued = None ∧ completed = None)) as (r & -> & Hr) end.
    { destruct registered as [e|]; [|destruct enqueued as [e|]; [|destruct completed as [e|]]]; cbn; rewrite <- !app_assoc; eexists;
        (split; [reflexivity|]); (split; [intros [res Hres]; done|]); try (intros (? & ? & ?); done). intros _. by eexists. }
    split_and!.
    + exists ((Started <$> seq 0 n) ++ (Killed <$> seq 0 n) ++ (Waited <$> seq 0 n)). cbn [world]. split; [by rewrite <- !app_assoc|].
      rewrite !elem_of_app. intros [Hin|[Hin|Hin]]; revert Hin; by apply Hno.
    + done.
    + intros k' _ _ Hk' [e He] Hall. exfalso. specialize (Hlt k' Hk'). congruence.
  - destruct (Hfail Hne) as [err Herr]. rewrite Herr. cbn. split_and!.
    + exists (Started <$> seq 0 k). split; [done|]. by apply Hno.
    + intros _ _ Hall. rewrite Hall in Herr by lia. done.
    + intros k' _ _ Hk' [e He] Hall. assert (k' = k) as ->; [|by eauto].
      destruct (Nat.lt_trichotomy k' k) as [Hc|[?|Hc]]; [|done|].
      * specialize (Hlt k' Hc). congruence.
      * specialize (Hall k Hc). congruence.
Qed.

(** ** Witnesses *)

Lemma processed_counts_witness : processed demo_settings demo3 = 1.
Proof.
  assert (sane demo_settings (at_s 2) (RAck "w" "a") demo2) as Hs by (split; [by apply demo_clock|exact I]).
  etrans; [exact (proj2 (processed_counts demo_settings (at_s 2) (RAck "w" "a") demo2 demo_reach2 Hs))|]. vm_compute. reflexivity.
Defined.

(** One job, which falls to the last of the producers. *)
Definition one_enqueued : keyspace * res Job :=
  @EnqueueTask keyspace (redis_broker demo_settings) unit (λ _, Ok []) (NewClient [WithDefaultQueue queueName]) "x" (at_s 0) "bench:noop" None [] ∅.
Definition one_fan : fan keyspace := mkFan one_enqueued.1 (<[7%nat := 0%nat]> (replicate 7 0%nat ++ [1%nat])) 1 [].

Lemma producers_enqueue_all_witness : Z.of_nat (fan_accepted one_fan) = 1 ∧ length (fan_left one_fan) = 8%nat.
Proof.
  assert (∃ jb, one_enqueued.2 = Ok jb) as [jb Hj] by (eexists; vm_compute; reflexivity).
  assert (fan_over one_fan) as Ho by (repeat constructor).
  assert (@fan_step keyspace unit (redis_broker demo_settings) (λ _, Ok []) "bench:noop" None (λ _ _, False) (fan_start 1 ∅) one_fan) as Hs.
  { refine (@fan_ok keyspace unit (redis_broker demo_settings) (λ _, Ok []) "bench:noop" None (λ _ _, False) (fan_start 1 ∅) 7 0 "x" (at_s 0) one_enqueued.1 jb _ _).
    - vm_compute. reflexivity.
    - rewrite <- Hj. apply surjective_pairing. }
  destruct (@producers_enqueue_all keyspace unit (redis_broker demo_settings) (λ _, Ok []) "bench:noop" None (λ _ _, False) 1 ∅ one_fan
    ltac:(lia) (rtc_once _ _ Hs) Ho) as (HL & HA & _).
  exact (conj (HA eq_refl) HL).
Defined.

Lemma percentile_rank_witness :
  ∃ d, pct [10; 20; 30; 40; 50] (hundredths 95) = Done d ∧ d = 40.
Proof.
  destruct (percentile_rank [10; 20; 30; 40; 50] 95) as (k & d & Hp & Hk & Hidx & _).
  - repeat constructor; lia.
  - vm_compute. lia.
  - right. left.
  - exists d. split; [exact Hp|]. assert (k = 3%nat) as -> by (change (Z.of_nat k = 3) in Hidx; lia). injection Hk as <-. reflexivity.
Defined.

Lemma peak_best_witness :
  ∃ best, peak (rates 1 0 Second (5 * Second) :: rates 2 0 Second (3 * Second) :: nil) = Done best ∧ workers best = 2.
Proof.
  destruct (peak_best (rates 1 0 Second (5 * Second) :: rates 2 0 Second (3 * Second) :: nil)) as (best & Hp & _).
  - discriminate.
  - repeat constructor; vm_compute; reflexivity.
  - exists best. split; [exact Hp|]. assert (peak (rates 1 0 Second (5 * Second) :: rates 2 0 Second (3 * Second) :: nil) =
      Done (rates 2 0 Second (3 * Second))) as E by (vm_compute; reflexivity). rewrite E in Hp. injection Hp as <-. reflexivity.
Defined.

Lemma latency_measured_witness :
  let decode (p : option (list byte)) : res Z := Ok (Z.of_nat (length (default [] p))) in
  let j := zeroJob in
  ∃ db samples, latencies "run" parse_int 9 db = (db, Ok samples) ∧ samples ≡ₚ [30; 20].
Proof.
  intros decode j.
  pose proof (latency_measured "run" decode parse_int [(30, 1, j); (20, 2, j)] [0; 0] 9 (∅ : keyspace) (lookup_empty (M := gmap string) _)
    (λ d _, parse_int_pretty d) eq_refl) as HL.
  destruct (latency_runs "run" decode [(30, 1, j); (20, 2, j)] (∅ : keyspace)) as [db errs]. destruct HL as (_ & samples & HS & _ & HP).
  exists db, samples. exact (conj HS HP).
Defined.
