(* ===== verification/Processes.v ===== *)
(** * The processes of the demonstrations (examples/chaos, examples/bench)

    Both programs run as a coordinator that starts itself again as worker processes, and
    tell them what to do through their environment. The environment as the operating system
    passes it, the role switch of main, the head of runCoordinator and runWorker: that the
    children are workers of the run that started them, each under a name of its own. *)
From Stdlib Require Import Strings.Byte Strings.Ascii.
From S2P Require Import Prelude GoBase Job Backoff Queues Interface Client Calendar Schedule CronParse Server RedisServer RedisScripts Redis RedisKeys Demo Chaos Bench.

(** ** Environments *)

(** [strings.Cut(s, "=")]. *)
Fixpoint cut (s : string) : option (string * string) :=
  match s with
  | EmptyString => None
  | String c s => if Ascii.eqb c "="%char then Some ("", s) else '(k, v) ← cut s; Some (String c k, v)
  end.

(** [os.Getenv] in a process with this environment: the first entry of a name counts. *)
Fixpoint Getenv (environ : list string) (name : string) : string :=
  match environ with
  | [] => ""
  | kv :: environ =>
      match cut kv with
      | Some (k, v) => if String.eqb k name then v else Getenv environ name
      | None => Getenv environ name
      end
  end.

(** What a command whose [Env] is set passes to its process: of the entries with one name, the
    last. A name may start with the separator. *)
Definition env_name (kv : string) : option string :=
  match kv with
  | String "="%char kv => Some (match cut kv with Some (k, _) => String "="%char k | None => "" end)
  | _ => fst <$> cut kv
  end.
Fixpoint dedupEnv (env : list string) : list string :=
  match env with
  | [] => []
  | kv :: env =>
      match env_name kv with
      | Some k => if bool_decide (Some k ∈ env_name <$> env) then dedupEnv env else kv :: dedupEnv env
      | None => if String.eqb kv "" then dedupEnv env else kv :: dedupEnv env
      end
  end.

(** The entry of a name and a value. *)
Definition entry_of (name value : string) : string := name +:+ "=" +:+ value.

(** The value of the last entry with a name. *)
Fixpoint last_value (env : list string) (name : string) : option string :=
  match env with
  | [] => None
  | kv :: env =>
      match last_value env name with
      | Some v => Some v
      | None => '(k, v) ← cut kv; if String.eqb k name then Some v else None
      end
  end.

(** ** main *)

(** The last lines of main: what is written to the standard error, and the exit status. *)
Definition exits {A} (Error_ : error → string) (r : res A) : list line * Z :=
  match r with
  | Ok _ => ([], 0)
  | Err err => ([("error: %v", [Error_ err])], 1)
  end.

(** The role switch both begin with. *)
Definition is_worker (roleEnv : string) (environ : list string) : bool := String.eqb (Getenv environ roleEnv) "worker".

(** What a worker process runs: the address of its client, the broker on it, the server and the
    registry of its handlers. *)
Record launched (Handler : Type) :=
  mkLaunched { l_addr : string; l_broker : settings; l_server : Server; l_mux : Mux Handler }.
Arguments mkLaunched {Handler}.
Arguments l_addr {Handler}.
Arguments l_broker {Handler}.
Arguments l_server {Handler}.
Arguments l_mux {Handler}.

(** The broker of internal/rdb has both optional interfaces. *)
Definition rdb_caps : capabilities := mkCapabilities true true.

Section processes.
Context (ReadFile : string → res string) (ParseDuration : string → res Z) (global : randFunc).

(** The shape of runWorker in both: the broker under the prefix from the environment, the
    registry, the configured server, and its Run; the client is closed in any case. *)
Definition work {Handler} (addr prefix : string) (regs : list (string * option Handler)) (cfg : Config)
  (hostname : option string) (pid : Z) (NewID : string) (Run : launched Handler → option error)
  : demo (list effect) (may_panic unit) :=
  deferring (effects [Disconnected])
    (broker ← or_return (NewBroker ReadFile true [WithPrefix prefix]);
     match handle_all regs NewMux with
     | Panic msg => mret (Panic msg)
     | Done mux =>
         srv ← or_return (NewServer ParseDuration global (Some rdb_caps) cfg hostname pid NewID);
         _ ← check (Run (mkLaunched addr broker srv mux));
         mret (Done ())
     end).

(** The head of runCoordinator that the two share: the address is required, and the server must
    answer. *)
Definition connected (environ : list string) (required : string) (ping : option error)
  {A} (rest : string → demo (list effect) A) : demo (list effect) A :=
  let addr := Getenv environ "REDIS_ADDR" in
  if String.eqb addr "" then throw (errors_New required)
  else
    deferring (effects [Disconnected])
      (_ ← check ((λ err, Errorf "connect to redis at %s: %w" [addr] [err]) <$> ping); rest addr).
End processes.

Module ChaosMain.
Definition roleEnv : string := "TASKQ_CHAOS_ROLE".
Definition prefixEnv : string := "TASKQ_CHAOS_PREFIX".
Definition workerIDEnv : string := "TASKQ_CHAOS_WORKER_ID".

(** The prefix of a run, from the clock. *)
Definition run_prefix (UnixNano : Z) : string := "taskq:chaos:" +:+ pretty UnixNano.

(** The environment spawnWorkers gives to its [i]-th child. *)
Definition child_env (environ : list string) (prefix addr : string) (i : nat) : list string :=
  environ ++ [entry_of roleEnv "worker"; entry_of prefixEnv prefix; entry_of workerIDEnv (Chaos.workerID i); entry_of "REDIS_ADDR" addr].

Section main.
Context (ReadFile : string → res string) (ParseDuration : string → res Z) (global : randFunc).
(** runWorker; [chaos_work] is the handler, whose commands are steps of the fleet (Chaos.v). *)
Definition runWorker {Handler} (chaos_work : Handler) (environ : list string) (hostname : option string) (pid : Z)
  (NewID : string) (Run : launched Handler → option error) : demo (list effect) (may_panic unit) :=
  let addr := Getenv environ "REDIS_ADDR" in
  let prefix := Getenv environ prefixEnv in
  let id := Getenv environ workerIDEnv in
  work ReadFile ParseDuration global addr prefix [("chaos:work", Some chaos_work)] (Chaos.worker_config global id)
    hostname pid NewID Run.

(** runCoordinator, with the rest of it as a function of the prefix and the address. *)
Definition runCoordinator (environ : list string) (UnixNano : Z) (ping : option error)
  {A} (rest : string → string → demo (list effect) A) : demo (list effect) A :=
  connected environ
    "REDIS_ADDR is required: this demo needs real worker processes, so an in-memory broker cannot be shared between them"
    ping (rest (run_prefix UnixNano)).

Definition main {A} (environ : list string) (worker coordinator : demo (list effect) A) : demo (list effect) A :=
  if is_worker roleEnv environ then worker else coordinator.
End main.
End ChaosMain.

Module BenchMain.
Definition roleEnv : string := "TASKQ_BENCH_ROLE".
Definition prefixEnv : string := "TASKQ_BENCH_PREFIX".

Definition throughput_prefix (workers UnixNano : Z) : string := "taskq:bench:tp:" +:+ pretty workers +:+ ":" +:+ pretty UnixNano.
Definition latency_prefix (UnixNano : Z) : string := "taskq:bench:lat:" +:+ pretty UnixNano.

Definition child_env (environ : list string) (prefix addr : string) : list string :=
  environ ++ [entry_of roleEnv "worker"; entry_of prefixEnv prefix; entry_of "REDIS_ADDR" addr].

Section main.
Context (ReadFile : string → res string) (ParseDuration : string → res Z) (global : randFunc).
Context {DB : Type} `{RedisServer DB} (Unmarshal : option (list byte) → res Z).

(** The handlers, of the two clock readings and the job, on the server. *)
Definition handler : Type := Z → Z → Job → DB → DB * option error.
Definition noop : handler := λ _ _ _ db, (db, None).
Definition runWorker (environ : list string) (hostname : option string) (pid : Z) (NewID : string)
  (Run : launched handler → option error) : demo (list effect) (may_panic unit) :=
  let addr := Getenv environ "REDIS_ADDR" in
  let prefix := Getenv environ prefixEnv in
  work ReadFile ParseDuration global addr prefix
    [("bench:noop", Some noop); ("bench:latency", Some (latency_handler prefix Unmarshal))] Bench.worker_config
    hostname pid NewID Run.

Definition runCoordinator (environ : list string) (ping : option error) {A} (rest : string → demo (list effect) A)
  : demo (list effect) A :=
  connected environ "REDIS_ADDR is required: workers are separate processes and need a shared broker" ping rest.

Definition main {A} (environ : list string) (worker coordinator : demo (list effect) A) : demo (list effect) A :=
  if is_worker roleEnv environ then worker else coordinator.
End main.
End BenchMain.

(** ** Lemmas: environments *)

(** A name that an environment can hold. *)
Definition plain (name : string) : Prop := name ≠ "" ∧ cut name = None.

Lemma cut_entry name v : cut name = None → cut (entry_of name v) = Some (name, v).
Proof.
  change (entry_of name v) with (name +:+ String "="%char v).
  induction name as [|c name IH]; [done|]. change (String c name +:+ ?s) with (String c (name +:+ s)). cbn [cut].
  destruct (Ascii.eqb c "="%char); [done|]. destruct (cut name) as [[? ?]|]; [done|]. intros _. by rewrite IH.
Qed.

(** For such names, what the command and the process take for the name of an entry agree. *)
Lemma env_name_plain kv name : plain name → env_name kv = Some name ↔ ∃ v, cut kv = Some (name, v).
Proof.
  intros [Hne Hcut]. destruct kv as [|c kv]; [split; [done|by intros [? ?]]|].
  destruct (Ascii.eqb_spec c "="%char) as [->|Hc].
  - split; [|intros [v [=]]; by destruct Hne]. cbn [env_name]. destruct (cut kv) as [[k v]|]; intros [= <-]; [|done].
    cbn in Hcut. discriminate.
  - assert (env_name (String c kv) = fst <$> cut (String c kv)) as ->.
    { destruct c as [[] [] [] [] [] [] [] []]; try reflexivity. by destruct Hc. }
    destruct (cut (String c kv)) as [[k v]|]; cbn; [|split; [done|by intros [? ?]]].
    split; [intros [= ->]; by exists v|by intros [? [= -> _]]].
Qed.

Lemma last_value_named env name :
  plain name → Some name ∈ env_name <$> env ↔ is_Some (last_value env name).
Proof.
  intros Hp. induction env as [|kv env IH]; cbn [last_value fmap list_fmap].
  { split; [by intros ?%elem_of_nil|by intros [? ?]]. }
  rewrite elem_of_cons. destruct (last_value env name) as [v|].
  { split; [by eexists|]. intros _. right. apply IH. by eexists. }
  split.
  - intros [E|Hin]; [|by apply IH in Hin as [? ?]]. symmetry in E. apply (env_name_plain _ _ Hp) in E as [v ->].
    cbn. rewrite String.eqb_refl. by eexists.
  - intros [v Hv]. left. symmetry. apply env_name_plain; [done|]. destruct (cut kv) as [[k v']|]; [|done]. cbn in Hv.
    destruct (String.eqb_spec k name) as [->|]; [|done]. by eexists.
Qed.

(** The process sees the last entry of each name. *)
Lemma Getenv_dedup env name : plain name → Getenv (dedupEnv env) name = default "" (last_value env name).
Proof.
  intros Hp. induction env as [|kv env IH]; [done|]. cbn [dedupEnv last_value].
  destruct (env_name kv) as [k|] eqn:Hk.
  - destruct (decide (k = name)) as [->|Hne].
    + pose proof (proj1 (env_name_plain kv name Hp) Hk) as [v Hv]. case_bool_decide as Hin.
      * rewrite IH. apply (last_value_named _ _ Hp) in Hin as [v' ->]. done.
      * cbn [Getenv]. rewrite Hv, String.eqb_refl. destruct (last_value env name) as [v'|] eqn:Hl; [|cbn; by rewrite String.eqb_refl].
        destruct Hin. apply last_value_named; [done|by eexists].
    + assert (∀ v, cut kv = Some (name, v) → False) as Hno.
      { intros v Hv. assert (env_name kv = Some name) as E by (apply env_name_plain; [done|by exists v]). congruence. }
      assert (Getenv (kv :: dedupEnv env) name = Getenv (dedupEnv env) name) as E1.
      { cbn [Getenv]. destruct (cut kv) as [[k' v]|]; [|done]. destruct (String.eqb_spec k' name) as [->|]; [by destruct (Hno v)|done]. }
      assert (('(k0, v) ← cut kv; if String.eqb k0 name then Some v else None) = None) as ->.
      { destruct (cut kv) as [[k' v]|]; [|done]. cbn. destruct (String.eqb_spec k' name) as [->|]; [by destruct (Hno v)|done]. }
      case_bool_decide; rewrite ?E1, IH; by destruct (last_value env name).
  - assert (cut kv = None) as Hc.
    { destruct kv as [|c kv]; [done|]. destruct (Ascii.eqb_spec c "="%char) as [->|Hc]; [done|].
      destruct (cut (String c kv)) as [[k v]|] eqn:E; [|done].
      destruct c as [[] [] [] [] [] [] [] []]; try (cbn [env_name] in Hk; rewrite E in Hk; discriminate). by destruct Hc. }
    rewrite Hc. destruct (String.eqb kv ""); [|cbn [Getenv]; rewrite Hc]; rewrite IH; by destruct (last_value env name).
Qed.

Lemma last_value_app l1 l2 name :
  last_value (l1 ++ l2) name = match last_value l2 name with Some v => Some v | None => last_value l1 name end.
Proof.
  induction l1 as [|kv l1 IH]; cbn [app last_value]; [by destruct (last_value l2 name)|].
  rewrite IH. by destruct (last_value l2 name).
Qed.

Lemma last_value_entries own name v :
  Forall plain own.*1 → NoDup own.*1 → (name, v) ∈ own → last_value ((λ e, entry_of e.1 e.2) <$> own) name = Some v.
Proof.
  induction own as [|[k x] own IH]; [by intros _ _ ?%elem_of_nil|]. cbn [fmap list_fmap].
  intros [Hp Hall]%Forall_cons [Hk Hnd]%NoDup_cons Hin. cbn [last_value fst snd] in *. rewrite cut_entry by apply Hp.
  apply elem_of_cons in Hin as [[= <- <-]|Hin]; [|by rewrite IH]. cbn. rewrite String.eqb_refl.
  destruct (last_value ((λ e, entry_of e.1 e.2) <$> own) name) as [v'|] eqn:E; [|done]. destruct Hk.
  assert (is_Some (last_value ((λ e, entry_of e.1 e.2) <$> own) name)) as Hs by (by eexists).
  apply last_value_named in Hs; [|done]. apply list_elem_of_fmap in Hs as (kv & Hkv & Hin).
  apply list_elem_of_fmap in Hin as ([k' x'] & -> & Hin). cbn [fst snd] in Hkv.
  assert (plain k') as Hp'. { rewrite Forall_forall in Hall. apply Hall. apply list_elem_of_fmap. by exists (k', x'). }
  pose proof (proj2 (env_name_plain (entry_of k' x') k' Hp') (ex_intro _ x' (cut_entry k' x' (proj2 Hp')))) as E'.
  rewrite E' in Hkv. injection Hkv as ->. apply list_elem_of_fmap. by exists (k', x').
Qed.

(** A variable the parent sets is what the child reads, whatever its own environment has. *)
Lemma child_var environ own name v :
  Forall plain own.*1 → NoDup own.*1 → (name, v) ∈ own →
  Getenv (dedupEnv (environ ++ ((λ e, entry_of e.1 e.2) <$> own))) name = v.
Proof.
  intros Hp Hnd Hin. rewrite Getenv_dedup.
  - by rewrite last_value_app, (last_value_entries own name v).
  - rewrite Forall_forall in Hp. apply Hp. apply list_elem_of_fmap. by exists (name, v).
Qed.

(** ** Lemmas: workers *)

Lemma NewBroker_prefix ReadFile p :
  p ≠ "" → loadScripts ReadFile scriptNames = None → NewBroker ReadFile true [WithPrefix p] = Ok (mkSettings p DefaultCompletedTTL).
Proof.
  intros Hp Hl. unfold NewBroker. cbn [negb foldl WithPrefix prefix completedTTL].
  by rewrite (proj2 (String.eqb_neq _ _) Hp), Hl.
Qed.

(** The server of a worker that serves one queue and has no schedules. *)
Lemma NewServer_one PD g q c vt st bo id hostname pid NewID :
  q ≠ "" →
  let cfg := mkConfig [q] None false c vt st bo id [] in
  ∃ srv, NewServer PD g (Some rdb_caps) cfg hostname pid NewID = Ok srv ∧
    srv_cfg srv = fill_config g cfg (generateWorkerID hostname pid NewID) ∧ server_ok PD cfg srv.
Proof.
  intros Hq cfg. pose proof (NewServer_spec PD g rdb_caps cfg hostname pid NewID) as HS.
  destruct (NewServer PD g (Some rdb_caps) cfg hostname pid NewID) as [srv|e] eqn:HN.
  - exists srv. split_and!; [done|by eapply NewServer_cfg|apply HS].
  - destruct HS. constructor; cbn; try done.
    + intros ?%list_elem_of_singleton. congruence.
    + apply NoDup_singleton.
    + apply NoDup_nil_2.
    + intros e' He. by apply elem_of_nil in He.
Qed.

(** runWorker when nothing is missing: it comes down to Run. *)
Lemma work_runs {Handler} ReadFile PD g addr p (regs : list (string * option Handler)) mux cfg hostname pid NewID srv Run c :
  p ≠ "" → loadScripts ReadFile scriptNames = None → handle_all regs NewMux = Done mux →
  NewServer PD g (Some rdb_caps) cfg hostname pid NewID = Ok srv →
  work ReadFile PD g addr p regs cfg hostname pid NewID Run c =
  (mkConsole (world c ++ [Disconnected]) (printed c),
   match Run (mkLaunched addr (mkSettings p DefaultCompletedTTL) srv mux) with Some err => Err err | None => Ok (Done ()) end).
Proof.
  intros Hp Hl Hm Hs. unfold work, deferring. rewrite (NewBroker_prefix _ _ Hp Hl), Hm, Hs.
  unfold mbind, demo_bind, or_return, check. by destruct (Run _).
Qed.

(** ** Properties *)

(** The children of the chaos demonstration are the workers of its run. Whatever is in the
    coordinator's environment, a variable of the same name included, the [i]-th process it
    starts takes the worker's role, connects to the coordinator's server, uses the
    coordinator's prefix and comes down to the Run of a valid server that takes jobs from the
    queue of the demonstration under the name [workerID i], with the handler registered for
    its tasks; no two children have the same name; and whatever Run returns is the result,
    with the client closed. *)
Theorem chaos_children {Handler} ReadFile PD g (chaos_work : Handler) environ addr p i hostname pid NewID Run coordinator c :
  p ≠ "" → loadScripts ReadFile scriptNames = None →
  let child := dedupEnv (ChaosMain.child_env environ p addr i) in
  ∃ srv mux,
    cfg_WorkerID (srv_cfg srv) = Chaos.workerID i ∧ server_ok PD (Chaos.worker_config g (Chaos.workerID i)) srv ∧
    cfg_Queues (srv_cfg srv) = [Chaos.queueName] ∧ cfg_VisibilityTimeout (srv_cfg srv) = Chaos.visibilityTimeout ∧
    handlers mux = {["chaos:work" := chaos_work]} ∧ (∀ i', Chaos.workerID i' = Chaos.workerID i → i' = i) ∧
    ChaosMain.main child (ChaosMain.runWorker ReadFile PD g chaos_work child hostname pid NewID Run) coordinator c =
    (mkConsole (world c ++ [Disconnected]) (printed c),
     match Run (mkLaunched addr (mkSettings p DefaultCompletedTTL) srv mux) with Some err => Err err | None => Ok (Done ()) end).
Proof.
  intros Hp Hl child.
  set (own := [(ChaosMain.roleEnv, "worker"); (ChaosMain.prefixEnv, p); (ChaosMain.workerIDEnv, Chaos.workerID i); ("REDIS_ADDR", addr)]).
  assert (∀ name v, (name, v) ∈ own → Getenv child name = v) as Hv.
  { intros name v Hin. apply (child_var environ own); [|apply (bool_decide_unpack _); by vm_compute|done].
    by repeat constructor. }
  destruct (NewServer_one PD g Chaos.queueName Chaos.concurrency Chaos.visibilityTimeout (5 * Second)
    (Some (Backoff.Next g (mkExponential (50 * Millisecond) Second (Some JitterFull) None))) (Chaos.workerID i) hostname pid NewID)
    as (srv & Hs & Hcfg & Hok); [done|].
  exists srv, (mkMux (<["chaos:work" := chaos_work]> ∅)). rewrite Hcfg. split_and!; try done.
  - intros i' E%(string_app_inj "chaos-worker-"). by apply (inj pretty) in E.
  - unfold ChaosMain.main, is_worker, ChaosMain.runWorker. rewrite (Hv ChaosMain.roleEnv "worker") by left. cbv zeta.
    rewrite (Hv ChaosMain.prefixEnv p), (Hv ChaosMain.workerIDEnv (Chaos.workerID i)), (Hv "REDIS_ADDR" addr) by (subst own; set_solver).
    by apply work_runs.
Qed.

(** The children of the benchmark, too: each takes the worker's role on the coordinator's
    server and under the run's prefix, with both handlers registered; they have no names of
    their own, but the names made up for two processes of one host differ, so that counting
    the registered names counts the processes. *)
Theorem bench_children {DB : Type} `{RedisServer DB} ReadFile PD g Unmarshal environ addr p hostname pid NewID Run coordinator c :
  p ≠ "" → loadScripts ReadFile scriptNames = None →
  let child := dedupEnv (BenchMain.child_env environ p addr) in
  ∃ srv mux,
    cfg_WorkerID (srv_cfg srv) = generateWorkerID hostname pid NewID ∧ server_ok PD Bench.worker_config srv ∧
    cfg_Queues (srv_cfg srv) = [Bench.queueName] ∧
    handlers mux !! "bench:noop" = Some BenchMain.noop ∧ handlers mux !! "bench:latency" = Some (latency_handler p Unmarshal) ∧
    (∀ pid' NewID', generateWorkerID hostname pid' NewID' = generateWorkerID hostname pid NewID → pid' = pid) ∧
    BenchMain.main child (BenchMain.runWorker ReadFile PD g Unmarshal child hostname pid NewID Run) coordinator c =
    (mkConsole (world c ++ [Disconnected]) (printed c),
     match Run (mkLaunched addr (mkSettings p DefaultCompletedTTL) srv mux) with Some err => Err err | None => Ok (Done ()) end).
Proof.
  intros Hp Hl child. set (own := [(BenchMain.roleEnv, "worker"); (BenchMain.prefixEnv, p); ("REDIS_ADDR", addr)]).
  assert (∀ name v, (name, v) ∈ own → Getenv child name = v) as Hv.
  { intros name v Hin. apply (child_var environ own); [|apply (bool_decide_unpack _); by vm_compute|done].
    by repeat constructor. }
  destruct (NewServer_one PD g Bench.queueName Bench.concurrency (30 * Second) (2 * Second) None "" hostname pid NewID)
    as (srv & Hs & Hcfg & Hok); [done|].
  exists srv, (mkMux (<["bench:latency" := latency_handler p Unmarshal]> (<["bench:noop" := BenchMain.noop]> ∅))).
  rewrite Hcfg. split_and!; try done.
  - intros pid' NewID' E. by apply generateWorkerID_pid in E.
  - unfold BenchMain.main, is_worker, BenchMain.runWorker. rewrite (Hv BenchMain.roleEnv "worker") by left. cbv zeta.
    rewrite (Hv BenchMain.prefixEnv p), (Hv "REDIS_ADDR" addr) by (subst own; set_solver). by apply work_runs.
Qed.

(** A coordinator without an address, or whose server does not answer, fails with an error, and
    so with the exit status 1, before it has started or cleaned up anything; otherwise the
    rest runs on that address, and the client is closed after it. *)
Theorem coordinator_connects {A} Error_ environ UnixNano ping (rest : string → string → demo (list effect) A) c :
  let addr := Getenv environ "REDIS_ADDR" in
  let '(c', r) := ChaosMain.runCoordinator environ UnixNano ping rest c in
  if String.eqb addr "" then c' = c ∧ (exits Error_ r).2 = 1
  else
    match ping with
    | Some err => c' = mkConsole (world c ++ [Disconnected]) (printed c) ∧ (exits Error_ r).2 = 1
    | None => let '(c1, r1) := rest (ChaosMain.run_prefix UnixNano) addr c in
        c' = mkConsole (world c1 ++ [Disconnected]) (printed c1) ∧ r = r1
    end.
Proof.
  cbv zeta. unfold ChaosMain.runCoordinator, connected. destruct (String.eqb _ ""); [done|].
  destruct ping as [err|]; [done|]. unfold deferring, mbind, demo_bind, check. cbn [fmap option_fmap option_map].
  by destruct (rest _ _ c) as [c1 r1].
Qed.

(** ** Witnesses *)

Lemma chaos_children_witness :
  let environ := ["HOME=/root"; "REDIS_ADDR=localhost:6379"; "TASKQ_CHAOS_PREFIX=mine"] in
  let child := dedupEnv (ChaosMain.child_env environ "taskq:chaos:1" "localhost:6379" 2) in
  ∃ srv, cfg_WorkerID (srv_cfg srv) = "chaos-worker-2" ∧
    ∀ coordinator, (ChaosMain.main child (ChaosMain.runWorker (λ _, Ok "") (λ _, Ok 0) (λ n, 0) tt child None 7 "id"
      (λ l, if String.eqb (prefix (l_broker l)) "taskq:chaos:1" then None else Some (errors_New "x"))) coordinator (mkConsole [] [])).2 =
      Ok (Done ()).
Proof.
  intros environ child.
  destruct (chaos_children (λ _, Ok "") (λ _, Ok 0) (λ n, 0) tt environ "localhost:6379" "taskq:chaos:1" 2 None 7 "id"
      (λ l, if String.eqb (prefix (l_broker l)) "taskq:chaos:1" then None else Some (errors_New "x"))
      (mret (Done ())) (mkConsole [] [])) as (srv & mux & Hw & _ & _ & _ & _ & _ & E).
  - discriminate.
  - reflexivity.
  - exists srv. split; [exact Hw|]. intros coordinator. exact (f_equal snd E).
Defined.
