(* ===== verification/TestUtil.v ===== *)
(** * Fixtures of the integration tests (internal/testutil)

    The container that the tests of a package share, with what is released on every way
    out, and the key prefix that keeps the tests apart. The container engine and the
    server answer as they like. *)
From Stdlib Require Import Strings.Ascii.
From S2P Require Import Prelude GoBase RedisServer RedisScripts Redis RedisKeys.

Definition RedisImage : string := "redis:7-alpine".

(** What StartRedis and its termination function do outside, in order. *)
Inductive fixture := ContainerUp | ContainerDown | ClientUp | ClientDown.
#[export] Instance fixture_eq_dec : EqDecision fixture.
Proof. solve_decision. Defined.

(** StartRedis: [run], [endpoint] and [ping] are the errors of the container's start, of its
    endpoint and of the first command. What it does at once, and on success what calling the
    termination function does; an error of terminating the container is only printed. *)
Definition stop : list fixture := [ContainerDown].
Definition StartRedis (run endpoint ping : option error) : list fixture * res (list fixture) :=
  match run with
  | Some err => ([], Err (Errorf "start redis container: %w" [] [err]))
  | None =>
      match endpoint with
      | Some err => ([ContainerUp] ++ stop, Err (Errorf "redis endpoint: %w" [] [err]))
      | None =>
          match ping with
          | Some err => ([ContainerUp; ClientUp] ++ [ClientDown] ++ stop, Err (Errorf "ping redis: %w" [] [err]))
          | None => ([ContainerUp; ClientUp], Ok ([ClientDown] ++ stop))
          end
      end
  end.

(** [strings.NewReplacer("/", "_", " ", "_", "#", "_").Replace(s)]. *)
Definition safe_char (c : ascii) : ascii :=
  if bool_decide (c ∈ ["/"; " "; "#"]%char) then "_"%char else c.
Fixpoint safe (s : string) : string :=
  match s with EmptyString => EmptyString | String c s => String (safe_char c) (safe s) end.
Definition Prefix (name : string) : string := "tq_test:" +:+ safe name.

(** ** Lemmas *)

Lemma safe_colon s : colon ∈ String.list_ascii_of_string (safe s) ↔ colon ∈ String.list_ascii_of_string s.
Proof.
  induction s as [|c s IH]; [done|]. cbn [safe String.list_ascii_of_string]. rewrite !elem_of_cons, IH.
  assert (colon = safe_char c ↔ colon = c) as ->; [|done]. unfold safe_char. case_bool_decide as Hc; [|done].
  split; [done|]. intros <-. by apply (bool_decide_pack _) in Hc.
Qed.

(** Every key of a broker has its prefix and a colon first. *)
Lemma key_colon b n : ∃ s, key b n = prefix b +:+ ":" +:+ s.
Proof. destruct n; cbn [RedisKeys.key]; eexists; reflexivity. Qed.

(** ** Properties *)

(** Whatever fails, StartRedis leaves nothing behind: each client that was opened is closed
    before its container is stopped, at once when it returns an error and by the termination
    function otherwise. *)
Theorem start_redis_releases run endpoint ping :
  let '(now, r) := StartRedis run endpoint ping in
  let all := now ++ match r with Ok later => later | Err _ => [] end in
  all ∈ [[]; [ContainerUp; ContainerDown]; [ContainerUp; ClientUp; ClientDown; ContainerDown]] ∧
  (is_ok r = true ↔ run = None ∧ endpoint = None ∧ ping = None).
Proof.
  destruct run; [|destruct endpoint; [|destruct ping]]; cbn; (split; [set_solver|naive_solver]).
Qed.

(** Tests that share a server do not see each other's keys. The brokers of two tests whose
    names differ after the replacement, and contain no colon, have no key in common, whatever
    jobs, queues, workers and leases they name. *)
Theorem test_keys_disjoint name1 name2 ttl1 ttl2 n1 n2 :
  safe name1 ≠ safe name2 → colon ∉ String.list_ascii_of_string name1 → colon ∉ String.list_ascii_of_string name2 →
  key (mkSettings (Prefix name1) ttl1) n1 ≠ key (mkSettings (Prefix name2) ttl2) n2.
Proof.
  intros Hne H1 H2 E. destruct (key_colon (mkSettings (Prefix name1) ttl1) n1) as [s1 E1].
  destruct (key_colon (mkSettings (Prefix name2) ttl2) n2) as [s2 E2]. rewrite E1, E2 in E. cbn [prefix] in E.
  apply Hne, ascii_inj. unfold Prefix in E. apply (f_equal String.list_ascii_of_string) in E. rewrite !ascii_app in E.
  rewrite <- !app_assoc in E. apply app_inv_head in E. apply (split_first colon) in E as [E _]; [done|by rewrite safe_colon..].
Qed.

(** But two tests can have the same prefix: a name that the testing package made unique with a
    suffix, and one that was written like it. *)
Theorem prefix_not_unique : Prefix "TestAck/empty#01" = Prefix "TestAck/empty_01".
Proof. reflexivity. Qed.

(** ** Witnesses *)

Lemma test_keys_disjoint_witness :
  key (mkSettings (Prefix "TestAck/lost lease") 0) (NJob "a") ≠ key (mkSettings (Prefix "TestAck") 0) (NJob "a").
Proof.
  apply test_keys_disjoint.
  - discriminate.
  - apply (bool_decide_unpack _). by vm_compute.
  - apply (bool_decide_unpack _). by vm_compute.
Defined.
